(* ===== verification/_CoqProject ===== *)
-Q . S2P
Prelude.v
Bytes.v
RpcMessage.v
LogEntry.v
RaftCommand.v
LogRecord.v
Record.v
DiskManager.v
BufferPoolManager.v
PoolInvariant.v
PageStore.v
BufferPoolSpec.v
BPlusTreeNode.v
BPlusTree.v
TreeShape.v
TreeHeap.v
TreeOrder.v
TreeSearch.v
TreeInsert.v
TreeMap.v
TreeDelete.v
TreeUnderflow.v
BPlusTreeSpec.v
WALManager.v
TableIndex.v
Table.v
TableSpec.v
TableLog.v
QuerySpec.v
StateMachine.v
RaftNode.v
RaftLocal.v
RaftHandlers.v
RaftServer.v
RaftSteps.v
RaftCluster.v
RaftElection.v
RaftLog.v
RaftApply.v
RaftScenarios.v
RaftLiveness.v
RpcTransport.v
RpcDescriptors.v
RpcServer.v
PeerAddress.v
RpcClient.v
RaftRpc.v
Main.v
