(* ===== verification/Prelude.v ===== *)
(** * QuorumDB: a verification development

    QuorumDB (src/src/) is a replicated key-value store in C++: a disk file of
    4096-byte pages, a buffer pool, a B+ tree, a write-ahead log, a table of
    records with a query engine, and a Raft cluster of nodes that talk over
    TCP and apply the committed commands to the query engine.

    ** The parts and the files that model them

    - storage/page.h, disk_manager.{h,cpp}: [DiskManager].  The backing file is
      its bytes and whether each kind of stream operation succeeds.
    - storage/buffer_pool_manager.{h,cpp}: [BufferPoolManager] (operations),
      [PoolInvariant] (their invariant), [BufferPoolSpec] (guarantees).
      [PageStore] is the interface through which tree and table use the pool.
    - storage/bplus_tree_node.h: [BPlusTreeNode], the node and its page image.
    - storage/bplus_tree.{h,cpp}: [BPlusTree] (operations, over any page
      store).  The proof: [TreeShape] (the mathematical tree), [TreeHeap] (its
      pages), [TreeOrder] (order and the map), [TreeSearch], [TreeInsert],
      [TreeMap], [TreeDelete], [TreeUnderflow], [BPlusTreeSpec].
    - storage/log_record.h, wal_manager.{h,cpp}: [LogRecord], [WALManager].
    - query/record.h: [Record].  query/table.{h,cpp}, query_engine.{h,cpp}:
      [Table], over the index interface of [TableIndex], which the B+ tree
      implements; [TableSpec], [TableLog], [QuerySpec].
    - raft/raft_command.h, state_machine.{h,cpp}: [RaftCommand],
      [StateMachine].
    - raft/log_entry.h: [LogEntry], the payload of AppendEntries.
    - raft/raft_node.{h,cpp}: [RaftNode] (state and handlers), [PeerAddress]
      (ParsePeerAddress), [RaftRpc] (the RPC threads).  [RaftLocal],
      [RaftSteps], [RaftHandlers]: what one handler does.  [RaftCluster]: many
      nodes, as events that run one handler each; [RaftElection], [RaftLog],
      [RaftApply], [RaftScenarios], [RaftLiveness]: properties of clusters.
    - raft/raft_server.{h,cpp}: [RaftServer], a node whose commit callback is
      the state machine over the query engine.
    - rpc/rpc_message.h: [RpcMessage].  rpc/rpc_server.{h,cpp},
      rpc_client.{h,cpp}: [RpcTransport] (whole frames over system calls that
      move pieces), [RpcDescriptors] (open descriptors, calls that wait),
      [RpcServer], [RpcClient].
    - main.cpp: [Main].
    - [Prelude] and [Bytes] hold what all share: the outcome monad, its
      reasoning rules, machine integers, vectors, object representations.

    The layers are joined by type classes: [PageStore] and [PageStoreLaws]
    (pool to tree), [Index] and [IndexLaws] (tree to table), [Sockets] and
    [SocketLaws], [Descriptors] and [DescriptorLaws] (operating system to RPC).  The first two are implemented in
    the development, so that BPlusTreeSpec, QuerySpec and RaftServer state
    theorems of the whole stack down to the file.

    ** How code is modelled

    A C++ function is a computation in the monad [M S]: it takes the state and
    returns an [outcome] with the state after it.  The outcome is a value, an
    exception, undefined behaviour (an index out of range, a signed overflow,
    a null dereference) or [Diverge].  A theorem that a call returns [Ret]
    thus says that it terminates, throws nothing and stays inside defined
    behaviour.  Integers are of type [Z] with [to_signed] and [to_unsigned]
    where the code casts or wraps; a signed increment that would overflow is
    undefined.  A loop whose end is not structural has fuel computed from the
    state: the number of pages handed out for walks in the tree, the gap
    between two indices for the commit and apply loops, the bytes still to
    move for socket loops, the length of the buffer for parsers.  Each of
    these is shown to be enough by the theorem that the operation returns.

    A method that holds its object's mutex from beginning to end is one
    atomic computation.  A Raft node's election loop gives up the mutex
    between deciding and sending, so sending heartbeats and opening an
    election are also events of their own; calls and replies stay in the
    cluster's state for ever and may be delivered late, in any order, more
    than once or never.  The RPC server's accept thread and the threads of its
    connections stop at each of their critical sections and may be overtaken
    there; those that [Stop] joins run on when they are joined.

    An order the language does not fix is a parameter: [FlushAllPages] takes
    the order in which the hash table yields its pages.

    ** What the theorems show

    - Storage: the operations of the pool keep its invariant; caching and
      eviction are transparent; flushed pages are durable; over any sequence
      of allocations and deallocations by the holders an allocated page is
      held by nobody; the B+ tree on pool and file is a finite map under insertion,
      deletion, search and range scan, and none of them fails within the
      stated capacity.
    - Log and table: every codec is the inverse of its parser and every parser
      is memory-safe on all inputs; after a crash the log yields all flushed
      records and nothing but a prefix of the appended ones; the query engine
      answers as a map of records and is rebuilt by replaying the log.  An
      insert that fails, for whatever reason, is nevertheless replayed.
    - Replication on one node: AppendEntries and its reply on every branch,
      the commit rule, applying once and in order, agreement of replicas.
    - Clusters: at most one leader per term; logs match; every node applies
      the indices 1, 2, 3, ... once each, with commands that were proposed; an
      election is won by one round of the election loop and the delivery of
      its requests and the replies to any majority in any order; a leader
      whose log fits on the peers of a majority commits all of it by one round
      of heartbeats and their delivery.  What is not promised is shown by concrete
      runs: committed entries may be overwritten, a process that is started
      anew may vote twice, and a node on its own never commits.
    - Transport: messages cross sockets that move pieces of any size, within
      the receiver's limit; the handler runs at most once per connection;
      stopping a server ends, even if peers are silent, and closes every
      descriptor it opened, unless one was accepted again between [close] and
      the removal from the active ones ([reused_descriptor_hangs_stop] shows
      what happens then); a Raft call over client
      and server has the effect of the cluster's delivery events.

    ** Bounds and assumptions

    Capacities are hypotheses: page ids below 2^31 - 1, the number of pages a
    tree or table may still need, log sequence numbers in 64 bits.  A cluster
    event of a node requires [log_small]: fewer than 2^32 entries, each within
    the wire format.  Nothing is assumed of sockets but [SocketLaws] and
    [DescriptorLaws], which POSIX states of stream sockets, and of which
    [RpcTransport] and [RpcDescriptors] have instances.  The accept thread of
    a server that is being stopped takes at most two more steps.

    ** What is not modelled

    - Mutexes, condition variables and threads beyond the atomicity above;
      the clock and the generator of timeouts are inputs.
    - System calls: files are bytes with success flags, sockets a parameter.
      That a call blocks for ever is represented for the exchange of a server's
      connection with its peer only ([waits]); [accept] is called after
      [select] and assumed to return, and so are the calls of the client, which
      sets timeouts.  That [send] on a closed connection raises SIGPIPE, which
      ends the process, is not represented.
    - Exhausted memory and threads ([std::bad_alloc], [std::system_error]) and
      vector capacity.
    - The restart of a Raft process, except in [RaftScenarios]. *)

From stdpp Require Export base tactics list gmap fin_maps strings.
From Stdlib Require Export ZArith Lia.

(** ** Results of running C++ code

    A call returns a value, throws, runs into undefined behaviour (an
    out-of-range access, a signed overflow, a read past the end of a
    buffer), or has not finished within the iterations it was given. *)

Inductive exn :=
  | runtime_error (what : string)
  | invalid_argument (what : string)
  | out_of_range (what : string).

Inductive outcome (A : Type) :=
  | Ret (a : A)
  | Throw (e : exn)
  | Undef
  | Diverge.
Arguments Ret {A} a.
Arguments Throw {A} e.
Arguments Undef {A}.
Arguments Diverge {A}.

#[export] Instance exn_eq_dec : EqDecision exn.
Proof. solve_decision. Defined.

#[export] Instance outcome_eq_dec `{EqDecision A} : EqDecision (outcome A).
Proof. solve_decision. Defined.

(** ** The state, exception and undefined-behaviour monad

    The state is kept when an exception leaves a function: what the code
    changed before the throw stays changed. *)

Definition M (S A : Type) : Type := S → outcome A * S.

#[export] Instance M_ret S : MRet (M S) := λ A a s, (Ret a, s).

#[export] Instance M_bind S : MBind (M S) := λ A B k m s,
  match m s with
  | (Ret a, s') => k a s'
  | (Throw e, s') => (Throw e, s')
  | (Undef, s') => (Undef, s')
  | (Diverge, s') => (Diverge, s')
  end.

Definition throw {S A} (e : exn) : M S A := λ s, (Throw e, s).
Definition undef {S A} : M S A := λ s, (Undef, s).
Definition diverge {S A} : M S A := λ s, (Diverge, s).
Definition gets {S A} (f : S → A) : M S A := λ s, (Ret (f s), s).
Definition modify {S} (f : S → S) : M S unit := λ s, (Ret tt, f s).

(** An outcome computed without state. *)
Definition lift {S A} (o : outcome A) : M S A := λ s, (o, s).

(** Element access with [operator[]]: out of range is undefined. *)
Definition at_ {S A} (l : list A) (i : nat) : M S A :=
  match l !! i with Some a => mret a | None => undef end.

(** [operator[]] with a signed index. *)
Definition at_z {S A} (l : list A) (i : Z) : M S A :=
  if (i <? 0)%Z then undef else at_ l (Z.to_nat i).

(** Running a computation on a component of the state. *)
Definition zoom {S T A} (get : S → T) (set : T → S → S) (m : M T A) : M S A :=
  λ s, let '(o, t) := m (get s) in (o, set t s).

(** A loop over the elements of a vector. *)
Fixpoint for_each {S A} (l : list A) (f : A → M S unit) : M S unit :=
  match l with
  | [] => mret tt
  | a :: l => f a ≫= λ _, for_each l f
  end.

Definition when {S} (c : bool) (m : M S unit) : M S unit :=
  if c then m else mret tt.

(** ** Total-correctness reasoning

    [wp m s Q]: started in [s], [m] returns (no exception, no undefined
    behaviour, it terminates) and its value and final state satisfy [Q]. *)

Definition wp {S A} (m : M S A) (s : S) (Q : A → S → Prop) : Prop :=
  match m s with
  | (Ret a, s') => Q a s'
  | _ => False
  end.

Section wp.
Context {S : Type}.
Implicit Types s : S.

Lemma wp_run {A} (m : M S A) s Q :
  wp m s Q ↔ ∃ a s', m s = (Ret a, s') ∧ Q a s'.
Proof.
  unfold wp. split.
  - destruct (m s) as [[a| | |] s'] eqn:E; try done. eauto.
  - intros (a & s' & -> & HQ). done.
Qed.

Lemma wp_eq {A} (m : M S A) s a s' (Q : A → S → Prop) :
  m s = (Ret a, s') → Q a s' → wp m s Q.
Proof. intros Hm HQ. unfold wp. by rewrite Hm. Qed.

(** Two runs with the same result. *)
Lemma wp_same {A} (m m' : M S A) s s' (Q : A → S → Prop) :
  m s = m' s' → wp m' s' Q → wp m s Q.
Proof. unfold wp. by intros ->. Qed.

Lemma wp_bind {A B} (m : M S A) (k : A → M S B) s Q :
  wp m s (λ a s', wp (k a) s' Q) → wp (m ≫= k) s Q.
Proof.
  unfold wp, mbind, M_bind. destruct (m s) as [[a| | |] s']; done.
Qed.

Lemma wp_mono {A} (m : M S A) s (P Q : A → S → Prop) :
  wp m s P → (∀ a s', P a s' → Q a s') → wp m s Q.
Proof.
  unfold wp. destruct (m s) as [[a| | |] s']; try done. auto.
Qed.

Lemma wp_ret {A} (a : A) s (Q : A → S → Prop) : Q a s → wp (mret a) s Q.
Proof. done. Qed.

Lemma wp_gets {A} (f : S → A) s Q : Q (f s) s → wp (gets f) s Q.
Proof. done. Qed.

Lemma wp_modify (f : S → S) s Q : Q tt (f s) → wp (modify f) s Q.
Proof. done. Qed.

Lemma wp_lift {A} (a : A) s (Q : A → S → Prop) :
  Q a s → wp (lift (Ret a)) s Q.
Proof. done. Qed.

Lemma wp_at {A} (l : list A) i a s (Q : A → S → Prop) :
  l !! i = Some a → Q a s → wp (at_ l i) s Q.
Proof. intros Hl HQ. unfold at_. by rewrite Hl. Qed.

Lemma wp_when_true (m : M S unit) s Q : wp m s Q → wp (when true m) s Q.
Proof. done. Qed.

Lemma wp_when_false (m : M S unit) s Q : Q tt s → wp (when false m) s Q.
Proof. done. Qed.

Lemma wp_zoom {T A} (get : S → T) (set : T → S → S) (m : M T A) s Q :
  wp m (get s) (λ a t, Q a (set t s)) → wp (zoom get set m) s Q.
Proof.
  unfold wp, zoom. destruct (m (get s)) as [[a| | |] t]; done.
Qed.

Lemma wp_bind_inv {A B} (m : M S A) (k : A → M S B) s Q :
  wp (m ≫= k) s Q → wp m s (λ a s', wp (k a) s' Q).
Proof.
  unfold wp, mbind, M_bind. destruct (m s) as [[a| | |] s']; done.
Qed.

(** Running a bind, by the outcome of its first half. *)
Lemma bind_ret {A B} (m : M S A) (k : A → M S B) s a s' :
  m s = (Ret a, s') → (m ≫= k) s = k a s'.
Proof. intros H. unfold mbind, M_bind. by rewrite H. Qed.

Lemma bind_throw {A B} (m : M S A) (k : A → M S B) s e s' :
  m s = (Throw e, s') → (m ≫= k) s = (Throw e, s').
Proof. intros H. unfold mbind, M_bind. by rewrite H. Qed.

Lemma bind_undef {A B} (m : M S A) (k : A → M S B) s s' :
  m s = (Undef, s') → (m ≫= k) s = (Undef, s').
Proof. intros H. unfold mbind, M_bind. by rewrite H. Qed.

Lemma bind_assoc {A B C} (m : M S A) (f : A → M S B) (g : B → M S C) s :
  ((m ≫= f) ≫= g) s = (m ≫= λ a, f a ≫= g) s.
Proof. unfold mbind, M_bind. destruct (m s) as [[a| | |] s']; done. Qed.

(** A loop that keeps an invariant indexed by the elements done so far. *)
Lemma wp_for_each {A} (I : list A → S → Prop) (l : list A) (f : A → M S unit) s :
  I [] s →
  (∀ pre a rest s', l = pre ++ a :: rest → I pre s' →
     wp (f a) s' (λ _ s'', I (pre ++ [a]) s'')) →
  wp (for_each l f) s (λ _ s', I l s').
Proof.
  intros H0 Hstep.
  cut (∀ rest pre s', l = pre ++ rest → I pre s' →
         wp (for_each rest f) s' (λ _ s'', I l s'')).
  { intros H. by apply (H l [] s). }
  induction rest as [|a rest IH]; intros pre s' Hl Hs'; simpl.
  - apply wp_ret. rewrite app_nil_r in Hl. by rewrite Hl.
  - apply wp_bind. eapply wp_mono; [by eapply Hstep|].
    intros [] s'' H. apply (IH (pre ++ [a])); [|done].
    by rewrite <- app_assoc.
Qed.
End wp.

(** ** Partial correctness

    [wlp m s Q]: if [m] returns, its value and final state satisfy [Q]. *)

Definition wlp {S A} (m : M S A) (s : S) (Q : A → S → Prop) : Prop :=
  ∀ a s', m s = (Ret a, s') → Q a s'.

Section wlp.
Context {S : Type}.
Implicit Types s : S.

Lemma wlp_bind {A B} (m : M S A) (k : A → M S B) s Q :
  wlp m s (λ a s', wlp (k a) s' Q) → wlp (m ≫= k) s Q.
Proof.
  unfold wlp, mbind, M_bind. intros H b s2. destruct (m s) as [[a| | |] s']; try done.
  intros E. by eapply H.
Qed.

Lemma wlp_mono {A} (m : M S A) s (P Q : A → S → Prop) :
  wlp m s P → (∀ a s', P a s' → Q a s') → wlp m s Q.
Proof. unfold wlp. eauto. Qed.

Lemma wlp_ret {A} (a : A) s (Q : A → S → Prop) : Q a s → wlp (mret a) s Q.
Proof. by intros HQ ? ? [= <- <-]. Qed.

Lemma wlp_gets {A} (f : S → A) s Q : Q (f s) s → wlp (gets f) s Q.
Proof. by intros HQ ? ? [= <- <-]. Qed.

Lemma wlp_modify (f : S → S) s Q : Q tt (f s) → wlp (modify f) s Q.
Proof. by intros HQ ? ? [= <- <-]. Qed.

Lemma wlp_lift {A} (o : outcome A) s (Q : A → S → Prop) :
  (∀ a, o = Ret a → Q a s) → wlp (lift o) s Q.
Proof. intros HQ a s' [= -> <-]. by apply HQ. Qed.

Lemma wlp_at_z {A} (l : list A) i s (Q : A → S → Prop) :
  (∀ a, (0 <= i)%Z → l !! Z.to_nat i = Some a → Q a s) → wlp (at_z l i) s Q.
Proof.
  intros HQ a s'. unfold at_z, at_. destruct (Z.ltb_spec i 0); [done|].
  destruct (l !! Z.to_nat i) eqn:E; [|done]. intros [= <- <-]. by apply HQ.
Qed.

Lemma wlp_zoom {T A} (get : S → T) (set : T → S → S) (m : M T A) s Q :
  (∀ a t, Q a (set t s)) → wlp (zoom get set m) s Q.
Proof. intros HQ a s'. unfold zoom. destruct (m (get s)) as [o t]. by intros [= -> <-]. Qed.

Lemma wlp_wp {A} (m : M S A) s Q : wp m s Q → wlp m s Q.
Proof. unfold wp, wlp. intros H a s' E. by rewrite E in H. Qed.

Lemma wp_and_wlp {A} (m : M S A) s P Q :
  wp m s P → wlp m s Q → wp m s (λ a s', P a s' ∧ Q a s').
Proof. unfold wp, wlp. intros HP HQ. destruct (m s) as [[a| | |] s'] eqn:E; eauto. Qed.
End wlp.

(** ** Any outcome

    [ends m s Q]: the outcome of [m], be it a value or an exception, and its
    final state satisfy [Q]. *)

Definition ends {S A} (m : M S A) (s : S) (Q : outcome A → S → Prop) : Prop :=
  Q (fst (m s)) (snd (m s)).

Section ends.
Context {S : Type}.
Implicit Types s : S.

Lemma ends_bind {A B} (m : M S A) (k : A → M S B) s Q :
  wp m s (λ a s', ends (k a) s' Q) → ends (m ≫= k) s Q.
Proof. unfold wp, ends, mbind, M_bind. by destruct (m s) as [[a| | |] s']. Qed.

Lemma ends_throw {A} e s (Q : outcome A → S → Prop) : Q (Throw e) s → ends (throw e) s Q.
Proof. done. Qed.

Lemma ends_wp {A} (m : M S A) s (Q : outcome A → S → Prop) :
  wp m s (λ a s', Q (Ret a) s') → ends m s Q.
Proof. unfold wp, ends. by destruct (m s) as [[a| | |] s']. Qed.
End ends.

(** Unfolds the next instruction of a program under [wlp]. *)
Ltac wlp_step :=
  lazymatch goal with
  | |- wlp (_ ≫= _) _ _ => apply wlp_bind
  | |- wlp (mret _) _ _ => apply wlp_ret
  | |- wlp (gets _) _ _ => apply wlp_gets
  | |- wlp (modify _) _ _ => apply wlp_modify
  | |- wlp (when true _) _ _ => unfold when
  | |- wlp (when false _) _ _ => unfold when
  end; cbn beta.

Ltac wlp_steps := repeat wlp_step.

(** Unfolds the next instruction of a program under [wp]. *)
Ltac wp_step :=
  lazymatch goal with
  | |- wp (_ ≫= _) _ _ => apply wp_bind
  | |- wp (mret _) _ _ => apply wp_ret
  | |- wp (gets _) _ _ => apply wp_gets
  | |- wp (modify _) _ _ => apply wp_modify
  | |- wp (lift (Ret _)) _ _ => apply wp_lift
  | |- wp (when true _) _ _ => apply wp_when_true
  | |- wp (when false _) _ _ => apply wp_when_false
  | |- wp (zoom _ _ _) _ _ => apply wp_zoom
  end; cbn beta.

Ltac wp_steps := repeat wp_step.

(** Continue after a call whose specification is [H]. *)
Tactic Notation "wp_call" uconstr(H) := eapply wp_mono; [eapply H|]; cbn beta.

(** Splits a boolean test of the goal, keeping what it says. *)
Ltac case_bool :=
  match goal with
  | |- context [if ?b then _ else _] =>
      lazymatch type of b with bool => destruct b eqn:? end
  end.

(** Right-nested concatenations. *)
Ltac app_norm := repeat first [rewrite <- app_assoc | progress cbn [app]].

(** ** Machine integers *)

Section machine.
Local Open Scope Z_scope.

(** [static_cast] to an unsigned and to a signed type of width [w]. *)
Definition to_unsigned (w z : Z) : Z := z mod 2 ^ w.
Definition to_signed (w z : Z) : Z :=
  let u := z mod 2 ^ w in if u <? 2 ^ (w - 1) then u else u - 2 ^ w.

Definition in_signed (w z : Z) : Prop := - 2 ^ (w - 1) ≤ z < 2 ^ (w - 1).
Definition in_unsigned (w z : Z) : Prop := 0 ≤ z < 2 ^ w.

#[export] Instance in_signed_dec w z : Decision (in_signed w z).
Proof. unfold in_signed. apply _. Defined.
#[export] Instance in_unsigned_dec w z : Decision (in_unsigned w z).
Proof. unfold in_unsigned. apply _. Defined.

Definition int32_max : Z := 2147483647.
Definition int64_max : Z := 9223372036854775807.

Lemma to_signed_unsigned w z : to_signed w (to_unsigned w z) = to_signed w z.
Proof. unfold to_signed, to_unsigned. by rewrite Zmod_mod. Qed.

Lemma to_unsigned_signed w z : 0 ≤ w → to_unsigned w (to_signed w z) = to_unsigned w z.
Proof.
  intros Hw. unfold to_signed, to_unsigned. cbv zeta.
  assert (0 < 2 ^ w) by (apply Z.pow_pos_nonneg; lia).
  destruct (Z.ltb_spec (z mod 2 ^ w) (2 ^ (w - 1))).
  - by rewrite Zmod_mod.
  - rewrite <- (Z_mod_plus_full (_ - _) 1), Z.mul_1_l, Z.sub_add. by rewrite Zmod_mod.
Qed.

Lemma to_signed_small w z : 0 < w → in_signed w z → to_signed w z = z.
Proof.
  unfold to_signed, in_signed. intros Hw Hz.
  assert (2 ^ w = 2 * 2 ^ (w - 1)) as Hp.
  { rewrite <- Z.pow_succ_r by lia. f_equal. lia. }
  assert (0 < 2 ^ (w - 1)) by (apply Z.pow_pos_nonneg; lia).
  destruct (Z.neg_nonneg_cases z) as [Hn|Hn].
  - assert (z mod 2 ^ w = z + 2 ^ w) as ->.
    { symmetry. apply (Z.mod_unique_pos _ _ (-1)); lia. }
    destruct (Z.ltb_spec (z + 2 ^ w) (2 ^ (w - 1))); lia.
  - rewrite Z.mod_small by lia.
    destruct (Z.ltb_spec z (2 ^ (w - 1))); lia.
Qed.

Lemma to_signed_range w z : 0 < w → in_signed w (to_signed w z).
Proof.
  unfold to_signed, in_signed. intros Hw.
  assert (2 ^ w = 2 * 2 ^ (w - 1)) as Hp.
  { rewrite <- Z.pow_succ_r by lia. f_equal. lia. }
  assert (0 < 2 ^ (w - 1)) by (apply Z.pow_pos_nonneg; lia).
  pose proof (Z.mod_pos_bound z (2 ^ w) ltac:(lia)).
  destruct (Z.ltb_spec (z mod 2 ^ w) (2 ^ (w - 1))); lia.
Qed.

Lemma to_unsigned_small w z : in_unsigned w z → to_unsigned w z = z.
Proof. intros H. by apply Z.mod_small. Qed.

(** [++x] and [x++] on a signed variable: overflow is undefined. *)
Definition incr_signed {S} (w x : Z) : M S Z :=
  if x =? 2 ^ (w - 1) - 1 then undef else mret (x + 1).
End machine.

(** ** Vectors: the operations of [std::vector] and [<algorithm>] *)

Section vectors.
Context {A : Type}.
Implicit Types l : list A.

(** [v.insert(v.begin() + i, x)] and [v.erase(v.begin() + i)]. *)
Definition insert_at (i : nat) (x : A) l : list A := take i l ++ x :: drop i l.
Definition erase_at (i : nat) l : list A := take i l ++ drop (S i) l.

Lemma length_insert_at i x l : length (insert_at i x l) = S (length l).
Proof.
  unfold insert_at. rewrite length_app, length_take, length_cons, length_drop.
  lia.
Qed.

Lemma length_erase_at i l :
  i < length l → length (erase_at i l) = length l - 1.
Proof.
  intros. unfold erase_at. rewrite length_app, length_take, length_drop. lia.
Qed.

Lemma insert_at_app l1 l2 x i :
  i = length l1 → insert_at i x (l1 ++ l2) = l1 ++ x :: l2.
Proof.
  intros ->. unfold insert_at. by rewrite take_app_length, drop_app_length.
Qed.

Lemma erase_at_app l1 l2 x i :
  i = length l1 → erase_at i (l1 ++ x :: l2) = l1 ++ l2.
Proof.
  intros ->. unfold erase_at. rewrite take_app_length. f_equal.
  replace (S (length l1)) with (length l1 + 1) by lia.
  rewrite <- drop_drop. by rewrite drop_app_length.
Qed.

Lemma insert_app_mid l1 l2 x y i :
  i = length l1 → <[i:=y]> (l1 ++ x :: l2) = l1 ++ y :: l2.
Proof.
  intros ->. rewrite insert_app_r_alt by lia.
  by replace (length l1 - length l1) with 0 by lia.
Qed.

Lemma lookup_app_mid l1 l2 x i :
  i = length l1 → (l1 ++ x :: l2) !! i = Some x.
Proof. intros ->. by apply list_lookup_middle. Qed.
End vectors.

(** Element writes, insertions and removals with their preconditions: outside
    of the vector the behaviour is undefined. *)
Section vector_ops.
Context {S A : Type}.
Implicit Types (l : list A) (s : S).

Definition vset (i : nat) (x : A) l : M S (list A) :=
  if decide (i < length l) then mret (<[i := x]> l) else undef.
Definition vinsert (i : nat) (x : A) l : M S (list A) :=
  if decide (i <= length l) then mret (insert_at i x l) else undef.
Definition verase (i : nat) l : M S (list A) :=
  if decide (i < length l) then mret (erase_at i l) else undef.
Definition vfront l : M S A := at_ l 0.
Definition vback l : M S A :=
  match last l with Some x => mret x | None => undef end.
Definition vpop_back l : M S (list A) :=
  match l with [] => undef | _ => mret (take (length l - 1) l) end.

Lemma vset_app i x y l1 l2 s :
  i = length l1 → vset i y (l1 ++ x :: l2) s = (Ret (l1 ++ y :: l2), s).
Proof.
  intros ->. unfold vset. rewrite decide_True by (rewrite length_app; simpl; lia).
  by rewrite insert_app_mid.
Qed.

Lemma vinsert_app i x l1 l2 s :
  i = length l1 → vinsert i x (l1 ++ l2) s = (Ret (l1 ++ x :: l2), s).
Proof.
  intros ->. unfold vinsert. rewrite decide_True by (rewrite length_app; lia).
  by rewrite insert_at_app.
Qed.

Lemma verase_app i x l1 l2 s :
  i = length l1 → verase i (l1 ++ x :: l2) s = (Ret (l1 ++ l2), s).
Proof.
  intros ->. unfold verase. rewrite decide_True by (rewrite length_app; simpl; lia).
  by rewrite erase_at_app.
Qed.

Lemma at_app i x l1 l2 s : i = length l1 → at_ (l1 ++ x :: l2) i s = (Ret x, s).
Proof. intros ->. unfold at_. by rewrite list_lookup_middle. Qed.

Lemma vback_app l x s : vback (l ++ [x]) s = (Ret x, s).
Proof. unfold vback. by rewrite last_snoc. Qed.

Lemma vpop_back_app l x s : vpop_back (l ++ [x]) s = (Ret l, s).
Proof.
  unfold vpop_back. destruct (l ++ [x]) eqn:E; [by destruct l|].
  rewrite <- E, length_app. simpl. by rewrite Nat.add_sub, take_app_length.
Qed.
End vector_ops.

Create Rewrite HintDb qdb_length.
#[export] Hint Rewrite @length_insert_at @length_app @length_cons @length_nil
  @length_take @length_drop @length_replicate @length_insert @length_fmap @length_map
  : qdb_length.

(** Linear arithmetic after computing the lengths of lists. *)
Ltac len := autorewrite with qdb_length in *; lia.

Section search.
Local Open Scope Z_scope.

(** [std::lower_bound] on a sorted range: the number of leading elements
    below the key; [std::upper_bound]: those not above it. *)
Fixpoint lower_bound (l : list Z) (k : Z) : nat :=
  match l with
  | [] => O
  | x :: l => if x <? k then S (lower_bound l k) else O
  end.
Fixpoint upper_bound (l : list Z) (k : Z) : nat :=
  match l with
  | [] => O
  | x :: l => if k <? x then O else S (upper_bound l k)
  end.

(** [std::find]: the position of the first occurrence, or the length. *)
Fixpoint find_pos (l : list Z) (x : Z) : nat :=
  match l with
  | [] => O
  | y :: l => if y =? x then O else S (find_pos l x)
  end.

Lemma find_pos_app l1 l2 x :
  x ∉ l1 → find_pos (l1 ++ x :: l2) x = length l1.
Proof.
  induction l1 as [|y l1 IH]; simpl; intros Hx.
  - by rewrite Z.eqb_refl.
  - apply not_elem_of_cons in Hx as [Hne Hx].
    destruct (Z.eqb_spec y x); [congruence|]. by rewrite IH.
Qed.

Lemma lower_bound_le l k : (lower_bound l k ≤ length l)%nat.
Proof. induction l as [|x l IH]; simpl; [lia|]. destruct (x <? k); lia. Qed.

Lemma upper_bound_le l k : (upper_bound l k ≤ length l)%nat.
Proof. induction l as [|x l IH]; simpl; [lia|]. destruct (k <? x); lia. Qed.
End search.
