(* ===== verification/Bytes.v ===== *)
(** * Bytes, integers in memory, and buffers

    The object representations the codecs copy with [std::memcpy]:
    little-endian host integers, big-endian (network) integers after
    [htonl]; the write cursor of a serializer (a zero-filled buffer and an
    offset) and the read cursor of a deserializer.  An access outside the
    buffer is undefined behaviour, so a theorem that a codec returns says
    that it stays inside its buffer. *)

From Stdlib Require Export Strings.Byte.
From Stdlib Require Import NArith.
From S2P Require Export Prelude.

Local Open Scope Z_scope.

Abbreviation bytes := (list byte).

#[export] Instance byte_eq_dec_inst : EqDecision byte := Byte.byte_eq_dec.

(** ** Bytes and integers *)

Definition byte_of_Z (z : Z) : byte :=
  default x00 (Byte.of_N (Z.to_N (z mod 256))).
Definition Z_of_byte (b : byte) : Z := Z.of_N (Byte.to_N b).

Lemma Z_of_byte_range b : 0 ≤ Z_of_byte b < 256.
Proof. unfold Z_of_byte. pose proof (Byte.to_N_bounded b). lia. Qed.

Lemma Z_of_byte_of_Z z : Z_of_byte (byte_of_Z z) = z mod 256.
Proof.
  unfold Z_of_byte, byte_of_Z.
  pose proof (Z.mod_pos_bound z 256 ltac:(lia)) as Hb.
  destruct (Byte.of_N (Z.to_N (z mod 256))) as [b|] eqn:E; simpl.
  - apply Byte.to_of_N in E. rewrite E. lia.
  - apply Byte.of_N_None_iff in E. lia.
Qed.

Lemma byte_of_Z_of_byte b : byte_of_Z (Z_of_byte b) = b.
Proof.
  unfold byte_of_Z. rewrite Z.mod_small by apply Z_of_byte_range.
  unfold Z_of_byte. by rewrite N2Z.id, Byte.of_to_N.
Qed.

(** The [n]-byte little-endian object representation of an integer. *)
Fixpoint le_bytes (n : nat) (z : Z) : bytes :=
  match n with
  | O => []
  | S n => byte_of_Z z :: le_bytes n (z / 256)
  end.

Fixpoint le_val (bs : bytes) : Z :=
  match bs with
  | [] => 0
  | b :: bs => Z_of_byte b + 256 * le_val bs
  end.

(** Network byte order. *)
Definition be_bytes (n : nat) (z : Z) : bytes := rev (le_bytes n z).
Definition be_val (bs : bytes) : Z := le_val (rev bs).

Lemma length_le_bytes n z : length (le_bytes n z) = n.
Proof. revert z. induction n as [|n IH]; intros z; cbn; [done|]. by rewrite IH. Qed.

Lemma length_be_bytes n z : length (be_bytes n z) = n.
Proof. unfold be_bytes. by rewrite length_rev, length_le_bytes. Qed.

#[export] Hint Rewrite length_le_bytes length_be_bytes : qdb_length.

Lemma le_val_bytes n z : le_val (le_bytes n z) = z mod 2 ^ (8 * Z.of_nat n).
Proof.
  revert z. induction n as [|n IH]; intros z; cbn [le_bytes le_val].
  - by rewrite Z.mod_1_r.
  - rewrite Z_of_byte_of_Z, IH.
    replace (8 * Z.of_nat (S n)) with (8 + 8 * Z.of_nat n) by lia.
    rewrite Z.pow_add_r by lia. change (2 ^ 8) with 256.
    rewrite Z.rem_mul_r; [lia|lia|]. apply Z.pow_pos_nonneg; lia.
Qed.

Lemma le_val_range bs : 0 ≤ le_val bs < 2 ^ (8 * Z.of_nat (length bs)).
Proof.
  induction bs as [|b bs IH]; simpl; [lia|].
  pose proof (Z_of_byte_range b).
  replace (8 * Z.of_nat (S (length bs))) with (8 + 8 * Z.of_nat (length bs)) by lia.
  rewrite Z.pow_add_r by lia. change (2 ^ 8) with 256. lia.
Qed.

Lemma le_bytes_val bs : le_bytes (length bs) (le_val bs) = bs.
Proof.
  induction bs as [|b bs IH]; cbn [length le_bytes le_val]; [done|].
  pose proof (Z_of_byte_range b).
  assert ((Z_of_byte b + 256 * le_val bs) / 256 = le_val bs) as ->.
  { rewrite Z.mul_comm, Z.div_add by lia. rewrite Z.div_small; lia. }
  rewrite IH. f_equal. unfold byte_of_Z.
  assert ((Z_of_byte b + 256 * le_val bs) mod 256 = Z_of_byte b) as ->.
  { rewrite Z.mul_comm, Z_mod_plus_full. by apply Z.mod_small. }
  unfold Z_of_byte. by rewrite N2Z.id, Byte.of_to_N.
Qed.

Lemma be_val_bytes n z : be_val (be_bytes n z) = z mod 2 ^ (8 * Z.of_nat n).
Proof. unfold be_val, be_bytes. by rewrite rev_involutive, le_val_bytes. Qed.

Lemma be_val_range bs : 0 ≤ be_val bs < 2 ^ (8 * Z.of_nat (length bs)).
Proof. unfold be_val. rewrite <- (length_rev bs). apply le_val_range. Qed.

Arguments le_bytes : simpl never.
Arguments be_bytes : simpl never.

(** Reading back a signed integer of the width of the field. *)
Lemma to_signed_le_val n z :
  (0 < n)%nat → in_signed (8 * Z.of_nat n) z →
  to_signed (8 * Z.of_nat n) (le_val (le_bytes n z)) = z.
Proof.
  intros Hn Hz. rewrite le_val_bytes. fold (to_unsigned (8 * Z.of_nat n) z).
  rewrite to_signed_unsigned. apply to_signed_small; [lia|done].
Qed.

Lemma to_signed_be_val n z :
  (0 < n)%nat → in_signed (8 * Z.of_nat n) z →
  to_signed (8 * Z.of_nat n) (be_val (be_bytes n z)) = z.
Proof.
  intros Hn Hz. rewrite be_val_bytes, <- le_val_bytes. by apply to_signed_le_val.
Qed.

(** ** Writing: a preallocated buffer and an offset *)

Record wbuf := WBuf { wb_data : bytes; wb_off : nat }.

(** [std::string bytes(size, 0)] and the offset 0. *)
Definition wbuf_new (size : nat) : wbuf := WBuf (replicate size x00) 0.

(** [std::memcpy(data + offset, src, n); offset += n;] *)
Definition write_bytes (bs : bytes) : M wbuf unit := λ w,
  if decide (wb_off w + length bs ≤ length (wb_data w))%nat then
    (Ret tt, WBuf (list_inserts (wb_off w) bs (wb_data w)) (wb_off w + length bs))
  else (Undef, w).

(** The serialized string of a writer run on a fresh buffer. *)
Definition run_writer (size : nat) (m : M wbuf unit) : outcome bytes :=
  match m (wbuf_new size) with
  | (Ret _, w) => Ret (wb_data w)
  | (Throw e, _) => Throw e
  | (Undef, _) => Undef
  | (Diverge, _) => Diverge
  end.

(** The state of a writer that has written [done] of a zero buffer. *)
Definition wbuf_at (pre : bytes) (room : nat) : wbuf :=
  WBuf (pre ++ replicate room x00) (length pre).

Lemma wbuf_new_at size : wbuf_new size = wbuf_at [] size.
Proof. done. Qed.

Lemma list_inserts_zeros (pre bs : bytes) room :
  list_inserts (length pre) bs (pre ++ replicate (length bs + room) x00) =
  (pre ++ bs) ++ replicate room x00.
Proof.
  revert pre. induction bs as [|b bs IH]; intros pre; simpl.
  - by rewrite app_nil_r.
  - assert (pre ++ x00 :: replicate (length bs + room) x00 =
            (pre ++ [x00]) ++ replicate (length bs + room) x00) as ->
      by by rewrite <- app_assoc.
    replace (S (length pre)) with (length (pre ++ [x00])) by len.
    rewrite IH, <- !app_assoc. simpl.
    by rewrite insert_app_mid.
Qed.

Lemma write_bytes_at pre bs room :
  write_bytes bs (wbuf_at pre (length bs + room)) =
  (Ret tt, wbuf_at (pre ++ bs) room).
Proof.
  unfold write_bytes, wbuf_at; simpl.
  rewrite decide_True by len. rewrite list_inserts_zeros.
  f_equal. by rewrite length_app.
Qed.

(** A writer that emits exactly [bs], whatever was written before. *)
Definition writes (m : M wbuf unit) (bs : bytes) : Prop :=
  ∀ pre room, m (wbuf_at pre (length bs + room)) = (Ret tt, wbuf_at (pre ++ bs) room).

Lemma writes_bytes bs : writes (write_bytes bs) bs.
Proof. intros pre room. apply write_bytes_at. Qed.

Lemma writes_ret : writes (mret tt) [].
Proof. intros pre room. by rewrite app_nil_r. Qed.

Lemma writes_seq m1 m2 b1 b2 :
  writes m1 b1 → writes m2 b2 → writes (m1 ≫= λ _, m2) (b1 ++ b2).
Proof.
  intros H1 H2 pre room. rewrite length_app, <- Nat.add_assoc.
  erewrite bind_ret by apply H1. rewrite H2. by rewrite app_assoc.
Qed.

Lemma writes_for_each {A} (f : A → M wbuf unit) (g : A → bytes) l :
  (∀ a, a ∈ l → writes (f a) (g a)) → writes (for_each l f) (mjoin (g <$> l)).
Proof.
  induction l as [|a l IH]; intros Hf; simpl.
  - apply writes_ret.
  - apply writes_seq; [apply Hf; left|]. apply IH. intros. apply Hf. by right.
Qed.

Lemma run_writer_writes m bs size :
  writes m bs → (length bs ≤ size)%nat →
  run_writer size m = Ret (bs ++ replicate (size - length bs) x00).
Proof.
  intros Hm Hsz. unfold run_writer.
  replace size with (length bs + (size - length bs))%nat at 1 by lia.
  rewrite wbuf_new_at, Hm. done.
Qed.

Create HintDb writers.
#[export] Hint Resolve writes_bytes writes_ret writes_seq : writers.

(** ** Reading: the received bytes and an offset *)

Record rbuf := RBuf { rb_data : bytes; rb_off : nat }.

(** [std::memcpy(dst, data + offset, n); offset += n;] *)
Definition read_bytes (n : nat) : M rbuf bytes := λ r,
  if decide (rb_off r + n ≤ length (rb_data r))%nat then
    (Ret (take n (drop (rb_off r) (rb_data r))), RBuf (rb_data r) (rb_off r + n))
  else (Undef, r).

(** The state of a reader that has consumed [pre] and has [post] left. *)
Definition rbuf_at (pre post : bytes) : rbuf := RBuf (pre ++ post) (length pre).

Lemma rbuf_start bs : RBuf bs 0 = rbuf_at [] bs.
Proof. done. Qed.

Lemma read_bytes_at pre bs post n :
  length bs = n →
  read_bytes n (rbuf_at pre (bs ++ post)) = (Ret bs, rbuf_at (pre ++ bs) post).
Proof.
  intros <-. unfold read_bytes, rbuf_at; simpl.
  rewrite decide_True by len. rewrite drop_app_length, take_app_length.
  f_equal. by rewrite app_assoc, length_app.
Qed.

Lemma read_bytes_split pre post n :
  (n ≤ length post)%nat →
  read_bytes n (rbuf_at pre post) =
  (Ret (take n post), rbuf_at (pre ++ take n post) (drop n post)).
Proof.
  intros Hn. rewrite <- (take_drop n post) at 1.
  apply read_bytes_at. len.
Qed.

(** ** Fixed-width fields *)

Definition write_le (n : nat) (z : Z) : M wbuf unit := write_bytes (le_bytes n z).
Definition read_le (n : nat) : M rbuf Z := bs ← read_bytes n; mret (le_val bs).

(** [htonl] then [memcpy]; [memcpy] then [ntohl]. *)
Definition write_u32 (z : Z) : M wbuf unit := write_bytes (be_bytes 4 z).
Definition read_u32 : M rbuf Z := bs ← read_bytes 4; mret (be_val bs).

(** The high then the low half of a 64-bit integer. *)
Definition write_u64 (z : Z) : M wbuf unit :=
  write_u32 (Z.shiftr z 32) ;; write_u32 (Z.land z 4294967295).
Definition read_u64 : M rbuf Z :=
  high ← read_u32; low ← read_u32; mret (Z.lor (Z.shiftl high 32) low).

Definition u64_bytes (z : Z) : bytes :=
  be_bytes 4 (Z.shiftr z 32) ++ be_bytes 4 (Z.land z 4294967295).

Arguments u64_bytes : simpl never.

Lemma length_u64_bytes z : length (u64_bytes z) = 8%nat.
Proof. unfold u64_bytes. by rewrite length_app, !length_be_bytes. Qed.

#[export] Hint Rewrite length_u64_bytes : qdb_length.

Lemma writes_u32 z : writes (write_u32 z) (be_bytes 4 z).
Proof. apply writes_bytes. Qed.

Lemma writes_u64 z : writes (write_u64 z) (u64_bytes z).
Proof. apply writes_seq; apply writes_u32. Qed.

Lemma writes_le n z : writes (write_le n z) (le_bytes n z).
Proof. apply writes_bytes. Qed.

#[export] Hint Resolve writes_u32 writes_u64 writes_le : writers.

Lemma read_u32_at pre z post :
  read_u32 (rbuf_at pre (be_bytes 4 z ++ post)) =
  (Ret (z mod 2 ^ 32), rbuf_at (pre ++ be_bytes 4 z) post).
Proof.
  unfold read_u32. erewrite bind_ret.
  2: { apply read_bytes_at. apply length_be_bytes. }
  by rewrite be_val_bytes.
Qed.

Lemma read_le_at n pre z post :
  read_le n (rbuf_at pre (le_bytes n z ++ post)) =
  (Ret (z mod 2 ^ (8 * Z.of_nat n)), rbuf_at (pre ++ le_bytes n z) post).
Proof.
  unfold read_le. erewrite bind_ret.
  2: { apply read_bytes_at. apply length_le_bytes. }
  by rewrite le_val_bytes.
Qed.

Lemma join_halves z : in_unsigned 64 z →
  Z.lor (Z.shiftl (Z.shiftr z 32 mod 2 ^ 32) 32)
        (Z.land z 4294967295 mod 2 ^ 32) = z.
Proof.
  intros Hz. unfold in_unsigned in Hz.
  change 4294967295 with (Z.ones 32).
  rewrite Z.land_ones, Zmod_mod, Z.shiftr_div_pow2 by lia.
  rewrite (Z.mod_small (z / 2 ^ 32)).
  2: { split; [apply Z.div_pos; lia|]. apply Z.div_lt_upper_bound; lia. }
  rewrite Z.shiftl_mul_pow2 by lia.
  pose proof (Z.add_lor_land (z / 2 ^ 32 * 2 ^ 32) (z mod 2 ^ 32)) as Hsum.
  assert (Z.land (z / 2 ^ 32 * 2 ^ 32) (z mod 2 ^ 32) = 0) as Hdisj.
  { apply Z.bits_inj'. intros i Hi. rewrite Z.land_spec, Z.bits_0.
    destruct (Z.lt_ge_cases i 32).
    - by rewrite Z.mul_pow2_bits_low by lia.
    - rewrite Z.mod_pow2_bits_high by lia. by rewrite andb_false_r. }
  pose proof (Z.div_mod z (2 ^ 32) ltac:(lia)). lia.
Qed.

Lemma read_u64_at pre z post : in_unsigned 64 z →
  read_u64 (rbuf_at pre (u64_bytes z ++ post)) =
  (Ret z, rbuf_at (pre ++ u64_bytes z) post).
Proof.
  intros Hz. unfold read_u64, u64_bytes. rewrite <- app_assoc.
  erewrite bind_ret by apply read_u32_at.
  erewrite bind_ret by apply read_u32_at.
  rewrite <- app_assoc. unfold mret, M_ret. f_equal. f_equal.
  by apply join_halves.
Qed.

(** ** Deserializers: a read cursor and the object being filled *)

Section reader.
Context {T : Type}.

Definition rd {A} (m : M rbuf A) : M (rbuf * T) A := zoom fst (λ r s, (r, s.2)) m.
Definition out (f : T → T) : M (rbuf * T) unit := modify (λ s, (s.1, f s.2)).
Definition offset : M (rbuf * T) Z := gets (λ s, Z.of_nat (rb_off s.1)).

(** The result of a deserializer and the object it leaves behind. *)
Definition run_reader {A} (bs : bytes) (t : T) (m : M (rbuf * T) A) : outcome (A * T) :=
  match m (RBuf bs 0, t) with
  | (Ret a, s) => Ret (a, s.2)
  | (Throw e, _) => Throw e
  | (Undef, _) => Undef
  | (Diverge, _) => Diverge
  end.

Lemma rd_run {A} (m : M rbuf A) r a r' t :
  m r = (Ret a, r') → rd m (r, t) = (Ret a, (r', t)).
Proof. intros H. unfold rd, zoom; simpl. by rewrite H. Qed.

Lemma bind_rd {A B} (m : M rbuf A) (k : A → M (rbuf * T) B) r a r' t :
  m r = (Ret a, r') → (rd m ≫= k) (r, t) = k a (r', t).
Proof. intros H. by erewrite bind_ret by by apply rd_run. Qed.

Lemma bind_out {B} f (k : unit → M (rbuf * T) B) r t :
  (out f ≫= k) (r, t) = k tt (r, f t).
Proof. done. Qed.

Lemma bind_offset {B} (k : Z → M (rbuf * T) B) pre post t :
  (offset ≫= k) (rbuf_at pre post, t) = k (Z.of_nat (length pre)) (rbuf_at pre post, t).
Proof. done. Qed.
End reader.

Lemma be_bytes_val bs n : length bs = n → be_bytes n (be_val bs) = bs.
Proof.
  intros <-. unfold be_bytes, be_val.
  rewrite <- (length_rev bs), le_bytes_val. apply rev_involutive.
Qed.

Lemma be_val_mod n z : be_val (be_bytes n z) = z mod 2 ^ (8 * Z.of_nat n).
Proof. apply be_val_bytes. Qed.

Lemma read_u32_raw pre b post :
  length b = 4%nat →
  read_u32 (rbuf_at pre (b ++ post)) = (Ret (be_val b), rbuf_at (pre ++ b) post).
Proof.
  intros Hb. unfold read_u32. by erewrite bind_ret by by apply read_bytes_at.
Qed.

Lemma read_le_raw n pre b post :
  length b = n →
  read_le n (rbuf_at pre (b ++ post)) = (Ret (le_val b), rbuf_at (pre ++ b) post).
Proof.
  intros Hb. unfold read_le. by erewrite bind_ret by by apply read_bytes_at.
Qed.

(** The value of eight network-order bytes read as two halves. *)
Definition u64_val (hi lo : bytes) : Z := Z.lor (Z.shiftl (be_val hi) 32) (be_val lo).

Arguments u64_val : simpl never.

Lemma read_u64_raw pre hi lo post :
  length hi = 4%nat → length lo = 4%nat →
  read_u64 (rbuf_at pre (hi ++ lo ++ post)) =
  (Ret (u64_val hi lo), rbuf_at (pre ++ hi ++ lo) post).
Proof.
  intros Hh Hl. unfold read_u64.
  erewrite bind_ret by by apply read_u32_raw.
  erewrite bind_ret by by apply read_u32_raw.
  by rewrite <- app_assoc.
Qed.

Lemma u64_val_bytes z :
  in_unsigned 64 z →
  u64_val (be_bytes 4 (Z.shiftr z 32)) (be_bytes 4 (Z.land z 4294967295)) = z.
Proof. intros Hz. unfold u64_val. rewrite !be_val_mod. by apply join_halves. Qed.

(** A field of a received buffer that is long enough. *)
Lemma split_bytes (n : nat) (bs : bytes) :
  (n ≤ length bs)%nat → ∃ b rest, bs = b ++ rest ∧ length b = n.
Proof.
  intros Hn. exists (take n bs), (drop n bs). split; [|len].
  by rewrite take_drop.
Qed.

Ltac take_field bs n b Hb :=
  let rest := fresh "rest" in
  destruct (split_bytes n bs) as (b & rest & -> & Hb);
  [repeat rewrite ?length_app, ?length_cons in *; simpl in *; lia|rename rest into bs].

(** One field of a reader: the lemma that reads it, then the rest. *)
Ltac read_field :=
  first
    [ rewrite bind_out
    | rewrite bind_offset
    | erewrite bind_rd by (apply read_u32_raw; eassumption)
    | erewrite bind_rd by (apply read_u64_raw; eassumption)
    | erewrite bind_rd by (apply read_le_raw; eassumption)
    | erewrite bind_rd by (apply read_bytes_at; first [eassumption | reflexivity]) ].

(** An [int32_t] sent as a [uint32_t], and the two halves of an [int64_t]. *)
Lemma be4_signed z :
  in_signed 32 z → to_signed 32 (be_val (be_bytes 4 (to_unsigned 32 z))) = z.
Proof.
  intros Hz. rewrite be_val_bytes. change (2 ^ (8 * Z.of_nat 4)) with (2 ^ 32).
  fold (to_unsigned 32 (to_unsigned 32 z)).
  rewrite !to_signed_unsigned. by apply to_signed_small.
Qed.

Lemma be4_unsigned z : in_unsigned 32 z → be_val (be_bytes 4 z) = z.
Proof. intros Hz. rewrite be_val_bytes. by apply Z.mod_small. Qed.

Lemma u64_signed z :
  in_signed 64 z →
  to_signed 64 (u64_val (be_bytes 4 (Z.shiftr (to_unsigned 64 z) 32))
                        (be_bytes 4 (Z.land (to_unsigned 64 z) 4294967295))) = z.
Proof.
  intros Hz. rewrite u64_val_bytes.
  - rewrite to_signed_unsigned. by apply to_signed_small.
  - unfold to_unsigned, in_unsigned. apply Z.mod_pos_bound. lia.
Qed.

Lemma le_val_single z : 0 ≤ z < 256 → le_val [byte_of_Z z] = z.
Proof. intros Hz. simpl. rewrite Z_of_byte_of_Z, Z.mod_small; lia. Qed.

Lemma byte_of_le_val b : length b = 1%nat → [byte_of_Z (le_val b)] = b.
Proof.
  destruct b as [|x [|]]; try done. intros _. simpl.
  by rewrite Z.add_0_r, byte_of_Z_of_byte.
Qed.

Lemma be4_of_signed b :
  length b = 4%nat → be_bytes 4 (to_unsigned 32 (to_signed 32 (be_val b))) = b.
Proof.
  intros Hb. rewrite to_unsigned_signed by lia.
  rewrite to_unsigned_small; [by apply be_bytes_val|].
  pose proof (be_val_range b) as Hr. by rewrite Hb in Hr.
Qed.

Lemma le_bytes_mod n z : le_bytes n (z mod 2 ^ (8 * Z.of_nat n)) = le_bytes n z.
Proof.
  rewrite <- le_val_bytes.
  pose proof (le_bytes_val (le_bytes n z)) as H. by rewrite length_le_bytes in H.
Qed.

Lemma le_of_signed n b :
  length b = n → le_bytes n (to_signed (8 * Z.of_nat n) (le_val b)) = b.
Proof.
  intros Hn. rewrite <- le_bytes_mod. fold (to_unsigned (8 * Z.of_nat n) (to_signed (8 * Z.of_nat n) (le_val b))).
  rewrite to_unsigned_signed by lia. unfold to_unsigned. rewrite le_bytes_mod.
  subst n. apply le_bytes_val.
Qed.

Lemma le_bytes_of_val n b : length b = n → le_bytes n (le_val b) = b.
Proof. intros <-. apply le_bytes_val. Qed.

Lemma le_val_small n z : 0 ≤ z < 2 ^ (8 * Z.of_nat n) → le_val (le_bytes n z) = z.
Proof. intros Hz. rewrite le_val_bytes. by apply Z.mod_small. Qed.
