(* ===== verification/RpcMessage.v ===== *)
(** * RPC messages (src/rpc/rpc_message.h)

    The message type, its wire format and the strict parser: a length-prefixed
    frame in network byte order.  Serializing then parsing gives the message
    back, every accepted frame is the serialization of the message it parses
    to, and the parser reads no byte outside the frame whatever it receives. *)

From S2P Require Export Bytes.

Local Open Scope Z_scope.

Inductive RpcMessageType :=
  | REQUEST_VOTE
  | REQUEST_VOTE_REPLY
  | APPEND_ENTRIES
  | APPEND_ENTRIES_REPLY
  | PING
  | PONG.

#[export] Instance RpcMessageType_eq_dec : EqDecision RpcMessageType.
Proof. solve_decision. Defined.

(** The underlying [std::uint8_t] of the enumeration. *)
Definition rpc_type_code (t : RpcMessageType) : Z :=
  match t with
  | REQUEST_VOTE => 0
  | REQUEST_VOTE_REPLY => 1
  | APPEND_ENTRIES => 2
  | APPEND_ENTRIES_REPLY => 3
  | PING => 4
  | PONG => 5
  end.

(** [static_cast<RpcMessageType>], for the values the parser lets through. *)
Definition rpc_type_of_code (c : Z) : RpcMessageType :=
  if c =? 0 then REQUEST_VOTE
  else if c =? 1 then REQUEST_VOTE_REPLY
  else if c =? 2 then APPEND_ENTRIES
  else if c =? 3 then APPEND_ENTRIES_REPLY
  else if c =? 4 then PING
  else PONG.

Record RpcMessage := mkRpcMessage {
  rpc_type : RpcMessageType;
  rpc_term : Z;
  rpc_sender_id : Z;
  rpc_payload : bytes;
}.

#[export] Instance RpcMessage_eq_dec : EqDecision RpcMessage.
Proof. solve_decision. Defined.

Definition SerializeRpcMessage (message : RpcMessage) : outcome bytes :=
  let payload_size := to_unsigned 32 (Z.of_nat (length (rpc_payload message))) in
  let body_size := to_unsigned 32 (1 + 4 * 3 + payload_size) in
  run_writer (Z.to_nat (4 + body_size)) (
    write_u32 body_size ;;
    write_bytes [byte_of_Z (rpc_type_code (rpc_type message))] ;;
    write_u32 (to_unsigned 32 (rpc_term message)) ;;
    write_u32 (to_unsigned 32 (rpc_sender_id message)) ;;
    write_u32 payload_size ;;
    write_bytes (take (Z.to_nat payload_size) (rpc_payload message))).

(** The parser after the null and size checks. *)
Definition DeserializeRpcMessage_fields (size : Z) : M (rbuf * RpcMessage) bool :=
  body_size ← rd read_u32;
  if negb (body_size =? size - 4) then mret false else
  type ← rd (read_le 1);
  if 5 <? type then mret false else
  out (λ m, mkRpcMessage (rpc_type_of_code type) (rpc_term m) (rpc_sender_id m) (rpc_payload m)) ;;
  term ← rd read_u32;
  out (λ m, mkRpcMessage (rpc_type m) (to_signed 32 term) (rpc_sender_id m) (rpc_payload m)) ;;
  sender ← rd read_u32;
  out (λ m, mkRpcMessage (rpc_type m) (rpc_term m) (to_signed 32 sender) (rpc_payload m)) ;;
  payload_size ← rd read_u32;
  off ← offset;
  if negb (payload_size =? size - off) then mret false else
  payload ← rd (read_bytes (Z.to_nat payload_size));
  out (λ m, mkRpcMessage (rpc_type m) (rpc_term m) (rpc_sender_id m) payload) ;;
  mret true.

(** The result and the object behind [message] afterwards; [None] is a null
    pointer. *)
Definition DeserializeRpcMessage (bs : bytes) (message : option RpcMessage)
    : outcome (bool * option RpcMessage) :=
  match message with
  | None => Ret (false, None)
  | Some m =>
      let size := Z.of_nat (length bs) in
      if size <? 4 + 1 + 4 * 3 then Ret (false, Some m) else
      match run_reader bs m (DeserializeRpcMessage_fields size) with
      | Ret (ok, m') => Ret (ok, Some m')
      | Throw e => Throw e
      | Undef => Undef
      | Diverge => Diverge
      end
  end.

(** ** The frame of a message *)

Definition rpc_frame (m : RpcMessage) : bytes :=
  be_bytes 4 (13 + Z.of_nat (length (rpc_payload m))) ++
  [byte_of_Z (rpc_type_code (rpc_type m))] ++
  be_bytes 4 (to_unsigned 32 (rpc_term m)) ++
  be_bytes 4 (to_unsigned 32 (rpc_sender_id m)) ++
  be_bytes 4 (Z.of_nat (length (rpc_payload m))) ++
  rpc_payload m.

(** A message whose integers fit their fields and whose body size fits 32
    bits. *)
Definition rpc_wf (m : RpcMessage) : Prop :=
  in_signed 32 (rpc_term m) ∧ in_signed 32 (rpc_sender_id m) ∧
  13 + Z.of_nat (length (rpc_payload m)) < 2 ^ 32.

#[export] Instance rpc_wf_dec m : Decision (rpc_wf m).
Proof. unfold rpc_wf. apply _. Defined.

Lemma rpc_type_of_code_code t : rpc_type_of_code (rpc_type_code t) = t.
Proof. by destruct t. Qed.

Lemma rpc_type_code_of_code c : 0 ≤ c ≤ 5 → rpc_type_code (rpc_type_of_code c) = c.
Proof.
  intros Hc. assert (c = 0 ∨ c = 1 ∨ c = 2 ∨ c = 3 ∨ c = 4 ∨ c = 5) as Hcases by lia.
  by destruct Hcases as [ -> | [ -> | [ -> | [ -> | [ -> | -> ]]]]].
Qed.

Lemma rpc_type_code_range t : 0 ≤ rpc_type_code t ≤ 5.
Proof. destruct t; simpl; lia. Qed.

Lemma SerializeRpcMessage_frame m :
  13 + Z.of_nat (length (rpc_payload m)) < 2 ^ 32 →
  SerializeRpcMessage m = Ret (rpc_frame m).
Proof.
  intros Hlen. unfold SerializeRpcMessage.
  rewrite (to_unsigned_small 32 (Z.of_nat _)) by (unfold in_unsigned; lia).
  rewrite (to_unsigned_small 32 (1 + _ + _)) by (unfold in_unsigned; lia).
  erewrite run_writer_writes; [|by eauto 10 with writers|len].
  rewrite Nat2Z.id, firstn_all. f_equal.
  match goal with |- context [replicate ?n _] => replace n with 0%nat by len end.
  by rewrite app_nil_r.
Qed.

(** What the parser does with a frame cut into its fields. *)
Lemma DeserializeRpcMessage_cut b1 b2 b3 b4 b5 rest m0 :
  length b1 = 4%nat → length b2 = 1%nat → length b3 = 4%nat →
  length b4 = 4%nat → length b5 = 4%nat →
  let bs := b1 ++ b2 ++ b3 ++ b4 ++ b5 ++ rest in
  ∃ m', DeserializeRpcMessage bs (Some m0) =
    Ret (bool_decide (be_val b1 = Z.of_nat (length bs) - 4 ∧ le_val b2 ≤ 5 ∧
                      be_val b5 = Z.of_nat (length rest)), Some m') ∧
    (be_val b1 = Z.of_nat (length bs) - 4 ∧ le_val b2 ≤ 5 ∧
     be_val b5 = Z.of_nat (length rest) →
     m' = mkRpcMessage (rpc_type_of_code (le_val b2)) (to_signed 32 (be_val b3))
            (to_signed 32 (be_val b4)) rest).
Proof.
  intros H1 H2 H3 H4 H5 bs. unfold DeserializeRpcMessage.
  assert (Z.of_nat (length bs) = 17 + Z.of_nat (length rest)) as Hsz.
  { subst bs. rewrite !length_app. lia. }
  destruct (Z.ltb_spec (Z.of_nat (length bs)) (4 + 1 + 4 * 3)); [lia|].
  unfold run_reader, DeserializeRpcMessage_fields. rewrite rbuf_start. subst bs.
  read_field. rewrite Hsz.
  destruct (Z.eqb_spec (be_val b1) (17 + Z.of_nat (length rest) - 4)) as [E1|E1]; cbn [negb].
  2: { eexists. split; [by rewrite bool_decide_false by tauto|tauto]. }
  read_field. destruct (Z.ltb_spec 5 (le_val b2)) as [E2|E2].
  { eexists. split; [rewrite bool_decide_false by lia; done|lia]. }
  do 7 read_field.
  match goal with |- context [be_val b5 =? ?x] => replace x with (Z.of_nat (length rest)) by len end.
  destruct (Z.eqb_spec (be_val b5) (Z.of_nat (length rest))) as [E3|E3]; cbn [negb].
  2: { eexists. split; [by rewrite bool_decide_false by tauto|tauto]. }
  rewrite E3, Nat2Z.id.
  erewrite bind_rd.
  2: { rewrite <- (app_nil_r rest) at 2. by apply read_bytes_at. }
  eexists. split; [|done]. rewrite bool_decide_true by tauto. done.
Qed.

(** Cutting a received buffer into the five header fields and the payload. *)
Ltac rpc_fields bs :=
  let b1 := fresh "b1" in let b2 := fresh "b2" in let b3 := fresh "b3" in
  let b4 := fresh "b4" in let b5 := fresh "b5" in
  let Hb1 := fresh "Hb1" in let Hb2 := fresh "Hb2" in let Hb3 := fresh "Hb3" in
  let Hb4 := fresh "Hb4" in let Hb5 := fresh "Hb5" in
  take_field bs 4%nat b1 Hb1; take_field bs 1%nat b2 Hb2; take_field bs 4%nat b3 Hb3;
  take_field bs 4%nat b4 Hb4; take_field bs 4%nat b5 Hb5.

Lemma DeserializeRpcMessage_short bs m0 :
  (length bs < 17)%nat → DeserializeRpcMessage bs (Some m0) = Ret (false, Some m0).
Proof.
  intros H. unfold DeserializeRpcMessage.
  destruct (Z.ltb_spec (Z.of_nat (length bs)) (4 + 1 + 4 * 3)); [done|lia].
Qed.

Lemma DeserializeRpcMessage_frame m m0 :
  rpc_wf m → DeserializeRpcMessage (rpc_frame m) (Some m0) = Ret (true, Some m).
Proof.
  intros (Ht & Hs & Hl). unfold rpc_frame.
  edestruct (λ b1 b2 b3 b4 b5, DeserializeRpcMessage_cut b1 b2 b3 b4 b5 (rpc_payload m) m0)
    as (m' & -> & Hm'); try apply length_be_bytes; [done|].
  pose proof (rpc_type_code_range (rpc_type m)) as Htc.
  rewrite le_val_single in * by lia.
  rewrite !be4_unsigned in * by (unfold in_unsigned; lia).
  match type of Hm' with ?P → _ => assert P as Hacc by len end.
  rewrite bool_decide_true by done. rewrite (Hm' Hacc).
  rewrite !be4_signed, rpc_type_of_code_code by done. by destruct m.
Qed.

Lemma DeserializeRpcMessage_strict bs m0 :
  ∃ ok m, DeserializeRpcMessage bs (Some m0) = Ret (ok, Some m) ∧
    (ok = true → Z.of_nat (length bs) < 2 ^ 32 → SerializeRpcMessage m = Ret bs).
Proof.
  destruct (decide (length bs < 17)%nat) as [Hs|Hs].
  { exists false, m0. split; [by apply DeserializeRpcMessage_short|done]. }
  rpc_fields bs.
  edestruct (DeserializeRpcMessage_cut b1 b2 b3 b4 b5 bs m0) as (m' & -> & Hm'); try done.
  eexists _, m'. split; [done|]. intros Hok Hlen. apply bool_decide_eq_true in Hok.
  rewrite (Hm' Hok). destruct Hok as (E1 & E2 & E3).
  pose proof (le_val_range b2) as H2. rewrite !length_app in *.
  rewrite SerializeRpcMessage_frame by (simpl; lia).
  unfold rpc_frame; simpl rpc_payload; simpl rpc_type; simpl rpc_term; simpl rpc_sender_id.
  rewrite rpc_type_code_of_code, byte_of_le_val by lia.
  rewrite !be4_of_signed by done. rewrite <- E3, be_bytes_val by done.
  replace (13 + be_val b5) with (be_val b1) by lia.
  by rewrite be_bytes_val.
Qed.

(** ** Properties *)

(** C34: parsing the serialization of a message whose fields fit their widths
    gives the message back, whatever object the caller passed. *)
Theorem rpc_message_roundtrip m m0 :
  rpc_wf m →
  ∃ bs, SerializeRpcMessage m = Ret bs ∧
        DeserializeRpcMessage bs (Some m0) = Ret (true, Some m).
Proof.
  intros Hm. exists (rpc_frame m). split.
  - apply SerializeRpcMessage_frame, Hm.
  - by apply DeserializeRpcMessage_frame.
Qed.

(** C35: whatever bytes are received, the parser returns without reading
    outside them, and a frame it accepts is exactly the serialization of the
    message it produced. *)
Theorem rpc_message_parser_strict bs m0 :
  ∃ ok m, DeserializeRpcMessage bs (Some m0) = Ret (ok, Some m) ∧
    (ok = true → Z.of_nat (length bs) < 2 ^ 32 → SerializeRpcMessage m = Ret bs).
Proof. apply DeserializeRpcMessage_strict. Qed.

Lemma rpc_message_roundtrip_witness :
  let m := mkRpcMessage APPEND_ENTRIES_REPLY 7 (-3) [x31] in
  ∃ bs, SerializeRpcMessage m = Ret bs ∧
        DeserializeRpcMessage bs (Some (mkRpcMessage PING 0 0 [])) = Ret (true, Some m).
Proof.
  apply rpc_message_roundtrip. apply (bool_decide_unpack _). vm_compute. exact I.
Defined.

(** The frame of a vote reply: length 14, type 1, term 7, sender -3, payload "1". *)
Example rpc_frame_example :
  SerializeRpcMessage (mkRpcMessage REQUEST_VOTE_REPLY 7 (-3) [x31]) =
  Ret [x00;x00;x00;x0e; x01; x00;x00;x00;x07; xff;xff;xff;xfd; x00;x00;x00;x01; x31].
Proof. reflexivity. Qed.
