(* ===== verification/LogEntry.v ===== *)
(** * The AppendEntries payload (src/raft/log_entry.h)

    Log entries, the arguments of an AppendEntries call, their serialized
    form and its parser.  The parser stops at the first entry that does not
    fit, reads no byte outside the payload, and its loop ends even when the
    declared number of entries is far larger than the payload. *)

From S2P Require Export Bytes.

Local Open Scope Z_scope.

Record LogEntry := mkLogEntry {
  entry_term : Z;
  entry_index : Z;
  entry_command : bytes;
}.

#[export] Instance LogEntry_eq_dec : EqDecision LogEntry.
Proof. solve_decision. Defined.

Record AppendEntriesArgs := mkAppendEntriesArgs {
  prev_log_index : Z;
  prev_log_term : Z;
  leader_commit : Z;
  entries : list LogEntry;
}.

#[export] Instance AppendEntriesArgs_eq_dec : EqDecision AppendEntriesArgs.
Proof. solve_decision. Defined.

(** The size the serializer allocates. *)
Definition AppendEntriesPayload_size (args : AppendEntriesArgs) : nat :=
  (4 * 4 + 4 + 4 * 2 +
   sum_list ((λ e, 4 * 4 + length (entry_command e)) <$> entries args))%nat.

Definition SerializeEntry (e : LogEntry) : M wbuf unit :=
  write_u32 (to_unsigned 32 (entry_term e)) ;;
  write_u64 (to_unsigned 64 (entry_index e)) ;;
  write_u32 (to_unsigned 32 (Z.of_nat (length (entry_command e)))) ;;
  write_bytes (entry_command e).

Definition SerializeAppendEntriesPayload (args : AppendEntriesArgs) : outcome bytes :=
  run_writer (AppendEntriesPayload_size args) (
    write_u64 (to_unsigned 64 (prev_log_index args)) ;;
    write_u32 (to_unsigned 32 (prev_log_term args)) ;;
    write_u64 (to_unsigned 64 (leader_commit args)) ;;
    write_u32 (to_unsigned 32 (Z.of_nat (length (entries args)))) ;;
    for_each (entries args) SerializeEntry).

(** The loop over [entries_count]; [fuel] bounds its iterations, each of
    which consumes at least sixteen bytes or leaves the loop. *)
Fixpoint DeserializeEntries (fuel : nat) (size i entries_count : Z)
    : M (rbuf * AppendEntriesArgs) bool :=
  match fuel with
  | O => diverge
  | S fuel =>
      if i <? entries_count then
        off ← offset;
        if size <? off + 4 * 4 then mret false else
        term ← rd read_u32;
        index ← rd read_u64;
        cmd_len ← rd read_u32;
        off ← offset;
        if size <? off + cmd_len then mret false else
        command ← rd (read_bytes (Z.to_nat cmd_len));
        out (λ a, mkAppendEntriesArgs (prev_log_index a) (prev_log_term a) (leader_commit a)
               (entries a ++ [mkLogEntry (to_signed 32 term) (to_signed 64 index) command])) ;;
        DeserializeEntries fuel size (i + 1) entries_count
      else mret true
  end.

Definition DeserializeAppendEntries_fields (size : nat) : M (rbuf * AppendEntriesArgs) bool :=
  pli ← rd read_u64;
  out (λ a, mkAppendEntriesArgs (to_signed 64 pli) (prev_log_term a) (leader_commit a) (entries a)) ;;
  plt ← rd read_u32;
  out (λ a, mkAppendEntriesArgs (prev_log_index a) (to_signed 32 plt) (leader_commit a) (entries a)) ;;
  lc ← rd read_u64;
  out (λ a, mkAppendEntriesArgs (prev_log_index a) (prev_log_term a) (to_signed 64 lc) (entries a)) ;;
  entries_count ← rd read_u32;
  out (λ a, mkAppendEntriesArgs (prev_log_index a) (prev_log_term a) (leader_commit a) []) ;;
  DeserializeEntries (S size) (Z.of_nat size) 0 entries_count.

Definition DeserializeAppendEntriesPayload (bs : bytes) (args : option AppendEntriesArgs)
    : outcome (bool * option AppendEntriesArgs) :=
  match args with
  | None => Ret (false, None)
  | Some a =>
      if Z.of_nat (length bs) <? 4 * 6 then Ret (false, Some a) else
      match run_reader bs a (DeserializeAppendEntries_fields (length bs)) with
      | Ret (ok, a') => Ret (ok, Some a')
      | Throw e => Throw e
      | Undef => Undef
      | Diverge => Diverge
      end
  end.

(** ** The bytes of a payload *)

Definition entry_bytes (e : LogEntry) : bytes :=
  be_bytes 4 (to_unsigned 32 (entry_term e)) ++
  u64_bytes (to_unsigned 64 (entry_index e)) ++
  be_bytes 4 (to_unsigned 32 (Z.of_nat (length (entry_command e)))) ++
  entry_command e.

Definition payload_bytes (args : AppendEntriesArgs) : bytes :=
  u64_bytes (to_unsigned 64 (prev_log_index args)) ++
  be_bytes 4 (to_unsigned 32 (prev_log_term args)) ++
  u64_bytes (to_unsigned 64 (leader_commit args)) ++
  be_bytes 4 (to_unsigned 32 (Z.of_nat (length (entries args)))) ++
  mjoin (entry_bytes <$> entries args).

Arguments entry_bytes : simpl never.

Definition entry_wf (e : LogEntry) : Prop :=
  in_signed 32 (entry_term e) ∧ in_signed 64 (entry_index e) ∧
  Z.of_nat (length (entry_command e)) < 2 ^ 32.

Definition args_wf (a : AppendEntriesArgs) : Prop :=
  in_signed 64 (prev_log_index a) ∧ in_signed 32 (prev_log_term a) ∧
  in_signed 64 (leader_commit a) ∧ Z.of_nat (length (entries a)) < 2 ^ 32 ∧
  Forall entry_wf (entries a).

#[export] Instance entry_wf_dec e : Decision (entry_wf e).
Proof. unfold entry_wf. apply _. Defined.
#[export] Instance args_wf_dec a : Decision (args_wf a).
Proof. unfold args_wf. apply _. Defined.

Lemma length_entry_bytes e : length (entry_bytes e) = (16 + length (entry_command e))%nat.
Proof. unfold entry_bytes. len. Qed.

Lemma length_payload_bytes a :
  AppendEntriesPayload_size a = (4 + length (payload_bytes a))%nat.
Proof.
  unfold AppendEntriesPayload_size, payload_bytes.
  assert (sum_list ((λ e, 4 * 4 + length (entry_command e))%nat <$> entries a) =
          length (mjoin (entry_bytes <$> entries a))) as ->; [|len].
  induction (entries a) as [|e es IH]; [done|].
  rewrite !fmap_cons. cbn [sum_list mjoin list_join sum_list_with].
  rewrite length_app, length_entry_bytes. exact (f_equal (Nat.add _) IH).
Qed.

Lemma writes_entry e : writes (SerializeEntry e) (entry_bytes e).
Proof. unfold SerializeEntry, entry_bytes. eauto 10 with writers. Qed.

Lemma SerializeAppendEntriesPayload_bytes a :
  SerializeAppendEntriesPayload a = Ret (payload_bytes a ++ replicate 4 x00).
Proof.
  unfold SerializeAppendEntriesPayload.
  erewrite run_writer_writes with (bs := payload_bytes a).
  - do 2 f_equal. rewrite length_payload_bytes. f_equal. lia.
  - unfold payload_bytes. repeat (apply writes_seq; [by auto with writers|]).
    apply writes_for_each. intros. apply writes_entry.
  - rewrite length_payload_bytes. lia.
Qed.

(** ** The entry loop *)

(** One iteration on an entry that is present. *)
Lemma DeserializeEntries_entry fuel size i count pre bt bh bl bc cmd post a :
  length bt = 4%nat → length bh = 4%nat → length bl = 4%nat → length bc = 4%nat →
  be_val bc = Z.of_nat (length cmd) → i < count →
  size = Z.of_nat (length (pre ++ bt ++ bh ++ bl ++ bc ++ cmd ++ post)) →
  DeserializeEntries (S fuel) size i count
    (rbuf_at pre (bt ++ bh ++ bl ++ bc ++ cmd ++ post), a) =
  DeserializeEntries fuel size (i + 1) count
    (rbuf_at (pre ++ bt ++ bh ++ bl ++ bc ++ cmd) post,
     mkAppendEntriesArgs (prev_log_index a) (prev_log_term a) (leader_commit a)
       (entries a ++ [mkLogEntry (to_signed 32 (be_val bt)) (to_signed 64 (u64_val bh bl)) cmd])).
Proof.
  intros Ht Hh Hl Hc Hcmd Hi Hsize. rewrite !length_app in Hsize.
  cbn [DeserializeEntries]. rewrite (proj2 (Z.ltb_lt i count)) by lia.
  read_field. destruct (Z.ltb_spec size (Z.of_nat (length pre) + 4 * 4)); [lia|].
  do 4 read_field. rewrite !length_app, Hcmd, Nat2Z.id.
  match goal with |- context [size <? ?x] => destruct (Z.ltb_spec size x); [lia|] end.
  do 2 read_field. by rewrite <- !app_assoc.
Qed.

(** The loop returns on every input, given one iteration more than the bytes
    left; when it succeeds it has read every declared entry. *)
Lemma DeserializeEntries_total fuel size i count pre post a :
  (length post < fuel)%nat → size = Z.of_nat (length (pre ++ post)) → i ≤ count →
  ∃ ok r' a', DeserializeEntries fuel size i count (rbuf_at pre post, a) = (Ret ok, (r', a')) ∧
    prev_log_index a' = prev_log_index a ∧ prev_log_term a' = prev_log_term a ∧
    leader_commit a' = leader_commit a ∧
    (ok = true →
     Z.of_nat (length (entries a')) = Z.of_nat (length (entries a)) + (count - i)).
Proof.
  revert i pre post a. induction fuel as [|fuel IH]; intros i pre post a Hf Hsize Hic; [lia|].
  rewrite length_app in Hsize.
  destruct (Z.lt_ge_cases i count) as [Hi|Hi].
  2: { cbn [DeserializeEntries]. rewrite (proj2 (Z.ltb_ge i count)) by lia.
       eexists true, _, a. split_and!; try done. lia. }
  destruct (decide (16 ≤ length post)%nat) as [Hlen|Hlen].
  2: { cbn [DeserializeEntries]. rewrite (proj2 (Z.ltb_lt i count)) by lia.
       read_field. destruct (Z.ltb_spec size (Z.of_nat (length pre) + 4 * 4)); [|lia].
       by eexists false, _, a. }
  take_field post 4%nat bt Hbt. take_field post 4%nat bh Hbh.
  take_field post 4%nat bl Hbl. take_field post 4%nat bc Hbc.
  pose proof (be_val_range bc) as Hr.
  destruct (decide (Z.to_nat (be_val bc) ≤ length post)%nat) as [Hcmd|Hcmd].
  - take_field post (Z.to_nat (be_val bc)) cmd Hc. rewrite !length_app in *.
    erewrite DeserializeEntries_entry; [|done..| |done|]; [|lia|rewrite !length_app; lia].
    edestruct (λ p, IH (i + 1) p post) as (ok & r' & a' & -> & H1 & H2 & H3 & H4);
      [lia|rewrite !length_app; lia|lia|].
    eexists ok, r', a'. split_and!; try done. intros Hok. rewrite (H4 Hok). cbn [entries] in *; len.
  - cbn [DeserializeEntries]. rewrite (proj2 (Z.ltb_lt i count)) by lia.
    rewrite !length_app in *.
    read_field. destruct (Z.ltb_spec size (Z.of_nat (length pre) + 4 * 4)); [lia|].
    do 4 read_field. rewrite !length_app.
    match goal with |- context [size <? ?x] => destruct (Z.ltb_spec size x); [|lia] end.
    by eexists false, _, a.
Qed.

(** Reading back a list of well-formed entries. *)
Lemma DeserializeEntries_entries fuel size i count pre es post a :
  (length es < fuel)%nat → Forall entry_wf es → count - i = Z.of_nat (length es) →
  size = Z.of_nat (length (pre ++ mjoin (entry_bytes <$> es) ++ post)) →
  ∃ r', DeserializeEntries fuel size i count
          (rbuf_at pre (mjoin (entry_bytes <$> es) ++ post), a) =
        (Ret true, (r', mkAppendEntriesArgs (prev_log_index a) (prev_log_term a)
                          (leader_commit a) (entries a ++ es))).
Proof.
  revert fuel i pre a. induction es as [|e es IH]; intros fuel i pre a Hf Hwf Hcount Hsize.
  - destruct fuel as [|fuel]; [simpl in Hf; lia|]. simpl in Hcount.
    cbn [DeserializeEntries]. rewrite (proj2 (Z.ltb_ge i count)) by lia.
    eexists. rewrite app_nil_r. by destruct a.
  - destruct fuel as [|fuel]; [simpl in Hf; lia|]. simpl in Hcount, Hf.
    apply Forall_cons in Hwf as [(Ht & Hx & Hc) Hwf].
    change (mjoin (entry_bytes <$> e :: es)) with (entry_bytes e ++ mjoin (entry_bytes <$> es)) in *.
    unfold entry_bytes, u64_bytes in *. rewrite <- !app_assoc in *.
    rewrite DeserializeEntries_entry; try apply length_be_bytes; [|..|exact Hsize];
      [|rewrite be4_unsigned|lia].
    2: { apply to_unsigned_small. unfold in_unsigned. lia. }
    2: { apply Z.mod_pos_bound. lia. }
    rewrite be4_signed, u64_signed by done.
    edestruct (λ p, IH fuel (i + 1) p) as (r' & ->); [lia|done|lia|..].
    { rewrite Hsize. f_equal. rewrite <- !app_assoc. done. }
    exists r'. simpl. rewrite <- app_assoc. by destruct e.
Qed.

Lemma payload_roundtrip a a0 :
  args_wf a →
  ∃ bs, SerializeAppendEntriesPayload a = Ret bs ∧
        DeserializeAppendEntriesPayload bs (Some a0) = Ret (true, Some a).
Proof.
  intros (H1 & H2 & H3 & H4 & H5). eexists.
  split; [apply SerializeAppendEntriesPayload_bytes|].
  unfold DeserializeAppendEntriesPayload.
  match goal with |- context [?x <? ?y] => destruct (Z.ltb_spec x y) as [Hs|Hs] end.
  { pose proof (length_payload_bytes a) as Hp. unfold AppendEntriesPayload_size in Hp. len. }
  clear Hs. unfold run_reader, DeserializeAppendEntries_fields. rewrite rbuf_start.
  match goal with |- context [Z.of_nat (length ?b)] => remember (length b) as size eqn:Hsize end.
  unfold payload_bytes, u64_bytes in *. rewrite <- !app_assoc in *.
  erewrite bind_rd by (apply read_u64_raw; apply length_be_bytes). read_field.
  erewrite bind_rd by (apply read_u32_raw; apply length_be_bytes). read_field.
  erewrite bind_rd by (apply read_u64_raw; apply length_be_bytes). read_field.
  erewrite bind_rd by (apply read_u32_raw; apply length_be_bytes). read_field.
  rewrite !u64_signed, be4_signed by done.
  rewrite be4_unsigned, to_unsigned_small
    by (rewrite ?to_unsigned_small; unfold in_unsigned; lia).
  edestruct (λ f s i c p, DeserializeEntries_entries f s i c p (entries a) (replicate 4 x00))
    as (r' & ->); [|done| | |by destruct a].
  - rewrite Hsize. assert (length (entries a) ≤ length (mjoin (entry_bytes <$> entries a)))%nat; [|len].
    clear. induction (entries a) as [|e es IH]; [done|].
    change (mjoin (entry_bytes <$> e :: es)) with (entry_bytes e ++ mjoin (entry_bytes <$> es)).
    rewrite length_app, length_entry_bytes. simpl. lia.
  - lia.
  - rewrite Hsize. by rewrite <- !app_assoc.
Qed.

(** ** Properties *)

(** C32: parsing a serialized payload gives the arguments back (the four
    trailing zero bytes the serializer leaves are ignored). *)
Theorem append_entries_roundtrip a a0 :
  args_wf a →
  ∃ bs, SerializeAppendEntriesPayload a = Ret bs ∧
        DeserializeAppendEntriesPayload bs (Some a0) = Ret (true, Some a).
Proof. apply payload_roundtrip. Qed.

(** C33: whatever payload is received, and however many entries it declares,
    the parser returns without reading outside the payload; when it succeeds
    it has produced exactly the declared number of entries. *)
Theorem append_entries_parser_safe bs a0 :
  ∃ ok a, DeserializeAppendEntriesPayload bs (Some a0) = Ret (ok, Some a) ∧
    (ok = true → (24 ≤ length bs)%nat ∧
       Z.of_nat (length (entries a)) = be_val (take 4 (drop 20 bs))).
Proof.
  unfold DeserializeAppendEntriesPayload.
  destruct (Z.ltb_spec (Z.of_nat (length bs)) (4 * 6)) as [Hs|Hs].
  { by eexists false, a0. }
  unfold run_reader, DeserializeAppendEntries_fields. rewrite rbuf_start.
  take_field bs 4%nat b1 H1. take_field bs 4%nat b2 H2. take_field bs 4%nat b3 H3.
  take_field bs 4%nat b4 H4. take_field bs 4%nat b5 H5. take_field bs 4%nat b6 H6.
  remember (length _) as size eqn:Hsize in |- *. do 8 read_field.
  pose proof (be_val_range b6) as Hr.
  edestruct (λ p a, DeserializeEntries_total (S size) (Z.of_nat size) 0 (be_val b6) p bs a)
    as (ok & r' & a' & -> & _ & _ & _ & Hok); [|by rewrite Hsize, <- !app_assoc|lia|].
  { rewrite Hsize. len. }
  exists ok, a'. split; [done|]. intros Ht. split; [len|].
  rewrite (Hok Ht). cbn [entries length].
  replace (drop 20 _) with (b6 ++ bs).
  - rewrite take_app_length' by done. lia.
  - rewrite !app_assoc, <- (app_assoc _ b6 bs), drop_app_length'; [done|len].
Qed.

Lemma append_entries_roundtrip_witness :
  let a := mkAppendEntriesArgs (-1) 3 4 [mkLogEntry 3 5 [x61; x00]; mkLogEntry 3 6 []] in
  ∃ bs, SerializeAppendEntriesPayload a = Ret bs ∧
        DeserializeAppendEntriesPayload bs (Some (mkAppendEntriesArgs 0 0 0 [])) = Ret (true, Some a).
Proof.
  apply append_entries_roundtrip. apply (bool_decide_unpack _). vm_compute. exact I.
Defined.

(** A payload that declares 2^32 - 1 entries and holds none is rejected. *)
Example append_entries_hostile :
  DeserializeAppendEntriesPayload (replicate 20 x00 ++ [xff; xff; xff; xff])
    (Some (mkAppendEntriesArgs 0 0 0 [])) =
  Ret (false, Some (mkAppendEntriesArgs 0 0 0 [])).
Proof. vm_compute. reflexivity. Qed.
