(* ===== verification/RaftCommand.v ===== *)
(** * Replicated commands (src/raft/raft_command.h)

    The command type, its serialized form and the lenient parser the state
    machine uses: the parser always returns a command, and reads no byte
    outside the string it is given. *)

From S2P Require Export Bytes.

Local Open Scope Z_scope.

(** The enumeration has a fixed underlying type and the parser casts an
    unchecked byte to it, so it holds values that no enumerator names. *)
Module CommandType.
Inductive t :=
  | INSERT
  | UPDATE_VALUE
  | DELETE
  | UNNAMED (code : Z).

Definition code (c : t) : Z :=
  match c with
  | INSERT => 0
  | UPDATE_VALUE => 1
  | DELETE => 2
  | UNNAMED code => code
  end.

Definition of_code (c : Z) : t :=
  if c =? 0 then INSERT
  else if c =? 1 then UPDATE_VALUE
  else if c =? 2 then DELETE
  else UNNAMED c.

#[global] Instance eq_dec : EqDecision t.
Proof. solve_decision. Defined.

(** An unnamed value is one of the other bytes. *)
Definition wf (c : t) : Prop :=
  match c with UNNAMED c => 3 ≤ c < 256 | _ => True end.

#[global] Instance wf_dec c : Decision (wf c).
Proof. destruct c; simpl; apply _. Defined.

Lemma cmd_of_code_code c : wf c → of_code (code c) = c.
Proof.
  destruct c as [| | |c]; try done. simpl. intros Hc. unfold of_code.
  by rewrite !(proj2 (Z.eqb_neq c _)) by lia.
Qed.

Lemma cmd_code_range c : wf c → 0 ≤ code c < 256.
Proof. destruct c; simpl; lia. Qed.
End CommandType.

Record RaftCommand := mkRaftCommand {
  cmd_type : CommandType.t;
  cmd_id : Z;
  cmd_name : bytes;
  cmd_value : Z;
}.

#[export] Instance RaftCommand_eq_dec : EqDecision RaftCommand.
Proof. solve_decision. Defined.

(** [RaftCommand cmd{}]: all members zero. *)
Definition RaftCommand_zero : RaftCommand := mkRaftCommand CommandType.INSERT 0 [] 0.

Definition Serialize (cmd : RaftCommand) : outcome bytes :=
  run_writer (1 + 4 * 5 + length (cmd_name cmd)) (
    write_bytes [byte_of_Z (CommandType.code (cmd_type cmd))] ;;
    write_u64 (to_unsigned 64 (cmd_id cmd)) ;;
    write_u64 (to_unsigned 64 (cmd_value cmd)) ;;
    write_u32 (to_unsigned 32 (Z.of_nat (length (cmd_name cmd)))) ;;
    write_bytes (cmd_name cmd)).

Definition Deserialize_fields (size : Z) : M (rbuf * RaftCommand) unit :=
  type ← rd (read_le 1);
  out (λ c, mkRaftCommand (CommandType.of_code type) (cmd_id c) (cmd_name c) (cmd_value c)) ;;
  id ← rd read_u64;
  out (λ c, mkRaftCommand (cmd_type c) (to_signed 64 id) (cmd_name c) (cmd_value c)) ;;
  value ← rd read_u64;
  out (λ c, mkRaftCommand (cmd_type c) (cmd_id c) (cmd_name c) (to_signed 64 value)) ;;
  name_size ← rd read_u32;
  off ← offset;
  when (off + name_size <=? size) (
    name ← rd (read_bytes (Z.to_nat name_size));
    out (λ c, mkRaftCommand (cmd_type c) (cmd_id c) name (cmd_value c))).

Definition Deserialize (bs : bytes) : outcome RaftCommand :=
  if Z.of_nat (length bs) <? 1 + 4 * 5 then Ret RaftCommand_zero else
  match run_reader bs RaftCommand_zero (Deserialize_fields (Z.of_nat (length bs))) with
  | Ret (_, cmd) => Ret cmd
  | Throw e => Throw e
  | Undef => Undef
  | Diverge => Diverge
  end.

(** ** The bytes of a command *)

Definition command_bytes (cmd : RaftCommand) : bytes :=
  [byte_of_Z (CommandType.code (cmd_type cmd))] ++
  u64_bytes (to_unsigned 64 (cmd_id cmd)) ++
  u64_bytes (to_unsigned 64 (cmd_value cmd)) ++
  be_bytes 4 (to_unsigned 32 (Z.of_nat (length (cmd_name cmd)))) ++
  cmd_name cmd.

Definition command_wf (cmd : RaftCommand) : Prop :=
  CommandType.wf (cmd_type cmd) ∧ in_signed 64 (cmd_id cmd) ∧
  in_signed 64 (cmd_value cmd) ∧ Z.of_nat (length (cmd_name cmd)) < 2 ^ 32.

#[export] Instance command_wf_dec cmd : Decision (command_wf cmd).
Proof. unfold command_wf. apply _. Defined.

Lemma Serialize_bytes cmd : Serialize cmd = Ret (command_bytes cmd).
Proof.
  unfold Serialize.
  erewrite run_writer_writes; [|by eauto 10 with writers|len].
  f_equal. match goal with |- context [replicate ?n _] => replace n with 0%nat by len end.
  by rewrite app_nil_r.
Qed.

(** What the parser returns on a string cut into its fields. *)
Lemma Deserialize_cut bt h1 l1 h2 l2 bn rest :
  length bt = 1%nat → length h1 = 4%nat → length l1 = 4%nat → length h2 = 4%nat →
  length l2 = 4%nat → length bn = 4%nat →
  Deserialize (bt ++ h1 ++ l1 ++ h2 ++ l2 ++ bn ++ rest) =
  Ret (mkRaftCommand (CommandType.of_code (le_val bt)) (to_signed 64 (u64_val h1 l1))
         (if be_val bn <=? Z.of_nat (length rest) then take (Z.to_nat (be_val bn)) rest else [])
         (to_signed 64 (u64_val h2 l2))).
Proof.
  intros Ht Hh1 Hl1 Hh2 Hl2 Hn. unfold Deserialize.
  match goal with |- context [?x <? ?y] => destruct (Z.ltb_spec x y) as [Hs|_] end.
  { len. }
  unfold run_reader, Deserialize_fields. rewrite rbuf_start. do 8 read_field.
  pose proof (be_val_range bn) as Hr.
  match goal with |- context [?x + be_val bn <=? ?y] =>
    replace (x + be_val bn <=? y) with (be_val bn <=? Z.of_nat (length rest)) end.
  2: { rewrite !length_app. simpl length. apply eq_true_iff_eq. rewrite !Z.leb_le. lia. }
  destruct (Z.leb_spec (be_val bn) (Z.of_nat (length rest))); [|done].
  unfold when. erewrite bind_rd by (apply read_bytes_split; lia). done.
Qed.

Lemma Deserialize_bytes cmd : command_wf cmd → Deserialize (command_bytes cmd) = Ret cmd.
Proof.
  intros (Ht & Hi & Hv & Hn). unfold command_bytes, u64_bytes. rewrite <- !app_assoc.
  rewrite Deserialize_cut by (try apply length_be_bytes; done).
  rewrite le_val_single by by apply CommandType.cmd_code_range.
  rewrite CommandType.cmd_of_code_code, !u64_signed by done.
  rewrite be4_unsigned; rewrite to_unsigned_small; try (unfold in_unsigned; lia).
  rewrite Z.leb_refl, Nat2Z.id, firstn_all. by destruct cmd.
Qed.

(** Every string is some command, with an id and a value of 64 bits. *)
Lemma Deserialize_total bs :
  ∃ cmd, Deserialize bs = Ret cmd ∧ in_signed 64 (cmd_id cmd) ∧ in_signed 64 (cmd_value cmd).
Proof.
  destruct (decide (length bs < 21)%nat) as [Hs|Hs].
  - exists RaftCommand_zero. unfold Deserialize. by rewrite (proj2 (Z.ltb_lt _ _)) by lia.
  - take_field bs 1%nat bt H1. take_field bs 4%nat h1 H2. take_field bs 4%nat l1 H3.
    take_field bs 4%nat h2 H4. take_field bs 4%nat l2 H5. take_field bs 4%nat bn H6.
    rewrite Deserialize_cut by done. eexists. split; [done|]. by split; apply to_signed_range.
Qed.

(** ** Properties *)

(** C36: parsing the serialization of a command gives the command back. *)
Theorem raft_command_roundtrip cmd :
  command_wf cmd → ∃ bs, Serialize cmd = Ret bs ∧ Deserialize bs = Ret cmd.
Proof.
  intros Hc. exists (command_bytes cmd). split; [apply Serialize_bytes|by apply Deserialize_bytes].
Qed.

(** C37: the parser returns a command for every string; for a string too
    short to hold a command it is the all-zero command, an INSERT of id 0. *)
Theorem raft_command_parser_total bs :
  (∃ cmd, Deserialize bs = Ret cmd) ∧
  ((length bs < 21)%nat →
   Deserialize bs = Ret (mkRaftCommand CommandType.INSERT 0 [] 0)).
Proof.
  destruct (decide (length bs < 21)%nat) as [Hs|Hs].
  - assert (Deserialize bs = Ret RaftCommand_zero) as ->; [|by eauto].
    unfold Deserialize. by rewrite (proj2 (Z.ltb_lt _ _)) by lia.
  - split; [|lia]. destruct (Deserialize_total bs) as (cmd & E & _). by exists cmd.
Qed.

Lemma raft_command_roundtrip_witness :
  let cmd := mkRaftCommand CommandType.INSERT 1 [x61; x62] (-42) in
  ∃ bs, Serialize cmd = Ret bs ∧ Deserialize bs = Ret cmd.
Proof.
  apply raft_command_roundtrip. apply (bool_decide_unpack _). vm_compute. exact I.
Defined.
