(* ===== verification/LogRecord.v ===== *)
(** * Write-ahead log records (src/storage/log_record.h)

    The record type, its serialized form in host (little-endian) byte order
    and the strict parser. *)

From S2P Require Export Bytes.

Local Open Scope Z_scope.

Module LogRecordType.
Inductive t := INSERT | UPDATE | DELETE | COMMIT.

Definition code (r : t) : Z :=
  match r with INSERT => 0 | UPDATE => 1 | DELETE => 2 | COMMIT => 3 end.

(** [static_cast<LogRecordType>], for the values the parser lets through. *)
Definition of_code (c : Z) : t :=
  if c =? 0 then INSERT else if c =? 1 then UPDATE
  else if c =? 2 then DELETE else COMMIT.

#[global] Instance eq_dec : EqDecision t.
Proof. solve_decision. Defined.

Lemma log_of_code_code r : of_code (code r) = r.
Proof. by destruct r. Qed.

Lemma log_code_of_code c : 0 ≤ c ≤ 3 → code (of_code c) = c.
Proof.
  intros Hc. assert (c = 0 ∨ c = 1 ∨ c = 2 ∨ c = 3) as Hcases by lia.
  by destruct Hcases as [ -> | [ -> | [ -> | -> ]]].
Qed.

Lemma log_code_range r : 0 ≤ code r ≤ 3.
Proof. destruct r; simpl; lia. Qed.
End LogRecordType.

Record LogRecord := mkLogRecord {
  lsn : Z;
  log_type : LogRecordType.t;
  record_id : Z;
  before_image : bytes;
  after_image : bytes;
}.

#[export] Instance LogRecord_eq_dec : EqDecision LogRecord.
Proof. solve_decision. Defined.

(** [LogRecord record{}]. *)
Definition LogRecord_zero : LogRecord := mkLogRecord 0 LogRecordType.INSERT 0 [] [].

Definition SerializeLogRecord (record : LogRecord) : outcome bytes :=
  let before_size := to_unsigned 32 (Z.of_nat (length (before_image record))) in
  let after_size := to_unsigned 32 (Z.of_nat (length (after_image record))) in
  run_writer (8 + 1 + 8 + 4 + 4 + Z.to_nat before_size + Z.to_nat after_size) (
    write_le 8 (lsn record) ;;
    write_le 1 (LogRecordType.code (log_type record)) ;;
    write_le 8 (record_id record) ;;
    write_le 4 before_size ;;
    write_le 4 after_size ;;
    write_bytes (take (Z.to_nat before_size) (before_image record)) ;;
    write_bytes (take (Z.to_nat after_size) (after_image record))).

Definition DeserializeLogRecord_fields (size : Z) : M (rbuf * LogRecord) bool :=
  l ← rd (read_le 8);
  out (λ r, mkLogRecord (to_signed 64 l) (log_type r) (record_id r) (before_image r) (after_image r)) ;;
  type ← rd (read_le 1);
  id ← rd (read_le 8);
  out (λ r, mkLogRecord (lsn r) (log_type r) (to_signed 64 id) (before_image r) (after_image r)) ;;
  before_size ← rd (read_le 4);
  after_size ← rd (read_le 4);
  off ← offset;
  if (LogRecordType.code LogRecordType.COMMIT <? type) || (size - off <? before_size)
     || (size - off - before_size <? after_size) then mret false else
  out (λ r, mkLogRecord (lsn r) (LogRecordType.of_code type) (record_id r) (before_image r) (after_image r)) ;;
  before ← rd (read_bytes (Z.to_nat before_size));
  out (λ r, mkLogRecord (lsn r) (log_type r) (record_id r) before (after_image r)) ;;
  off ← offset;
  after ← rd (read_bytes (Z.to_nat after_size));
  out (λ r, mkLogRecord (lsn r) (log_type r) (record_id r) (before_image r) after) ;;
  mret (off + after_size =? size).

(** The result and the object behind [record]; [None] is a null pointer. *)
Definition DeserializeLogRecord (bs : bytes) (record : option LogRecord)
    : outcome (bool * option LogRecord) :=
  match record with
  | None => Ret (false, None)
  | Some r =>
      let size := Z.of_nat (length bs) in
      if size <? 8 + 1 + 8 + 4 * 2 then Ret (false, Some r) else
      match run_reader bs r (DeserializeLogRecord_fields size) with
      | Ret (ok, r') => Ret (ok, Some r')
      | Throw e => Throw e
      | Undef => Undef
      | Diverge => Diverge
      end
  end.

(** ** The bytes of a record *)

Definition log_record_bytes (r : LogRecord) : bytes :=
  le_bytes 8 (lsn r) ++ le_bytes 1 (LogRecordType.code (log_type r)) ++
  le_bytes 8 (record_id r) ++
  le_bytes 4 (Z.of_nat (length (before_image r))) ++
  le_bytes 4 (Z.of_nat (length (after_image r))) ++
  before_image r ++ after_image r.

Definition log_record_wf (r : LogRecord) : Prop :=
  in_signed 64 (lsn r) ∧ in_signed 64 (record_id r) ∧
  Z.of_nat (length (before_image r)) < 2 ^ 32 ∧
  Z.of_nat (length (after_image r)) < 2 ^ 32.

#[export] Instance log_record_wf_dec r : Decision (log_record_wf r).
Proof. unfold log_record_wf. apply _. Defined.

Lemma length_log_record_bytes r :
  length (log_record_bytes r) = (25 + length (before_image r) + length (after_image r))%nat.
Proof. unfold log_record_bytes. len. Qed.

Lemma SerializeLogRecord_bytes r :
  Z.of_nat (length (before_image r)) < 2 ^ 32 →
  Z.of_nat (length (after_image r)) < 2 ^ 32 →
  SerializeLogRecord r = Ret (log_record_bytes r).
Proof.
  intros Hb Ha. unfold SerializeLogRecord. rewrite !to_unsigned_small by (unfold in_unsigned; lia).
  erewrite run_writer_writes; [|by eauto 12 with writers|len].
  rewrite !Nat2Z.id, !firstn_all. f_equal.
  match goal with |- context [replicate ?n _] => replace n with 0%nat by len end.
  by rewrite app_nil_r.
Qed.

(** What the parser does with a buffer cut into its fields. *)
Lemma DeserializeLogRecord_cut b1 b2 b3 b4 b5 rest r0 :
  length b1 = 8%nat → length b2 = 1%nat → length b3 = 8%nat →
  length b4 = 4%nat → length b5 = 4%nat →
  let accepted := le_val b2 ≤ 3 ∧ Z.of_nat (length rest) = le_val b4 + le_val b5 in
  ∃ r', DeserializeLogRecord (b1 ++ b2 ++ b3 ++ b4 ++ b5 ++ rest) (Some r0) =
        Ret (bool_decide accepted, Some r') ∧
    (accepted → r' = mkLogRecord (to_signed 64 (le_val b1)) (LogRecordType.of_code (le_val b2))
       (to_signed 64 (le_val b3)) (take (Z.to_nat (le_val b4)) rest)
       (drop (Z.to_nat (le_val b4)) rest)).
Proof.
  intros H1 H2 H3 H4 H5 accepted. unfold DeserializeLogRecord.
  match goal with |- context [?x <? ?y] => destruct (Z.ltb_spec x y) as [Hs|_] end.
  { len. }
  pose proof (le_val_range b4) as Hr4. pose proof (le_val_range b5) as Hr5.
  unfold run_reader, DeserializeLogRecord_fields. rewrite rbuf_start. do 8 read_field.
  match goal with |- context [if ?b then _ else _] => destruct b eqn:Hc end.
  { rewrite !orb_true_iff, !Z.ltb_lt, !length_app in Hc. cbn [length LogRecordType.code] in Hc.
    eexists. split; [rewrite bool_decide_false; [done|]|]; unfold accepted; lia. }
  rewrite !orb_false_iff, !Z.ltb_ge, !length_app in Hc. cbn [length LogRecordType.code] in Hc.
  read_field.
  take_field rest (Z.to_nat (le_val b4)) before Hb. do 3 read_field.
  rewrite length_app in Hc.
  take_field rest (Z.to_nat (le_val b5)) after Ha. do 2 read_field.
  eexists. split.
  - unfold mret, M_ret. do 2 f_equal. apply eq_true_iff_eq.
    rewrite bool_decide_eq_true, Z.eqb_eq. unfold accepted. rewrite !length_app. simpl length. lia.
  - unfold accepted. rewrite !length_app. intros [_ Hlen]. assert (rest = []) as ->.
    { apply nil_length_inv. lia. }
    rewrite app_nil_r. rewrite take_app_length', drop_app_length' by done. done.
Qed.

Lemma DeserializeLogRecord_bytes r r0 :
  log_record_wf r → DeserializeLogRecord (log_record_bytes r) (Some r0) = Ret (true, Some r).
Proof.
  intros (Hl & Hi & Hb & Ha). unfold log_record_bytes.
  edestruct (λ b1 b2 b3 b4 b5 rest, DeserializeLogRecord_cut b1 b2 b3 b4 b5 rest r0)
    as (r' & -> & Hr'); try apply length_le_bytes.
  pose proof (LogRecordType.log_code_range (log_type r)) as Hc.
  rewrite !(le_val_small 1), !(le_val_small 4) in * by (simpl; lia).
  rewrite bool_decide_true by len. rewrite Hr' by len.
  rewrite !Nat2Z.id, take_app_length, drop_app_length, LogRecordType.log_of_code_code.
  rewrite !(to_signed_le_val 8) by (done || lia). by destruct r.
Qed.

(** ** Properties *)

(** C38: parsing a serialized log record gives the record back. *)
Theorem log_record_roundtrip r r0 :
  log_record_wf r →
  ∃ bs, SerializeLogRecord r = Ret bs ∧
        DeserializeLogRecord bs (Some r0) = Ret (true, Some r).
Proof.
  intros Hr. exists (log_record_bytes r). split; [|by apply DeserializeLogRecord_bytes].
  apply SerializeLogRecord_bytes; apply Hr.
Qed.

(** Whatever bytes are read from the log, the record parser returns
    without reading outside them, and it accepts only the exact serialization
    of the record it produced. *)
Theorem log_record_parser_strict bs r0 :
  ∃ ok r, DeserializeLogRecord bs (Some r0) = Ret (ok, Some r) ∧
    (ok = true → SerializeLogRecord r = Ret bs).
Proof.
  destruct (decide (length bs < 25)%nat) as [Hs|Hs].
  { exists false, r0. split; [|done]. unfold DeserializeLogRecord.
    by rewrite (proj2 (Z.ltb_lt _ _)) by lia. }
  take_field bs 8%nat b1 H1. take_field bs 1%nat b2 H2. take_field bs 8%nat b3 H3.
  take_field bs 4%nat b4 H4. take_field bs 4%nat b5 H5.
  edestruct (DeserializeLogRecord_cut b1 b2 b3 b4 b5 bs r0) as (r' & -> & Hr'); try done.
  eexists _, r'. split; [done|]. intros Hok. apply bool_decide_eq_true in Hok.
  rewrite (Hr' Hok). destruct Hok as [E1 E2].
  pose proof (le_val_range b4) as R4. pose proof (le_val_range b5) as R5.
  pose proof (le_val_range b2) as R2.
  rewrite H2 in R2. rewrite H4 in R4. rewrite H5 in R5.
  assert (Z.of_nat (length (take (Z.to_nat (le_val b4)) bs)) = le_val b4) as L4 by len.
  assert (Z.of_nat (length (drop (Z.to_nat (le_val b4)) bs)) = le_val b5) as L5 by len.
  rewrite SerializeLogRecord_bytes by (simpl; lia).
  unfold log_record_bytes; cbn [lsn log_type record_id before_image after_image].
  rewrite L4, L5, take_drop, LogRecordType.log_code_of_code by lia. f_equal.
  rewrite !(le_of_signed 8), !le_bytes_of_val by done. done.
Qed.

Lemma log_record_roundtrip_witness :
  let r := mkLogRecord 12 LogRecordType.UPDATE (-7) [x01; x02] [x03] in
  ∃ bs, SerializeLogRecord r = Ret bs ∧
        DeserializeLogRecord bs (Some LogRecord_zero) = Ret (true, Some r).
Proof.
  apply log_record_roundtrip. apply (bool_decide_unpack _). vm_compute. exact I.
Defined.
