(* ===== verification/Record.v ===== *)
(** * Table records (src/query/record.h)

    A record and its fixed 80-byte image: the id, a 64-byte name field padded
    with zero bytes, the value.  The name a record reads back with is the
    C string in that field. *)

From S2P Require Export Bytes.

Local Open Scope Z_scope.

Record Record_ := mkRecord {
  rec_id : Z;
  rec_name : bytes;
  rec_value : Z;
}.

#[export] Instance Record_eq_dec : EqDecision Record_.
Proof. solve_decision. Defined.

Definition RECORD_NAME_SIZE : nat := 64.
Definition RECORD_SIZE : nat := 8 + RECORD_NAME_SIZE + 8.

(** [std::memcpy(buffer + off, src, n)] on a buffer that is the state. *)
Definition store (off : nat) (bs : bytes) : M bytes unit := λ buf,
  if decide (off + length bs ≤ length buf)%nat
  then (Ret tt, list_inserts off bs buf) else (Undef, buf).

(** [std::memcpy(dst, buffer + off, n)]. *)
Definition load (off n : nat) (buf : bytes) : outcome bytes :=
  if decide (off + n ≤ length buf)%nat then Ret (take n (drop off buf)) else Undef.

(** Writes into [buffer], which is the state. *)
Definition SerializeRecord (record : Record_) : M bytes unit :=
  store 0 (replicate RECORD_SIZE x00) ;;
  store 0 (le_bytes 8 (rec_id record)) ;;
  let name_size := Nat.min (length (rec_name record)) RECORD_NAME_SIZE in
  store 8 (take name_size (rec_name record)) ;;
  store (8 + RECORD_NAME_SIZE) (le_bytes 8 (rec_value record)).

(** [std::find(begin, end, 0)] then [assign(begin, name_end)]. *)
Fixpoint c_string (bs : bytes) : bytes :=
  match bs with
  | [] => []
  | b :: bs => if decide (b = x00) then [] else b :: c_string bs
  end.

Definition DeserializeRecord (buffer : bytes) : outcome Record_ :=
  match load 0 8 buffer, load 8 RECORD_NAME_SIZE buffer,
        load (8 + RECORD_NAME_SIZE) 8 buffer with
  | Ret id, Ret name, Ret value =>
      Ret (mkRecord (to_signed 64 (le_val id)) (c_string name) (to_signed 64 (le_val value)))
  | _, _, _ => Undef
  end.

(** ** The image of a record *)

Definition record_image (r : Record_) : bytes :=
  le_bytes 8 (rec_id r) ++
  (take RECORD_NAME_SIZE (rec_name r) ++
   replicate (RECORD_NAME_SIZE - length (rec_name r)) x00) ++
  le_bytes 8 (rec_value r).

(** The record as it reads back: the name cut to its field and to its first
    zero byte. *)
Definition stored_record (r : Record_) : Record_ :=
  mkRecord (rec_id r) (c_string (take RECORD_NAME_SIZE (rec_name r))) (rec_value r).

Definition record_wf (r : Record_) : Prop :=
  in_signed 64 (rec_id r) ∧ in_signed 64 (rec_value r).

#[export] Instance record_wf_dec r : Decision (record_wf r).
Proof. unfold record_wf. apply _. Defined.

(** A name the field can hold unchanged. *)
Definition name_fits (r : Record_) : Prop :=
  (length (rec_name r) ≤ RECORD_NAME_SIZE)%nat ∧ x00 ∉ rec_name r.

Arguments RECORD_SIZE : simpl never.
Arguments RECORD_NAME_SIZE : simpl never.

Lemma length_record_image r : length (record_image r) = RECORD_SIZE.
Proof.
  unfold record_image, RECORD_SIZE.
  repeat (autorewrite with qdb_length; rewrite ?length_app). lia.
Qed.

Lemma store_mid off pre mid mid' post :
  off = length pre → length mid' = length mid →
  store off mid' (pre ++ mid ++ post) = (Ret tt, pre ++ mid' ++ post).
Proof.
  intros -> Hlen. unfold store. rewrite decide_True by len.
  pose proof (list_inserts_app_r mid' pre (mid ++ post) 0) as H.
  rewrite Nat.add_0_r in H. by rewrite H, list_inserts_0_r.
Qed.

(** The serializer overwrites the first 80 bytes and keeps the rest. *)
Lemma SerializeRecord_image r buf :
  (RECORD_SIZE ≤ length buf)%nat →
  SerializeRecord r buf = (Ret tt, record_image r ++ drop RECORD_SIZE buf).
Proof.
  intros Hbuf. unfold SerializeRecord.
  rewrite <- (take_drop RECORD_SIZE buf) at 1.
  erewrite bind_ret by (apply (store_mid 0 []); len).
  set (tail := drop RECORD_SIZE buf).
  set (name := take (Nat.min (length (rec_name r)) RECORD_NAME_SIZE) (rec_name r)).
  assert (name = take RECORD_NAME_SIZE (rec_name r)) as Hname.
  { subst name. destruct (Nat.min_spec (length (rec_name r)) RECORD_NAME_SIZE) as [[? ->]|[? ->]].
    - rewrite !take_ge by lia. done.
    - done. }
  assert (length name ≤ RECORD_NAME_SIZE)%nat as Hn by (rewrite Hname, length_take; lia).
  replace (replicate RECORD_SIZE x00) with
    (replicate 8 x00 ++ replicate (length name) x00 ++
     replicate (RECORD_NAME_SIZE - length name) x00 ++ replicate 8 x00).
  2: { rewrite <- !replicate_add. f_equal. unfold RECORD_SIZE. lia. }
  rewrite <- !app_assoc. cbn [app].
  erewrite bind_ret by (apply (store_mid 0 []); len).
  cbn [app]. erewrite bind_ret by (apply store_mid; len).
  rewrite (app_assoc (le_bytes 8 _)), (app_assoc _ _ (replicate 8 x00 ++ tail)).
  erewrite store_mid by (rewrite ?length_app; len).
  f_equal. unfold record_image. rewrite <- !app_assoc. do 2 f_equal; [done|].
  f_equal. f_equal. rewrite Hname, length_take. lia.
Qed.

Lemma c_string_app_zeros name n :
  c_string (name ++ replicate n x00) = c_string name.
Proof.
  induction name as [|b name IH]; simpl.
  - by destruct n.
  - by rewrite IH.
Qed.

Lemma c_string_id name : x00 ∉ name → c_string name = name.
Proof.
  induction name as [|b name IH]; simpl; intros Hn; [done|].
  apply not_elem_of_cons in Hn as [Hb Hn].
  rewrite decide_False by congruence. by rewrite IH.
Qed.

Lemma DeserializeRecord_image r tail :
  record_wf r → DeserializeRecord (record_image r ++ tail) = Ret (stored_record r).
Proof.
  intros [Hi Hv]. unfold DeserializeRecord, load.
  pose proof (length_record_image r) as Hl. unfold RECORD_SIZE in Hl.
  rewrite !decide_True by (rewrite length_app; lia).
  unfold record_image. rewrite <- !app_assoc.
  set (field := take RECORD_NAME_SIZE (rec_name r)).
  rewrite drop_0, take_app_length' by len.
  rewrite drop_app_length' by len.
  rewrite (app_assoc field), take_app_length'.
  2: { subst field. rewrite length_app, length_take, length_replicate. lia. }
  rewrite (app_assoc (le_bytes 8 _)), drop_app_length'.
  2: { subst field. rewrite !length_app, length_take, length_replicate, length_le_bytes. lia. }
  rewrite take_app_length' by len.
  rewrite c_string_app_zeros, !(to_signed_le_val 8) by (done || lia). done.
Qed.

Lemma stored_record_id r : name_fits r → stored_record r = r.
Proof.
  intros [Hl Hz]. unfold stored_record. rewrite take_ge by done.
  rewrite c_string_id by done. by destruct r.
Qed.

(** ** Properties *)

(** A record written to a page or a log image and read back is the record
    with its name cut to the 64-byte field and to its first zero byte, so it is
    the record itself when the name fits; the rest of the page is unchanged. *)
Theorem record_roundtrip r page :
  record_wf r → (RECORD_SIZE ≤ length page)%nat →
  ∃ page', SerializeRecord r page = (Ret tt, page') ∧
    drop RECORD_SIZE page' = drop RECORD_SIZE page ∧ length page' = length page ∧
    DeserializeRecord page' = Ret (stored_record r) ∧
    (name_fits r → DeserializeRecord page' = Ret r).
Proof.
  intros Hr Hp. eexists. split; [by apply SerializeRecord_image|].
  rewrite DeserializeRecord_image by done. split_and!; try done.
  - by rewrite drop_app_length' by by rewrite length_record_image.
  - rewrite length_app, length_record_image, length_drop. lia.
  - intros Hf. by rewrite stored_record_id.
Qed.

Lemma record_roundtrip_witness :
  let r := mkRecord 1 [x41; x64; x61] 100 in
  ∃ page', SerializeRecord r (replicate 96 xff) = (Ret tt, page') ∧
    drop RECORD_SIZE page' = drop RECORD_SIZE (replicate 96 xff) ∧
    length page' = length (replicate 96 xff) ∧
    DeserializeRecord page' = Ret (stored_record r) ∧
    (name_fits r → DeserializeRecord page' = Ret r).
Proof.
  apply record_roundtrip; [apply (bool_decide_unpack _); vm_compute; exact I|vm_compute; lia].
Defined.
