(* ===== verification/DiskManager.v ===== *)
(** * Pages and the disk manager (src/storage/page.h, disk_manager.{h,cpp})

    The backing file is its list of bytes together with what the operating
    system lets the stream do ([tell_ok], [read_ok], [write_ok]); the disk
    manager adds the allocation state.  Page contents are 4096-byte lists. *)

From S2P Require Export Bytes.

Local Open Scope Z_scope.

Definition PAGE_SIZE : nat := 4096.
Definition INVALID_PAGE_ID : Z := -1.

Arguments PAGE_SIZE : simpl never.

Lemma PAGE_SIZE_eq : PAGE_SIZE = 4096%nat.
Proof. done. Qed.

Lemma PAGE_SIZE_pos : (0 < PAGE_SIZE)%nat.
Proof. unfold PAGE_SIZE. lia. Qed.

(** The unifier must not compute with the number; [vm_compute] still does. *)
#[global] Opaque PAGE_SIZE.

(** A [Page] object: its memory and the id it holds. *)
Record Page := mkPage { page_data : bytes; page_id_ : Z }.

Definition zero_page : bytes := replicate PAGE_SIZE x00.

(** [ResetMemory], [SetPageId] and the constructor. *)
Definition ResetMemory (p : Page) : Page := mkPage zero_page (page_id_ p).
Definition SetPageId (id : Z) (p : Page) : Page := mkPage (page_data p) id.
Definition Page_new : Page := mkPage zero_page INVALID_PAGE_ID.

(** ** The backing file *)

Record fstream := mkFile {
  contents : bytes;
  tell_ok : bool;
  read_ok : bool;
  write_ok : bool;
}.

Record DiskManager := mkDisk {
  file_ : fstream;
  next_page_id_ : Z;
  free_list_ : list Z;
  num_flushes_ : Z;
}.

(** The bytes of a file after [write(data)] at offset [off]; a gap past the
    old end reads as zeros. *)
Definition write_at (off : nat) (data file : bytes) : bytes :=
  take off (file ++ replicate (off - length file) x00) ++ data ++
  drop (off + length data) file.

(** The [PAGE_SIZE] bytes [read] delivers at page [p], a short read being
    filled up with zeros. *)
Definition file_page (file : bytes) (p : nat) : bytes :=
  let data := take PAGE_SIZE (drop (p * PAGE_SIZE) file) in
  data ++ replicate (PAGE_SIZE - length data) x00.

Definition set_contents (c : bytes) (d : DiskManager) : DiskManager :=
  mkDisk (mkFile c (tell_ok (file_ d)) (read_ok (file_ d)) (write_ok (file_ d)))
    (next_page_id_ d) (free_list_ d) (num_flushes_ d).

(** ** Operations *)

(** [opened] is the file's content when the first [open] succeeds; [created]
    and [reopened] say whether creating the file and opening it then work. *)
Definition OpenFile (opened : option bytes) (created reopened : bool) : outcome bytes :=
  match opened with
  | Some c => Ret c
  | None =>
      if negb created then Throw (runtime_error "failed to create backing file")
      else if negb reopened then Throw (runtime_error "failed to open backing file")
      else Ret []
  end.

Definition GetFileSizeUnlocked : M DiskManager Z := λ d,
  if tell_ok (file_ d) then (Ret (Z.of_nat (length (contents (file_ d)))), d)
  else (Throw (runtime_error "failed to determine backing file size"), d).

(** The constructor, on the file [OpenFile] left. *)
Definition DiskManager_new (f : fstream) : outcome DiskManager :=
  match GetFileSizeUnlocked (mkDisk f 0 [] 0) with
  | (Ret file_size, d) =>
      Ret (mkDisk (file_ d) (to_signed 32 (file_size / Z.of_nat PAGE_SIZE)) [] 0)
  | (Throw e, _) => Throw e
  | _ => Undef
  end.

(** The contents of the caller's buffer after the call; [page_data] is [None]
    for a null pointer. *)
Definition ReadPage (page_id : Z) (page_data : option bytes) : M DiskManager bytes :=
  if (page_id <? 0) || bool_decide (page_data = None)
  then throw (runtime_error "invalid page read request") else
  let offset := page_id * Z.of_nat PAGE_SIZE in
  file_size ← GetFileSizeUnlocked;
  if file_size <=? offset then mret zero_page else
  f ← gets file_;
  if negb (read_ok f) then throw (runtime_error "failed to read page") else
  mret (file_page (contents f) (Z.to_nat page_id)).

Definition WritePage (page_id : Z) (page_data : option bytes) : M DiskManager unit :=
  match page_data with
  | None => throw (runtime_error "invalid page write request")
  | Some data =>
      if page_id <? 0 then throw (runtime_error "invalid page write request") else
      f ← gets file_;
      if negb (write_ok f) then throw (runtime_error "failed to write page") else
      modify (λ d, set_contents
        (write_at (Z.to_nat page_id * PAGE_SIZE) (take PAGE_SIZE data) (contents (file_ d))) d) ;;
      modify (λ d, mkDisk (file_ d) (next_page_id_ d) (free_list_ d)
                     (to_unsigned 64 (num_flushes_ d + 1)))
  end.

Definition AllocatePage : M DiskManager Z := λ d,
  match last (free_list_ d) with
  | Some page_id =>
      (Ret page_id, mkDisk (file_ d) (next_page_id_ d)
                      (take (length (free_list_ d) - 1) (free_list_ d)) (num_flushes_ d))
  | None =>
      if next_page_id_ d =? int32_max
      then (Throw (runtime_error "page id limit reached"), d)
      else (Ret (next_page_id_ d),
            mkDisk (file_ d) (next_page_id_ d + 1) (free_list_ d) (num_flushes_ d))
  end.

Definition DeallocatePage (page_id : Z) : M DiskManager unit :=
  when (0 <=? page_id)
    (modify (λ d, mkDisk (file_ d) (next_page_id_ d) (free_list_ d ++ [page_id]) (num_flushes_ d))).

Definition GetNumFlushes : M DiskManager Z := gets num_flushes_.
Definition GetFileSize : M DiskManager Z := GetFileSizeUnlocked.

(** ** The file as an array of pages *)

Definition healthy (d : DiskManager) : Prop :=
  tell_ok (file_ d) = true ∧ read_ok (file_ d) = true ∧ write_ok (file_ d) = true.

(** The content of page [p], for the id type of the code. *)
Definition disk_page (d : DiskManager) (p : Z) : bytes :=
  file_page (contents (file_ d)) (Z.to_nat p).

Lemma length_file_page f p : length (file_page f p) = PAGE_SIZE.
Proof. unfold file_page. cbv zeta. rewrite length_app, length_replicate, !length_take. lia. Qed.

Lemma length_disk_page d p : length (disk_page d p) = PAGE_SIZE.
Proof. apply length_file_page. Qed.

Lemma disk_page_ext d d' p : file_ d = file_ d' → disk_page d p = disk_page d' p.
Proof. intros H. unfold disk_page. by rewrite H. Qed.

Lemma length_zero_page : length zero_page = PAGE_SIZE.
Proof. apply length_replicate. Qed.

Lemma file_page_lookup f p i :
  (i < PAGE_SIZE)%nat → file_page f p !! i = Some (default x00 (f !! (p * PAGE_SIZE + i)%nat)).
Proof.
  intros Hi. unfold file_page. cbv zeta.
  destruct (f !! (p * PAGE_SIZE + i)%nat) as [b|] eqn:E; simpl.
  - rewrite lookup_app_l.
    + by rewrite lookup_take_lt, lookup_drop.
    + apply lookup_lt_Some in E. rewrite length_take, length_drop. lia.
  - apply lookup_ge_None in E.
    rewrite lookup_app_r by (rewrite length_take, length_drop; lia).
    apply lookup_replicate_2. rewrite length_take, length_drop. lia.
Qed.

Lemma write_at_lookup off data f j :
  default x00 (write_at off data f !! j) =
  if decide (off ≤ j < off + length data)%nat
  then default x00 (data !! (j - off)%nat) else default x00 (f !! j).
Proof.
  unfold write_at.
  assert (length (take off (f ++ replicate (off - length f) x00)) = off) as Hl.
  { rewrite length_take, length_app, length_replicate. lia. }
  case_decide as Hj.
  - rewrite lookup_app_r, Hl, lookup_app_l by lia. done.
  - destruct (decide (j < off)%nat) as [Hlt|Hge].
    + rewrite lookup_app_l, lookup_take_lt by lia.
      destruct (decide (j < length f)%nat).
      * by rewrite lookup_app_l by lia.
      * rewrite lookup_app_r, lookup_replicate_2 by lia.
        by rewrite (lookup_ge_None_2 f) by lia.
    + rewrite lookup_app_r, Hl, lookup_app_r, lookup_drop by lia.
      do 2 f_equal. lia.
Qed.

Lemma file_page_write_eq f p data :
  length data = PAGE_SIZE →
  file_page (write_at (p * PAGE_SIZE) data f) p = data.
Proof.
  intros Hd. apply list_eq_same_length with PAGE_SIZE; [done|apply length_file_page|].
  intros i x y Hi. rewrite file_page_lookup, write_at_lookup, decide_True by lia.
  replace (p * PAGE_SIZE + i - p * PAGE_SIZE)%nat with i by lia.
  intros Hx Hy. simplify_eq/=. by rewrite Hy.
Qed.

Lemma file_page_write_ne f p q data :
  length data = PAGE_SIZE → p ≠ q →
  file_page (write_at (p * PAGE_SIZE) data f) q = file_page f q.
Proof.
  intros Hd Hne. apply list_eq_same_length with PAGE_SIZE; try apply length_file_page.
  intros i x y Hi. rewrite !file_page_lookup, write_at_lookup by done.
  rewrite decide_False; [congruence|].
  intros H. apply Hne. pose proof PAGE_SIZE_pos.
  assert (p * PAGE_SIZE < S q * PAGE_SIZE)%nat by lia.
  assert (q * PAGE_SIZE < S p * PAGE_SIZE)%nat by lia. nia.
Qed.

Lemma file_page_past f p : (length f ≤ p * PAGE_SIZE)%nat → file_page f p = zero_page.
Proof.
  intros Hp. unfold file_page. rewrite drop_ge by lia. rewrite take_nil.
  cbn [app length]. by rewrite Nat.sub_0_r.
Qed.

(** ** What the operations do *)

Lemma ReadPage_spec d p buf :
  tell_ok (file_ d) = true → read_ok (file_ d) = true → 0 ≤ p →
  ReadPage p (Some buf) d = (Ret (disk_page d p), d).
Proof.
  intros Ht Hr Hp. unfold ReadPage.
  rewrite (proj2 (Z.ltb_ge p 0)) by lia. cbn [orb bool_decide].
  rewrite bool_decide_false by done.
  unfold mbind, M_bind, GetFileSizeUnlocked. rewrite Ht.
  destruct (Z.leb_spec (Z.of_nat (length (contents (file_ d)))) (p * Z.of_nat PAGE_SIZE)) as [H|H].
  - unfold disk_page. rewrite file_page_past; [done|]. nia.
  - unfold gets. rewrite Hr. done.
Qed.

Lemma ReadPage_negative d p buf :
  p < 0 → ReadPage p buf d = (Throw (runtime_error "invalid page read request"), d).
Proof. intros Hp. unfold ReadPage. by rewrite (proj2 (Z.ltb_lt p 0)) by lia. Qed.

Definition written (p : Z) (data : bytes) (d : DiskManager) : DiskManager :=
  mkDisk (mkFile (write_at (Z.to_nat p * PAGE_SIZE) (take PAGE_SIZE data) (contents (file_ d)))
            (tell_ok (file_ d)) (read_ok (file_ d)) (write_ok (file_ d)))
    (next_page_id_ d) (free_list_ d) (to_unsigned 64 (num_flushes_ d + 1)).

Lemma WritePage_spec d p data :
  write_ok (file_ d) = true → 0 ≤ p →
  WritePage p (Some data) d = (Ret tt, written p data d).
Proof.
  intros Hw Hp. unfold WritePage. rewrite (proj2 (Z.ltb_ge p 0)) by lia.
  unfold mbind, M_bind, gets. rewrite Hw. done.
Qed.

Lemma disk_page_written_eq d p data :
  length data = PAGE_SIZE → disk_page (written p data d) p = data.
Proof.
  intros Hd. unfold disk_page, written; simpl. rewrite take_ge by lia.
  by apply file_page_write_eq.
Qed.

Lemma disk_page_written_ne d p q data :
  length data = PAGE_SIZE → 0 ≤ p → 0 ≤ q → p ≠ q →
  disk_page (written p data d) q = disk_page d q.
Proof.
  intros Hd Hp Hq Hne. unfold disk_page, written; simpl. rewrite take_ge by lia.
  apply file_page_write_ne; [done|lia].
Qed.

Lemma healthy_written d p data : healthy d → healthy (written p data d).
Proof. done. Qed.

(** ** Allocation *)

(** The page ids the allocator handed out and did not get back. *)
Definition allocated (d : DiskManager) (p : Z) : Prop :=
  0 ≤ p < next_page_id_ d ∧ p ∉ free_list_ d.

#[export] Instance allocated_dec d p : Decision (allocated d p).
Proof. unfold allocated. apply _. Defined.

(** No id is free twice, and every free id was once handed out. *)
Definition alloc_inv (d : DiskManager) : Prop :=
  0 ≤ next_page_id_ d ≤ int32_max ∧ NoDup (free_list_ d) ∧
  Forall (λ p, 0 ≤ p < next_page_id_ d) (free_list_ d).

#[export] Instance alloc_inv_dec d : Decision (alloc_inv d).
Proof. unfold alloc_inv. apply _. Defined.

(** How many more pages can be allocated. *)
Definition alloc_room (d : DiskManager) : Z :=
  Z.of_nat (length (free_list_ d)) + (int32_max - next_page_id_ d).

Lemma AllocatePage_cases d :
  (∃ l p, free_list_ d = l ++ [p] ∧
     AllocatePage d = (Ret p, mkDisk (file_ d) (next_page_id_ d) l (num_flushes_ d))) ∨
  (free_list_ d = [] ∧
   AllocatePage d =
     if next_page_id_ d =? int32_max
     then (Throw (runtime_error "page id limit reached"), d)
     else (Ret (next_page_id_ d),
           mkDisk (file_ d) (next_page_id_ d + 1) (free_list_ d) (num_flushes_ d))).
Proof.
  unfold AllocatePage. destruct (last (free_list_ d)) as [p|] eqn:E.
  - left. apply last_Some in E as [l Hl]. exists l, p. split; [done|].
    rewrite Hl, length_app. cbn [length].
    by rewrite Nat.add_sub, take_app_length.
  - right. by apply last_None in E.
Qed.

(** What a successful allocation guarantees. *)
Record allocates (d : DiskManager) (p : Z) (d' : DiskManager) : Prop := {
  allocates_run : AllocatePage d = (Ret p, d');
  allocates_range : 0 ≤ p < int32_max;
  allocates_fresh : ¬ allocated d p;
  allocates_iff q : allocated d' q ↔ q = p ∨ allocated d q;
  allocates_inv : alloc_inv d';
  allocates_room : alloc_room d' = alloc_room d - 1;
  allocates_file : file_ d' = file_ d;
  allocates_next : next_page_id_ d ≤ next_page_id_ d';
}.

Lemma AllocatePage_ok d :
  alloc_inv d → 0 < alloc_room d → ∃ p d', allocates d p d'.
Proof.
  intros (Hn & Hnd & Hf) Hroom.
  destruct (AllocatePage_cases d) as [(l & p & Hl & Hrun)|[Hl Hrun]].
  - rewrite Hl in Hnd, Hf. apply NoDup_app in Hnd as (Hnd & Hdis & _).
    apply Forall_app in Hf as [Hfl Hp]. apply Forall_cons in Hp as [Hp _].
    assert (p ∉ l) as Hpl by (intros H; apply (Hdis _ H); set_solver).
    eexists p, _. split; [exact Hrun|..]; unfold allocated, alloc_inv, alloc_room; simpl;
      rewrite ?Hl, ?length_app; cbn [length]; try done; try (unfold int32_max in *; lia).
    + intros [_ H]. apply H, elem_of_app. right. by left.
    + intros q. rewrite not_elem_of_app, list_elem_of_singleton. split.
      * intros [Hr Hq]. destruct (decide (q = p)); [by left|by right].
      * intros [->|(Hr & Hq & _)]; done.
  - unfold alloc_room in Hroom. rewrite Hl in Hroom. simpl in Hroom.
    rewrite (proj2 (Z.eqb_neq _ _)) in Hrun by lia.
    eexists _, _. split; [exact Hrun|..]; unfold allocated, alloc_inv, alloc_room; simpl;
      rewrite ?Hl; try done; try (unfold int32_max in *; lia).
    + intros q. pose proof (not_elem_of_nil q) as Hq. split.
      * intros [Hr _]. destruct (decide (q = next_page_id_ d)); [by left|right].
        split; [lia|done].
      * intros [->|[Hr _]]; (split; [lia|done]).
    + split_and!; try constructor; lia.
Qed.

Lemma DeallocatePage_spec d p :
  alloc_inv d → allocated d p →
  ∃ d', DeallocatePage p d = (Ret tt, d') ∧ alloc_inv d' ∧
    (∀ q, allocated d' q ↔ q ≠ p ∧ allocated d q) ∧ file_ d' = file_ d ∧
    alloc_room d' = alloc_room d + 1 ∧ next_page_id_ d' = next_page_id_ d.
Proof.
  intros (Hn & Hnd & Hf) [Hp Hfree]. unfold DeallocatePage.
  rewrite (proj2 (Z.leb_le 0 p)) by lia. eexists. split; [done|].
  unfold alloc_inv, allocated, alloc_room; simpl. split_and!; try done; try lia.
  - apply NoDup_app. split_and!; [done| |apply NoDup_singleton]. set_solver.
  - apply Forall_app. split; [done|]. by apply Forall_singleton.
  - intros q. set_solver.
  - rewrite length_app. simpl. lia.
Qed.

(** ** Properties *)

(** C29: a written page reads back as written, every other page reads as
    before, and a page never written reads as zeros. *)
Theorem disk_read_after_write d p data buf :
  healthy d → 0 ≤ p → length data = PAGE_SIZE →
  ∃ d', WritePage p (Some data) d = (Ret tt, d') ∧ healthy d' ∧
    (∀ q, 0 ≤ q → ReadPage q (Some buf) d' =
       (Ret (if decide (q = p) then data else disk_page d q), d')) ∧
    (∀ q, 0 ≤ q → Z.of_nat (length (contents (file_ d))) ≤ q * Z.of_nat PAGE_SIZE →
       ReadPage q (Some buf) d = (Ret zero_page, d)).
Proof.
  intros Hh Hp Hd. destruct Hh as (Ht & Hr & Hw). eexists.
  split; [by apply WritePage_spec|]. split; [done|]. split.
  - intros q Hq. rewrite ReadPage_spec by done. do 2 f_equal.
    case_decide as Heq; [subst; by apply disk_page_written_eq|].
    apply disk_page_written_ne; [done..|congruence].
  - intros q Hq Hpast. rewrite ReadPage_spec by done. do 2 f_equal.
    apply file_page_past. nia.
Qed.

Lemma disk_read_after_write_witness :
  let d := mkDisk (mkFile [] true true true) 3 [] 0 in
  let data := replicate PAGE_SIZE x61 in
  ∃ d', WritePage 1 (Some data) d = (Ret tt, d') ∧ healthy d' ∧
    (∀ q, 0 ≤ q → ReadPage q (Some []) d' =
       (Ret (if decide (q = 1) then data else disk_page d q), d')) ∧
    (∀ q, 0 ≤ q → Z.of_nat (length (contents (file_ d))) ≤ q * Z.of_nat PAGE_SIZE →
       ReadPage q (Some []) d = (Ret zero_page, d)).
Proof.
  apply disk_read_after_write; [done|done|apply length_replicate].
Defined.

(** ** The allocator and its clients *)

(** [held]: the ids that clients own.  They are given ids by [AllocatePage], and
    give back only what they own. *)
Inductive alloc_step : DiskManager * gset Z → DiskManager * gset Z → Prop :=
  | step_allocate d held p d' :
      AllocatePage d = (Ret p, d') → alloc_step (d, held) (d', {[p]} ∪ held)
  | step_deallocate d held p d' :
      p ∈ held → DeallocatePage p d = (Ret tt, d') → alloc_step (d, held) (d', held ∖ {[p]}).

(** The pages a file has when it is opened belong to those who use it. *)
Definition file_pages (d : DiskManager) : gset Z := list_to_set (seqZ 0 (next_page_id_ d)).

Definition owned (x : DiskManager * gset Z) : Prop :=
  alloc_inv x.1 ∧ ∀ q, q ∈ x.2 ↔ allocated x.1 q.

Lemma owned_new f d :
  DiskManager_new f = Ret d → Z.of_nat (length (contents f)) / Z.of_nat PAGE_SIZE ≤ int32_max →
  owned (d, file_pages d).
Proof.
  unfold DiskManager_new, GetFileSizeUnlocked. simpl. destruct (tell_ok f); [|done].
  intros [= <-] Hsz. pose proof PAGE_SIZE_pos.
  assert (0 ≤ Z.of_nat (length (contents f)) / Z.of_nat PAGE_SIZE) as H0 by (apply Z.div_pos; lia).
  unfold file_pages, owned, alloc_inv, allocated. simpl.
  rewrite to_signed_small by (unfold in_signed, int32_max in *; lia). split.
  - split_and!; [lia|done|constructor|constructor].
  - intros q. rewrite elem_of_list_to_set, elem_of_seqZ. pose proof (not_elem_of_nil q). split; [|lia].
    intros Hq. split; [lia|done].
Qed.

Lemma owned_step x y : owned x → alloc_step x y → owned y.
Proof.
  intros [Hinv Hheld] Hstep. destruct Hstep as [d held p d' Hrun|d held p d' Hp Hrun]; simpl in *.
  - destruct (decide (0 < alloc_room d)) as [Hroom|Hroom].
    + destruct (AllocatePage_ok d Hinv Hroom) as (p' & d2 & Ha).
      rewrite (allocates_run _ _ _ Ha) in Hrun. injection Hrun as <- <-. split; [apply Ha|].
      intros q. simpl. rewrite (allocates_iff _ _ _ Ha), <- Hheld. set_solver.
    + destruct Hinv as (Hn & _ & _). unfold alloc_room in Hroom.
      destruct (AllocatePage_cases d) as [(l & p' & Hl & _)|[Hl Hrun']].
      { rewrite Hl, length_app in Hroom. simpl in Hroom. lia. }
      rewrite Hl in Hroom. simpl in Hroom. rewrite Hrun' in Hrun.
      by rewrite (proj2 (Z.eqb_eq _ _)) in Hrun by lia.
  - destruct (DeallocatePage_spec d p Hinv) as (d2 & Hrun' & Hinv' & Hal & _); [by apply Hheld|].
    rewrite Hrun' in Hrun. injection Hrun as <-. split; [done|].
    intros q. simpl. rewrite Hal, <- Hheld. set_solver.
Qed.

Lemma owned_steps x y : owned x → rtc alloc_step x y → owned y.
Proof. induction 2 as [|x y z Hs _ IH]; [done|]. by eapply IH, owned_step. Qed.

(** What is freed is handed out next, and the allocator is as before. *)
Lemma free_then_allocate d p :
  0 ≤ p → ∃ d', DeallocatePage p d = (Ret tt, d') ∧ AllocatePage d' = (Ret p, d).
Proof.
  intros Hp. unfold DeallocatePage. rewrite (proj2 (Z.leb_le 0 p)) by done. eexists. split; [reflexivity|].
  unfold AllocatePage. simpl. rewrite last_snoc, length_app. simpl.
  rewrite Nat.add_sub, take_app_length. by destruct d.
Qed.

(** C30: from opening a file on, through any sequence of allocations and of
    deallocations of ids by those who hold them: an allocation hands out an id
    that nobody holds, or fails, when every id of the type is held; an id that
    is given back is held by nobody, is the next one handed out, and handing
    it out leaves the allocator as it was. *)
Theorem allocate_fresh f d0 d held :
  DiskManager_new f = Ret d0 → Z.of_nat (length (contents f)) / Z.of_nat PAGE_SIZE ≤ int32_max →
  rtc alloc_step (d0, file_pages d0) (d, held) →
  ((∃ p d', AllocatePage d = (Ret p, d') ∧ p ∉ held ∧ 0 ≤ p < int32_max) ∨
   (AllocatePage d = (Throw (runtime_error "page id limit reached"), d) ∧
    ∀ p, 0 ≤ p < int32_max → p ∈ held)) ∧
  (∀ p, p ∈ held → ∃ d', DeallocatePage p d = (Ret tt, d') ∧
    (∀ q, allocated d' q ↔ q ∈ held ∧ q ≠ p) ∧ AllocatePage d' = (Ret p, d)).
Proof.
  intros Hnew Hsz Hsteps. destruct (owned_steps _ _ (owned_new _ _ Hnew Hsz) Hsteps) as [Hinv Hheld].
  simpl in *. split.
  - destruct (decide (0 < alloc_room d)) as [Hr|Hr].
    + left. destruct (AllocatePage_ok d Hinv Hr) as (p & d' & Ha). exists p, d'.
      split_and!; [apply Ha| |apply Ha..]. rewrite Hheld. apply Ha.
    + right. destruct Hinv as (Hn & _ & _). unfold alloc_room in Hr.
      assert (free_list_ d = []) as Hl by (apply nil_length_inv; lia).
      assert (next_page_id_ d = int32_max) as Hm by (rewrite Hl in Hr; simpl in Hr; lia). split.
      * destruct (AllocatePage_cases d) as [(l & p & Hl' & _)|[_ Hrun]].
        { rewrite Hl in Hl'. by destruct l. }
        rewrite Hrun, Hm. done.
      * intros p Hp. apply Hheld. split; [lia|]. rewrite Hl. apply not_elem_of_nil.
  - intros p Hp. apply Hheld in Hp as Hal.
    destruct (DeallocatePage_spec d p Hinv Hal) as (d' & Hrun & _ & Hal' & _).
    destruct (free_then_allocate d p) as (d2 & Hrun2 & Hnext); [destruct Hal; lia|].
    rewrite Hrun in Hrun2. injection Hrun2 as <-. exists d'. split_and!; [done| |done].
    intros q. rewrite Hal', Hheld. tauto.
Qed.

(** A file of two pages; a third one is allocated, then page 1 given back. *)
Lemma allocate_fresh_witness :
  let f := mkFile (replicate (2 * PAGE_SIZE) x00) true true true in
  let d := mkDisk f 3 [1] 0 in
  ((∃ p d', AllocatePage d = (Ret p, d') ∧ p ∉ ({[2; 0]} : gset Z) ∧ 0 ≤ p < int32_max) ∨
   (AllocatePage d = (Throw (runtime_error "page id limit reached"), d) ∧
    ∀ p, 0 ≤ p < int32_max → p ∈ ({[2; 0]} : gset Z))) ∧
  (∀ p, p ∈ ({[2; 0]} : gset Z) → ∃ d', DeallocatePage p d = (Ret tt, d') ∧
    (∀ q, allocated d' q ↔ q ∈ ({[2; 0]} : gset Z) ∧ q ≠ p) ∧ AllocatePage d' = (Ret p, d)).
Proof.
  intros f d. apply (allocate_fresh f (mkDisk f 2 [] 0)).
  - vm_compute. reflexivity.
  - vm_compute. discriminate.
  - eapply rtc_l; [apply (step_allocate _ _ 2 (mkDisk f 3 [] 0)); vm_compute; reflexivity|].
    eapply rtc_l; [apply (step_deallocate _ _ 1 d); [set_solver|vm_compute; reflexivity]|].
    replace (({[2]} ∪ file_pages (mkDisk f 2 [] 0)) ∖ {[1]}) with ({[2; 0]} : gset Z); [apply rtc_refl|].
    vm_compute. reflexivity.
Defined.

(** Nothing stops a client that gives back what it does not hold: an id freed
    twice is handed out to two clients. *)
Theorem double_free_shares_page d p :
  0 ≤ p → ∃ d1 d2 d3, DeallocatePage p d = (Ret tt, d1) ∧ DeallocatePage p d1 = (Ret tt, d2) ∧
    AllocatePage d2 = (Ret p, d3) ∧ ∃ d4, AllocatePage d3 = (Ret p, d4).
Proof.
  intros Hp. destruct (free_then_allocate d p Hp) as (d1 & H1 & H1').
  destruct (free_then_allocate d1 p Hp) as (d2 & H2 & H2').
  exists d1, d2, d1. split_and!; [done..|]. by exists d.
Qed.
