(* ===== verification/BufferPoolManager.v ===== *)
(** * The buffer pool (src/storage/buffer_pool_manager.{h,cpp})

    A fixed set of frames caching disk pages: the page table, the stack of
    free frames, the LRU list of unpinned frames and the vector of list
    iterators into it.  A [Page *] is the index of its frame, a null pointer
    is [None].  This file holds the operations; their invariant and the view
    of the pool as a store of pages are in PoolInvariant.v. *)

From S2P Require Export DiskManager.

Local Open Scope Z_scope.

Record Frame := mkFrame {
  page : Page;
  pin_count : nat;
  is_dirty : bool;
}.

Definition Frame_new : Frame := mkFrame Page_new 0 false.

(** [lru_positions_] holds [list::iterator]s: [None] is [lru_.end()], [Some i]
    the iterator to the list node that holds [i]. *)
Record BufferPoolManager := mkPool {
  disk_manager_ : DiskManager;
  frames_ : list Frame;
  page_table_ : gmap Z nat;
  free_frames_ : list nat;
  lru_ : list nat;
  lru_positions_ : list (option nat);
}.

(** ** Access to the members *)

Definition set_disk (d : DiskManager) (s : BufferPoolManager) : BufferPoolManager :=
  mkPool d (frames_ s) (page_table_ s) (free_frames_ s) (lru_ s) (lru_positions_ s).
Definition set_frames (fs : list Frame) (s : BufferPoolManager) : BufferPoolManager :=
  mkPool (disk_manager_ s) fs (page_table_ s) (free_frames_ s) (lru_ s) (lru_positions_ s).
Definition set_table (t : gmap Z nat) (s : BufferPoolManager) : BufferPoolManager :=
  mkPool (disk_manager_ s) (frames_ s) t (free_frames_ s) (lru_ s) (lru_positions_ s).
Definition set_free (l : list nat) (s : BufferPoolManager) : BufferPoolManager :=
  mkPool (disk_manager_ s) (frames_ s) (page_table_ s) l (lru_ s) (lru_positions_ s).
Definition set_lru (l : list nat) (pos : list (option nat)) (s : BufferPoolManager)
    : BufferPoolManager :=
  mkPool (disk_manager_ s) (frames_ s) (page_table_ s) (free_frames_ s) l pos.

Definition on_disk {A} (m : M DiskManager A) : M BufferPoolManager A :=
  zoom disk_manager_ set_disk m.

(** [frames_[i]], read and written. *)
Definition frame_at (i : nat) : M BufferPoolManager Frame :=
  fs ← gets frames_; at_ fs i.
Definition update_frame (i : nat) (g : Frame → Frame) : M BufferPoolManager unit :=
  f ← frame_at i; modify (λ s, set_frames (<[i := g f]> (frames_ s)) s).

(** [page_table_.emplace(p, i)] keeps an existing entry. *)
Definition emplace (p : Z) (i : nat) (t : gmap Z nat) : gmap Z nat :=
  match t !! p with Some _ => t | None => <[p := i]> t end.

(** [lru_.erase(it)] for the iterator to the node that holds [i]. *)
Fixpoint list_erase (i : nat) (l : list nat) : list nat :=
  match l with
  | [] => []
  | x :: l => if decide (x = i) then l else x :: list_erase i l
  end.

(** ** Operations *)

(** The constructor, for a non-null disk manager. *)
Definition BufferPoolManager_new (pool_size : nat) (disk_manager : option DiskManager)
    : outcome BufferPoolManager :=
  match disk_manager with
  | None => Throw (invalid_argument "disk manager must not be null")
  | Some d =>
      Ret (mkPool d (replicate pool_size Frame_new) ∅
             (rev (seq 0 pool_size)) [] (replicate pool_size None))
  end.

Definition AddToLru (frame_index : nat) : M BufferPoolManager unit :=
  positions ← gets lru_positions_;
  pos ← at_ positions frame_index;
  match pos with
  | Some _ => mret tt
  | None => modify (λ s, set_lru (frame_index :: lru_ s)
                           (<[frame_index := Some frame_index]> (lru_positions_ s)) s)
  end.

Definition RemoveFromLru (frame_index : nat) : M BufferPoolManager unit :=
  positions ← gets lru_positions_;
  pos ← at_ positions frame_index;
  match pos with
  | None => mret tt
  | Some node =>
      l ← gets lru_;
      if decide (node ∈ l) then
        modify (λ s, set_lru (list_erase node (lru_ s))
                       (<[frame_index := None]> (lru_positions_ s)) s)
      else undef
  end.

Definition ResetFrame (frame_index : nat) : M BufferPoolManager unit :=
  update_frame frame_index (λ f, mkFrame (SetPageId INVALID_PAGE_ID (ResetMemory (page f))) 0 false).

Definition AcquireFrame : M BufferPoolManager nat :=
  free ← gets free_frames_;
  match last free with
  | Some frame_index =>
      modify (λ s, set_free (take (length (free_frames_ s) - 1) (free_frames_ s)) s) ;;
      mret frame_index
  | None =>
      l ← gets lru_;
      match last l with
      | None => gets (λ s, length (frames_ s))
      | Some frame_index =>
          RemoveFromLru frame_index ;;
          frame ← frame_at frame_index;
          let old_page_id := page_id_ (page frame) in
          when (is_dirty frame)
            (on_disk (WritePage old_page_id (Some (page_data (page frame))))) ;;
          modify (λ s, set_table (delete old_page_id (page_table_ s)) s) ;;
          ResetFrame frame_index ;;
          mret frame_index
      end
  end.

Definition FetchPage (page_id : Z) : M BufferPoolManager (option nat) :=
  if page_id =? INVALID_PAGE_ID then mret None else
  table ← gets page_table_;
  match table !! page_id with
  | Some frame_index =>
      frame ← frame_at frame_index;
      when (bool_decide (pin_count frame = O)) (RemoveFromLru frame_index) ;;
      update_frame frame_index (λ f, mkFrame (page f) (S (pin_count f)) (is_dirty f)) ;;
      mret (Some frame_index)
  | None =>
      frame_index ← AcquireFrame;
      size ← gets (λ s, length (frames_ s));
      if decide (frame_index = size) then mret None else
      frame ← frame_at frame_index;
      data ← on_disk (ReadPage page_id (Some (page_data (page frame))));
      update_frame frame_index (λ f, mkFrame (mkPage data page_id) 1 false) ;;
      modify (λ s, set_table (emplace page_id frame_index (page_table_ s)) s) ;;
      mret (Some frame_index)
  end.

(** The page id written to [out_page_id] is returned with the page; a null
    [out_page_id] is [out_page_id = false]. *)
Definition NewPage (out_page_id : bool) : M BufferPoolManager (option (nat * Z)) :=
  if negb out_page_id then mret None else
  frame_index ← AcquireFrame;
  size ← gets (λ s, length (frames_ s));
  if decide (frame_index = size) then mret None else
  page_id ← on_disk AllocatePage;
  update_frame frame_index (λ f, mkFrame (SetPageId page_id (ResetMemory (page f))) 1 false) ;;
  modify (λ s, set_table (emplace page_id frame_index (page_table_ s)) s) ;;
  mret (Some (frame_index, page_id)).

Definition UnpinPage (page_id : Z) (dirty : bool) : M BufferPoolManager bool :=
  table ← gets page_table_;
  match table !! page_id with
  | None => mret false
  | Some frame_index =>
      frame ← frame_at frame_index;
      match pin_count frame with
      | O => mret false
      | S n =>
          update_frame frame_index (λ f, mkFrame (page f) n (is_dirty f || dirty)) ;;
          when (bool_decide (n = O)) (AddToLru frame_index) ;;
          mret true
      end
  end.

(** The body shared by [FlushPage] and the loop of [FlushAllPages]. *)
Definition FlushFrame (page_id : Z) (frame_index : nat) : M BufferPoolManager unit :=
  frame ← frame_at frame_index;
  when (is_dirty frame) (
    on_disk (WritePage page_id (Some (page_data (page frame)))) ;;
    update_frame frame_index (λ f, mkFrame (page f) (pin_count f) false)).

Definition FlushPage (page_id : Z) : M BufferPoolManager bool :=
  table ← gets page_table_;
  match table !! page_id with
  | None => mret false
  | Some frame_index => FlushFrame page_id frame_index ;; mret true
  end.

(** The entries of the page table in the order in which the hash table yields
    them, which is not specified: [iteration] is any function that lists them. *)
Definition FlushEntries (order : list (Z * nat)) : M BufferPoolManager unit :=
  for_each order (λ e, FlushFrame e.1 e.2).

Definition FlushAllPages (iteration : gmap Z nat → list (Z * nat)) : M BufferPoolManager unit :=
  table ← gets page_table_;
  FlushEntries (iteration table).

Definition DeletePage (page_id : Z) : M BufferPoolManager bool :=
  table ← gets page_table_;
  match table !! page_id with
  | Some frame_index =>
      frame ← frame_at frame_index;
      if bool_decide (pin_count frame ≠ O) then mret false else
      RemoveFromLru frame_index ;;
      ResetFrame frame_index ;;
      modify (λ s, set_free (free_frames_ s ++ [frame_index]) s) ;;
      modify (λ s, set_table (delete page_id (page_table_ s)) s) ;;
      on_disk (DeallocatePage page_id) ;;
      mret true
  | None => on_disk (DeallocatePage page_id) ;; mret true
  end.

(** [page->GetData()] through the pointer, read and written by the client. *)
Definition GetData (frame_index : nat) : M BufferPoolManager bytes :=
  f ← frame_at frame_index; mret (page_data (page f)).
Definition SetData (frame_index : nat) (data : bytes) : M BufferPoolManager unit :=
  update_frame frame_index (λ f, mkFrame (mkPage data (page_id_ (page f))) (pin_count f) (is_dirty f)).

(** The client idiom: fetch a page, run [body] on its bytes through the
    pointer, unpin it.  [body] may throw, and then the pin stays. *)
Definition run_body {A} (frame_index : nat) (body : M bytes A) : M BufferPoolManager A :=
  data ← GetData frame_index;
  let '(o, data') := body data in
  SetData frame_index data' ;;
  lift o.

Definition with_fetched {A} (page_id : Z) (dirty : bool) (body : M bytes A)
    : M BufferPoolManager (option A) :=
  p ← FetchPage page_id;
  match p with
  | None => mret None
  | Some frame_index =>
      a ← run_body frame_index body;
      UnpinPage page_id dirty ;;
      mret (Some a)
  end.

Definition with_new {A} (body : Z → M bytes A) : M BufferPoolManager (option (Z * A)) :=
  p ← NewPage true;
  match p with
  | None => mret None
  | Some (frame_index, page_id) =>
      a ← run_body frame_index (body page_id);
      UnpinPage page_id true ;;
      mret (Some (page_id, a))
  end.
