(* ===== verification/PoolInvariant.v ===== *)
(** * The invariant of the buffer pool and the pages it stores

    [pool_inv hand s]: the page table, the free stack, the LRU list and its
    iterators partition the frames, except for the frame [hand] an operation
    is holding between taking it and installing a page in it.  [content s p]
    is the data a client sees for page [p] wherever it lives, [pins s p] its
    pin count.  The lemmas give, for each step the operations are made of, the
    invariant and what happens to the contents and the pins. *)

From S2P Require Export BufferPoolManager.

Local Open Scope Z_scope.

#[local] Opaque disk_page written.

(** ** The view of a pool *)

Definition frame_of (s : BufferPoolManager) (p : Z) : option Frame :=
  match page_table_ s !! p with
  | Some i => frames_ s !! i
  | None => None
  end.

Definition content (s : BufferPoolManager) (p : Z) : bytes :=
  match frame_of s p with
  | Some f => page_data (page f)
  | None => disk_page (disk_manager_ s) p
  end.

Definition pins (s : BufferPoolManager) (p : Z) : nat :=
  match frame_of s p with Some f => pin_count f | None => O end.

(** A clean frame holds what the disk holds. *)
Definition coherent (s : BufferPoolManager) (p : Z) : Prop :=
  ∀ f, frame_of s p = Some f → is_dirty f = false →
    page_data (page f) = disk_page (disk_manager_ s) p.

(** The iterators that go with the list [l]. *)
Definition positions_of (n : nat) (l : list nat) : list (option nat) :=
  (λ i, if decide (i ∈ l) then Some i else None) <$> seq 0 n.

Definition with_lru (l : list nat) (s : BufferPoolManager) : BufferPoolManager :=
  set_lru l (positions_of (length (frames_ s)) l) s.

Record pool_inv (hand : option nat) (s : BufferPoolManager) : Prop := {
  inv_disk : healthy (disk_manager_ s);
  inv_alloc : alloc_inv (disk_manager_ s);
  inv_data : ∀ i f, frames_ s !! i = Some f → length (page_data (page f)) = PAGE_SIZE;
  inv_table : ∀ p i, page_table_ s !! p = Some i →
    allocated (disk_manager_ s) p ∧ ∃ f, frames_ s !! i = Some f ∧ page_id_ (page f) = p;
  inv_free_nodup : NoDup (free_frames_ s);
  inv_free : ∀ i, i ∈ free_frames_ s →
    (i < length (frames_ s))%nat ∧ ∀ p, page_table_ s !! p ≠ Some i;
  inv_hand : ∀ i, hand = Some i →
    (i < length (frames_ s))%nat ∧ i ∉ free_frames_ s ∧ ∀ p, page_table_ s !! p ≠ Some i;
  inv_cover : ∀ i, (i < length (frames_ s))%nat →
    i ∈ free_frames_ s ∨ hand = Some i ∨ ∃ p, page_table_ s !! p = Some i;
  inv_lru_nodup : NoDup (lru_ s);
  inv_lru : ∀ i, i ∈ lru_ s ↔
    ∃ p f, page_table_ s !! p = Some i ∧ frames_ s !! i = Some f ∧ pin_count f = O;
  inv_pos : lru_positions_ s = positions_of (length (frames_ s)) (lru_ s);
  inv_clean : ∀ p, pins s p = O → coherent s p;
}.

(** ** The LRU list and its iterators *)

Lemma elem_of_list_erase i l x :
  NoDup l → x ∈ list_erase i l ↔ x ∈ l ∧ x ≠ i.
Proof.
  induction l as [|y l IH]; simpl; intros Hnd; [set_solver|].
  apply NoDup_cons in Hnd as [Hy Hnd]. case_decide as Heq.
  - subst. rewrite elem_of_cons. split; [|naive_solver].
    intros Hx. split; [by right|]. by intros ->.
  - rewrite !elem_of_cons, IH by done. naive_solver.
Qed.

Lemma NoDup_list_erase i l : NoDup l → NoDup (list_erase i l).
Proof.
  induction l as [|y l IH]; simpl; intros Hnd; [done|].
  pose proof Hnd as Hnd'. apply NoDup_cons in Hnd as [Hy Hnd]. case_decide; [done|].
  apply NoDup_cons. split; [|by apply IH].
  rewrite elem_of_list_erase by done. tauto.
Qed.

Lemma list_erase_not_in i l : i ∉ l → list_erase i l = l.
Proof.
  induction l as [|y l IH]; simpl; intros Hi; [done|].
  apply not_elem_of_cons in Hi as [Hne Hi]. rewrite decide_False by congruence.
  by rewrite IH.
Qed.

Lemma positions_lookup n l i :
  (i < n)%nat → positions_of n l !! i = Some (if decide (i ∈ l) then Some i else None).
Proof.
  intros Hi. unfold positions_of. rewrite list_lookup_fmap, lookup_seq_lt by done. done.
Qed.

Lemma positions_insert n l l' i v :
  (i < n)%nat → (∀ j, j ≠ i → j ∈ l' ↔ j ∈ l) →
  v = (if decide (i ∈ l') then Some i else None) →
  <[i := v]> (positions_of n l) = positions_of n l'.
Proof.
  intros Hi Hiff ->. apply list_eq. intros j.
  assert (length (positions_of n l) = n) as Hl.
  { unfold positions_of. by rewrite length_fmap, length_seq. }
  destruct (decide (j < n)%nat) as [Hj|Hj].
  - rewrite (positions_lookup n l') by done.
    destruct (decide (i = j)) as [->|Hne].
    + by rewrite list_lookup_insert_eq by lia.
    + rewrite list_lookup_insert_ne, positions_lookup by done.
      f_equal. apply decide_ext. symmetry. by apply Hiff.
  - rewrite !lookup_ge_None_2; [done|..]; unfold positions_of;
      rewrite ?length_insert, length_fmap, length_seq; lia.
Qed.

Lemma RemoveFromLru_spec s i :
  NoDup (lru_ s) → lru_positions_ s = positions_of (length (frames_ s)) (lru_ s) →
  (i < length (frames_ s))%nat →
  RemoveFromLru i s = (Ret tt, with_lru (list_erase i (lru_ s)) s).
Proof.
  intros Hnd Hpos Hi. unfold RemoveFromLru.
  unfold mbind, M_bind, gets, at_. rewrite Hpos, positions_lookup by done.
  unfold mret, M_ret. case_decide as Hin.
  - rewrite decide_True by done. unfold modify, with_lru. do 2 f_equal. rewrite Hpos.
    apply positions_insert; [done| |].
    + intros j Hj. rewrite elem_of_list_erase by done. tauto.
    + rewrite decide_False; [done|]. rewrite elem_of_list_erase by done. tauto.
  - rewrite list_erase_not_in by done. unfold with_lru. rewrite <- Hpos. by destruct s.
Qed.

Lemma AddToLru_spec s i :
  lru_positions_ s = positions_of (length (frames_ s)) (lru_ s) →
  (i < length (frames_ s))%nat → i ∉ lru_ s →
  AddToLru i s = (Ret tt, with_lru (i :: lru_ s) s).
Proof.
  intros Hpos Hi Hin. unfold AddToLru.
  unfold mbind, M_bind, gets, at_. rewrite Hpos, positions_lookup by done.
  unfold mret, M_ret. rewrite decide_False by done.
  unfold modify, with_lru. do 2 f_equal. rewrite Hpos.
  apply positions_insert; [done| |].
  - intros j Hj. rewrite elem_of_cons. naive_solver.
  - rewrite decide_True; [done|]. by left.
Qed.

(** ** Running the accessors *)

Lemma frame_at_run s i f : frames_ s !! i = Some f → frame_at i s = (Ret f, s).
Proof. intros H. unfold frame_at, mbind, M_bind, gets, at_. by rewrite H. Qed.

Lemma update_frame_run s i f g :
  frames_ s !! i = Some f →
  update_frame i g s = (Ret tt, set_frames (<[i := g f]> (frames_ s)) s).
Proof. intros H. unfold update_frame. by erewrite bind_ret by by apply frame_at_run. Qed.

Lemma on_disk_run {A} (m : M DiskManager A) s a d :
  m (disk_manager_ s) = (Ret a, d) → on_disk m s = (Ret a, set_disk d s).
Proof. intros H. unfold on_disk, zoom. by rewrite H. Qed.

(** ** Consequences of the invariant *)

Section facts.
Context {hand : option nat} {s : BufferPoolManager} (Hinv : pool_inv hand s).

Lemma table_inj p q i :
  page_table_ s !! p = Some i → page_table_ s !! q = Some i → p = q.
Proof.
  intros Hp Hq.
  destruct (inv_table _ _ Hinv _ _ Hp) as (_ & f & Hf & <-).
  destruct (inv_table _ _ Hinv _ _ Hq) as (_ & f' & Hf' & <-). congruence.
Qed.

Lemma frame_of_table p i :
  page_table_ s !! p = Some i →
  ∃ f, frames_ s !! i = Some f ∧ frame_of s p = Some f ∧ page_id_ (page f) = p.
Proof.
  intros Hp. destruct (inv_table _ _ Hinv _ _ Hp) as (_ & f & Hf & Hid).
  exists f. unfold frame_of. by rewrite Hp.
Qed.

Lemma length_content p : length (content s p) = PAGE_SIZE.
Proof.
  unfold content, frame_of. destruct (page_table_ s !! p) as [i|]; [|apply length_disk_page].
  destruct (frames_ s !! i) as [f|] eqn:E; [|apply length_disk_page].
  by eapply inv_data.
Qed.

Lemma resident_lt p i : page_table_ s !! p = Some i → (i < length (frames_ s))%nat.
Proof.
  intros Hp. destruct (inv_table _ _ Hinv _ _ Hp) as (_ & f & Hf & _).
  by eapply lookup_lt_Some.
Qed.

Lemma resident_nonneg p i : page_table_ s !! p = Some i → 0 ≤ p.
Proof. intros Hp. destruct (inv_table _ _ Hinv _ _ Hp) as [[? _] _]. lia. Qed.

Lemma lru_iff p i f :
  page_table_ s !! p = Some i → frames_ s !! i = Some f → i ∈ lru_ s ↔ pin_count f = O.
Proof.
  intros Hp Hf. rewrite (inv_lru _ _ Hinv). split.
  - intros (p' & f' & _ & Hf' & Hpin). congruence.
  - intros Hpin. by exists p, f.
Qed.

Lemma frame_of_update p i g q :
  page_table_ s !! p = Some i →
  frame_of (set_frames (<[i := g]> (frames_ s)) s) q =
  if decide (q = p) then Some g else frame_of s q.
Proof.
  intros Hp. pose proof (resident_lt _ _ Hp). unfold frame_of; simpl.
  case_decide as Heq.
  - subst. rewrite Hp. by apply list_lookup_insert_eq.
  - destruct (page_table_ s !! q) as [j|] eqn:Hq; [|done].
    apply list_lookup_insert_ne. intros ->. by apply Heq, (table_inj q p j).
Qed.
End facts.

(** A state with the same table and frames shows the same frames. *)
Lemma frame_of_ext s s' p :
  page_table_ s' = page_table_ s → frames_ s' = frames_ s → frame_of s' p = frame_of s p.
Proof. intros Ht Hf. unfold frame_of. by rewrite Ht, Hf. Qed.

Lemma frame_of_with_lru l s p : frame_of (with_lru l s) p = frame_of s p.
Proof. by apply frame_of_ext. Qed.

(** ** The steps operations are made of *)

(** Replacing the frame of a resident page, with the LRU list that goes with
    its new pin count. *)
Definition replace_frame (i : nat) (g : Frame) (l : list nat) (s : BufferPoolManager)
    : BufferPoolManager :=
  with_lru l (set_frames (<[i := g]> (frames_ s)) s).

Lemma frame_of_replace hand s p i g l q :
  pool_inv hand s → page_table_ s !! p = Some i →
  frame_of (replace_frame i g l s) q = if decide (q = p) then Some g else frame_of s q.
Proof.
  intros Hinv Hp. unfold replace_frame. rewrite frame_of_with_lru. by eapply frame_of_update.
Qed.

Lemma inv_replace_frame hand s p i f g l :
  pool_inv hand s → page_table_ s !! p = Some i → frames_ s !! i = Some f →
  page_id_ (page g) = p → length (page_data (page g)) = PAGE_SIZE →
  NoDup l → (∀ j, j ≠ i → j ∈ l ↔ j ∈ lru_ s) → (i ∈ l ↔ pin_count g = O) →
  (pin_count g = O → is_dirty g = false → page_data (page g) = disk_page (disk_manager_ s) p) →
  pool_inv hand (replace_frame i g l s).
Proof.
  intros Hinv Hp Hf Hid Hlen Hnd Hother Hi Hclean.
  pose proof (resident_lt Hinv _ _ Hp) as Hlt.
  pose proof (frame_of_replace hand s p i g l) as Hview.
  pose proof (table_inj Hinv) as Hinj.
  destruct Hinv as [H1 H2 H3 H4 H5 H6 H7 H8 H9 H10 H11 H12] eqn:E; clear E.
  split; simpl; rewrite ?length_insert; try done.
  - intros j h. destruct (decide (i = j)) as [->|Hne].
    + rewrite list_lookup_insert_eq by done. by intros [= <-].
    + rewrite list_lookup_insert_ne by done. apply H3.
  - intros q j Hq. destruct (H4 _ _ Hq) as (Ha & h & Hh & Hqid). split; [done|].
    destruct (decide (i = j)) as [->|Hne].
    + exists g. rewrite list_lookup_insert_eq by done. split; [done|].
      rewrite Hid. by eapply Hinj.
    + exists h. by rewrite list_lookup_insert_ne.
  - intros j. destruct (decide (j = i)) as [->|Hne].
    + rewrite Hi. split.
      * intros Hpin. exists p, g. by rewrite list_lookup_insert_eq.
      * intros (q & h & _ & Hh & Hpin). rewrite list_lookup_insert_eq in Hh by done. congruence.
    + rewrite Hother, H10 by done. setoid_rewrite list_lookup_insert_ne; [done|done].
  - intros q. unfold pins, coherent. rewrite Hview by done. simpl.
    case_decide as Heq; [subst q; intros Hpin h [= <-]; auto|]. apply H12.
Qed.

(** Changing the allocation state of the disk, not the file. *)
Lemma inv_set_disk_alloc hand s d :
  pool_inv hand s → file_ d = file_ (disk_manager_ s) → alloc_inv d →
  (∀ p i, page_table_ s !! p = Some i → allocated d p) →
  pool_inv hand (set_disk d s).
Proof.
  intros Hinv Hf Ha Hal. destruct Hinv as [H1 H2 H3 H4 H5 H6 H7 H8 H9 H10 H11 H12].
  split; simpl; [|exact Ha|exact H3| |exact H5|exact H6|exact H7|exact H8|exact H9|exact H10|exact H11|].
  - unfold healthy in *. by rewrite Hf.
  - intros p i Hp. destruct (H4 _ _ Hp) as [_ ?]. eauto.
  - intros p Hp f Hfr Hd. simpl. rewrite (disk_page_ext _ _ _ Hf).
    by apply (H12 p Hp f).
Qed.

(** Writing the data of a resident page to its place on disk. *)
Lemma inv_write_back hand s p i f :
  pool_inv hand s → page_table_ s !! p = Some i → frames_ s !! i = Some f →
  pool_inv hand (set_disk (written p (page_data (page f)) (disk_manager_ s)) s) ∧
  (∀ q, coherent s q → coherent (set_disk (written p (page_data (page f)) (disk_manager_ s)) s) q) ∧
  disk_page (written p (page_data (page f)) (disk_manager_ s)) p = page_data (page f) ∧
  (∀ q, 0 ≤ q → q ≠ p → disk_page (written p (page_data (page f)) (disk_manager_ s)) q =
                 disk_page (disk_manager_ s) q).
Proof.
  intros Hinv Hp Hf. set (d := written p (page_data (page f)) (disk_manager_ s)).
  pose proof (inv_data _ _ Hinv _ _ Hf) as Hlen.
  pose proof (resident_nonneg Hinv _ _ Hp) as Hp0.
  assert (disk_page d p = page_data (page f)) as Hsame by by apply disk_page_written_eq.
  assert (∀ q, 0 ≤ q → q ≠ p → disk_page d q = disk_page (disk_manager_ s) q) as Hother.
  { intros q Hq Hne. apply disk_page_written_ne; done. }
  assert (∀ q, coherent s q → coherent (set_disk d s) q) as Hcoh.
  { intros q Hq g Hg Hd. simpl. destruct (decide (q = p)) as [->|Hne].
    - rewrite Hsame. change (frame_of s p = Some g) in Hg. unfold frame_of in Hg.
      rewrite Hp, Hf in Hg. by simplify_eq.
    - rewrite Hother; [by apply Hq| |done]. change (frame_of s q = Some g) in Hg.
      unfold frame_of in Hg. destruct (page_table_ s !! q) as [j|] eqn:Hj; [|done].
      by apply (resident_nonneg Hinv q j). }
  split_and!; [|exact Hcoh|exact Hsame|exact Hother].
  destruct Hinv as [H1 H2 H3 H4 H5 H6 H7 H8 H9 H10 H11 H12].
  split; simpl; [exact H1|exact H2|exact H3|exact H4|exact H5|exact H6|exact H7|exact H8|exact H9|exact H10|exact H11|].
  intros q Hq. by apply Hcoh, H12.
Qed.

(** Taking the frame of an unpinned page away from it. *)
Definition evicted (p : Z) (i : nat) (g : Frame) (s : BufferPoolManager) : BufferPoolManager :=
  set_frames (<[i := g]> (frames_ s))
    (set_table (delete p (page_table_ s)) (with_lru (list_erase i (lru_ s)) s)).

Lemma frame_of_evicted hand s p i g q :
  pool_inv hand s → page_table_ s !! p = Some i →
  frame_of (evicted p i g s) q = if decide (q = p) then None else frame_of s q.
Proof.
  intros Hinv Hp. unfold frame_of; simpl. case_decide as Heq.
  - subst. by rewrite lookup_delete_eq.
  - rewrite lookup_delete_ne by done.
    destruct (page_table_ s !! q) as [j|] eqn:Hq; [|done].
    apply list_lookup_insert_ne. intros ->. by apply Heq, (table_inj Hinv q p j).
Qed.

Lemma inv_evicted s p i f :
  pool_inv None s → page_table_ s !! p = Some i → frames_ s !! i = Some f →
  pool_inv (Some i) (evicted p i (mkFrame (SetPageId INVALID_PAGE_ID (ResetMemory (page f))) 0 false) s).
Proof.
  intros Hinv Hp Hf. pose proof (resident_lt Hinv _ _ Hp) as Hlt.
  pose proof (table_inj Hinv) as Hinj.
  pose proof (λ g q, frame_of_evicted None s p i g q Hinv Hp) as Hview.
  assert (i ∉ free_frames_ s) as Hnf by (intros H; apply (inv_free _ _ Hinv) in H as [_ H]; by apply (H p)).
  destruct Hinv as [H1 H2 H3 H4 H5 H6 H7 H8 H9 H10 H11 H12].
  split; simpl; rewrite ?length_insert; try done.
  - intros j g. destruct (decide (i = j)) as [->|Hne].
    + rewrite list_lookup_insert_eq by done. intros [= <-]. apply length_zero_page.
    + rewrite list_lookup_insert_ne by done. apply H3.
  - intros q j Hq. apply lookup_delete_Some in Hq as [Hne Hq].
    destruct (H4 _ _ Hq) as (Ha & h & Hh & Hid). split; [done|]. exists h.
    rewrite list_lookup_insert_ne; [done|]. intros ->. by apply Hne, (Hinj p q j).
  - intros j Hj. destruct (H6 j Hj) as [? Hno]. split; [done|].
    intros q Hq. apply lookup_delete_Some in Hq as [_ Hq]. by apply (Hno q).
  - intros j [= <-]. split_and!; [done..|]. intros q Hq.
    apply lookup_delete_Some in Hq as [Hne Hq]. by apply Hne, (Hinj p q i).
  - intros j Hj. destruct (decide (j = i)) as [->|Hne]; [by right; left|].
    destruct (H8 j Hj) as [?|[?|[q Hq]]]; [by left|done|].
    right; right. exists q. rewrite lookup_delete_ne; [done|]. intros ->. congruence.
  - by apply NoDup_list_erase.
  - intros j. rewrite elem_of_list_erase, H10 by done. split.
    + intros [(q & h & Hq & Hh & Hpin) Hne]. exists q, h.
      rewrite lookup_delete_ne by congruence. by rewrite list_lookup_insert_ne.
    + intros (q & h & Hq & Hh & Hpin). apply lookup_delete_Some in Hq as [Hne Hq].
      assert (j ≠ i) by (intros ->; by apply Hne, (Hinj p q i)).
      rewrite list_lookup_insert_ne in Hh by done. eauto 10.
  - intros q. unfold pins, coherent. rewrite Hview. simpl.
    case_decide; [done|]. apply H12.
Qed.

(** Installing a page in the frame at hand. *)
Definition installed (p : Z) (i : nat) (data : bytes) (s : BufferPoolManager) : BufferPoolManager :=
  set_table (<[p := i]> (page_table_ s))
    (set_frames (<[i := mkFrame (mkPage data p) 1 false]> (frames_ s)) s).

Lemma frame_of_installed s p i data q :
  pool_inv (Some i) s →
  frame_of (installed p i data s) q =
  if decide (q = p) then Some (mkFrame (mkPage data p) 1 false) else frame_of s q.
Proof.
  intros Hinv. destruct (inv_hand _ _ Hinv i eq_refl) as (Hlt & _ & Hno).
  unfold frame_of; simpl. case_decide as Heq.
  - subst. rewrite lookup_insert_eq. by apply list_lookup_insert_eq.
  - rewrite lookup_insert_ne by done.
    destruct (page_table_ s !! q) as [j|] eqn:Hq; [|done].
    apply list_lookup_insert_ne. intros ->. by apply (Hno q).
Qed.

Lemma inv_installed s p i data :
  pool_inv (Some i) s → page_table_ s !! p = None → allocated (disk_manager_ s) p →
  length data = PAGE_SIZE → pool_inv None (installed p i data s).
Proof.
  intros Hinv Hnone Hal Hlen.
  destruct (inv_hand _ _ Hinv i eq_refl) as (Hlt & Hnf & Hno).
  pose proof (λ q, frame_of_installed s p i data q Hinv) as Hview.
  destruct Hinv as [H1 H2 H3 H4 H5 H6 H7 H8 H9 H10 H11 H12].
  split; simpl; rewrite ?length_insert; try done.
  - intros j g. destruct (decide (i = j)) as [->|Hne].
    + rewrite list_lookup_insert_eq by done. by intros [= <-].
    + rewrite list_lookup_insert_ne by done. apply H3.
  - intros q j Hq. apply lookup_insert_Some in Hq as [[-> ->]|[Hne Hq]].
    + split; [done|]. eexists. by rewrite list_lookup_insert_eq.
    + destruct (H4 _ _ Hq) as (Ha & h & Hh & Hid). split; [done|]. exists h.
      rewrite list_lookup_insert_ne; [done|]. intros ->. by apply (Hno q).
  - intros j Hj. destruct (H6 j Hj) as [? Hno']. split; [done|].
    intros q Hq. apply lookup_insert_Some in Hq as [[-> ->]|[Hne Hq]]; [done|].
    by apply (Hno' q).
  - intros j Hj. destruct (H8 j Hj) as [?|[[= ->]|[q Hq]]]; [by left|..]; right; right.
    + exists p. apply lookup_insert_eq.
    + exists q. rewrite lookup_insert_ne; [done|]. congruence.
  - intros j. rewrite H10. split.
    + intros (q & h & Hq & Hh & Hpin). exists q, h.
      rewrite lookup_insert_ne by congruence. rewrite list_lookup_insert_ne; [done|].
      intros ->. by apply (Hno q).
    + intros (q & h & Hq & Hh & Hpin). apply lookup_insert_Some in Hq as [[-> ->]|[Hne Hq]].
      * rewrite list_lookup_insert_eq in Hh by done. by simplify_eq/=.
      * rewrite list_lookup_insert_ne in Hh; [eauto 10|]. intros ->. by apply (Hno q).
  - intros q. unfold pins, coherent. rewrite Hview. case_decide; [done|]. apply H12.
Qed.

(** Putting the frame at hand on the free stack, and taking the top of it. *)
Lemma inv_push_free s i :
  pool_inv (Some i) s → pool_inv None (set_free (free_frames_ s ++ [i]) s).
Proof.
  intros Hinv. destruct (inv_hand _ _ Hinv i eq_refl) as (Hlt & Hnf & Hno).
  destruct Hinv as [H1 H2 H3 H4 H5 H6 H7 H8 H9 H10 H11 H12]. split; simpl; try done.
  - apply NoDup_app. split_and!; [done| |apply NoDup_singleton].
    intros x Hx ->%list_elem_of_singleton. done.
  - intros j [Hj| ->%list_elem_of_singleton]%elem_of_app; [by apply H6|done].
  - intros j Hj. rewrite elem_of_app, list_elem_of_singleton.
    destruct (H8 j Hj) as [?|[[= ->]|?]]; tauto.
Qed.

Lemma inv_pop_free s i l :
  pool_inv None s → free_frames_ s = l ++ [i] → pool_inv (Some i) (set_free l s).
Proof.
  intros Hinv Hl. destruct Hinv as [H1 H2 H3 H4 H5 H6 H7 H8 H9 H10 H11 H12].
  rewrite Hl in *. apply NoDup_app in H5 as (H5 & Hdis & _). split; simpl; try done.
  - intros j Hj. apply H6, elem_of_app. by left.
  - intros j [= <-]. destruct (H6 i) as [? ?]; [apply elem_of_app; right; by left|].
    split_and!; try done. intros Hi. apply (Hdis _ Hi). by left.
  - intros j Hj. destruct (H8 j Hj) as [Hin|[?|?]]; [|done|by right; right].
    apply elem_of_app in Hin as [?| ->%list_elem_of_singleton]; [by left|by right; left].
Qed.

(** ** What an operation leaves unchanged *)

(** The contents and pins clients see, and the ids that are allocated. *)
Record same_view (s s' : BufferPoolManager) : Prop := {
  sv_content : ∀ q, 0 ≤ q → content s' q = content s q;
  sv_pins : ∀ q, pins s' q = pins s q;
  sv_coherent : ∀ q, coherent s q → coherent s' q;
  sv_free_list : free_list_ (disk_manager_ s') = free_list_ (disk_manager_ s);
  sv_next : next_page_id_ (disk_manager_ s') = next_page_id_ (disk_manager_ s);
  sv_length : length (frames_ s') = length (frames_ s);
  sv_absent : ∀ q, page_table_ s !! q = None → page_table_ s' !! q = None;
}.

Lemma same_view_refl s : same_view s s.
Proof. by split. Qed.

Lemma same_view_allocated s s' q :
  same_view s s' → allocated (disk_manager_ s') q ↔ allocated (disk_manager_ s) q.
Proof. intros Hv. unfold allocated. by rewrite (sv_free_list _ _ Hv), (sv_next _ _ Hv). Qed.

Lemma content_frame s p f : frame_of s p = Some f → content s p = page_data (page f).
Proof. intros H. unfold content. by rewrite H. Qed.

Lemma content_disk s p : frame_of s p = None → content s p = disk_page (disk_manager_ s) p.
Proof. intros H. unfold content. by rewrite H. Qed.

Lemma pins_frame s p f : frame_of s p = Some f → pins s p = pin_count f.
Proof. intros H. unfold pins. by rewrite H. Qed.

(** Evicting page [p] once the disk holds its data. *)
Lemma same_view_evicted s d p i f g :
  pool_inv None s → pool_inv None (set_disk d s) →
  page_table_ s !! p = Some i → frames_ s !! i = Some f → pin_count f = O →
  disk_page d p = page_data (page f) →
  (∀ q, 0 ≤ q → q ≠ p → disk_page d q = disk_page (disk_manager_ s) q) →
  (∀ q, coherent s q → coherent (set_disk d s) q) →
  free_list_ d = free_list_ (disk_manager_ s) →
  next_page_id_ d = next_page_id_ (disk_manager_ s) →
  same_view s (evicted p i g (set_disk d s)).
Proof.
  intros Hinv Hinv' Hp Hf Hpin Hsame Hother Hcoh Hfl Hnx.
  pose proof (λ q, frame_of_evicted None (set_disk d s) p i g q Hinv' Hp) as Hview.
  assert (frame_of s p = Some f) as Hfp by (unfold frame_of; by rewrite Hp).
  split; simpl; try done.
  - intros q Hq. unfold content. rewrite Hview. case_decide as Heq.
    + subst q. rewrite Hfp. done.
    + change (frame_of (set_disk d s) q) with (frame_of s q).
      destruct (frame_of s q); [done|]. simpl. by apply Hother.
  - intros q. unfold pins. rewrite Hview. case_decide as Heq; [|done].
    subst q. by rewrite Hfp.
  - intros q Hq h. rewrite Hview. case_decide as Heq; [done|]. by apply Hcoh.
  - by rewrite length_insert.
  - intros q Hq. by rewrite lookup_delete_None; right.
Qed.

Lemma AcquireFrame_spec s :
  pool_inv None s → free_frames_ s ≠ [] ∨ lru_ s ≠ [] →
  ∃ i s', AcquireFrame s = (Ret i, s') ∧ pool_inv (Some i) s' ∧ same_view s s'.
Proof.
  intros Hinv Hav. unfold AcquireFrame.
  destruct (last (free_frames_ s)) as [i|] eqn:Hl.
  { apply last_Some in Hl as [l Hl]. exists i, (set_free l s). split_and!.
    - unfold mbind, M_bind, gets, modify. rewrite Hl, last_snoc. cbv beta iota.
      rewrite Hl, length_app. cbn [length]. by rewrite Nat.add_sub, take_app_length.
    - by apply inv_pop_free.
    - by split. }
  apply last_None in Hl. destruct Hav as [|Hav]; [done|].
  destruct (last (lru_ s)) as [i|] eqn:Hi; [|by apply last_None in Hi].
  assert (i ∈ lru_ s) as Hin.
  { apply last_Some in Hi as [l ->]. apply elem_of_app. right. by left. }
  pose proof Hin as (p & f & Hp & Hf & Hpin)%(inv_lru _ _ Hinv).
  destruct (frame_of_table Hinv _ _ Hp) as (f' & Hf' & Hfp & Hid). simplify_eq.
  pose proof (resident_lt Hinv _ _ Hp) as Hlt.
  pose proof (resident_nonneg Hinv _ _ Hp) as Hp0.
  set (g := mkFrame (SetPageId INVALID_PAGE_ID (ResetMemory (page f))) 0 false).
  assert (∃ d, (when (is_dirty f) (on_disk (WritePage (page_id_ (page f)) (Some (page_data (page f))))))
       (with_lru (list_erase i (lru_ s)) s) =
       (Ret tt, set_disk d (with_lru (list_erase i (lru_ s)) s)) ∧
     pool_inv None (set_disk d s) ∧
     same_view s (evicted (page_id_ (page f)) i g (set_disk d s))) as (d & Hwhen & Hinv' & Hsv).
  { destruct (is_dirty f) eqn:Hd.
    - destruct (inv_write_back None s _ i f Hinv Hp Hf) as (H1 & H2 & H3 & H4).
      eexists. split; [|split; [exact H1|by eapply same_view_evicted]].
      unfold when. apply on_disk_run, WritePage_spec; [apply Hinv|done].
    - assert (disk_page (disk_manager_ s) (page_id_ (page f)) = page_data (page f)) as Hc.
      { symmetry. apply (inv_clean _ _ Hinv); [|done|done]. by rewrite (pins_frame s _ f). }
      assert (set_disk (disk_manager_ s) s = s) as Hs by by destruct s.
      exists (disk_manager_ s). split_and!; [done|by rewrite Hs|].
      apply (same_view_evicted s _ _ i f g); rewrite ?Hs; done. }
  exists i, (evicted (page_id_ (page f)) i g (set_disk d s)). split_and!; [|by apply inv_evicted|done].
  unfold mbind at 1, M_bind at 1, gets at 1. rewrite Hl. cbn [last].
  unfold mbind at 1, M_bind at 1, gets at 1. rewrite Hi.
  erewrite bind_ret by (apply RemoveFromLru_spec; [apply Hinv..|done]).
  erewrite bind_ret by (by apply frame_at_run). cbv zeta.
  erewrite bind_ret by exact Hwhen.
  unfold mbind at 1, M_bind at 1, modify at 1.
  erewrite bind_ret by (unfold ResetFrame; by apply update_frame_run).
  done.
Qed.

(** Under a pool with no pinned page a frame can always be had. *)
Lemma frame_available s :
  pool_inv None s → frames_ s ≠ [] → (∀ p, pins s p = O) →
  free_frames_ s ≠ [] ∨ lru_ s ≠ [].
Proof.
  intros Hinv Hne Hpins. destruct (frames_ s) as [|f0 fs] eqn:Hfr; [done|].
  destruct (inv_cover _ _ Hinv 0%nat) as [H|[H|[p Hp]]].
  - rewrite Hfr. simpl. lia.
  - left. intros E. rewrite E in H. by apply not_elem_of_nil in H.
  - done.
  - right. destruct (frame_of_table Hinv _ _ Hp) as (f & Hf & Hfp & _).
    assert (0%nat ∈ lru_ s) as Hin.
    { apply (lru_iff Hinv p 0%nat f); [done..|]. by rewrite <- (pins_frame s p f). }
    intros E. rewrite E in Hin. by apply not_elem_of_nil in Hin.
Qed.

(** ** What an operation does to one page *)

(** Page [p] ends with content [c] and [n] pins; nothing else changes. *)
Record effect (s s' : BufferPoolManager) (p : Z) (c : bytes) (n : nat) : Prop := {
  ef_content : ∀ q, 0 ≤ q → content s' q = if decide (q = p) then c else content s q;
  ef_pins : ∀ q, pins s' q = if decide (q = p) then n else pins s q;
  ef_coherent : ∀ q, q ≠ p → coherent s q → coherent s' q;
  ef_free_list : free_list_ (disk_manager_ s') = free_list_ (disk_manager_ s);
  ef_next : next_page_id_ (disk_manager_ s') = next_page_id_ (disk_manager_ s);
  ef_length : length (frames_ s') = length (frames_ s);
}.

Lemma effect_allocated s s' p c n q :
  effect s s' p c n → allocated (disk_manager_ s') q ↔ allocated (disk_manager_ s) q.
Proof. intros He. unfold allocated. by rewrite (ef_free_list _ _ _ _ _ He), (ef_next _ _ _ _ _ He). Qed.

Lemma effect_trans s s1 s2 p c1 n1 c2 n2 :
  effect s s1 p c1 n1 → effect s1 s2 p c2 n2 → effect s s2 p c2 n2.
Proof.
  intros [A1 A2 A3 A4 A5 A6] [B1 B2 B3 B4 B5 B6]. split; try congruence.
  - intros q Hq. rewrite B1, A1 by done. by case_decide.
  - intros q. rewrite B2, A2. by case_decide.
  - intros q Hne Hq. auto.
Qed.

Lemma same_view_effect s s1 s2 p c n :
  same_view s s1 → effect s1 s2 p c n → effect s s2 p c n.
Proof.
  intros [A1 A2 A3 A4 A5 A6 _] [B1 B2 B3 B4 B5 B6]. split; try congruence.
  - intros q Hq. rewrite B1 by done. case_decide; [done|by apply A1].
  - intros q. rewrite B2. case_decide; [done|by apply A2].
  - intros q Hne Hq. auto.
Qed.

(** Replacing the frame of a resident page. *)
Lemma effect_replace_frame hand s p i g l :
  pool_inv hand s → page_table_ s !! p = Some i →
  effect s (replace_frame i g l s) p (page_data (page g)) (pin_count g).
Proof.
  intros Hinv Hp. pose proof (λ q, frame_of_replace hand s p i g l q Hinv Hp) as Hview.
  split; simpl; try done.
  - intros q Hq. unfold content. rewrite Hview. by case_decide.
  - intros q. unfold pins. rewrite Hview. by case_decide.
  - intros q Hne Hq. unfold coherent. rewrite Hview, decide_False by done. apply Hq.
  - by rewrite length_insert.
Qed.

Lemma effect_installed s p i data :
  pool_inv (Some i) s → effect s (installed p i data s) p data 1.
Proof.
  intros Hinv. pose proof (λ q, frame_of_installed s p i data q Hinv) as Hview.
  split; simpl; try done.
  - intros q Hq. unfold content. rewrite Hview. by case_decide.
  - intros q. unfold pins. rewrite Hview. by case_decide.
  - intros q Hne Hq. unfold coherent. rewrite Hview, decide_False by done. apply Hq.
  - by rewrite length_insert.
Qed.

(** ** FetchPage *)

(** The outcome of a fetch that found or made a frame for the page. *)
Record fetched (s : BufferPoolManager) (p : Z) (i : nat) (s' : BufferPoolManager) : Prop := {
  fetched_run : FetchPage p s = (Ret (Some i), s');
  fetched_inv : pool_inv None s';
  fetched_table : page_table_ s' !! p = Some i;
  fetched_effect : effect s s' p (content s p) (S (pins s p));
  fetched_coherent : coherent s p → coherent s' p;
}.

Lemma FetchPage_resident s p i :
  pool_inv None s → page_table_ s !! p = Some i → ∃ s', fetched s p i s'.
Proof.
  intros Hinv Hp. destruct (frame_of_table Hinv _ _ Hp) as (f & Hf & Hfp & Hid).
  pose proof (resident_lt Hinv _ _ Hp) as Hlt.
  pose proof (resident_nonneg Hinv _ _ Hp) as Hp0.
  set (g := mkFrame (page f) (S (pin_count f)) (is_dirty f)).
  assert (pool_inv None (replace_frame i g (list_erase i (lru_ s)) s)) as Hinv'.
  { pose proof (inv_lru_nodup _ _ Hinv) as Hnd.
    apply (inv_replace_frame None s p i f); try done.
    - by apply (inv_data _ _ Hinv i f).
    - by apply NoDup_list_erase.
    - intros j Hj. rewrite elem_of_list_erase by done. tauto.
    - rewrite elem_of_list_erase by done. simpl. split; [tauto|done]. }
  pose proof (effect_replace_frame None s p i g (list_erase i (lru_ s)) Hinv Hp) as Heff.
  exists (replace_frame i g (list_erase i (lru_ s)) s). split; [|done..| |].
  - unfold FetchPage. unfold INVALID_PAGE_ID. rewrite (proj2 (Z.eqb_neq p (-1))) by lia.
    unfold mbind at 1, M_bind at 1, gets at 1. rewrite Hp.
    erewrite bind_ret by by apply frame_at_run.
    assert ((when (bool_decide (pin_count f = 0%nat)) (RemoveFromLru i)) s =
            (Ret tt, with_lru (list_erase i (lru_ s)) s)) as Hw.
    { case_bool_decide as Hpin; unfold when.
      - apply RemoveFromLru_spec; [apply Hinv..|done].
      - rewrite list_erase_not_in by by rewrite (lru_iff Hinv p i f).
        unfold with_lru. rewrite <- (inv_pos _ _ Hinv). by destruct s. }
    erewrite bind_ret by exact Hw. erewrite bind_ret by by apply update_frame_run.
    unfold mret, M_ret. do 2 f_equal. unfold replace_frame, with_lru, set_lru, set_frames; simpl.
    by rewrite length_insert.
  - rewrite (content_frame s p f), (pins_frame s p f) by done. exact Heff.
  - intros Hc h. rewrite (frame_of_replace None s p) by done.
    rewrite decide_True by done. intros [= <-]. exact (Hc f Hfp).
Qed.

Lemma FetchPage_absent s p :
  pool_inv None s → page_table_ s !! p = None → allocated (disk_manager_ s) p →
  free_frames_ s ≠ [] ∨ lru_ s ≠ [] → ∃ i s', fetched s p i s'.
Proof.
  intros Hinv Hp Hal Hav.
  destruct (AcquireFrame_spec s Hinv Hav) as (i & s1 & Hacq & Hinv1 & Hsv).
  destruct (inv_hand _ _ Hinv1 i eq_refl) as (Hlt & _ & _).
  destruct (lookup_lt_is_Some_2 _ _ Hlt) as [f Hf].
  pose proof (inv_disk _ _ Hinv1) as (Ht & Hr & _).
  assert (0 ≤ p) as Hp0 by (destruct Hal; lia).
  set (data := disk_page (disk_manager_ s1) p).
  assert (content s p = data) as Hdata.
  { rewrite <- (sv_content _ _ Hsv) by done. apply content_disk.
    unfold frame_of. by rewrite (sv_absent _ _ Hsv). }
  assert (pins s p = O) as Hpins by (unfold pins, frame_of; by rewrite Hp).
  exists i, (installed p i data s1). split.
  - unfold FetchPage, INVALID_PAGE_ID. rewrite (proj2 (Z.eqb_neq p (-1))) by lia.
    unfold mbind at 1, M_bind at 1, gets at 1. rewrite Hp.
    erewrite bind_ret by exact Hacq.
    unfold mbind at 1, M_bind at 1, gets at 1. rewrite decide_False by lia.
    erewrite bind_ret by by apply frame_at_run.
    erewrite bind_ret by by apply on_disk_run, ReadPage_spec.
    erewrite bind_ret by by apply update_frame_run.
    unfold mbind, M_bind, modify, mret, M_ret. do 2 f_equal.
    unfold installed, emplace, set_table, set_frames, set_disk; simpl.
    by rewrite (sv_absent _ _ Hsv).
  - apply inv_installed; [done|by apply (sv_absent _ _ Hsv)| |apply length_disk_page].
    by apply (same_view_allocated s s1).
  - simpl. apply lookup_insert_eq.
  - rewrite Hpins, Hdata. eapply same_view_effect; [done|by apply effect_installed].
  - intros _ h. rewrite frame_of_installed, decide_True by done. by intros [= <-] _.
Qed.

Lemma FetchPage_spec s p :
  pool_inv None s → allocated (disk_manager_ s) p →
  free_frames_ s ≠ [] ∨ lru_ s ≠ [] → ∃ i s', fetched s p i s'.
Proof.
  intros Hinv Hal Hav. destruct (page_table_ s !! p) as [i|] eqn:Hp.
  - exists i. by apply FetchPage_resident.
  - by apply FetchPage_absent.
Qed.

(** ** Access through the pointer, and UnpinPage *)

Lemma GetData_spec s p i :
  pool_inv None s → page_table_ s !! p = Some i → GetData i s = (Ret (content s p), s).
Proof.
  intros Hinv Hp. destruct (frame_of_table Hinv _ _ Hp) as (f & Hf & Hfp & _).
  unfold GetData. erewrite bind_ret by by apply frame_at_run.
  by rewrite (content_frame s p f).
Qed.

Lemma SetData_spec s p i data :
  pool_inv None s → page_table_ s !! p = Some i → pins s p ≠ O → length data = PAGE_SIZE →
  ∃ s', SetData i data s = (Ret tt, s') ∧ pool_inv None s' ∧ page_table_ s' !! p = Some i ∧
    effect s s' p data (pins s p) ∧ (data = content s p → coherent s p → coherent s' p).
Proof.
  intros Hinv Hp Hpins Hlen. destruct (frame_of_table Hinv _ _ Hp) as (f & Hf & Hfp & Hid).
  rewrite (pins_frame s p f) in Hpins by done.
  set (g := mkFrame (mkPage data (page_id_ (page f))) (pin_count f) (is_dirty f)).
  exists (replace_frame i g (lru_ s) s). split_and!.
  - unfold SetData. erewrite update_frame_run by done. do 2 f_equal.
    unfold replace_frame, with_lru, set_lru, set_frames; simpl.
    by rewrite length_insert, <- (inv_pos _ _ Hinv).
  - apply (inv_replace_frame None s p i f); try done; [apply Hinv|].
    rewrite (lru_iff Hinv p i f) by done. simpl. tauto.
  - done.
  - rewrite (pins_frame s p f) by done. by apply (effect_replace_frame None s p i g).
  - intros -> Hc h. rewrite (frame_of_replace None s p), decide_True by done.
    intros [= <-]. simpl. rewrite (content_frame s p f) by done. exact (Hc f Hfp).
Qed.

Lemma UnpinPage_spec s p i n dirty :
  pool_inv None s → page_table_ s !! p = Some i → pins s p = S n →
  (dirty = true ∨ coherent s p) →
  ∃ s', UnpinPage p dirty s = (Ret true, s') ∧ pool_inv None s' ∧
    effect s s' p (content s p) n.
Proof.
  intros Hinv Hp Hpins Hd. destruct (frame_of_table Hinv _ _ Hp) as (f & Hf & Hfp & Hid).
  pose proof (resident_lt Hinv _ _ Hp) as Hlt.
  rewrite (pins_frame s p f) in Hpins by done.
  set (g := mkFrame (page f) n (is_dirty f || dirty)).
  set (l := if decide (n = O) then i :: lru_ s else lru_ s).
  assert (i ∉ lru_ s) as Hni by (rewrite (lru_iff Hinv p i f) by done; lia).
  exists (replace_frame i g l s). split_and!.
  - unfold UnpinPage. unfold mbind at 1, M_bind at 1, gets at 1. rewrite Hp.
    erewrite bind_ret by by apply frame_at_run. rewrite Hpins.
    erewrite bind_ret by by apply update_frame_run.
    set (s1 := set_frames _ s).
    assert (when (bool_decide (n = O)) (AddToLru i) s1 = (Ret tt, replace_frame i g l s)) as Hw.
    2: { by erewrite bind_ret by exact Hw. }
    subst l. case_bool_decide as Hn; unfold when.
    + rewrite decide_True by done. rewrite AddToLru_spec; simpl; rewrite ?length_insert; try done.
      apply Hinv.
    + rewrite decide_False by done. unfold replace_frame, with_lru, set_lru, s1, set_frames; simpl.
      rewrite length_insert, <- (inv_pos _ _ Hinv). done.
  - apply (inv_replace_frame None s p i f); try done; subst l.
    + by apply (inv_data _ _ Hinv i f).
    + case_decide; [|apply Hinv]. apply NoDup_cons. split; [done|apply Hinv].
    + intros j Hj. case_decide; [|done]. rewrite elem_of_cons. tauto.
    + simpl. case_decide; [|tauto]. rewrite elem_of_cons. tauto.
    + simpl. intros _ [Hd1 Hd2]%orb_false_iff. destruct Hd as [->|Hc]; [done|]. by apply Hc.
  - rewrite (content_frame s p f) by done. by apply (effect_replace_frame None s p i g).
Qed.

(** ** NewPage *)

(** The outcome of a [NewPage] that found a frame and an id. *)
Record created (s : BufferPoolManager) (i : nat) (p : Z) (s' : BufferPoolManager) : Prop := {
  created_run : NewPage true s = (Ret (Some (i, p)), s');
  created_inv : pool_inv None s';
  created_table : page_table_ s' !! p = Some i;
  created_range : 0 ≤ p < int32_max;
  created_fresh : ¬ allocated (disk_manager_ s) p;
  created_allocated q : allocated (disk_manager_ s') q ↔ q = p ∨ allocated (disk_manager_ s) q;
  created_content q : 0 ≤ q → content s' q = if decide (q = p) then zero_page else content s q;
  created_pins q : pins s' q = if decide (q = p) then 1%nat else pins s q;
  created_room : alloc_room (disk_manager_ s') = alloc_room (disk_manager_ s) - 1;
  created_length : length (frames_ s') = length (frames_ s);
}.

Lemma NewPage_spec s :
  pool_inv None s → 0 < alloc_room (disk_manager_ s) →
  free_frames_ s ≠ [] ∨ lru_ s ≠ [] → ∃ i p s', created s i p s'.
Proof.
  intros Hinv Hroom Hav.
  destruct (AcquireFrame_spec s Hinv Hav) as (i & s1 & Hacq & Hinv1 & Hsv).
  destruct (inv_hand _ _ Hinv1 i eq_refl) as (Hlt & _ & _).
  destruct (lookup_lt_is_Some_2 _ _ Hlt) as [f Hf].
  assert (alloc_room (disk_manager_ s1) = alloc_room (disk_manager_ s)) as Hroom1.
  { unfold alloc_room. by rewrite (sv_free_list _ _ Hsv), (sv_next _ _ Hsv). }
  destruct (AllocatePage_ok (disk_manager_ s1) (inv_alloc _ _ Hinv1)) as (p & d & Hd); [lia|].
  assert (pool_inv (Some i) (set_disk d s1)) as Hinv2.
  { apply inv_set_disk_alloc; try apply Hd; [done|].
    intros q j Hq. apply (allocates_iff _ _ _ Hd). right.
    by apply (inv_table _ _ Hinv1) in Hq as [? _]. }
  assert (page_table_ s1 !! p = None) as Hnone.
  { destruct (page_table_ s1 !! p) as [j|] eqn:E; [|done].
    apply (inv_table _ _ Hinv1) in E as [E _]. by apply (allocates_fresh _ _ _ Hd) in E. }
  assert (∀ q, content (set_disk d s1) q = content s1 q) as Hcont.
  { intros q. unfold content. change (frame_of (set_disk d s1) q) with (frame_of s1 q).
    destruct (frame_of s1 q); [done|].
    simpl. by apply disk_page_ext, (allocates_file _ _ _ Hd). }
  pose proof (effect_installed _ p i zero_page Hinv2) as Heff.
  exists i, p, (installed p i zero_page (set_disk d s1)). split.
  - unfold NewPage. cbn [negb]. erewrite bind_ret by exact Hacq.
    unfold mbind at 1, M_bind at 1, gets at 1. rewrite decide_False by lia.
    erewrite bind_ret by (apply on_disk_run; apply Hd).
    erewrite bind_ret by by apply update_frame_run.
    unfold mbind, M_bind, modify, mret, M_ret. do 2 f_equal.
    unfold installed, emplace, set_table, set_frames, set_disk; simpl. by rewrite Hnone.
  - apply inv_installed; [done|done| |apply length_zero_page].
    apply (allocates_iff _ _ _ Hd). by left.
  - simpl. apply lookup_insert_eq.
  - apply Hd.
  - intros Ha. apply (allocates_fresh _ _ _ Hd). by apply (same_view_allocated s s1).
  - intros q. simpl. rewrite (allocates_iff _ _ _ Hd). by rewrite (same_view_allocated s s1).
  - intros q Hq. rewrite (ef_content _ _ _ _ _ Heff), Hcont by done.
    case_decide; [done|by apply Hsv].
  - intros q. rewrite (ef_pins _ _ _ _ _ Heff). case_decide; [done|].
    change (pins (set_disk d s1) q) with (pins s1 q). apply Hsv.
  - simpl. rewrite (allocates_room _ _ _ Hd). lia.
  - rewrite (ef_length _ _ _ _ _ Heff). apply Hsv.
Qed.

(** ** DeletePage *)

Lemma DeletePage_spec s p :
  pool_inv None s → allocated (disk_manager_ s) p → pins s p = O →
  ∃ s', DeletePage p s = (Ret true, s') ∧ pool_inv None s' ∧
    (∀ q, allocated (disk_manager_ s') q ↔ q ≠ p ∧ allocated (disk_manager_ s) q) ∧
    (∀ q, q ≠ p → content s' q = content s q) ∧ (∀ q, pins s' q = pins s q) ∧
    alloc_room (disk_manager_ s') = alloc_room (disk_manager_ s) + 1 ∧
    length (frames_ s') = length (frames_ s).
Proof.
  intros Hinv Hal Hpins.
  destruct (DeallocatePage_spec _ p (inv_alloc _ _ Hinv) Hal)
    as (d & Hrun & Hda & Hdal & Hfile & Hroom & Hnext).
  unfold DeletePage. destruct (page_table_ s !! p) as [i|] eqn:Hp.
  - destruct (frame_of_table Hinv _ _ Hp) as (f & Hf & Hfp & Hid).
    pose proof (resident_lt Hinv _ _ Hp) as Hlt.
    rewrite (pins_frame s p f) in Hpins by done.
    set (g := mkFrame (SetPageId INVALID_PAGE_ID (ResetMemory (page f))) 0 false).
    set (s1 := evicted p i g s).
    assert (pool_inv (Some i) s1) as H1 by by apply inv_evicted.
    pose proof (λ q, frame_of_evicted None s p i g q Hinv Hp) as Hview. fold s1 in Hview.
    exists (set_disk d (set_free (free_frames_ s ++ [i]) s1)). split_and!.
    + unfold mbind at 1, M_bind at 1, gets at 1. rewrite Hp.
      erewrite bind_ret by by apply frame_at_run.
      rewrite bool_decide_false by (rewrite Hpins; tauto).
      erewrite bind_ret by (apply RemoveFromLru_spec; [apply Hinv..|done]).
      erewrite bind_ret by (unfold ResetFrame; by apply update_frame_run).
      unfold mbind at 1, M_bind at 1, modify at 1.
      unfold mbind at 1, M_bind at 1, modify at 1.
      erewrite bind_ret by by apply on_disk_run. done.
    + apply inv_set_disk_alloc; [by apply (inv_push_free s1 i)|done..|].
      intros q j Hq. simpl in Hq. apply lookup_delete_Some in Hq as [Hne Hq].
      apply Hdal. split; [done|]. by apply (inv_table _ _ Hinv) in Hq as [? _].
    + exact Hdal.
    + intros q Hne. unfold content.
      change (frame_of (set_disk _ _) q) with (frame_of s1 q).
      rewrite Hview, decide_False by done. destruct (frame_of s q); [done|].
      simpl. by apply disk_page_ext.
    + intros q. unfold pins. change (frame_of (set_disk _ _) q) with (frame_of s1 q).
      rewrite Hview. case_decide; [|done]. subst. by rewrite Hfp.
    + exact Hroom.
    + simpl. by rewrite length_insert.
  - exists (set_disk d s). split; [|split; [|split_and!; [exact Hdal| |done|exact Hroom|done]]].
    + unfold mbind at 1, M_bind at 1, gets at 1. rewrite Hp.
      by erewrite bind_ret by by apply on_disk_run.
    + apply inv_set_disk_alloc; try done. intros q j Hq. apply Hdal.
      split; [congruence|]. by apply (inv_table _ _ Hinv) in Hq as [? _].
    + intros q Hne. unfold content. change (frame_of (set_disk d s) q) with (frame_of s q).
      destruct (frame_of s q); [done|]. simpl. by apply disk_page_ext.
Qed.

(** A pinned page is not deleted. *)
Lemma DeletePage_pinned s p :
  pool_inv None s → pins s p ≠ O → DeletePage p s = (Ret false, s).
Proof.
  intros Hinv Hpins. unfold pins, frame_of in Hpins. unfold DeletePage.
  destruct (page_table_ s !! p) as [i|] eqn:Hp; [|done].
  destruct (frames_ s !! i) as [f|] eqn:Hf; [|done].
  unfold mbind at 1, M_bind at 1, gets at 1. rewrite Hp.
  erewrite bind_ret by by apply frame_at_run. by rewrite bool_decide_true.
Qed.

(** ** The client idioms *)

Lemma run_body_spec {A} s p i (body : M bytes A) a d' :
  pool_inv None s → page_table_ s !! p = Some i → pins s p ≠ O →
  body (content s p) = (Ret a, d') → length d' = PAGE_SIZE →
  ∃ s', run_body i body s = (Ret a, s') ∧ pool_inv None s' ∧ page_table_ s' !! p = Some i ∧
    effect s s' p d' (pins s p) ∧ (d' = content s p → coherent s p → coherent s' p).
Proof.
  intros Hinv Hp Hpins Hbody Hlen.
  destruct (SetData_spec s p i d' Hinv Hp Hpins Hlen) as (s' & Hset & H1 & H2 & H3 & H4).
  exists s'. split_and!; try done. unfold run_body.
  erewrite bind_ret by by eapply GetData_spec. rewrite Hbody. cbv beta iota.
  by erewrite bind_ret by exact Hset.
Qed.

Lemma with_fetched_spec {A} s p dirty (body : M bytes A) a d' :
  pool_inv None s → allocated (disk_manager_ s) p → pins s p = O →
  free_frames_ s ≠ [] ∨ lru_ s ≠ [] →
  body (content s p) = (Ret a, d') → length d' = PAGE_SIZE →
  (dirty = true ∨ d' = content s p) →
  ∃ s', with_fetched p dirty body s = (Ret (Some a), s') ∧ pool_inv None s' ∧
    effect s s' p d' O.
Proof.
  intros Hinv Hal Hpins Hav Hbody Hlen Hd.
  assert (0 ≤ p) as Hp0 by (destruct Hal; lia).
  destruct (FetchPage_spec s p Hinv Hal Hav) as (i & s1 & [R1 I1 T1 E1 C1]).
  assert (content s1 p = content s p) as Hc1.
  { by rewrite (ef_content _ _ _ _ _ E1), decide_True. }
  assert (pins s1 p = 1%nat) as Hp1.
  { by rewrite (ef_pins _ _ _ _ _ E1), decide_True, Hpins. }
  destruct (run_body_spec s1 p i body a d' I1 T1) as (s2 & R2 & I2 & T2 & E2 & C2);
    [by rewrite Hp1|by rewrite Hc1|done|].
  assert (pins s2 p = 1%nat) as Hp2.
  { by rewrite (ef_pins _ _ _ _ _ E2), decide_True. }
  destruct (UnpinPage_spec s2 p i 0 dirty I2 T2 Hp2) as (s3 & R3 & I3 & E3).
  { destruct Hd as [->| ->]; [by left|right]. apply C2; [done|].
    by apply C1, (inv_clean _ _ Hinv). }
  exists s3. split_and!; [|done|].
  - unfold with_fetched. erewrite bind_ret by exact R1. cbv beta iota.
    erewrite bind_ret by exact R2. by erewrite bind_ret by exact R3.
  - rewrite (ef_content _ _ _ _ _ E2), decide_True in E3 by done.
    eapply effect_trans; [exact E1|]. by eapply effect_trans.
Qed.

Lemma with_new_spec {A} s (body : Z → M bytes A) (a : Z → A) (d' : Z → bytes) :
  pool_inv None s → (∀ p, pins s p = O) → 0 < alloc_room (disk_manager_ s) →
  free_frames_ s ≠ [] ∨ lru_ s ≠ [] →
  (∀ p, 0 ≤ p < int32_max → body p zero_page = (Ret (a p), d' p) ∧ length (d' p) = PAGE_SIZE) →
  ∃ p s', with_new body s = (Ret (Some (p, a p)), s') ∧ pool_inv None s' ∧
    0 ≤ p < int32_max ∧ ¬ allocated (disk_manager_ s) p ∧
    (∀ q, allocated (disk_manager_ s') q ↔ q = p ∨ allocated (disk_manager_ s) q) ∧
    (∀ q, 0 ≤ q → content s' q = if decide (q = p) then d' p else content s q) ∧
    (∀ q, pins s' q = O) ∧
    alloc_room (disk_manager_ s') = alloc_room (disk_manager_ s) - 1 ∧
    length (frames_ s') = length (frames_ s).
Proof.
  intros Hinv Hpins Hroom Hav Hbody.
  destruct (NewPage_spec s Hinv Hroom Hav) as (i & p & s1 & [R1 I1 T1 P1 F1 A1 C1 N1 M1 L1]).
  assert (pins s1 p = 1%nat) as Hp1 by by rewrite N1, decide_True.
  assert (content s1 p = zero_page) as Hc1 by (rewrite C1, decide_True by lia; done).
  destruct (Hbody p P1) as [Hb Hlen].
  destruct (run_body_spec s1 p i (body p) (a p) (d' p) I1 T1) as (s2 & R2 & I2 & T2 & E2 & _);
    [by rewrite Hp1|by rewrite Hc1|done|].
  assert (pins s2 p = 1%nat) as Hp2 by by rewrite (ef_pins _ _ _ _ _ E2), decide_True.
  destruct (UnpinPage_spec s2 p i 0 true I2 T2 Hp2) as (s3 & R3 & I3 & E3); [by left|].
  rewrite (ef_content _ _ _ _ _ E2), decide_True in E3 by (done || lia).
  pose proof (effect_trans _ _ _ _ _ _ _ _ E2 E3) as E.
  exists p, s3. split_and!; try done; try lia.
  - unfold with_new. erewrite bind_ret by exact R1. cbv iota beta.
    erewrite bind_ret by exact R2. by erewrite bind_ret by exact R3.
  - intros q. by rewrite (effect_allocated _ _ _ _ _ q E).
  - intros q Hq. rewrite (ef_content _ _ _ _ _ E) by done. case_decide; [done|].
    rewrite C1, decide_False by done. done.
  - intros q. rewrite (ef_pins _ _ _ _ _ E). case_decide; [done|].
    rewrite N1, decide_False by done. apply Hpins.
  - unfold alloc_room in *. by rewrite (ef_free_list _ _ _ _ _ E), (ef_next _ _ _ _ _ E).
  - by rewrite (ef_length _ _ _ _ _ E).
Qed.
