(* ===== verification/PageStore.v ===== *)
(** * The page store interface

    What the B+ tree and the table need from the buffer pool: run a function
    on the bytes of a page, create a page, delete a page.  [PageStore] names
    the operations, [PageStoreLaws] what they promise in terms of an abstract
    map from page ids to contents; the clients are proved against the laws.
    The buffer pool between two operations (no page pinned) implements them. *)

From S2P Require Export PoolInvariant.

Local Open Scope Z_scope.

(** [page_limit] bounds the ids ever handed out; it is only used as the number
    of iterations loops over pages are given. *)
Class PageStore (S : Type) := {
  with_page {A : Type} : Z → bool → M bytes A → M S (option A);
  with_new_page {A : Type} : (Z → M bytes A) → M S (option (Z * A));
  delete_page : Z → M S bool;
  page_limit : S → nat;
}.

Class PageStoreLaws (S : Type) `{PageStore S} := {
  store_inv : S → Prop;
  pages : S → gmap Z bytes;
  room : S → Z;
  pages_size s p d : store_inv s → pages s !! p = Some d → length d = PAGE_SIZE;
  pages_range s p d : store_inv s → pages s !! p = Some d →
    0 ≤ p < int32_max ∧ p < Z.of_nat (page_limit s);
  with_page_law {A} s p dirty (body : M bytes A) d a d' :
    store_inv s → pages s !! p = Some d → body d = (Ret a, d') →
    length d' = PAGE_SIZE → (dirty = true ∨ d' = d) →
    ∃ s', with_page p dirty body s = (Ret (Some a), s') ∧ store_inv s' ∧
      pages s' = <[p := d']> (pages s) ∧ room s' = room s;
  with_new_page_law {A} s (body : Z → M bytes A) (a : Z → A) (d' : Z → bytes) :
    store_inv s → 0 < room s →
    (∀ p, 0 ≤ p < int32_max →
       body p zero_page = (Ret (a p), d' p) ∧ length (d' p) = PAGE_SIZE) →
    ∃ p s', with_new_page body s = (Ret (Some (p, a p)), s') ∧ store_inv s' ∧
      0 ≤ p < int32_max ∧ pages s !! p = None ∧
      pages s' = <[p := d' p]> (pages s) ∧ room s' = room s - 1;
  delete_page_law s p d :
    store_inv s → pages s !! p = Some d →
    ∃ s', delete_page p s = (Ret true, s') ∧ store_inv s' ∧
      pages s' = delete p (pages s) ∧ room s' = room s + 1;
}.

(** ** The buffer pool as a page store *)

#[export] Instance pool_store : PageStore BufferPoolManager := {|
  with_page := @with_fetched;
  with_new_page := @with_new;
  delete_page := DeletePage;
  page_limit := λ s, Z.to_nat (next_page_id_ (disk_manager_ s));
|}.

(** Between operations: the invariant holds and no page is pinned. *)
Definition quiescent (s : BufferPoolManager) : Prop :=
  pool_inv None s ∧ frames_ s ≠ [] ∧ ∀ p, pins s p = O.

(** The pages clients can see: the allocated ids with their contents. *)
Definition pool_pages (s : BufferPoolManager) : gmap Z bytes :=
  list_to_map ((λ p, (p, content s p)) <$>
    filter (allocated (disk_manager_ s)) (seqZ 0 (next_page_id_ (disk_manager_ s)))).

Lemma pool_pages_lookup s p :
  pool_pages s !! p = if decide (allocated (disk_manager_ s) p) then Some (content s p) else None.
Proof.
  unfold pool_pages. set (l := filter _ _).
  assert (∀ q, q ∈ l ↔ allocated (disk_manager_ s) q) as Hl.
  { intros q. unfold l. rewrite list_elem_of_filter, elem_of_seqZ. unfold allocated. lia || (split; [tauto|]; intros [? ?]; split; [done|lia]). }
  assert (NoDup (((λ p, (p, content s p)) <$> l).*1)) as Hnd.
  { rewrite <- list_fmap_compose. erewrite list_fmap_ext with (g := id); [|done].
    rewrite list_fmap_id. apply NoDup_filter, NoDup_seqZ. }
  case_decide as Ha.
  - apply elem_of_list_to_map; [done|]. apply list_elem_of_fmap. exists p.
    split; [done|by apply Hl].
  - apply not_elem_of_list_to_map. rewrite <- list_fmap_compose.
    erewrite list_fmap_ext with (g := id); [|done]. rewrite list_fmap_id. by rewrite Hl.
Qed.

Lemma pool_pages_Some s p d :
  pool_pages s !! p = Some d ↔ allocated (disk_manager_ s) p ∧ d = content s p.
Proof. rewrite pool_pages_lookup. case_decide; naive_solver. Qed.

Lemma pool_pages_None s p :
  pool_pages s !! p = None ↔ ¬ allocated (disk_manager_ s) p.
Proof. rewrite pool_pages_lookup. case_decide; naive_solver. Qed.

#[export] Program Instance pool_laws : PageStoreLaws BufferPoolManager := {|
  store_inv := quiescent;
  pages := pool_pages;
  room := λ s, alloc_room (disk_manager_ s);
|}.
Next Obligation.
  intros s p d [Hinv _] [_ ->]%pool_pages_Some. by eapply length_content.
Qed.
Next Obligation.
  intros s p d [Hinv _] [[Hr _] _]%pool_pages_Some. simpl.
  pose proof (inv_alloc _ _ Hinv) as (Hn & _ & _). lia.
Qed.
Next Obligation.
  intros A s p dirty body d a d' (Hinv & Hne & Hpins) [Hal ->]%pool_pages_Some Hb Hlen Hd.
  destruct (with_fetched_spec s p dirty body a d' Hinv Hal (Hpins p)
              (frame_available s Hinv Hne Hpins) Hb Hlen Hd) as (s' & Hrun & Hinv' & E).
  exists s'. split; [done|]. split; [|split].
  - split; [done|]. split.
    + intros Hf. apply Hne, length_zero_iff_nil. by rewrite <- (ef_length _ _ _ _ _ E), Hf.
    + intros q. rewrite (ef_pins _ _ _ _ _ E). by case_decide.
  - apply map_eq. intros q. rewrite pool_pages_lookup, lookup_insert, pool_pages_lookup.
    rewrite (decide_ext (allocated (disk_manager_ s') q) (allocated (disk_manager_ s) q))
      by (by apply (effect_allocated _ _ _ _ _ q E)).
    case_decide as Hq.
    + assert (0 ≤ q) by (destruct Hq; lia).
      rewrite (ef_content _ _ _ _ _ E) by done.
      repeat case_decide; congruence || done.
    + by repeat case_decide; subst.
  - simpl. unfold alloc_room. by rewrite (ef_free_list _ _ _ _ _ E), (ef_next _ _ _ _ _ E).
Qed.
Next Obligation.
  intros A s body a d' (Hinv & Hne & Hpins) Hroom Hb.
  destruct (with_new_spec s body a d' Hinv Hpins Hroom (frame_available s Hinv Hne Hpins) Hb)
    as (p & s' & Hrun & Hinv' & Hp & Hfresh & Hal & Hc & Hpins' & Hroom' & Hlen).
  exists p, s'. split; [done|]. split; [|split; [done|split; [by apply pool_pages_None|split; [|done]]]].
  - split; [done|]. split; [|done]. intros Hf. apply Hne, length_zero_iff_nil.
    by rewrite <- Hlen, Hf.
  - apply map_eq. intros q. rewrite pool_pages_lookup, lookup_insert, pool_pages_lookup.
    rewrite (decide_ext (allocated (disk_manager_ s') q) (q = p ∨ allocated (disk_manager_ s) q))
      by (by apply Hal). destruct (decide (p = q)) as [->|Hne'].
    + rewrite decide_True by by left. rewrite Hc, decide_True by (done || lia). done.
    + destruct (decide (allocated (disk_manager_ s) q)) as [Hq|Hq].
      * rewrite decide_True by by right. assert (0 ≤ q) by (destruct Hq; lia).
        by rewrite Hc, decide_False by congruence.
      * rewrite decide_False; [done|]. by intros [->|?].
Qed.
Next Obligation.
  intros s p d (Hinv & Hne & Hpins) [Hal ->]%pool_pages_Some.
  destruct (DeletePage_spec s p Hinv Hal (Hpins p))
    as (s' & Hrun & Hinv' & Hal' & Hc & Hpins' & Hroom & Hlen).
  exists s'. split; [done|]. split; [|split; [|done]].
  - split; [done|]. split; [|intros q; by rewrite Hpins'].
    intros Hf. apply Hne, length_zero_iff_nil. by rewrite <- Hlen, Hf.
  - apply map_eq. intros q. rewrite pool_pages_lookup, lookup_delete, pool_pages_lookup.
    rewrite (decide_ext (allocated (disk_manager_ s') q) (q ≠ p ∧ allocated (disk_manager_ s) q))
      by (by apply Hal'). destruct (decide (p = q)) as [->|Hne'].
    + by rewrite decide_False by tauto.
    + destruct (decide (allocated (disk_manager_ s) q)) as [Hq|Hq].
      * rewrite decide_True by (split; [congruence|done]). by rewrite Hc by congruence.
      * rewrite decide_False by tauto. done.
Qed.
