(* ===== verification/BufferPoolSpec.v ===== *)
(** * What the buffer pool guarantees

    Clients of the pool as a step relation and its invariant, transparency of
    caching and eviction, durability of flushed pages, and two calls that
    misbehave: a fetch of an invalid id, and a new page unpinned clean. *)

From S2P Require Export PoolInvariant.

Local Open Scope Z_scope.

(** ** Flushing *)

(** The state after flushing page [p]: same contents, pins and table; the
    disk holds [p]. *)
Record flushed (s : BufferPoolManager) (p : Z) (s' : BufferPoolManager) : Prop := {
  flushed_inv : pool_inv None s';
  flushed_table : page_table_ s' = page_table_ s;
  flushed_content q : 0 ≤ q → content s' q = content s q;
  flushed_pins q : pins s' q = pins s q;
  flushed_coherent q : coherent s q → coherent s' q;
  flushed_disk : disk_page (disk_manager_ s') p = content s p;
  flushed_others q : 0 ≤ q → q ≠ p →
    disk_page (disk_manager_ s') q = disk_page (disk_manager_ s) q;
  flushed_allocated q : allocated (disk_manager_ s') q ↔ allocated (disk_manager_ s) q;
}.

Lemma FlushFrame_spec s p i :
  pool_inv None s → page_table_ s !! p = Some i → coherent s p →
  ∃ s', FlushFrame p i s = (Ret tt, s') ∧ flushed s p s'.
Proof.
  intros Hinv Hp Hclean. destruct (frame_of_table Hinv _ _ Hp) as (f & Hf & Hfp & Hid).
  unfold FlushFrame. destruct (is_dirty f) eqn:Hd.
  2: { exists s. split.
       - erewrite bind_ret by by apply frame_at_run. by rewrite Hd.
       - split; try done. rewrite (content_frame s p f) by done. symmetry. exact (Hclean f Hfp Hd). }
  destruct (inv_write_back None s p i f Hinv Hp Hf) as (I1 & C1 & D1 & O1).
  pose proof (resident_nonneg Hinv _ _ Hp) as Hp0.
  set (d := written p (page_data (page f)) (disk_manager_ s)) in *.
  set (g := mkFrame (page f) (pin_count f) false).
  assert (pool_inv None (replace_frame i g (lru_ s) (set_disk d s))) as I2.
  { apply (inv_replace_frame None (set_disk d s) p i f); try assumption.
    - by apply (inv_data _ _ Hinv i f).
    - apply Hinv.
    - done.
    - rewrite (lru_iff Hinv p i f) by done. done.
    - intros _ _. exact (eq_sym D1). }
  pose proof (effect_replace_frame None (set_disk d s) p i g (lru_ s) I1 Hp) as E.
  exists (replace_frame i g (lru_ s) (set_disk d s)). split.
  - erewrite bind_ret by by apply frame_at_run. rewrite Hd. unfold when.
    erewrite bind_ret by (apply on_disk_run, WritePage_spec; [apply Hinv|done]).
    erewrite update_frame_run by done. do 2 f_equal.
    unfold replace_frame, with_lru, set_lru, set_frames, set_disk; cbn.
    rewrite length_insert.
    rewrite (inv_pos _ _ Hinv). reflexivity.
  - split; [exact I2|done| | | |rewrite (content_frame s p f) by done; exact D1|exact O1|done].
    + intros q Hq. rewrite (ef_content _ _ _ _ _ E) by done. case_decide as Heq.
      * subst q. by rewrite (content_frame s p f).
      * unfold content. change (frame_of (set_disk d s) q) with (frame_of s q).
        destruct (frame_of s q); [done|]. by apply O1.
    + intros q. rewrite (ef_pins _ _ _ _ _ E). case_decide as Heq; [|done].
      subst q. by rewrite (pins_frame s p f).
    + intros q Hq. destruct (decide (q = p)) as [->|Hne].
      * intros h. rewrite (frame_of_replace None (set_disk d s) p), decide_True by done.
        intros [= <-] _. exact (eq_sym D1).
      * by apply (ef_coherent _ _ _ _ _ E), C1.
Qed.

(** A page may be flushed whether or not its frame is coherent. *)
Lemma FlushFrame_inv s p i :
  pool_inv None s → page_table_ s !! p = Some i →
  ∃ s', FlushFrame p i s = (Ret tt, s') ∧ pool_inv None s' ∧ page_table_ s' = page_table_ s.
Proof.
  intros Hinv Hp. destruct (frame_of_table Hinv _ _ Hp) as (f & Hf & Hfp & _).
  destruct (is_dirty f) eqn:Hd.
  - destruct (FlushFrame_spec s p i Hinv Hp) as (s2 & Hfl & F).
    { intros h Hh. rewrite Hfp in Hh. simplify_eq. congruence. }
    exists s2. split_and!; [done|apply F..].
  - exists s. split; [|done]. unfold FlushFrame. erewrite bind_ret by by apply frame_at_run.
    by rewrite Hd.
Qed.

(** Lists the entries of a table, each once. *)
Definition iterates (iteration : gmap Z nat → list (Z * nat)) : Prop :=
  ∀ t, iteration t ≡ₚ map_to_list t.

Lemma iterates_elem iteration t p i :
  iterates iteration → (p, i) ∈ iteration t ↔ t !! p = Some i.
Proof. intros Hit. rewrite (Hit t). apply elem_of_map_to_list. Qed.

Lemma FlushAllPages_inv iteration s :
  iterates iteration → pool_inv None s → wp (FlushAllPages iteration) s (λ _ s', pool_inv None s').
Proof.
  intros Hit Hinv. unfold FlushAllPages. apply wp_bind, wp_gets. eapply wp_mono.
  - apply (wp_for_each (λ _ s', pool_inv None s' ∧ page_table_ s' = page_table_ s)); [done|].
    intros pre [p i] rest s1 Hl [I1 T1].
    assert (page_table_ s1 !! p = Some i) as Hp.
    { rewrite T1, <- (iterates_elem _ _ _ _ Hit), Hl. apply elem_of_app. right. by left. }
    destruct (FlushFrame_inv s1 p i I1 Hp) as (s2 & Hrun & I2 & T2).
    eapply wp_eq; [exact Hrun|]. split; [done|congruence].
  - cbn beta. by intros _ s' [? _].
Qed.

(** Flushing every entry of the table, in whatever order they come. *)
Lemma FlushEntries_spec s order :
  pool_inv None s → (∀ p, coherent s p) →
  (∀ p i, (p, i) ∈ order ↔ page_table_ s !! p = Some i) →
  wp (FlushEntries order) s (λ _ s',
    pool_inv None s' ∧ (∀ q, 0 ≤ q → content s' q = content s q) ∧
    (∀ q, pins s' q = pins s q) ∧
    (∀ q, allocated (disk_manager_ s') q ↔ allocated (disk_manager_ s) q) ∧
    (∀ q, 0 ≤ q → disk_page (disk_manager_ s') q = content s q)).
Proof.
  intros Hinv Hcoh Hord. eapply wp_mono.
  - apply (wp_for_each (λ pre s',
      pool_inv None s' ∧ page_table_ s' = page_table_ s ∧
      (∀ q, 0 ≤ q → content s' q = content s q) ∧ (∀ q, pins s' q = pins s q) ∧
      (∀ q, coherent s' q) ∧
      (∀ q, allocated (disk_manager_ s') q ↔ allocated (disk_manager_ s) q) ∧
      (∀ q, 0 ≤ q → disk_page (disk_manager_ s') q = content s q ∨
         (disk_page (disk_manager_ s') q = disk_page (disk_manager_ s) q ∧
          ∀ i, (q, i) ∉ pre)))).
    + split_and!; try done. intros q _. right. split; [done|]. intros i. apply not_elem_of_nil.
    + intros pre [p i] rest s1 Hl (I1 & T1 & C1 & N1 & H1 & A1 & D1).
      assert (page_table_ s1 !! p = Some i) as Hp.
      { rewrite T1. apply Hord. rewrite Hl. apply elem_of_app. right. by left. }
      pose proof (resident_nonneg I1 _ _ Hp) as Hp0.
      destruct (FlushFrame_spec s1 p i I1 Hp (H1 p)) as (s2 & Hrun & F).
      eapply wp_eq; [exact Hrun|].
      destruct F as [I2 T2 C2 N2 H2 D2 O2 A2]. split_and!.
      * done.
      * by rewrite T2.
      * intros q Hq. by rewrite C2, C1.
      * intros q. by rewrite N2.
      * intros q. by apply H2.
      * intros q. by rewrite A2.
      * intros q Hq. destruct (decide (q = p)) as [->|Hne]; [left; by rewrite D2, C1|].
        rewrite O2 by done. destruct (D1 q Hq) as [?|[? Hno]]; [by left|right].
        split; [done|]. intros j [Hin|Hin]%elem_of_app; [by apply (Hno j)|].
        apply list_elem_of_singleton in Hin. congruence.
  - cbn beta. intros [] s' (I & T & C & N & _ & A & D). split_and!; try done.
    intros q Hq. destruct (D q Hq) as [?|[-> Hno]]; [done|].
    symmetry. apply content_disk. unfold frame_of.
    destruct (page_table_ s !! q) as [i|] eqn:E; [|done].
    apply Hord in E. by apply Hno in E.
Qed.

(** ** Clients of the pool *)

(** What a client may do: fetch and delete pages it was given, write through
    the pointer of a page it pinned, unpin as often as it pinned, and say that
    a page it modified is dirty. *)
Inductive pool_step (s : BufferPoolManager) : BufferPoolManager → Prop :=
  | step_fetch p r s' :
      allocated (disk_manager_ s) p → FetchPage p s = (Ret r, s') → pool_step s s'
  | step_new r s' :
      0 < alloc_room (disk_manager_ s) → NewPage true s = (Ret r, s') → pool_step s s'
  | step_write p i data s' :
      page_table_ s !! p = Some i → pins s p ≠ O → length data = PAGE_SIZE →
      SetData i data s = (Ret tt, s') → pool_step s s'
  | step_unpin p dirty r s' :
      (dirty = true ∨ coherent s p) → UnpinPage p dirty s = (Ret r, s') → pool_step s s'
  | step_flush p r s' :
      FlushPage p s = (Ret r, s') → pool_step s s'
  | step_flush_all iteration r s' :
      iterates iteration → FlushAllPages iteration s = (Ret r, s') → pool_step s s'
  | step_delete p r s' :
      allocated (disk_manager_ s) p → DeletePage p s = (Ret r, s') → pool_step s s'.

Lemma AcquireFrame_full s :
  free_frames_ s = [] → lru_ s = [] → AcquireFrame s = (Ret (length (frames_ s)), s).
Proof.
  intros Hf Hl. unfold AcquireFrame, mbind, M_bind, gets. rewrite Hf. cbn [last].
  by rewrite Hl.
Qed.

(** Either a frame can be had or every frame is pinned. *)
Lemma pool_full_or_available s :
  (free_frames_ s = [] ∧ lru_ s = []) ∨ (free_frames_ s ≠ [] ∨ lru_ s ≠ []).
Proof. destruct (free_frames_ s), (lru_ s); auto. Qed.

Lemma FetchPage_full s p :
  0 ≤ p → free_frames_ s = [] → lru_ s = [] → page_table_ s !! p = None →
  FetchPage p s = (Ret None, s).
Proof.
  intros Hp Hf Hl Ht. unfold FetchPage, INVALID_PAGE_ID.
  rewrite (proj2 (Z.eqb_neq p (-1))) by lia.
  unfold mbind at 1, M_bind at 1, gets at 1. rewrite Ht.
  erewrite bind_ret by by apply AcquireFrame_full.
  unfold mbind, M_bind, gets. by rewrite decide_True.
Qed.

Lemma NewPage_full s :
  free_frames_ s = [] → lru_ s = [] → NewPage true s = (Ret None, s).
Proof.
  intros Hf Hl. unfold NewPage. cbn [negb].
  erewrite bind_ret by by apply AcquireFrame_full.
  unfold mbind, M_bind, gets. by rewrite decide_True.
Qed.

Lemma UnpinPage_cases s p dirty :
  pool_inv None s →
  (∃ i n, page_table_ s !! p = Some i ∧ pins s p = S n) ∨
  UnpinPage p dirty s = (Ret false, s).
Proof.
  intros Hinv. unfold UnpinPage. unfold mbind at 1, M_bind at 1, gets at 1.
  destruct (page_table_ s !! p) as [i|] eqn:Hp; [|by right].
  destruct (frame_of_table Hinv _ _ Hp) as (f & Hf & Hfp & _).
  destruct (pin_count f) as [|n] eqn:Hn.
  - right. erewrite bind_ret by by apply frame_at_run. by rewrite Hn.
  - left. exists i, n. split; [done|]. by rewrite (pins_frame s p f).
Qed.

Lemma FlushPage_inv s p r s' :
  pool_inv None s → FlushPage p s = (Ret r, s') → pool_inv None s'.
Proof.
  intros Hinv Hrun. unfold FlushPage in Hrun.
  unfold mbind at 1, M_bind at 1, gets at 1 in Hrun.
  destruct (page_table_ s !! p) as [i|] eqn:Hp; [|by injection Hrun as _ <-].
  destruct (FlushFrame_inv s p i Hinv Hp) as (s2 & Hfl & I2 & _).
  erewrite bind_ret in Hrun by exact Hfl. by injection Hrun as _ <-.
Qed.

Lemma pool_step_inv s s' : pool_inv None s → pool_step s s' → pool_inv None s'.
Proof.
  intros Hinv Hstep. destruct Hstep as [p r s' Hal Hrun|r s' Hroom Hrun|p i data s' Hp Hn Hl Hrun
    |p dirty r s' Hd Hrun|p r s' Hrun|iteration r s' Hit Hrun|p r s' Hal Hrun].
  - destruct (page_table_ s !! p) as [i|] eqn:Hp.
    { destruct (FetchPage_resident s p i Hinv Hp) as [s1 F].
      rewrite (fetched_run _ _ _ _ F) in Hrun. injection Hrun as _ <-. apply F. }
    destruct (pool_full_or_available s) as [[Hf Hl]|Hav].
    + rewrite (FetchPage_full s p (proj1 (proj1 Hal)) Hf Hl Hp) in Hrun. by injection Hrun as _ <-.
    + destruct (FetchPage_absent s p Hinv Hp Hal Hav) as (i & s1 & F).
      rewrite (fetched_run _ _ _ _ F) in Hrun. injection Hrun as _ <-. apply F.
  - destruct (pool_full_or_available s) as [[Hf Hl]|Hav].
    + rewrite NewPage_full in Hrun by done. by injection Hrun as _ <-.
    + destruct (NewPage_spec s Hinv Hroom Hav) as (i & p & s1 & F).
      rewrite (created_run _ _ _ _ F) in Hrun. injection Hrun as _ <-. apply F.
  - destruct (SetData_spec s p i data Hinv Hp Hn Hl) as (s1 & Hset & I1 & _).
    rewrite Hset in Hrun. by injection Hrun as <-.
  - destruct (UnpinPage_cases s p dirty Hinv) as [(i & n & Hp & Hn)|Hf].
    + destruct (UnpinPage_spec s p i n dirty Hinv Hp Hn Hd) as (s1 & Hu & I1 & _).
      rewrite Hu in Hrun. by injection Hrun as _ <-.
    + rewrite Hf in Hrun. by injection Hrun as _ <-.
  - by eapply FlushPage_inv.
  - by eapply (wlp_wp _ _ _ (FlushAllPages_inv iteration s Hit Hinv)).
  - destruct (decide (pins s p = O)) as [Hz|Hz].
    + destruct (DeletePage_spec s p Hinv Hal Hz) as (s1 & Hr & I1 & _).
      rewrite Hr in Hrun. by injection Hrun as _ <-.
    + rewrite DeletePage_pinned in Hrun by done. by injection Hrun as _ <-.
Qed.

Lemma pool_steps_inv s s' : pool_inv None s → rtc pool_step s s' → pool_inv None s'.
Proof.
  intros Hinv Hsteps. induction Hsteps as [|s1 s2 s3 Hstep _ IH]; [done|].
  by apply IH, (pool_step_inv s1).
Qed.

(** The state the constructor builds. *)
Lemma BufferPoolManager_new_inv n d :
  healthy d → alloc_inv d →
  ∃ s, BufferPoolManager_new n (Some d) = Ret s ∧ pool_inv None s ∧
    disk_manager_ s = d ∧ length (frames_ s) = n ∧ (∀ p, pins s p = O) ∧
    (∀ p, content s p = disk_page d p).
Proof.
  intros Hh Ha. eexists. split; [done|].
  assert (∀ i, i ∈ rev (seq 0 n) ↔ (i < n)%nat) as Hfree.
  { intros i. rewrite list_elem_of_In, <- in_rev, <- list_elem_of_In, elem_of_seq. lia. }
  split; [|split_and!; [done|apply length_replicate|done|done]].
  split; simpl; rewrite ?length_replicate; try assumption.
  - intros i f [-> _]%lookup_replicate. apply length_zero_page.
  - intros p i Hp. by rewrite lookup_empty in Hp.
  - apply NoDup_ListNoDup, List.NoDup_rev, NoDup_ListNoDup, NoDup_seq.
  - intros i Hi%Hfree. split; [done|]. intros p. by rewrite lookup_empty.
  - done.
  - intros i Hi. left. by apply Hfree.
  - constructor.
  - intros i. split; [by intros ?%not_elem_of_nil|]. intros (p & f & Hp & _). by rewrite lookup_empty in Hp.
  - apply list_eq. intros i. destruct (decide (i < n)%nat).
    + rewrite positions_lookup, lookup_replicate_2, decide_False by (done || apply not_elem_of_nil).
      done.
    + rewrite !lookup_ge_None_2; [done|..]; unfold positions_of;
        rewrite ?length_fmap, ?length_seq, ?length_replicate; lia.
  - intros p _ f Hf. unfold frame_of in Hf. simpl in Hf. by rewrite lookup_empty in Hf.
Qed.

(** ** What the pool promises its clients *)

Lemma fetched_view s p i s' :
  0 ≤ p → fetched s p i s' →
  FetchPage p s = (Ret (Some i), s') ∧ pool_inv None s' ∧
  GetData i s' = (Ret (content s p), s') ∧ pins s' p = S (pins s p) ∧
  (∀ q, 0 ≤ q → content s' q = content s q) ∧ (∀ q, q ≠ p → pins s' q = pins s q).
Proof.
  intros Hp0 [Hrun I' T [Ec Ep _ _ _ _] _]. split_and!; try done.
  - rewrite (GetData_spec s' p i I' T), Ec by done. by rewrite decide_True.
  - rewrite Ep. by rewrite decide_True.
  - intros q Hq. rewrite Ec by done. by case_decide; subst.
  - intros q Hq. rewrite Ep. by rewrite decide_False.
Qed.

(** C18: starting from a new pool, every state that clients of the pool can
    reach by fetching, creating, writing, unpinning, flushing (one page or
    all) and deleting pages satisfies the pool invariant: each resident page is allocated and
    sits in one frame that carries its id, every frame is free or holds a
    page but not both, the LRU list holds without repetition exactly the frames
    of the unpinned pages and agrees with the stored iterators, and the frame
    of an unpinned page that is not dirty holds what the disk holds. *)
Theorem pool_invariant_reachable n d s0 s :
  healthy d → alloc_inv d → BufferPoolManager_new n (Some d) = Ret s0 →
  rtc pool_step s0 s → pool_inv None s.
Proof.
  intros Hh Ha Hnew Hsteps.
  destruct (BufferPoolManager_new_inv n d Hh Ha) as (s1 & Hnew1 & Hinv & _).
  rewrite Hnew1 in Hnew. injection Hnew as ->. by eapply pool_steps_inv.
Qed.

(** A pool of one frame in which page 0 is written and unpinned. *)
Definition small_disk : DiskManager := mkDisk (mkFile [] true true true) 0 [] 0.
Definition small_pool : BufferPoolManager := mkPool small_disk [Frame_new] ∅ [0%nat] [] [None].
Definition small_data : bytes := replicate PAGE_SIZE x61.
Definition small_new : BufferPoolManager := snd (NewPage true small_pool).
Definition small_written : BufferPoolManager := snd (SetData 0 small_data small_new).
Definition small_dirty : BufferPoolManager := snd (UnpinPage 0 true small_written).

Lemma map_to_list_iterates : iterates map_to_list.
Proof. by intros t. Qed.

Lemma small_steps : rtc pool_step small_pool small_dirty.
Proof.
  eapply rtc_l; [eapply step_new; [|reflexivity]; by vm_compute|].
  eapply rtc_l; [eapply (step_write _ 0 0%nat small_data small_written);
    [vm_compute; reflexivity|vm_compute; discriminate|apply length_replicate|vm_compute; reflexivity]|].
  eapply rtc_once, (step_unpin _ 0 true true); [by left|vm_compute; reflexivity].
Qed.

Lemma pool_invariant_reachable_witness :
  pool_inv None (snd (FlushAllPages map_to_list small_dirty)).
Proof.
  apply (pool_invariant_reachable 1 small_disk small_pool).
  - by split_and!.
  - apply (bool_decide_unpack _). vm_compute. exact I.
  - reflexivity.
  - eapply rtc_r; [exact small_steps|].
    eapply (step_flush_all _ map_to_list tt); [exact map_to_list_iterates|].
    vm_compute. reflexivity.
Defined.

(** C22: fetching an allocated page gives a frame that holds the page's content
    (what was last written to it, also when its frame was evicted in between),
    pinned once more, and leaves the contents and the pins of all other pages
    as they were whatever it evicts; a null page comes back only when every
    frame is pinned, and then nothing has changed. *)
Theorem fetch_transparent s p :
  pool_inv None s → allocated (disk_manager_ s) p →
  (FetchPage p s = (Ret None, s) ∧
   ∀ i f, frames_ s !! i = Some f → pin_count f ≠ O) ∨
  (∃ i s', FetchPage p s = (Ret (Some i), s') ∧ pool_inv None s' ∧
     GetData i s' = (Ret (content s p), s') ∧ pins s' p = S (pins s p) ∧
     (∀ q, 0 ≤ q → content s' q = content s q) ∧
     (∀ q, q ≠ p → pins s' q = pins s q)).
Proof.
  intros Hinv Hal. assert (0 ≤ p) as Hp0 by (destruct Hal; lia).
  destruct (pool_full_or_available s) as [[Hf Hl]|Hav].
  2: { right. destruct (FetchPage_spec s p Hinv Hal Hav) as (i & s' & F).
       exists i, s'. by apply fetched_view. }
  destruct (page_table_ s !! p) as [i|] eqn:Hp.
  - right. destruct (FetchPage_resident s p i Hinv Hp) as [s' F].
    exists i, s'. by apply fetched_view.
  - left. split; [by apply FetchPage_full|]. intros i f Hi Hz.
    assert (∃ q, page_table_ s !! q = Some i) as [q Hq].
    { destruct (inv_cover _ _ Hinv i) as [H|[H|H]]; [by eapply lookup_lt_Some|..|done].
      - rewrite Hf in H. by apply not_elem_of_nil in H.
      - done. }
    assert (i ∈ lru_ s) as Hin by (apply (inv_lru _ _ Hinv); eauto).
    rewrite Hl in Hin. by apply not_elem_of_nil in Hin.
Qed.

Lemma fetch_transparent_witness :
  let d := mkDisk (mkFile [] true true true) 1 [] 0 in
  let s := mkPool d [Frame_new] ∅ [0%nat] [] [None] in
  (FetchPage 0 s = (Ret None, s) ∧
   ∀ i f, frames_ s !! i = Some f → pin_count f ≠ O) ∨
  (∃ i s', FetchPage 0 s = (Ret (Some i), s') ∧ pool_inv None s' ∧
     GetData i s' = (Ret (content s 0), s') ∧ pins s' 0 = S (pins s 0) ∧
     (∀ q, 0 ≤ q → content s' q = content s q) ∧
     (∀ q, q ≠ 0 → pins s' q = pins s q)).
Proof.
  intros d s. apply fetch_transparent.
  - destruct (BufferPoolManager_new_inv 1 d) as (s0 & Hnew & Hinv & _).
    + by split_and!.
    + apply (bool_decide_unpack _). vm_compute. exact I.
    + injection Hnew as <-. exact Hinv.
  - apply (bool_decide_unpack _). vm_compute. exact I.
Defined.

(** C23: when every page that was modified is marked dirty, FlushAllPages, in
    whatever order the hash table yields the pages, makes the file hold the
    content of every page: a pool opened later on that file sees the same
    contents; the pool itself keeps its contents and pins. *)
Theorem flush_all_durable s iteration n :
  pool_inv None s → (∀ p, coherent s p) → iterates iteration →
  ∃ s' s2, FlushAllPages iteration s = (Ret tt, s') ∧ pool_inv None s' ∧
    (∀ q, 0 ≤ q → content s' q = content s q) ∧ (∀ q, pins s' q = pins s q) ∧
    (∀ q, 0 ≤ q → disk_page (disk_manager_ s') q = content s q) ∧
    BufferPoolManager_new n (Some (disk_manager_ s')) = Ret s2 ∧
    (∀ q, 0 ≤ q → content s2 q = content s q).
Proof.
  intros Hinv Hcoh Hit.
  destruct (proj1 (wp_run _ _ _) (FlushEntries_spec s (iteration (page_table_ s)) Hinv Hcoh
    ltac:(intros p i; by apply iterates_elem))) as ([] & s' & Hrun & I' & C & N & _ & D).
  destruct (BufferPoolManager_new_inv n (disk_manager_ s') (inv_disk _ _ I') (inv_alloc _ _ I'))
    as (s2 & Hnew & _ & _ & _ & _ & C2).
  exists s', s2. split_and!; try done. intros q Hq. by rewrite C2, D.
Qed.

(** The page written is in a dirty frame and on the disk after the flush. *)
Lemma flush_all_durable_witness :
  disk_page small_disk 0 ≠ small_data ∧
  ∃ s', FlushAllPages map_to_list small_dirty = (Ret tt, s') ∧
    disk_page (disk_manager_ s') 0 = small_data.
Proof.
  split; [vm_compute; discriminate|].
  destruct (flush_all_durable small_dirty map_to_list 1) as (s' & s2 & Hrun & _ & _ & _ & Hd & _).
  - apply (pool_steps_inv small_pool); [|exact small_steps].
    destruct (BufferPoolManager_new_inv 1 small_disk) as (s0 & Hnew & Hinv & _).
    + by split_and!.
    + apply (bool_decide_unpack _). vm_compute. exact I.
    + injection Hnew as <-. exact Hinv.
  - intros p f Hf Hno. unfold frame_of in Hf.
    replace (page_table_ small_dirty) with ({[0 := 0%nat]} : gmap Z nat) in Hf by (vm_compute; reflexivity).
    destruct (decide (p = 0)) as [->|Hp]; [|by rewrite lookup_singleton_ne in Hf by done].
    rewrite lookup_singleton_eq in Hf. exfalso.
    assert (is_dirty <$> frames_ small_dirty !! 0%nat = Some true) as Hdirty by (vm_compute; reflexivity).
    simpl in Hf. rewrite Hf in Hdirty. simpl in Hdirty. congruence.
  - exact map_to_list_iterates.
  - exists s'. split; [exact Hrun|]. rewrite (Hd 0) by done. vm_compute. reflexivity.
Defined.

(** A fetch of an id below -1 is not stopped by the test for the invalid id:
    the disk manager throws, and the frame that was taken for the page is lost,
    as it is neither free, nor in the table, nor in the LRU list any more. *)
Theorem fetch_negative_leaks_frame s p l i :
  pool_inv None s → p < -1 → free_frames_ s = l ++ [i] →
  FetchPage p s = (Throw (runtime_error "invalid page read request"), set_free l s) ∧
  i ∉ l ∧ i ∉ lru_ s ∧ ∀ q, page_table_ s !! q ≠ Some i.
Proof.
  intros Hinv Hp Hfree.
  assert (i ∈ free_frames_ s) as Hi by (rewrite Hfree; apply elem_of_app; right; by left).
  destruct (inv_free _ _ Hinv i Hi) as [Hlt Hno].
  destruct (lookup_lt_is_Some_2 _ _ Hlt) as [f Hf]. split_and!; [|..|done].
  - assert (page_table_ s !! p = None) as Ht.
    { destruct (page_table_ s !! p) eqn:E; [|done]. apply (resident_nonneg Hinv) in E. lia. }
    assert (AcquireFrame s = (Ret i, set_free l s)) as Hacq.
    { unfold AcquireFrame, mbind, M_bind, gets, modify. rewrite Hfree, last_snoc. cbv beta iota.
      rewrite Hfree, length_app. cbn [length]. by rewrite Nat.add_sub, take_app_length. }
    unfold FetchPage, INVALID_PAGE_ID. rewrite (proj2 (Z.eqb_neq p (-1))) by lia.
    unfold mbind at 1, M_bind at 1, gets at 1. rewrite Ht.
    erewrite bind_ret by exact Hacq.
    unfold mbind at 1, M_bind at 1, gets at 1. rewrite decide_False by (simpl; lia).
    erewrite bind_ret by by apply frame_at_run.
    apply bind_throw. unfold on_disk, zoom, ReadPage.
    by rewrite (proj2 (Z.ltb_lt p 0)) by lia.
  - pose proof (inv_free_nodup _ _ Hinv) as Hnd. rewrite Hfree in Hnd.
    apply NoDup_app in Hnd as (_ & H & _). intros Hil. apply (H i Hil). by left.
  - intros (q & g & Hq & _)%(inv_lru _ _ Hinv). by apply (Hno q).
Qed.

Lemma fetch_negative_leaks_frame_witness :
  let d := mkDisk (mkFile [] true true true) 1 [] 0 in
  let s := mkPool d [Frame_new] ∅ [0%nat] [] [None] in
  FetchPage (-2) s = (Throw (runtime_error "invalid page read request"), set_free [] s) ∧
  0%nat ∉ ([] : list nat) ∧ 0%nat ∉ lru_ s ∧ ∀ q, page_table_ s !! q ≠ Some 0%nat.
Proof.
  intros d s. apply fetch_negative_leaks_frame.
  - destruct (BufferPoolManager_new_inv 1 d) as (s0 & Hnew & Hinv & _).
    + by split_and!.
    + apply (bool_decide_unpack _). vm_compute. exact I.
    + injection Hnew as <-. exact Hinv.
  - lia.
  - done.
Defined.
