(* ===== verification/BPlusTreeNode.v ===== *)
(** * B+ tree nodes and their page format
    (src/storage/bplus_tree_node.h, src/storage/bplus_tree.cpp)

    The in-memory node and the two functions that write it to a page and read
    it back.  [SerializeNode] runs on the bytes of the page, which it changes;
    [DeserializeNode] leaves them. *)

From S2P Require Export DiskManager.

Local Open Scope Z_scope.

Definition MAX_KEYS : nat := 4.

Record BPlusTreeNode := mkNode {
  is_leaf : bool;
  node_page_id : Z;
  parent_id : Z;
  keys : list Z;
  values : list Z;
  children : list Z;
  next_leaf : Z;
}.

(** A default-constructed node. *)
Definition BPlusTreeNode_new : BPlusTreeNode :=
  mkNode true INVALID_PAGE_ID INVALID_PAGE_ID [] [] [] INVALID_PAGE_ID.

#[export] Instance BPlusTreeNode_eq_dec : EqDecision BPlusTreeNode.
Proof. solve_decision. Defined.

Definition set_page_id (p : Z) (n : BPlusTreeNode) : BPlusTreeNode :=
  mkNode (is_leaf n) p (parent_id n) (keys n) (values n) (children n) (next_leaf n).
Definition set_parent (p : Z) (n : BPlusTreeNode) : BPlusTreeNode :=
  mkNode (is_leaf n) (node_page_id n) p (keys n) (values n) (children n) (next_leaf n).
Definition set_keys (ks : list Z) (n : BPlusTreeNode) : BPlusTreeNode :=
  mkNode (is_leaf n) (node_page_id n) (parent_id n) ks (values n) (children n) (next_leaf n).
Definition set_values (vs : list Z) (n : BPlusTreeNode) : BPlusTreeNode :=
  mkNode (is_leaf n) (node_page_id n) (parent_id n) (keys n) vs (children n) (next_leaf n).
Definition set_children (cs : list Z) (n : BPlusTreeNode) : BPlusTreeNode :=
  mkNode (is_leaf n) (node_page_id n) (parent_id n) (keys n) (values n) cs (next_leaf n).
Definition set_next (p : Z) (n : BPlusTreeNode) : BPlusTreeNode :=
  mkNode (is_leaf n) (node_page_id n) (parent_id n) (keys n) (values n) (children n) p.

(** ** SerializeNode *)

Definition kNodeMagic : Z := 0x51444231.

(** The condition under which [SerializeNode] refuses the node. *)
Definition node_invalid (node : BPlusTreeNode) : bool :=
  bool_decide (MAX_KEYS < length (keys node))%nat ||
  (is_leaf node && negb (bool_decide (length (values node) = length (keys node)))) ||
  (negb (is_leaf node) &&
   negb (bool_decide (length (children node) = S (length (keys node))))).

Definition WriteFields (node : BPlusTreeNode) : M wbuf unit :=
  write_le 4 kNodeMagic ;;
  write_le 1 (if is_leaf node then 1 else 0) ;;
  write_le 4 (node_page_id node) ;;
  write_le 4 (parent_id node) ;;
  write_le 4 (next_leaf node) ;;
  write_le 4 (to_unsigned 32 (Z.of_nat (length (keys node)))) ;;
  for_each (keys node) (write_le 8) ;;
  if is_leaf node then for_each (values node) (write_le 8)
  else for_each (children node) (write_le 4).

Definition SerializeNode (node : BPlusTreeNode) : M bytes unit :=
  if node_invalid node then throw (runtime_error "invalid B+ tree node") else
  modify (λ _, zero_page) ;;
  zoom (λ data, WBuf data 0) (λ w _, wb_data w) (WriteFields node).

(** ** DeserializeNode *)

(** A loop of [count] reads, each pushed back. *)
Fixpoint read_many {A} (count : nat) (m : M rbuf A) : M rbuf (list A) :=
  match count with
  | O => mret []
  | S count => a ← m; l ← read_many count m; mret (a :: l)
  end.

Definition read_signed (n : nat) : M rbuf Z :=
  z ← read_le n; mret (to_signed (8 * Z.of_nat n) z).

Definition ReadFields : M rbuf BPlusTreeNode :=
  magic ← read_le 4;
  if negb (magic =? kNodeMagic) then throw (runtime_error "invalid B+ tree page") else
  leaf ← read_le 1;
  let is_leaf := negb (leaf =? 0) in
  page_id ← read_signed 4;
  parent_id ← read_signed 4;
  next_leaf ← read_signed 4;
  key_count ← read_le 4;
  if Z.of_nat MAX_KEYS <? key_count then throw (runtime_error "invalid B+ tree key count") else
  keys ← read_many (Z.to_nat key_count) (read_signed 8);
  if is_leaf then
    values ← read_many (Z.to_nat key_count) (read_signed 8);
    mret (mkNode is_leaf page_id parent_id keys values [] next_leaf)
  else
    children ← read_many (S (Z.to_nat key_count)) (read_signed 4);
    mret (mkNode is_leaf page_id parent_id keys [] children next_leaf).

Definition DeserializeNode : M bytes BPlusTreeNode :=
  zoom (λ data, RBuf data 0) (λ _ data, data) ReadFields.

(** ** The page of a node *)

Definition fields_image (n : BPlusTreeNode) : bytes :=
  le_bytes 4 kNodeMagic ++
  le_bytes 1 (if is_leaf n then 1 else 0) ++
  le_bytes 4 (node_page_id n) ++
  le_bytes 4 (parent_id n) ++
  le_bytes 4 (next_leaf n) ++
  le_bytes 4 (to_unsigned 32 (Z.of_nat (length (keys n)))) ++
  mjoin (le_bytes 8 <$> keys n) ++
  (if is_leaf n then mjoin (le_bytes 8 <$> values n) else mjoin (le_bytes 4 <$> children n)).

Arguments fields_image : simpl never.

Definition node_image (n : BPlusTreeNode) : bytes :=
  fields_image n ++ replicate (PAGE_SIZE - length (fields_image n)) x00.

(** What a node must satisfy to survive the page format: machine-width fields,
    at most [MAX_KEYS] keys, and only the vector its kind uses. *)
Record node_ok (n : BPlusTreeNode) : Prop := {
  ok_page : in_signed 32 (node_page_id n);
  ok_parent : in_signed 32 (parent_id n);
  ok_next : in_signed 32 (next_leaf n);
  ok_keys : Forall (in_signed 64) (keys n);
  ok_values : Forall (in_signed 64) (values n);
  ok_children : Forall (in_signed 32) (children n);
  ok_count : (length (keys n) ≤ MAX_KEYS)%nat;
  ok_leaf : is_leaf n = true → length (values n) = length (keys n) ∧ children n = [];
  ok_node : is_leaf n = false → length (children n) = S (length (keys n)) ∧ values n = [];
}.

Lemma join_cons (b : bytes) (l : list bytes) : mjoin (b :: l) = b ++ mjoin l.
Proof. done. Qed.

Lemma length_join_le k l : length (mjoin (le_bytes k <$> l)) = (k * length l)%nat.
Proof.
  induction l as [|z l IH]; [simpl; lia|]. rewrite fmap_cons, join_cons.
  rewrite length_app, length_le_bytes, IH, length_cons. lia.
Qed.

Lemma length_fields_image n :
  node_ok n → (length (fields_image n) ≤ 85)%nat.
Proof.
  intros []. unfold fields_image, MAX_KEYS in *.
  rewrite !length_app, !length_le_bytes, length_join_le.
  destruct (is_leaf n); rewrite length_join_le.
  - destruct ok_leaf0; [done|]. lia.
  - destruct ok_node0; [done|]. lia.
Qed.

Lemma length_node_image n : node_ok n → length (node_image n) = PAGE_SIZE.
Proof.
  intros Hn. pose proof (length_fields_image n Hn).
  unfold node_image. rewrite length_app, length_replicate, PAGE_SIZE_eq. lia.
Qed.

Lemma node_ok_valid n : node_ok n → node_invalid n = false.
Proof.
  intros []. unfold node_invalid. rewrite bool_decide_eq_false_2 by lia.
  destruct (is_leaf n); simpl.
  - destruct ok_leaf0; [done|]. by rewrite bool_decide_eq_true_2.
  - destruct ok_node0; [done|]. by rewrite bool_decide_eq_true_2.
Qed.

Lemma writes_fields n : writes (WriteFields n) (fields_image n).
Proof.
  unfold WriteFields, fields_image.
  repeat apply writes_seq; try apply writes_le.
  - apply writes_for_each. intros. apply writes_le.
  - destruct (is_leaf n); apply writes_for_each; intros; apply writes_le.
Qed.

Lemma SerializeNode_image n page :
  node_ok n → SerializeNode n page = (Ret tt, node_image n).
Proof.
  intros Hn. unfold SerializeNode. rewrite node_ok_valid by done.
  unfold mbind, M_bind, modify, zoom.
  pose proof (length_fields_image n Hn) as Hl.
  change (WBuf zero_page 0) with (wbuf_new PAGE_SIZE).
  replace (wbuf_new PAGE_SIZE) with
    (wbuf_at [] (length (fields_image n) + (PAGE_SIZE - length (fields_image n)))).
  - by rewrite writes_fields.
  - change (wbuf_new PAGE_SIZE) with (wbuf_at [] PAGE_SIZE). f_equal. rewrite PAGE_SIZE_eq. lia.
Qed.

(** ** Reading a page back *)

Lemma read_signed_at k pre z post :
  (0 < k)%nat → in_signed (8 * Z.of_nat k) z →
  read_signed k (rbuf_at pre (le_bytes k z ++ post)) =
  (Ret z, rbuf_at (pre ++ le_bytes k z) post).
Proof.
  intros Hk Hz. unfold read_signed.
  erewrite bind_ret by (apply read_le_raw, length_le_bytes).
  unfold mret, M_ret. by rewrite to_signed_le_val.
Qed.

Lemma read_many_signed k l pre post :
  (0 < k)%nat → Forall (in_signed (8 * Z.of_nat k)) l →
  read_many (length l) (read_signed k) (rbuf_at pre (mjoin (le_bytes k <$> l) ++ post)) =
  (Ret l, rbuf_at (pre ++ mjoin (le_bytes k <$> l)) post).
Proof.
  intros Hk Hl. revert pre. induction Hl as [|z l Hz Hl IH]; intros pre; simpl.
  - by rewrite app_nil_r.
  - rewrite <- app_assoc. erewrite bind_ret by by apply read_signed_at.
    erewrite bind_ret by apply IH. by rewrite <- app_assoc.
Qed.

Lemma key_count_val n :
  (n ≤ MAX_KEYS)%nat → le_val (le_bytes 4 (to_unsigned 32 (Z.of_nat n))) = Z.of_nat n.
Proof.
  intros Hn. unfold MAX_KEYS in Hn. rewrite to_unsigned_small by (unfold in_unsigned; lia).
  apply le_val_small. lia.
Qed.

Lemma DeserializeNode_image n :
  node_ok n → DeserializeNode (node_image n) = (Ret n, node_image n).
Proof.
  intros Hn. pose proof Hn as [Hp Hpa Hx Hks Hvs Hcs Hcount Hleaf Hnode].
  unfold DeserializeNode, zoom. unfold node_image at 1. set (tail := replicate _ _).
  rewrite rbuf_start. unfold fields_image. rewrite <- !app_assoc.
  unfold ReadFields.
  erewrite bind_ret by (apply read_le_raw, length_le_bytes).
  rewrite le_val_small by (unfold kNodeMagic; lia). cbn [negb]. rewrite Z.eqb_refl. cbn [negb].
  erewrite bind_ret by (apply read_le_raw, length_le_bytes).
  rewrite le_val_small by (destruct (is_leaf n); lia).
  do 3 (erewrite bind_ret by (apply read_signed_at; [lia|done])).
  erewrite bind_ret by (apply read_le_raw, length_le_bytes).
  rewrite key_count_val by done. destruct (Z.ltb_spec (Z.of_nat MAX_KEYS) (Z.of_nat (length (keys n)))); [lia|].
  rewrite Nat2Z.id. erewrite bind_ret by (apply read_many_signed; [lia|done]).
  destruct n as [lf p pa ks vs cs nx].
  cbn [is_leaf keys values children next_leaf node_page_id parent_id] in *.
  destruct lf; change (negb (1 =? 0)) with true; change (negb (0 =? 0)) with false; cbv beta iota zeta.
  - destruct Hleaf as [Hlen ->]; [done|]. rewrite <- Hlen.
    by erewrite bind_ret by (apply read_many_signed; [lia|done]).
  - destruct Hnode as [Hlen ->]; [done|].
    change (a ← read_signed 4; l ← read_many (length ks) (read_signed 4); mret (a :: l))
      with (read_many (S (length ks)) (read_signed 4)).
    rewrite <- Hlen. by erewrite bind_ret by (apply read_many_signed; [lia|done]).
Qed.

(** ** Properties *)

(** C31: a node of at most four keys with fields of their machine width is written
    over the whole page, whatever the page held, and reads back as itself,
    without a read or write outside the page. *)
Theorem node_roundtrip n page :
  node_ok n →
  ∃ page', SerializeNode n page = (Ret tt, page') ∧ length page' = PAGE_SIZE ∧
    DeserializeNode page' = (Ret n, page').
Proof.
  intros Hn. exists (node_image n). split_and!.
  - by apply SerializeNode_image.
  - by apply length_node_image.
  - by apply DeserializeNode_image.
Qed.

Lemma node_roundtrip_witness :
  let n := mkNode false 7 3 [10; -20] [] [1; 2; 5] (-1) in
  ∃ page', SerializeNode n (replicate 4096 xff) = (Ret tt, page') ∧ length page' = PAGE_SIZE ∧
    DeserializeNode page' = (Ret n, page').
Proof.
  apply node_roundtrip. split; simpl; try done; repeat constructor; lia || done.
Defined.
