(* ===== verification/BPlusTree.v ===== *)
(** * The B+ tree (src/storage/bplus_tree.{h,cpp})

    The operations of the class [BPlusTree], over any page store.  The state
    is the root id and the store.  A loop or recursion that follows page ids
    is given as many iterations as the store has handed out ids; running out
    of them is the outcome [Diverge], which the theorems about the tree
    exclude. *)

From S2P Require Export BPlusTreeNode PageStore.

Local Open Scope Z_scope.

Record BPlusTree (S : Type) := mkTree {
  root_page_id_ : Z;
  buffer_pool_manager_ : S;
}.
Arguments mkTree {S} _ _.
Arguments root_page_id_ {S} _.
Arguments buffer_pool_manager_ {S} _.

Section BPlusTree.
Context {S : Type} `{PageStore S}.
Notation T := (BPlusTree S).

Definition set_root (p : Z) (t : T) : T := mkTree p (buffer_pool_manager_ t).
Definition set_pool (s : S) (t : T) : T := mkTree (root_page_id_ t) s.
Definition on_pool {A} (m : M S A) : M T A := zoom buffer_pool_manager_ set_pool m.

(** The constructor, for a buffer pool manager that may be null. *)
Definition BPlusTree_new (buffer_pool_manager : option S) : outcome T :=
  match buffer_pool_manager with
  | None => Throw (invalid_argument "buffer pool manager must not be null")
  | Some s => Ret (mkTree INVALID_PAGE_ID s)
  end.

(** ** Nodes *)

Definition ReadNode (page_id : Z) : M T BPlusTreeNode :=
  node ← on_pool (with_page page_id false DeserializeNode);
  match node with
  | None => throw (runtime_error "buffer pool has no evictable frame")
  | Some node => mret node
  end.

Definition WriteNode (node : BPlusTreeNode) : M T unit :=
  page ← on_pool (with_page (node_page_id node) true (SerializeNode node));
  match page with
  | None => throw (runtime_error "buffer pool has no evictable frame")
  | Some _ => mret tt
  end.

Definition CreateNode (node : BPlusTreeNode) : M T Z :=
  page ← on_pool (with_new_page (λ page_id, SerializeNode (set_page_id page_id node)));
  match page with
  | None => throw (runtime_error "buffer pool has no free frame")
  | Some (page_id, _) => mret page_id
  end.

(** The iterations given to a loop that follows page ids. *)
Definition iterations : M T nat := gets (λ t, page_limit (buffer_pool_manager_ t)).

Definition SetChildrenParent (children : list Z) (parent_id : Z) : M T unit :=
  for_each children (λ child_id,
    child ← ReadNode child_id;
    WriteNode (set_parent parent_id child)).

(** ** Descent *)

Fixpoint FindLeaf_loop (fuel : nat) (current key : Z) : M T Z :=
  if current =? INVALID_PAGE_ID then mret INVALID_PAGE_ID else
  match fuel with
  | O => diverge
  | Datatypes.S fuel =>
      node ← ReadNode current;
      if is_leaf node then mret current else
      child ← at_ (children node) (upper_bound (keys node) key);
      FindLeaf_loop fuel child key
  end.

Definition FindLeaf (key : Z) : M T Z :=
  fuel ← iterations;
  current ← gets root_page_id_;
  FindLeaf_loop fuel current key.

Fixpoint FirstKey_loop (fuel : nat) (node : BPlusTreeNode) : M T Z :=
  if is_leaf node then vfront (keys node) else
  match fuel with
  | O => diverge
  | Datatypes.S fuel =>
      child ← vfront (children node);
      node ← ReadNode child;
      FirstKey_loop fuel node
  end.

Definition FirstKey (page_id : Z) : M T Z :=
  fuel ← iterations;
  node ← ReadNode page_id;
  FirstKey_loop fuel node.

Fixpoint PropagateMinimumChange_loop (fuel : nat) (current : Z) : M T unit :=
  root ← gets root_page_id_;
  if current =? root then mret tt else
  match fuel with
  | O => diverge
  | Datatypes.S fuel =>
      node ← ReadNode current;
      parent ← ReadNode (parent_id node);
      match find_pos (children parent) current with
      | Datatypes.S i =>
          first ← FirstKey current;
          ks ← vset i first (keys parent);
          WriteNode (set_keys ks parent)
      | O => PropagateMinimumChange_loop fuel (node_page_id parent)
      end
  end.

Definition PropagateMinimumChange (page_id : Z) : M T unit :=
  fuel ← iterations;
  PropagateMinimumChange_loop fuel page_id.

(** ** Search and RangeScan *)

(** [Some v] is the result [true] with [v] written through the pointer. *)
Definition Search (key : Z) : M T (option Z) :=
  root ← gets root_page_id_;
  if root =? INVALID_PAGE_ID then mret None else
  leaf_id ← FindLeaf key;
  leaf ← ReadNode leaf_id;
  let index := lower_bound (keys leaf) key in
  match keys leaf !! index with
  | Some k =>
      if k =? key then v ← at_ (values leaf) index; mret (Some v) else mret None
  | None => mret None
  end.

(** The loop over one leaf: the vector, and whether the scan returned. *)
Fixpoint ScanLeaf (start end_ : Z) (ks vs : list Z) (index : nat) (out : list (Z * Z))
    : M T (bool * list (Z * Z)) :=
  match ks with
  | [] => mret (false, out)
  | k :: ks =>
      if k <? start then ScanLeaf start end_ ks vs (Datatypes.S index) out else
      if end_ <? k then mret (true, out) else
      v ← at_ vs index;
      ScanLeaf start end_ ks vs (Datatypes.S index) (out ++ [(k, v)])
  end.

Fixpoint RangeScan_loop (fuel : nat) (start end_ leaf_id : Z) (out : list (Z * Z))
    : M T (list (Z * Z)) :=
  if leaf_id =? INVALID_PAGE_ID then mret out else
  match fuel with
  | O => diverge
  | Datatypes.S fuel =>
      leaf ← ReadNode leaf_id;
      '(stop, out) ← ScanLeaf start end_ (keys leaf) (values leaf) 0 out;
      if stop : bool then mret out else RangeScan_loop fuel start end_ (next_leaf leaf) out
  end.

(** [out] is the vector the caller passes; the result is what it holds after. *)
Definition RangeScan (start end_ : Z) (out : list (Z * Z)) : M T (list (Z * Z)) :=
  root ← gets root_page_id_;
  if (root =? INVALID_PAGE_ID) || (end_ <? start) then mret out else
  leaf_id ← FindLeaf start;
  fuel ← iterations;
  RangeScan_loop fuel start end_ leaf_id out.

(** ** Insert *)

(** The node built for a right half, and a node cut to its left half. *)
Definition new_node (leaf : bool) (parent : Z) (ks vs cs : list Z) (next : Z) : BPlusTreeNode :=
  mkNode leaf INVALID_PAGE_ID parent ks vs cs next.

Fixpoint InsertIntoParent_loop (fuel : nat) (left : BPlusTreeNode) (separator : Z)
    (right : BPlusTreeNode) : M T unit :=
  if parent_id left =? INVALID_PAGE_ID then
    root_id ← CreateNode (new_node false INVALID_PAGE_ID [separator] []
                            [node_page_id left; node_page_id right] INVALID_PAGE_ID);
    modify (set_root root_id) ;;
    WriteNode (set_parent root_id left) ;;
    WriteNode (set_parent root_id right)
  else
  match fuel with
  | O => diverge
  | Datatypes.S fuel =>
      parent ← ReadNode (parent_id left);
      let child_index := find_pos (children parent) (node_page_id left) in
      ks ← vinsert child_index separator (keys parent);
      cs ← vinsert (child_index + 1) (node_page_id right) (children parent);
      let parent := set_children cs (set_keys ks parent) in
      WriteNode (set_parent (node_page_id parent) right) ;;
      if bool_decide (length ks ≤ MAX_KEYS)%nat then WriteNode parent else
      let middle := Nat.div (length ks) 2 in
      promoted_key ← at_ ks middle;
      let new_right := new_node false (parent_id parent) (drop (middle + 1) ks) []
                         (drop (middle + 1) cs) INVALID_PAGE_ID in
      let parent := set_children (resize (middle + 1) 0 cs) (set_keys (resize middle 0 ks) parent) in
      new_id ← CreateNode new_right;
      let new_right := set_page_id new_id new_right in
      SetChildrenParent (children new_right) new_id ;;
      WriteNode parent ;;
      InsertIntoParent_loop fuel parent promoted_key new_right
  end.

Definition InsertIntoParent (left : BPlusTreeNode) (separator : Z) (right : BPlusTreeNode)
    : M T unit :=
  fuel ← iterations;
  InsertIntoParent_loop fuel left separator right.

(** The part of [Insert] that splits a leaf of five keys. *)
Definition SplitLeaf (leaf : BPlusTreeNode) : M T unit :=
  let split_index := Nat.div (length (keys leaf) + 1) 2 in
  let right := new_node true (parent_id leaf) (drop split_index (keys leaf))
                 (drop split_index (values leaf)) [] (next_leaf leaf) in
  let leaf := set_values (resize split_index 0 (values leaf))
                (set_keys (resize split_index 0 (keys leaf)) leaf) in
  right_id ← CreateNode right;
  let right := set_page_id right_id right in
  let leaf := set_next right_id leaf in
  WriteNode leaf ;;
  separator ← vfront (keys right);
  InsertIntoParent leaf separator right.

Definition Insert (key value : Z) : M T bool :=
  root ← gets root_page_id_;
  if root =? INVALID_PAGE_ID then
    root_id ← CreateNode (set_values [value] (set_keys [key] BPlusTreeNode_new));
    modify (set_root root_id) ;;
    mret true
  else
  leaf_id ← FindLeaf key;
  leaf ← ReadNode leaf_id;
  let index := lower_bound (keys leaf) key in
  if bool_decide (keys leaf !! index = Some key) then mret false else
  ks ← vinsert index key (keys leaf);
  vs ← vinsert index value (values leaf);
  let leaf := set_values vs (set_keys ks leaf) in
  if bool_decide (length (keys leaf) ≤ MAX_KEYS)%nat then
    WriteNode leaf ;;
    when (bool_decide (index = O)) (PropagateMinimumChange (node_page_id leaf)) ;;
    mret true
  else
    SplitLeaf leaf ;;
    mret true.

(** ** Delete *)

Definition MIN_KEYS : nat := Nat.div MAX_KEYS 2.

(** The four ways to refill an internal node; the borrowing ones tell whether
    they did. *)
Definition NodeBorrowLeft (node parent : BPlusTreeNode) (child_index : nat) : M T bool :=
  left_id ← at_ (children parent) (child_index - 1);
  left ← ReadNode left_id;
  if bool_decide (MIN_KEYS < length (keys left))%nat then
    separator ← at_ (keys parent) (child_index - 1);
    moved ← vback (children left);
    last_key ← vback (keys left);
    pks ← vset (child_index - 1) last_key (keys parent);
    lks ← vpop_back (keys left);
    lcs ← vpop_back (children left);
    let node := set_children (moved :: children node) (set_keys (separator :: keys node) node) in
    SetChildrenParent [moved] (node_page_id node) ;;
    WriteNode (set_children lcs (set_keys lks left)) ;;
    WriteNode node ;;
    WriteNode (set_keys pks parent) ;;
    mret true
  else mret false.

Definition NodeBorrowRight (node parent : BPlusTreeNode) (child_index : nat) : M T bool :=
  right_id ← at_ (children parent) (child_index + 1);
  right ← ReadNode right_id;
  if bool_decide (MIN_KEYS < length (keys right))%nat then
    separator ← at_ (keys parent) child_index;
    moved ← vfront (children right);
    first_key ← vfront (keys right);
    pks ← vset child_index first_key (keys parent);
    rks ← verase 0 (keys right);
    rcs ← verase 0 (children right);
    let node := set_children (children node ++ [moved]) (set_keys (keys node ++ [separator]) node) in
    SetChildrenParent [moved] (node_page_id node) ;;
    WriteNode node ;;
    WriteNode (set_children rcs (set_keys rks right)) ;;
    WriteNode (set_keys pks parent) ;;
    mret true
  else mret false.

(** [left] takes over [right]; [right_index] is the position of [right]. *)
Definition NodeMerge (left right parent : BPlusTreeNode) (right_index : nat) : M T unit :=
  separator ← at_ (keys parent) (right_index - 1);
  pks ← verase (right_index - 1) (keys parent);
  pcs ← verase right_index (children parent);
  SetChildrenParent (children right) (node_page_id left) ;;
  WriteNode (set_children (children left ++ children right)
               (set_keys (keys left ++ [separator] ++ keys right) left)) ;;
  WriteNode (set_children pcs (set_keys pks parent)) ;;
  on_pool (delete_page (node_page_id right)) ;;
  mret tt.

Fixpoint HandleInternalUnderflow_loop (fuel : nat) (page_id : Z) : M T unit :=
  match fuel with
  | O => diverge
  | Datatypes.S fuel =>
      node ← ReadNode page_id;
      root ← gets root_page_id_;
      if node_page_id node =? root then
        match keys node, children node with
        | [], first :: _ =>
            modify (set_root first) ;;
            child ← ReadNode first;
            WriteNode (set_parent INVALID_PAGE_ID child) ;;
            on_pool (delete_page (node_page_id node)) ;;
            mret tt
        | _, _ => mret tt
        end
      else
      if bool_decide (MIN_KEYS ≤ length (keys node))%nat then mret tt else
      parent ← ReadNode (parent_id node);
      let child_index := find_pos (children parent) (node_page_id node) in
      borrowed ← (if bool_decide (0 < child_index)%nat
                  then NodeBorrowLeft node parent child_index else mret false);
      if borrowed : bool then mret tt else
      borrowed ← (if bool_decide (child_index + 1 < length (children parent))%nat
                  then NodeBorrowRight node parent child_index else mret false);
      if borrowed : bool then mret tt else
      (if bool_decide (0 < child_index)%nat then
         left_id ← at_ (children parent) (child_index - 1);
         left ← ReadNode left_id;
         NodeMerge left node parent child_index
       else
         right_id ← at_ (children parent) (child_index + 1);
         right ← ReadNode right_id;
         NodeMerge node right parent (child_index + 1)) ;;
      HandleInternalUnderflow_loop fuel (node_page_id parent)
  end.

Definition HandleInternalUnderflow (page_id : Z) : M T unit :=
  fuel ← iterations;
  HandleInternalUnderflow_loop fuel page_id.

Definition LeafBorrowLeft (leaf parent : BPlusTreeNode) (child_index : nat) : M T bool :=
  left_id ← at_ (children parent) (child_index - 1);
  left ← ReadNode left_id;
  if bool_decide (MIN_KEYS < length (keys left))%nat then
    k ← vback (keys left);
    v ← vback (values left);
    lks ← vpop_back (keys left);
    lvs ← vpop_back (values left);
    let leaf := set_values (v :: values leaf) (set_keys (k :: keys leaf) leaf) in
    first ← vfront (keys leaf);
    pks ← vset (child_index - 1) first (keys parent);
    WriteNode (set_values lvs (set_keys lks left)) ;;
    WriteNode leaf ;;
    WriteNode (set_keys pks parent) ;;
    mret true
  else mret false.

Definition LeafBorrowRight (leaf parent : BPlusTreeNode) (child_index : nat) : M T bool :=
  right_id ← at_ (children parent) (child_index + 1);
  right ← ReadNode right_id;
  if bool_decide (MIN_KEYS < length (keys right))%nat then
    k ← vfront (keys right);
    v ← vfront (values right);
    rks ← verase 0 (keys right);
    rvs ← verase 0 (values right);
    first ← vfront rks;
    pks ← vset child_index first (keys parent);
    WriteNode (set_values (values leaf ++ [v]) (set_keys (keys leaf ++ [k]) leaf)) ;;
    WriteNode (set_values rvs (set_keys rks right)) ;;
    WriteNode (set_keys pks parent) ;;
    mret true
  else mret false.

Definition LeafMerge (left right parent : BPlusTreeNode) (right_index : nat) : M T unit :=
  pks ← verase (right_index - 1) (keys parent);
  pcs ← verase right_index (children parent);
  WriteNode (set_next (next_leaf right)
               (set_values (values left ++ values right)
                  (set_keys (keys left ++ keys right) left))) ;;
  WriteNode (set_children pcs (set_keys pks parent)) ;;
  on_pool (delete_page (node_page_id right)) ;;
  mret tt.

(** The part of [Delete] for a leaf left with too few keys. *)
Definition LeafUnderflow (leaf : BPlusTreeNode) : M T unit :=
  parent ← ReadNode (parent_id leaf);
  let child_index := find_pos (children parent) (node_page_id leaf) in
  borrowed ← (if bool_decide (0 < child_index)%nat
              then LeafBorrowLeft leaf parent child_index else mret false);
  if borrowed : bool then mret tt else
  borrowed ← (if bool_decide (child_index + 1 < length (children parent))%nat
              then LeafBorrowRight leaf parent child_index else mret false);
  if borrowed : bool then mret tt else
  (if bool_decide (0 < child_index)%nat then
     left_id ← at_ (children parent) (child_index - 1);
     left ← ReadNode left_id;
     LeafMerge left leaf parent child_index
   else
     right_id ← at_ (children parent) (child_index + 1);
     right ← ReadNode right_id;
     LeafMerge leaf right parent (child_index + 1)) ;;
  HandleInternalUnderflow (node_page_id parent).

Definition Delete (key : Z) : M T bool :=
  root ← gets root_page_id_;
  if root =? INVALID_PAGE_ID then mret false else
  leaf_id ← FindLeaf key;
  leaf ← ReadNode leaf_id;
  let index := lower_bound (keys leaf) key in
  if negb (bool_decide (keys leaf !! index = Some key)) then mret false else
  ks ← verase index (keys leaf);
  vs ← verase index (values leaf);
  let leaf := set_values vs (set_keys ks leaf) in
  if (node_page_id leaf =? root) || bool_decide (MIN_KEYS ≤ length ks)%nat then
    WriteNode leaf ;;
    when (bool_decide (ks ≠ [] ∧ index = O)) (PropagateMinimumChange (node_page_id leaf)) ;;
    mret true
  else
    LeafUnderflow leaf ;;
    mret true.
End BPlusTree.
