(* ===== verification/TreeShape.v ===== *)
(** * The tree a B+ tree's pages represent

    The mathematical tree behind the nodes linked by page ids: its cells (the
    nodes with their pages), contexts (a tree with a hole, as the code sees it
    when it walks up through parent ids), the in-order sequence of leaves and
    separators, and the shape every B+ tree keeps. *)

From S2P Require Export BPlusTreeNode.

Local Open Scope Z_scope.

Inductive tree :=
  | Leaf (p : Z) (kvs : list (Z * Z)) (nxt : Z)
  | Node (p : Z) (ks : list Z) (ts : list tree).

Definition pid (t : tree) : Z := match t with Leaf p _ _ | Node p _ _ => p end.
Definition count (t : tree) : nat :=
  match t with Leaf _ kvs _ => length kvs | Node _ ks _ => length ks end.

(** ** Cells *)

Abbreviation cell := (Z * BPlusTreeNode)%type.

Definition inner (p par : Z) (ks cs : list Z) : BPlusTreeNode :=
  mkNode false p par ks [] cs INVALID_PAGE_ID.

(** The node of the root of [t] under the parent [par]. *)
Definition enc (par : Z) (t : tree) : BPlusTreeNode :=
  match t with
  | Leaf p kvs nxt => mkNode true p par kvs.*1 kvs.*2 [] nxt
  | Node p ks ts => inner p par ks (map pid ts)
  end.

Fixpoint flat (par : Z) (t : tree) : list cell :=
  (pid t, enc par t) ::
  match t with
  | Leaf _ _ _ => []
  | Node p _ ts => concat (map (flat p) ts)
  end.

Definition flats (par : Z) (ts : list tree) : list cell := concat (map (flat par) ts).

Lemma flat_node par p ks ts :
  flat par (Node p ks ts) = (p, inner p par ks (map pid ts)) :: flats p ts.
Proof. done. Qed.

Lemma flats_nil par : flats par [] = [].
Proof. done. Qed.

Lemma flats_cons par t ts : flats par (t :: ts) = flat par t ++ flats par ts.
Proof. done. Qed.

Lemma flats_app par ts1 ts2 : flats par (ts1 ++ ts2) = flats par ts1 ++ flats par ts2.
Proof. unfold flats. by rewrite map_app, concat_app. Qed.

(** Everything below the root does not depend on the parent. *)
Definition below (t : tree) : list cell :=
  match t with Leaf _ _ _ => [] | Node p _ ts => flats p ts end.

Lemma flat_below par t : flat par t = (pid t, enc par t) :: below t.
Proof. by destruct t. Qed.

Lemma enc_set_parent q par t : set_parent q (enc par t) = enc q t.
Proof. by destruct t. Qed.

Lemma enc_page par t : node_page_id (enc par t) = pid t.
Proof. by destruct t. Qed.

(** ** In-order sequence *)

Inductive block :=
  | B (p : Z) (kvs : list (Z * Z)) (nxt : Z)
  | Sp (k : Z).

Fixpoint weave (bs : list (list block)) (ks : list Z) : list block :=
  match bs, ks with
  | b :: bs, k :: ks => b ++ Sp k :: weave bs ks
  | b :: _, [] => b
  | [], _ => []
  end.

Arguments weave !bs !ks : simpl nomatch.

Fixpoint inorder (t : tree) : list block :=
  match t with
  | Leaf p kvs nxt => [B p kvs nxt]
  | Node _ ks ts => weave (map inorder ts) ks
  end.

Lemma weave_app bs1 bs2 ks1 k ks2 :
  length bs1 = S (length ks1) →
  weave (bs1 ++ bs2) (ks1 ++ k :: ks2) = weave bs1 ks1 ++ Sp k :: weave bs2 ks2.
Proof.
  revert bs1. induction ks1 as [|k1 ks1 IH]; intros [|b bs1] Hl; simpl in *; try lia.
  - destruct bs1; [done|simpl in *; lia].
  - rewrite IH by lia. by rewrite <- app_assoc.
Qed.

(** The entries, the leaves, and the order: a separator [k] comes before the
    key [k] and after the keys below [k]. *)
Definition block_entries (b : block) : list (Z * Z) :=
  match b with B _ kvs _ => kvs | Sp _ => [] end.
Definition block_leaves (b : block) : list (Z * Z) :=
  match b with B p _ n => [(p, n)] | Sp _ => [] end.
Definition key_code (k : Z) : Z := 2 * k + 1.
Definition sep_code (k : Z) : Z := 2 * k.
Definition block_codes (b : block) : list Z :=
  match b with B _ kvs _ => key_code <$> kvs.*1 | Sp k => [sep_code k] end.

Definition entries (bs : list block) : list (Z * Z) := concat (map block_entries bs).
Definition leaves (bs : list block) : list (Z * Z) := concat (map block_leaves bs).
Definition codes (bs : list block) : list Z := concat (map block_codes bs).

Lemma entries_app bs1 bs2 : entries (bs1 ++ bs2) = entries bs1 ++ entries bs2.
Proof. unfold entries. by rewrite map_app, concat_app. Qed.
Lemma leaves_app bs1 bs2 : leaves (bs1 ++ bs2) = leaves bs1 ++ leaves bs2.
Proof. unfold leaves. by rewrite map_app, concat_app. Qed.
Lemma codes_app bs1 bs2 : codes (bs1 ++ bs2) = codes bs1 ++ codes bs2.
Proof. unfold codes. by rewrite map_app, concat_app. Qed.
Lemma entries_cons b bs : entries (b :: bs) = block_entries b ++ entries bs.
Proof. done. Qed.
Lemma leaves_cons b bs : leaves (b :: bs) = block_leaves b ++ leaves bs.
Proof. done. Qed.
Lemma codes_cons b bs : codes (b :: bs) = block_codes b ++ codes bs.
Proof. done. Qed.

Create Rewrite HintDb qdb_blocks.
#[export] Hint Rewrite entries_app leaves_app codes_app entries_cons leaves_cons codes_cons
  : qdb_blocks.

(** The leaf chain: each leaf names the next one, the last one [e]. *)
Definition head_id (e : Z) (l : list (Z * Z)) : Z :=
  match l with [] => e | (p, _) :: _ => p end.

Fixpoint linked (e : Z) (l : list (Z * Z)) : Prop :=
  match l with
  | [] => True
  | (_, n) :: l => n = head_id e l ∧ linked e l
  end.

Lemma linked_app e l1 l2 : linked e (l1 ++ l2) ↔ linked (head_id e l2) l1 ∧ linked e l2.
Proof.
  induction l1 as [|[p n] l1 IH]; simpl; [tauto|]. rewrite IH.
  assert (head_id e (l1 ++ l2) = head_id (head_id e l2) l1) as -> by by destruct l1 as [|[]].
  tauto.
Qed.

Lemma head_id_app e l1 l2 : head_id e (l1 ++ l2) = head_id (head_id e l2) l1.
Proof. by destruct l1 as [|[]]. Qed.

(** ** Shape *)

(** All leaves at depth [h]; every node but the root has 2 to 4 keys. *)
Fixpoint shape (h : nat) (t : tree) : Prop :=
  (2 ≤ count t ≤ 4)%nat ∧
  match h, t with
  | O, Leaf _ _ _ => True
  | S h, Node _ ks ts => length ts = S (length ks) ∧ Forall (shape h) ts
  | _, _ => False
  end.

(** The same without the bound on the number of keys at the top. *)
Definition top_shape (h : nat) (t : tree) : Prop :=
  match h, t with
  | O, Leaf _ _ _ => True
  | S h, Node _ ks ts => length ts = S (length ks) ∧ Forall (shape h) ts
  | _, _ => False
  end.

Lemma shape_top h t : shape h t ↔ (2 ≤ count t ≤ 4)%nat ∧ top_shape h t.
Proof. by destruct h. Qed.

Definition root_shape (h : nat) (t : tree) : Prop :=
  top_shape h t ∧ (count t ≤ 4)%nat ∧ (h ≠ O → 1 ≤ count t)%nat.

Lemma shape_root h t : shape h t → root_shape h t.
Proof. intros [Hc Ht]%shape_top. split_and!; [done|lia|lia]. Qed.

(** ** Contexts *)

Record frame := Frm {
  fpage : Z;
  flefts : list (tree * Z);
  frights : list (Z * tree);
}.

Definition fkeys (f : frame) : list Z := (flefts f).*2 ++ (frights f).*1.
Definition fcount (f : frame) : nat := length (flefts f) + length (frights f).

Definition fill (f : frame) (t : tree) : tree :=
  Node (fpage f) (fkeys f) ((flefts f).*1 ++ t :: (frights f).*2).

Abbreviation context := (list frame).

(** The innermost frame first. *)
Fixpoint plug (c : context) (t : tree) : tree :=
  match c with [] => t | f :: c => plug c (fill f t) end.

Definition cpar (c : context) : Z :=
  match c with [] => INVALID_PAGE_ID | f :: _ => fpage f end.

Definition fnode (par : Z) (f : frame) (hole : Z) : BPlusTreeNode :=
  inner (fpage f) par (fkeys f) (map pid (flefts f).*1 ++ hole :: map pid (frights f).*2).

Definition fsides (f : frame) : list cell :=
  flats (fpage f) (flefts f).*1 ++ flats (fpage f) (frights f).*2.

(** The cells of a context whose hole holds the page [hole]. *)
Fixpoint cflat (c : context) (hole : Z) : list cell :=
  match c with
  | [] => []
  | f :: c => (fpage f, fnode (cpar c) f hole) :: fsides f ++ cflat c (fpage f)
  end.

Lemma enc_fill par f t : enc par (fill f t) = fnode par f (pid t).
Proof. unfold fill, enc, fnode. by rewrite map_app. Qed.

Lemma flat_fill par f t :
  flat par (fill f t) ≡ₚ flat (fpage f) t ++ (fpage f, fnode par f (pid t)) :: fsides f.
Proof.
  rewrite flat_below, enc_fill. simpl. rewrite flats_app, flats_cons. unfold fsides.
  solve_Permutation.
Qed.

Lemma flat_plug c t :
  flat INVALID_PAGE_ID (plug c t) ≡ₚ flat (cpar c) t ++ cflat c (pid t).
Proof.
  revert t. induction c as [|f c IH]; intros t.
  - simpl cflat. by rewrite app_nil_r.
  - simpl plug. rewrite IH, flat_fill. simpl. solve_Permutation.
Qed.

Definition lefts (l : list (tree * Z)) : list block :=
  concat (map (λ e, inorder e.1 ++ [Sp e.2]) l).
Definition rights (l : list (Z * tree)) : list block :=
  concat (map (λ e, Sp e.1 :: inorder e.2) l).

Lemma lefts_app l1 l2 : lefts (l1 ++ l2) = lefts l1 ++ lefts l2.
Proof. unfold lefts. by rewrite map_app, concat_app. Qed.

Fixpoint cleft (c : context) : list block :=
  match c with [] => [] | f :: c => cleft c ++ lefts (flefts f) end.
Fixpoint cright (c : context) : list block :=
  match c with [] => [] | f :: c => rights (frights f) ++ cright c end.

Lemma weave_rights b r : weave (b :: map inorder r.*2) r.*1 = b ++ rights r.
Proof.
  revert b. induction r as [|[k t] r IH]; intros b; simpl.
  - by rewrite app_nil_r.
  - change (map inorder (t :: r.*2)) with (inorder t :: map inorder r.*2).
    by rewrite IH.
Qed.

Lemma inorder_fill f t :
  inorder (fill f t) = lefts (flefts f) ++ inorder t ++ rights (frights f).
Proof.
  destruct f as [p l r]. unfold fill, fkeys. simpl.
  rewrite map_app. simpl. induction l as [|[t1 k1] l IH]; simpl.
  - apply weave_rights.
  - unfold lefts. simpl. fold (lefts l). rewrite <- !app_assoc. cbn [app]. f_equal. f_equal. exact IH.
Qed.

Lemma inorder_plug c t : inorder (plug c t) = cleft c ++ inorder t ++ cright c.
Proof.
  revert t. induction c as [|f c IH]; intros t; simpl.
  - by rewrite app_nil_r.
  - rewrite IH, inorder_fill. by rewrite <- !app_assoc.
Qed.

(** The shape of a context whose hole takes trees of height [h]. *)
Fixpoint cshape (h : nat) (c : context) : Prop :=
  match c with
  | [] => True
  | f :: c =>
      Forall (shape h) (flefts f).*1 ∧ Forall (shape h) (frights f).*2 ∧
      (fcount f ≤ 4)%nat ∧ (1 ≤ fcount f)%nat ∧ (c ≠ [] → 2 ≤ fcount f)%nat ∧
      cshape (S h) c
  end.

(** What may fill the hole: any node at the top, a full enough one below. *)
Definition fits (h : nat) (c : context) (t : tree) : Prop :=
  match c with [] => root_shape h t | _ => shape h t end.

Lemma length_fkeys f : length (fkeys f) = fcount f.
Proof. unfold fkeys, fcount. by rewrite length_app, !length_fmap. Qed.

Lemma top_shape_fill h f t :
  Forall (shape h) (flefts f).*1 → Forall (shape h) (frights f).*2 → shape h t →
  top_shape (S h) (fill f t).
Proof.
  intros Hl Hr Ht. split.
  - rewrite length_fkeys. unfold fcount. rewrite length_app. simpl. rewrite !length_fmap. lia.
  - apply Forall_app. split; [done|]. by constructor.
Qed.

Lemma fits_fill h f c t :
  cshape h (f :: c) → shape h t → fits (S h) c (fill f t).
Proof.
  intros (Hl & Hr & Hmax & Hone & Hmin & _) Ht.
  pose proof (top_shape_fill h f t Hl Hr Ht) as Htop.
  destruct c as [|f' c]; simpl fits.
  - split_and!; [done|..]; simpl; rewrite length_fkeys; [done|done].
  - apply (proj2 (shape_top (S h) (fill f t))). split; [|done]. simpl count.
    rewrite length_fkeys. split; [by apply Hmin|done].
Qed.

Lemma fits_iff h c t :
  fits h c t ↔ root_shape h t ∧ (c ≠ [] → 2 ≤ count t)%nat.
Proof.
  unfold root_shape. destruct c as [|f c].
  - change (fits h [] t) with (root_shape h t). unfold root_shape. tauto.
  - change (fits h (f :: c) t) with (shape h t). rewrite shape_top. split.
    + intros [? ?]. split_and!; [done|lia|lia|lia].
    + intros ((? & ? & ?) & Hc). split; [|done]. split; [by apply Hc|done].
Qed.

Lemma root_shape_plug h c t :
  cshape h c → fits h c t → root_shape (h + length c) (plug c t).
Proof.
  revert h t. induction c as [|f c IH]; intros h t Hc Ht; simpl plug.
  - simpl. by rewrite Nat.add_0_r.
  - simpl length. rewrite Nat.add_succ_r, <- Nat.add_succ_l.
    apply IH; [apply Hc|]. by apply fits_fill.
Qed.

(** Splitting a node at one of its children. *)
Lemma node_split (i : nat) ks (ts : list tree) :
  length ts = S (length ks) → (i ≤ length ks)%nat →
  ∃ (l : list (tree * Z)) t (r : list (Z * tree)), length l = i ∧ ks = l.*2 ++ r.*1 ∧ ts = l.*1 ++ t :: r.*2.
Proof.
  revert ks ts. induction i as [|i IH]; intros ks ts Hl Hi.
  - destruct ts as [|t ts]; simpl in *; [lia|]. injection Hl as Hl.
    exists [], t, (zip ks ts). simpl. rewrite fst_zip, snd_zip by lia. done.
  - destruct ks as [|k ks]; simpl in *; [lia|]. destruct ts as [|t ts]; simpl in *; [lia|].
    destruct (IH ks ts) as (l & t' & r & <- & -> & ->); [lia..|].
    exists ((t, k) :: l), t', r. done.
Qed.

(** Splitting a node of five keys in two. *)
Lemma inorder_split p q ks1 k ks2 ts1 ts2 r :
  length ts1 = S (length ks1) →
  inorder (Node r (ks1 ++ k :: ks2) (ts1 ++ ts2)) =
  inorder (Node p ks1 ts1) ++ Sp k :: inorder (Node q ks2 ts2).
Proof. intros Hl. simpl. rewrite map_app, weave_app; [done|]. by rewrite length_map. Qed.

(** A tree of height [h] has more than [h] cells and entries. *)
Lemma shape_children h p ks ts :
  top_shape (S h) (Node p ks ts) → ∃ t r, ts = t :: r ∧ shape h t.
Proof.
  intros [Hl Hts]. destruct ts as [|t r]; [simpl in Hl; lia|].
  exists t, r. split; [done|]. by inversion Hts.
Qed.

Lemma length_flat h t par : top_shape h t → (h < length (flat par t))%nat.
Proof.
  revert t par. induction h as [|h IH]; intros [p kvs n|p ks ts] par Ht; try done; simpl; [lia|].
  destruct (shape_children h p ks ts Ht) as (t & r & -> & Hs).
  simpl. rewrite length_app. apply shape_top in Hs as [_ Hs].
  pose proof (IH t p Hs). lia.
Qed.

(** ** Nodes that fit a page *)

Lemma enc_parent par t : parent_id (enc par t) = par.
Proof. by destruct t. Qed.

Lemma inner_ok p par ks cs :
  node_ok (inner p par ks cs) ↔
  in_signed 32 p ∧ in_signed 32 par ∧ Forall (in_signed 64) ks ∧ Forall (in_signed 32) cs ∧
  (length ks ≤ 4)%nat ∧ length cs = S (length ks).
Proof.
  split.
  - intros [? ? ? ? ? ? ? ? Hn]. destruct Hn; [done|]. done.
  - intros (? & ? & ? & ? & ? & ?). by split.
Qed.

Lemma leaf_ok p par kvs n :
  node_ok (enc par (Leaf p kvs n)) ↔
  in_signed 32 p ∧ in_signed 32 par ∧ in_signed 32 n ∧
  Forall (in_signed 64) kvs.*1 ∧ Forall (in_signed 64) kvs.*2 ∧ (length kvs ≤ 4)%nat.
Proof.
  split.
  - intros [? ? ? ? ? ? Hc ? ?]. simpl in *. rewrite length_fmap in Hc. done.
  - intros (? & ? & ? & ? & ? & ?). split; simpl; try done.
    + by rewrite length_fmap.
    + intros _. by rewrite !length_fmap.
Qed.

Lemma pid_plug c x y : pid x = pid y → pid (plug c x) = pid (plug c y).
Proof. revert x y. induction c as [|f c IH]; intros x y E; simpl; [done|]. by apply IH. Qed.

(** The pages of a context, and of siblings, differ from the page in the hole. *)
Lemma pid_in_flats p ts q : q ∈ map pid ts → q ∈ (flats p ts).*1.
Proof.
  induction ts as [|x ts IH]; [done|]. rewrite flats_cons, fmap_app, flat_below. simpl.
  rewrite !elem_of_cons, elem_of_app. tauto.
Qed.

Lemma pid_not_sibling l p ts q n :
  NoDup l.*1 → (q, n) :: flats p ts ⊆+ l → q ∉ map pid ts.
Proof.
  intros Hnd Hl Hin%(pid_in_flats p). apply (fmap_submseteq fst) in Hl.
  apply submseteq_Permutation in Hl as [X Hl]. rewrite Hl in Hnd.
  rewrite fmap_cons in Hnd. apply NoDup_cons in Hnd as [Hq _].
  apply Hq, elem_of_app. by left.
Qed.

Lemma pid_root_in_cflat f c x : pid (plug (f :: c) x) ∈ (cflat (f :: c) (pid x)).*1.
Proof.
  revert f x. induction c as [|f' c IH]; intros f x.
  - left.
  - change (plug (f :: f' :: c) x) with (plug (f' :: c) (fill f x)).
    change (cflat (f :: f' :: c) (pid x)) with
      ((fpage f, fnode (cpar (f' :: c)) f (pid x)) :: fsides f ++ cflat (f' :: c) (fpage f)).
    rewrite fmap_cons, elem_of_cons, fmap_app, elem_of_app. right. right. exact (IH f' (fill f x)).
Qed.

(** Cutting a list at a position. *)
Lemma list_cut {A} (l : list A) i :
  (i < length l)%nat → ∃ l1 x l2, l = l1 ++ x :: l2 ∧ length l1 = i.
Proof.
  intros Hi. destruct (lookup_lt_is_Some_2 l i Hi) as [x Hx].
  exists (take i l), x, (drop (S i) l). split; [by rewrite take_drop_middle|].
  rewrite length_take. lia.
Qed.

Lemma length_fits h c p kvs n : fits h c (Leaf p kvs n) → (length kvs ≤ 4)%nat.
Proof. by intros ((_ & ? & _) & _)%fits_iff. Qed.

Lemma length_flat_par p q t : length (flat p t) = length (flat q t).
Proof. by rewrite !flat_below. Qed.

Lemma length_flats_par p q ts : length (flats p ts) = length (flats q ts).
Proof.
  induction ts as [|t ts IH]; [done|]. rewrite !flats_cons, !length_app, IH.
  by rewrite (length_flat_par p q).
Qed.

(** ** Counting leaves, cells and entries *)

Lemma weave_concat {A} (f : block → list A) bs ks :
  (∀ k, f (Sp k) = []) → length bs = S (length ks) →
  concat (map f (weave bs ks)) = concat (map (λ b, concat (map f b)) bs).
Proof.
  intros Hf. revert ks. induction bs as [|b bs IH]; intros ks Hl; [done|].
  destruct ks as [|k ks]; simpl in Hl.
  - destruct bs; [|done]. simpl. by rewrite app_nil_r.
  - simpl. rewrite map_app, concat_app. simpl. rewrite Hf, IH by lia. done.
Qed.

Lemma entries_node p ks ts :
  length ts = S (length ks) →
  entries (inorder (Node p ks ts)) = concat (map (λ t, entries (inorder t)) ts).
Proof.
  intros Hl. unfold entries. simpl. rewrite weave_concat, map_map by (done || by rewrite length_map).
  done.
Qed.

Lemma leaves_node p ks ts :
  length ts = S (length ks) →
  leaves (inorder (Node p ks ts)) = concat (map (λ t, leaves (inorder t)) ts).
Proof.
  intros Hl. unfold leaves. simpl. rewrite weave_concat, map_map by (done || by rewrite length_map).
  done.
Qed.

Lemma length_leaves h par t :
  top_shape h t → (length (leaves (inorder t)) ≤ length (flat par t))%nat.
Proof.
  revert par t. induction h as [|h IH]; intros par [p kvs n|p ks ts] Ht; try done.
  destruct Ht as [Hl Hts]. rewrite leaves_node, flat_node by done. simpl. apply le_S.
  clear Hl. induction Hts as [|t ts Ht _ IHts]; [done|].
  simpl. rewrite flats_cons, !length_app. apply shape_top in Ht as [_ Ht].
  pose proof (IH p t Ht). lia.
Qed.

(** A full tree has fewer cells than entries, and a height below both. *)
Definition roomy (h : nat) (par : Z) (t : tree) : Prop :=
  (length (flat par t) + 1 ≤ length (entries (inorder t)))%nat ∧
  (h + 2 ≤ length (entries (inorder t)))%nat.

Lemma roomy_children h p ks ts :
  length ts = S (length ks) → Forall (roomy h p) ts →
  (length (flats p ts) + length ts ≤ length (entries (inorder (Node p ks ts))))%nat ∧
  ((h + 2) * length ts ≤ length (entries (inorder (Node p ks ts))))%nat.
Proof.
  intros Hl Hts. rewrite entries_node by done. clear Hl.
  induction Hts as [|t ts [H1 H2] _ IHts]; [simpl; lia|].
  simpl. rewrite flats_cons, !length_app. lia.
Qed.

Lemma shape_size h par t : shape h t → roomy h par t.
Proof.
  unfold roomy. revert par t. induction h as [|h IH]; intros par [p kvs n|p ks ts] [Hc Ht]; try done.
  - simpl in *. unfold entries. simpl. rewrite app_nil_r. lia.
  - destruct Ht as [Hl Hts]. rewrite flat_node.
    destruct (roomy_children h p ks ts Hl) as [H1 H2].
    { eapply Forall_impl; [exact Hts|]. intros t. apply IH. }
    simpl in *. rewrite Hl in *. nia.
Qed.

Lemma root_size h par t :
  root_shape h t →
  (length (flat par t) ≤ Nat.max 1 (length (entries (inorder t))))%nat ∧
  (h ≤ length (entries (inorder t)))%nat.
Proof.
  intros (Ht & Hc & H1). destruct h as [|h], t as [p kvs n|p ks ts]; try done.
  - simpl. lia.
  - specialize (H1 ltac:(lia)). destruct Ht as [Hl Hts]. rewrite flat_node.
    destruct (roomy_children h p ks ts Hl) as [H3 H2].
    { eapply Forall_impl; [exact Hts|]. intros t. apply shape_size. }
    simpl in *. rewrite Hl in *. nia.
Qed.
