(* ===== verification/TreeHeap.v ===== *)
(** * The pages of a B+ tree

    [owns t root r l fr]: the tree object [t] has the root id [root], its store
    holds exactly the cells [l] and the other pages [fr], and the tree may grow
    to [r] pages.  The rules give what reading, writing, creating and
    deleting a node does to the cells; the other pages never change.  The
    cells are a list up to permutation, so that each rule picks out the cells
    it touches. *)

From S2P Require Export TreeShape BPlusTree.

Local Open Scope Z_scope.

Definition cell_ok (c : cell) : Prop := node_ok c.2 ∧ node_page_id c.2 = c.1.

Definition image (l : list cell) : gmap Z bytes :=
  list_to_map ((λ c, (c.1, node_image c.2)) <$> l).

Lemma image_cons p n l : image ((p, n) :: l) = <[p := node_image n]> (image l).
Proof. done. Qed.

Lemma image_None l p : p ∉ l.*1 → image l !! p = None.
Proof.
  intros Hp. apply not_elem_of_list_to_map. rewrite <- list_fmap_compose.
  by erewrite list_fmap_ext.
Qed.

Lemma image_Some l p n : NoDup l.*1 → (p, n) ∈ l → image l !! p = Some (node_image n).
Proof.
  intros Hnd Hin. apply elem_of_list_to_map.
  - rewrite <- list_fmap_compose. by erewrite list_fmap_ext.
  - apply list_elem_of_fmap. by exists (p, n).
Qed.

Lemma image_perm l l' : NoDup l.*1 → l ≡ₚ l' → image l = image l'.
Proof.
  intros Hnd Hl. apply list_to_map_proper; [|by rewrite Hl].
  rewrite <- list_fmap_compose. by erewrite list_fmap_ext.
Qed.

Section heap.
Context {S : Type} `{PageStoreLaws S}.
Notation T := (BPlusTree S).

Record owns (t : T) (root r : Z) (l : list cell) (fr : gmap Z bytes) : Prop := {
  own_inv : store_inv (buffer_pool_manager_ t);
  own_root : root_page_id_ t = root;
  own_room : room (buffer_pool_manager_ t) + Z.of_nat (length l) = r;
  own_nodup : NoDup l.*1;
  own_ok : Forall cell_ok l;
  own_disj : image l ##ₘ fr;
  own_pages : pages (buffer_pool_manager_ t) = image l ∪ fr;
}.

Implicit Types (t : T) (l : list cell) (fr : gmap Z bytes).

Lemma owns_perm t root r l l' fr : l ≡ₚ l' → owns t root r l fr → owns t root r l' fr.
Proof.
  intros Hl [I R M N O D P]. pose proof (image_perm l l' N Hl) as Hi.
  split; try done; rewrite <- ?Hl, <- ?Hi; done.
Qed.

Lemma owns_cell t root r l fr p n :
  owns t root r l fr → (p, n) ∈ l →
  node_ok n ∧ node_page_id n = p ∧ 0 ≤ p < int32_max ∧
  pages (buffer_pool_manager_ t) !! p = Some (node_image n).
Proof.
  intros Ho Hin.
  destruct (proj1 (Forall_forall _ _) (own_ok _ _ _ _ _ Ho) _ Hin) as [Hok Hpid].
  assert (pages (buffer_pool_manager_ t) !! p = Some (node_image n)) as Hlk.
  { rewrite (own_pages _ _ _ _ _ Ho). apply lookup_union_Some_l.
    apply image_Some; [apply Ho|done]. }
  split_and!; try done; by eapply pages_range; [apply Ho|].
Qed.

Lemma owns_fresh t root r l fr p n :
  owns t root r ((p, n) :: l) fr → p ∉ l.*1 ∧ fr !! p = None.
Proof.
  intros Ho. pose proof (own_nodup _ _ _ _ _ Ho) as Hnd. apply NoDup_cons in Hnd as [Hp _].
  split; [done|]. pose proof (own_disj _ _ _ _ _ Ho) as Hd. rewrite image_cons in Hd.
  by apply map_disjoint_insert_l in Hd as [? _].
Qed.

(** The iterations given to loops are more than any set of pages. *)
Lemma owns_iterations t root r l fr :
  owns t root r l fr → (length l ≤ page_limit (buffer_pool_manager_ t))%nat.
Proof.
  intros Ho. rewrite <- (length_fmap fst).
  set (ids := l.*1). pose proof (own_nodup _ _ _ _ _ Ho) as Hnd. fold ids in Hnd.
  assert (∀ p, p ∈ ids → 0 ≤ p < Z.of_nat (page_limit (buffer_pool_manager_ t))) as Hr.
  { intros p ([q n] & -> & Hin)%list_elem_of_fmap. simpl.
    destruct (owns_cell _ _ _ _ _ _ _ Ho Hin) as (_ & _ & Hq & Hlk).
    destruct (pages_range _ _ _ (own_inv _ _ _ _ _ Ho) Hlk). lia. }
  rewrite <- (Nat2Z.id (page_limit _)), <- (length_seqZ 0).
  apply submseteq_length, NoDup_submseteq; [done|].
  intros p Hp. apply elem_of_seqZ. pose proof (Hr p Hp). lia.
Qed.

Lemma wp_on_pool {A} (m : M S A) t Q :
  wp m (buffer_pool_manager_ t) (λ a s, Q a (set_pool s t)) → wp (on_pool m) t Q.
Proof. apply wp_zoom. Qed.

Lemma ReadNode_owns t root r l fr p n (Q : _ → T → Prop) :
  owns t root r l fr → (p, n) ∈ l → (∀ t', owns t' root r l fr → Q n t') →
  wp (ReadNode p) t Q.
Proof.
  intros Ho Hin HQ. destruct (owns_cell _ _ _ _ _ _ _ Ho Hin) as (Hok & _ & _ & Hlk).
  destruct (with_page_law _ p false DeserializeNode _ n _ (own_inv _ _ _ _ _ Ho) Hlk
    (DeserializeNode_image n Hok)) as (s' & Hrun & I' & P' & R').
  { by apply length_node_image. }
  { by right. }
  unfold ReadNode. apply wp_bind, wp_on_pool. eapply wp_eq; [exact Hrun|].
  apply wp_ret, HQ. destruct Ho as [I R M N O D P]. split; simpl; try done.
  - by rewrite R'.
  - by rewrite P', insert_id.
Qed.

Lemma WriteNode_owns t root r l l0 fr p n n0 (Q : _ → T → Prop) :
  owns t root r l fr → l ≡ₚ (p, n0) :: l0 → node_page_id n = p → node_ok n →
  (∀ t', owns t' root r ((p, n) :: l0) fr → Q tt t') →
  wp (WriteNode n) t Q.
Proof.
  intros Ho Hl Hpn Hok HQ. apply (owns_perm _ _ _ _ _ _ Hl) in Ho.
  destruct (owns_cell _ _ _ _ _ p n0 Ho) as (_ & _ & _ & Hlk); [by left|].
  destruct (owns_fresh _ _ _ _ _ _ _ Ho) as [Hp Hfr].
  destruct (with_page_law _ p true (SerializeNode n) _ tt _ (own_inv _ _ _ _ _ Ho) Hlk
    (SerializeNode_image n _ Hok)) as (s' & Hrun & I' & P' & R').
  { by apply length_node_image. }
  { by left. }
  unfold WriteNode. apply wp_bind, wp_on_pool. rewrite Hpn. eapply wp_eq; [exact Hrun|].
  apply wp_ret, HQ. destruct Ho as [I R M N O D P].
  inversion O as [|? ? [_ ?] Hok']; subst. rewrite image_cons in D.
  split; simpl; try done.
  - by rewrite R'.
  - by constructor.
  - rewrite image_cons. apply map_disjoint_insert_l_2; [done|].
    by apply map_disjoint_insert_l in D as [_ D].
  - rewrite P', P, !image_cons, !insert_union_l. by rewrite insert_insert_eq.
Qed.

Lemma CreateNode_owns t root r l fr n (Q : _ → T → Prop) :
  owns t root r l fr → Z.of_nat (length l) < r → (∀ p, 0 ≤ p < int32_max → node_ok (set_page_id p n)) →
  (∀ p t', 0 ≤ p < int32_max → owns t' root r ((p, set_page_id p n) :: l) fr → Q p t') →
  wp (CreateNode n) t Q.
Proof.
  intros Ho Hr Hok HQ. destruct (with_new_page_law (buffer_pool_manager_ t)
    (λ p, SerializeNode (set_page_id p n)) (λ _, tt) (λ p, node_image (set_page_id p n)))
    as (p & s' & Hrun & I' & Hp & Hnone & P' & R').
  { apply Ho. }
  { pose proof (own_room _ _ _ _ _ Ho). lia. }
  { intros p Hp. split; [by apply SerializeNode_image, Hok|by apply length_node_image, Hok]. }
  unfold CreateNode. apply wp_bind, wp_on_pool. eapply wp_eq; [exact Hrun|].
  apply wp_ret, HQ; [done|]. destruct Ho as [I R M N O D P].
  rewrite P in Hnone. apply lookup_union_None in Hnone as [Hl Hfr].
  split; simpl; try done.
  - rewrite R'. lia.
  - constructor; [|done]. intros ([q m] & -> & Hin)%list_elem_of_fmap.
    apply (image_Some _ _ _ N) in Hin. simpl in *. congruence.
  - constructor; [|done]. split; [by apply Hok|done].
  - rewrite image_cons. by apply map_disjoint_insert_l_2.
  - by rewrite P', P, image_cons, insert_union_l.
Qed.

Lemma delete_owns t root r l l0 fr p n (Q : _ → T → Prop) :
  owns t root r l fr → l ≡ₚ (p, n) :: l0 →
  (∀ t', owns t' root r l0 fr → Q true t') →
  wp (on_pool (delete_page p)) t Q.
Proof.
  intros Ho Hl HQ. apply (owns_perm _ _ _ _ _ _ Hl) in Ho.
  destruct (owns_cell _ _ _ _ _ p n Ho) as (_ & _ & _ & Hlk); [by left|].
  destruct (owns_fresh _ _ _ _ _ _ _ Ho) as [Hp Hfr].
  destruct (delete_page_law _ p _ (own_inv _ _ _ _ _ Ho) Hlk) as (s' & Hrun & I' & P' & R').
  apply wp_on_pool. eapply wp_eq; [exact Hrun|]. apply HQ.
  destruct Ho as [I R M N O D P]. rewrite image_cons in D.
  inversion N; inversion O; subst. split; simpl; try done.
  - rewrite R'. simpl. lia.
  - by apply map_disjoint_insert_l in D as [_ D].
  - rewrite P', P, image_cons, delete_union, delete_insert_eq.
    by rewrite !delete_id by (done || by apply image_None).
Qed.

Lemma set_root_owns t root root' r l fr :
  owns t root r l fr → owns (set_root root' t) root' r l fr.
Proof. intros [I R M N O D P]. by split. Qed.

(** The rules followed by the rest of the program. *)
Lemma wp_read {A} t root r l fr p n (k : _ → M T A) (Q : A → T → Prop) :
  owns t root r l fr → (p, n) ∈ l → (∀ t', owns t' root r l fr → wp (k n) t' Q) →
  wp (ReadNode p ≫= k) t Q.
Proof. intros. apply wp_bind. by eapply ReadNode_owns. Qed.

Lemma wp_write {A} t root r l l0 fr p n n0 (k : _ → M T A) (Q : A → T → Prop) :
  owns t root r l fr → l ≡ₚ (p, n0) :: l0 → node_page_id n = p → node_ok n →
  (∀ t', owns t' root r ((p, n) :: l0) fr → wp (k tt) t' Q) →
  wp (WriteNode n ≫= k) t Q.
Proof. intros. apply wp_bind. by eapply WriteNode_owns. Qed.

Lemma wp_create {A} t root r l fr n (k : _ → M T A) (Q : A → T → Prop) :
  owns t root r l fr → Z.of_nat (length l) < r → (∀ p, 0 ≤ p < int32_max → node_ok (set_page_id p n)) →
  (∀ p t', 0 ≤ p < int32_max → owns t' root r ((p, set_page_id p n) :: l) fr →
     wp (k p) t' Q) →
  wp (CreateNode n ≫= k) t Q.
Proof. intros. apply wp_bind. by eapply CreateNode_owns. Qed.

Lemma wp_delete {A} t root r l l0 fr p n (k : _ → M T A) (Q : A → T → Prop) :
  owns t root r l fr → l ≡ₚ (p, n) :: l0 →
  (∀ t', owns t' root r l0 fr → wp (k true) t' Q) →
  wp (on_pool (delete_page p) ≫= k) t Q.
Proof. intros. apply wp_bind. by eapply delete_owns. Qed.

(** A step that returns without changing the state. *)
Lemma wp_pure {A B} (m : M T A) a (k : A → M T B) t Q :
  m t = (Ret a, t) → wp (k a) t Q → wp (m ≫= k) t Q.
Proof. intros Hm Hk. apply wp_bind. by eapply wp_eq. Qed.

Lemma wp_root {A} t root r l fr (k : Z → M T A) Q :
  owns t root r l fr → wp (k root) t Q → wp (gets root_page_id_ ≫= k) t Q.
Proof. intros Ho Hk. apply wp_bind, wp_gets. by rewrite (own_root _ _ _ _ _ Ho). Qed.
End heap.
