(* ===== verification/TreeOrder.v ===== *)
(** * Order in a B+ tree

    The codes of an in-order sequence are strictly increasing: this one
    condition says that the keys are sorted and that every separator routes
    correctly.  What the operations do to the sequence, and the finite map
    that its entries denote. *)

From stdpp Require Export sorting.
From S2P Require Export TreeShape.

Local Open Scope Z_scope.

Definition sorted (bs : list block) : Prop := StronglySorted Z.lt (codes bs).
Definition tree_map (bs : list block) : gmap Z Z := list_to_map (entries bs).

#[export] Instance key_code_inj : Inj (=) (=) key_code.
Proof. unfold key_code. intros x y. lia. Qed.

(** ** Increasing sequences of codes *)

Lemma sorted_insert (X Y : list Z) c :
  StronglySorted Z.lt (X ++ Y) → (∀ x, x ∈ X → x < c) → (∀ y, y ∈ Y → c < y) →
  StronglySorted Z.lt (X ++ c :: Y).
Proof.
  intros (HXY & HX & HY)%StronglySorted_app Hx Hy. apply StronglySorted_app.
  split_and!; [|done|apply StronglySorted_cons; split; [by apply Forall_forall|done]].
  intros x1 x2 H1 [->|H2]%elem_of_cons; auto.
Qed.

Lemma sorted_sublist (X Y : list Z) :
  X `sublist_of` Y → StronglySorted Z.lt Y → StronglySorted Z.lt X.
Proof.
  induction 1 as [|x X Y Hs IH|x X Y Hs IH]; [done|..].
  - intros [Hx HY]%StronglySorted_cons. apply StronglySorted_cons. split; [|auto].
    apply Forall_forall. intros y Hy. eapply Forall_forall in Hx; [done|].
    eapply elem_of_submseteq; [exact Hy|by apply sublist_submseteq].
  - intros [_ HY]%StronglySorted_cons. auto.
Qed.

Lemma sorted_insert_sep X a k Y :
  StronglySorted Z.lt (X ++ key_code a :: key_code k :: Y) →
  StronglySorted Z.lt (X ++ key_code a :: sep_code k :: key_code k :: Y).
Proof.
  intros H. assert (∀ Z : list Z, X ++ key_code a :: Z = (X ++ [key_code a]) ++ Z) as E
    by (intros; by rewrite <- app_assoc).
  rewrite E in H |- *. apply sorted_insert; [done|..];
    apply StronglySorted_app in H as (Hxy & HX & HY).
  - intros x Hx. pose proof (Hxy x (key_code k) Hx ltac:(left)).
    pose proof (Hxy (key_code a) (key_code k) ltac:(apply elem_of_app; right; left) ltac:(left)).
    apply StronglySorted_app in HX as (HX & _). apply elem_of_app in Hx as [Hx|Hx].
    + pose proof (HX x (key_code a) Hx ltac:(left)). unfold key_code, sep_code in *. lia.
    + apply list_elem_of_singleton in Hx as ->. unfold key_code, sep_code in *. lia.
  - intros y [->|Hy]%elem_of_cons; [unfold key_code, sep_code; lia|].
    apply StronglySorted_cons in HY as [HY _]. eapply Forall_forall in HY; [|done].
    unfold key_code, sep_code in *. lia.
Qed.

Lemma sorted_raise_sep X s k Y :
  StronglySorted Z.lt (X ++ sep_code s :: key_code k :: Y) →
  StronglySorted Z.lt (X ++ sep_code k :: key_code k :: Y).
Proof.
  intros H. pose proof H as (Hxy & HX & HY)%StronglySorted_app.
  apply StronglySorted_cons in HY as [Hs HY].
  assert (sep_code s < key_code k) as Hsk by (eapply Forall_forall in Hs; [done|left]).
  apply sorted_insert.
  - eapply sorted_sublist; [|exact H]. apply sublist_app; [done|]. by apply sublist_cons.
  - intros x Hx. pose proof (Hxy x (sep_code s) Hx ltac:(left)).
    unfold key_code, sep_code in *. lia.
  - intros y [->|Hy]%elem_of_cons; [unfold key_code, sep_code; lia|].
    apply StronglySorted_cons in HY as [HY _]. eapply Forall_forall in HY; [|done].
    unfold key_code, sep_code in *. lia.
Qed.

(** ** Keys and the map *)

Lemma entries_codes bs k : k ∈ (entries bs).*1 → key_code k ∈ codes bs.
Proof.
  induction bs as [|[p kvs n|s] bs IH]; simpl; [by intros ?%not_elem_of_nil|..].
  - rewrite entries_cons, codes_cons, fmap_app, !elem_of_app. simpl.
    intros [Hk|Hk]; [left|right; auto]. apply list_elem_of_fmap. eauto.
  - rewrite entries_cons, codes_cons, elem_of_app. auto.
Qed.

Lemma sorted_keys (l : list Z) :
  StronglySorted Z.lt (key_code <$> l) → StronglySorted Z.lt l.
Proof.
  induction l as [|k l IH]; [constructor|].
  rewrite fmap_cons. intros [Hk H]%StronglySorted_cons.
  apply StronglySorted_cons. split; [|auto]. apply Forall_forall. intros x Hx.
  pose proof (proj1 (Forall_forall _ _) Hk _ (list_elem_of_fmap_2 key_code _ _ Hx)) as Hlt.
  unfold key_code in Hlt. lia.
Qed.

Lemma sorted_entries bs : sorted bs → StronglySorted Z.lt (entries bs).*1.
Proof.
  unfold sorted. induction bs as [|[p kvs n|s] bs IH]; [done|..];
    rewrite entries_cons, codes_cons, fmap_app;
    intros (Hxy & H1 & H2)%StronglySorted_app; apply StronglySorted_app; simpl in *.
  - split_and!; [|clear -H1|auto].
    + intros x y Hx Hy%entries_codes. apply (list_elem_of_fmap_2 key_code) in Hx.
      pose proof (Hxy _ _ Hx Hy). unfold key_code in *. lia.
    + by apply sorted_keys.
  - split_and!; [|constructor|auto]. intros x y Hx. by apply not_elem_of_nil in Hx.
Qed.

Lemma sorted_NoDup bs : sorted bs → NoDup (entries bs).*1.
Proof.
  intros H%sorted_entries. induction (entries bs).*1 as [|k l IH]; [constructor|].
  apply StronglySorted_cons in H as [Hk H]. constructor; [|auto].
  intros Hin. eapply Forall_forall in Hk; [|exact Hin]. lia.
Qed.

Lemma tree_map_Some bs k v :
  sorted bs → tree_map bs !! k = Some v ↔ (k, v) ∈ entries bs.
Proof. intros H. symmetry. by apply elem_of_list_to_map, sorted_NoDup. Qed.

(** All codes before, all after a key. *)
Definition before (k : Z) (bs : list block) : Prop := ∀ x, x ∈ codes bs → x < key_code k.
Definition after (k : Z) (bs : list block) : Prop := ∀ x, x ∈ codes bs → key_code k < x.

Lemma not_in_entries_before k bs : before k bs → k ∉ (entries bs).*1.
Proof. intros Hb Hk%entries_codes%Hb. lia. Qed.
Lemma not_in_entries_after k bs : after k bs → k ∉ (entries bs).*1.
Proof. intros Hb Hk%entries_codes%Hb. lia. Qed.

Section leaf.
Context (L R : list block) (k : Z).
Context (HL : before k L) (HR : after k R).

(** A key that routes to a leaf is looked up there. *)
Lemma lookup_in_leaf p kvs n :
  tree_map (L ++ B p kvs n :: R) !! k = (list_to_map kvs : gmap Z Z) !! k.
Proof.
  unfold tree_map. rewrite entries_app, entries_cons, !list_to_map_app. simpl.
  rewrite lookup_union_r by (apply not_elem_of_list_to_map, not_in_entries_before; done).
  destruct (list_to_map kvs !! k) eqn:E.
  - by apply lookup_union_Some_l.
  - rewrite lookup_union_r by done.
    apply not_elem_of_list_to_map, not_in_entries_after. done.
Qed.

Lemma insert_in_leaf p a b v n :
  sorted (L ++ B p (a ++ b) n :: R) →
  (∀ x, x ∈ a.*1 → x < k) → (∀ x, x ∈ b.*1 → k < x) →
  sorted (L ++ B p (a ++ (k, v) :: b) n :: R) ∧
  tree_map (L ++ B p (a ++ (k, v) :: b) n :: R) =
    <[k := v]> (tree_map (L ++ B p (a ++ b) n :: R)).
Proof.
  intros Hs Ha Hb.
  assert (sorted (L ++ B p (a ++ (k, v) :: b) n :: R)) as Hs'.
  { unfold sorted in *. autorewrite with qdb_blocks in *. simpl in *.
    rewrite !fmap_app in *. rewrite <- !app_assoc in *. rewrite !fmap_cons, app_assoc in *.
    cbn [app fst]. apply sorted_insert.
    - done.
    - intros x [Hx|Hx]%elem_of_app; [by apply HL|].
      apply list_elem_of_fmap in Hx as (y & -> & Hy). apply Ha in Hy. unfold key_code. lia.
    - intros x [Hx|Hx]%elem_of_app; [|by apply HR].
      apply list_elem_of_fmap in Hx as (y & -> & Hy). apply Hb in Hy. unfold key_code. lia. }
  split; [done|]. unfold tree_map. rewrite <- list_to_map_cons.
  apply list_to_map_proper; [by apply sorted_NoDup|].
  rewrite !entries_app, !entries_cons. simpl. solve_Permutation.
Qed.

Lemma delete_in_leaf p a b v n :
  sorted (L ++ B p (a ++ (k, v) :: b) n :: R) →
  sorted (L ++ B p (a ++ b) n :: R) ∧
  tree_map (L ++ B p (a ++ b) n :: R) =
    delete k (tree_map (L ++ B p (a ++ (k, v) :: b) n :: R)).
Proof.
  intros Hs.
  assert (sorted (L ++ B p (a ++ b) n :: R)) as Hs'.
  { eapply sorted_sublist; [|exact Hs]. autorewrite with qdb_blocks. simpl.
    rewrite !fmap_app, !fmap_cons. repeat apply sublist_app; try done. by apply sublist_cons. }
  split; [done|]. pose proof (sorted_NoDup _ Hs) as Hnd.
  assert (tree_map (L ++ B p (a ++ (k, v) :: b) n :: R) =
    <[k := v]> (tree_map (L ++ B p (a ++ b) n :: R))) as ->.
  { unfold tree_map. rewrite <- list_to_map_cons. apply list_to_map_proper; [done|].
    rewrite !entries_app, !entries_cons. simpl. solve_Permutation. }
  rewrite delete_insert_eq, delete_id; [done|]. unfold tree_map.
  apply not_elem_of_list_to_map.
  rewrite entries_app, entries_cons in Hnd |- *. simpl in *.
  rewrite !fmap_app, fmap_cons in *. simpl in *.
  apply NoDup_app in Hnd as (_ & HLn & Hnd). rewrite <- app_assoc in Hnd.
  apply NoDup_app in Hnd as (_ & Han & Hnd).
  apply NoDup_cons in Hnd as [Hn _].
  rewrite !elem_of_app in *. intros [Hk|[[Hk|Hk]|Hk]]; [|eapply Han; [exact Hk|left]|tauto..].
  eapply HLn; [exact Hk|]. rewrite !elem_of_app. left. right. left.
Qed.
End leaf.

(** Moving an entry to the neighbouring leaf, and joining two leaves. *)
Lemma sorted_move_right X Y pl kvl nl s p kvs n k v :
  kvl ≠ [] → sorted (X ++ B pl (kvl ++ [(k, v)]) nl :: Sp s :: B p kvs n :: Y) →
  sorted (X ++ B pl kvl nl :: Sp k :: B p ((k, v) :: kvs) n :: Y).
Proof.
  intros Hne Hs. destruct kvl as [|[a va] kvl' _] using rev_ind; [done|].
  unfold sorted in *. autorewrite with qdb_blocks in *. simpl in *.
  rewrite !fmap_app in *. simpl in *. rewrite <- !app_assoc in *. simpl in *.
  rewrite !app_assoc in *. apply sorted_insert_sep.
  eapply sorted_sublist; [|exact Hs]. apply sublist_app; [done|].
  do 2 apply sublist_skip. by apply sublist_cons.
Qed.

Lemma sorted_move_left X Y p kvs n s pr kvr nr k v k2 v2 :
  sorted (X ++ B p kvs n :: Sp s :: B pr ((k, v) :: (k2, v2) :: kvr) nr :: Y) →
  sorted (X ++ B p (kvs ++ [(k, v)]) n :: Sp k2 :: B pr ((k2, v2) :: kvr) nr :: Y).
Proof.
  intros Hs. unfold sorted in *. autorewrite with qdb_blocks in *. simpl in *.
  rewrite !fmap_app in *. simpl in *. rewrite <- !app_assoc in *. simpl in *.
  rewrite !app_assoc in *. apply sorted_insert_sep.
  eapply sorted_sublist; [|exact Hs]. apply sublist_app; [done|]. by apply sublist_cons.
Qed.

Lemma sorted_join X Y pl kvl nl s pr kvr nr n :
  sorted (X ++ B pl kvl nl :: Sp s :: B pr kvr nr :: Y) →
  sorted (X ++ B pl (kvl ++ kvr) n :: Y).
Proof.
  intros Hs. eapply sorted_sublist; [|exact Hs]. autorewrite with qdb_blocks. simpl.
  rewrite !fmap_app, <- !app_assoc. repeat apply sublist_app; try done.
  apply sublist_cons. by apply sublist_app.
Qed.

(** Rearranging blocks without changing the entries. *)
Lemma tree_map_entries bs bs' : entries bs = entries bs' → tree_map bs = tree_map bs'.
Proof. unfold tree_map. by intros ->. Qed.

(** ** The bounds of [std::lower_bound] and [std::upper_bound] *)

Lemma upper_bound_split (a b : list Z) k :
  upper_bound (a ++ b) k = length a →
  Forall (λ x, x ≤ k) a ∧ (∀ x b', b = x :: b' → k < x).
Proof.
  induction a as [|x a IH]; simpl; intros Hu.
  - split; [constructor|]. intros x b' ->. simpl in Hu. destruct (Z.ltb_spec k x); [done|lia].
  - destruct (Z.ltb_spec k x); [lia|]. injection Hu as Hu.
    destruct (IH Hu) as [H1 H2]. split; [by constructor|done].
Qed.

Lemma lower_bound_split (kvs : list (Z * Z)) k :
  ∃ a b, kvs = a ++ b ∧ lower_bound kvs.*1 k = length a ∧ (∀ x, x ∈ a.*1 → x < k) ∧
    (∀ e b', b = e :: b' → k ≤ e.1).
Proof.
  induction kvs as [|[x v] kvs (a & b & -> & Hl & Ha & Hb)].
  - exists [], []. split_and!; try done. intros x Hx. by apply not_elem_of_nil in Hx.
  - simpl. destruct (Z.ltb_spec x k).
    + exists ((x, v) :: a), b. split_and!; try done; [simpl; f_equal; exact Hl|].
      intros y. simpl. intros [->|Hy]%elem_of_cons; auto.
    + exists [], ((x, v) :: a ++ b). split_and!; try done.
      * intros y Hy. by apply not_elem_of_nil in Hy.
      * by intros e b' [= <- _].
Qed.
