(* ===== verification/TreeSearch.v ===== *)
(** * Walking a B+ tree

    Reading the nodes of the represented tree: the descent to a leaf, the
    first key of a subtree, [SetChildrenParent], and the walk up that repairs
    a separator after the first key of a leaf has changed. *)

From S2P Require Export TreeHeap TreeOrder.

Local Open Scope Z_scope.

Lemma node_ok_set_parent q n : in_signed 32 q → node_ok n → node_ok (set_parent q n).
Proof. intros Hq []. by split. Qed.

Lemma in_signed_invalid : in_signed 32 INVALID_PAGE_ID.
Proof. unfold in_signed, INVALID_PAGE_ID. lia. Qed.

Lemma in_signed_page p : 0 ≤ p < int32_max → in_signed 32 p.
Proof. unfold in_signed, int32_max. lia. Qed.

(** The routing condition of every frame between the root and a leaf. *)
Definition routes (key : Z) (f : frame) : Prop :=
  Forall (λ k, k ≤ key) (flefts f).*2 ∧ ∀ k b, (frights f).*1 = k :: b → key < k.

Lemma lefts_last l t k : lefts (l ++ [(t, k)]) = (lefts l ++ inorder t) ++ [Sp k].
Proof. rewrite lefts_app. unfold lefts at 2. simpl. by rewrite app_nil_r, app_assoc. Qed.

Lemma routes_before key c X :
  Forall (routes key) c → sorted (cleft c ++ X) → before key (cleft c).
Proof.
  intros Hc. revert X. induction Hc as [|f c [Hf _] _ IH]; intros X Hs; simpl.
  - intros x Hx. by apply not_elem_of_nil in Hx.
  - simpl in Hs. destruct (flefts f) as [|[t k] l _] eqn:E using rev_ind.
    + unfold lefts. simpl. rewrite app_nil_r. rewrite <- app_assoc in Hs. by eapply IH.
    + rewrite lefts_last in *. rewrite fmap_app in Hf.
      apply Forall_app in Hf as [_ Hf]. apply Forall_cons in Hf as [Hk _]. simpl in Hk.
      rewrite app_assoc in Hs |- *. set (Y := cleft c ++ lefts l ++ inorder t) in *.
      unfold sorted in Hs. rewrite !codes_app in Hs. apply StronglySorted_app in Hs as (_ & Hs & _).
      apply StronglySorted_app in Hs as (Hy & _). intros x. rewrite codes_app, elem_of_app.
      intros [Hx|Hx].
      * pose proof (Hy x (sep_code k) Hx ltac:(left)). unfold sep_code, key_code in *. lia.
      * apply list_elem_of_singleton in Hx as ->. unfold sep_code, key_code. lia.
Qed.

Lemma routes_after key c X :
  Forall (routes key) c → sorted (X ++ cright c) → after key (cright c).
Proof.
  intros Hc. revert X. induction Hc as [|f c [_ Hf] _ IH]; intros X Hs; simpl.
  - intros x Hx. by apply not_elem_of_nil in Hx.
  - simpl in Hs. destruct (frights f) as [|[k t] r] eqn:E.
    + unfold rights in *. simpl in *. by eapply IH.
    + pose proof (Hf k r.*1 eq_refl) as Hk. unfold rights in *. simpl in *.
      unfold sorted in Hs. rewrite codes_app in Hs. apply StronglySorted_app in Hs as (_ & _ & Hs).
      rewrite codes_cons in Hs. simpl in Hs. apply StronglySorted_cons in Hs as [Hs _].
      intros x. rewrite codes_cons. simpl. intros [->|Hx]%elem_of_cons.
      * unfold sep_code, key_code. lia.
      * eapply Forall_forall in Hs; [|exact Hx]. unfold sep_code, key_code in *. lia.
Qed.

Section search.
Context {S : Type} `{PageStoreLaws S}.
Notation T := (BPlusTree S).
Implicit Types (t : T) (l : list cell) (fr : gmap Z bytes).

Lemma owns_head t root r l fr par x X :
  owns t root r l fr → l ≡ₚ flat par x ++ X → (pid x, enc par x) ∈ l.
Proof. intros _ ->. rewrite flat_below. left. Qed.

Lemma owns_tree t root r l fr par x X :
  owns t root r l fr → l ≡ₚ flat par x ++ X →
  node_ok (enc par x) ∧ 0 ≤ pid x < int32_max ∧ in_signed 32 (pid x) ∧
  (pid x =? INVALID_PAGE_ID) = false.
Proof.
  intros Ho Hl. pose proof (owns_head _ _ _ _ _ _ _ _ Ho Hl) as Hin.
  destruct (owns_cell _ _ _ _ _ _ _ Ho Hin) as (Hok & _ & Hp & _).
  split_and!; try done; [apply Hp|apply Hp|by apply in_signed_page|].
  apply Z.eqb_neq. unfold INVALID_PAGE_ID. lia.
Qed.

(** Reading and rewriting the root of a subtree. *)
Lemma wp_read_tree {A} t root r l fr par x X (k : _ → M T A) (Q : A → T → Prop) :
  owns t root r l fr → l ≡ₚ flat par x ++ X →
  (∀ t', owns t' root r l fr → wp (k (enc par x)) t' Q) →
  wp (ReadNode (pid x) ≫= k) t Q.
Proof. intros Ho Hl HQ. eapply wp_read; [exact Ho|by eapply owns_head|done]. Qed.

Lemma SetChildrenParent_owns p q ts t root r l l0 fr (Q : unit → T → Prop) :
  owns t root r l fr → l ≡ₚ flats p ts ++ l0 → in_signed 32 q →
  (∀ t', owns t' root r (flats q ts ++ l0) fr → Q tt t') →
  wp (SetChildrenParent (map pid ts) q) t Q.
Proof.
  intros Ho Hl Hq. revert t l l0 Ho Hl Q. induction ts as [|x ts IH]; intros t l l0 Ho Hl Q HQ.
  - apply wp_ret, HQ. eapply owns_perm; [|exact Ho]. done.
  - rewrite flats_cons in Hl. rewrite <- app_assoc in Hl.
    destruct (owns_tree _ _ _ _ _ _ _ _ Ho Hl) as (Hok & Hx & _).
    unfold SetChildrenParent. cbn [map for_each]. apply wp_bind.
    eapply wp_read_tree; [exact Ho|exact Hl|]. intros t1 Ho1.
    eapply WriteNode_owns with (p := pid x) (n0 := enc p x) (l0 := below x ++ flats p ts ++ l0);
      [exact Ho1|by rewrite Hl, flat_below|by rewrite enc_set_parent, enc_page
      |by apply node_ok_set_parent|].
    + rewrite enc_set_parent. intros t2 Ho2.
      apply (IH t2 _ (flat q x ++ l0) Ho2).
      * rewrite flat_below. solve_Permutation.
      * intros t3 Ho3. apply HQ. eapply owns_perm; [|exact Ho3].
        rewrite flats_cons. solve_Permutation.
Qed.

(** The keys of a node and its children at the position of a key. *)
Lemma node_route h c p ks ts key :
  cshape (Datatypes.S h) c → fits (Datatypes.S h) c (Node p ks ts) →
  ∃ f x, Node p ks ts = fill f x ∧ cshape h (f :: c) ∧ shape h x ∧ routes key f ∧
    length (flefts f) = upper_bound ks key.
Proof.
  intros Hc Hfit.
  assert (top_shape (Datatypes.S h) (Node p ks ts) ∧ (length ks ≤ 4)%nat ∧
          (1 ≤ length ks)%nat ∧ (c ≠ [] → 2 ≤ length ks)%nat) as (Htop & Hmax & Hone & Hmin).
  { apply fits_iff in Hfit as ((? & ? & H1) & ?). split_and!; try done. by apply H1. }
  destruct Htop as [Hlen Hts].
  destruct (node_split (upper_bound ks key) ks ts Hlen (upper_bound_le _ _))
    as (l & x & r & Hi & -> & ->).
  apply Forall_app in Hts as [Hl Hr]. apply Forall_cons in Hr as [Hx Hr].
  exists (Frm p l r), x. rewrite length_app, !length_fmap in *.
  split_and!; try done.
  symmetry in Hi. rewrite <- (length_fmap snd) in Hi. by apply upper_bound_split in Hi.
Qed.

Lemma FindLeaf_loop_owns h fuel c x t root r fr key (Q : Z → T → Prop) :
  (h < fuel)%nat → cshape h c → fits h c x → Forall (routes key) c →
  owns t root r (flat INVALID_PAGE_ID (plug c x)) fr →
  (∀ t' c' p kvs n, owns t' root r (flat INVALID_PAGE_ID (plug c x)) fr →
     plug c x = plug c' (Leaf p kvs n) → cshape 0 c' → fits 0 c' (Leaf p kvs n) →
     Forall (routes key) c' → length c' = (h + length c)%nat → Q p t') →
  wp (FindLeaf_loop fuel (pid x) key) t Q.
Proof.
  revert fuel c x t. induction h as [|h IH]; intros [|fuel] c x t Hfuel Hc Hfit Hr Ho HQ; try lia;
    pose proof (flat_plug c x) as Hl;
    destruct (owns_tree _ _ _ _ _ _ _ _ Ho Hl) as (Hok & Hx & _ & Hne);
    unfold FindLeaf_loop; fold FindLeaf_loop; rewrite Hne;
    eapply wp_read_tree; [exact Ho|exact Hl| |exact Ho|exact Hl|]; intros t1 Ho1.
  - destruct x as [p kvs n|p ks ts].
    + simpl. apply wp_ret. by eapply HQ.
    + by apply fits_iff in Hfit as ((? & _) & _).
  - destruct x as [p kvs n|p ks ts].
    { by apply fits_iff in Hfit as ((? & _) & _). }
    destruct (node_route h c p ks ts key Hc Hfit) as (f & y & E & Hc' & Hy & Hrf & Hi).
    rewrite E, enc_fill. cbn [is_leaf fnode inner children keys].
    assert (ks = fkeys f) as Hks by (unfold fill in E; congruence). subst ks.
    eapply wp_pure.
    { apply at_app. rewrite length_map, length_fmap. symmetry. exact Hi. }
    rewrite E in *. apply (IH fuel (f :: c) y); try done; [lia|by constructor|].
    intros t2 c' q kvs n Ho2 E2 H1 H2 H3 Hlen.
    eapply HQ; try done. rewrite Hlen. simpl. lia.
Qed.

Lemma FindLeaf_owns h x t r fr key (Q : Z → T → Prop) :
  root_shape h x → owns t (pid x) r (flat INVALID_PAGE_ID x) fr →
  (∀ t' c p kvs n, owns t' (pid x) r (flat INVALID_PAGE_ID x) fr →
     x = plug c (Leaf p kvs n) → cshape 0 c → fits 0 c (Leaf p kvs n) →
     Forall (routes key) c → length c = h → Q p t') →
  wp (FindLeaf key) t Q.
Proof.
  intros Hsh Ho HQ. unfold FindLeaf, iterations. do 2 (apply wp_bind, wp_gets).
  rewrite (own_root _ _ _ _ _ Ho). apply (FindLeaf_loop_owns h _ [] x _ (pid x) r fr); try done.
  - pose proof (length_flat h x INVALID_PAGE_ID (proj1 Hsh)).
    pose proof (owns_iterations _ _ _ _ _ Ho). lia.
  - intros t' c p kvs n Ho' E H1 H2 H3 Hlen. eapply HQ; try done. rewrite Hlen. simpl. lia.
Qed.

(** ** FirstKey *)

(** The leftmost leaf of a tree, and the first key there. *)
Definition starts_with (k : Z) (bs : list block) : Prop :=
  ∃ p v kvs n bs', bs = B p ((k, v) :: kvs) n :: bs'.

Lemma starts_with_first k h p ks x ts :
  shape h x → starts_with k (inorder (Node p ks (x :: ts))) → starts_with k (inorder x).
Proof.
  intros Hsh (q & v & kvs & n & bs & E).
  assert (∃ b bs', inorder x = b :: bs') as (b & bs' & Ex).
  { clear E. revert x Hsh. induction h as [|h IH]; intros [|q' ks' ts'] Hx; try (by destruct Hx as [_ ?]).
    - simpl. eauto.
    - destruct Hx as [_ Hx]. destruct (shape_children h q' ks' ts' Hx) as (y & ys & -> & Hy).
      destruct (IH y Hy) as (b & bs' & Ey). simpl. rewrite Ey. destruct ks'; simpl; eauto. }
  exists q, v, kvs, n. simpl in E. rewrite Ex in E |- *.
  destruct ks; simpl in E; injection E as -> _; eauto.
Qed.

Lemma FirstKey_loop_owns h fuel par x X k t root r l fr (Q : Z → T → Prop) :
  (h ≤ fuel)%nat → top_shape h x → starts_with k (inorder x) →
  owns t root r l fr → l ≡ₚ flat par x ++ X → (∀ t', owns t' root r l fr → Q k t') →
  wp (FirstKey_loop fuel (enc par x)) t Q.
Proof.
  revert fuel par x X t. induction h as [|h IH]; intros fuel par [p kvs n|p ks ts] X t Hf Hsh Hk Ho Hl HQ;
    try done.
  - destruct Hk as (q & v & kvs' & n' & bs & [= <- -> <- <-]).
    unfold FirstKey_loop. destruct fuel; simpl; by apply HQ.
  - destruct fuel as [|fuel]; [lia|].
    destruct (shape_children h p ks ts Hsh) as (y & ys & -> & Hy).
    apply (starts_with_first k h) in Hk; [|done].
    apply shape_top in Hy as [_ Hy]. cbn. eapply wp_pure; [done|].
    assert (l ≡ₚ flat p y ++ (p, inner p par ks (map pid (y :: ys))) :: flats p ys ++ X) as Hl'.
    { rewrite Hl, flat_node, flats_cons. solve_Permutation. }
    eapply wp_read_tree; [exact Ho|exact Hl'|]. intros t1 Ho1.
    by eapply (IH fuel p y); try done; lia.
Qed.

Lemma FirstKey_owns h par x X k t root r l fr (Q : Z → T → Prop) :
  top_shape h x → starts_with k (inorder x) →
  owns t root r l fr → l ≡ₚ flat par x ++ X → (∀ t', owns t' root r l fr → Q k t') →
  wp (FirstKey (pid x)) t Q.
Proof.
  intros Hsh Hk Ho Hl HQ. unfold FirstKey, iterations. apply wp_bind, wp_gets.
  pose proof (length_flat h x par Hsh) as Hn. pose proof (owns_iterations _ _ _ _ _ Ho) as Hi.
  rewrite Hl, length_app in Hi.
  eapply wp_read_tree; [exact Ho|exact Hl|]. intros t1 Ho1.
  eapply FirstKey_loop_owns; [|exact Hsh|exact Hk|exact Ho1|exact Hl|exact HQ]. lia.
Qed.
End search.
