(* ===== verification/TreeInsert.v ===== *)
(** * Insertion into a B+ tree: what its parts do to the represented tree

    [InsertIntoParent] with its splits up to the root, [SplitLeaf], and
    [PropagateMinimumChange]. *)

From S2P Require Export TreeSearch.

Local Open Scope Z_scope.

Section insert.
Context {S : Type} `{PageStoreLaws S}.
Notation T := (BPlusTree S).
Implicit Types (t : T) (l : list cell) (fr : gmap Z bytes).

(** The node of a frame and the position of its hole. *)
Lemma frame_facts t root r l fr f c x X :
  owns t root r l fr → l ≡ₚ flat (fpage f) x ++ cflat (f :: c) (pid x) ++ X →
  find_pos (children (fnode (cpar c) f (pid x))) (pid x) = length (flefts f) ∧
  node_ok (fnode (cpar c) f (pid x)) ∧ fpage f ≠ INVALID_PAGE_ID ∧ in_signed 32 (fpage f) ∧
  (fpage f, fnode (cpar c) f (pid x)) ∈ l.
Proof.
  intros Ho Hl.
  assert ((fpage f, fnode (cpar c) f (pid x)) ∈ l) as Hin.
  { rewrite Hl. simpl. rewrite !elem_of_app, elem_of_cons. auto. }
  destruct (owns_cell _ _ _ _ _ _ _ Ho Hin) as (Hok & _ & Hp & _).
  split_and!; try done; try by apply in_signed_page; unfold INVALID_PAGE_ID; try lia.
  - cbn [children fnode inner]. rewrite find_pos_app.
    + by rewrite length_map, length_fmap.
    + apply (pid_not_sibling l (fpage f) _ _ (enc (fpage f) x)); [apply Ho|].
      rewrite Hl, flat_below. simpl. unfold fsides. solve_submseteq.
  - unfold INVALID_PAGE_ID. lia.
Qed.

(** ** InsertIntoParent *)

(** Splitting the root: a new root above the two halves. *)
Lemma new_root_owns h fuel tl k tr t r l fr (Q : unit → T → Prop) :
  shape h tl → shape h tr → in_signed 64 k →
  owns t (pid tl) r l fr → l ≡ₚ flat INVALID_PAGE_ID tl ++ flat INVALID_PAGE_ID tr →
  Z.of_nat (length l) < r →
  (∀ t' p, owns t' p r (flat INVALID_PAGE_ID (Node p [k] [tl; tr])) fr →
     root_shape (Datatypes.S h) (Node p [k] [tl; tr]) → Q tt t') →
  wp (InsertIntoParent_loop fuel (enc INVALID_PAGE_ID tl) k (enc INVALID_PAGE_ID tr)) t Q.
Proof.
  intros Htl Htr Hk Ho Hl Hr HQ.
  assert (InsertIntoParent_loop (S := S) fuel (enc INVALID_PAGE_ID tl) k (enc INVALID_PAGE_ID tr) =
    InsertIntoParent_loop 0 (enc INVALID_PAGE_ID tl) k (enc INVALID_PAGE_ID tr)) as ->.
  { destruct fuel; [done|]. simpl. by rewrite enc_parent. }
  unfold InsertIntoParent_loop. rewrite enc_parent, !enc_page. simpl.
  destruct (owns_tree _ _ _ _ _ _ _ _ Ho Hl) as (Hokl & _ & Hpl & _).
  assert (l ≡ₚ flat INVALID_PAGE_ID tr ++ flat INVALID_PAGE_ID tl) as Hl' by (rewrite Hl; solve_Permutation).
  destruct (owns_tree _ _ _ _ _ _ _ _ Ho Hl') as (Hokr & _ & Hpr & _).
  eapply wp_create; [exact Ho|done| |].
  { intros p Hp. apply (proj2 (inner_ok p INVALID_PAGE_ID [k] [pid tl; pid tr])).
    rewrite !Forall_cons, !Forall_nil. split_and!; simpl; try (done || lia).
    by apply in_signed_page. }
  intros p t1 Hp Ho1. apply in_signed_page in Hp. apply wp_bind, wp_modify.
  apply (set_root_owns _ _ p) in Ho1. rewrite !enc_set_parent.
  set (rn := (p, set_page_id p _)) in *.
  eapply wp_write with (p := pid tl) (n0 := enc INVALID_PAGE_ID tl)
    (l0 := below tl ++ rn :: flat INVALID_PAGE_ID tr); [exact Ho1| |apply enc_page| |].
  { rewrite Hl, (flat_below _ tl). solve_Permutation. }
  { rewrite <- (enc_set_parent p INVALID_PAGE_ID). by apply node_ok_set_parent. }
  intros t2 Ho2.
  eapply WriteNode_owns with (p := pid tr) (n0 := enc INVALID_PAGE_ID tr)
    (l0 := below tr ++ rn :: flat p tl); [exact Ho2| |apply enc_page| |].
  { rewrite (flat_below _ tr), (flat_below _ tl). solve_Permutation. }
  { rewrite <- (enc_set_parent p INVALID_PAGE_ID). by apply node_ok_set_parent. }
  intros t3 Ho3. apply (HQ t3 p).
  - eapply owns_perm; [|exact Ho3]. rewrite flat_node. subst rn.
    rewrite !flats_cons, flats_nil, (flat_below p tr). unfold set_page_id, new_node, inner. simpl.
    solve_Permutation.
  - unfold root_shape. simpl. rewrite !Forall_cons, Forall_nil. split_and!; done || lia.
Qed.

(** A parent of five keys is split in two halves of two keys. *)
Lemma split_five (ks : list Z) (ts : list tree) :
  length ks = 5%nat → length ts = 6%nat →
  ∃ ks1 k ks2 ts1 ts2, ks = ks1 ++ k :: ks2 ∧ ts = ts1 ++ ts2 ∧
    length ks1 = 2%nat ∧ length ks2 = 2%nat ∧ length ts1 = 3%nat ∧ length ts2 = 3%nat.
Proof.
  intros Hks Hts. destruct (list_cut ks 2) as (ks1 & k & ks2 & -> & Hk1); [lia|].
  exists ks1, k, ks2, (take 3 ts), (drop 3 ts). rewrite take_drop, length_take, length_drop.
  rewrite length_app in Hks. simpl in Hks. split_and!; try done; lia.
Qed.

Lemma split_parent_owns h p par ks ts t root r l X fr (Q : unit → T → Prop)
    (k : Z → BPlusTreeNode → BPlusTreeNode → M T unit) :
  length ks = 5%nat → length ts = 6%nat → Forall (shape h) ts → Forall (in_signed 64) ks →
  in_signed 32 par → Z.of_nat (length l) < r →
  owns t root r l fr → (∃ n0, l ≡ₚ (p, n0) :: flats p ts ++ X) →
  (∀ t' tl m tr, pid tl = p → shape (Datatypes.S h) tl → shape (Datatypes.S h) tr → m ∈ ks →
     (∀ q, inorder (Node q ks ts) = inorder tl ++ Sp m :: inorder tr) →
     owns t' root r (flat par tl ++ flat par tr ++ X) fr →
     length (flat par tl ++ flat par tr ++ X) = Datatypes.S (length l) →
     wp (k m (enc par tl) (enc par tr)) t' Q) →
  wp (promoted_key ← at_ ks 2;
      let new_right := new_node false par (drop 3 ks) [] (drop 3 (map pid ts)) INVALID_PAGE_ID in
      let parent := set_children (resize 3 0 (map pid ts)) (set_keys (resize 2 0 ks)
                      (inner p par ks (map pid ts))) in
      new_id ← CreateNode new_right;
      let new_right := set_page_id new_id new_right in
      SetChildrenParent (children new_right) new_id ;;
      WriteNode parent ;;
      k promoted_key parent new_right) t Q.
Proof.
  intros Hks Hts Hsh Hk Hpar Hr Ho [n0 Hl] HQ.
  destruct (split_five ks ts Hks Hts) as (ks1 & m & ks2 & ts1 & ts2 & -> & -> & H1 & H2 & H3 & H4).
  apply Forall_app in Hsh as [Hs1 Hs2]. pose proof Hk as [Hk1 [Hm Hk2]%Forall_cons]%Forall_app.
  assert (∀ ts', ts' ⊆+ ts1 ++ ts2 → Forall (in_signed 32) (map pid ts')) as Hpids.
  { intros ts' Hsub. apply Forall_forall. intros q Hq.
    assert (q ∈ (flats p (ts1 ++ ts2)).*1) as Hin.
    { apply pid_in_flats. eapply elem_of_submseteq; [exact Hq|]. by apply (fmap_submseteq pid). }
    apply list_elem_of_fmap in Hin as ([q' n] & -> & Hin).
    assert ((q', n) ∈ l) as Hin' by (rewrite Hl; right; apply elem_of_app; by left).
    apply in_signed_page. by destruct (owns_cell _ _ _ _ _ _ _ Ho Hin') as (_ & _ & ? & _). }
  assert ((p, n0) ∈ l) as Hpin by (rewrite Hl; left).
  destruct (owns_cell _ _ _ _ _ _ _ Ho Hpin) as (_ & _ & Hp & _). apply in_signed_page in Hp.
  rewrite map_app. eapply wp_pure; [by apply at_app|].
  rewrite (cons_middle m), app_assoc, !drop_app_length' by (rewrite ?length_app, ?length_map; simpl; lia).
  rewrite <- app_assoc, !resize_app_le, !resize_all_alt by (rewrite ?length_map; lia). cbv zeta.
  change (set_children (map pid ts1) (set_keys ks1 (inner p par (ks1 ++ [m] ++ ks2) (map pid ts1 ++ map pid ts2))))
    with (enc par (Node p ks1 ts1)).
  eapply wp_create; [exact Ho|done| |].
  { intros q Hq%in_signed_page. apply (proj2 (inner_ok q par ks2 (map pid ts2))).
    split_and!; try (done || rewrite ?length_map; lia). apply Hpids. by apply submseteq_inserts_l. }
  intros q t1 Hq Ho1.
  change (set_page_id q (new_node false par ks2 [] (map pid ts2) INVALID_PAGE_ID))
    with (enc par (Node q ks2 ts2)) in *.
  apply wp_bind. eapply SetChildrenParent_owns with (p := p)
    (l0 := (q, enc par (Node q ks2 ts2)) :: (p, n0) :: flats p ts1 ++ X);
    [exact Ho1| |by apply in_signed_page|].
  { rewrite Hl, flats_app. solve_Permutation. }
  intros t2 Ho2. eapply wp_write with (p := p) (n0 := n0)
    (l0 := flats q ts2 ++ (q, enc par (Node q ks2 ts2)) :: flats p ts1 ++ X); [exact Ho2| |done| |].
  { solve_Permutation. }
  { apply (proj2 (inner_ok p par ks1 (map pid ts1))).
    split_and!; try (done || rewrite ?length_map; lia). apply Hpids. by apply submseteq_inserts_r. }
  intros t3 Ho3. apply HQ; try done.
  - simpl. split_and!; try lia. done.
  - simpl. split_and!; try lia. done.
  - apply elem_of_app. right. left.
  - intros q'. apply inorder_split. lia.
  - eapply owns_perm; [|exact Ho3]. rewrite !flat_node. simpl. solve_Permutation.
  - rewrite !flat_node, Hl, flats_app. simpl. rewrite !length_app. simpl.
    rewrite !length_app, (length_flats_par q p ts2). lia.
Qed.

(** The frame of a parent that takes a new right sibling of its hole. *)
Definition with_sibling (f : frame) (k : Z) (tr : tree) : frame :=
  Frm (fpage f) (flefts f) ((k, tr) :: frights f).

Lemma fcount_with_sibling f k tr : fcount (with_sibling f k tr) = Datatypes.S (fcount f).
Proof. unfold fcount. simpl. lia. Qed.

Lemma with_sibling_node f k tr par q :
  fnode par (with_sibling f k tr) q =
  inner (fpage f) par ((flefts f).*2 ++ k :: (frights f).*1)
    (map pid (flefts f).*1 ++ q :: pid tr :: map pid (frights f).*2).
Proof. reflexivity. Qed.

Lemma fsides_with_sibling f k tr :
  fsides (with_sibling f k tr) ≡ₚ flat (fpage f) tr ++ fsides f.
Proof. unfold fsides. simpl. rewrite flats_cons. solve_Permutation. Qed.

Lemma fill_cells f x :
  flats (fpage f) ((flefts f).*1 ++ x :: (frights f).*2) ≡ₚ flat (fpage f) x ++ fsides f.
Proof. unfold fsides. rewrite flats_app, flats_cons. solve_Permutation. Qed.

Lemma with_sibling_ok t root r l fr f c k tl tr X :
  in_signed 64 k → node_ok (fnode (cpar c) f (pid tl)) → in_signed 32 (pid tr) →
  owns t root r l fr → l ≡ₚ flat (fpage f) tr ++ X → (fcount f < 4)%nat →
  node_ok (fnode (cpar c) (with_sibling f k tr) (pid tl)).
Proof.
  intros Hk (Hp & Hpar & Hks & Hcs & _ & _)%inner_ok Htr Ho Hl Hc.
  rewrite with_sibling_node. apply inner_ok.
  unfold fkeys in *. rewrite !Forall_app, !Forall_cons in *.
  unfold fcount in Hc. rewrite !length_app, !length_cons, ?length_map, ?length_fmap.
  split_and!; try lia; tauto.
Qed.

(** The parent has room: it is written, and the tree is complete. *)
Lemma room_owns h f c k tl tr t root r l fr (Q : unit → T → Prop) :
  let g := with_sibling f k tr in
  cshape h (f :: c) → shape h tl → shape h tr → (fcount f < 4)%nat →
  node_ok (fnode (cpar c) g (pid tl)) → pid (plug (f :: c) tl) = root →
  owns t root r l fr →
  l ≡ₚ (fpage f, fnode (cpar c) f (pid tl)) :: flat (fpage f) tl ++ fsides g ++ cflat c (fpage f) →
  (∀ t' h' x, owns t' (pid x) r (flat INVALID_PAGE_ID x) fr → root_shape h' x →
     inorder x = cleft (f :: c) ++ inorder tl ++ Sp k :: inorder tr ++ cright (f :: c) → Q tt t') →
  wp (WriteNode (fnode (cpar c) g (pid tl))) t Q.
Proof.
  intros g (Hsl & Hsr & Hmax & Hone & Hmin & Hc) Htl Htr Hfit Hok Hroot Ho Hl HQ.
  eapply (owns_perm _ _ _ _ _ fr) in Ho; [|exact Hl].
  eapply WriteNode_owns with (p := fpage f); [exact Ho|reflexivity|done|exact Hok|].
  intros t3 Ho3. apply (HQ t3 (h + length (g :: c))%nat (plug (g :: c) tl)).
  - change (plug (g :: c) tl) with (plug c (fill g tl)).
    rewrite (pid_plug c _ (fill f tl)) by done. change (plug c (fill f tl)) with (plug (f :: c) tl).
    rewrite Hroot. eapply owns_perm; [|exact Ho3].
    change (plug c (fill g tl)) with (plug (g :: c) tl).
    rewrite (flat_plug (g :: c)). simpl. solve_Permutation.
  - apply root_shape_plug; [|exact Htl]. simpl. unfold g. rewrite fcount_with_sibling.
    split_and!; try done; try lia. by apply Forall_cons.
  - rewrite inorder_plug. simpl. unfold rights at 1. simpl. fold (rights (frights f)).
    by rewrite <- !app_assoc.
Qed.

(** The key that a split promotes. *)
Lemma promoted_signed f k tr m :
  Forall (in_signed 64) (fkeys f) → in_signed 64 k → m ∈ fkeys (with_sibling f k tr) → in_signed 64 m.
Proof.
  unfold fkeys. simpl. intros [Hk1 Hk2]%Forall_app Hk [Hm|[->|Hm]%elem_of_cons]%elem_of_app; [|done|].
  - by apply (proj1 (Forall_forall _ _) Hk1).
  - by apply (proj1 (Forall_forall _ _) Hk2).
Qed.

(** The order after a split of the parent, seen from above and from below. *)
Lemma split_order f c k tl tr tl' m tr' :
  let g := with_sibling f k tr in
  inorder (Node (fpage f) (fkeys g) ((flefts g).*1 ++ tl :: (frights g).*2)) =
    inorder tl' ++ Sp m :: inorder tr' →
  cleft c ++ inorder tl' ++ Sp m :: inorder tr' ++ cright c =
    cleft (f :: c) ++ inorder tl ++ Sp k :: inorder tr ++ cright (f :: c).
Proof.
  intros g Hino. simpl cleft. simpl cright. rewrite <- app_assoc. f_equal.
  change (inorder tl' ++ Sp m :: inorder tr' ++ cright c)
    with (inorder tl' ++ (Sp m :: inorder tr') ++ cright c).
  rewrite app_assoc, <- Hino.
  change (Node (fpage f) (fkeys g) ((flefts g).*1 ++ tl :: (frights g).*2)) with (fill g tl).
  rewrite inorder_fill. simpl. unfold rights at 1. simpl. fold (rights (frights f)).
  by app_norm.
Qed.

Lemma InsertIntoParent_loop_owns c h fuel tl k tr t root r l fr (Q : unit → T → Prop) :
  (length c ≤ fuel)%nat → cshape h c → shape h tl → shape h tr → in_signed 64 k →
  owns t root r l fr → root = pid (plug c tl) →
  l ≡ₚ flat (cpar c) tl ++ flat (cpar c) tr ++ cflat c (pid tl) →
  Z.of_nat (length l) + Z.of_nat (length c) < r →
  (∀ t' h' x, owns t' (pid x) r (flat INVALID_PAGE_ID x) fr → root_shape h' x →
     inorder x = cleft c ++ inorder tl ++ Sp k :: inorder tr ++ cright c → Q tt t') →
  wp (InsertIntoParent_loop fuel (enc (cpar c) tl) k (enc (cpar c) tr)) t Q.
Proof.
  revert h fuel tl k tr t root r l.
  induction c as [|f c IH]; intros h fuel tl k tr t root r l Hfuel Hc Htl Htr Hk Ho -> Hl Hr HQ.
  { simpl in Hl, Hr, Ho |- *. rewrite app_nil_r in Hl.
    eapply new_root_owns; [exact Htl|exact Htr|done|exact Ho|exact Hl|lia|].
    intros t' p Ho' Hs. eapply (HQ t' _ (Node p [k] [tl; tr])); [exact Ho'|exact Hs|]. simpl. by rewrite app_nil_r. }
  destruct fuel as [|fuel]; [simpl in Hfuel; lia|].
  simpl in Hfuel, Hr. set (g := with_sibling f k tr).
  assert (l ≡ₚ flat (fpage f) tl ++ cflat (f :: c) (pid tl) ++ flat (fpage f) tr) as Hl1.
  { rewrite Hl. simpl cpar. solve_Permutation. }
  assert (l ≡ₚ flat (fpage f) tr ++ flat (fpage f) tl ++ cflat (f :: c) (pid tl)) as Hl2.
  { rewrite Hl1. solve_Permutation. }
  destruct (frame_facts _ _ _ _ _ _ _ _ _ Ho Hl1) as (Hpos & Hok & Hne & Hp & Hin).
  destruct (owns_tree _ _ _ _ _ _ _ _ Ho Hl2) as (Hokr & _ & Hpr & _).
  pose proof Hok as (_ & Hpar & Hks & _)%inner_ok.
  cbn [InsertIntoParent_loop]. rewrite enc_parent, !enc_page. simpl cpar at 1 2.
  rewrite (proj2 (Z.eqb_neq _ _) Hne).
  eapply wp_read; [exact Ho|exact Hin|]. intros t1 Ho1. rewrite Hpos.
  cbn [keys children fnode inner parent_id node_page_id].
  eapply wp_pure; [apply vinsert_app; by rewrite length_fmap|].
  rewrite (cons_middle (pid tl)), app_assoc.
  eapply wp_pure; [apply vinsert_app; rewrite length_app, length_map, length_fmap; simpl; lia|].
  rewrite <- app_assoc. cbn [app]. cbv zeta.
  change ((flefts f).*2 ++ k :: (frights f).*1) with (fkeys g).
  change (map pid (flefts f).*1 ++ pid tl :: pid tr :: map pid (frights f).*2)
    with (map pid (flefts g).*1 ++ pid tl :: map pid (frights g).*2).
  unfold set_keys, set_children. unfold fnode.
  cbn [is_leaf node_page_id parent_id keys values children next_leaf inner].
  rewrite enc_set_parent.
  set (cs := map pid (flefts g).*1 ++ pid tl :: map pid (frights g).*2).
  change (mkNode false (fpage f) (cpar c) (fkeys g) [] cs INVALID_PAGE_ID)
    with (fnode (cpar c) g (pid tl)).
  eapply wp_write with (p := pid tr) (n0 := enc (fpage f) tr)
    (l0 := below tr ++ flat (fpage f) tl ++ cflat (f :: c) (pid tl));
    [exact Ho1|by rewrite Hl2, (flat_below _ tr)|apply enc_page|done|].
  intros t2 Ho2.
  assert (l ≡ₚ (fpage f, fnode (cpar c) f (pid tl)) ::
    flat (fpage f) tl ++ fsides g ++ cflat c (fpage f)) as Hl3.
  { unfold g. rewrite Hl1, fsides_with_sibling. simpl. solve_Permutation. }
  rewrite Hl3 in Hr. eapply (owns_perm _ _ _ _ _ fr) in Ho2.
  2: { etransitivity; [|exact Hl3]. by rewrite Hl2, (flat_below _ tr). }
  destruct Hc as (Hsl & Hsr & Hmax & Hone & Hmin & Hc).
  case_bool_decide as Hfit; rewrite length_fkeys in Hfit; unfold g in Hfit;
    rewrite fcount_with_sibling in Hfit; unfold MAX_KEYS in Hfit; fold g in Hfit.
  - eapply (room_owns h f c k tl tr); [by split_and!|done|done|lia| |reflexivity|exact Ho2|reflexivity|exact HQ].
    eapply with_sibling_ok; [done|done|done|exact Ho|exact Hl2|lia].
  - set (ts := (flefts g).*1 ++ tl :: (frights g).*2).
    assert (cs = map pid ts) as -> by (unfold cs, ts; by rewrite map_app).
    assert (length (fkeys g) = 5%nat) as Hk5.
    { rewrite length_fkeys. unfold g. rewrite fcount_with_sibling. lia. }
    rewrite Hk5. change (Nat.div 5 2) with 2%nat. change (2 + 1)%nat with 3%nat.
    eapply (split_parent_owns h (fpage f) (cpar c) (fkeys g) ts t2 _ r _ (cflat c (fpage f)) fr Q
      (λ m tl tr, InsertIntoParent_loop fuel tl m tr)); [done|..|exact Ho2| |].
    + rewrite <- Hk5, length_fkeys. unfold ts, fcount. rewrite length_app. simpl.
      rewrite !length_fmap. simpl. lia.
    + apply Forall_app. split; [done|]. apply Forall_cons. split; [done|]. by apply Forall_cons.
    + unfold fkeys in *. simpl. rewrite Forall_app in Hks. apply Forall_app. split; [tauto|].
      apply Forall_cons. tauto.
    + done.
    + lia.
    + eexists. pose proof (fill_cells g tl) as Hg. change (fpage g) with (fpage f) in Hg.
      unfold ts. rewrite Hg. by rewrite <- app_assoc.
    + intros t3 tl' m tr' Hpid Hsl' Hsr' Hm Hino Ho3 Hlen3.
      assert (in_signed 64 m) as Hm64 by (by eapply promoted_signed).
      eapply (IH (Datatypes.S h)); [lia|exact Hc|exact Hsl'|exact Hsr'|done|exact Ho3| | | |].
      * simpl plug. by apply pid_plug.
      * by rewrite Hpid.
      * rewrite Hlen3. lia.
      * intros t4 h' x Ho4 Hx Hix. apply (HQ t4 h' x); try done.
        rewrite Hix. apply split_order, Hino.
Qed.

Lemma length_cflat c q : (length c ≤ length (cflat c q))%nat.
Proof.
  revert q. induction c as [|f c IH]; intros q; simpl; [done|].
  rewrite length_app. pose proof (IH (fpage f)). lia.
Qed.

Lemma InsertIntoParent_owns c h tl k tr t root r l fr (Q : unit → T → Prop) :
  cshape h c → shape h tl → shape h tr → in_signed 64 k →
  owns t root r l fr → root = pid (plug c tl) →
  l ≡ₚ flat (cpar c) tl ++ flat (cpar c) tr ++ cflat c (pid tl) →
  Z.of_nat (length l) + Z.of_nat (length c) < r →
  (∀ t' h' x, owns t' (pid x) r (flat INVALID_PAGE_ID x) fr → root_shape h' x →
     inorder x = cleft c ++ inorder tl ++ Sp k :: inorder tr ++ cright c → Q tt t') →
  wp (InsertIntoParent (enc (cpar c) tl) k (enc (cpar c) tr)) t Q.
Proof.
  intros Hc Htl Htr Hk Ho Hroot Hl Hr HQ. unfold InsertIntoParent, iterations.
  apply wp_bind, wp_gets. eapply InsertIntoParent_loop_owns; try done.
  pose proof (owns_iterations _ _ _ _ _ Ho) as Hi. rewrite Hl, !length_app in Hi.
  pose proof (length_cflat c (pid tl)). lia.
Qed.

(** ** SplitLeaf *)

Lemma Forall_fst_snd {A B} (P : A → Prop) (R : B → Prop) (l1 l2 : list (A * B)) :
  Forall P (l1 ++ l2).*1 → Forall R (l1 ++ l2).*2 →
  (Forall P l1.*1 ∧ Forall R l1.*2) ∧ (Forall P l2.*1 ∧ Forall R l2.*2).
Proof. rewrite !fmap_app, !Forall_app. tauto. Qed.

Lemma SplitLeaf_owns c p kvs0 kvs n t r fr (Q : unit → T → Prop) :
  cshape 0 c → length kvs = 5%nat →
  Forall (in_signed 64) kvs.*1 → Forall (in_signed 64) kvs.*2 →
  owns t (pid (plug c (Leaf p kvs0 n))) r (flat INVALID_PAGE_ID (plug c (Leaf p kvs0 n))) fr →
  Z.of_nat (length (flat INVALID_PAGE_ID (plug c (Leaf p kvs0 n)))) + Z.of_nat (length c) + 1 < r →
  (∀ t' h' x a k v b q, owns t' (pid x) r (flat INVALID_PAGE_ID x) fr → root_shape h' x →
     kvs = a ++ (k, v) :: b → length a = 3%nat →
     inorder x = cleft c ++ B p a q :: Sp k :: B q ((k, v) :: b) n :: cright c → Q tt t') →
  wp (SplitLeaf (enc (cpar c) (Leaf p kvs n))) t Q.
Proof.
  intros Hc Hlen Hks Hvs Ho Hr HQ. pose proof (flat_plug c (Leaf p kvs0 n)) as Hl.
  destruct (owns_tree _ _ _ _ _ _ _ _ Ho Hl) as (Hok & _ & Hp & _).
  apply leaf_ok in Hok as (_ & Hpar & Hn & _).
  destruct (list_cut kvs 3) as (a & [k v] & b & -> & Ha); [lia|].
  rewrite length_app in Hlen. simpl in Hlen.
  destruct (Forall_fst_snd _ _ _ _ Hks Hvs) as [[Hka Hva] [Hkb Hvb]].
  unfold SplitLeaf. cbn [enc keys values parent_id next_leaf]. rewrite !fmap_app.
  rewrite length_app, !length_fmap. cbn [length]. replace (length a + _ + 1)%nat with 6%nat by lia.
  change (Nat.div 6 2) with 3%nat.
  rewrite !drop_app_length', !resize_app_le, !resize_all_alt by (rewrite length_fmap; lia). cbv zeta.
  eapply wp_create; [exact Ho|lia| |].
  { intros q Hq%in_signed_page.
    apply (proj2 (leaf_ok q (cpar c) ((k, v) :: b) n)). split_and!; try done. simpl. lia. }
  intros q t1 Hq Ho1.
  change (set_page_id q (new_node true (cpar c) ((k, v) :: b).*1 ((k, v) :: b).*2 [] n))
    with (enc (cpar c) (Leaf q ((k, v) :: b) n)) in *.
  change (set_next q _) with (enc (cpar c) (Leaf p a q)).
  set (tl := Leaf p a q). set (tr := Leaf q ((k, v) :: b) n).
  eapply wp_write with (p := p) (n0 := enc (cpar c) (Leaf p kvs0 n))
    (l0 := (q, enc (cpar c) tr) :: cflat c p); [exact Ho1| |done| |].
  { rewrite Hl. simpl. solve_Permutation. }
  { apply leaf_ok. split_and!; try done; [by apply in_signed_page|lia]. }
  intros t2 Ho2. eapply wp_pure; [done|]. cbn [fst].
  eapply (InsertIntoParent_owns c 0 tl k tr); [done| | | |exact Ho2| | |rewrite Hl in Hr; simpl in Hr |- *; lia|].
  - split; [|done]. simpl. lia.
  - split; [|done]. simpl. lia.
  - by apply Forall_cons in Hkb as [? _].
  - by apply pid_plug.
  - done.
  - intros t3 h' x Ho3 Hx Hi. by apply (HQ t3 h' x a k v b q).
Qed.

(** ** PropagateMinimumChange *)

(** The new separators on the left of the path: the last one, if any, becomes
    the first key. *)
Definition raised (k : Z) (c c' : context) : Prop :=
  c' = c ∨ ∃ X s, cleft c = X ++ [Sp s] ∧ cleft c' = X ++ [Sp k].

Lemma raise_separator f (l : list (tree * Z)) x s k :
  flefts f = l ++ [(x, s)] →
  let g := Frm (fpage f) (l ++ [(x, k)]) (frights f) in
  fkeys g = l.*2 ++ k :: (frights f).*1 ∧ fcount g = fcount f ∧ fsides g = fsides f ∧
  (flefts g).*1 = (flefts f).*1 ∧ (∀ par q, fnode par g q = set_keys (fkeys g) (fnode par f q)).
Proof.
  intros E g. unfold fkeys, fcount, fsides, fnode, fkeys. simpl. rewrite E.
  rewrite !fmap_app. simpl. rewrite !length_app. simpl. rewrite <- !app_assoc. done.
Qed.

(** The separator before the subtree is replaced by its first key. *)
Lemma raise_owns h f c (l' : list (tree * Z)) y s x k t root r fr (Q : unit → T → Prop) :
  let g := Frm (fpage f) (l' ++ [(y, k)]) (frights f) in
  flefts f = l' ++ [(y, s)] → cshape h (f :: c) → shape h x → starts_with k (inorder x) →
  in_signed 64 k → node_ok (fnode (cpar c) f (pid x)) →
  owns t root r (flat INVALID_PAGE_ID (plug (f :: c) x)) fr →
  (∀ t', owns t' root r (flat INVALID_PAGE_ID (plug (g :: c) x)) fr → cshape h (g :: c) →
     pid (plug (f :: c) x) = pid (plug (g :: c) x) → raised k (f :: c) (g :: c) → Q tt t') →
  wp (k ← FirstKey (pid x); ks ← vset (length l') k (keys (fnode (cpar c) f (pid x)));
      WriteNode (set_keys ks (fnode (cpar c) f (pid x)))) t Q.
Proof.
  intros g El (Hsl & Hsr & Hmax & Hone & Hmin & Hc') Hx Hk Hk64 Hok Ho HQ.
  pose proof (flat_plug (f :: c) x) as Hl.
  destruct (raise_separator f l' y s k El) as (Ek & Ec & Es & Et & En). fold g in Ek, Ec, Es, Et, En.
  apply wp_bind. eapply (FirstKey_owns h); [apply shape_top, Hx|exact Hk|exact Ho|exact Hl|].
  intros t3 Ho3. cbn [keys fnode inner]. unfold fkeys at 1. rewrite El, fmap_app, <- app_assoc.
  cbn [fmap list_fmap fst snd app].
  eapply wp_pure; [apply vset_app; by rewrite length_fmap|].
  rewrite <- Ek, <- En.
  eapply WriteNode_owns with (p := fpage f); [exact Ho3| |done| |].
  { rewrite Hl. simpl. rewrite Permutation_app_comm. simpl. reflexivity. }
  { rewrite En. destruct Hok as [? ? ? Hks ? ? Hcnt ? Hnd]. split; simpl in *; try done.
    - rewrite Ek. unfold fkeys in Hks. rewrite El, fmap_app, <- app_assoc in Hks. simpl in Hks.
      rewrite Forall_app, Forall_cons in *. tauto.
    - rewrite length_fkeys in *. lia.
    - intros _. rewrite length_fkeys in *. rewrite Ec. by apply Hnd. }
  intros t4 Ho4. apply (HQ t4).
  - eapply owns_perm; [|exact Ho4]. rewrite (flat_plug (g :: c)). simpl. rewrite Es. solve_Permutation.
  - split_and!; simpl; try done; try lia.
    + by rewrite <- Et in Hsl.
    + intros. rewrite Ec. auto.
  - simpl. by apply pid_plug.
  - right. exists (cleft c ++ lefts l' ++ inorder y), s. simpl. rewrite El, !lefts_last.
    by rewrite !app_assoc.
Qed.

Lemma PropagateMinimumChange_loop_owns c h fuel x k t root r fr (Q : unit → T → Prop) :
  (length c ≤ fuel)%nat → cshape h c → fits h c x → starts_with k (inorder x) → in_signed 64 k →
  owns t root r (flat INVALID_PAGE_ID (plug c x)) fr → root = pid (plug c x) →
  (∀ t' c', owns t' root r (flat INVALID_PAGE_ID (plug c' x)) fr → cshape h c' →
     root = pid (plug c' x) → (c = [] ↔ c' = []) →
     cright c' = cright c → raised k c c' → Q tt t') →
  wp (PropagateMinimumChange_loop fuel (pid x)) t Q.
Proof.
  revert h fuel x t. induction c as [|f c IH]; intros h fuel x t Hfuel Hc Hfit Hk Hk64 Ho -> HQ.
  { destruct fuel; (eapply wp_root; [exact Ho|]); simpl; rewrite Z.eqb_refl;
      apply wp_ret; eapply (HQ t []); try done; by left. }
  destruct fuel as [|fuel]; [simpl in Hfuel; lia|].
  pose proof (flat_plug (f :: c) x) as Hl.
  assert (pid x ≠ pid (plug (f :: c) x)) as Hne.
  { intros E. pose proof (own_nodup _ _ _ _ _ Ho) as Hnd. rewrite Hl, fmap_app, flat_below in Hnd.
    apply NoDup_app in Hnd as (_ & Hnd & _). apply (Hnd (pid x)); [left|].
    rewrite E at 1. apply pid_root_in_cflat. }
  cbn [PropagateMinimumChange_loop]. eapply wp_root; [exact Ho|].
  rewrite (proj2 (Z.eqb_neq _ _) Hne).
  eapply wp_read_tree; [exact Ho|exact Hl|]. intros t1 Ho1. rewrite enc_parent.
  assert (flat INVALID_PAGE_ID (plug (f :: c) x) ≡ₚ
    flat (fpage f) x ++ cflat (f :: c) (pid x) ++ []) as Hl1 by by rewrite app_nil_r.
  destruct (frame_facts _ _ _ _ _ _ _ _ _ Ho Hl1) as (Hpos & Hok & _ & Hp & Hin).
  eapply wp_read; [exact Ho1|exact Hin|]. intros t2 Ho2. rewrite Hpos.
  pose proof Hc as (Hsl & Hsr & Hmax & Hone & Hmin & Hc').
  assert (shape h x) as Hx by exact Hfit.
  destruct (flefts f) as [|[y s] l' _] eqn:El using rev_ind.
  - (* the leftmost child: walk on *)
    simpl length. cbn iota.
    apply (IH (Datatypes.S h) fuel (fill f x)); try done.
    + simpl in Hfuel. lia.
    + by apply fits_fill.
    + destruct Hk as (q & v & kvs & n & bs & E). rewrite inorder_fill, El, E.
      exists q, v, kvs, n. eexists. reflexivity.
    + intros t' c' Ho' Hc2 Hroot Hnil Hright Hraise. apply (HQ t' (f :: c')); try done.
      * rewrite <- El in *. split_and!; try done. intros Hne'. apply Hmin. tauto.
      * simpl. by rewrite Hright.
      * simpl. destruct Hraise as [->|(X & s & E1 & E2)]; [by left|right].
        exists X, s. simpl. rewrite El. unfold lefts. simpl. by rewrite !app_nil_r.
  - (* the separator before the subtree *)
    rewrite length_app. simpl length. rewrite Nat.add_1_r. cbn iota. rewrite <- El in *.
    eapply (raise_owns h f c l' y s x k); try done.
    intros t4 Ho4 Hc4 Hpid4 Hr4. by apply (HQ t4 (Frm (fpage f) (l' ++ [(y, k)]) (frights f) :: c)).
Qed.

Lemma PropagateMinimumChange_owns c h x k t root r fr (Q : unit → T → Prop) :
  cshape h c → fits h c x → starts_with k (inorder x) → in_signed 64 k →
  owns t root r (flat INVALID_PAGE_ID (plug c x)) fr → root = pid (plug c x) →
  (∀ t' c', owns t' root r (flat INVALID_PAGE_ID (plug c' x)) fr → cshape h c' →
     root = pid (plug c' x) → (c = [] ↔ c' = []) →
     cright c' = cright c → raised k c c' → Q tt t') →
  wp (PropagateMinimumChange (pid x)) t Q.
Proof.
  intros Hc Hfit Hk Hk64 Ho Hroot HQ. unfold PropagateMinimumChange, iterations.
  apply wp_bind, wp_gets. eapply PropagateMinimumChange_loop_owns; try done.
  pose proof (owns_iterations _ _ _ _ _ Ho) as Hi. rewrite flat_plug, length_app in Hi.
  pose proof (length_cflat c (pid x)). lia.
Qed.
End insert.
