(* ===== verification/TreeMap.v ===== *)
(** * The map a B+ tree holds: Search, RangeScan and Insert

    [holds t r fr m]: the tree object [t] is well formed and holds the map
    [m]; the other pages of its store are [fr] and the tree may grow to [r]
    pages.  The operations against that map. *)

From S2P Require Export TreeInsert.

Local Open Scope Z_scope.

Record tree_ok (h : nat) (x : tree) : Prop := {
  tree_shape : root_shape h x;
  tree_sorted : sorted (inorder x);
  tree_linked : linked INVALID_PAGE_ID (leaves (inorder x));
}.

(** ** Looking a key up in its leaf *)

(** A leaf split at the position of a key, in its place in the tree. *)
Record located (key : Z) (x : tree) (c : context) (p : Z) (a b : list (Z * Z)) (n : Z) : Prop := {
  loc_tree : x = plug c (Leaf p (a ++ b) n);
  loc_shape : cshape 0 c;
  loc_fits : fits 0 c (Leaf p (a ++ b) n);
  loc_before : before key (cleft c);
  loc_after : after key (cright c);
  loc_index : lower_bound (a ++ b).*1 key = length a;
  loc_left : ∀ k, k ∈ a.*1 → k < key;
  loc_right : ∀ k, k ∈ b.*1 → key ≤ k;
  loc_sorted : sorted (cleft c ++ B p (a ++ b) n :: cright c);
  loc_linked : linked INVALID_PAGE_ID (leaves (cleft c ++ B p (a ++ b) n :: cright c));
}.

Lemma sorted_leaf L p kvs n R : sorted (L ++ B p kvs n :: R) → StronglySorted Z.lt kvs.*1.
Proof.
  unfold sorted. rewrite codes_app, codes_cons. simpl.
  intros (_ & _ & (_ & Hs & _)%StronglySorted_app)%StronglySorted_app. by apply sorted_keys.
Qed.

Lemma located_intro key h x c p kvs n :
  tree_ok h x → x = plug c (Leaf p kvs n) → cshape 0 c → fits 0 c (Leaf p kvs n) →
  Forall (routes key) c → ∃ a b, kvs = a ++ b ∧ located key x c p a b n.
Proof.
  intros [_ Hs Hl] Hx Hc Hfit Hr. rewrite Hx, inorder_plug in Hs, Hl. simpl in Hs, Hl.
  destruct (lower_bound_split kvs key) as (a & b & -> & Hi & Ha & Hb).
  exists a, b. split; [done|]. split; try done.
  - by eapply routes_before.
  - eapply (routes_after _ _ (cleft c ++ [B p (a ++ b) n])); [done|].
    by rewrite <- app_assoc.
  - intros k Hk. destruct b as [|[k' v'] b]; [by apply not_elem_of_nil in Hk|].
    pose proof (Hb (k', v') b eq_refl) as Hk'. simpl in Hk'.
    apply sorted_leaf in Hs. rewrite fmap_app, fmap_cons in Hs.
    apply StronglySorted_app in Hs as (_ & _ & Hs). apply StronglySorted_cons in Hs as [Hs _].
    rewrite fmap_cons in Hk. apply elem_of_cons in Hk as [->|Hk]; [done|].
    eapply Forall_forall in Hs; [|exact Hk]. simpl in Hs. lia.
Qed.

(** What the map holds for the key: the head of the right part, if it is it. *)
Lemma located_lookup key x c p a b n :
  located key x c p a b n →
  tree_map (inorder x) !! key =
  match b with (k, v) :: _ => if k =? key then Some v else None | [] => None end.
Proof.
  intros L. rewrite (loc_tree _ _ _ _ _ _ _ L), inorder_plug. simpl.
  rewrite lookup_in_leaf by apply L. rewrite list_to_map_app.
  rewrite lookup_union_r.
  2: { apply not_elem_of_list_to_map. intros Hk%(loc_left _ _ _ _ _ _ _ L). lia. }
  destruct b as [|[k v] b]; [done|]. simpl. destruct (Z.eqb_spec k key) as [->|Hne].
  - by rewrite lookup_insert_eq.
  - rewrite lookup_insert_ne by done. apply not_elem_of_list_to_map. intros Hk.
    pose proof (loc_right _ _ _ _ _ _ _ L k ltac:(left)) as Hle.
    pose proof (sorted_leaf _ _ _ _ _ (loc_sorted _ _ _ _ _ _ _ L)) as Hs.
    rewrite fmap_app, fmap_cons in Hs. apply StronglySorted_app in Hs as (_ & _ & Hs).
    apply StronglySorted_cons in Hs as [Hs _]. eapply Forall_forall in Hs; [|exact Hk].
    simpl in *. lia.
Qed.

Lemma located_key key x c p a b n :
  located key x c p a b n → (a ++ b).*1 !! length a = fst <$> head b.
Proof. intros _. rewrite fmap_app, lookup_app_r, length_fmap, Nat.sub_diag by by rewrite length_fmap. by destruct b. Qed.

(** ** Scanning *)

Definition in_range (lo hi : Z) (l : list (Z * Z)) : list (Z * Z) :=
  filter (λ kv, lo ≤ kv.1 ∧ kv.1 ≤ hi) l.

Lemma in_range_app lo hi l1 l2 : in_range lo hi (l1 ++ l2) = in_range lo hi l1 ++ in_range lo hi l2.
Proof. apply filter_app. Qed.

Lemma in_range_none lo hi l : (∀ k, k ∈ l.*1 → k < lo ∨ hi < k) → in_range lo hi l = [].
Proof.
  intros Hl. unfold in_range. induction l as [|[k v] l IH]; [done|].
  rewrite filter_cons_False; [apply IH; intros; apply Hl; by right|].
  simpl. pose proof (Hl k ltac:(left)). lia.
Qed.

Lemma sorted_after_stop (hi k : Z) l :
  Forall (Z.lt k) l → hi < k → ∀ x, x ∈ l → hi < x.
Proof. intros Hl Hk x Hx. eapply Forall_forall in Hl; [|done]. lia. Qed.

Section map.
Context {S : Type} `{PageStoreLaws S}.
Notation T := (BPlusTree S).
Implicit Types (t : T) (m : gmap Z Z) (fr : gmap Z bytes).

Definition holds t (r : Z) fr m : Prop :=
  (owns t INVALID_PAGE_ID r [] fr ∧ m = ∅) ∨
  ∃ h x, owns t (pid x) r (flat INVALID_PAGE_ID x) fr ∧ tree_ok h x ∧ m = tree_map (inorder x).

Lemma holds_intro h x t r fr m :
  owns t (pid x) r (flat INVALID_PAGE_ID x) fr → tree_ok h x → m = tree_map (inorder x) →
  holds t r fr m.
Proof. intros. right. by exists h, x. Qed.

Lemma owns_root h x t r fr :
  owns t (pid x) r (flat INVALID_PAGE_ID x) fr → tree_ok h x → (pid x =? INVALID_PAGE_ID) = false.
Proof.
  intros Ho _. assert (flat INVALID_PAGE_ID x ≡ₚ flat INVALID_PAGE_ID x ++ []) as Hl by by rewrite app_nil_r.
  by destruct (owns_tree _ _ _ _ _ _ _ _ Ho Hl) as (_ & _ & _ & ?).
Qed.

(** The descent and the read of the leaf, shared by the operations. *)
Lemma locate_owns {A} key h x t r fr (k : Z → BPlusTreeNode → M T A) (Q : A → T → Prop) :
  owns t (pid x) r (flat INVALID_PAGE_ID x) fr → tree_ok h x →
  (∀ t' c p a b n, owns t' (pid x) r (flat INVALID_PAGE_ID x) fr → located key x c p a b n →
     length c = h → wp (k p (enc (cpar c) (Leaf p (a ++ b) n))) t' Q) →
  wp (leaf_id ← FindLeaf key; leaf ← ReadNode leaf_id; k leaf_id leaf) t Q.
Proof.
  intros Ho Hx HQ. apply wp_bind. eapply (FindLeaf_owns h); [apply Hx|exact Ho|].
  intros t' c p kvs n Ho' E Hc Hfit Hr Hlen.
  destruct (located_intro key h x c p kvs n Hx E Hc Hfit Hr) as (a & b & -> & L).
  eapply (wp_read_tree _ _ _ _ _ (cpar c) (Leaf p (a ++ b) n) (cflat c p)); [exact Ho'| |].
  - rewrite E. apply flat_plug.
  - intros t1 Ho1. by apply HQ.
Qed.

(** ** Search *)

Lemma Search_spec t r fr m key :
  holds t r fr m → wp (Search key) t (λ o t', o = m !! key ∧ holds t' r fr m).
Proof.
  intros [[Ho ->]|(h & x & Ho & Hx & ->)]; unfold Search.
  - eapply wp_root; [exact Ho|]. rewrite Z.eqb_refl. apply wp_ret. split; [done|]. by left.
  - eapply wp_root; [exact Ho|]. rewrite (owns_root _ _ _ _ _ Ho Hx).
    eapply locate_owns; [exact Ho|exact Hx|]. intros t1 c p a b n Ho1 L _. cbn [enc keys values].
    rewrite (loc_index _ _ _ _ _ _ _ L), (located_key _ _ _ _ _ _ _ L), (located_lookup _ _ _ _ _ _ _ L).
    pose proof (holds_intro _ _ _ _ _ _ Ho1 Hx eq_refl) as Hh.
    destruct b as [|[k v] b]; simpl; [by apply wp_ret|]. destruct (k =? key); [|by apply wp_ret].
    eapply wp_pure; [|by apply wp_ret]. rewrite fmap_app. simpl. apply at_app. by rewrite length_fmap.
Qed.

(** ** RangeScan *)

Lemma ScanLeaf_spec lo hi (pre kvs : list (Z * Z)) out t :
  StronglySorted Z.lt kvs.*1 →
  ∃ stop, ScanLeaf lo hi kvs.*1 (pre ++ kvs).*2 (length pre) out t =
    (Ret (stop, out ++ in_range lo hi kvs), t) ∧
    (stop = true → ∃ k, k ∈ kvs.*1 ∧ hi < k).
Proof.
  revert pre out. induction kvs as [|[k v] kvs IH]; intros pre out Hs.
  - exists false. split; [|done]. unfold in_range. simpl. by rewrite app_nil_r.
  - cbn [fmap list_fmap fst ScanLeaf] in Hs |- *. apply StronglySorted_cons in Hs as [Hk Hs].
    assert (pre ++ (k, v) :: kvs = (pre ++ [(k, v)]) ++ kvs) as E by by rewrite <- app_assoc.
    assert (length (pre ++ [(k, v)]) = Datatypes.S (length pre)) as El by (rewrite length_app; simpl; lia).
    destruct (Z.ltb_spec k lo) as [Hlo|Hlo].
    + rewrite E, <- El. destruct (IH (pre ++ [(k, v)]) out Hs) as (stop & Hrun & Hstop).
      exists stop. unfold in_range. rewrite filter_cons_False by (simpl; lia).
      split; [exact Hrun|]. intros (k' & Hk' & ?)%Hstop. exists k'. split; [by right|done].
    + destruct (Z.ltb_spec hi k) as [Hhi|Hhi].
      * exists true. rewrite in_range_none, app_nil_r.
        { split; [done|]. intros _. exists k. split; [left|done]. }
        intros x. simpl. intros [->|Hx]%elem_of_cons; [by right|right].
        by eapply (sorted_after_stop hi k kvs.*1).
      * erewrite bind_ret.
        2: { rewrite fmap_app. simpl. apply at_app. by rewrite length_fmap. }
        rewrite E, <- El. destruct (IH (pre ++ [(k, v)]) (out ++ [(k, v)]) Hs) as (stop & Hrun & Hstop).
        exists stop. unfold in_range. rewrite filter_cons_True by (simpl; lia).
        rewrite <- (app_assoc out) in Hrun. split; [exact Hrun|].
        intros (k' & Hk' & ?)%Hstop. exists k'. split; [by right|done].
Qed.

(** Every leaf of the sequence has its cell. *)
Lemma block_cell h x p kvs n par :
  top_shape h x → B p kvs n ∈ inorder x → ∃ q, (p, enc q (Leaf p kvs n)) ∈ flat par x.
Proof.
  revert x par. induction h as [|h IH]; intros [p' kvs' n'|p' ks ts] par Hs Hin; try done.
  - simpl in Hin. apply list_elem_of_singleton in Hin as [= -> -> ->]. exists par. left.
  - destruct Hs as [Hl Hts]. simpl in Hin.
    assert (∃ y, y ∈ ts ∧ B p kvs n ∈ inorder y) as (y & Hy & Hin').
    { clear IH Hts. revert ks Hl Hin. induction ts as [|y ts IHts]; intros ks Hl Hin; [done|].
      destruct ks as [|k ks]; simpl in Hin.
      - exists y. split; [left|done].
      - apply elem_of_app in Hin as [Hin|[|Hin]%elem_of_cons]; [|done|].
        + exists y. split; [left|done].
        + destruct (IHts ks) as (z & Hz & ?); [simpl in Hl; lia|done|]. exists z. split; [by right|done]. }
    eapply Forall_forall in Hts; [|exact Hy]. apply shape_top in Hts as [_ Hts].
    destruct (IH y p' Hts Hin') as [q Hq]. exists q. rewrite flat_node. right.
    apply list_elem_of_In, in_concat. exists (flat p' y).
    split; [by apply in_map, list_elem_of_In|by apply list_elem_of_In].
Qed.

Lemma RangeScan_loop_spec lo hi x h fuel bs out t r fr (Q : list (Z * Z) → T → Prop) :
  top_shape h x → owns t (pid x) r (flat INVALID_PAGE_ID x) fr →
  (∀ b, b ∈ bs → b ∈ inorder x) → sorted bs → linked INVALID_PAGE_ID (leaves bs) →
  (length (leaves bs) ≤ fuel)%nat →
  (∀ t', owns t' (pid x) r (flat INVALID_PAGE_ID x) fr → Q (out ++ in_range lo hi (entries bs)) t') →
  wp (RangeScan_loop fuel lo hi (head_id INVALID_PAGE_ID (leaves bs)) out) t Q.
Proof.
  intros Hx. revert fuel out t. induction bs as [|[p kvs n|k] bs IH]; intros fuel out t Ho Hin Hs Hl Hf HQ.
  - destruct fuel; simpl; apply wp_ret; rewrite app_nil_r in HQ; auto.
  - rewrite leaves_cons in *. simpl in Hl, Hf |- *. destruct Hl as [-> Hl].
    destruct fuel as [|fuel]; [lia|].
    destruct (block_cell h x p kvs _ INVALID_PAGE_ID Hx (Hin _ ltac:(left))) as [q Hq].
    destruct (owns_cell _ _ _ _ _ _ _ Ho Hq) as (_ & _ & Hp & _).
    cbn [RangeScan_loop]. rewrite (proj2 (Z.eqb_neq p INVALID_PAGE_ID)) by (unfold INVALID_PAGE_ID; lia).
    eapply wp_read; [exact Ho|exact Hq|]. intros t1 Ho1. cbn [enc keys values next_leaf].
    pose proof (sorted_leaf [] _ _ _ _ Hs) as Hkvs.
    destruct (ScanLeaf_spec lo hi [] kvs out t1 Hkvs) as (stop & Hrun & Hstop).
    eapply wp_pure; [exact Hrun|]. cbn beta iota.
    rewrite entries_cons, in_range_app, app_assoc in HQ. simpl in HQ.
    unfold sorted in Hs. rewrite codes_cons in Hs. apply StronglySorted_app in Hs as (Hlt & _ & Hs).
    destruct stop.
    + destruct (Hstop eq_refl) as (k & Hk & Hhi). apply wp_ret.
      rewrite (in_range_none lo hi (entries bs)), app_nil_r in HQ; [by apply HQ|].
      intros y Hy%entries_codes. right.
      pose proof (Hlt (key_code k) (key_code y) ltac:(by apply list_elem_of_fmap_2) Hy).
      unfold key_code in *. lia.
    + apply IH; try done; [|lia]. intros b Hb. apply Hin. by right.
  - rewrite leaves_cons in *. simpl in *. apply IH; try done.
    + intros b Hb. apply Hin. by right.
    + unfold sorted in Hs. rewrite codes_cons in Hs. by apply StronglySorted_app in Hs as (_ & _ & Hs).
Qed.

Lemma RangeScan_spec t r fr m lo hi out :
  holds t r fr m →
  wp (RangeScan lo hi out) t (λ res t', holds t' r fr m ∧
    ∃ l, res = out ++ l ∧ StronglySorted Z.lt l.*1 ∧
      ∀ k v, (k, v) ∈ l ↔ m !! k = Some v ∧ lo ≤ k ∧ k ≤ hi).
Proof.
  intros Hh. assert (∀ t', holds t' r fr m → (hi < lo ∨ m = ∅) → holds t' r fr m ∧
    ∃ l, out = out ++ l ∧ StronglySorted Z.lt l.*1 ∧
      ∀ k v, (k, v) ∈ l ↔ m !! k = Some v ∧ lo ≤ k ∧ k ≤ hi) as Hnone.
  { intros t' Ht' Hc. split; [done|]. exists []. rewrite app_nil_r. split_and!; [done|constructor|].
    intros k v. split; [by intros ?%not_elem_of_nil|]. intros (Hm & ? & ?).
    destruct Hc as [?| ->]; [lia|done]. }
  unfold RangeScan. destruct Hh as [[Ho ->]|(h & x & Ho & Hx & ->)].
  - eapply wp_root; [exact Ho|]. simpl. apply wp_ret, Hnone; [by left|by right].
  - eapply wp_root; [exact Ho|]. rewrite (owns_root _ _ _ _ _ Ho Hx). simpl.
    destruct (Z.ltb_spec hi lo) as [Hr|Hr].
    { apply wp_ret, Hnone; [by eapply holds_intro|by left]. }
    apply wp_bind. eapply (FindLeaf_owns h); [apply Hx|exact Ho|].
    intros t1 c p kvs n Ho1 E Hc Hfit Hrt _.
    destruct (located_intro lo h x c p kvs n Hx E Hc Hfit Hrt) as (a & b & -> & L).
    unfold iterations. apply wp_bind, wp_gets.
    set (bs := B p (a ++ b) n :: cright c).
    assert (inorder x = cleft c ++ bs) as Hi by by rewrite E, inorder_plug.
    pose proof Hx as [Hsh Hs Hl]. pose proof Hsh as (Htop & _).
    rewrite Hi in Hs, Hl. rewrite leaves_app in Hl. apply linked_app in Hl as [_ Hl].
    assert (sorted bs) as Hsb.
    { unfold sorted in *. rewrite codes_app in Hs. by apply StronglySorted_app in Hs as (_ & _ & ?). }
    eapply (RangeScan_loop_spec lo hi x h _ bs); [done|exact Ho1| |done|done| |].
    + intros blk Hb. rewrite Hi. apply elem_of_app. by right.
    + pose proof (length_leaves h INVALID_PAGE_ID x Htop) as Hlen.
      rewrite Hi, leaves_app, length_app in Hlen.
      pose proof (owns_iterations _ _ _ _ _ Ho1). lia.
    + intros t2 Ho2. split; [by eapply holds_intro|]. exists (in_range lo hi (entries bs)).
      split; [done|]. split.
      * apply sorted_entries in Hsb. eapply sorted_sublist; [|exact Hsb].
        apply fmap_sublist, sublist_filter.
      * intros k v. unfold in_range. rewrite list_elem_of_filter. simpl.
        rewrite tree_map_Some by apply Hx. rewrite Hi, entries_app, elem_of_app.
        split; [tauto|]. intros [[Hk|Hk] ?]; [|done]. exfalso.
        apply (list_elem_of_fmap_2 fst), entries_codes, (loc_before _ _ _ _ _ _ _ L) in Hk.
        unfold key_code in Hk. simpl in Hk. lia.
Qed.

(** ** Insert *)

Lemma size_tree_map bs : sorted bs → size (tree_map bs) = length (entries bs).
Proof.
  intros Hs. unfold tree_map. rewrite <- length_map_to_list. apply Permutation_length.
  by apply map_to_list_to_map, sorted_NoDup.
Qed.

(** The tree after a separator on the path was raised to the leaf's first key. *)
Lemma raised_ok k v kvs p n c c' :
  raised k c c' → cright c' = cright c →
  let bs := cleft c ++ B p ((k, v) :: kvs) n :: cright c in
  let bs' := cleft c' ++ B p ((k, v) :: kvs) n :: cright c' in
  sorted bs → sorted bs' ∧ entries bs' = entries bs ∧ leaves bs' = leaves bs.
Proof.
  intros [->|(X & s & E & E')] Hr bs bs' Hs; unfold bs, bs' in *; [done|]. rewrite Hr.
  rewrite E in *. rewrite E'. unfold sorted in *. autorewrite with qdb_blocks in *. simpl in *.
  rewrite <- !app_assoc in *. simpl in *. split_and!; try done. by eapply sorted_raise_sep.
Qed.

(** The split of a leaf of five entries keeps the order and the chain. *)
Lemma split_ok L R p q a k v b n :
  a ≠ [] → sorted (L ++ B p (a ++ (k, v) :: b) n :: R) →
  linked INVALID_PAGE_ID (leaves (L ++ B p (a ++ (k, v) :: b) n :: R)) →
  let bs := L ++ B p a q :: Sp k :: B q ((k, v) :: b) n :: R in
  sorted bs ∧ entries bs = entries (L ++ B p (a ++ (k, v) :: b) n :: R) ∧
  linked INVALID_PAGE_ID (leaves bs).
Proof.
  intros Ha Hs Hl bs. unfold bs. destruct a as [|[k0 v0] a0 _] using rev_ind; [done|].
  unfold sorted in *. autorewrite with qdb_blocks in *. simpl in *.
  rewrite linked_app in *. simpl in *. split_and!; try tauto.
  - rewrite !fmap_app in *. simpl in *. rewrite <- !app_assoc in *. simpl in *.
    rewrite !app_assoc in Hs |- *. by apply sorted_insert_sep.
  - by app_norm.
Qed.

(** The leaf after an insertion at the position of the key. *)
Lemma located_insert key v x c p a b n :
  located key x c p a b n → (∀ k, k ∈ b.*1 → key < k) →
  let bs := cleft c ++ B p (a ++ (key, v) :: b) n :: cright c in
  sorted bs ∧ tree_map bs = <[key := v]> (tree_map (inorder x)) ∧
  linked INVALID_PAGE_ID (leaves bs).
Proof.
  intros L Hb bs. rewrite (loc_tree _ _ _ _ _ _ _ L), inorder_plug.
  destruct (insert_in_leaf (cleft c) (cright c) key (loc_before _ _ _ _ _ _ _ L)
    (loc_after _ _ _ _ _ _ _ L) p a b v n (loc_sorted _ _ _ _ _ _ _ L)
    (loc_left _ _ _ _ _ _ _ L) Hb) as [H1 H2].
  split_and!; [done|done|]. pose proof (loc_linked _ _ _ _ _ _ _ L) as Hl.
  unfold bs. autorewrite with qdb_blocks in *. done.
Qed.

Lemma located_absent key x c p a b n :
  located key x c p a b n → fst <$> head b ≠ Some key →
  (∀ k, k ∈ b.*1 → key < k) ∧ tree_map (inorder x) !! key = None.
Proof.
  intros L Hne. rewrite (located_lookup _ _ _ _ _ _ _ L). destruct b as [|[k' v'] b]; simpl in Hne.
  { split; [|done]. by intros k ?%not_elem_of_nil. }
  pose proof (loc_right _ _ _ _ _ _ _ L k' ltac:(left)) as Hle.
  split; [|by rewrite (proj2 (Z.eqb_neq _ _)) by congruence].
  pose proof (sorted_leaf _ _ _ _ _ (loc_sorted _ _ _ _ _ _ _ L)) as Hs.
  rewrite fmap_app, fmap_cons in Hs. apply StronglySorted_app in Hs as (_ & _ & Hs).
  apply StronglySorted_cons in Hs as [Hs _]. intros k. rewrite fmap_cons. simpl in *.
  intros [->|Hk]%elem_of_cons; [|eapply Forall_forall in Hs; [|exact Hk]; lia].
  assert (k' ≠ key) by congruence. lia.
Qed.

Lemma enc_leaf_insert par p a b n k v :
  set_values (a.*2 ++ v :: b.*2) (set_keys (a.*1 ++ k :: b.*1) (enc par (Leaf p (a ++ b) n))) =
  enc par (Leaf p (a ++ (k, v) :: b) n).
Proof. unfold enc. by rewrite !fmap_app. Qed.

(** Writing the changed leaf back. *)
Lemma write_leaf_owns {A} c p kvs kvs' n t r fr (k : unit → M T A) (Q : A → T → Prop) :
  let x := plug c (Leaf p kvs n) in
  let x' := plug c (Leaf p kvs' n) in
  owns t (pid x) r (flat INVALID_PAGE_ID x) fr →
  Forall (in_signed 64) kvs'.*1 → Forall (in_signed 64) kvs'.*2 → (length kvs' ≤ 4)%nat →
  (∀ t', owns t' (pid x') r (flat INVALID_PAGE_ID x') fr → wp (k tt) t' Q) →
  wp (WriteNode (enc (cpar c) (Leaf p kvs' n)) ≫= k) t Q.
Proof.
  intros x x' Ho Hk Hv Hlen HQ. pose proof (flat_plug c (Leaf p kvs n)) as Hl.
  destruct (owns_tree _ _ _ _ _ _ _ _ Ho Hl) as (Hok & _ & Hp & _).
  apply leaf_ok in Hok as (_ & Hpar & Hn & _).
  eapply wp_write with (p := p); [exact Ho|exact Hl|done|by apply leaf_ok|].
  intros t' Ho'. apply HQ. unfold x'. rewrite (pid_plug c _ (Leaf p kvs n)) by done.
  eapply owns_perm; [|exact Ho']. rewrite flat_plug. done.
Qed.

Lemma leaf_entries c p kvs n t root r fr :
  owns t root r (flat INVALID_PAGE_ID (plug c (Leaf p kvs n))) fr →
  Forall (in_signed 64) kvs.*1 ∧ Forall (in_signed 64) kvs.*2.
Proof.
  intros Ho. pose proof (flat_plug c (Leaf p kvs n)) as Hl.
  destruct (owns_tree _ _ _ _ _ _ _ _ Ho Hl) as (Hok & _). apply leaf_ok in Hok. tauto.
Qed.

(** The end of an insertion or deletion that left its leaf in place: the walk up
    when the first key changed. *)
Lemma settle_leaf flag c p kvs n t r fr :
  let x := plug c (Leaf p kvs n) in
  let bs := cleft c ++ B p kvs n :: cright c in
  owns t (pid x) r (flat INVALID_PAGE_ID x) fr → cshape 0 c → fits 0 c (Leaf p kvs n) →
  sorted bs → linked INVALID_PAGE_ID (leaves bs) → (flag = true → kvs ≠ []) →
  wp (when flag (PropagateMinimumChange p) ≫= λ _, mret true) t
    (λ b t', b = true ∧ holds t' r fr (tree_map bs)).
Proof.
  intros x bs Ho Hc Hfit Hs Hl Hflag.
  assert (∀ c', cshape 0 c' → (c = [] ↔ c' = []) →
    root_shape (0 + length c') (plug c' (Leaf p kvs n))) as Hroot.
  { intros c' Hc' Hnil. apply root_shape_plug; [done|]. destruct c as [|f c], c' as [|f' c'];
      try done; naive_solver. }
  destruct flag; simpl when.
  - destruct kvs as [|[k v] kvs]; [by destruct Hflag|].
    destruct (leaf_entries _ _ _ _ _ _ _ _ Ho) as [Hks _]. rewrite fmap_cons in Hks.
    apply Forall_cons in Hks as [Hk _]. apply wp_bind.
    eapply (PropagateMinimumChange_owns c 0 (Leaf p ((k, v) :: kvs) n) k); try done.
    { by exists p, v, kvs, n, []. }
    intros t' c' Ho' Hc' Hpid Hnil Hright Hraised. apply wp_ret. split; [done|].
    destruct (raised_ok k v kvs p n c c' Hraised Hright Hs) as (Hs' & He' & Hl').
    apply (holds_intro (0 + length c') (plug c' (Leaf p ((k, v) :: kvs) n))).
    + by rewrite <- Hpid.
    + split; rewrite ?inorder_plug; simpl; [by apply Hroot|done|by rewrite Hl'].
    + rewrite inorder_plug. simpl. symmetry. by apply tree_map_entries.
  - apply wp_ret. split; [done|]. apply (holds_intro (0 + length c) x); [done| |].
    + split; unfold x; rewrite ?inorder_plug; simpl; [by apply Hroot|done..].
    + unfold x. by rewrite inorder_plug.
Qed.

Lemma Insert_empty k v t r fr :
  owns t INVALID_PAGE_ID r [] fr → 0 < r → in_signed 64 k → in_signed 64 v →
  wp (BPlusTree.Insert k v) t (λ b t', b = true ∧ holds t' r fr {[k := v]}).
Proof.
  intros Ho Hr Hk Hv. unfold BPlusTree.Insert. eapply wp_root; [exact Ho|]. rewrite Z.eqb_refl.
  eapply wp_create; [exact Ho|simpl; lia| |].
  { intros p Hp%in_signed_page. apply (proj2 (leaf_ok p INVALID_PAGE_ID [(k, v)] INVALID_PAGE_ID)).
    simpl. rewrite !Forall_cons, !Forall_nil. split_and!; done || lia. }
  intros p t1 Hp Ho1. apply wp_bind, wp_modify, wp_ret. split; [done|].
  apply (set_root_owns _ _ p) in Ho1.
  apply (holds_intro 0 (Leaf p [(k, v)] INVALID_PAGE_ID)).
  - exact Ho1.
  - split; [split_and!; simpl; done || lia| |done]. apply StronglySorted_cons. by repeat constructor.
  - done.
Qed.

Lemma Insert_spec t r fr m k v :
  holds t r fr m → in_signed 64 k → in_signed 64 v → 2 * Z.of_nat (size m) + 3 ≤ r →
  wp (BPlusTree.Insert k v) t (λ b t', b = bool_decide (m !! k = None) ∧
    holds t' r fr (if b then <[k := v]> m else m)).
Proof.
  intros [[Ho ->]|(h & x & Ho & Hx & ->)] Hk Hv Hr.
  { eapply wp_mono; [apply Insert_empty; try done; rewrite map_size_empty in Hr; lia|].
    intros b t' [-> Hh]. by rewrite bool_decide_eq_true_2. }
  unfold BPlusTree.Insert. eapply wp_root; [exact Ho|]. rewrite (owns_root _ _ _ _ _ Ho Hx).
  eapply locate_owns; [exact Ho|exact Hx|]. intros t1 c p a b n Ho1 L Hch. cbn [enc keys values].
  rewrite (loc_index _ _ _ _ _ _ _ L), (located_key _ _ _ _ _ _ _ L), (located_lookup _ _ _ _ _ _ _ L).
  case_bool_decide as Hfound.
  { destruct b as [|[k' v'] b]; [done|]. simpl in Hfound. injection Hfound as ->.
    rewrite Z.eqb_refl. apply wp_ret. rewrite bool_decide_eq_false_2 by done.
    split; [done|]. by eapply holds_intro. }
  destruct (located_absent _ _ _ _ _ _ _ L Hfound) as [Hb Hnone].
  rewrite <- (located_lookup _ _ _ _ _ _ _ L), Hnone, (bool_decide_eq_true_2 (@None Z = None)) by done.
  destruct (located_insert k v _ _ _ _ _ _ L Hb) as (Hs' & Hm' & Hl').
  pose proof (root_size h INVALID_PAGE_ID x (tree_shape _ _ Hx)) as [Hsize Hh].
  rewrite size_tree_map in Hr by apply Hx.
  rewrite <- Hch, (loc_tree _ _ _ _ _ _ _ L) in Hh.
  rewrite (loc_tree _ _ _ _ _ _ _ L) in Ho1, Hsize, Hr.
  destruct (leaf_entries _ _ _ _ _ _ _ _ Ho1) as [Hks Hvs].
  rewrite fmap_app in Hks, Hvs. apply Forall_app in Hks as [Hka Hkb], Hvs as [Hva Hvb].
  assert (Forall (in_signed 64) (a ++ (k, v) :: b).*1 ∧ Forall (in_signed 64) (a ++ (k, v) :: b).*2)
    as [Hks Hvs] by (rewrite !fmap_app, !fmap_cons, !Forall_app, !Forall_cons; done).
  rewrite !fmap_app. eapply wp_pure; [apply vinsert_app; by rewrite length_fmap|].
  eapply wp_pure; [apply vinsert_app; by rewrite length_fmap|].
  cbv zeta. rewrite <- !fmap_app.
  change (mkNode true p (cpar c) (a ++ b).*1 (a ++ b).*2 [] n) with (enc (cpar c) (Leaf p (a ++ b) n)).
  rewrite enc_leaf_insert. cbn [keys enc]. rewrite length_fmap.
  assert (length (a ++ b) ≤ 4)%nat as Hab by (eapply length_fits, L).
  case_bool_decide as Hfit.
  - eapply write_leaf_owns; [exact Ho1|done|done|done|]. intros t2 Ho2.
    change (node_page_id _) with p. eapply wp_mono; [eapply settle_leaf; try done|].
    + apply L.
    + pose proof (loc_fits _ _ _ _ _ _ _ L) as Hf. apply fits_iff in Hf as ((_ & _ & _) & Hmin).
      apply fits_iff. unfold root_shape. simpl in *. unfold MAX_KEYS in Hfit.
      split_and!; try done. intros Hne. specialize (Hmin Hne).
      rewrite length_app in *. simpl. lia.
    + intros _. by destruct a.
    + cbn beta. intros o t3 [-> Hh3]. by rewrite Hm' in Hh3.
  - apply wp_bind. eapply (SplitLeaf_owns c p (a ++ b)); [apply L| |done|done|exact Ho1|lia|].
    { rewrite length_app in *. simpl in *. unfold MAX_KEYS in Hfit. lia. }
    intros t2 h' x' a' k' v' b' q Ho2 Hx' E Ha' Hi. apply wp_ret. split; [done|].
    rewrite E in *. destruct (split_ok _ _ p q a' k' v' b' n ltac:(by destruct a') Hs' Hl')
      as (Hs2 & He2 & Hl2).
    apply (holds_intro h' x'); [done|split; rewrite ?Hi; done|].
    rewrite Hi. rewrite (tree_map_entries _ _ He2). done.
Qed.
End map.
