(* ===== verification/TreeDelete.v ===== *)
(** * Deletion from a B+ tree: what its parts do to the represented tree

    Borrowing from a sibling and merging with it, for leaves and for internal
    nodes, stated on a parent with two neighbouring children; then the walk
    up of [HandleInternalUnderflow]. *)

From S2P Require Export TreeMap.

Local Open Scope Z_scope.

Lemma list_back {A} (l : list A) n :
  length l = Datatypes.S n → ∃ l' x, l = l' ++ [x] ∧ length l' = n.
Proof.
  destruct l as [|x l' _] using rev_ind; [done|]. rewrite length_app. simpl.
  intros. exists l', x. split; [done|lia].
Qed.

Section delete.
Context {S : Type} `{PageStoreLaws S}.
Notation T := (BPlusTree S).
Implicit Types (t : T) (l X : list cell) (fr : gmap Z bytes).

(** The parent [P] of two neighbours [a] and [b] separated by [s]. *)
Definition pnode (P par : Z) (K1 : list Z) (s : Z) (K2 C1 : list Z) (a b : Z) (C2 : list Z) :=
  inner P par (K1 ++ s :: K2) (C1 ++ a :: b :: C2).

Lemma pnode_sep P par K1 s s' K2 C1 a b C2 :
  node_ok (pnode P par K1 s K2 C1 a b C2) → in_signed 64 s' →
  node_ok (pnode P par K1 s' K2 C1 a b C2).
Proof.
  intros (? & ? & Hk & ? & Hl & Hc)%inner_ok Hs. apply inner_ok.
  rewrite !Forall_app, !Forall_cons, !length_app in *. simpl in *. split_and!; tauto.
Qed.

Lemma pnode_merged P par K1 s K2 C1 a b C2 :
  node_ok (pnode P par K1 s K2 C1 a b C2) →
  node_ok (inner P par (K1 ++ K2) (C1 ++ a :: C2)).
Proof.
  intros (? & ? & Hk & Hcs & Hl & Hc)%inner_ok. apply inner_ok.
  rewrite !Forall_app, !Forall_cons, !length_app in *. simpl in *. split_and!; try tauto; lia.
Qed.

Section pair.
Context (P par : Z) (K1 : list Z) (s : Z) (K2 C1 C2 : list Z) (HK : length K1 = length C1).
Context (root r : Z) (fr : gmap Z bytes).

(** ** Internal nodes *)

Section nodes.
Context (pl : Z) (ksl : list Z) (tsl : list tree) (pr : Z) (ksr : list Z) (tsr : list tree).
Context (X l : list cell).
Context (Hl : l ≡ₚ (P, pnode P par K1 s K2 C1 pl pr C2) ::
                   flat P (Node pl ksl tsl) ++ flat P (Node pr ksr tsr) ++ X).

Lemma pair_facts t :
  owns t root r l fr →
  node_ok (pnode P par K1 s K2 C1 pl pr C2) ∧ node_ok (inner pl P ksl (map pid tsl)) ∧
  node_ok (inner pr P ksr (map pid tsr)) ∧ in_signed 64 s.
Proof.
  intros Ho. assert (∀ p n, (p, n) ∈ l → node_ok n) as Hok.
  { intros p n Hin. by destruct (owns_cell _ _ _ _ _ _ _ Ho Hin) as [? _]. }
  assert (node_ok (pnode P par K1 s K2 C1 pl pr C2)) as Hp by (apply (Hok P); rewrite Hl; left).
  split_and!; [done| | |].
  - apply (Hok pl). rewrite Hl, flat_node. right. left.
  - apply (Hok pr). rewrite Hl, (flat_node P pr). right. apply elem_of_app. right. left.
  - apply inner_ok in Hp as (_ & _ & Hk & _). rewrite Forall_app, Forall_cons in Hk. tauto.
Qed.

Lemma NodeBorrowLeft_owns t (Q : bool → T → Prop) :
  owns t root r l fr → (length ksr < 4)%nat →
  (∀ t' ks' k ts' m, ksl = ks' ++ [k] → tsl = ts' ++ [m] → (2 < length ksl)%nat →
     owns t' root r ((P, pnode P par K1 k K2 C1 pl pr C2) ::
       flat P (Node pl ks' ts') ++ flat P (Node pr (s :: ksr) (m :: tsr)) ++ X) fr → Q true t') →
  (∀ t', owns t' root r l fr → (length ksl ≤ 2)%nat → Q false t') →
  wp (NodeBorrowLeft (enc P (Node pr ksr tsr)) (pnode P par K1 s K2 C1 pl pr C2)
        (Datatypes.S (length C1))) t Q.
Proof.
  intros Ho Hroom HT HF. destruct (pair_facts t Ho) as (HP & HL & HR & Hs).
  unfold NodeBorrowLeft. cbn [children keys pnode inner]. rewrite Nat.sub_succ, Nat.sub_0_r.
  eapply wp_pure; [by apply at_app|].
  eapply (wp_read_tree _ _ _ _ _ P (Node pl ksl tsl)
    ((P, pnode P par K1 s K2 C1 pl pr C2) :: flat P (Node pr ksr tsr) ++ X)); [exact Ho| |].
  { rewrite Hl. solve_Permutation. }
  intros t1 Ho1. cbn [keys children enc inner].
  case_bool_decide as Hmin; unfold MIN_KEYS, MAX_KEYS in Hmin; change (Nat.div 4 2) with 2%nat in Hmin.
  2: { apply wp_ret, HF; [done|lia]. }
  pose proof HL as (Hpl & _ & HkL & HcL & HnL & HlL)%inner_ok.
  pose proof HR as (Hpr & HPi & HkR & HcR & HnR & HlR)%inner_ok.
  rewrite length_map in HlL, HlR.
  destruct (list_back ksl (length ksl - 1)) as (ks' & k & -> & Hks'); [lia|].
  destruct (list_back tsl (length tsl - 1)) as (ts' & m & -> & Hts'); [lia|].
  rewrite map_app in *. simpl map in *.
  rewrite Forall_app, Forall_cons in HkL, HcL.
  eapply wp_pure; [apply at_app; done|]. eapply wp_pure; [apply vback_app|].
  eapply wp_pure; [apply vback_app|]. eapply wp_pure; [apply vset_app; done|].
  eapply wp_pure; [apply vpop_back_app|]. eapply wp_pure; [apply vpop_back_app|]. cbv zeta.
  apply wp_bind. cbn [node_page_id inner set_keys set_children].
  set (PN := pnode P par K1 s K2 C1 pl pr C2) in *.
  eapply (SetChildrenParent_owns pl pr [m]) with (l0 :=
    (P, PN) :: (pl, inner pl P (ks' ++ [k]) (map pid ts' ++ [pid m])) :: flats pl ts' ++
    (pr, inner pr P ksr (map pid tsr)) :: flats pr tsr ++ X); [exact Ho1| |done|].
  { rewrite Hl, !flat_node, flats_app, flats_cons, flats_nil, map_app. simpl. solve_Permutation. }
  intros t2 Ho2. rewrite flats_cons, flats_nil, app_nil_r in Ho2.
  eapply wp_write with (p := pl) (l0 := (P, PN) :: flats pl ts' ++
    (pr, inner pr P ksr (map pid tsr)) :: flat pr m ++ flats pr tsr ++ X); [exact Ho2| |done| |].
  { solve_Permutation. }
  { apply (proj2 (inner_ok pl P ks' (map pid ts'))). split_and!; (done || tauto || len). }
  intros t3 Ho3. eapply wp_write with (p := pr) (l0 := (P, PN) :: flat P (Node pl ks' ts') ++
    flat pr m ++ flats pr tsr ++ X); [exact Ho3| |done| |].
  { rewrite flat_node. simpl. solve_Permutation. }
  { apply (proj2 (inner_ok pr P (s :: ksr) (map pid (m :: tsr)))). simpl.
    rewrite !Forall_cons. split_and!; (done || tauto || len). }
  intros t4 Ho4. eapply wp_write with (p := P) (l0 := flat P (Node pl ks' ts') ++
    flat P (Node pr (s :: ksr) (m :: tsr)) ++ X); [exact Ho4| |done| |].
  { rewrite (flat_node P pr), flats_cons. simpl. solve_Permutation. }
  { apply (pnode_sep P par K1 s k); [done|tauto]. }
  intros t5 Ho5. apply wp_ret. eapply HT; [done|done|lia|exact Ho5].
Qed.

Lemma NodeBorrowRight_owns t (Q : bool → T → Prop) :
  owns t root r l fr → (length ksl < 4)%nat →
  (∀ t' k ks' m ts', ksr = k :: ks' → tsr = m :: ts' → (2 < length ksr)%nat →
     owns t' root r ((P, pnode P par K1 k K2 C1 pl pr C2) ::
       flat P (Node pl (ksl ++ [s]) (tsl ++ [m])) ++ flat P (Node pr ks' ts') ++ X) fr → Q true t') →
  (∀ t', owns t' root r l fr → (length ksr ≤ 2)%nat → Q false t') →
  wp (NodeBorrowRight (enc P (Node pl ksl tsl)) (pnode P par K1 s K2 C1 pl pr C2)
        (length C1)) t Q.
Proof.
  intros Ho Hroom HT HF. destruct (pair_facts t Ho) as (HP & HL & HR & Hs).
  unfold NodeBorrowRight. cbn [children keys pnode inner].
  eapply wp_pure; [rewrite (cons_middle pl), app_assoc; apply at_app; len|].
  eapply (wp_read_tree _ _ _ _ _ P (Node pr ksr tsr)
    ((P, pnode P par K1 s K2 C1 pl pr C2) :: flat P (Node pl ksl tsl) ++ X)); [exact Ho| |].
  { rewrite Hl. solve_Permutation. }
  intros t1 Ho1. cbn [keys children enc inner].
  case_bool_decide as Hmin; unfold MIN_KEYS, MAX_KEYS in Hmin; change (Nat.div 4 2) with 2%nat in Hmin.
  2: { apply wp_ret, HF; [done|lia]. }
  pose proof HL as (Hpl & HPi & HkL & HcL & HnL & HlL)%inner_ok.
  pose proof HR as (Hpr & _ & HkR & HcR & HnR & HlR)%inner_ok.
  rewrite length_map in HlL, HlR.
  destruct ksr as [|k ks']; [simpl in Hmin; lia|]. destruct tsr as [|m ts']; [simpl in HlR; lia|].
  simpl map in *. rewrite Forall_cons in HkR, HcR.
  eapply wp_pure; [apply at_app; done|]. eapply wp_pure; [done|].
  eapply wp_pure; [done|]. eapply wp_pure; [apply vset_app; done|].
  eapply wp_pure; [by apply (verase_app 0 k [] ks')|].
  eapply wp_pure; [by apply (verase_app 0 (pid m) [] (map pid ts'))|]. cbv zeta.
  apply wp_bind. cbn [node_page_id inner set_keys set_children app].
  set (PN := pnode P par K1 s K2 C1 pl pr C2) in *.
  eapply (SetChildrenParent_owns pr pl [m]) with (l0 :=
    (P, PN) :: (pl, inner pl P ksl (map pid tsl)) :: flats pl tsl ++
    (pr, inner pr P (k :: ks') (pid m :: map pid ts')) :: flats pr ts' ++ X); [exact Ho1| |done|].
  { rewrite Hl, !flat_node, !flats_cons, flats_nil. simpl. solve_Permutation. }
  intros t2 Ho2. rewrite flats_cons, flats_nil, app_nil_r in Ho2.
  eapply wp_write with (p := pl) (l0 := (P, PN) :: flats pl tsl ++ flat pl m ++
    (pr, inner pr P (k :: ks') (pid m :: map pid ts')) :: flats pr ts' ++ X); [exact Ho2| |done| |].
  { solve_Permutation. }
  { apply (proj2 (inner_ok pl P (ksl ++ [s]) (map pid tsl ++ [pid m]))).
    rewrite !Forall_app, !Forall_cons. split_and!; (done || tauto || len). }
  intros t3 Ho3. eapply wp_write with (p := pr) (l0 := (P, PN) ::
    flat P (Node pl (ksl ++ [s]) (tsl ++ [m])) ++ flats pr ts' ++ X); [exact Ho3| |done| |].
  { rewrite flat_node, flats_app, flats_cons, flats_nil, map_app. simpl. solve_Permutation. }
  { apply (proj2 (inner_ok pr P ks' (map pid ts'))). split_and!; (done || tauto || len). }
  intros t4 Ho4. eapply wp_write with (p := P) (l0 := flat P (Node pl (ksl ++ [s]) (tsl ++ [m])) ++
    flat P (Node pr ks' ts') ++ X); [exact Ho4| |done| |].
  { rewrite (flat_node P pr). simpl. solve_Permutation. }
  { apply (pnode_sep P par K1 s k); [done|tauto]. }
  intros t5 Ho5. apply wp_ret. eapply HT; [done|done|done|exact Ho5].
Qed.

Lemma NodeMerge_owns t (Q : unit → T → Prop) :
  owns t root r l fr → (length ksl + length ksr < 4)%nat →
  (∀ t', owns t' root r ((P, inner P par (K1 ++ K2) (C1 ++ pl :: C2)) ::
     flat P (Node pl (ksl ++ s :: ksr) (tsl ++ tsr)) ++ X) fr → Q tt t') →
  wp (NodeMerge (enc P (Node pl ksl tsl)) (enc P (Node pr ksr tsr))
        (pnode P par K1 s K2 C1 pl pr C2) (Datatypes.S (length C1))) t Q.
Proof.
  intros Ho Hroom HQ. destruct (pair_facts t Ho) as (HP & HL & HR & Hs).
  unfold NodeMerge. cbn [children keys pnode inner enc]. rewrite Nat.sub_succ, Nat.sub_0_r.
  pose proof HL as (Hpl & HPi & HkL & HcL & HnL & HlL)%inner_ok.
  pose proof HR as (Hpr & _ & HkR & HcR & HnR & HlR)%inner_ok.
  eapply wp_pure; [apply at_app; done|]. eapply wp_pure; [apply verase_app; done|].
  eapply wp_pure; [rewrite (cons_middle pl), app_assoc; apply verase_app; len|].
  rewrite <- app_assoc. cbn [app node_page_id]. apply wp_bind.
  set (PN := pnode P par K1 s K2 C1 pl pr C2) in *.
  eapply (SetChildrenParent_owns pr pl tsr) with (l0 :=
    (P, PN) :: flat P (Node pl ksl tsl) ++ (pr, inner pr P ksr (map pid tsr)) :: X);
    [exact Ho| |done|].
  { rewrite Hl, (flat_node P pr). solve_Permutation. }
  intros t2 Ho2.
  eapply wp_write with (p := pl) (n0 := inner pl P ksl (map pid tsl)) (l0 := (P, PN) ::
    flats pl tsl ++ flats pl tsr ++ (pr, inner pr P ksr (map pid tsr)) :: X); [exact Ho2| |done| |].
  { rewrite flat_node. solve_Permutation. }
  { apply (proj2 (inner_ok pl P (ksl ++ s :: ksr) (map pid tsl ++ map pid tsr))).
    rewrite !Forall_app, !Forall_cons. split_and!; (done || tauto || len). }
  intros t3 Ho3. eapply wp_write with (p := P) (n0 := PN)
    (l0 := flat P (Node pl (ksl ++ s :: ksr) (tsl ++ tsr)) ++
           (pr, inner pr P ksr (map pid tsr)) :: X); [exact Ho3| |done| |].
  { rewrite flat_node, flats_app, map_app. simpl. solve_Permutation. }
  { by eapply pnode_merged. }
  intros t4 Ho4. eapply wp_delete with (l0 := (P, inner P par (K1 ++ K2) (C1 ++ pl :: C2)) ::
    flat P (Node pl (ksl ++ s :: ksr) (tsl ++ tsr)) ++ X); [exact Ho4| |].
  { instantiate (1 := inner pr P ksr (map pid tsr)). simpl. solve_Permutation. }
  intros t5 Ho5. by apply wp_ret, HQ.
Qed.
End nodes.

(** ** Leaves *)

Section leaves.
Context (pl : Z) (kvl : list (Z * Z)) (nl : Z) (pr : Z) (kvr : list (Z * Z)) (nr : Z).
Context (nd_l nd_r : BPlusTreeNode) (X l : list cell).
Context (Hl : l ≡ₚ (P, pnode P par K1 s K2 C1 pl pr C2) :: (pl, nd_l) :: (pr, nd_r) :: X).
Context (HokL : node_ok (enc P (Leaf pl kvl nl))) (HokR : node_ok (enc P (Leaf pr kvr nr))).

Lemma leaf_pair_parent t :
  owns t root r l fr → node_ok (pnode P par K1 s K2 C1 pl pr C2).
Proof.
  intros Ho. assert ((P, pnode P par K1 s K2 C1 pl pr C2) ∈ l) as Hin by (rewrite Hl; left).
  by destruct (owns_cell _ _ _ _ _ _ _ Ho Hin) as [? _].
Qed.

Lemma LeafBorrowLeft_owns t (Q : bool → T → Prop) :
  nd_l = enc P (Leaf pl kvl nl) → owns t root r l fr → (length kvr < 4)%nat →
  (∀ t' kvl' k v, kvl = kvl' ++ [(k, v)] → (2 < length kvl)%nat →
     owns t' root r ((P, pnode P par K1 k K2 C1 pl pr C2) ::
       (pl, enc P (Leaf pl kvl' nl)) :: (pr, enc P (Leaf pr ((k, v) :: kvr) nr)) :: X) fr → Q true t') →
  (∀ t', owns t' root r l fr → (length kvl ≤ 2)%nat → Q false t') →
  wp (LeafBorrowLeft (enc P (Leaf pr kvr nr)) (pnode P par K1 s K2 C1 pl pr C2)
        (Datatypes.S (length C1))) t Q.
Proof.
  intros Hnd Ho Hroom HT HF. pose proof (leaf_pair_parent t Ho) as HP. rewrite Hnd in Hl. clear Hnd.
  unfold LeafBorrowLeft. cbn [children keys pnode inner]. rewrite Nat.sub_succ, Nat.sub_0_r.
  eapply wp_pure; [by apply at_app|].
  eapply wp_read; [exact Ho|rewrite Hl; right; left|]. intros t1 Ho1. cbn [keys values enc].
  rewrite length_fmap. case_bool_decide as Hmin; unfold MIN_KEYS, MAX_KEYS in Hmin;
    change (Nat.div 4 2) with 2%nat in Hmin.
  2: { apply wp_ret, HF; [done|lia]. }
  destruct (list_back kvl (length kvl - 1)) as (kvl' & [k v] & -> & Hkv); [lia|].
  pose proof HokL as (? & ? & ? & HkL & HvL & ?)%leaf_ok.
  pose proof HokR as (? & ? & ? & HkR & HvR & ?)%leaf_ok.
  rewrite !fmap_app in *. cbn [fmap list_fmap fst snd] in *.
  rewrite Forall_app, Forall_cons in HkL, HvL.
  eapply wp_pure; [apply vback_app|]. eapply wp_pure; [apply vback_app|].
  eapply wp_pure; [apply vpop_back_app|]. eapply wp_pure; [apply vpop_back_app|]. cbv zeta.
  eapply wp_pure; [done|]. eapply wp_pure; [by apply vset_app|].
  cbn [set_keys set_values is_leaf node_page_id parent_id keys values children next_leaf].
  set (PN := pnode P par K1 s K2 C1 pl pr C2) in *.
  eapply wp_write with (p := pl) (l0 := (P, PN) :: (pr, nd_r) :: X); [exact Ho1| |done| |].
  { rewrite Hl. solve_Permutation. }
  { apply (proj2 (leaf_ok pl P kvl' nl)). split_and!; (done || tauto || len). }
  intros t2 Ho2. eapply wp_write with (p := pr) (l0 := (P, PN) ::
    (pl, enc P (Leaf pl kvl' nl)) :: X); [exact Ho2| |done| |].
  { simpl. solve_Permutation. }
  { apply (proj2 (leaf_ok pr P ((k, v) :: kvr) nr)). rewrite !fmap_cons, !Forall_cons.
    split_and!; (done || tauto || len). }
  intros t3 Ho3. eapply wp_write with (p := P) (l0 := (pl, enc P (Leaf pl kvl' nl)) ::
    (pr, enc P (Leaf pr ((k, v) :: kvr) nr)) :: X); [exact Ho3| |done| |].
  { simpl. solve_Permutation. }
  { apply (pnode_sep P par K1 s k); [done|tauto]. }
  intros t4 Ho4. apply wp_ret. by eapply HT.
Qed.

Lemma LeafBorrowRight_owns t (Q : bool → T → Prop) :
  nd_r = enc P (Leaf pr kvr nr) → owns t root r l fr → (length kvl < 4)%nat →
  (∀ t' k v k2 v2 kvr', kvr = (k, v) :: (k2, v2) :: kvr' → (2 < length kvr)%nat →
     owns t' root r ((P, pnode P par K1 k2 K2 C1 pl pr C2) ::
       (pl, enc P (Leaf pl (kvl ++ [(k, v)]) nl)) ::
       (pr, enc P (Leaf pr ((k2, v2) :: kvr') nr)) :: X) fr → Q true t') →
  (∀ t', owns t' root r l fr → (length kvr ≤ 2)%nat → Q false t') →
  wp (LeafBorrowRight (enc P (Leaf pl kvl nl)) (pnode P par K1 s K2 C1 pl pr C2)
        (length C1)) t Q.
Proof.
  intros Hnd Ho Hroom HT HF. pose proof (leaf_pair_parent t Ho) as HP. rewrite Hnd in Hl. clear Hnd.
  unfold LeafBorrowRight. cbn [children keys pnode inner].
  eapply wp_pure; [rewrite (cons_middle pl), app_assoc; apply at_app; len|].
  eapply wp_read; [exact Ho|rewrite Hl; right; right; left|]. intros t1 Ho1. cbn [keys values enc].
  rewrite length_fmap. case_bool_decide as Hmin; unfold MIN_KEYS, MAX_KEYS in Hmin;
    change (Nat.div 4 2) with 2%nat in Hmin.
  2: { apply wp_ret, HF; [done|lia]. }
  destruct kvr as [|[k v] [|[k2 v2] kvr']]; [simpl in Hmin; lia..|].
  pose proof HokL as (? & ? & ? & HkL & HvL & ?)%leaf_ok.
  pose proof HokR as (? & ? & ? & HkR & HvR & ?)%leaf_ok.
  cbn [fmap list_fmap fst snd] in *. rewrite !Forall_cons in HkR, HvR.
  eapply wp_pure; [done|]. eapply wp_pure; [done|].
  eapply wp_pure; [by apply (verase_app 0 k [] (k2 :: kvr'.*1))|].
  eapply wp_pure; [by apply (verase_app 0 v [] (v2 :: kvr'.*2))|]. cbn [app].
  eapply wp_pure; [done|]. eapply wp_pure; [by apply vset_app|].
  cbn [set_keys set_values is_leaf node_page_id parent_id keys values children next_leaf].
  set (PN := pnode P par K1 s K2 C1 pl pr C2) in *.
  assert (set_values (kvl.*2 ++ [v]) (set_keys (kvl.*1 ++ [k]) (enc P (Leaf pl kvl nl))) =
    enc P (Leaf pl (kvl ++ [(k, v)]) nl)) as El by (unfold enc; by rewrite !fmap_app).
  change (mkNode true pl P kvl.*1 kvl.*2 [] nl) with (enc P (Leaf pl kvl nl)). rewrite El.
  eapply wp_write with (p := pl) (l0 := (P, PN) :: (pr, enc P (Leaf pr ((k, v) :: (k2, v2) :: kvr') nr)) :: X);
    [exact Ho1| |done| |].
  { rewrite Hl. solve_Permutation. }
  { apply leaf_ok. rewrite !fmap_app, !Forall_app. simpl. rewrite !Forall_cons, !Forall_nil.
    split_and!; (done || tauto || len). }
  intros t2 Ho2. eapply wp_write with (p := pr) (l0 := (P, PN) ::
    (pl, enc P (Leaf pl (kvl ++ [(k, v)]) nl)) :: X); [exact Ho2| |done| |].
  { simpl. solve_Permutation. }
  { apply (proj2 (leaf_ok pr P ((k2, v2) :: kvr') nr)). rewrite !fmap_cons, !Forall_cons.
    split_and!; (done || tauto || len). }
  intros t3 Ho3. eapply wp_write with (p := P) (l0 := (pl, enc P (Leaf pl (kvl ++ [(k, v)]) nl)) ::
    (pr, enc P (Leaf pr ((k2, v2) :: kvr') nr)) :: X); [exact Ho3| |done| |].
  { simpl. solve_Permutation. }
  { apply (pnode_sep P par K1 s k2); [done|tauto]. }
  intros t4 Ho4. apply wp_ret. by eapply HT.
Qed.

Lemma LeafMerge_owns t (Q : unit → T → Prop) :
  owns t root r l fr → (length kvl + length kvr ≤ 4)%nat →
  (∀ t', owns t' root r ((P, inner P par (K1 ++ K2) (C1 ++ pl :: C2)) ::
     (pl, enc P (Leaf pl (kvl ++ kvr) nr)) :: X) fr → Q tt t') →
  wp (LeafMerge (enc P (Leaf pl kvl nl)) (enc P (Leaf pr kvr nr))
        (pnode P par K1 s K2 C1 pl pr C2) (Datatypes.S (length C1))) t Q.
Proof.
  intros Ho Hroom HQ. pose proof (leaf_pair_parent t Ho) as HP.
  unfold LeafMerge. cbn [children keys pnode inner enc values next_leaf].
  rewrite Nat.sub_succ, Nat.sub_0_r.
  pose proof HokL as (? & ? & ? & HkL & HvL & ?)%leaf_ok.
  pose proof HokR as (? & ? & ? & HkR & HvR & ?)%leaf_ok.
  eapply wp_pure; [by apply verase_app|].
  eapply wp_pure; [rewrite (cons_middle pl), app_assoc; apply verase_app; len|].
  rewrite <- app_assoc. cbn [app node_page_id].
  set (PN := pnode P par K1 s K2 C1 pl pr C2) in *.
  assert (set_next nr (set_values (kvl.*2 ++ kvr.*2) (set_keys (kvl.*1 ++ kvr.*1)
    (enc P (Leaf pl kvl nl)))) = enc P (Leaf pl (kvl ++ kvr) nr)) as El by (unfold enc; by rewrite !fmap_app).
  cbn [set_keys set_values set_next is_leaf node_page_id parent_id keys values children next_leaf].
  change (mkNode true pl P kvl.*1 kvl.*2 [] nl) with (enc P (Leaf pl kvl nl)). rewrite El.
  eapply wp_write with (p := pl) (l0 := (P, PN) :: (pr, nd_r) :: X); [exact Ho| |done| |].
  { rewrite Hl. solve_Permutation. }
  { apply leaf_ok. rewrite !fmap_app, !Forall_app. split_and!; (done || tauto || len). }
  intros t2 Ho2. eapply wp_write with (p := P) (n0 := PN)
    (l0 := (pl, enc P (Leaf pl (kvl ++ kvr) nr)) :: (pr, nd_r) :: X); [exact Ho2| |done| |].
  { solve_Permutation. }
  { by eapply pnode_merged. }
  intros t3 Ho3. eapply wp_delete with (n := nd_r) (l0 := (P, inner P par (K1 ++ K2) (C1 ++ pl :: C2)) ::
    (pl, enc P (Leaf pl (kvl ++ kvr) nr)) :: X); [exact Ho3| |].
  { simpl. solve_Permutation. }
  intros t4 Ho4. by apply wp_ret, HQ.
Qed.
End leaves.
End pair.

(** ** A parent with two neighbouring children, in its place in the tree *)

Definition two (P : Z) (L : list (tree * Z)) (s : Z) (R : list (Z * tree)) (a b : tree) : tree :=
  Node P (L.*2 ++ s :: R.*1) (L.*1 ++ a :: b :: R.*2).

Definition two_node (P par : Z) (L : list (tree * Z)) (s : Z) (R : list (Z * tree)) (a b : Z) :=
  pnode P par L.*2 s R.*1 (map pid L.*1) a b (map pid R.*2).

Definition two_rest (P : Z) (L : list (tree * Z)) (R : list (Z * tree)) (c : context) : list cell :=
  flats P L.*1 ++ flats P R.*2 ++ cflat c P.

(** What the siblings and the context of such a parent satisfy. *)
Record two_ok (h : nat) (L : list (tree * Z)) (R : list (Z * tree)) (c : context) : Prop := {
  two_left : Forall (shape h) L.*1;
  two_right : Forall (shape h) R.*2;
  two_max : (length L + length R < 4)%nat;
  two_min : c ≠ [] → (1 ≤ length L + length R)%nat;
  two_context : cshape (Datatypes.S h) c;
}.

Lemma fill_hole_right P L s R a b : fill (Frm P (L ++ [(a, s)]) R) b = two P L s R a b.
Proof.
  unfold fill, fkeys, two. simpl. rewrite !fmap_app. simpl. by rewrite <- !app_assoc.
Qed.

Lemma fill_hole_left P L s R a b : fill (Frm P L ((s, b) :: R)) a = two P L s R a b.
Proof. done. Qed.

Lemma fnode_hole_right P par L s R a b :
  fnode par (Frm P (L ++ [(a, s)]) R) b = two_node P par L s R (pid a) b.
Proof.
  unfold fnode, fkeys, two_node, pnode. simpl. rewrite !fmap_app, ?map_app. simpl.
  by rewrite <- !app_assoc.
Qed.

Lemma flat_two P L s R a b c :
  flat INVALID_PAGE_ID (plug c (two P L s R a b)) ≡ₚ
  (P, two_node P (cpar c) L s R (pid a) (pid b)) :: flat P a ++ flat P b ++ two_rest P L R c.
Proof.
  rewrite flat_plug. unfold two, two_node, pnode, two_rest.
  rewrite flat_node, flats_app, !flats_cons, map_app. simpl. solve_Permutation.
Qed.

Lemma inorder_two P L s R a b c :
  inorder (plug c (two P L s R a b)) =
  cleft c ++ lefts L ++ inorder a ++ Sp s :: inorder b ++ rights R ++ cright c.
Proof.
  rewrite inorder_plug, <- fill_hole_left, inorder_fill. simpl. unfold rights at 1. simpl.
  fold (rights R). by app_norm.
Qed.

Lemma two_root_shape h P L s R a b c :
  two_ok h L R c → shape h a → shape h b →
  root_shape (Datatypes.S h + length c) (plug c (two P L s R a b)).
Proof.
  intros [HL HR Hmax Hmin Hc] Ha Hb. apply root_shape_plug; [done|]. apply fits_iff.
  unfold root_shape, two. simpl. rewrite !length_app, !length_cons, !length_fmap.
  rewrite Forall_app, !Forall_cons.
  split_and!; try done; try lia. intros Hne. specialize (Hmin Hne). lia.
Qed.

(** Writing the pair back, whatever happened to its children. *)
Lemma two_owns h P L s s0 R a b a0 b0 c t r fr (Q : T → Prop) :
  two_ok h L R c → shape h a → shape h b →
  owns t (pid (plug c (two P L s0 R a0 b0))) r
    ((P, two_node P (cpar c) L s R (pid a) (pid b)) :: flat P a ++ flat P b ++ two_rest P L R c) fr →
  (∀ h' x, owns t (pid x) r (flat INVALID_PAGE_ID x) fr → root_shape h' x →
     inorder x = cleft c ++ lefts L ++ inorder a ++ Sp s :: inorder b ++ rights R ++ cright c → Q t) →
  Q t.
Proof.
  intros Hok Ha Hb Ho HQ. apply (HQ (Datatypes.S h + length c)%nat (plug c (two P L s R a b))).
  - rewrite (pid_plug c _ (two P L s0 R a0 b0)) by done. eapply owns_perm; [|exact Ho].
    by rewrite flat_two.
  - by apply two_root_shape.
  - apply inorder_two.
Qed.

(** Merging them: the parent with one child less. *)
Lemma one_owns P L s0 R a a0 b0 c t r fr :
  owns t (pid (plug c (two P L s0 R a0 b0))) r
    ((P, inner P (cpar c) (L.*2 ++ R.*1) (map pid L.*1 ++ pid a :: map pid R.*2)) ::
     flat P a ++ two_rest P L R c) fr →
  owns t (pid (plug c (fill (Frm P L R) a))) r
    (flat INVALID_PAGE_ID (plug c (fill (Frm P L R) a))) fr.
Proof.
  intros Ho. rewrite (pid_plug c _ (two P L s0 R a0 b0)) by done. eapply owns_perm; [|exact Ho].
  rewrite flat_plug, flat_fill. unfold fnode, fkeys, fsides, two_rest. simpl. solve_Permutation.
Qed.

Lemma hole_not_root t r f c x fr :
  owns t (pid (plug (f :: c) x)) r (flat INVALID_PAGE_ID (plug (f :: c) x)) fr →
  pid x ≠ pid (plug (f :: c) x).
Proof.
  intros Ho E. pose proof (own_nodup _ _ _ _ _ Ho) as Hnd.
  rewrite flat_plug, fmap_app, flat_below in Hnd.
  apply NoDup_app in Hnd as (_ & Hnd & _). apply (Hnd (pid x)); [left|].
  rewrite E at 1. apply pid_root_in_cflat.
Qed.

Lemma two_ok_right h P L y s R c :
  cshape h (Frm P (L ++ [(y, s)]) R :: c) → two_ok h L R c ∧ shape h y.
Proof.
  intros (Hl & Hr & Hmax & _ & Hmin & Hc). simpl in *. rewrite fmap_app in Hl.
  apply Forall_app in Hl as [Hl Hy]. simpl in Hy. apply Forall_cons in Hy as [Hy _].
  unfold fcount in *. simpl in *. rewrite length_app in *. simpl in *.
  split; [|done]. split; try done; [lia|]. intros Hne. specialize (Hmin Hne). lia.
Qed.

Lemma two_ok_left h P L s y R c :
  cshape h (Frm P L ((s, y) :: R) :: c) → two_ok h L R c ∧ shape h y.
Proof.
  intros (Hl & Hr & Hmax & _ & Hmin & Hc). simpl in *.
  apply Forall_cons in Hr as [Hy Hr]. unfold fcount in *. simpl in *.
  split; [|done]. split; try done; [lia|]. intros Hne. specialize (Hmin Hne). lia.
Qed.

Lemma inorder_snoc p ks ts k m :
  length ts = Datatypes.S (length ks) →
  inorder (Node p (ks ++ [k]) (ts ++ [m])) = inorder (Node p ks ts) ++ Sp k :: inorder m.
Proof. intros Hl. by rewrite (inorder_split p p ks k [] ts [m] p Hl). Qed.

(** A thin node: one key less than it needs, unless it is the root. *)
Definition thin (h : nat) (c : context) (x : tree) : Prop :=
  top_shape h x ∧ (count x ≤ 4)%nat ∧ (c ≠ [] → 1 ≤ count x)%nat.

Lemma thin_merged h P L R c a :
  two_ok h L R c → shape h a → thin (Datatypes.S h) c (fill (Frm P L R) a).
Proof.
  intros [HL HR Hmax Hmin Hc] Ha. split_and!.
  - by apply top_shape_fill.
  - simpl. rewrite length_fkeys. unfold fcount. simpl. lia.
  - intros Hne. simpl. rewrite length_fkeys. unfold fcount. simpl. auto.
Qed.

Lemma shape_node h p ks ts : shape (Datatypes.S h) (Node p ks ts) →
  (2 ≤ length ks ≤ 4)%nat ∧ length ts = Datatypes.S (length ks) ∧ Forall (shape h) ts.
Proof. by intros (? & ? & ?). Qed.

Lemma shape_is_node h x : top_shape (Datatypes.S h) x → ∃ p ks ts, x = Node p ks ts.
Proof. destruct x as [|p ks ts]; [done|]. by exists p, ks, ts. Qed.

Section underflow.
Context (r : Z) (fr : gmap Z bytes) (Q : unit → T → Prop).

(** What the walk up establishes. *)
Definition settled (bs : list block) : Prop :=
  ∀ t h x, owns t (pid x) r (flat INVALID_PAGE_ID x) fr → root_shape h x → inorder x = bs → Q tt t.

(** The pieces on a tree; [k] is the rest of the program. *)
Section pieces.
Context (h : nat) (P : Z) (L : list (tree * Z)) (s : Z) (R : list (Z * tree)) (c : context).
Context (Hok : two_ok (Datatypes.S h) L R c).

Lemma node_borrow_left y p ks ts t (k : bool → M T unit) :
  shape (Datatypes.S h) y → top_shape (Datatypes.S h) (Node p ks ts) → length ks = 1%nat →
  let z := plug c (two P L s R y (Node p ks ts)) in
  owns t (pid z) r (flat INVALID_PAGE_ID z) fr → settled (inorder z) →
  (∀ t', Q tt t' → wp (k true) t' Q) →
  (∀ t', owns t' (pid z) r (flat INVALID_PAGE_ID z) fr → (count y ≤ 2)%nat → wp (k false) t' Q) →
  wp (NodeBorrowLeft (enc P (Node p ks ts)) (two_node P (cpar c) L s R (pid y) p)
        (Datatypes.S (length L)) ≫= k) t Q.
Proof.
  intros Hy [Hlen Hts] Hks z Ho HQ Ht Hf.
  destruct (shape_is_node h y) as (py & ksy & tsy & ->); [by apply shape_top|].
  apply shape_node in Hy as (Hcy & Hly & Htsy).
  apply wp_bind. replace (length L) with (length (map pid L.*1)) by by rewrite length_map, length_fmap.
  eapply NodeBorrowLeft_owns with (pl := py) (ksl := ksy) (tsl := tsy);
    [by rewrite length_map, !length_fmap|exact (flat_two P L s R (Node py ksy tsy) (Node p ks ts) c)|exact Ho|lia|..].
  - intros t' ks' k' ts' m -> -> Hbig Ho'. apply Ht.
    rewrite length_app in *. simpl in *. rewrite length_app in Hly. simpl in Hly.
    rewrite Forall_app, Forall_cons in Htsy.
    eapply (two_owns (Datatypes.S h) P L k' s R (Node py ks' ts') (Node p (s :: ks) (m :: ts)));
      [done| | |exact Ho'|].
    + split; [simpl; lia|]. split; [lia|tauto].
    + split; [simpl; lia|]. split; [simpl; lia|]. apply Forall_cons. tauto.
    + intros h' x Ho2 Hx Hi. apply (HQ t' h' x Ho2 Hx). unfold z. rewrite Hi, inorder_two.
      rewrite inorder_snoc by lia. simpl. by app_norm.
  - intros t' Ho' Hle. by apply Hf.
Qed.

Lemma node_borrow_right y p ks ts t (k : bool → M T unit) :
  shape (Datatypes.S h) y → top_shape (Datatypes.S h) (Node p ks ts) → length ks = 1%nat →
  let z := plug c (two P L s R (Node p ks ts) y) in
  owns t (pid z) r (flat INVALID_PAGE_ID z) fr → settled (inorder z) →
  (∀ t', Q tt t' → wp (k true) t' Q) →
  (∀ t', owns t' (pid z) r (flat INVALID_PAGE_ID z) fr → (count y ≤ 2)%nat → wp (k false) t' Q) →
  wp (NodeBorrowRight (enc P (Node p ks ts)) (two_node P (cpar c) L s R p (pid y))
        (length L) ≫= k) t Q.
Proof.
  intros Hy [Hlen Hts] Hks z Ho HQ Ht Hf.
  destruct (shape_is_node h y) as (py & ksy & tsy & ->); [by apply shape_top|].
  apply shape_node in Hy as (Hcy & Hly & Htsy).
  apply wp_bind. replace (length L) with (length (map pid L.*1)) by by rewrite length_map, length_fmap.
  eapply NodeBorrowRight_owns with (pr := py) (ksr := ksy) (tsr := tsy);
    [by rewrite length_map, !length_fmap|exact (flat_two P L s R (Node p ks ts) (Node py ksy tsy) c)|exact Ho|lia|..].
  - intros t' k' ks' m ts' -> -> Hbig Ho'. apply Ht.
    simpl in *. apply Forall_cons in Htsy as [Hm Htsy].
    eapply (two_owns (Datatypes.S h) P L k' s R (Node p (ks ++ [s]) (ts ++ [m])) (Node py ks' ts'));
      [done| | |exact Ho'|].
    + split; [simpl; rewrite length_app; simpl; lia|].
      split; [rewrite !length_app; simpl; lia|]. apply Forall_app. split; [done|]. by apply Forall_cons.
    + split; [simpl; lia|]. split; [lia|done].
    + intros h' x Ho2 Hx Hi. apply (HQ t' h' x Ho2 Hx). unfold z. rewrite Hi, inorder_two.
      rewrite inorder_snoc by lia. simpl. by app_norm.
  - intros t' Ho' Hle. by apply Hf.
Qed.

Lemma node_merge a b t (R' : unit → T → Prop) :
  top_shape (Datatypes.S h) a → top_shape (Datatypes.S h) b → (1 ≤ count a + count b ≤ 3)%nat →
  let z := plug c (two P L s R a b) in
  owns t (pid z) r (flat INVALID_PAGE_ID z) fr →
  (∀ t' m, shape (Datatypes.S h) m → inorder m = inorder a ++ Sp s :: inorder b →
     owns t' (pid (plug c (fill (Frm P L R) m))) r
       (flat INVALID_PAGE_ID (plug c (fill (Frm P L R) m))) fr → R' tt t') →
  wp (NodeMerge (enc P a) (enc P b) (two_node P (cpar c) L s R (pid a) (pid b))
        (Datatypes.S (length L))) t R'.
Proof.
  intros Ha Hb Hc z Ho HQ.
  destruct (shape_is_node h a Ha) as (pa & ksa & tsa & ->).
  destruct (shape_is_node h b Hb) as (pb & ksb & tsb & ->).
  destruct Ha as [Hla Hsa], Hb as [Hlb Hsb]. simpl in Hc.
  replace (length L) with (length (map pid L.*1)) by by rewrite length_map, length_fmap.
  eapply NodeMerge_owns with (pl := pa) (pr := pb);
    [by rewrite length_map, !length_fmap|exact (flat_two P L s R (Node pa ksa tsa) (Node pb ksb tsb) c)|exact Ho|lia|].
  intros t' Ho'. apply (HQ t' (Node pa (ksa ++ s :: ksb) (tsa ++ tsb))).
  - split; [simpl; rewrite length_app; simpl; lia|].
    split; [rewrite !length_app; simpl; lia|by apply Forall_app].
  - by apply inorder_split.
  - eapply one_owns. exact Ho'.
Qed.
End pieces.

(** The root that has lost its last key gives way to its only child. *)
Lemma collapse_root h fuel p ks ts t :
  top_shape (Datatypes.S h) (Node p ks ts) → (length ks ≤ 4)%nat →
  owns t p r (flat INVALID_PAGE_ID (Node p ks ts)) fr → settled (inorder (Node p ks ts)) →
  wp (HandleInternalUnderflow_loop (Datatypes.S fuel) p) t Q.
Proof.
  intros [Hlen Hts] Hmax Ho HQ. cbn [HandleInternalUnderflow_loop].
  eapply (wp_read_tree _ _ _ _ _ INVALID_PAGE_ID (Node p ks ts) []); [exact Ho|by rewrite app_nil_r|].
  intros t1 Ho1. eapply wp_root; [exact Ho1|]. cbn [enc inner node_page_id keys children].
  rewrite Z.eqb_refl. destruct ks as [|k ks].
  - destruct ts as [|y [|]]; simpl in Hlen; try lia. apply Forall_cons in Hts as [Hy _].
    cbn [map]. apply wp_bind, wp_modify. apply (set_root_owns _ _ (pid y)) in Ho1.
    rewrite flat_node in Ho1. simpl map in Ho1. rewrite flats_cons, flats_nil, app_nil_r in Ho1.
    assert ((p, inner p INVALID_PAGE_ID [] [pid y]) :: flat p y ≡ₚ
      flat p y ++ [(p, inner p INVALID_PAGE_ID [] [pid y])]) as Hl by solve_Permutation.
    destruct (owns_tree _ _ _ _ _ _ _ _ Ho1 Hl) as (Hok & _).
    eapply wp_read_tree; [exact Ho1|exact Hl|]. intros t2 Ho2. rewrite enc_set_parent.
    eapply wp_write with (p := pid y) (n0 := enc p y)
      (l0 := (p, inner p INVALID_PAGE_ID [] [pid y]) :: below y); [exact Ho2| |apply enc_page| |].
    { rewrite flat_below. solve_Permutation. }
    { rewrite <- (enc_set_parent _ p). by apply node_ok_set_parent; [apply in_signed_invalid|]. }
    intros t3 Ho3. eapply wp_delete with (p := p) (l0 := flat INVALID_PAGE_ID y); [exact Ho3| |].
    { rewrite (flat_below _ y). apply perm_swap. }
    intros t4 Ho4. apply wp_ret. eapply (HQ t4 h y); [exact Ho4|by apply shape_root|done].
  - apply wp_ret. eapply (HQ t1 (Datatypes.S h) (Node p (k :: ks) ts)); [exact Ho1| |done].
    split_and!; try done; simpl; lia.
Qed.
End underflow.

(** The three attempts, for a thin node in the hole of the frame [f]. *)
Section attempts.
Context (r : Z) (fr : gmap Z bytes) (Q : unit → T → Prop).
Context (h : nat) (f : frame) (c : context) (p : Z) (ks : list Z) (ts : list tree).
Context (Hc : cshape (Datatypes.S h) (f :: c)) (Hx : top_shape (Datatypes.S h) (Node p ks ts)).
Context (Hks : length ks = 1%nat).
Let x := Node p ks ts.
Let z := plug c (fill f x).
Context (HQ : settled r fr Q (inorder z)).

Lemma try_left t (k : bool → M T unit) :
  owns t (pid z) r (flat INVALID_PAGE_ID z) fr →
  (∀ t', Q tt t' → wp (k true) t' Q) →
  (∀ t', owns t' (pid z) r (flat INVALID_PAGE_ID z) fr →
     (∀ L y s, flefts f = L ++ [(y, s)] → (count y ≤ 2)%nat) → wp (k false) t' Q) →
  wp ((if bool_decide (0 < length (flefts f))%nat
       then NodeBorrowLeft (enc (fpage f) x) (fnode (cpar c) f p) (length (flefts f))
       else mret false) ≫= k) t Q.
Proof.
  intros Ho Ht Hf. destruct f as [P lf rf]. cbn [flefts fpage] in *.
  destruct lf as [|[y s] L _] using rev_ind.
  { apply wp_bind, wp_ret, Hf; [done|]. intros L y s E. by destruct L. }
  rewrite length_app, Nat.add_1_r. rewrite bool_decide_eq_true_2 by lia.
  destruct (two_ok_right _ _ _ _ _ _ _ Hc) as [Hok Hy].
  unfold z in *. rewrite fnode_hole_right, fill_hole_right in *.
  eapply node_borrow_left; try done. intros t' Ho' Hle. apply Hf; [done|].
  intros L' y' s' E. by apply app_inj_tail in E as [_ [= <- _]].
Qed.

Lemma try_right t (k : bool → M T unit) :
  owns t (pid z) r (flat INVALID_PAGE_ID z) fr →
  (∀ t', Q tt t' → wp (k true) t' Q) →
  (∀ t', owns t' (pid z) r (flat INVALID_PAGE_ID z) fr →
     (∀ s y R, frights f = (s, y) :: R → (count y ≤ 2)%nat) → wp (k false) t' Q) →
  wp ((if bool_decide (length (flefts f) + 1 < length (children (fnode (cpar c) f p)))%nat
       then NodeBorrowRight (enc (fpage f) x) (fnode (cpar c) f p) (length (flefts f))
       else mret false) ≫= k) t Q.
Proof.
  intros Ho Ht Hf. destruct f as [P L rf]. cbn [flefts fpage fnode inner children frights] in *.
  destruct rf as [|[s y] R].
  { rewrite bool_decide_eq_false_2 by (rewrite length_app, length_map, length_fmap; simpl; lia).
    by apply wp_bind, wp_ret, Hf. }
  rewrite bool_decide_eq_true_2 by (rewrite length_app, length_map, length_fmap; simpl; lia).
  destruct (two_ok_left _ _ _ _ _ _ _ Hc) as [Hok Hy].
  unfold z in *. rewrite fill_hole_left in *.
  eapply (node_borrow_right r fr Q h P L s R c Hok y p ks ts); try done.
  intros t' Ho' Hle. apply Hf; [done|]. by intros s' y' R' [= -> -> ->].
Qed.

Lemma do_merge t (k : unit → M T unit) :
  owns t (pid z) r (flat INVALID_PAGE_ID z) fr →
  (∀ L y s, flefts f = L ++ [(y, s)] → (count y ≤ 2)%nat) →
  (∀ s y R, frights f = (s, y) :: R → (count y ≤ 2)%nat) →
  (∀ t' g m, fpage g = fpage f → thin (Datatypes.S (Datatypes.S h)) c (fill g m) →
     inorder (fill g m) = inorder (fill f x) →
     owns t' (pid (plug c (fill g m))) r (flat INVALID_PAGE_ID (plug c (fill g m))) fr →
     wp (k tt) t' Q) →
  wp ((if bool_decide (0 < length (flefts f))%nat then
         left_id ← at_ (children (fnode (cpar c) f p)) (length (flefts f) - 1);
         left ← ReadNode left_id;
         NodeMerge left (enc (fpage f) x) (fnode (cpar c) f p) (length (flefts f))
       else
         right_id ← at_ (children (fnode (cpar c) f p)) (length (flefts f) + 1);
         right ← ReadNode right_id;
         NodeMerge (enc (fpage f) x) right (fnode (cpar c) f p) (length (flefts f) + 1)) ≫= k) t Q.
Proof.
  intros Ho Hleft Hright HM. destruct f as [P lf rf]. cbn [flefts frights fpage] in *.
  destruct lf as [|[y s] L _] using rev_ind.
  - destruct rf as [|[s y] R]; [destruct Hc as (_ & _ & _ & H1 & _); unfold fcount in H1; simpl in H1; lia|].
    destruct (two_ok_left _ _ _ _ _ _ _ Hc) as [Hok Hy]. specialize (Hright s y R eq_refl).
    pose proof (proj1 (shape_top _ _) Hy) as [Hyc Hyt].
    unfold z in *. rewrite fill_hole_left in *. cbn [length]. rewrite bool_decide_eq_false_2 by lia.
    apply wp_bind. eapply wp_pure; [by apply (at_app 1 (pid y) [p])|].
    eapply (wp_read_tree _ _ _ _ _ P y ((P, two_node P (cpar c) [] s R p (pid y)) ::
      flat P x ++ two_rest P [] R c)); [exact Ho| |].
    { rewrite flat_two. unfold x. simpl pid. solve_Permutation. }
    intros t1 Ho1. eapply (node_merge r fr h P [] s R c x y);
      [done|done|simpl; lia|exact Ho1|].
    intros t2 m Hm Hi Ho2. apply (HM t2 (Frm P [] R) m); [done|by apply thin_merged| |done].
    rewrite <- fill_hole_left, !inorder_fill, Hi. simpl. unfold rights at 2. simpl. by app_norm.
  - rewrite length_app, Nat.add_1_r. rewrite bool_decide_eq_true_2 by lia.
    destruct (two_ok_right _ _ _ _ _ _ _ Hc) as [Hok Hy]. specialize (Hleft L y s eq_refl).
    pose proof (proj1 (shape_top _ _) Hy) as [Hyc Hyt].
    unfold z in *. rewrite fnode_hole_right, fill_hole_right in *.
    apply wp_bind. rewrite Nat.sub_succ, Nat.sub_0_r.
    eapply wp_pure; [apply at_app; by rewrite length_map, length_fmap|].
    eapply (wp_read_tree _ _ _ _ _ P y ((P, two_node P (cpar c) L s rf (pid y) p) ::
      flat P x ++ two_rest P L rf c)); [exact Ho| |].
    { rewrite flat_two. unfold x. simpl pid. solve_Permutation. }
    intros t1 Ho1. eapply (node_merge r fr h P L s rf c y x);
      [done|done|simpl; lia|exact Ho1|].
    intros t2 m Hm Hi Ho2. apply (HM t2 (Frm P L rf) m); [done|by apply thin_merged| |done].
    rewrite <- fill_hole_left, !inorder_fill, Hi. simpl. unfold rights at 2. simpl.
    fold (rights rf). by app_norm.
Qed.
End attempts.

Lemma HandleInternalUnderflow_loop_owns c h fuel x t r fr (Q : unit → T → Prop) :
  (length c < fuel)%nat → cshape (Datatypes.S h) c → thin (Datatypes.S h) c x →
  owns t (pid (plug c x)) r (flat INVALID_PAGE_ID (plug c x)) fr →
  settled r fr Q (inorder (plug c x)) →
  wp (HandleInternalUnderflow_loop fuel (pid x)) t Q.
Proof.
  revert h fuel x t. induction c as [|f c IH]; intros h fuel x t Hfuel Hc (Hx & Hmax & Hmin) Ho HQ;
    (destruct fuel as [|fuel]; [simpl in Hfuel; lia|]);
    destruct (shape_is_node h x Hx) as (p & ks & ts & ->).
  { by eapply collapse_root. }
  pose proof (hole_not_root _ _ _ _ _ _ Ho) as Hne. specialize (Hmin ltac:(done)). simpl in Hmin, Hmax.
  cbn [HandleInternalUnderflow_loop pid].
  eapply (wp_read_tree _ _ _ _ _ (fpage f) (Node p ks ts)); [exact Ho|apply flat_plug|].
  intros t1 Ho1. eapply wp_root; [exact Ho1|]. cbn [enc inner node_page_id keys parent_id].
  rewrite (proj2 (Z.eqb_neq p (pid (plug (f :: c) (Node p ks ts)))) Hne).
  case_bool_decide as Hfull; unfold MIN_KEYS, MAX_KEYS in Hfull; change (Nat.div 4 2) with 2%nat in Hfull.
  { apply wp_ret. eapply (HQ t1 (Datatypes.S h + length (f :: c))%nat); [exact Ho1| |done].
    apply root_shape_plug; [done|]. split; [simpl; lia|done]. }
  assert (length ks = 1%nat) as Hks by lia.
  assert (flat INVALID_PAGE_ID (plug (f :: c) (Node p ks ts)) ≡ₚ
    flat (fpage f) (Node p ks ts) ++ cflat (f :: c) (pid (Node p ks ts)) ++ []) as Hl1
    by by rewrite app_nil_r, flat_plug.
  destruct (frame_facts _ _ _ _ _ _ _ _ _ Ho Hl1) as (Hpos & _ & _ & _ & Hin).
  cbn [pid] in Hpos, Hin. eapply wp_read; [exact Ho1|exact Hin|]. intros t2 Ho2. rewrite Hpos. clear Hpos Hin Hl1.
  change (inner p (fpage f) ks (map pid ts)) with (enc (fpage f) (Node p ks ts)).
  eapply try_left; [exact Hc|exact Hx|exact Hks|exact HQ|exact Ho2|intros; by apply wp_ret|].
  intros t3 Ho3 Hleft. cbn iota.
  eapply try_right; [exact Hc|exact Hx|exact Hks|exact HQ|exact Ho3|intros; by apply wp_ret|].
  intros t4 Ho4 Hright. cbn iota.
  eapply do_merge; [exact Hc|exact Hx|exact Hks|exact HQ|exact Ho4|exact Hleft|exact Hright|].
  intros t5 g m Hg Hthin Hi Ho5. cbn [node_page_id fnode inner]. rewrite <- Hg.
  change (fpage g) with (pid (fill g m)).
  apply (IH (Datatypes.S h)); [simpl in Hfuel; lia|apply Hc|exact Hthin|exact Ho5|].
  intros t6 h' x' Ho6 Hx' Hi'. apply (HQ t6 h' x' Ho6 Hx'). rewrite Hi'. simpl plug.
  by rewrite !inorder_plug, Hi.
Qed.

Lemma HandleInternalUnderflow_owns c h x t r fr (Q : unit → T → Prop) :
  cshape (Datatypes.S h) c → thin (Datatypes.S h) c x →
  owns t (pid (plug c x)) r (flat INVALID_PAGE_ID (plug c x)) fr →
  settled r fr Q (inorder (plug c x)) →
  wp (HandleInternalUnderflow (pid x)) t Q.
Proof.
  intros Hc Hx Ho HQ. unfold HandleInternalUnderflow, iterations. apply wp_bind, wp_gets.
  eapply HandleInternalUnderflow_loop_owns; try done.
  pose proof (owns_iterations _ _ _ _ _ Ho) as Hi. rewrite flat_plug, length_app in Hi.
  rewrite flat_below in Hi. simpl in Hi. pose proof (length_cflat c (pid x)). lia.
Qed.
End delete.
