(* ===== verification/TreeUnderflow.v ===== *)
(** * A leaf left with too few keys, and Delete

    The leaf borrows from a sibling or merges with one, and the parent is
    settled by [HandleInternalUnderflow]; with it, deletion against the map. *)

From S2P Require Export TreeDelete.

Local Open Scope Z_scope.

Section leaf.
Context {S : Type} `{PageStoreLaws S}.
Notation T := (BPlusTree S).
Context (r : Z) (fr : gmap Z bytes) (Q : unit → T → Prop).

(** The blocks the tree must end with, up to separators and the borders of the
    leaves: [bs0] is the sequence with the entry removed from its leaf. *)
Definition leaf_settled (bs0 : list block) : Prop :=
  ∀ t h x, owns t (pid x) r (flat INVALID_PAGE_ID x) fr → root_shape h x →
    sorted (inorder x) → linked INVALID_PAGE_ID (leaves (inorder x)) →
    entries (inorder x) = entries bs0 → Q tt t.

(** Joining two neighbouring leaves. *)
Lemma leaf_join (bs0 : list block) c P L s R pa kva na pb kvb nb a0 b0 t (k : unit → M T unit) :
  two_ok 0 L R c → pid a0 = pa → pid b0 = pb →
  node_ok (enc P (Leaf pa kva na)) → node_ok (enc P (Leaf pb kvb nb)) →
  (2 ≤ length kva + length kvb ≤ 4)%nat →
  owns t (pid (plug c (two P L s R a0 b0))) r (flat INVALID_PAGE_ID (plug c (two P L s R a0 b0))) fr →
  below a0 = [] → below b0 = [] →
  sorted bs0 → linked INVALID_PAGE_ID (leaves bs0) →
  bs0 = cleft c ++ lefts L ++ B pa kva na :: Sp s :: B pb kvb nb :: rights R ++ cright c →
  (∀ t' g m, fpage g = P → thin 1 c (fill g m) →
     owns t' (pid (plug c (fill g m))) r (flat INVALID_PAGE_ID (plug c (fill g m))) fr →
     sorted (inorder (plug c (fill g m))) →
     linked INVALID_PAGE_ID (leaves (inorder (plug c (fill g m)))) →
     entries (inorder (plug c (fill g m))) = entries bs0 → wp (k tt) t' Q) →
  wp (LeafMerge (enc P (Leaf pa kva na)) (enc P (Leaf pb kvb nb))
        (two_node P (cpar c) L s R pa pb) (Datatypes.S (length L)) ≫= k) t Q.
Proof.
  intros Hok <- <- Ha Hb Hcnt Ho Hba Hbb Hs Hl Hbs HM.
  apply wp_bind. replace (length L) with (length (map pid L.*1)) by by rewrite length_map, length_fmap.
  eapply LeafMerge_owns with (nd_l := enc P a0) (nd_r := enc P b0) (X := two_rest P L R c);
    [by rewrite length_map, !length_fmap| |exact Ha|exact Hb|exact Ho|lia|].
  { rewrite flat_two, !flat_below, Hba, Hbb. done. }
  intros t' Ho'. set (m := Leaf (pid a0) (kva ++ kvb) nb).
  assert (inorder (plug c (fill (Frm P L R) m)) =
    (cleft c ++ lefts L) ++ B (pid a0) (kva ++ kvb) nb :: rights R ++ cright c) as Hi.
  { rewrite inorder_plug, inorder_fill. simpl. by app_norm. }
  rewrite Hbs, app_assoc in Hs. rewrite Hbs in Hl.
  apply (HM t' (Frm P L R) m); [done| | | | |].
  - apply thin_merged; [done|]. split; [unfold m; simpl; rewrite length_app; lia|done].
  - by apply (one_owns P L s R m a0 b0).
  - rewrite Hi. by eapply sorted_join.
  - rewrite Hi. autorewrite with qdb_blocks in Hl |- *. simpl in *.
    rewrite <- ?app_assoc in *. rewrite !linked_app in *. simpl in *. rewrite !head_id_app in *. simpl in *. tauto.
  - rewrite Hi, Hbs. autorewrite with qdb_blocks. simpl. by app_norm.
Qed.

(** The leaf [p], in the hole of the frame [f], still has its old entries
    [kvs0] on its page; [kvs] are its entries in memory. *)
Context (f : frame) (c : context) (p : Z) (kvs0 kvs : list (Z * Z)) (n : Z).
Context (Hc : cshape 0 (f :: c)).
Context (Hkvs : length kvs = 1%nat).
Context (Hleaf : node_ok (enc (fpage f) (Leaf p kvs n))).
Let x0 := Leaf p kvs0 n.
Let x := Leaf p kvs n.
Let z := plug c (fill f x0).
Let bs0 := inorder (plug c (fill f x)).
Context (Hs : sorted bs0) (Hl : linked INVALID_PAGE_ID (leaves bs0)).
Context (HQ : leaf_settled bs0).

Lemma shape_leaf y : shape 0 y → ∃ q kv m, y = Leaf q kv m ∧ (2 ≤ length kv ≤ 4)%nat.
Proof. intros [Hcy Hty]. destruct y as [q kv m|]; [|done]. by exists q, kv, m. Qed.

Lemma sibling_ok t P L s R a b q kv m :
  owns t (pid (plug c (two P L s R a b))) r (flat INVALID_PAGE_ID (plug c (two P L s R a b))) fr →
  Leaf q kv m = a ∨ Leaf q kv m = b → node_ok (enc P (Leaf q kv m)).
Proof.
  intros Ho Hy. assert (∃ X, flat INVALID_PAGE_ID (plug c (two P L s R a b)) ≡ₚ
    flat P (Leaf q kv m) ++ X) as [X HX].
  { destruct Hy as [E|E]; eexists; rewrite flat_two, E.
    - by rewrite Permutation_middle.
    - rewrite (app_assoc (flat P a)), (Permutation_app_comm (flat P a)).
      rewrite <- (app_assoc (flat P b)). by rewrite Permutation_middle. }
  by destruct (owns_tree _ _ _ _ _ _ _ _ Ho HX).
Qed.

Lemma leaf_try_left t (k : bool → M T unit) :
  owns t (pid z) r (flat INVALID_PAGE_ID z) fr →
  (∀ t', Q tt t' → wp (k true) t' Q) →
  (∀ t', owns t' (pid z) r (flat INVALID_PAGE_ID z) fr →
     (∀ L y s, flefts f = L ++ [(y, s)] → (count y ≤ 2)%nat) → wp (k false) t' Q) →
  wp ((if bool_decide (0 < length (flefts f))%nat
       then LeafBorrowLeft (enc (fpage f) x) (fnode (cpar c) f p) (length (flefts f))
       else mret false) ≫= k) t Q.
Proof.
  intros Ho Ht Hf. destruct f as [P lf rf]. cbn [flefts fpage] in *.
  destruct lf as [|[y s] L _] using rev_ind.
  { apply wp_bind, wp_ret, Hf; [done|]. intros L y s E. by destruct L. }
  rewrite length_app, Nat.add_1_r. rewrite bool_decide_eq_true_2 by lia.
  destruct (two_ok_right _ _ _ _ _ _ _ Hc) as [Hok Hy].
  destruct (shape_leaf y Hy) as (q & kv & m & -> & Hkv).
  unfold z, bs0 in *. rewrite fnode_hole_right, !fill_hole_right in *.
  apply wp_bind. replace (length L) with (length (map pid L.*1)) by by rewrite length_map, length_fmap.
  eapply LeafBorrowLeft_owns with (pl := q) (kvl := kv) (nl := m) (pr := p);
    [by rewrite length_map, !length_fmap|exact (flat_two P L s rf (Leaf q kv m) x0 c)
    |by eapply sibling_ok; [exact Ho|left]|exact Hleaf|done|exact Ho|lia|..].
  - intros t' kv' k' v -> Hbig Ho'. apply Ht. rewrite length_app in *. simpl in *.
    eapply (two_owns 0 P L k' s rf (Leaf q kv' m) (Leaf p ((k', v) :: kvs) n)); [done| | |exact Ho'|].
    + split; [simpl; lia|done].
    + split; [simpl; lia|done].
    + rewrite inorder_two in *. simpl in *.
      intros h' x' Ho2 Hx Hi. apply (HQ t' h' x' Ho2 Hx); rewrite Hi, app_assoc.
      * rewrite app_assoc in Hs. eapply sorted_move_right; [|exact Hs]. by destruct kv'; [simpl in Hbig; lia|].
      * autorewrite with qdb_blocks in Hl |- *. simpl in *. by app_norm.
      * autorewrite with qdb_blocks. simpl. by app_norm.
  - intros t' Ho' Hle. apply Hf; [done|].
    intros L' y' s' E. by apply app_inj_tail in E as [_ [= <- _]].
Qed.

Lemma leaf_try_right t (k : bool → M T unit) :
  owns t (pid z) r (flat INVALID_PAGE_ID z) fr →
  (∀ t', Q tt t' → wp (k true) t' Q) →
  (∀ t', owns t' (pid z) r (flat INVALID_PAGE_ID z) fr →
     (∀ s y R, frights f = (s, y) :: R → (count y ≤ 2)%nat) → wp (k false) t' Q) →
  wp ((if bool_decide (length (flefts f) + 1 < length (children (fnode (cpar c) f p)))%nat
       then LeafBorrowRight (enc (fpage f) x) (fnode (cpar c) f p) (length (flefts f))
       else mret false) ≫= k) t Q.
Proof.
  intros Ho Ht Hf. destruct f as [P L rf]. cbn [flefts fpage fnode inner children frights] in *.
  destruct rf as [|[s y] R].
  { rewrite bool_decide_eq_false_2 by (rewrite length_app, length_map, length_fmap; simpl; lia).
    by apply wp_bind, wp_ret, Hf. }
  rewrite bool_decide_eq_true_2 by (rewrite length_app, length_map, length_fmap; simpl; lia).
  destruct (two_ok_left _ _ _ _ _ _ _ Hc) as [Hok Hy].
  destruct (shape_leaf y Hy) as (q & kv & m & -> & Hkv).
  unfold z, bs0 in *. rewrite !fill_hole_left in *.
  apply wp_bind. replace (length L) with (length (map pid L.*1)) by by rewrite length_map, length_fmap.
  eapply LeafBorrowRight_owns with (pr := q) (kvr := kv) (nr := m) (pl := p);
    [by rewrite length_map, !length_fmap|exact (flat_two P L s R x0 (Leaf q kv m) c)
    |exact Hleaf|by eapply sibling_ok; [exact Ho|right]|done|exact Ho|lia|..].
  - intros t' k' v k2 v2 kv' -> Hbig Ho'. apply Ht. simpl in *.
    eapply (two_owns 0 P L k2 s R (Leaf p (kvs ++ [(k', v)]) n) (Leaf q ((k2, v2) :: kv') m));
      [done| | |exact Ho'|].
    + split; [simpl; rewrite length_app; simpl; lia|done].
    + split; [simpl; lia|done].
    + rewrite inorder_two in *. simpl in *.
      intros h' x' Ho2 Hx Hi. apply (HQ t' h' x' Ho2 Hx); rewrite Hi, app_assoc.
      * rewrite app_assoc in Hs. by eapply sorted_move_left.
      * autorewrite with qdb_blocks in Hl |- *. simpl in *. by app_norm.
      * autorewrite with qdb_blocks. simpl. by app_norm.
  - intros t' Ho' Hle. apply Hf; [done|]. by intros s' y' R' [= <- <- <-].
Qed.

Lemma leaf_do_merge t (k : unit → M T unit) :
  owns t (pid z) r (flat INVALID_PAGE_ID z) fr →
  (∀ L y s, flefts f = L ++ [(y, s)] → (count y ≤ 2)%nat) →
  (∀ s y R, frights f = (s, y) :: R → (count y ≤ 2)%nat) →
  (∀ t' g m, fpage g = fpage f → thin 1 c (fill g m) →
     owns t' (pid (plug c (fill g m))) r (flat INVALID_PAGE_ID (plug c (fill g m))) fr →
     sorted (inorder (plug c (fill g m))) →
     linked INVALID_PAGE_ID (leaves (inorder (plug c (fill g m)))) →
     entries (inorder (plug c (fill g m))) = entries bs0 → wp (k tt) t' Q) →
  wp ((if bool_decide (0 < length (flefts f))%nat then
         left_id ← at_ (children (fnode (cpar c) f p)) (length (flefts f) - 1);
         left ← ReadNode left_id;
         LeafMerge left (enc (fpage f) x) (fnode (cpar c) f p) (length (flefts f))
       else
         right_id ← at_ (children (fnode (cpar c) f p)) (length (flefts f) + 1);
         right ← ReadNode right_id;
         LeafMerge (enc (fpage f) x) right (fnode (cpar c) f p) (length (flefts f) + 1)) ≫= k) t Q.
Proof.
  intros Ho Hleft Hright HM. destruct f as [P lf rf]. cbn [flefts frights fpage] in *.
  destruct lf as [|[y s] L _] using rev_ind.
  - destruct rf as [|[s y] R]; [destruct Hc as (_ & _ & _ & H1 & _); unfold fcount in H1; simpl in H1; lia|].
    destruct (two_ok_left _ _ _ _ _ _ _ Hc) as [Hok Hy]. specialize (Hright s y R eq_refl).
    destruct (shape_leaf y Hy) as (q & kv & m & -> & Hkv). simpl in Hright.
    unfold z in *. rewrite fill_hole_left in *. cbn [length]. rewrite bool_decide_eq_false_2 by lia.
    apply wp_bind. eapply wp_pure; [by apply (at_app 1 q [p])|].
    eapply (wp_read_tree _ _ _ _ _ P (Leaf q kv m) ((P, two_node P (cpar c) [] s R p q) ::
      flat P x0 ++ two_rest P [] R c)); [exact Ho| |].
    { rewrite flat_two. simpl pid. solve_Permutation. }
    intros t1 Ho1. apply wp_bind_inv.
    eapply (leaf_join bs0 c P [] s R p kvs n q kv m x0 (Leaf q kv m));
      [done|done|done|exact Hleaf|eapply sibling_ok; [exact Ho|by right]|lia|exact Ho1|done|done|exact Hs|exact Hl| |done].
    unfold bs0. by rewrite fill_hole_left, inorder_two.
  - rewrite length_app, Nat.add_1_r. rewrite bool_decide_eq_true_2 by lia.
    destruct (two_ok_right _ _ _ _ _ _ _ Hc) as [Hok Hy]. specialize (Hleft L y s eq_refl).
    destruct (shape_leaf y Hy) as (q & kv & m & -> & Hkv). simpl in Hleft.
    unfold z in *. rewrite fnode_hole_right, fill_hole_right in *.
    apply wp_bind. rewrite Nat.sub_succ, Nat.sub_0_r.
    eapply wp_pure; [apply at_app; by rewrite length_map, length_fmap|].
    eapply (wp_read_tree _ _ _ _ _ P (Leaf q kv m) ((P, two_node P (cpar c) L s rf q p) ::
      flat P x0 ++ two_rest P L rf c)); [exact Ho| |].
    { rewrite flat_two. simpl pid. solve_Permutation. }
    intros t1 Ho1. apply wp_bind_inv.
    eapply (leaf_join bs0 c P L s rf q kv m p kvs n (Leaf q kv m) x0);
      [done|done|done|eapply sibling_ok; [exact Ho|by left]|exact Hleaf|lia|exact Ho1|done|done|exact Hs|exact Hl| |done].
    unfold bs0. by rewrite fill_hole_right, inorder_two.
Qed.

Lemma LeafUnderflow_owns t :
  owns t (pid z) r (flat INVALID_PAGE_ID z) fr → wp (LeafUnderflow (enc (fpage f) x)) t Q.
Proof.
  intros Ho. unfold LeafUnderflow. rewrite enc_parent, enc_page.
  assert (flat INVALID_PAGE_ID z ≡ₚ flat (fpage f) x0 ++ cflat (f :: c) (pid x0) ++ []) as Hl1.
  { rewrite app_nil_r. apply (flat_plug (f :: c) x0). }
  destruct (frame_facts _ _ _ _ _ _ _ _ _ Ho Hl1) as (Hpos & _ & _ & _ & Hin).
  eapply wp_read; [exact Ho|exact Hin|]. intros t2 Ho2.
  change (pid x) with (pid x0). rewrite Hpos.
  eapply leaf_try_left; [exact Ho2|intros; by apply wp_ret|]. intros t3 Ho3 Hleft. cbn iota.
  eapply leaf_try_right; [exact Ho3|intros; by apply wp_ret|]. intros t4 Ho4 Hright. cbn iota.
  eapply leaf_do_merge; [exact Ho4|exact Hleft|exact Hright|].
  intros t5 g m Hg Hthin Ho5 Hs5 Hl5 He5. cbn [node_page_id fnode inner]. rewrite <- Hg.
  change (fpage g) with (pid (fill g m)).
  eapply (HandleInternalUnderflow_owns c 0); [apply Hc|exact Hthin|exact Ho5|].
  intros t6 h' x' Ho6 Hx' Hi'. apply (HQ t6 h' x' Ho6 Hx'); by rewrite Hi'.
Qed.
End leaf.

(** ** Delete *)

Section delete.
Context {S : Type} `{PageStoreLaws S}.
Notation T := (BPlusTree S).
Implicit Types (t : T) (m : gmap Z Z) (fr : gmap Z bytes).

Lemma located_delete key v x c p a b n :
  located key x c p a ((key, v) :: b) n →
  let bs := cleft c ++ B p (a ++ b) n :: cright c in
  sorted bs ∧ tree_map bs = delete key (tree_map (inorder x)) ∧
  linked INVALID_PAGE_ID (leaves bs).
Proof.
  intros L bs. rewrite (loc_tree _ _ _ _ _ _ _ L), inorder_plug.
  destruct (delete_in_leaf (cleft c) (cright c) key p a b v n (loc_sorted _ _ _ _ _ _ _ L)) as [H1 H2].
  split_and!; [done|done|]. pose proof (loc_linked _ _ _ _ _ _ _ L) as Hl.
  unfold bs. autorewrite with qdb_blocks in *. done.
Qed.

Lemma enc_leaf_delete par p a b n k v :
  set_values (a.*2 ++ b.*2) (set_keys (a.*1 ++ b.*1) (enc par (Leaf p (a ++ (k, v) :: b) n))) =
  enc par (Leaf p (a ++ b) n).
Proof. unfold enc. by rewrite !fmap_app. Qed.

(** The leaf with its entry gone, in each of the two cases of [Delete]. *)
Lemma Delete_leaf key v h x c p a b n t r fr (Q : bool → T → Prop) :
  located key x c p a ((key, v) :: b) n → tree_ok h x →
  owns t (pid x) r (flat INVALID_PAGE_ID x) fr →
  (∀ t', holds t' r fr (delete key (tree_map (inorder x))) → Q true t') →
  wp (let leaf := enc (cpar c) (Leaf p (a ++ b) n) in
      if (p =? pid x) || bool_decide (MIN_KEYS ≤ length (a ++ b).*1)%nat then
        WriteNode leaf ;;
        when (bool_decide ((a ++ b).*1 ≠ [] ∧ length a = O)) (PropagateMinimumChange p) ;;
        mret true
      else LeafUnderflow leaf ;; mret true) t Q.
Proof.
  intros L Hx Ho HQ. destruct (located_delete _ _ _ _ _ _ _ _ L) as (Hs & Hm & Hl).
  rewrite (loc_tree _ _ _ _ _ _ _ L) in Ho |- *.
  destruct (leaf_entries _ _ _ _ _ _ _ _ Ho) as [Hks Hvs].
  rewrite fmap_app, fmap_cons, Forall_app, Forall_cons in Hks, Hvs. simpl fst in Hks. simpl snd in Hvs.
  assert (Forall (in_signed 64) (a ++ b).*1 ∧ Forall (in_signed 64) (a ++ b).*2) as [Hk2 Hv2].
  { rewrite !fmap_app, !Forall_app. tauto. }
  pose proof (loc_fits _ _ _ _ _ _ _ L) as Hfit. pose proof (length_fits _ _ _ _ _ Hfit) as Hlen.
  apply fits_iff in Hfit as [_ Hmin]. simpl count in Hmin.
  rewrite length_app in Hlen, Hmin. simpl in Hlen, Hmin.
  cbv zeta. rewrite length_fmap. unfold MIN_KEYS, MAX_KEYS. change (Nat.div 4 2) with 2%nat.
  match goal with |- wp (if ?d then _ else _) _ _ => destruct d eqn:Hd end.
  - eapply write_leaf_owns; [exact Ho|done|done|rewrite length_app; lia|]. intros t1 Ho1.
    eapply wp_mono; [eapply settle_leaf; [exact Ho1|apply L| |exact Hs|exact Hl|]|].
    + apply fits_iff. split; [split_and!; simpl; [done|rewrite length_app; lia|lia]|].
      intros Hne. destruct c as [|f c]; [done|]. pose proof (hole_not_root _ _ _ _ _ _ Ho) as Hroot.
      cbn [pid] in Hroot. rewrite (proj2 (Z.eqb_neq _ _) Hroot) in Hd. by apply bool_decide_eq_true in Hd.
    + intros [Hne _]%bool_decide_eq_true E. by rewrite E in Hne.
    + cbn beta. intros b0 t2 [-> Hh]. apply HQ. by rewrite <- Hm.
  - apply orb_false_iff in Hd as [Hroot Hsmall]. apply bool_decide_eq_false in Hsmall.
    destruct c as [|f c]; [by rewrite Z.eqb_refl in Hroot|]. specialize (Hmin ltac:(done)).
    pose proof (flat_plug (f :: c) (Leaf p (a ++ (key, v) :: b) n)) as Hpl.
    destruct (owns_tree _ _ _ _ _ _ _ _ Ho Hpl) as (Hok & _).
    apply leaf_ok in Hok as (? & ? & ? & _).
    rewrite length_app in Hsmall.
    apply wp_bind. eapply LeafUnderflow_owns with (kvs0 := a ++ (key, v) :: b);
      [apply L|rewrite length_app; lia| | | | |exact Ho].
    + apply leaf_ok. split_and!; try done. rewrite length_app. lia.
    + change (plug c (fill f (Leaf p (a ++ b) n))) with (plug (f :: c) (Leaf p (a ++ b) n)).
      by rewrite inorder_plug.
    + change (plug c (fill f (Leaf p (a ++ b) n))) with (plug (f :: c) (Leaf p (a ++ b) n)).
      by rewrite inorder_plug.
    + intros t' h' x' Ho' Hx' Hs' Hl' He'. apply wp_ret, HQ. eapply (holds_intro h' x'); [done|done|].
      rewrite <- Hm. symmetry. apply tree_map_entries. rewrite He'.
      change (plug c (fill f (Leaf p (a ++ b) n))) with (plug (f :: c) (Leaf p (a ++ b) n)).
      by rewrite inorder_plug.
Qed.

Lemma Delete_spec t r fr m key :
  holds t r fr m →
  wp (BPlusTree.Delete key) t (λ o t', o = bool_decide (is_Some (m !! key)) ∧
    holds t' r fr (delete key m)).
Proof.
  intros [[Ho ->]|(h & x & Ho & Hx & ->)]; unfold BPlusTree.Delete.
  { eapply wp_root; [exact Ho|]. rewrite Z.eqb_refl. apply wp_ret.
    rewrite bool_decide_eq_false_2 by (rewrite lookup_empty; by intros [? ?]).
    split; [done|]. rewrite delete_empty. by left. }
  eapply wp_root; [exact Ho|]. rewrite (owns_root _ _ _ _ _ Ho Hx).
  eapply locate_owns; [exact Ho|exact Hx|]. intros t1 c p a b n Ho1 L _. cbn [enc keys values].
  rewrite (loc_index _ _ _ _ _ _ _ L), (located_key _ _ _ _ _ _ _ L).
  case_bool_decide as Hfound; cbn [negb].
  - destruct b as [|[k' v] b]; [done|]. simpl in Hfound. injection Hfound as ->.
    rewrite !fmap_app, !fmap_cons. eapply wp_pure; [apply verase_app; by rewrite length_fmap|].
    eapply wp_pure; [apply verase_app; by rewrite length_fmap|].
    cbv zeta. cbn [fst snd].
    rewrite (located_lookup _ _ _ _ _ _ _ L), Z.eqb_refl, (bool_decide_eq_true_2 (is_Some (Some v))) by done.
    pose proof (enc_leaf_delete (cpar c) p a b n key v) as E.
    unfold enc in E at 1. rewrite !fmap_app, !fmap_cons in E. cbn [fst snd] in E. rewrite E.
    rewrite <- !fmap_app. eapply Delete_leaf; [exact L|exact Hx|exact Ho1|]. done.
  - destruct (located_absent _ _ _ _ _ _ _ L Hfound) as [_ Hnone]. apply wp_ret.
    rewrite Hnone, bool_decide_eq_false_2 by (by intros [? ?]). split; [done|].
    rewrite delete_id by done. by eapply holds_intro.
Qed.
End delete.
