(* ===== verification/BPlusTreeSpec.v ===== *)
(** * The B+ tree implements a finite map

    The correctness of the four public operations, and of every program made
    of them, down to the buffer pool and the file. *)

From S2P Require Export TreeUnderflow.
From S2P Require Import BufferPoolSpec.

Local Open Scope Z_scope.

(** ** The operations as one step, and what a map does *)

Inductive tree_op :=
  | OpInsert (k v : Z)
  | OpSearch (k : Z)
  | OpDelete (k : Z)
  | OpScan (lo hi : Z).

Inductive tree_result :=
  | RBool (b : bool)
  | RValue (o : option Z)
  | RList (l : list (Z * Z)).

Definition op_ok (o : tree_op) : Prop :=
  match o with OpInsert k v => in_signed 64 k ∧ in_signed 64 v | _ => True end.

(** The answer of a map to an operation, and the map after it. *)
Definition map_answer (o : tree_op) (m : gmap Z Z) (a : tree_result) : Prop :=
  match o with
  | OpInsert k v => a = RBool (bool_decide (m !! k = None))
  | OpSearch k => a = RValue (m !! k)
  | OpDelete k => a = RBool (bool_decide (is_Some (m !! k)))
  | OpScan lo hi => ∃ l, a = RList l ∧ StronglySorted Z.lt l.*1 ∧
      ∀ k v, (k, v) ∈ l ↔ m !! k = Some v ∧ lo ≤ k ∧ k ≤ hi
  end.

Definition map_after (o : tree_op) (m : gmap Z Z) : gmap Z Z :=
  match o with
  | OpInsert k v => if decide (m !! k = None) then <[k := v]> m else m
  | OpDelete k => delete k m
  | _ => m
  end.

Fixpoint map_answers (os : list tree_op) (m : gmap Z Z) (rs : list tree_result) : Prop :=
  match os, rs with
  | [], [] => True
  | o :: os, a :: rs => map_answer o m a ∧ map_answers os (map_after o m) rs
  | _, _ => False
  end.

Section spec.
Context {S : Type} `{PageStoreLaws S}.
Notation T := (BPlusTree S).

Definition run_op (o : tree_op) : M T tree_result :=
  match o with
  | OpInsert k v => b ← BPlusTree.Insert k v; mret (RBool b)
  | OpSearch k => r ← Search k; mret (RValue r)
  | OpDelete k => b ← BPlusTree.Delete k; mret (RBool b)
  | OpScan lo hi => l ← RangeScan lo hi []; mret (RList l)
  end.

Fixpoint run_ops (os : list tree_op) : M T (list tree_result) :=
  match os with
  | [] => mret []
  | o :: os => a ← run_op o; rs ← run_ops os; mret (a :: rs)
  end.

Lemma run_op_spec o t r fr m :
  holds t r fr m → op_ok o → 2 * Z.of_nat (size m) + 3 ≤ r →
  wp (run_op o) t (λ a t', map_answer o m a ∧ holds t' r fr (map_after o m)).
Proof.
  intros Ht Ho Hr. destruct o as [k v|k|k|lo hi]; simpl in *; apply wp_bind.
  - destruct Ho. eapply wp_mono; [by apply Insert_spec|]. cbn beta. intros b t' [-> Hh]. apply wp_ret.
    split; [done|]. destruct (decide (m !! k = None)) as [E|E].
    + by rewrite bool_decide_eq_true_2 in Hh.
    + by rewrite bool_decide_eq_false_2 in Hh.
  - eapply wp_mono; [by eapply Search_spec|]. cbn beta. by intros o t' [-> Hh].
  - eapply wp_mono; [by apply Delete_spec|]. cbn beta. by intros o t' [-> Hh].
  - eapply wp_mono; [by apply RangeScan_spec|]. cbn beta. intros l t' (Hh & l' & -> & Hl).
    split; [|done]. by exists l'.
Qed.

Lemma size_map_after o m : (size (map_after o m) ≤ size m + 1)%nat.
Proof.
  destruct o as [k v|k|k|lo hi]; simpl; try lia.
  - case_decide as E; [|lia]. rewrite map_size_insert_None by done. lia.
  - destruct (m !! k) as [v|] eqn:E.
    + rewrite map_size_delete_Some by done. lia.
    + rewrite map_size_delete_None by done. lia.
Qed.

Lemma run_ops_spec os t r fr m :
  holds t r fr m → Forall op_ok os → 2 * Z.of_nat (size m + length os) + 3 ≤ r →
  wp (run_ops os) t (λ rs t', map_answers os m rs ∧ ∃ m', holds t' r fr m').
Proof.
  intros Ht Hos. revert t m Ht. induction Hos as [|o os Ho Hos IH]; intros t m Ht Hr; simpl.
  - apply wp_ret. split; [done|]. by exists m.
  - simpl in Hr. apply wp_bind. eapply wp_mono; [apply (run_op_spec o t r fr m); [done|done|lia]|].
    cbn beta. intros a t1 [Ha Ht1]. apply wp_bind.
    pose proof (size_map_after o m).
    eapply wp_mono; [apply (IH t1 (map_after o m) Ht1); lia|].
    cbn beta. intros rs t2 [Hrs Ht2]. by apply wp_ret.
Qed.

Lemma owns_empty s :
  store_inv s → owns (mkTree INVALID_PAGE_ID s) INVALID_PAGE_ID (room s) [] (pages s).
Proof.
  intros Hs. split; simpl; try done.
  - lia.
  - constructor.
  - apply map_disjoint_empty_l.
  - unfold image. simpl. by rewrite map_empty_union.
Qed.

Lemma holds_empty s : store_inv s → holds (mkTree INVALID_PAGE_ID s) (room s) (pages s) ∅.
Proof. intros Hs. left. split; [by apply owns_empty|done]. Qed.

(** ** The operations *)

(** C24: [Search] on a tree that holds the map [m] gives the value of the key in
    [m], or nothing, and the tree still holds [m]; no page of another owner
    changes. *)
Theorem search_correct t r fr m key :
  holds t r fr m → ∃ t', Search key t = (Ret (m !! key), t') ∧ holds t' r fr m.
Proof.
  intros Ht. destruct (proj1 (wp_run _ _ _) (Search_spec t r fr m key Ht)) as (o & t' & Hrun & -> & Hh).
  by exists t'.
Qed.

(** C16: [Insert] of a new key adds it and returns true; of a present key it
    returns false and changes nothing.  The tree stays well formed (sorted,
    balanced, every node between half full and full, the leaf chain in order)
    also when leaves and internal nodes split up to a new root, as long as the
    disk has pages to give; no page of another owner changes. *)
Theorem insert_correct t r fr m k v :
  holds t r fr m → in_signed 64 k → in_signed 64 v → 2 * Z.of_nat (size m) + 3 ≤ r →
  ∃ t', BPlusTree.Insert k v t = (Ret (bool_decide (m !! k = None)), t') ∧
    holds t' r fr (if decide (m !! k = None) then <[k := v]> m else m).
Proof.
  intros Ht Hk Hv Hr.
  destruct (proj1 (wp_run _ _ _) (Insert_spec t r fr m k v Ht Hk Hv Hr)) as (b & t' & Hrun & -> & Hh).
  exists t'. split; [done|]. by destruct (decide (m !! k = None)); case_bool_decide.
Qed.

(** C15: [Delete] removes the key and tells whether it was there; the tree stays
    well formed through borrowing, merging, and the loss of a level, and every
    page it no longer uses is given back; no page of another owner changes. *)
Theorem delete_correct t r fr m key :
  holds t r fr m →
  ∃ t', BPlusTree.Delete key t = (Ret (bool_decide (is_Some (m !! key))), t') ∧
    holds t' r fr (delete key m).
Proof.
  intros Ht. destruct (proj1 (wp_run _ _ _) (Delete_spec t r fr m key Ht)) as (o & t' & Hrun & -> & Hh).
  by exists t'.
Qed.

(** C25: [RangeScan] appends, in increasing order of the keys, exactly the
    entries whose keys are in the range, both ends included. *)
Theorem range_scan_correct t r fr m lo hi out :
  holds t r fr m →
  ∃ t' l, RangeScan lo hi out t = (Ret (out ++ l), t') ∧ holds t' r fr m ∧
    StronglySorted Z.lt l.*1 ∧ ∀ k v, (k, v) ∈ l ↔ m !! k = Some v ∧ lo ≤ k ∧ k ≤ hi.
Proof.
  intros Ht. destruct (proj1 (wp_run _ _ _) (RangeScan_spec t r fr m lo hi out Ht))
    as (o & t' & Hrun & Hh & l & -> & Hl). by exists t', l.
Qed.
End spec.

(** ** A concrete stack: two frames over an empty file *)

Definition fresh_pool : BufferPoolManager :=
  mkPool (mkDisk (mkFile [] true true true) 0 [] 0) [Frame_new; Frame_new] ∅
    [1%nat; 0%nat] [] [None; None].

Lemma fresh_pool_quiescent : quiescent fresh_pool.
Proof.
  destruct (BufferPoolManager_new_inv 2 (mkDisk (mkFile [] true true true) 0 [] 0))
    as (s0 & Hnew & Hinv & _ & _ & Hpins & _).
  - by split_and!.
  - apply (bool_decide_unpack _). vm_compute. exact I.
  - injection Hnew as <-. by split_and!.
Qed.

Definition fresh_tree : BPlusTree BufferPoolManager := mkTree INVALID_PAGE_ID fresh_pool.

Lemma fresh_tree_holds : holds fresh_tree int32_max (pages fresh_pool) ∅.
Proof. exact (holds_empty fresh_pool fresh_pool_quiescent). Qed.

Lemma one_entry :
  ∃ t : BPlusTree BufferPoolManager, holds t int32_max (pages fresh_pool) {[5 := 50]}.
Proof.
  pose proof (owns_empty fresh_pool fresh_pool_quiescent) as Ho.
  assert (in_signed 64 5 ∧ in_signed 64 50) as [H1 H2]
    by (apply (bool_decide_unpack _); vm_compute; exact I).
  destruct (proj1 (wp_run _ _ _) (Insert_empty 5 50 fresh_tree _ _ Ho eq_refl H1 H2))
    as (b & t & _ & _ & Hh).
  by exists t.
Qed.

Lemma search_correct_witness :
  ∃ t t' : BPlusTree BufferPoolManager,
    Search 5 t = (Ret (({[5 := 50]} : gmap Z Z) !! 5), t') ∧
    holds t' int32_max (pages fresh_pool) {[5 := 50]}.
Proof.
  destruct one_entry as [t Ht]. exists t. by apply search_correct.
Defined.

Lemma insert_correct_witness :
  ∃ t', BPlusTree.Insert 5 50 fresh_tree = (Ret (bool_decide ((∅ : gmap Z Z) !! 5 = None)), t') ∧
    holds t' int32_max (pages fresh_pool)
      (if decide ((∅ : gmap Z Z) !! 5 = None) then <[5 := 50]> ∅ else ∅).
Proof.
  apply insert_correct.
  - apply fresh_tree_holds.
  - apply (bool_decide_unpack _). vm_compute. exact I.
  - apply (bool_decide_unpack _). vm_compute. exact I.
  - by vm_compute.
Defined.

Lemma delete_correct_witness :
  ∃ t t' : BPlusTree BufferPoolManager,
    BPlusTree.Delete 5 t = (Ret (bool_decide (is_Some (({[5 := 50]} : gmap Z Z) !! 5))), t') ∧
    holds t' int32_max (pages fresh_pool) (delete 5 {[5 := 50]}).
Proof.
  destruct one_entry as [t Ht]. exists t. by apply delete_correct.
Defined.

Lemma range_scan_correct_witness :
  ∃ (t t' : BPlusTree BufferPoolManager) l,
    RangeScan 0 9 [(1, 1)] t = (Ret ([(1, 1)] ++ l), t') ∧
    holds t' int32_max (pages fresh_pool) {[5 := 50]} ∧ StronglySorted Z.lt l.*1 ∧
    ∀ k v, (k, v) ∈ l ↔ ({[5 := 50]} : gmap Z Z) !! k = Some v ∧ 0 ≤ k ∧ k ≤ 9.
Proof.
  destruct one_entry as [t Ht]. exists t. by apply range_scan_correct.
Defined.

(** ** The whole storage stack *)

(** C14: a program of insertions, searches, deletions and scans, run on an empty
    tree over a buffer pool with at least one frame and no pinned page, over a
    working disk file, gives the answers of a finite map; every call returns. *)
Theorem storage_stack_correct (s : BufferPoolManager) (os : list tree_op) :
  quiescent s → Forall op_ok os →
  2 * Z.of_nat (length os) + 3 ≤ alloc_room (disk_manager_ s) →
  ∃ rs t', run_ops os (mkTree INVALID_PAGE_ID s) = (Ret rs, t') ∧ map_answers os ∅ rs ∧
    quiescent (buffer_pool_manager_ t').
Proof.
  intros Hs Hos Hr. pose proof (holds_empty s Hs) as Ht.
  destruct (proj1 (wp_run _ _ _) (run_ops_spec os _ (room s) (pages s) ∅ Ht Hos Hr))
    as (rs & t' & Hrun & Hrs & m' & Hh).
  exists rs, t'. split_and!; [done|done|..].
  all: destruct Hh as [[Ho _]|(h & x & Ho & _)]; apply (own_inv _ _ _ _ _ Ho).
Qed.

Lemma storage_stack_correct_witness :
  let os := [OpInsert 3 30; OpInsert 1 10; OpSearch 3; OpScan 0 5; OpDelete 3; OpSearch 3] in
  ∃ rs t', run_ops os (mkTree INVALID_PAGE_ID fresh_pool) = (Ret rs, t') ∧ map_answers os ∅ rs ∧
    quiescent (buffer_pool_manager_ t').
Proof.
  apply storage_stack_correct.
  - apply fresh_pool_quiescent.
  - repeat (apply Forall_cons; split); try done;
      (split; apply (bool_decide_unpack _); vm_compute; exact I).
  - by vm_compute.
Defined.
