(* ===== verification/WALManager.v ===== *)
(** * The write-ahead log (src/storage/wal_manager.{h,cpp})

    The log file with the part that has reached the disk and the part that is
    still in the stream buffer or the page cache, the next sequence number,
    and the operations.  A crash keeps the synced bytes and some prefix of
    the others. *)

From S2P Require Export LogRecord.
From stdpp Require Import sorting.

Local Open Scope Z_scope.

(** [wal_synced] is what an [fsync] has made durable, [wal_pending] what was
    written since.  [wal_stream_ok], [wal_read_ok] and [wal_sync_ok] say whether
    the stream, opening the file for reading, and [open]/[fsync] succeed. *)
Record WALManager := mkWal {
  wal_synced : bytes;
  wal_pending : bytes;
  wal_stream_ok : bool;
  wal_read_ok : bool;
  wal_sync_ok : bool;
  next_lsn_ : Z;
}.

Definition set_lsn (n : Z) (w : WALManager) : WALManager :=
  mkWal (wal_synced w) (wal_pending w) (wal_stream_ok w) (wal_read_ok w) (wal_sync_ok w) n.
Definition set_pending (bs : bytes) (w : WALManager) : WALManager :=
  mkWal (wal_synced w) bs (wal_stream_ok w) (wal_read_ok w) (wal_sync_ok w) (next_lsn_ w).
Definition set_synced (bs : bytes) (w : WALManager) : WALManager :=
  mkWal bs [] (wal_stream_ok w) (wal_read_ok w) (wal_sync_ok w) (next_lsn_ w).

(** The bytes a reader of the file sees once the stream is flushed. *)
Definition wal_file (w : WALManager) : bytes := wal_synced w ++ wal_pending w.

(** The loop of [ReadAllRecordsUnlocked] on the bytes from the read position
    on; it stops at the end of the file, at a short or empty frame, and at a
    record that does not parse.  Each round consumes at least five bytes. *)
Fixpoint ReadRecords (fuel : nat) (input : bytes) : outcome (list LogRecord) :=
  match fuel with
  | O => Diverge
  | S fuel =>
      if decide (length input < 4)%nat then Ret [] else
      let size := le_val (take 4 input) in
      let rest := drop 4 input in
      if size =? 0 then Ret [] else
      if decide (Z.of_nat (length rest) < size) then Ret [] else
      match DeserializeLogRecord (take (Z.to_nat size) rest) (Some LogRecord_zero) with
      | Ret (true, Some record) =>
          match ReadRecords fuel (drop (Z.to_nat size) rest) with
          | Ret records => Ret (record :: records)
          | o => o
          end
      | Ret _ => Ret []
      | Throw e => Throw e
      | Undef => Undef
      | Diverge => Diverge
      end
  end.

Definition ReadAllRecordsUnlocked : M WALManager (list LogRecord) :=
  ok ← gets wal_read_ok;
  if negb ok then throw (runtime_error "failed to read WAL file") else
  file ← gets wal_file;
  lift (ReadRecords (S (length file)) file).

Definition ReadAllRecords : M WALManager (list LogRecord) := ReadAllRecordsUnlocked.

(** What the constructor finds at its path: a file it can open, with its bytes;
    none, but it can create one, which it then can or cannot open; or nothing
    that can be opened or created. *)
Inductive wal_path :=
  | Existing (file : bytes)
  | Creatable (opens : bool)
  | Uncreatable.

(** The bytes of the file once it is open. *)
Definition OpenLog (path : wal_path) : outcome bytes :=
  match path with
  | Existing file => Ret file
  | Creatable true => Ret []
  | Creatable false => Throw (runtime_error "failed to open WAL file")
  | Uncreatable => Throw (runtime_error "failed to create WAL file")
  end.

Definition WALManager_new (path : wal_path) (stream_ok read_ok sync_ok : bool)
    : outcome WALManager :=
  match OpenLog path with
  | Throw e => Throw e
  | Undef => Undef
  | Diverge => Diverge
  | Ret bs =>
      let w := mkWal bs [] stream_ok read_ok sync_ok 0 in
      match ReadAllRecordsUnlocked w with
      | (Ret records, w) =>
          match last records with
          | None => Ret w
          | Some record =>
              match incr_signed 64 (lsn record) w with
              | (Ret n, w) => Ret (set_lsn n w)
              | (Throw e, _) => Throw e
              | (Undef, _) => Undef
              | (Diverge, _) => Diverge
              end
          end
      | (Throw e, _) => Throw e
      | (Undef, _) => Undef
      | (Diverge, _) => Diverge
      end
  end.

(** One [file_.write]; on a failed stream it does nothing. *)
Definition stream_write (bs : bytes) : M WALManager unit :=
  modify (λ w, if wal_stream_ok w then set_pending (wal_pending w ++ bs) w else w).

Definition Append (type : LogRecordType.t) (record_id : Z) (before_image after_image : bytes)
    : M WALManager Z :=
  l ← gets next_lsn_;
  n ← incr_signed 64 l;
  modify (set_lsn n) ;;
  bs ← lift (SerializeLogRecord (mkLogRecord l type record_id before_image after_image));
  stream_write (le_bytes 4 (to_unsigned 32 (Z.of_nat (length bs)))) ;;
  stream_write bs ;;
  ok ← gets wal_stream_ok;
  if negb ok then throw (runtime_error "failed to append WAL record") else mret l.

Definition AppendInsert (record_id : Z) (after_image : bytes) : M WALManager Z :=
  Append LogRecordType.INSERT record_id [] after_image.
Definition AppendUpdate (record_id : Z) (before_image after_image : bytes) : M WALManager Z :=
  Append LogRecordType.UPDATE record_id before_image after_image.
Definition AppendDelete (record_id : Z) (before_image : bytes) : M WALManager Z :=
  Append LogRecordType.DELETE record_id before_image [].
Definition AppendCommit : M WALManager unit :=
  Append LogRecordType.COMMIT (-1) [] [] ;; mret tt.

Definition Flush : M WALManager unit :=
  ok ← gets wal_stream_ok;
  if negb ok then throw (runtime_error "failed to flush WAL file") else
  sync ← gets wal_sync_ok;
  if negb sync then throw (runtime_error "failed to fsync WAL file") else
  modify (λ w, set_synced (wal_file w) w).

(** What a crash may leave of the file, [n] being the pending bytes that made it
    to the disk. *)
Definition crash_file (n : nat) (w : WALManager) : bytes := wal_synced w ++ take n (wal_pending w).

(** ** Frames *)

Definition frame_bytes (r : LogRecord) : bytes :=
  le_bytes 4 (Z.of_nat (length (log_record_bytes r))) ++ log_record_bytes r.
Definition log_bytes (rs : list LogRecord) : bytes := mjoin (frame_bytes <$> rs).

(** A record whose frame size fits its 32-bit field. *)
Definition loggable (r : LogRecord) : Prop :=
  log_record_wf r ∧ Z.of_nat (length (log_record_bytes r)) < 2 ^ 32.

#[export] Instance loggable_dec r : Decision (loggable r).
Proof. unfold loggable. apply _. Defined.

Lemma log_bytes_cons r rs : log_bytes (r :: rs) = frame_bytes r ++ log_bytes rs.
Proof. done. Qed.

Lemma log_bytes_app rs1 rs2 : log_bytes (rs1 ++ rs2) = log_bytes rs1 ++ log_bytes rs2.
Proof.
  induction rs1 as [|r rs1 IH]; [done|]. cbn [app]. by rewrite !log_bytes_cons, IH, app_assoc.
Qed.

Lemma length_frame_bytes r :
  length (frame_bytes r) = (29 + length (before_image r) + length (after_image r))%nat.
Proof. unfold frame_bytes. rewrite length_app, length_le_bytes, length_log_record_bytes. lia. Qed.

Lemma length_log_bytes rs : (length rs ≤ length (log_bytes rs))%nat.
Proof.
  induction rs as [|r rs IH]; [done|].
  rewrite log_bytes_cons, length_app, length_frame_bytes. simpl. lia.
Qed.

(** The bytes left by a frame that was cut short. *)
Definition torn (tail : bytes) : Prop :=
  tail = [] ∨ ∃ r, loggable r ∧ tail `prefix_of` frame_bytes r ∧ tail ≠ frame_bytes r.

Lemma ReadRecords_torn tail fuel : torn tail → ReadRecords (S fuel) tail = Ret [].
Proof.
  intros [->|(r & [Hr Hsz] & [rest Hpre] & Hne)]; [done|]. simpl.
  destruct (decide (length tail < 4)%nat) as [|Hlong]; [done|].
  assert (take 4 tail = le_bytes 4 (Z.of_nat (length (log_record_bytes r)))) as Ht.
  { transitivity (take 4 (frame_bytes r)).
    - rewrite Hpre, take_app_le by lia. done.
    - unfold frame_bytes. by rewrite take_app_length' by by rewrite length_le_bytes. }
  rewrite Ht, le_val_small by (rewrite length_log_record_bytes in *; lia).
  rewrite (proj2 (Z.eqb_neq _ _)) by (rewrite length_log_record_bytes; lia).
  rewrite decide_True; [done|].
  assert (length rest ≠ 0%nat) as Hrest.
  { intros ->%nil_length_inv. rewrite app_nil_r in Hpre. congruence. }
  apply (f_equal length) in Hpre. unfold frame_bytes in Hpre.
  rewrite !length_app, length_le_bytes in Hpre. rewrite length_drop. lia.
Qed.

(** Reading a log gives its records and stops at a torn tail. *)
Lemma ReadRecords_log rs tail fuel :
  Forall loggable rs → torn tail → (length (log_bytes rs) < fuel)%nat →
  ReadRecords fuel (log_bytes rs ++ tail) = Ret rs.
Proof.
  intros Hrs Ht. revert fuel. induction Hrs as [|r rs [Hr Hsz] Hrs IH]; intros fuel Hf.
  - destruct fuel; [simpl in Hf; lia|]. by apply ReadRecords_torn.
  - destruct fuel as [|fuel]; [lia|]. rewrite log_bytes_cons in Hf |- *. unfold frame_bytes in *.
    rewrite <- !app_assoc. cbn [ReadRecords].
    rewrite decide_False by (rewrite length_app, length_le_bytes; lia).
    rewrite take_app_length', drop_app_length' by by rewrite length_le_bytes.
    rewrite le_val_small by (rewrite length_log_record_bytes in *; lia).
    rewrite (proj2 (Z.eqb_neq _ _)) by (rewrite length_log_record_bytes; lia).
    rewrite decide_False by (rewrite !length_app; lia).
    rewrite Nat2Z.id, take_app_length, drop_app_length.
    rewrite DeserializeLogRecord_bytes by done. rewrite IH; [done|].
    rewrite !length_app, length_le_bytes in Hf. lia.
Qed.

(** ** The log as a list of records *)

(** The object [w] holds the records [synced] on disk and [pending] behind
    them; the numbers increase and the next one is above them all. *)
Record wal_log (w : WALManager) (synced pending : list LogRecord) : Prop := {
  wl_synced : wal_synced w = log_bytes synced;
  wl_pending : wal_pending w = log_bytes pending;
  wl_ok : Forall loggable (synced ++ pending);
  wl_stream : wal_stream_ok w = true;
  wl_read : wal_read_ok w = true;
  wl_sync : wal_sync_ok w = true;
  wl_lsn : 0 ≤ next_lsn_ w < 2 ^ 63;
  wl_lsns : StronglySorted Z.lt (lsn <$> synced ++ pending);
  wl_below : Forall (λ r, 0 ≤ lsn r < next_lsn_ w) (synced ++ pending);
}.

Lemma ReadAllRecords_spec w s p :
  wal_log w s p → ReadAllRecords w = (Ret (s ++ p), w).
Proof.
  intros [E1 E2 Hok _ Hr _ _ _ _]. unfold ReadAllRecords, ReadAllRecordsUnlocked.
  unfold mbind, M_bind, gets. rewrite Hr. cbn [negb]. unfold lift, wal_file.
  rewrite E1, E2, <- log_bytes_app, <- (app_nil_r (log_bytes _)).
  rewrite ReadRecords_log; [done|done|by left|rewrite app_nil_r; lia].
Qed.

Lemma Flush_spec w s p :
  wal_log w s p → ∃ w', Flush w = (Ret tt, w') ∧ wal_log w' (s ++ p) [] ∧ next_lsn_ w' = next_lsn_ w.
Proof.
  intros [E1 E2 Hok Hst Hr Hsy Hn Hl Hb]. eexists. split.
  - unfold Flush, mbind, M_bind, gets. rewrite Hst. cbn [negb]. rewrite Hsy. done.
  - split; [|done]. split; simpl; rewrite ?app_nil_r; try done.
    unfold wal_file. by rewrite E1, E2, log_bytes_app.
Qed.

Lemma Append_spec w s p ty id b a :
  wal_log w s p → next_lsn_ w < 2 ^ 63 - 1 →
  let r := mkLogRecord (next_lsn_ w) ty id b a in
  loggable r →
  ∃ w', Append ty id b a w = (Ret (next_lsn_ w), w') ∧ wal_log w' s (p ++ [r]) ∧
    next_lsn_ w' = next_lsn_ w + 1.
Proof.
  intros [E1 E2 Hok Hst Hr Hsy Hn Hl Hb] Hlim r [Hwf Hsz].
  assert (SerializeLogRecord r = Ret (log_record_bytes r)) as Hser
    by (apply SerializeLogRecord_bytes; apply Hwf).
  set (size := le_bytes 4 (to_unsigned 32 (Z.of_nat (length (log_record_bytes r))))).
  exists (mkWal (wal_synced w) ((wal_pending w ++ size) ++ log_record_bytes r) true
            (wal_read_ok w) (wal_sync_ok w) (next_lsn_ w + 1)).
  split; [|split].
  - unfold Append. unfold mbind at 1, M_bind at 1, gets at 1.
    erewrite bind_ret by (unfold incr_signed; rewrite (proj2 (Z.eqb_neq _ _)) by lia; done).
    unfold mbind at 1, M_bind at 1, modify at 1.
    erewrite bind_ret by (unfold lift; fold r; by rewrite Hser).
    clear -Hst. unfold stream_write, mbind, M_bind, modify, gets.
    destruct w. cbn [wal_stream_ok] in Hst. subst. done.
  - split; simpl; try done.
    + rewrite E2, log_bytes_app, log_bytes_cons. unfold frame_bytes, size.
      rewrite to_unsigned_small by (unfold in_unsigned; lia). rewrite <- !app_assoc. f_equal.
      simpl. by rewrite app_nil_r.
    + rewrite app_assoc. apply Forall_app. split; [done|]. by apply Forall_singleton.
    + lia.
    + rewrite app_assoc, fmap_app. apply StronglySorted_app. split_and!; [|done|repeat constructor].
      intros x y (z & -> & Hz)%list_elem_of_fmap Hy. simpl in Hy. apply list_elem_of_singleton in Hy as ->.
      eapply Forall_forall in Hb; [|exact Hz]. simpl in Hb. lia.
    + rewrite app_assoc. apply Forall_app. split.
      * eapply Forall_impl; [exact Hb|]. simpl. lia.
      * apply Forall_cons. split; [simpl; lia|done].
  - done.
Qed.

Lemma frame_prefix_torn r n : loggable r → torn (take n (frame_bytes r)) ∨ take n (frame_bytes r) = frame_bytes r.
Proof.
  intros Hr. destruct (decide (take n (frame_bytes r) = frame_bytes r)) as [E|E]; [by right|left; right].
  exists r. split_and!; [done|apply prefix_take|done].
Qed.

(** A prefix of a log is a log followed by a torn frame. *)
Lemma log_prefix rs n :
  Forall loggable rs → ∃ k tail, take n (log_bytes rs) = log_bytes (take k rs) ++ tail ∧ torn tail.
Proof.
  intros Hrs. revert n. induction Hrs as [|r rs Hr Hrs IH]; intros n.
  - exists 0%nat, []. change (log_bytes []) with (@nil byte). rewrite take_nil. split; [done|by left].
  - rewrite log_bytes_cons. destruct (decide (length (frame_bytes r) ≤ n)%nat) as [Hn|Hn].
    + destruct (IH (n - length (frame_bytes r))%nat) as (k & tail & E & Ht).
      exists (S k), tail. split; [|done]. change (take (S k) (r :: rs)) with (r :: take k rs). rewrite log_bytes_cons, <- app_assoc, <- E.
      rewrite take_app, take_ge by lia. done.
    + exists 0%nat, (take n (frame_bytes r)). rewrite take_app_le by lia. split; [done|].
      destruct (frame_prefix_torn r n Hr) as [?|E]; [done|].
      apply (f_equal length) in E. rewrite length_take in E. lia.
Qed.

(** ** Runs of the log *)

Inductive wal_op :=
  | OpAppend (type : LogRecordType.t) (id : Z) (before after : bytes)
  | OpFlush.

Definition run_wal_op (op : wal_op) : M WALManager unit :=
  match op with
  | OpAppend ty id b a => Append ty id b a ;; mret tt
  | OpFlush => Flush
  end.

Definition run_wal (ops : list wal_op) : M WALManager unit := for_each ops run_wal_op.

(** The records that [ops] append, numbered from [n]. *)
Fixpoint appended (n : Z) (ops : list wal_op) : list LogRecord :=
  match ops with
  | [] => []
  | OpAppend ty id b a :: ops => mkLogRecord n ty id b a :: appended (n + 1) ops
  | OpFlush :: ops => appended n ops
  end.

(** How many of them the last flush covers. *)
Fixpoint flushed (pending : nat) (ops : list wal_op) : nat :=
  match ops with
  | [] => 0
  | OpAppend _ _ _ _ :: ops => flushed (S pending) ops
  | OpFlush :: ops => pending + flushed 0 ops
  end.

Lemma appended_lsn ops n i r : appended n ops !! i = Some r → lsn r = n + Z.of_nat i.
Proof.
  revert n i. induction ops as [|[ty id b a|] ops IH]; intros n i; simpl; [done| |by apply IH].
  destruct i as [|i]; simpl; [intros [= <-]; simpl; lia|]. intros ->%IH. lia.
Qed.

Lemma length_appended ops n : (length (appended n ops) ≤ length ops)%nat.
Proof. revert n. induction ops as [|[] ops IH]; intros n; simpl; [lia|specialize (IH (n + 1))|specialize (IH n)]; lia. Qed.

Lemma run_wal_spec ops : ∀ w s p,
  wal_log w s p → next_lsn_ w + Z.of_nat (length ops) < 2 ^ 63 →
  Forall loggable (appended (next_lsn_ w) ops) →
  ∃ w' s' p', run_wal ops w = (Ret tt, w') ∧ wal_log w' s' p' ∧
    s' ++ p' = s ++ p ++ appended (next_lsn_ w) ops ∧
    length s' = (length s + flushed (length p) ops)%nat.
Proof.
  unfold run_wal. induction ops as [|[ty id b a|] ops IH]; intros w s p Hw Hlim Hok.
  - exists w, s, p. rewrite app_nil_r, Nat.add_0_r. done.
  - simpl in Hok. apply Forall_cons in Hok as [Hr Hok]. cbn [length] in Hlim.
    destruct (Append_spec w s p ty id b a Hw ltac:(lia) Hr) as (w1 & E1 & Hw1 & En).
    destruct (IH w1 s _ Hw1 ltac:(lia)) as (w' & s' & p' & E & Hw' & Hlog & Hlen); [by rewrite En|].
    exists w', s', p'. split_and!; [|done| |].
    + cbn [for_each run_wal_op]. rewrite bind_assoc. rewrite (bind_ret _ _ _ _ _ E1). done.
    + rewrite Hlog, En. simpl. by rewrite <- !app_assoc.
    + rewrite Hlen, length_app. simpl. by rewrite Nat.add_1_r.
  - destruct (Flush_spec w s p Hw) as (w1 & E1 & Hw1 & En). cbn [length] in Hlim.
    destruct (IH w1 _ _ Hw1 ltac:(lia)) as (w' & s' & p' & E & Hw' & Hlog & Hlen); [by rewrite En|].
    exists w', s', p'. split_and!; [|done| |].
    + cbn [for_each run_wal_op]. rewrite (bind_ret _ _ _ _ _ E1). done.
    + rewrite Hlog, En. simpl. by rewrite <- !app_assoc.
    + rewrite Hlen, length_app. simpl. lia.
Qed.

Definition fresh_wal : WALManager := mkWal [] [] true true true 0.

Lemma fresh_wal_log : wal_log fresh_wal [] [].
Proof. split; simpl; try done; try constructor. Qed.

(** Opening a file that holds a log and a torn frame. *)
Lemma WALManager_new_spec rs tail :
  Forall loggable rs → torn tail → (∀ r, last rs = Some r → lsn r < 2 ^ 63 - 1) →
  let n := match last rs with Some r => lsn r + 1 | None => 0 end in
  WALManager_new (Existing (log_bytes rs ++ tail)) true true true =
    Ret (mkWal (log_bytes rs ++ tail) [] true true true n).
Proof.
  intros Hrs Ht Hlast n. unfold WALManager_new, OpenLog, ReadAllRecordsUnlocked, mbind, M_bind, gets, lift.
  cbn [wal_read_ok negb]. unfold wal_file. cbn [wal_synced wal_pending]. rewrite app_nil_r.
  rewrite ReadRecords_log; [|done..|len]. subst n.
  destruct (last rs) as [r|]; [|done]. specialize (Hlast r eq_refl).
  unfold incr_signed. rewrite (proj2 (Z.eqb_neq _ _)) by lia. done.
Qed.

Lemma ReadAllRecords_torn rs tail n :
  Forall loggable rs → torn tail →
  let w := mkWal (log_bytes rs ++ tail) [] true true true n in
  ReadAllRecords w = (Ret rs, w).
Proof.
  intros Hrs Ht. unfold ReadAllRecords, ReadAllRecordsUnlocked, mbind, M_bind, gets, lift, wal_file.
  cbn [wal_read_ok negb wal_synced wal_pending]. rewrite app_nil_r.
  rewrite ReadRecords_log; [done..|]. len.
Qed.

(** Opening what a crash left: all the synced records and a prefix of the
    pending ones. *)
Lemma crash_recover w s p n :
  wal_log w s p → next_lsn_ w < 2 ^ 63 →
  ∃ k w', WALManager_new (Existing (crash_file n w)) true true true = Ret w' ∧
    ReadAllRecords w' = (Ret (s ++ take k p), w') ∧
    next_lsn_ w' = match last (s ++ take k p) with Some r => lsn r + 1 | None => 0 end.
Proof.
  intros [E1 E2 Hall _ _ _ _ _ Hbelow] Hlim.
  apply Forall_app in Hall as [Hs Hp]. apply Forall_app in Hbelow as [Hbs Hbp].
  destruct (log_prefix p n Hp) as (k & tail & Ep & Ht).
  assert (crash_file n w = log_bytes (s ++ take k p) ++ tail) as ->.
  { unfold crash_file. by rewrite E1, E2, Ep, log_bytes_app, app_assoc. }
  assert (Forall loggable (s ++ take k p)) as Hok by (apply Forall_app; split; [done|by apply Forall_take]).
  assert (Forall (λ r, 0 ≤ lsn r < next_lsn_ w) (s ++ take k p)) as Hb
    by (apply Forall_app; split; [done|by apply Forall_take]).
  eexists k, _. split; [apply WALManager_new_spec; [done|done|]|].
  - intros r Hr%last_Some_elem_of. eapply Forall_forall in Hb; [|exact Hr]. simpl in Hb. lia.
  - split; [by apply ReadAllRecords_torn|done].
Qed.

(** C17: write-ahead log and crash recovery.  For every sequence of appends and
    flushes on a new log whose records fit the frame format, all calls succeed;
    reading back gives exactly the appended records in order, numbered
    consecutively from 0; and whatever part of the unflushed bytes a crash
    leaves on the disk, reopening the file succeeds, [ReadAllRecords] gives a
    prefix of these records that contains all those of the last flush, and
    numbering continues after that prefix. *)
Theorem wal_crash_recovery ops :
  Forall loggable (appended 0 ops) → Z.of_nat (length ops) < 2 ^ 63 →
  ∃ w, run_wal ops fresh_wal = (Ret tt, w) ∧
    ReadAllRecords w = (Ret (appended 0 ops), w) ∧
    ∀ n, ∃ k w', (flushed 0 ops ≤ k ≤ length (appended 0 ops))%nat ∧
      WALManager_new (Existing (crash_file n w)) true true true = Ret w' ∧
      ReadAllRecords w' = (Ret (take k (appended 0 ops)), w') ∧
      next_lsn_ w' = Z.of_nat k.
Proof.
  intros Hok Hlim.
  destruct (run_wal_spec ops fresh_wal [] [] fresh_wal_log Hlim Hok) as (w & s & p & E & Hw & Hlog & Hlen).
  simpl in Hlog, Hlen. exists w. split; [done|]. rewrite <- Hlog. split; [by apply ReadAllRecords_spec|].
  intros n. destruct (crash_recover w s p n Hw) as (k & w' & Enew & Eread & Enext); [apply Hw|].
  set (rs := s ++ take k p) in *.
  assert (rs = take (length rs) (s ++ p)) as Hrs.
  { unfold rs. rewrite length_app, take_app_add, length_take. f_equal.
    destruct (decide (k ≤ length p)%nat); [by rewrite Nat.min_l by lia|].
    rewrite Nat.min_r by lia. by rewrite !take_ge by lia. }
  assert (length rs ≤ length (s ++ p))%nat as Hle by (unfold rs; rewrite !length_app, length_take; lia).
  exists (length rs), w'. rewrite <- Hrs. split_and!; [unfold rs; len|done|done|done|].
  rewrite Enext. destruct (last rs) as [r|] eqn:Er; [|apply last_None in Er; by rewrite Er].
  rewrite last_lookup in Er. assert (pred (length rs) < length rs)%nat by eauto using lookup_lt_Some.
  assert ((s ++ p) !! pred (length rs) = Some r) as Hr
    by (rewrite <- (lookup_take_lt _ (length rs)) by lia; by rewrite <- Hrs).
  rewrite Hlog in Hr. apply appended_lsn in Hr. lia.
Qed.

Definition sample_wal_ops : list wal_op :=
  [OpAppend LogRecordType.INSERT 7 [] [x41; x42]; OpFlush;
   OpAppend LogRecordType.DELETE 7 [x41; x42] []].

Lemma wal_crash_recovery_witness :
  ∃ w, run_wal sample_wal_ops fresh_wal = (Ret tt, w) ∧
    ReadAllRecords w = (Ret (appended 0 sample_wal_ops), w) ∧
    ∀ n, ∃ k w', (flushed 0 sample_wal_ops ≤ k ≤ length (appended 0 sample_wal_ops))%nat ∧
      WALManager_new (Existing (crash_file n w)) true true true = Ret w' ∧
      ReadAllRecords w' = (Ret (take k (appended 0 sample_wal_ops)), w') ∧
      next_lsn_ w' = Z.of_nat k.
Proof.
  apply (wal_crash_recovery sample_wal_ops).
  - apply (bool_decide_unpack _). vm_compute. exact I.
  - apply (bool_decide_unpack _). vm_compute. exact I.
Defined.

(** Reopening the file a crash left, appending [r] and flushing. *)
Definition reopen_append (file : bytes) (r : LogRecord) : option (outcome (list LogRecord)) :=
  match WALManager_new (Existing file) true true true with
  | Ret w => Some (fst ((Append (log_type r) (record_id r) (before_image r) (after_image r) ;;
                         Flush ;; ReadAllRecords) w))
  | _ => None
  end.

(** A torn frame is not cut off when the log is reopened.  After one flushed
    insert and a crash that leaves 10 bytes of the next frame, a record that is
    appended and flushed without an error is not among the records a later
    recovery reads. *)
Theorem wal_append_after_torn_tail_lost :
  let w := snd (run_wal sample_wal_ops fresh_wal) in
  fst (run_wal sample_wal_ops fresh_wal) = Ret tt ∧
  reopen_append (crash_file 10 w) (mkLogRecord 0 LogRecordType.INSERT 9 [] [x43]) =
    Some (Ret (take 1 (appended 0 sample_wal_ops))).
Proof. split; vm_compute; reflexivity. Qed.
