(* ===== verification/TableIndex.v ===== *)
(** * The index interface

    What a table needs from its index: the map operations of the tree, and the
    buffer pool behind [GetBufferPoolManager] for the pages that hold records.
    [Index] names the operations, [IndexLaws] what they promise in terms of
    the map the index holds and the pages of other owners.  The B+ tree on any
    lawful page store implements them. *)

From S2P Require Export TreeUnderflow.

Local Open Scope Z_scope.

Class Index (T : Type) := {
  idx_Search : Z → M T (option Z);
  idx_Insert : Z → Z → M T bool;
  idx_Delete : Z → M T bool;
  idx_RangeScan : Z → Z → list (Z * Z) → M T (list (Z * Z));
  idx_with_page {A : Type} : Z → bool → M bytes A → M T (option A);
  idx_new_page {A : Type} : (Z → M bytes A) → M T (option (Z * A));
  idx_delete_page : Z → M T bool;
}.

(** [index_holds t r fr m]: the index holds the map [m], the other pages of the
    pool are [fr], and [r] pages are used by the index or still to be had. *)
Class IndexLaws (T : Type) `{Index T} := {
  index_holds : T → Z → gmap Z bytes → gmap Z Z → Prop;
  index_page_size t r fr m p d :
    index_holds t r fr m → fr !! p = Some d → length d = PAGE_SIZE ∧ 0 ≤ p < int32_max;
  idx_Search_law t r fr m k :
    index_holds t r fr m → wp (idx_Search k) t (λ o t', o = m !! k ∧ index_holds t' r fr m);
  idx_Insert_law t r fr m k v :
    index_holds t r fr m → in_signed 64 k → in_signed 64 v → 2 * Z.of_nat (size m) + 3 ≤ r →
    wp (idx_Insert k v) t (λ b t', b = bool_decide (m !! k = None) ∧
      index_holds t' r fr (if b then <[k := v]> m else m));
  idx_Delete_law t r fr m k :
    index_holds t r fr m →
    wp (idx_Delete k) t (λ b t', b = bool_decide (is_Some (m !! k)) ∧ index_holds t' r fr (delete k m));
  idx_RangeScan_law t r fr m lo hi out :
    index_holds t r fr m →
    wp (idx_RangeScan lo hi out) t (λ o t', index_holds t' r fr m ∧ ∃ l, o = out ++ l ∧
      StronglySorted Z.lt l.*1 ∧ ∀ k v, (k, v) ∈ l ↔ m !! k = Some v ∧ lo ≤ k ∧ k ≤ hi);
  idx_with_page_law {A} t r fr m p dirty (body : M bytes A) d a d' :
    index_holds t r fr m → fr !! p = Some d → body d = (Ret a, d') →
    length d' = PAGE_SIZE → (dirty = true ∨ d' = d) →
    wp (idx_with_page p dirty body) t (λ o t', o = Some a ∧ index_holds t' r (<[p := d']> fr) m);
  idx_new_page_law {A} t r fr m (body : Z → M bytes A) (a : Z → A) (d' : Z → bytes) :
    index_holds t r fr m → 2 * Z.of_nat (size m) + 3 ≤ r →
    (∀ p, 0 ≤ p < int32_max →
       body p zero_page = (Ret (a p), d' p) ∧ length (d' p) = PAGE_SIZE) →
    wp (idx_new_page body) t (λ o t', ∃ p, o = Some (p, a p) ∧ 0 ≤ p < int32_max ∧ fr !! p = None ∧
      index_holds t' (r - 1) (<[p := d' p]> fr) m);
  idx_delete_page_law t r fr m p d :
    index_holds t r fr m → fr !! p = Some d →
    wp (idx_delete_page p) t (λ b t', b = true ∧ index_holds t' (r + 1) (delete p fr) m);
}.

(** ** The B+ tree *)

Section tree_index.
Context {S : Type} `{PageStoreLaws S}.
Notation T := (BPlusTree S).
Implicit Types (t : T) (m : gmap Z Z) (fr : gmap Z bytes).

#[export] Instance tree_index : Index T := {|
  idx_Search := Search;
  idx_Insert := BPlusTree.Insert;
  idx_Delete := BPlusTree.Delete;
  idx_RangeScan := RangeScan;
  idx_with_page A p dirty body := on_pool (with_page p dirty body);
  idx_new_page A body := on_pool (with_new_page body);
  idx_delete_page p := on_pool (delete_page p);
|}.

Lemma owns_outside t root r l fr p d :
  owns t root r l fr → fr !! p = Some d →
  image l !! p = None ∧ pages (buffer_pool_manager_ t) !! p = Some d.
Proof.
  intros [I R M N O D P] Hp. split.
  - by eapply map_disjoint_Some_r.
  - rewrite P. by apply lookup_union_Some_r.
Qed.

Lemma with_page_owns {A} t root r l fr p dirty (body : M bytes A) d a d' :
  owns t root r l fr → fr !! p = Some d → body d = (Ret a, d') →
  length d' = PAGE_SIZE → (dirty = true ∨ d' = d) →
  ∃ s', on_pool (with_page p dirty body) t = (Ret (Some a), set_pool s' t) ∧
    owns (set_pool s' t) root r l (<[p := d']> fr).
Proof.
  intros Ho Hp Hb Hlen Hd. destruct (owns_outside _ _ _ _ _ _ _ Ho Hp) as [Hout Hpg].
  destruct (with_page_law _ p dirty body d a d' (own_inv _ _ _ _ _ Ho) Hpg Hb Hlen Hd)
    as (s' & Hrun & I' & P' & R').
  exists s'. split; [unfold on_pool, zoom; by rewrite Hrun|].
  destruct Ho as [I R M N O D P]. split; simpl; try done.
  - by rewrite R'.
  - by apply map_disjoint_insert_r_2.
  - rewrite P', P. by rewrite insert_union_r.
Qed.

Lemma with_new_page_owns {A} t root r l fr (body : Z → M bytes A) (a : Z → A) (d' : Z → bytes) :
  owns t root r l fr → Z.of_nat (length l) < r →
  (∀ p, 0 ≤ p < int32_max →
     body p zero_page = (Ret (a p), d' p) ∧ length (d' p) = PAGE_SIZE) →
  ∃ p s', on_pool (with_new_page body) t = (Ret (Some (p, a p)), set_pool s' t) ∧
    0 ≤ p < int32_max ∧ fr !! p = None ∧
    owns (set_pool s' t) root (r - 1) l (<[p := d' p]> fr).
Proof.
  intros Ho Hr Hb.
  destruct (with_new_page_law (buffer_pool_manager_ t) body a d' (own_inv _ _ _ _ _ Ho))
    as (p & s' & Hrun & I' & Hp & Hnone & P' & R'); [|done|].
  { pose proof (own_room _ _ _ _ _ Ho). lia. }
  exists p, s'. destruct Ho as [I R M N O D P].
  rewrite P in Hnone. apply lookup_union_None in Hnone as [Hl Hfr].
  split; [unfold on_pool, zoom; by rewrite Hrun|]. do 2 (split; [done|]). split; simpl; try done.
  - rewrite R'. lia.
  - by apply map_disjoint_insert_r_2.
  - rewrite P', P. by rewrite insert_union_r.
Qed.

Lemma delete_page_owns t root r l fr p d :
  owns t root r l fr → fr !! p = Some d →
  ∃ s', on_pool (delete_page p) t = (Ret true, set_pool s' t) ∧
    owns (set_pool s' t) root (r + 1) l (delete p fr).
Proof.
  intros Ho Hp. destruct (owns_outside _ _ _ _ _ _ _ Ho Hp) as [Hout Hpg].
  destruct (delete_page_law _ p d (own_inv _ _ _ _ _ Ho) Hpg) as (s' & Hrun & I' & P' & R').
  exists s'. split; [unfold on_pool, zoom; by rewrite Hrun|].
  destruct Ho as [I R M N O D P]. split; simpl; try done.
  - rewrite R'. lia.
  - by apply map_disjoint_delete_r.
  - rewrite P', P, delete_union. by rewrite (delete_id (image l)).
Qed.

(** A tree that holds [m] has room for one more page than a split needs. *)
Lemma holds_room t r fr m :
  holds t r fr m → 2 * Z.of_nat (size m) + 3 ≤ r →
  ∃ root l, owns t root r l fr ∧ Z.of_nat (length l) < r ∧
    ∀ t' r' fr', owns t' root r' l fr' → holds t' r' fr' m.
Proof.
  intros [[Ho ->]|(h & x & Ho & Hx & ->)] Hr.
  - exists INVALID_PAGE_ID, []. split_and!; [done|simpl; lia|]. intros. by left.
  - exists (pid x), (flat INVALID_PAGE_ID x). split_and!; [done| |].
    + pose proof (root_size h INVALID_PAGE_ID x (tree_shape _ _ Hx)).
      rewrite size_tree_map in Hr by apply Hx. lia.
    + intros. by eapply holds_intro.
Qed.

Lemma holds_owns t r fr m :
  holds t r fr m →
  ∃ root l, owns t root r l fr ∧ ∀ t' r' fr', owns t' root r' l fr' → holds t' r' fr' m.
Proof.
  intros [[Ho ->]|(h & x & Ho & Hx & ->)].
  - eexists _, _. split; [done|]. intros. by left.
  - eexists _, _. split; [done|]. intros. by eapply holds_intro.
Qed.

#[export] Program Instance tree_index_laws : IndexLaws T := {| index_holds := holds |}.
Next Obligation.
  intros t r fr m p d (root & l & Ho & _)%holds_owns Hp.
  destruct (owns_outside _ _ _ _ _ _ _ Ho Hp) as [_ Hpg]. pose proof (own_inv _ _ _ _ _ Ho) as I.
  split; [by eapply pages_size|]. by destruct (pages_range _ _ _ I Hpg).
Qed.
Next Obligation. intros. by apply Search_spec. Qed.
Next Obligation. intros. by apply Insert_spec. Qed.
Next Obligation. intros. by apply Delete_spec. Qed.
Next Obligation. intros. by apply RangeScan_spec. Qed.
Next Obligation.
  intros A t r fr m p dirty body d a d' (root & l & Ho & Hk)%holds_owns Hp Hb Hlen Hd.
  destruct (with_page_owns _ _ _ _ _ _ _ _ _ _ _ Ho Hp Hb Hlen Hd) as (s' & Hrun & Ho').
  eapply wp_eq; [exact Hrun|]. split; [done|]. by apply Hk.
Qed.
Next Obligation.
  intros A t r fr m body a d' Hh Hr Hb. destruct (holds_room _ _ _ _ Hh Hr) as (root & l & Ho & Hl & Hk).
  destruct (with_new_page_owns _ _ _ _ _ _ _ _ Ho Hl Hb) as (p & s' & Hrun & Hp & Hnone & Ho').
  eapply wp_eq; [exact Hrun|]. exists p. do 3 (split; [done|]). by apply Hk.
Qed.
Next Obligation.
  intros t r fr m p d (root & l & Ho & Hk)%holds_owns Hp.
  destruct (delete_page_owns _ _ _ _ _ _ _ Ho Hp) as (s' & Hrun & Ho').
  eapply wp_eq; [exact Hrun|]. split; [done|]. by apply Hk.
Qed.
End tree_index.
