(* ===== verification/Table.v ===== *)
(** * Tables and queries (src/query/table.{h,cpp}, src/query/query_engine.{h,cpp})

    The operations of [Table] and [QueryEngine] over any index; the state is
    the index with the buffer pool behind it, and the write-ahead log when
    there is one. *)

From S2P Require Export TableIndex Record WALManager.

Local Open Scope Z_scope.

Record Table (T : Type) := mkTable {
  index_ : T;
  wal_manager_ : option WALManager;
}.
Arguments mkTable {T} _ _.
Arguments index_ {T} _.
Arguments wal_manager_ {T} _.

Definition Record_zero : Record_ := mkRecord 0 [] 0.

Definition int64_min : Z := - 2 ^ 63.

Section Table.
Context {T : Type} `{Index T}.
Notation Tab := (Table T).

Definition set_index (i : T) (t : Tab) : Tab := mkTable i (wal_manager_ t).
Definition set_wal (w : option WALManager) (t : Tab) : Tab := mkTable (index_ t) w.
Definition on_index {A} (m : M T A) : M Tab A := zoom index_ set_index m.

(** [if (wal_manager_ != nullptr) { m }] *)
Definition with_wal {A} (m : M WALManager A) : M Tab (option A) := λ t,
  match wal_manager_ t with
  | None => (Ret None, t)
  | Some w =>
      let '(o, w') := (a ← m; mret (Some a)) w in (o, set_wal (Some w') t)
  end.

Definition Table_new (index : option T) (wal_manager : option WALManager) : outcome Tab :=
  match index with
  | None => Throw (invalid_argument "index must not be null")
  | Some i => Ret (mkTable i wal_manager)
  end.

(** ** Images and record pages *)

Definition RecordImage (record : Record_) : outcome bytes :=
  match SerializeRecord record (replicate RECORD_SIZE x00) with
  | (Ret _, image) => Ret image
  | (Throw e, _) => Throw e
  | (Undef, _) => Undef
  | (Diverge, _) => Diverge
  end.

Definition RecordFromImage (image : bytes) : outcome Record_ :=
  if decide (length image = RECORD_SIZE) then DeserializeRecord image
  else Throw (runtime_error "invalid record image in WAL").

(** [static_cast<page_id_t>(record_page_id)] *)
Definition record_page (record_page_id : Z) : Z := to_signed 32 record_page_id.

(** The result and the object behind [out]. *)
Definition ReadRecord (record_page_id : Z) (out : Record_) : M Tab (bool * Record_) :=
  let page_id := record_page record_page_id in
  if page_id =? INVALID_PAGE_ID then mret (false, out) else
  page ← on_index (idx_with_page page_id false
           (λ data, (DeserializeRecord data, data)));
  match page with
  | None => mret (false, out)
  | Some record => mret (true, record)
  end.

Definition WriteRecord (record_page_id : Z) (record : Record_) : M Tab bool :=
  page ← on_index (idx_with_page (record_page record_page_id) true (SerializeRecord record));
  match page with
  | None => mret false
  | Some _ => mret true
  end.

(** ** Changes without the log *)

Definition InsertWithoutWAL (record : Record_) : M Tab bool :=
  existing ← on_index (idx_Search (rec_id record));
  match existing with
  | Some _ => mret false
  | None =>
      page ← on_index (idx_new_page (λ _, SerializeRecord record));
      match page with
      | None => mret false
      | Some (record_page_id, _) =>
          inserted ← on_index (idx_Insert (rec_id record) record_page_id);
          if inserted : bool then mret true else
          on_index (idx_delete_page record_page_id) ;; mret false
      end
  end.

Definition UpdateWithoutWAL (id : Z) (record : Record_) : M Tab bool :=
  record_page_id ← on_index (idx_Search id);
  match record_page_id with
  | None => InsertWithoutWAL record
  | Some p => WriteRecord p record
  end.

Definition DeleteWithoutWAL (id : Z) : M Tab bool :=
  record_page_id ← on_index (idx_Search id);
  match record_page_id with
  | None => mret true
  | Some p =>
      deleted ← on_index (idx_Delete id);
      if negb deleted then mret false else on_index (idx_delete_page (record_page p))
  end.

(** ** The public operations *)

Definition Insert (record : Record_) : M Tab bool :=
  existing ← on_index (idx_Search (rec_id record));
  match existing with
  | Some _ => mret false
  | None =>
      image ← lift (RecordImage record);
      with_wal (AppendInsert (rec_id record) image ;; Flush) ;;
      inserted ← InsertWithoutWAL record;
      (if inserted : bool then with_wal AppendCommit else mret None) ;;
      mret inserted
  end.

(** A null [out] is [None]. *)
Definition Select (id : Z) (out : option Record_) : M Tab (bool * option Record_) :=
  match out with
  | None => mret (false, None)
  | Some r =>
      record_page_id ← on_index (idx_Search id);
      match record_page_id with
      | None => mret (false, Some r)
      | Some p => '(ok, r) ← ReadRecord p r; mret (ok, Some r)
      end
  end.

Fixpoint SelectEntries (predicate : Record_ → bool) (entries : list (Z * Z)) (records : list Record_)
    : M Tab (list Record_) :=
  match entries with
  | [] => mret records
  | (_, v) :: entries =>
      '(ok, record) ← ReadRecord v Record_zero;
      SelectEntries predicate entries
        (if ok && predicate record then records ++ [record] else records)
  end.

Definition SelectWhere (predicate : Record_ → bool) : M Tab (list Record_) :=
  entries ← on_index (idx_RangeScan int64_min int64_max []);
  SelectEntries predicate entries [].

Definition Update (id : Z) (mutator : Record_ → Record_) : M Tab bool :=
  '(found, record) ← Select id (Some Record_zero);
  match found, record with
  | true, Some record =>
      before_image ← lift (RecordImage record);
      let record := mutator record in
      let record := mkRecord id (rec_name record) (rec_value record) in
      after_image ← lift (RecordImage record);
      with_wal (AppendUpdate id before_image after_image ;; Flush) ;;
      updated ← UpdateWithoutWAL id record;
      (if updated : bool then with_wal AppendCommit else mret None) ;;
      mret updated
  | _, _ => mret false
  end.

Definition Delete (id : Z) : M Tab bool :=
  '(found, record) ← Select id (Some Record_zero);
  match found, record with
  | true, Some record =>
      image ← lift (RecordImage record);
      with_wal (AppendDelete id image ;; Flush) ;;
      deleted ← DeleteWithoutWAL id;
      (if deleted : bool then with_wal AppendCommit else mret None) ;;
      mret deleted
  | _, _ => mret false
  end.

(** ** Recovery *)

Definition ReplayRecord (record : LogRecord) : M Tab unit :=
  match log_type record with
  | LogRecordType.INSERT =>
      r ← lift (RecordFromImage (after_image record)); InsertWithoutWAL r ;; mret tt
  | LogRecordType.UPDATE =>
      r ← lift (RecordFromImage (after_image record));
      UpdateWithoutWAL (record_id record) r ;; mret tt
  | LogRecordType.DELETE => DeleteWithoutWAL (record_id record) ;; mret tt
  | LogRecordType.COMMIT => mret tt
  end.

Definition Recover : M Tab unit :=
  records ← with_wal ReadAllRecords;
  match records with
  | None => mret tt
  | Some records => for_each records ReplayRecord
  end.
End Table.

(** ** The query engine *)

Module QueryEngine.
Section QueryEngine.
Context {T : Type} `{Index T}.
Notation Tab := (Table T).

Definition Insert (id : Z) (name : bytes) (value : Z) : M Tab bool :=
  Table.Insert (mkRecord id name value).

Definition SelectById (id : Z) : M Tab (option Record_) :=
  '(ok, record) ← Select id (Some Record_zero);
  mret (if ok : bool then record else None).

Definition SelectWhere (predicate : Record_ → bool) : M Tab (list Record_) :=
  Table.SelectWhere predicate.

Definition UpdateValue (id new_value : Z) : M Tab bool :=
  Update id (λ record, mkRecord (rec_id record) (rec_name record) new_value).

Definition DeleteById (id : Z) : M Tab bool := Table.Delete id.
End QueryEngine.
End QueryEngine.
