(* ===== verification/TableSpec.v ===== *)
(** * A table implements a finite map of records

    The representation invariant that ties the index, the record pages and the
    log to a map from ids to records, and the specification of every table
    operation against the index interface. *)

From S2P Require Export Table.

Local Open Scope Z_scope.

Notation rows := (gmap Z Record_).

(** ** Records in their stored form *)

Lemma c_string_no_zero bs : x00 ∉ c_string bs.
Proof.
  induction bs as [|b bs IH]; simpl; [by apply not_elem_of_nil|].
  case_decide; [by apply not_elem_of_nil|]. apply not_elem_of_cons. by split; [intros <-|].
Qed.

Lemma length_c_string bs : (length (c_string bs) ≤ length bs)%nat.
Proof. induction bs as [|b bs IH]; simpl; [lia|]. case_decide; simpl; lia. Qed.

Lemma stored_record_fits r : name_fits (stored_record r).
Proof.
  split; [|apply c_string_no_zero]. simpl. etrans; [apply length_c_string|].
  rewrite length_take. lia.
Qed.

Lemma stored_record_idemp r : stored_record (stored_record r) = stored_record r.
Proof. apply stored_record_id, stored_record_fits. Qed.

Lemma stored_record_wf r : record_wf r → record_wf (stored_record r).
Proof. done. Qed.

Lemma RecordImage_image r : RecordImage r = Ret (record_image r).
Proof.
  unfold RecordImage. rewrite SerializeRecord_image by (rewrite length_replicate; lia).
  rewrite drop_ge by (rewrite length_replicate; lia). by rewrite app_nil_r.
Qed.

Lemma RecordFromImage_image r : record_wf r → RecordFromImage (record_image r) = Ret (stored_record r).
Proof.
  intros Hr. unfold RecordFromImage. rewrite decide_True by apply length_record_image.
  rewrite <- (app_nil_r (record_image r)). by apply DeserializeRecord_image.
Qed.

Lemma record_fits : (RECORD_SIZE ≤ PAGE_SIZE)%nat.
Proof. by apply Nat.leb_le. Qed.

(** ** The representation *)

(** The record pages [m] points to hold the records of [c]; [other] are the
    pages of the pool that belong to nobody here. *)
Record table_rep (fr : gmap Z bytes) (m : gmap Z Z) (c : rows) (other : gmap Z bytes) : Prop := {
  rep_ids : dom m = dom c;
  rep_record id p : m !! id = Some p → ∃ d rc, fr !! p = Some d ∧ c !! id = Some rc ∧
    DeserializeRecord d = Ret rc ∧ rec_id rc = id ∧ record_wf rc ∧ stored_record rc = rc;
  rep_inj i j p : m !! i = Some p → m !! j = Some p → i = j;
  rep_other : other ⊆ fr;
  rep_apart id p : m !! id = Some p → other !! p = None;
}.

Lemma rep_None fr m c other id : table_rep fr m c other → m !! id = None ↔ c !! id = None.
Proof. intros R. by rewrite <- !not_elem_of_dom, (rep_ids _ _ _ _ R). Qed.

Lemma rep_size fr m c other : table_rep fr m c other → size m = size c.
Proof. intros R. by rewrite <- !size_dom, (rep_ids _ _ _ _ R). Qed.

Lemma rep_empty fr : table_rep fr ∅ ∅ fr.
Proof. split; try done. Qed.

(** Putting a record on a page that held it, or on a page of its own. *)
Lemma rep_put fr m c other id p d rc :
  table_rep fr m c other → DeserializeRecord d = Ret rc → rec_id rc = id → record_wf rc →
  stored_record rc = rc → (m !! id = Some p ∨ m !! id = None ∧ fr !! p = None) →
  table_rep (<[p := d]> fr) (<[id := p]> m) (<[id := rc]> c) other.
Proof.
  intros R Hd Hid Hwf Hst Hp.
  assert (∀ j q, j ≠ id → m !! j = Some q → q ≠ p) as Hne.
  { intros j q Hj Hq ->. destruct Hp as [Hp|[_ Hp]]; [by destruct Hj; eapply rep_inj|].
    destruct (rep_record _ _ _ _ R _ _ Hq) as (? & ? & ? & _). congruence. }
  assert (other !! p = None) as Hop.
  { destruct Hp as [Hp|[_ Hp]]; [by eapply rep_apart|].
    destruct (other !! p) eqn:E; [|done].
    eapply lookup_weaken in E; [|apply R]. congruence. }
  split.
  - rewrite !dom_insert_L. by rewrite (rep_ids _ _ _ _ R).
  - intros j q Hj. rewrite !lookup_insert. rewrite lookup_insert in Hj. case_decide as E.
    + injection Hj as <-. exists d, rc. rewrite decide_True by done. subst. done.
    + rewrite decide_False by (intros <-; by eapply (Hne j)). by eapply rep_record.
  - intros i j q [[<- <-]|[Hi' Hi]]%lookup_insert_Some [[<- Eq]|[Hj' Hj]]%lookup_insert_Some;
      [done|..]; subst.
    + by destruct (Hne j _ (not_eq_sym Hj') Hj).
    + by destruct (Hne i _ (not_eq_sym Hi') Hi).
    + by eapply rep_inj.
  - apply insert_subseteq_r; [done|apply R].
  - intros j q Hj. rewrite lookup_insert in Hj. case_decide; simplify_eq; [done|]. by eapply rep_apart.
Qed.

Lemma rep_remove fr m c other id p :
  table_rep fr m c other → m !! id = Some p →
  table_rep (delete p fr) (delete id m) (delete id c) other.
Proof.
  intros R Hp.
  assert (∀ j q, j ≠ id → m !! j = Some q → q ≠ p) as Hne.
  { intros j q Hj Hq ->. by destruct Hj; eapply rep_inj. }
  split.
  - rewrite !dom_delete_L. by rewrite (rep_ids _ _ _ _ R).
  - intros j q (Hj & Hq)%lookup_delete_Some.
    rewrite !lookup_delete_ne by (try done; by apply not_eq_sym, (Hne j)). by eapply rep_record.
  - intros i j q (_ & Hi)%lookup_delete_Some (_ & Hj)%lookup_delete_Some. by eapply rep_inj.
  - apply map_subseteq_spec. intros q d Hq. rewrite lookup_delete_ne.
    + eapply lookup_weaken; [exact Hq|apply R].
    + intros ->. rewrite (rep_apart _ _ _ _ R _ _ Hp) in Hq. done.
  - intros j q (_ & Hq)%lookup_delete_Some. by eapply rep_apart.
Qed.

(** ** The operations without the log *)

Section spec.
Context {T : Type} `{IndexLaws T}.
Notation Tab := (Table T).
Implicit Types (t : Tab) (c : rows) (other : gmap Z bytes).

(** The table holds [c]; [cap] pages are in use by the index and the records or
    still to be had; the log is [w]. *)
Definition table_holds t (cap : Z) other c (w : option WALManager) : Prop :=
  wal_manager_ t = w ∧
  ∃ r fr m, index_holds (index_ t) r fr m ∧ table_rep fr m c other ∧
    r + Z.of_nat (size c) = cap.

Lemma wp_on_index {A} (m : M T A) t (Q : A → Tab → Prop) :
  wp m (index_ t) (λ a i, Q a (set_index i t)) → wp (on_index m) t Q.
Proof. apply wp_zoom. Qed.

(** Looking up an id: the page of its record, or none. *)
Lemma search_rep {A} t r fr m other c id (k : option Z → M Tab A) Q :
  index_holds (index_ t) r fr m → table_rep fr m c other →
  (∀ i, index_holds i r fr m → m !! id = None → c !! id = None → wp (k None) (set_index i t) Q) →
  (∀ i p d rc, index_holds i r fr m → m !! id = Some p → record_page p = p → p ≠ INVALID_PAGE_ID →
     fr !! p = Some d → length d = PAGE_SIZE → DeserializeRecord d = Ret rc →
     c !! id = Some rc → rec_id rc = id → record_wf rc → stored_record rc = rc →
     wp (k (Some p)) (set_index i t) Q) →
  wp (on_index (idx_Search id) ≫= k) t Q.
Proof.
  intros Hi R Hn Hs. apply wp_bind, wp_on_index.
  eapply wp_mono; [by apply (idx_Search_law _ r fr m id)|]. cbn beta. intros o i [-> Hi'].
  destruct (m !! id) as [p|] eqn:E.
  - destruct (rep_record _ _ _ _ R _ _ E) as (d & rc & Hd & Hc & Hdes & Hid & Hwf & Hst).
    destruct (index_page_size _ _ _ _ _ _ Hi' Hd) as [Hlen Hp].
    eapply Hs; try done.
    + apply to_signed_small; [lia|]. unfold in_signed, int32_max in *. lia.
    + unfold INVALID_PAGE_ID. lia.
  - apply Hn; [done..|]. by eapply rep_None.
Qed.

Lemma ReadRecord_rep t r fr m id p out d rc (Q : bool * Record_ → Tab → Prop) :
  index_holds (index_ t) r fr m → m !! id = Some p → record_page p = p → p ≠ INVALID_PAGE_ID →
  fr !! p = Some d → length d = PAGE_SIZE → DeserializeRecord d = Ret rc →
  (∀ i, index_holds i r fr m → Q (true, rc) (set_index i t)) →
  wp (ReadRecord p out) t Q.
Proof.
  intros Hi Hp Hpp Hne Hd Hlen Hdes HQ. unfold ReadRecord. rewrite Hpp.
  rewrite (proj2 (Z.eqb_neq _ _)) by done.
  apply wp_bind, wp_on_index. eapply wp_mono.
  - eapply (idx_with_page_law _ _ _ _ _ false (λ data, (DeserializeRecord data, data)) d rc d);
      [done|done|by rewrite Hdes|done|by right].
  - cbn beta. intros o i [-> Hi']. apply wp_ret, HQ. by rewrite insert_id in Hi' by done.
Qed.

Lemma WriteRecord_rep t r fr m id p d rc0 rc c other w cap :
  index_holds (index_ t) r fr m → table_rep fr m c other → wal_manager_ t = w →
  r + Z.of_nat (size c) = cap → m !! id = Some p → record_page p = p → fr !! p = Some d →
  length d = PAGE_SIZE → c !! id = Some rc0 → rec_id rc = id → record_wf rc →
  wp (WriteRecord p rc) t (λ b t', b = true ∧
    table_holds t' cap other (<[id := stored_record rc]> c) w).
Proof.
  intros Hi R Hw Hcap Hp Hpp Hd Hlen Hc Hid Hwf. unfold WriteRecord. rewrite Hpp.
  assert (RECORD_SIZE ≤ length d)%nat as Hsz by (rewrite Hlen; apply record_fits).
  apply wp_bind, wp_on_index. eapply wp_mono.
  - eapply (idx_with_page_law _ _ _ _ _ true (SerializeRecord rc) d tt);
      [done|done|by apply SerializeRecord_image| |by left].
    rewrite length_app, length_record_image, length_drop. lia.
  - cbn beta. intros o i [-> Hi']. apply wp_ret. split; [done|]. split; [done|].
    eexists r, _, m. split; [exact Hi'|]. split; [|by rewrite map_size_insert, Hc].
    rewrite <- (insert_id m id p) by done.
    apply (rep_put fr m c other id p _ (stored_record rc)); try done; [|apply stored_record_idemp|by left].
    by apply DeserializeRecord_image.
Qed.

Lemma InsertWithoutWAL_spec t cap other c w record :
  table_holds t cap other c w → record_wf record → 3 * Z.of_nat (size c) + 4 ≤ cap →
  wp (InsertWithoutWAL record) t (λ b t', b = bool_decide (c !! rec_id record = None) ∧
    table_holds t' cap other
      (if b then <[rec_id record := stored_record record]> c else c) w).
Proof.
  intros (Hw & r & fr & m & Hi & R & Hcap) Hwf Hroom. unfold InsertWithoutWAL.
  pose proof (rep_size _ _ _ _ R) as Hsize.
  eapply search_rep; [exact Hi|exact R|..].
  2: { intros i p d rc Hi' Hp _ _ _ _ _ Hc _ _ _. apply wp_ret. rewrite Hc.
       split; [done|]. split; [done|]. by exists r, fr, m. }
  intros i Hi' Hm Hc. rewrite Hc, bool_decide_eq_true_2 by done.
  apply wp_bind, wp_on_index. eapply wp_mono.
  { apply (idx_new_page_law i r fr m (λ _, SerializeRecord record) (λ _, tt)
             (λ _, record_image record ++ drop RECORD_SIZE zero_page) Hi' ltac:(lia)).
    intros p _. split; [by apply SerializeRecord_image, Nat.leb_le|].
    rewrite length_app, length_record_image, length_drop. by vm_compute. }
  cbn beta. intros o i2 (p & -> & Hp & Hfr & Hi2). apply wp_bind, wp_on_index. cbn [set_index index_].
  eapply wp_mono.
  { apply (idx_Insert_law i2 (r - 1) _ m (rec_id record) p Hi2); [apply Hwf| |lia].
    unfold in_signed, int32_max in *. lia. }
  cbn beta. rewrite Hm, bool_decide_eq_true_2 by done. intros b i3 [-> Hi3]. apply wp_ret.
  split; [done|]. split; [done|]. eexists (r - 1), _, _. split; [exact Hi3|].
  split; [|rewrite map_size_insert, Hc; lia].
  apply rep_put; try done; [|by apply stored_record_idemp|by right].
  by apply DeserializeRecord_image.
Qed.

Lemma UpdateWithoutWAL_spec t cap other c w record :
  table_holds t cap other c w → record_wf record → 3 * Z.of_nat (size c) + 4 ≤ cap →
  wp (UpdateWithoutWAL (rec_id record) record) t (λ b t', b = true ∧
    table_holds t' cap other (<[rec_id record := stored_record record]> c) w).
Proof.
  intros (Hw & r & fr & m & Hi & R & Hcap) Hwf Hroom. unfold UpdateWithoutWAL.
  eapply search_rep; [exact Hi|exact R|..].
  - intros i Hi' Hm Hc. eapply wp_mono; [apply (InsertWithoutWAL_spec _ cap other c w record)|]; try done.
    + split; [done|]. by exists r, fr, m.
    + cbn beta. rewrite Hc, bool_decide_eq_true_2 by done. by intros b t' [-> Ht'].
  - intros i p d rc Hi' Hp Hpp Hne Hd Hlen Hdes Hc Hid Hwfr Hst.
    by eapply (WriteRecord_rep (set_index i t)).
Qed.

Lemma DeleteWithoutWAL_spec t cap other c w id :
  table_holds t cap other c w →
  wp (DeleteWithoutWAL id) t (λ b t', b = true ∧ table_holds t' cap other (delete id c) w).
Proof.
  intros (Hw & r & fr & m & Hi & R & Hcap). unfold DeleteWithoutWAL.
  eapply search_rep; [exact Hi|exact R|..].
  - intros i Hi' Hm Hc. apply wp_ret. rewrite delete_id by done.
    split; [done|]. split; [done|]. by exists r, fr, m.
  - intros i p d rc Hi' Hp Hpp Hne Hd Hlen Hdes Hc Hid Hwfr Hst.
    apply wp_bind, wp_on_index. eapply wp_mono; [by apply (idx_Delete_law _ r fr m id)|].
    cbn beta. rewrite Hp, bool_decide_eq_true_2 by done. intros b i2 [-> Hi2]. cbn [negb].
    apply wp_on_index. rewrite Hpp. eapply wp_mono; [by eapply (idx_delete_page_law _ r fr)|].
    cbn beta. intros b i3 [-> Hi3]. split; [done|]. split; [done|].
    eexists (r + 1), _, _. split; [exact Hi3|].
    split; [by apply rep_remove|]. rewrite map_size_delete_Some by done.
    assert (size c ≠ 0%nat) by (intros E%map_size_empty_inv; by rewrite E in Hc). lia.
Qed.

Lemma Select_spec t cap other c w id r0 :
  table_holds t cap other c w →
  wp (Select id (Some r0)) t (λ o t', o = match c !! id with
      | Some rc => (true, Some rc) | None => (false, Some r0) end ∧
    table_holds t' cap other c w).
Proof.
  intros (Hw & r & fr & m & Hi & R & Hcap). unfold Select.
  eapply search_rep; [exact Hi|exact R|..].
  - intros i Hi' Hm Hc. apply wp_ret. rewrite Hc. split; [done|]. split; [done|]. by exists r, fr, m.
  - intros i p d rc Hi' Hp Hpp Hne Hd Hlen Hdes Hc Hid Hwfr Hst. apply wp_bind.
    eapply ReadRecord_rep; try done. intros i2 Hi2. apply wp_ret. rewrite Hc.
    split; [done|]. split; [done|]. by exists r, fr, m.
Qed.
End spec.
