(* ===== verification/TableLog.v ===== *)
(** * A table and its log

    The log of a table replays to the table's contents: kept by every
    operation, and used by [Recover] to rebuild the table after a crash. *)

From S2P Require Export TableSpec.

Local Open Scope Z_scope.

(** ** Replaying records on a map *)

Definition replay_one (c : rows) (r : LogRecord) : rows :=
  match log_type r with
  | LogRecordType.INSERT =>
      match RecordFromImage (after_image r) with
      | Ret rc => match c !! rec_id rc with None => <[rec_id rc := rc]> c | Some _ => c end
      | _ => c
      end
  | LogRecordType.UPDATE =>
      match RecordFromImage (after_image r) with
      | Ret rc => <[rec_id rc := rc]> c
      | _ => c
      end
  | LogRecordType.DELETE => delete (record_id r) c
  | LogRecordType.COMMIT => c
  end.

Definition replay (rs : list LogRecord) (c : rows) : rows := foldl replay_one c rs.

(** A record as tables write them: 80-byte images of a record with the logged id. *)
Definition logged (r : LogRecord) : Prop :=
  match log_type r with
  | LogRecordType.INSERT | LogRecordType.UPDATE =>
      ∃ rc, after_image r = record_image rc ∧ record_wf rc ∧ rec_id rc = record_id r
  | _ => True
  end.

Definition is_commit (r : LogRecord) : Prop := log_type r = LogRecordType.COMMIT.

Lemma replay_app rs1 rs2 c : replay (rs1 ++ rs2) c = replay rs2 (replay rs1 c).
Proof. apply foldl_app. Qed.

Lemma replay_commits rs c : Forall is_commit rs → replay rs c = c.
Proof.
  intros Hrs. induction Hrs as [|r rs Hr Hrs IH]; [done|]. simpl.
  unfold replay_one. rewrite Hr. done.
Qed.

Lemma size_replay_one c r : (size (replay_one c r) ≤ S (size c))%nat.
Proof.
  assert (∀ id rc, size (<[id := rc]> c) ≤ S (size c))%nat as Hins.
  { intros i rc. rewrite map_size_insert. destruct (c !! i); simpl; lia. }
  unfold replay_one. destruct (log_type r).
  - destruct (RecordFromImage _) as [rc| | |]; try lia. destruct (c !! rec_id rc); [lia|apply Hins].
  - destruct (RecordFromImage _) as [rc| | |]; try lia. apply Hins.
  - rewrite map_size_delete. destruct (c !! record_id r); simpl; lia.
  - lia.
Qed.

(** ** Replaying records on a table *)

Section log.
Context {T : Type} `{IndexLaws T}.
Notation Tab := (Table T).
Implicit Types (t : Tab) (c : rows) (other : gmap Z bytes).

Lemma ReplayRecord_spec t cap other c w r :
  table_holds t cap other c w → logged r → 3 * Z.of_nat (size c) + 4 ≤ cap →
  wp (ReplayRecord r) t (λ _ t', table_holds t' cap other (replay_one c r) w).
Proof.
  intros Ht Hr Hcap. unfold ReplayRecord, replay_one, logged in *.
  destruct (log_type r).
  - destruct Hr as (rc & -> & Hwf & Hid). rewrite RecordFromImage_image by done.
    apply wp_bind, wp_lift, wp_bind. eapply wp_mono; [by apply InsertWithoutWAL_spec|].
    cbn beta. intros b t' [-> Ht']. apply wp_ret. rewrite stored_record_idemp in Ht'.
    case_bool_decide as E; [by rewrite E|]. destruct (c !! _) eqn:E'; done.
  - destruct Hr as (rc & -> & Hwf & Hid). rewrite RecordFromImage_image by done.
    apply wp_bind, wp_lift, wp_bind. rewrite <- Hid.
    eapply wp_mono; [by apply (UpdateWithoutWAL_spec _ cap other c w (stored_record rc))|].
    cbn beta. intros b t' [-> Ht']. apply wp_ret. by rewrite stored_record_idemp in Ht'.
  - apply wp_bind. eapply wp_mono; [by apply DeleteWithoutWAL_spec|].
    cbn beta. intros b t' [-> Ht']. by apply wp_ret.
  - by apply wp_ret.
Qed.

Lemma replay_spec t cap other c w rs :
  table_holds t cap other c w → Forall logged rs →
  3 * Z.of_nat (size c + length rs) + 4 ≤ cap →
  wp (for_each rs ReplayRecord) t (λ _ t', table_holds t' cap other (replay rs c) w).
Proof.
  intros Ht Hrs. revert t c Ht. induction Hrs as [|r rs Hr Hrs IH]; intros t c Ht Hcap; simpl.
  - by apply wp_ret.
  - simpl in Hcap. apply wp_bind. eapply wp_mono; [apply ReplayRecord_spec; [done|done|lia]|].
    cbn beta. intros _ t' Ht'. apply IH; [done|]. pose proof (size_replay_one c r). lia.
Qed.

(** ** The log agrees with the contents *)

Definition logs (lg : bool) (w : option WALManager) c : Prop :=
  match w with
  | None => lg = false
  | Some w => lg = true ∧ ∃ s p, wal_log w s p ∧ Forall logged (s ++ p) ∧ replay (s ++ p) ∅ = c ∧
      Forall is_commit p
  end.

Lemma fresh_logs : logs true (Some fresh_wal) ∅.
Proof. split; [done|]. exists [], []. split_and!; try done. apply fresh_wal_log. Qed.

(** [n] more records can be numbered without going over [lim]. *)
Definition wal_room (w : option WALManager) (lim n : Z) : Prop :=
  match w with None => True | Some w => next_lsn_ w + n ≤ lim end.

Lemma wp_with_wal {A} (m : M WALManager A) t (Q : option A → Tab → Prop) :
  match wal_manager_ t with
  | None => Q None t
  | Some w => wp m w (λ a w', Q (Some a) (set_wal (Some w') t))
  end → wp (with_wal m) t Q.
Proof.
  unfold wp, with_wal, mbind, M_bind. destruct (wal_manager_ t) as [w|]; [|done].
  by destruct (m w) as [[a| | |] w'].
Qed.

(** A logged change, whatever its number. *)
Definition change (ty : LogRecordType.t) (id : Z) (before after : bytes) : LogRecord :=
  mkLogRecord 0 ty id before after.

(** A change is logged and flushed before it is made. *)
Lemma append_flush_spec w c ty id b a :
  logs true (Some w) c → next_lsn_ w + 1 < 2 ^ 63 →
  in_signed 64 id → Z.of_nat (length b + length a) < 2 ^ 31 → logged (change ty id b a) →
  wp (Append ty id b a ≫= λ _, Flush) w (λ _ w',
    logs true (Some w') (replay_one c (change ty id b a)) ∧ next_lsn_ w' = next_lsn_ w + 1).
Proof.
  intros (_ & s & p & Hlog & Hlogged & Hc & Hp) Hn Hid Hsz Hr.
  assert (0 ≤ next_lsn_ w) by apply Hlog.
  set (r' := mkLogRecord (next_lsn_ w) ty id b a).
  destruct (Append_spec w s p ty id b a Hlog ltac:(lia)) as (w1 & E1 & Hlog1 & En1).
  { split; [split_and!; simpl; try done; unfold in_signed; lia|].
    rewrite length_log_record_bytes. simpl. lia. }
  destruct (Flush_spec w1 _ _ Hlog1) as (w2 & E2 & Hlog2 & En2).
  apply wp_bind. eapply wp_eq; [exact E1|]. eapply wp_eq; [exact E2|]. split; [|congruence].
  split; [done|]. exists (s ++ p ++ [r']), []. rewrite app_nil_r, app_assoc. split_and!; [by rewrite <- app_assoc| | |done].
  - apply Forall_app. split; [done|]. by apply Forall_singleton.
  - rewrite replay_app, Hc. done.
Qed.

Lemma log_change_spec lg t cap other c w lim n ty id b a :
  table_holds t cap other c w → logs lg w c → wal_room w lim (1 + n) → lim < 2 ^ 63 → 0 ≤ n →
  in_signed 64 id → Z.of_nat (length b + length a) < 2 ^ 31 → logged (change ty id b a) →
  wp (with_wal (Append ty id b a ≫= λ _, Flush)) t (λ _ t', ∃ w',
    table_holds t' cap other c w' ∧ logs lg w' (replay_one c (change ty id b a)) ∧ wal_room w' lim n).
Proof.
  intros [Hw Ht] Hl Hn Hlim Hn0 Hid Hsz Hr. apply wp_with_wal. rewrite Hw.
  destruct w as [w|]; [|by exists None]. destruct lg; [|by destruct Hl]. simpl in Hn.
  eapply wp_mono; [apply append_flush_spec; [done|lia|done..]|]. cbn beta. intros _ w' [Hl' En'].
  exists (Some w'). split_and!; [by split|done|simpl; lia].
Qed.

Lemma append_commit_spec w c :
  logs true (Some w) c → next_lsn_ w + 1 < 2 ^ 63 →
  wp AppendCommit w (λ _ w', logs true (Some w') c ∧ next_lsn_ w' = next_lsn_ w + 1).
Proof.
  intros (_ & s & p & Hlog & Hlogged & Hc & Hp) Hn. assert (0 ≤ next_lsn_ w) by apply Hlog.
  destruct (Append_spec w s p LogRecordType.COMMIT (-1) [] [] Hlog ltac:(lia)) as (w1 & E1 & Hlog1 & En1).
  { split; [split_and!; simpl; try done; unfold in_signed; lia|]. by rewrite length_log_record_bytes. }
  unfold AppendCommit. apply wp_bind. eapply wp_eq; [exact E1|]. apply wp_ret.
  split; [|done]. split; [done|]. eexists s, _. split_and!; [exact Hlog1| | |].
  - rewrite app_assoc. apply Forall_app. split; [done|]. by apply Forall_singleton.
  - rewrite app_assoc, replay_app, Hc. done.
  - apply Forall_app. split; [done|]. by apply Forall_singleton.
Qed.

Lemma log_commit_spec lg t cap other c w lim n (Q : option unit → Tab → Prop) :
  table_holds t cap other c w → logs lg w c → wal_room w lim (1 + n) → lim < 2 ^ 63 → 0 ≤ n →
  (∀ o t' w', table_holds t' cap other c w' → logs lg w' c → wal_room w' lim n → Q o t') →
  wp (with_wal AppendCommit) t Q.
Proof.
  intros [Hw Ht] Hl Hn Hlim Hn0 HQ. apply wp_with_wal. rewrite Hw.
  destruct w as [w|]; [|by eapply (HQ _ _ None)]. destruct lg; [|by destruct Hl]. simpl in Hn.
  eapply wp_mono; [apply append_commit_spec; [done|lia]|]. cbn beta. intros [] w' [Hl' En'].
  apply (HQ _ _ (Some w')); [by split|done|simpl; lia].
Qed.

(** ** The public operations *)

(** Between operations: the table holds [c], its log replays to [c], and has
    room for [n] records below [lim]. *)
Definition table_ok (lg : bool) t cap other c (lim n : Z) : Prop :=
  ∃ w, table_holds t cap other c w ∧ logs lg w c ∧ wal_room w lim n ∧ lim < 2 ^ 63 ∧ 0 ≤ n.

Lemma wal_room_le w lim n n' : wal_room w lim n → n' ≤ n → wal_room w lim n'.
Proof. destruct w; simpl; [lia|done]. Qed.

Lemma table_ok_weaken lg t cap other c lim n n' :
  table_ok lg t cap other c lim n → 0 ≤ n' ≤ n → table_ok lg t cap other c lim n'.
Proof.
  intros (w & Ht & Hl & Hn & Hlim & _) Hn'. exists w. split_and!; try done; [|lia].
  eapply wal_room_le; [done|lia].
Qed.

Lemma table_holds_record t cap other c w id rc :
  table_holds t cap other c w → c !! id = Some rc →
  rec_id rc = id ∧ record_wf rc ∧ stored_record rc = rc.
Proof.
  intros (_ & r & fr & m & _ & R & _) Hc.
  destruct (m !! id) as [p|] eqn:E; [|apply (rep_None _ _ _ _ _ R) in E; congruence].
  destruct (rep_record _ _ _ _ R _ _ E) as (d & rc' & _ & Hc' & _ & ?). by simplify_eq.
Qed.

(** A logged change: the record, the change itself, the commit record. *)
Lemma logged_change_spec lg t cap other c c' w lim n ty id b a (m : M Tab bool) :
  table_holds t cap other c w → logs lg w c → wal_room w lim (2 + n) → lim < 2 ^ 63 → 0 ≤ n →
  in_signed 64 id → Z.of_nat (length b + length a) < 2 ^ 31 → logged (change ty id b a) → replay_one c (change ty id b a) = c' →
  (∀ t' w', table_holds t' cap other c w' →
     wp m t' (λ b t', b = true ∧ table_holds t' cap other c' w')) →
  wp (with_wal (Append ty id b a ≫= λ _, Flush) ≫= λ _,
      m ≫= λ done : bool, (if done then with_wal AppendCommit else mret None) ≫= λ _, mret done) t
    (λ b t', b = true ∧ table_ok lg t' cap other c' lim n).
Proof.
  intros Ht Hl Hn Hlim Hn0 Hid Hsz Hr <- Hm.
  apply wp_bind. eapply wp_mono; [apply (log_change_spec lg _ cap other c w lim (1 + n)); try done; [|lia]|].
  { eapply wal_room_le; [done|lia]. }
  cbn beta. intros _ t1 (w1 & Ht1 & Hl1 & Hn1).
  apply wp_bind. eapply wp_mono; [by apply Hm|]. cbn beta. intros b' t2 [-> Ht2].
  apply wp_bind. eapply log_commit_spec; try done. intros o t3 w3 Ht3 Hl3 Hn3.
  apply wp_ret. split; [done|]. by exists w3.
Qed.

Lemma Table_Insert_spec lg t cap other c lim n record :
  table_ok lg t cap other c lim (2 + n) → record_wf record → 3 * Z.of_nat (size c) + 4 ≤ cap → 0 ≤ n →
  wp (Table.Insert record) t (λ b t', b = bool_decide (c !! rec_id record = None) ∧
    table_ok lg t' cap other (if b then <[rec_id record := stored_record record]> c else c) lim n).
Proof.
  intros (w & (Hw & r & fr & m & Hi & R & Hcap) & Hl & Hn & Hlim & _) Hwf Hroom Hn0. unfold Table.Insert.
  eapply search_rep; [exact Hi|exact R|..].
  2: { intros i p d rc Hi' Hp _ _ _ _ _ Hc _ _ _. apply wp_ret. rewrite Hc. split; [done|].
       exists w. split_and!; try done; [by split; [|exists r, fr, m]|]. eapply wal_room_le; [done|lia]. }
  intros i Hi' Hm Hc. rewrite Hc, bool_decide_eq_true_2 by done.
  rewrite RecordImage_image. apply wp_bind, wp_lift.
  eapply wp_mono.
  - eapply (logged_change_spec lg (set_index i t) cap other c
              (<[rec_id record := stored_record record]> c) w lim n LogRecordType.INSERT (rec_id record)
              [] (record_image record) (InsertWithoutWAL record)); try done.
    + split; [done|]. by exists r, fr, m.
    + apply Hwf.
    + rewrite length_record_image. by vm_compute.
    + by exists record.
    + unfold replay_one. simpl. rewrite RecordFromImage_image by done.
      cbn [rec_id stored_record]. by rewrite Hc.
    + intros t' w' Ht'. eapply wp_mono; [by apply InsertWithoutWAL_spec|]. cbn beta.
      rewrite Hc, bool_decide_eq_true_2 by done. by intros b t2 [-> Ht2].
  - cbn beta. by intros b t' [-> Ht'].
Qed.

Lemma Table_Update_spec lg t cap other c lim n id (f : Record_ → Record_) :
  table_ok lg t cap other c lim (2 + n) → (∀ rc, c !! id = Some rc → record_wf (f rc)) →
  3 * Z.of_nat (size c) + 4 ≤ cap → 0 ≤ n →
  wp (Table.Update id f) t (λ b t', b = bool_decide (is_Some (c !! id)) ∧
    table_ok lg t' cap other
      (alter (λ rc, stored_record (mkRecord id (rec_name (f rc)) (rec_value (f rc)))) id c) lim n).
Proof.
  intros (w & Ht & Hl & Hn & Hlim & _) Hf Hroom Hn0. unfold Table.Update.
  apply wp_bind. eapply wp_mono; [by apply Select_spec|]. cbn beta. intros o t1 [-> Ht1].
  destruct (c !! id) as [rc|] eqn:Hc.
  2: { apply wp_ret. split; [done|]. rewrite alter_id by (intros ?; congruence).
       exists w. split_and!; try done. eapply wal_room_le; [done|lia]. }
  destruct (table_holds_record _ _ _ _ _ _ _ Ht Hc) as (Hid & Hwf & Hst).
  specialize (Hf rc eq_refl). set (rc' := mkRecord id (rec_name (f rc)) (rec_value (f rc))).
  assert (record_wf rc') as Hwf' by (split; simpl; [rewrite <- Hid; apply Hwf|apply Hf]).
  rewrite !RecordImage_image. apply wp_bind, wp_lift, wp_bind, wp_lift.
  eapply wp_mono.
  - eapply (logged_change_spec lg t1 cap other c (<[id := stored_record rc']> c) w lim n LogRecordType.UPDATE id
              (record_image rc) (record_image rc') (UpdateWithoutWAL id rc')); try done.
    + apply Hwf'.
    + rewrite !length_record_image. by vm_compute.
    + by exists rc'.
    + unfold replay_one. simpl. by rewrite RecordFromImage_image.
    + intros t' w' Ht'. by apply (UpdateWithoutWAL_spec t' cap other c w' rc').
  - cbn beta. intros b t' [-> Ht']. split; [by rewrite bool_decide_eq_true_2|].
    replace (alter _ id c) with (<[id := stored_record rc']> c); [done|].
    apply map_eq. intros j. rewrite lookup_insert, lookup_alter. case_decide; subst; [|done].
    by rewrite Hc.
Qed.

Lemma Table_Delete_spec lg t cap other c lim n id :
  table_ok lg t cap other c lim (2 + n) → in_signed 64 id → 0 ≤ n →
  wp (Table.Delete id) t (λ b t', b = bool_decide (is_Some (c !! id)) ∧
    table_ok lg t' cap other (delete id c) lim n).
Proof.
  intros (w & Ht & Hl & Hn & Hlim & _) Hsid Hn0. unfold Table.Delete.
  apply wp_bind. eapply wp_mono; [by apply Select_spec|]. cbn beta. intros o t1 [-> Ht1].
  destruct (c !! id) as [rc|] eqn:Hc.
  2: { apply wp_ret. split; [done|]. rewrite delete_id by done.
       exists w. split_and!; try done. eapply wal_room_le; [done|lia]. }
  rewrite RecordImage_image. apply wp_bind, wp_lift. eapply wp_mono.
  - eapply (logged_change_spec lg t1 cap other c (delete id c) w lim n LogRecordType.DELETE id
              (record_image rc) [] (DeleteWithoutWAL id)); try done.
    + rewrite !length_record_image. by vm_compute.
    + intros t' w' Ht'. by apply (DeleteWithoutWAL_spec t' cap other c w').
  - cbn beta. intros b t' [-> Ht']. split; [by rewrite bool_decide_eq_true_2|done].
Qed.

(** ** Scans *)

(** The records of a list of index entries, in its order. *)
Definition entry_records c (l : list (Z * Z)) : list Record_ := omap (λ e, c !! e.1) l.

Lemma entry_records_cons c k v rc l :
  c !! k = Some rc → entry_records c ((k, v) :: l) = rc :: entry_records c l.
Proof. intros Hc. unfold entry_records. simpl. by rewrite Hc. Qed.

Lemma SelectEntries_spec P r fr m c other w l : ∀ t out,
  index_holds (index_ t) r fr m → wal_manager_ t = w → table_rep fr m c other →
  (∀ e, e ∈ l → m !! e.1 = Some e.2) →
  wp (SelectEntries P l out) t (λ o t', o = out ++ filter P (entry_records c l) ∧
    index_holds (index_ t') r fr m ∧ wal_manager_ t' = w).
Proof.
  induction l as [|[k v] l IH]; intros t out Hi Hw R Hl; cbn [SelectEntries].
  - apply wp_ret. by rewrite app_nil_r.
  - assert (m !! k = Some v) as Hk by (apply (Hl (k, v)); by left).
    destruct (rep_record _ _ _ _ R _ _ Hk) as (d & rc & Hd & Hc & Hdes & Hid & Hwf & Hst).
    destruct (index_page_size _ _ _ _ _ _ Hi Hd) as [Hlen Hp].
    apply wp_bind. eapply ReadRecord_rep; try done.
    { apply to_signed_small; [lia|]. unfold in_signed, int32_max in *. lia. }
    { unfold INVALID_PAGE_ID. lia. }
    intros i Hi'. eapply wp_mono; [apply IH; [done|done|done|]|].
    { intros e He. apply Hl. by right. }
    cbn beta. intros o t' (-> & Hi2 & Hw2). split; [|done].
    rewrite (entry_records_cons c k v rc l Hc). cbn [andb].
    destruct (P rc) eqn:E.
    + rewrite filter_cons_True by by rewrite E. by rewrite <- app_assoc.
    + rewrite filter_cons_False by (rewrite E; by intros []). done.
Qed.

(** What a scan returns for the predicate [P]: the matching records, in
    increasing order of their ids. *)
Definition scan_result c (P : Record_ → bool) (rs : list Record_) : Prop :=
  StronglySorted Z.lt (rec_id <$> rs) ∧
  ∀ rc, rc ∈ rs ↔ c !! rec_id rc = Some rc ∧ P rc = true.

Lemma sorted_filter_records (P : Record_ → bool) (l : list Record_) :
  StronglySorted Z.lt (rec_id <$> l) → StronglySorted Z.lt (rec_id <$> filter P l).
Proof.
  induction l as [|rc l IH]; simpl; intros Hl; [done|]. inversion Hl as [|? ? Hs Hall]; subst.
  rewrite filter_cons. case_decide; [|by apply IH]. simpl. constructor; [by apply IH|].
  apply Forall_forall. intros x (y & -> & [_ Hy]%list_elem_of_filter)%list_elem_of_fmap.
  eapply Forall_forall in Hall; [exact Hall|]. by apply list_elem_of_fmap_2.
Qed.

Lemma entry_records_ids c l :
  (∀ e, e ∈ l → ∃ rc, c !! e.1 = Some rc ∧ rec_id rc = e.1) →
  rec_id <$> entry_records c l = l.*1.
Proof.
  induction l as [|[k v] l IH]; intros Hl; [done|].
  destruct (Hl (k, v)) as (rc & Hc & Hid); [by left|]. simpl in Hc, Hid.
  rewrite (entry_records_cons c k v rc l Hc), !fmap_cons, Hid, IH; [done|].
  intros e He. apply Hl. by right.
Qed.

Lemma Table_SelectWhere_spec t cap other c w P :
  table_holds t cap other c w →
  wp (SelectWhere P) t (λ rs t', scan_result c P rs ∧ table_holds t' cap other c w).
Proof.
  intros Ht. pose proof (λ id rc, table_holds_record _ _ _ _ _ id rc Ht) as Hrec.
  destruct Ht as (Hw & r & fr & m & Hi & R & Hcap). unfold SelectWhere.
  apply wp_bind, wp_on_index. eapply wp_mono; [by apply (idx_RangeScan_law _ r fr m)|].
  cbn beta. intros o i (Hi' & l & -> & Hsort & Hl). cbn [app].
  assert (∀ e, e ∈ l → m !! e.1 = Some e.2) as Hm by (intros [k v] He; by apply Hl).
  assert (∀ e, e ∈ l → ∃ rc, c !! e.1 = Some rc ∧ rec_id rc = e.1) as Hids.
  { intros e He. destruct (rep_record _ _ _ _ R _ _ (Hm e He)) as (d & rc & _ & Hc & _ & Hid & _).
    by exists rc. }
  eapply wp_mono; [eapply SelectEntries_spec; [exact Hi'|done|exact R|exact Hm]|].
  cbn beta. intros rs t' (-> & Hi2 & Hw2). split; [|split; [done|by exists r, fr, m]].
  split.
  - apply sorted_filter_records. by rewrite entry_records_ids.
  - intros rc. cbn [app]. rewrite list_elem_of_filter. unfold entry_records.
    rewrite list_elem_of_omap. split.
    + intros (HP%Is_true_eq_true & e & He & Hc). destruct (Hids e He) as (rc' & Hc' & Hid).
      rewrite Hc in Hc'. injection Hc' as <-. by rewrite Hid.
    + intros [Hc HP]. split; [by rewrite HP|].
      destruct (m !! rec_id rc) as [p|] eqn:E; [|apply (rep_None _ _ _ _ _ R) in E; congruence].
      exists (rec_id rc, p). split; [|done]. apply Hl. split; [done|].
      destruct (Hrec _ _ Hc) as (_ & [[H1 H2] _] & _). unfold int64_min, int64_max. lia.
Qed.
End log.
