(* ===== verification/QuerySpec.v ===== *)
(** * The query engine is a durable map of records

    Programs of queries against the storage stack: their answers are those of
    a map from ids to records, and after a crash between two queries the log
    alone rebuilds the same map. *)

From S2P Require Export TableLog.
From S2P Require Import BPlusTreeSpec.

Local Open Scope Z_scope.

(** ** Queries and their meaning *)

Inductive query :=
  | QInsert (id : Z) (name : bytes) (value : Z)
  | QSelect (id : Z)
  | QSelectWhere (predicate : Record_ → bool)
  | QUpdate (id value : Z)
  | QDelete (id : Z).

Inductive answer :=
  | ABool (b : bool)
  | ARecord (r : option Record_)
  | ARecords (rs : list Record_).

(** The arguments are 64-bit integers. *)
Definition query_ok (q : query) : Prop :=
  match q with
  | QInsert id _ v | QUpdate id v => in_signed 64 id ∧ in_signed 64 v
  | QDelete id => in_signed 64 id
  | _ => True
  end.

Definition query_answer (q : query) (c : rows) (a : answer) : Prop :=
  match q with
  | QInsert id _ _ => a = ABool (bool_decide (c !! id = None))
  | QSelect id => a = ARecord (c !! id)
  | QSelectWhere P => ∃ rs, a = ARecords rs ∧ scan_result c P rs
  | QUpdate id _ | QDelete id => a = ABool (bool_decide (is_Some (c !! id)))
  end.

Definition query_after (q : query) (c : rows) : rows :=
  match q with
  | QInsert id name v =>
      if decide (c !! id = None) then <[id := stored_record (mkRecord id name v)]> c else c
  | QUpdate id v => alter (λ rc, mkRecord id (rec_name rc) v) id c
  | QDelete id => delete id c
  | _ => c
  end.

Definition queries_after (qs : list query) (c : rows) : rows :=
  foldl (λ c q, query_after q c) c qs.

Fixpoint query_answers (qs : list query) (c : rows) (answers : list answer) : Prop :=
  match qs, answers with
  | [], [] => True
  | q :: qs, a :: answers => query_answer q c a ∧ query_answers qs (query_after q c) answers
  | _, _ => False
  end.

Section queries.
Context {T : Type} `{IndexLaws T}.
Notation Tab := (Table T).
Implicit Types (t : Tab) (c : rows) (other : gmap Z bytes).

Definition run_query (q : query) : M Tab answer :=
  match q with
  | QInsert id name v => b ← QueryEngine.Insert id name v; mret (ABool b)
  | QSelect id => r ← QueryEngine.SelectById id; mret (ARecord r)
  | QSelectWhere P => rs ← QueryEngine.SelectWhere P; mret (ARecords rs)
  | QUpdate id v => b ← QueryEngine.UpdateValue id v; mret (ABool b)
  | QDelete id => b ← QueryEngine.DeleteById id; mret (ABool b)
  end.

Fixpoint run_queries (qs : list query) : M Tab (list answer) :=
  match qs with
  | [] => mret []
  | q :: qs => a ← run_query q; answers ← run_queries qs; mret (a :: answers)
  end.

Lemma SelectById_spec t cap other c w id :
  table_holds t cap other c w →
  wp (QueryEngine.SelectById id) t (λ o t', o = c !! id ∧ table_holds t' cap other c w).
Proof.
  intros Ht. unfold QueryEngine.SelectById. apply wp_bind.
  eapply wp_mono; [by apply Select_spec|]. cbn beta. intros o t' [-> Ht'].
  by destruct (c !! id); apply wp_ret.
Qed.

(** Setting the value keeps the stored name. *)
Lemma UpdateValue_spec lg t cap other c lim n id v :
  table_ok lg t cap other c lim (2 + n) → in_signed 64 id → in_signed 64 v →
  3 * Z.of_nat (size c) + 4 ≤ cap → 0 ≤ n →
  wp (QueryEngine.UpdateValue id v) t (λ b t', b = bool_decide (is_Some (c !! id)) ∧
    table_ok lg t' cap other (alter (λ rc, mkRecord id (rec_name rc) v) id c) lim n).
Proof.
  intros Hok Hid Hv Hcap Hn. destruct Hok as (w & Ht & Hrest).
  pose proof (λ rc, table_holds_record _ _ _ _ _ id rc Ht) as Hrec.
  unfold QueryEngine.UpdateValue. eapply wp_mono.
  - apply (Table_Update_spec lg t cap other c lim n id); [by exists w| |done|done].
    intros rc Hc. destruct (Hrec rc Hc) as (_ & [H1 _] & _). by split.
  - cbn beta. intros b t' [-> Ht']. split; [done|].
    replace (alter (λ rc, mkRecord id (rec_name rc) v) id c) with
      (alter (λ rc, stored_record (mkRecord id (rec_name rc) v)) id c); [done|].
    apply map_eq. intros j. rewrite !lookup_alter. case_decide; [subst j|done].
    destruct (c !! id) as [rc|] eqn:Hc; [|done]. simpl. f_equal.
    destruct (Hrec rc eq_refl) as (_ & _ & Hst). apply (f_equal rec_name) in Hst. simpl in Hst.
    unfold stored_record. simpl. by rewrite Hst.
Qed.

Lemma run_query_spec lg t cap other c lim n q :
  table_ok lg t cap other c lim (2 + n) → query_ok q → 3 * Z.of_nat (size c) + 4 ≤ cap → 0 ≤ n →
  wp (run_query q) t (λ a t', query_answer q c a ∧ table_ok lg t' cap other (query_after q c) lim n).
Proof.
  intros Hok Hq Hcap Hn.
  destruct q as [id name v|id|P|id v|id]; simpl in *; apply wp_bind.
  - eapply wp_mono; [apply (Table_Insert_spec lg t cap other c lim n (mkRecord id name v)); [done|apply Hq|done|done]|].
    cbn beta. simpl. intros b t' [-> Ht']. apply wp_ret. split; [done|].
    by destruct (decide (c !! id = None)); case_bool_decide.
  - apply (table_ok_weaken lg _ _ _ _ _ _ n) in Hok as (w & Ht & Hrest); [|lia].
    eapply wp_mono; [by apply SelectById_spec|]. cbn beta. intros o t' [-> Ht']. apply wp_ret.
    split; [done|]. by exists w.
  - apply (table_ok_weaken lg _ _ _ _ _ _ n) in Hok as (w & Ht & Hrest); [|lia].
    eapply wp_mono; [by apply Table_SelectWhere_spec|]. cbn beta. intros rs t' [Hrs Ht']. apply wp_ret.
    split; [by exists rs|]. by exists w.
  - destruct Hq. eapply wp_mono; [by apply UpdateValue_spec|]. cbn beta. intros b t' [-> Ht']. by apply wp_ret.
  - eapply wp_mono; [by apply Table_Delete_spec|]. cbn beta. intros b t' [-> Ht']. by apply wp_ret.
Qed.

Lemma size_query_after q c : (size (query_after q c) ≤ S (size c))%nat.
Proof.
  destruct q as [i name v|i|P|i v|i]; simpl; try lia.
  - case_decide as E; [|lia]. rewrite map_size_insert, E. simpl. lia.
  - rewrite <- !size_dom, dom_alter_L. lia.
  - rewrite map_size_delete. destruct (c !! i); simpl; lia.
Qed.

Lemma run_queries_spec qs : ∀ lg t cap other c lim n,
  table_ok lg t cap other c lim (2 * Z.of_nat (length qs) + n) → Forall query_ok qs →
  3 * Z.of_nat (size c + length qs) + 4 ≤ cap → 0 ≤ n →
  wp (run_queries qs) t (λ answers t', query_answers qs c answers ∧
    table_ok lg t' cap other (queries_after qs c) lim n).
Proof.
  induction qs as [|q qs IH]; intros lg t cap other c lim n Hok Hqs Hcap Hn; simpl.
  - by apply wp_ret.
  - apply Forall_cons in Hqs as [Hq Hqs]. simpl in Hok, Hcap. apply wp_bind.
    eapply wp_mono; [apply (run_query_spec lg t cap other c lim (2 * Z.of_nat (length qs) + n) q);
      [eapply table_ok_weaken; [done|lia]|done|lia|lia]|].
    cbn beta. intros a t1 [Ha Ht1]. apply wp_bind. pose proof (size_query_after q c).
    eapply wp_mono; [apply (IH lg t1 cap other _ lim n Ht1); [done|lia|done]|].
    cbn beta. intros answers t2 [Hans Ht2]. by apply wp_ret.
Qed.

(** An index that holds nothing, without a log or with a log that replays to
    nothing, is an empty table. *)
Lemma table_ok_empty lg i r fr w lim n :
  index_holds i r fr ∅ → logs lg w ∅ → wal_room w lim n → lim < 2 ^ 63 → 0 ≤ n →
  table_ok lg (mkTable i w) r fr ∅ lim n.
Proof.
  intros Hi Hl Hn Hlim Hn0. exists w. split_and!; try done. split; [done|].
  exists r, fr, ∅. split; [done|]. split; [apply rep_empty|]. rewrite map_size_empty. lia.
Qed.

(** ** Recovery *)

Lemma Recover_spec i r fr w rs :
  index_holds i r fr ∅ → ReadAllRecords w = (Ret rs, w) → Forall logged rs →
  3 * Z.of_nat (length rs) + 4 ≤ r →
  wp Recover (mkTable i (Some w)) (λ _ t', table_holds t' r fr (replay rs ∅) (Some w)).
Proof.
  intros Hi Hread Hrs Hcap. unfold Recover. apply wp_bind, wp_with_wal. simpl.
  eapply wp_eq; [exact Hread|]. apply replay_spec; [|done|by rewrite map_size_empty].
  split; [done|]. exists r, fr, ∅. split; [done|]. split; [apply rep_empty|].
  rewrite map_size_empty. lia.
Qed.

Lemma sorted_length (l : list Z) N :
  StronglySorted Z.lt l → Forall (λ x, 0 ≤ x < N) l → 0 ≤ N → Z.of_nat (length l) ≤ N.
Proof.
  intros Hs Hb HN. rewrite <- (Z2Nat.id N) by done. apply Nat2Z.inj_le. rewrite <- (length_seqZ 0 N).
  apply submseteq_length, NoDup_submseteq.
  - clear Hb. induction Hs as [|x l Hs IH Hx]; constructor; [|done].
    intros Hin. eapply Forall_forall in Hx; [|exact Hin]. lia.
  - intros x Hx. apply elem_of_seqZ. eapply Forall_forall in Hb; [|exact Hx]. simpl in Hb. lia.
Qed.

(** The log a crash leaves replays to the contents at the crash. *)
Lemma crashed_log lg w c n :
  logs lg (Some w) c → next_lsn_ w < 2 ^ 63 →
  ∃ w' rs, WALManager_new (Existing (crash_file n w)) true true true = Ret w' ∧
    ReadAllRecords w' = (Ret rs, w') ∧ Forall logged rs ∧ replay rs ∅ = c ∧
    Z.of_nat (length rs) ≤ next_lsn_ w.
Proof.
  intros (_ & s & p & Hw & Hlogged & <- & Hp) Hlim.
  destruct (crash_recover w s p n Hw Hlim) as (k & w' & Enew & Eread & _).
  exists w', (s ++ take k p). apply Forall_app in Hlogged as [Hls Hlp]. split_and!; try done.
  - apply Forall_app. split; [done|by apply Forall_take].
  - rewrite !replay_app, (replay_commits p), replay_commits; [done|by apply Forall_take|done].
  - assert (length (s ++ take k p) ≤ length (s ++ p))%nat by (rewrite !length_app, length_take; lia).
    rewrite <- (length_fmap lsn) in *. pose proof (wl_lsn _ _ _ Hw).
    assert (Z.of_nat (length (lsn <$> s ++ p)) ≤ next_lsn_ w); [|rewrite length_fmap in *; lia].
    apply sorted_length; [apply Hw| |lia]. apply Forall_fmap, (wl_below _ _ _ Hw).
Qed.

(** ** Properties *)

(** C5: the query engine, over any lawful index that is empty and with or without
    a log, answers a program of queries as a map from ids to records does:
    inserts, updates and deletes report what they did, selections return the
    stored record and scans the matching records in the order of their ids.
    Every call returns, no page of another owner changes, and every page of a
    deleted record is given back. *)
Theorem query_engine_correct lg i r fr w lim qs :
  index_holds i r fr ∅ → logs lg w ∅ → wal_room w lim (2 * Z.of_nat (length qs)) → lim < 2 ^ 63 →
  Forall query_ok qs → 3 * Z.of_nat (length qs) + 4 ≤ r →
  ∃ answers t', run_queries qs (mkTable i w) = (Ret answers, t') ∧ query_answers qs ∅ answers ∧
    ∃ w', table_holds t' r fr (queries_after qs ∅) w'.
Proof.
  intros Hi Hl Hn Hlim Hqs Hr.
  assert (table_ok lg (mkTable i w) r fr ∅ lim (2 * Z.of_nat (length qs) + 0)) as Hok.
  { apply (table_ok_empty lg); try done; [by rewrite Z.add_0_r|lia]. }
  destruct (proj1 (wp_run _ _ _) (run_queries_spec qs _ _ _ _ _ _ _ Hok Hqs ltac:(by rewrite map_size_empty) ltac:(done)))
    as (answers & t' & Hrun & Hans & w' & Ht' & _).
  exists answers, t'. split; [done|]. split; [done|]. by exists w'.
Qed.

(** C4: crash safety of the whole database.  Run a program of queries on an empty
    table with a new log, and crash after it, losing the tree, the buffer pool
    and any part of the log that was not flushed.  Reopening the log succeeds,
    [Recover] on an empty table returns, and the table then holds exactly the
    records it held before the crash, as [SelectById] shows. *)
Theorem query_crash_recovery i r fr qs :
  index_holds i r fr ∅ → Forall query_ok qs → 3 * Z.of_nat (length qs) + 4 ≤ r →
  2 * Z.of_nat (length qs) < 2 ^ 63 →
  ∃ answers t w, run_queries qs (mkTable i (Some fresh_wal)) = (Ret answers, t) ∧
    query_answers qs ∅ answers ∧ wal_manager_ t = Some w ∧
    ∀ n i' r' fr', index_holds i' r' fr' ∅ → 6 * Z.of_nat (length qs) + 4 ≤ r' →
      ∃ w' t', WALManager_new (Existing (crash_file n w)) true true true = Ret w' ∧
        Recover (mkTable i' (Some w')) = (Ret tt, t') ∧
        table_holds t' r' fr' (queries_after qs ∅) (Some w') ∧
        ∀ id, ∃ t2, QueryEngine.SelectById id t' = (Ret (queries_after qs ∅ !! id), t2).
Proof.
  intros Hi Hqs Hr Hlim. set (lim := 2 * Z.of_nat (length qs)) in *.
  assert (table_ok true (mkTable i (Some fresh_wal)) r fr ∅ lim (lim + 0)) as Hok.
  { apply (table_ok_empty true); try done; [|simpl; lia|lia]. apply fresh_logs. }
  destruct (proj1 (wp_run _ _ _) (run_queries_spec qs _ _ _ _ _ _ _ Hok Hqs ltac:(by rewrite map_size_empty) ltac:(done)))
    as (answers & t & Hrun & Hans & [w|] & Ht & Hl & Hn & _); [|done].
  exists answers, t, w. split_and!; [done|done|apply Ht|]. intros n i' r' fr' Hi' Hr'. simpl in Hn.
  destruct (crashed_log true w (queries_after qs ∅) n Hl) as (w' & rs & Enew & Eread & Hlog & Hrep & Hlen); [lia|].
  destruct (proj1 (wp_run _ _ _) (Recover_spec i' r' fr' w' rs Hi' Eread Hlog ltac:(lia)))
    as ([] & t' & Hrec & Ht').
  rewrite Hrep in Ht'. exists w', t'. split_and!; [done|done|done|]. intros id.
  destruct (proj1 (wp_run _ _ _) (SelectById_spec t' _ _ _ _ id Ht')) as (o & t2 & Hsel & -> & _).
  by exists t2.
Qed.
(** ** Inserts that fail *)







End queries.

Definition sample_queries : list query :=
  [QInsert 1 [x61; x6e; x6e] 10; QInsert 2 [x62] 20; QInsert 1 [x63] 30; QUpdate 1 11; QSelect 1;
   QDelete 2; QSelectWhere (λ r, 10 <? rec_value r)].

Lemma sample_queries_ok : Forall query_ok sample_queries.
Proof.
  repeat (apply Forall_cons; split); simpl; try done;
    repeat split; apply (bool_decide_unpack _); vm_compute; exact I.
Qed.

Lemma query_engine_correct_witness :
  ∃ answers t', run_queries sample_queries (mkTable fresh_tree (Some fresh_wal)) = (Ret answers, t') ∧
    query_answers sample_queries ∅ answers ∧
    ∃ w', table_holds t' int32_max (pages fresh_pool) (queries_after sample_queries ∅) w'.
Proof.
  apply (query_engine_correct true fresh_tree int32_max (pages fresh_pool) (Some fresh_wal) 100).
  - apply fresh_tree_holds.
  - apply fresh_logs.
  - by vm_compute.
  - done.
  - apply sample_queries_ok.
  - by vm_compute.
Defined.

Lemma query_crash_recovery_witness :
  ∃ answers t w, run_queries sample_queries (mkTable fresh_tree (Some fresh_wal)) = (Ret answers, t) ∧
    query_answers sample_queries ∅ answers ∧ wal_manager_ t = Some w ∧
    ∀ n (i' : BPlusTree BufferPoolManager) r' fr', index_holds i' r' fr' ∅ →
      6 * Z.of_nat (length sample_queries) + 4 ≤ r' →
      ∃ w' t', WALManager_new (Existing (crash_file n w)) true true true = Ret w' ∧
        Recover (mkTable i' (Some w')) = (Ret tt, t') ∧
        table_holds t' r' fr' (queries_after sample_queries ∅) (Some w') ∧
        ∀ id, ∃ t2, QueryEngine.SelectById id t' = (Ret (queries_after sample_queries ∅ !! id), t2).
Proof.
  apply (query_crash_recovery fresh_tree int32_max (pages fresh_pool)).
  - apply fresh_tree_holds.
  - apply sample_queries_ok.
  - by vm_compute.
  - by vm_compute.
Defined.


