(* ===== verification/StateMachine.v ===== *)
(** * The replicated state machine (src/raft/state_machine.{h,cpp})

    Committed commands applied to the query engine, each log index at most
    once.  Replicas that are given the same committed log, with whatever
    repetitions, hold the same records. *)

From S2P Require Export QuerySpec RaftCommand.
From S2P Require Import BPlusTreeSpec.

Local Open Scope Z_scope.

Record RaftStateMachine (T : Type) := mkStateMachine {
  engine_ : option (Table T);
  last_applied_index_ : Z;
}.
Arguments mkStateMachine {T} _ _.
Arguments engine_ {T} _.
Arguments last_applied_index_ {T} _.

Section StateMachine.
Context {T : Type} `{Index T}.
Notation SM := (RaftStateMachine T).

Definition RaftStateMachine_new (engine : option (Table T)) : SM := mkStateMachine engine 0.

Definition set_last_applied (n : Z) (s : SM) : SM := mkStateMachine (engine_ s) n.

(** [if (engine_) { m }] *)
Definition with_engine (m : M (Table T) unit) : M SM unit := λ s,
  match engine_ s with
  | None => (Ret tt, s)
  | Some e => let '(o, e') := m e in (o, mkStateMachine (Some e') (last_applied_index_ s))
  end.

Definition ApplyCommand (cmd : RaftCommand) : M (Table T) unit :=
  match cmd_type cmd with
  | CommandType.INSERT => QueryEngine.Insert (cmd_id cmd) (cmd_name cmd) (cmd_value cmd) ;; mret tt
  | CommandType.UPDATE_VALUE => QueryEngine.UpdateValue (cmd_id cmd) (cmd_value cmd) ;; mret tt
  | CommandType.DELETE => QueryEngine.DeleteById (cmd_id cmd) ;; mret tt
  | CommandType.UNNAMED _ => mret tt
  end.

Definition Apply (serialized_command : bytes) (log_index : Z) : M SM unit :=
  last ← gets last_applied_index_;
  if log_index <=? last then mret tt else
  cmd ← lift (Deserialize serialized_command);
  with_engine (ApplyCommand cmd) ;;
  modify (set_last_applied log_index).

Definition GetLastAppliedIndex : M SM Z := gets last_applied_index_.

Definition ApplyAll (ds : list (bytes * Z)) : M SM unit :=
  for_each ds (λ d, Apply (fst d) (snd d)).
End StateMachine.

(** ** What the commands do to a map *)

Definition command_query (cmd : RaftCommand) : option query :=
  match cmd_type cmd with
  | CommandType.INSERT => Some (QInsert (cmd_id cmd) (cmd_name cmd) (cmd_value cmd))
  | CommandType.UPDATE_VALUE => Some (QUpdate (cmd_id cmd) (cmd_value cmd))
  | CommandType.DELETE => Some (QDelete (cmd_id cmd))
  | CommandType.UNNAMED _ => None
  end.

(** The effect of a serialized command, which always parses to some command. *)
Definition command_after (bs : bytes) (c : rows) : rows :=
  match Deserialize bs with
  | Ret cmd => match command_query cmd with Some q => query_after q c | None => c end
  | _ => c
  end.

Definition commands_after (log : list bytes) (c : rows) : rows :=
  foldl (λ c bs, command_after bs c) c log.

(** [deliveries n log ds]: after index [n], the list [ds] hands the commands of
    [log] over in order, from index [n + 1] on, repeating old indices at will. *)
Inductive deliveries : Z → list bytes → list (bytes * Z) → Prop :=
  | deliveries_nil n : deliveries n [] []
  | deliveries_next n bs log ds :
      deliveries (n + 1) log ds → deliveries n (bs :: log) ((bs, n + 1) :: ds)
  | deliveries_again n log ds bs i :
      i ≤ n → deliveries n log ds → deliveries n log ((bs, i) :: ds).

Section spec.
Context {T : Type} `{IndexLaws T}.
Notation SM := (RaftStateMachine T).

(** The engine's table holds [c], and [last] is the last index applied. *)
Definition sm_ok (s : SM) cap other c lg (lim n : Z) (last : Z) : Prop :=
  last_applied_index_ s = last ∧
  ∃ e, engine_ s = Some e ∧ table_ok lg e cap other c lim n.

Lemma ApplyCommand_spec (e : Table T) cap other c lg lim n bs cmd :
  Deserialize bs = Ret cmd → table_ok lg e cap other c lim (2 + n) →
  3 * Z.of_nat (size c) + 4 ≤ cap → 0 ≤ n →
  wp (ApplyCommand cmd) e (λ _ e', table_ok lg e' cap other (command_after bs c) lim n).
Proof.
  intros Hd Ht Hcap Hn. destruct (Deserialize_total bs) as (cmd' & Hd' & Hid & Hv).
  rewrite Hd in Hd'. injection Hd' as <-.
  assert (∀ q, command_query cmd = Some q → query_ok q) as Hq.
  { unfold command_query. intros q. by destruct (cmd_type cmd); intros [= <-]. }
  unfold command_after. rewrite Hd. unfold command_query, ApplyCommand in *.
  destruct (cmd_type cmd).
  4: { apply wp_ret. eapply table_ok_weaken; [done|lia]. }
  all: pose proof (run_query_spec lg e cap other c lim n _ Ht (Hq _ eq_refl) Hcap Hn) as Hs;
    apply wp_bind_inv in Hs; apply wp_bind; eapply wp_mono; [exact Hs|];
    intros b e' [_ He']; by apply wp_ret.
Qed.

Lemma size_command_after bs c : (size (command_after bs c) ≤ Datatypes.S (size c))%nat.
Proof.
  unfold command_after. destruct (Deserialize bs) as [cmd| | |]; try lia.
  destruct (command_query cmd) as [q|]; [apply size_query_after|lia].
Qed.

Lemma wp_with_engine (m : M (Table T) unit) (s : SM) e (Q : unit → SM → Prop) :
  engine_ s = Some e →
  wp m e (λ a e', Q a (mkStateMachine (Some e') (last_applied_index_ s))) → wp (with_engine m) s Q.
Proof. unfold wp, with_engine. intros ->. by destruct (m e) as [[a| | |] e']. Qed.

(** An index already applied is skipped. *)
Lemma Apply_old s bs i : i ≤ last_applied_index_ s → Apply bs i s = (Ret tt, s).
Proof.
  intros Hi. unfold Apply, mbind, M_bind, gets. by rewrite (proj2 (Z.leb_le _ _)) by done.
Qed.

Lemma Apply_spec s cap other c lg lim n last bs i :
  sm_ok s cap other c lg lim (2 + n) last → last < i → 3 * Z.of_nat (size c) + 4 ≤ cap → 0 ≤ n →
  wp (Apply bs i) s (λ _ s', sm_ok s' cap other (command_after bs c) lg lim n i).
Proof.
  intros (Hlast & e & He & Ht) Hi Hcap Hn. unfold Apply. apply wp_bind, wp_gets.
  rewrite Hlast, (proj2 (Z.leb_gt _ _)) by done.
  destruct (Deserialize_total bs) as (cmd & Hd & _). rewrite Hd. apply wp_bind, wp_lift, wp_bind.
  eapply wp_with_engine; [exact He|]. eapply wp_mono; [by eapply ApplyCommand_spec|].
  cbn beta. intros _ e' He'. apply wp_modify. split; [done|]. by exists e'.
Qed.

Lemma ApplyAll_spec ds log last : deliveries last log ds → ∀ s cap other c lg lim n,
  sm_ok s cap other c lg lim (2 * Z.of_nat (length log) + n) last →
  3 * Z.of_nat (size c + length log) + 4 ≤ cap → 0 ≤ n →
  wp (ApplyAll ds) s (λ _ s', sm_ok s' cap other (commands_after log c) lg lim n
    (last + Z.of_nat (length log))).
Proof.
  unfold ApplyAll. induction 1 as [last|last bs log ds _ IH|last log ds bs i Hi _ IH];
    intros s cap other c lg lim n Hs Hcap Hn; simpl in *.
  - apply wp_ret. by rewrite Z.add_0_r.
  - apply wp_bind. eapply wp_mono.
    + apply (Apply_spec s cap other c lg lim (2 * Z.of_nat (length log) + n) last); [|lia|lia|lia].
      destruct Hs as (Hl & e & He & Ht). split; [done|]. exists e. split; [done|].
      eapply table_ok_weaken; [done|lia].
    + cbn beta. intros _ s1 Hs1. pose proof (size_command_after bs c).
      eapply wp_mono; [apply IH; [exact Hs1|lia|done]|]. cbn beta. intros _ s2 Hs2.
      by replace (last + Z.of_nat (Datatypes.S (length log))) with (last + 1 + Z.of_nat (length log)) by lia.
  - apply wp_bind. eapply wp_eq; [apply Apply_old; destruct Hs as [-> _]; done|]. by apply IH.
Qed.

(** The database behind a state machine answers [SelectById] as [c] does. *)
Definition answers_as (s : SM) (c : rows) : Prop :=
  ∃ e, engine_ s = Some e ∧ ∀ id, fst (QueryEngine.SelectById id e) = Ret (c !! id).

Lemma ApplyAll_fresh log ds (i : T) r fr :
  deliveries 0 log ds → index_holds i r fr ∅ → 3 * Z.of_nat (length log) + 4 ≤ r →
  2 * Z.of_nat (length log) < 2 ^ 63 →
  ∃ s, ApplyAll ds (RaftStateMachine_new (Some (mkTable i (Some fresh_wal)))) = (Ret tt, s) ∧
    last_applied_index_ s = Z.of_nat (length log) ∧ answers_as s (commands_after log ∅).
Proof.
  intros Hd Hi Hr Hlim. set (lim := 2 * Z.of_nat (length log)) in *.
  set (s0 := RaftStateMachine_new (Some (mkTable i (Some fresh_wal)))).
  assert (sm_ok s0 r fr ∅ true lim (lim + 0) 0) as Hs.
  { split; [done|]. eexists. split; [done|]. apply (table_ok_empty true); try done; [|simpl; lia|lia].
    apply fresh_logs. }
  destruct (proj1 (wp_run _ _ _) (ApplyAll_spec ds log 0 Hd s0 r fr ∅ true lim 0 Hs
    ltac:(by rewrite map_size_empty) ltac:(done))) as ([] & s & Hrun & Hlast & e & He & w & Ht & _).
  exists s. split_and!; [done|by rewrite Hlast|]. exists e. split; [done|]. intros id.
  destruct (proj1 (wp_run _ _ _) (SelectById_spec e _ _ _ _ id Ht)) as (o & t2 & Hsel & -> & _).
  by rewrite Hsel.
Qed.
End spec.

(** ** Properties *)

Section replicas.
Context {T1 T2 : Type} `{IndexLaws T1} `{IndexLaws T2}.

(** C7: state machine safety.  Two replicas with empty tables on any lawful
    storage are handed the same committed log of serialized commands, in order
    but with arbitrary repetitions of indices already handed over, the
    repetitions differing between the replicas.  Every [Apply] returns, both
    end at the last index of the log, and both answer every query for an id as
    the map obtained by executing the log once, whatever bytes the log holds. *)
Theorem replicas_agree log ds1 ds2 (i1 : T1) (i2 : T2) r1 r2 fr1 fr2 :
  deliveries 0 log ds1 → deliveries 0 log ds2 →
  index_holds i1 r1 fr1 ∅ → index_holds i2 r2 fr2 ∅ →
  3 * Z.of_nat (length log) + 4 ≤ r1 → 3 * Z.of_nat (length log) + 4 ≤ r2 →
  2 * Z.of_nat (length log) < 2 ^ 63 →
  ∃ s1 s2,
    ApplyAll ds1 (RaftStateMachine_new (Some (mkTable i1 (Some fresh_wal)))) = (Ret tt, s1) ∧
    ApplyAll ds2 (RaftStateMachine_new (Some (mkTable i2 (Some fresh_wal)))) = (Ret tt, s2) ∧
    last_applied_index_ s1 = Z.of_nat (length log) ∧ last_applied_index_ s2 = Z.of_nat (length log) ∧
    answers_as s1 (commands_after log ∅) ∧ answers_as s2 (commands_after log ∅).
Proof.
  intros Hd1 Hd2 Hi1 Hi2 Hr1 Hr2 Hlim.
  destruct (ApplyAll_fresh log ds1 i1 r1 fr1) as (s1 & E1 & L1 & A1); try done.
  destruct (ApplyAll_fresh log ds2 i2 r2 fr2) as (s2 & E2 & L2 & A2); try done.
  by exists s1, s2.
Qed.
End replicas.

Definition insert_command : bytes := command_bytes (mkRaftCommand CommandType.INSERT 5 [x61] 50).
Definition delete_command : bytes := command_bytes (mkRaftCommand CommandType.DELETE 5 [] 0).

Lemma replicas_agree_witness :
  let log := [insert_command; delete_command; []] in
  let ds1 := [(insert_command, 1); (delete_command, 2); ([], 3)] in
  let ds2 := [(insert_command, 1); (insert_command, 1); (delete_command, 2); (insert_command, 1); ([], 3)] in
  let s0 := RaftStateMachine_new (Some (mkTable fresh_tree (Some fresh_wal))) in
  ∃ s1 s2, ApplyAll ds1 s0 = (Ret tt, s1) ∧ ApplyAll ds2 s0 = (Ret tt, s2) ∧
    last_applied_index_ s1 = 3 ∧ last_applied_index_ s2 = 3 ∧
    answers_as s1 (commands_after log ∅) ∧ answers_as s2 (commands_after log ∅).
Proof.
  apply (replicas_agree [insert_command; delete_command; []] _ _ fresh_tree fresh_tree
           int32_max int32_max (pages fresh_pool) (pages fresh_pool)).
  - repeat constructor.
  - apply deliveries_next, deliveries_again; [done|].
    apply deliveries_next, deliveries_again; [done|]. repeat constructor.
  - apply fresh_tree_holds.
  - apply fresh_tree_holds.
  - by vm_compute.
  - by vm_compute.
  - by vm_compute.
Defined.
