(* ===== verification/RaftNode.v ===== *)
(** * A Raft node (src/raft/raft_node.{h,cpp})

    The state of [RaftNode] and its handlers, each of which holds the node's
    mutex while it runs.  The commit callback works on an environment of type
    [E] that the node carries along.  The clock and the generator of election
    timeouts are two fields the environment sets: the time now, and the next
    timeout the generator will give.  A spawned RPC thread is an [RpcCall]:
    whom it calls with what, and what it does with the reply. *)

From S2P Require Export LogEntry RpcMessage.

Local Open Scope Z_scope.

Module RaftState.
Inductive t := FOLLOWER | CANDIDATE | LEADER.
#[global] Instance eq_dec : EqDecision t.
Proof. solve_decision. Defined.
End RaftState.

Record RaftNode (E : Type) := mkRaftNode {
  node_id_ : Z;
  peers_ : list (Z * bytes);
  listen_port_ : Z;
  cluster_size_ : nat;
  current_term_ : Z;
  voted_for_ : Z;
  state_ : RaftState.t;
  leader_id_ : Z;
  votes_received_ : gset Z;
  election_deadline_ : Z;
  next_heartbeat_ : Z;
  log_ : list LogEntry;
  commit_index_ : Z;
  last_applied_ : Z;
  next_index_ : gmap Z Z;
  match_index_ : gmap Z Z;
  on_commit_ : option (bytes → Z → M E unit);
  running_ : bool;
  clock_ : Z;
  draw_ : Z;
  env_ : E;
}.
Arguments mkRaftNode {E}.
Arguments node_id_ {E} _.
Arguments peers_ {E} _.
Arguments listen_port_ {E} _.
Arguments cluster_size_ {E} _.
Arguments current_term_ {E} _.
Arguments voted_for_ {E} _.
Arguments state_ {E} _.
Arguments leader_id_ {E} _.
Arguments votes_received_ {E} _.
Arguments election_deadline_ {E} _.
Arguments next_heartbeat_ {E} _.
Arguments log_ {E} _.
Arguments commit_index_ {E} _.
Arguments last_applied_ {E} _.
Arguments next_index_ {E} _.
Arguments match_index_ {E} _.
Arguments on_commit_ {E} _.
Arguments running_ {E} _.
Arguments clock_ {E} _.
Arguments draw_ {E} _.
Arguments env_ {E} _.

Section RaftNode.
Context {E : Type}.

Definition node_set_term (v : Z) (n : RaftNode E) : RaftNode E :=
  mkRaftNode (node_id_ n) (peers_ n) (listen_port_ n) (cluster_size_ n) v (voted_for_ n) (state_ n)
    (leader_id_ n) (votes_received_ n) (election_deadline_ n) (next_heartbeat_ n) (log_ n)
    (commit_index_ n) (last_applied_ n) (next_index_ n) (match_index_ n) (on_commit_ n) (running_ n)
    (clock_ n) (draw_ n) (env_ n).
Definition node_set_voted (v : Z) (n : RaftNode E) : RaftNode E :=
  mkRaftNode (node_id_ n) (peers_ n) (listen_port_ n) (cluster_size_ n) (current_term_ n) v
    (state_ n) (leader_id_ n) (votes_received_ n) (election_deadline_ n) (next_heartbeat_ n)
    (log_ n) (commit_index_ n) (last_applied_ n) (next_index_ n) (match_index_ n) (on_commit_ n)
    (running_ n) (clock_ n) (draw_ n) (env_ n).
Definition node_set_state (v : RaftState.t) (n : RaftNode E) : RaftNode E :=
  mkRaftNode (node_id_ n) (peers_ n) (listen_port_ n) (cluster_size_ n) (current_term_ n)
    (voted_for_ n) v (leader_id_ n) (votes_received_ n) (election_deadline_ n) (next_heartbeat_ n)
    (log_ n) (commit_index_ n) (last_applied_ n) (next_index_ n) (match_index_ n) (on_commit_ n)
    (running_ n) (clock_ n) (draw_ n) (env_ n).
Definition node_set_leader (v : Z) (n : RaftNode E) : RaftNode E :=
  mkRaftNode (node_id_ n) (peers_ n) (listen_port_ n) (cluster_size_ n) (current_term_ n)
    (voted_for_ n) (state_ n) v (votes_received_ n) (election_deadline_ n) (next_heartbeat_ n)
    (log_ n) (commit_index_ n) (last_applied_ n) (next_index_ n) (match_index_ n) (on_commit_ n)
    (running_ n) (clock_ n) (draw_ n) (env_ n).
Definition node_set_votes (v : gset Z) (n : RaftNode E) : RaftNode E :=
  mkRaftNode (node_id_ n) (peers_ n) (listen_port_ n) (cluster_size_ n) (current_term_ n)
    (voted_for_ n) (state_ n) (leader_id_ n) v (election_deadline_ n) (next_heartbeat_ n) (log_ n)
    (commit_index_ n) (last_applied_ n) (next_index_ n) (match_index_ n) (on_commit_ n) (running_ n)
    (clock_ n) (draw_ n) (env_ n).
Definition node_set_deadline (v : Z) (n : RaftNode E) : RaftNode E :=
  mkRaftNode (node_id_ n) (peers_ n) (listen_port_ n) (cluster_size_ n) (current_term_ n)
    (voted_for_ n) (state_ n) (leader_id_ n) (votes_received_ n) v (next_heartbeat_ n) (log_ n)
    (commit_index_ n) (last_applied_ n) (next_index_ n) (match_index_ n) (on_commit_ n) (running_ n)
    (clock_ n) (draw_ n) (env_ n).
Definition node_set_heartbeat (v : Z) (n : RaftNode E) : RaftNode E :=
  mkRaftNode (node_id_ n) (peers_ n) (listen_port_ n) (cluster_size_ n) (current_term_ n)
    (voted_for_ n) (state_ n) (leader_id_ n) (votes_received_ n) (election_deadline_ n) v (log_ n)
    (commit_index_ n) (last_applied_ n) (next_index_ n) (match_index_ n) (on_commit_ n) (running_ n)
    (clock_ n) (draw_ n) (env_ n).
Definition node_set_log (v : list LogEntry) (n : RaftNode E) : RaftNode E :=
  mkRaftNode (node_id_ n) (peers_ n) (listen_port_ n) (cluster_size_ n) (current_term_ n)
    (voted_for_ n) (state_ n) (leader_id_ n) (votes_received_ n) (election_deadline_ n)
    (next_heartbeat_ n) v (commit_index_ n) (last_applied_ n) (next_index_ n) (match_index_ n)
    (on_commit_ n) (running_ n) (clock_ n) (draw_ n) (env_ n).
Definition node_set_commit (v : Z) (n : RaftNode E) : RaftNode E :=
  mkRaftNode (node_id_ n) (peers_ n) (listen_port_ n) (cluster_size_ n) (current_term_ n)
    (voted_for_ n) (state_ n) (leader_id_ n) (votes_received_ n) (election_deadline_ n)
    (next_heartbeat_ n) (log_ n) v (last_applied_ n) (next_index_ n) (match_index_ n) (on_commit_ n)
    (running_ n) (clock_ n) (draw_ n) (env_ n).
Definition node_set_applied (v : Z) (n : RaftNode E) : RaftNode E :=
  mkRaftNode (node_id_ n) (peers_ n) (listen_port_ n) (cluster_size_ n) (current_term_ n)
    (voted_for_ n) (state_ n) (leader_id_ n) (votes_received_ n) (election_deadline_ n)
    (next_heartbeat_ n) (log_ n) (commit_index_ n) v (next_index_ n) (match_index_ n) (on_commit_ n)
    (running_ n) (clock_ n) (draw_ n) (env_ n).
Definition node_set_next (v : gmap Z Z) (n : RaftNode E) : RaftNode E :=
  mkRaftNode (node_id_ n) (peers_ n) (listen_port_ n) (cluster_size_ n) (current_term_ n)
    (voted_for_ n) (state_ n) (leader_id_ n) (votes_received_ n) (election_deadline_ n)
    (next_heartbeat_ n) (log_ n) (commit_index_ n) (last_applied_ n) v (match_index_ n)
    (on_commit_ n) (running_ n) (clock_ n) (draw_ n) (env_ n).
Definition node_set_match (v : gmap Z Z) (n : RaftNode E) : RaftNode E :=
  mkRaftNode (node_id_ n) (peers_ n) (listen_port_ n) (cluster_size_ n) (current_term_ n)
    (voted_for_ n) (state_ n) (leader_id_ n) (votes_received_ n) (election_deadline_ n)
    (next_heartbeat_ n) (log_ n) (commit_index_ n) (last_applied_ n) (next_index_ n) v
    (on_commit_ n) (running_ n) (clock_ n) (draw_ n) (env_ n).
Definition node_set_callback (v : option (bytes → Z → M E unit)) (n : RaftNode E) : RaftNode E :=
  mkRaftNode (node_id_ n) (peers_ n) (listen_port_ n) (cluster_size_ n) (current_term_ n)
    (voted_for_ n) (state_ n) (leader_id_ n) (votes_received_ n) (election_deadline_ n)
    (next_heartbeat_ n) (log_ n) (commit_index_ n) (last_applied_ n) (next_index_ n)
    (match_index_ n) v (running_ n) (clock_ n) (draw_ n) (env_ n).
Definition node_set_running (v : bool) (n : RaftNode E) : RaftNode E :=
  mkRaftNode (node_id_ n) (peers_ n) (listen_port_ n) (cluster_size_ n) (current_term_ n)
    (voted_for_ n) (state_ n) (leader_id_ n) (votes_received_ n) (election_deadline_ n)
    (next_heartbeat_ n) (log_ n) (commit_index_ n) (last_applied_ n) (next_index_ n)
    (match_index_ n) (on_commit_ n) v (clock_ n) (draw_ n) (env_ n).
Definition node_set_clock (v : Z) (n : RaftNode E) : RaftNode E :=
  mkRaftNode (node_id_ n) (peers_ n) (listen_port_ n) (cluster_size_ n) (current_term_ n)
    (voted_for_ n) (state_ n) (leader_id_ n) (votes_received_ n) (election_deadline_ n)
    (next_heartbeat_ n) (log_ n) (commit_index_ n) (last_applied_ n) (next_index_ n)
    (match_index_ n) (on_commit_ n) (running_ n) v (draw_ n) (env_ n).
Definition node_set_draw (v : Z) (n : RaftNode E) : RaftNode E :=
  mkRaftNode (node_id_ n) (peers_ n) (listen_port_ n) (cluster_size_ n) (current_term_ n)
    (voted_for_ n) (state_ n) (leader_id_ n) (votes_received_ n) (election_deadline_ n)
    (next_heartbeat_ n) (log_ n) (commit_index_ n) (last_applied_ n) (next_index_ n)
    (match_index_ n) (on_commit_ n) (running_ n) (clock_ n) v (env_ n).
Definition node_set_env (v : E) (n : RaftNode E) : RaftNode E :=
  mkRaftNode (node_id_ n) (peers_ n) (listen_port_ n) (cluster_size_ n) (current_term_ n)
    (voted_for_ n) (state_ n) (leader_id_ n) (votes_received_ n) (election_deadline_ n)
    (next_heartbeat_ n) (log_ n) (commit_index_ n) (last_applied_ n) (next_index_ n)
    (match_index_ n) (on_commit_ n) (running_ n) (clock_ n) (draw_ n) v.

(** The constructor: term 0, nobody voted for, a log with one empty entry. *)
Definition RaftNode_new (node_id : Z) (peers : list (Z * bytes)) (listen_port : Z)
    (now draw : Z) (env : E) : RaftNode E :=
  mkRaftNode node_id peers listen_port (length peers + 1) 0 (-1) RaftState.FOLLOWER (-1) ∅ 0 0
    [mkLogEntry 0 0 []] 0 0 ∅ ∅ None false now draw env.

Notation Node := (RaftNode E).

Definition ResetElectionDeadlineLocked : M Node unit :=
  modify (λ n, node_set_deadline (clock_ n + draw_ n) n).

(** ** Accessors and configuration *)

Definition GetState : M Node RaftState.t := gets state_.
Definition GetCurrentTerm : M Node Z := gets current_term_.
Definition GetLog : M Node (list LogEntry) := gets log_.
Definition GetCommitIndex : M Node Z := gets commit_index_.

Definition SetOnCommitCallback (callback : option (bytes → Z → M E unit)) : M Node unit :=
  modify (node_set_callback callback).

Definition Propose (command : bytes) : M Node bool :=
  state ← gets state_;
  if negb (bool_decide (state = RaftState.LEADER)) then mret false else
  modify (λ n, node_set_log
    (log_ n ++ [mkLogEntry (current_term_ n) (Z.of_nat (length (log_ n))) command]) n) ;;
  mret true.

(** ** Applying committed entries *)

Definition on_env {A} (m : M E A) : M Node A := zoom env_ node_set_env m.

Fixpoint ApplyLoop (fuel : nat) : M Node unit :=
  match fuel with
  | O => diverge
  | S fuel =>
      applied ← gets last_applied_;
      commit ← gets commit_index_;
      if applied <? commit then
        let applied := applied + 1 in
        modify (node_set_applied applied) ;;
        callback ← gets on_commit_;
        (match callback with
         | None => mret tt
         | Some f =>
             log ← gets log_;
             entry ← at_z log applied;
             on_env (f (entry_command entry) applied)
         end) ;;
        ApplyLoop fuel
      else mret tt
  end.

(** Each round applies one entry, so the gap to the commit index bounds them. *)
Definition ApplyCommittedEntriesLocked : M Node unit :=
  gap ← gets (λ n, commit_index_ n - last_applied_ n);
  ApplyLoop (S (Z.to_nat gap)).

(** [match_index_[id]] and [next_index_[id]]: a missing key reads as 0. *)
Definition index_of (m : gmap Z Z) (id : Z) : Z := default 0 (m !! id).

Definition match_count (n : Node) (index : Z) : nat :=
  S (length (filter (λ peer, index ≤ index_of (match_index_ n) (fst peer)) (peers_ n))).

(** The loop from the last entry down to the commit index. *)
Fixpoint AdvanceLoop (fuel : nat) (index : Z) : M Node unit :=
  match fuel with
  | O => diverge
  | S fuel =>
      commit ← gets commit_index_;
      if index <=? commit then mret tt else
      log ← gets log_;
      entry ← at_z log index;
      n ← gets id;
      if (entry_term entry =? current_term_ n)
         && bool_decide (Nat.div (cluster_size_ n) 2 < match_count n index)%nat then
        modify (node_set_commit index) ;;
        ApplyCommittedEntriesLocked
      else AdvanceLoop fuel (index - 1)
  end.

Definition AdvanceCommitIndexLocked : M Node unit :=
  size ← gets (λ n, length (log_ n));
  commit ← gets commit_index_;
  AdvanceLoop (S (Z.to_nat (Z.of_nat size - 1 - commit))) (Z.of_nat size - 1).

(** ** Requests *)

Definition vote_payload (granted : bool) : bytes := if granted then [x31] else [x30].

(** [voted_for_ = -1; state_ = FOLLOWER; leader_id_ = -1] in a new term. *)
Definition StepDown (term : Z) : M Node unit :=
  modify (node_set_term term) ;;
  modify (node_set_voted (-1)) ;;
  modify (node_set_state RaftState.FOLLOWER) ;;
  modify (node_set_leader (-1)).

Definition HandleRequestVote (candidate_term candidate_id : Z) : M Node RpcMessage :=
  current ← gets current_term_;
  vote_granted ←
    (if current <=? candidate_term then
       when (current <? candidate_term) (StepDown candidate_term) ;;
       ResetElectionDeadlineLocked ;;
       voted_for ← gets voted_for_;
       if (voted_for =? -1) || (voted_for =? candidate_id) then
         modify (node_set_voted candidate_id) ;;
         modify (node_set_state RaftState.FOLLOWER) ;;
         modify (node_set_leader (-1)) ;;
         mret true
       else mret false
     else mret false);
  n ← gets id;
  mret (mkRpcMessage REQUEST_VOTE_REPLY (current_term_ n) (node_id_ n) (vote_payload vote_granted)).

(** The loop over the received entries; [index] is the position of the last
    entry handled. *)
Fixpoint MergeEntries (es : list LogEntry) (index : Z) : M Node unit :=
  match es with
  | [] => mret tt
  | entry :: es =>
      let index := index + 1 in
      log ← gets log_;
      (if index <? Z.of_nat (length log) then
         old ← at_z log index;
         when (negb (entry_term old =? entry_term entry))
           (modify (node_set_log (take (Z.to_nat index) log ++ [entry])))
       else modify (node_set_log (log ++ [entry]))) ;;
      MergeEntries es index
  end.

Definition HandleAppendEntries (term leader_id prev_log_index prev_log_term leader_commit : Z)
    (es : list LogEntry) : M Node RpcMessage :=
  current ← gets current_term_;
  success ←
    (if current <=? term then
       when (current <? term)
         (modify (node_set_term term) ;; modify (node_set_voted (-1))) ;;
       modify (node_set_state RaftState.FOLLOWER) ;;
       modify (node_set_leader leader_id) ;;
       ResetElectionDeadlineLocked ;;
       log ← gets log_;
       matches ←
         (if prev_log_index <? Z.of_nat (length log) then
            prev ← at_z log prev_log_index;
            mret (entry_term prev =? prev_log_term)
          else mret false);
       if matches : bool then
         MergeEntries es prev_log_index ;;
         commit ← gets commit_index_;
         when (commit <? leader_commit) (
           let last_new_index := prev_log_index + Z.of_nat (length es) in
           modify (node_set_commit (Z.min leader_commit last_new_index)) ;;
           ApplyCommittedEntriesLocked) ;;
         mret true
       else mret false
     else mret false);
  n ← gets id;
  mret (mkRpcMessage APPEND_ENTRIES_REPLY (current_term_ n) (node_id_ n) (vote_payload success)).

Definition AppendEntriesArgs_init : AppendEntriesArgs := mkAppendEntriesArgs 0 0 0 [].

Definition HandleMessage (message : RpcMessage) : M Node RpcMessage :=
  let pong :=
    term ← GetCurrentTerm;
    node_id ← gets node_id_;
    mret (mkRpcMessage PONG term node_id []) in
  match rpc_type message with
  | REQUEST_VOTE => HandleRequestVote (rpc_term message) (rpc_sender_id message)
  | APPEND_ENTRIES =>
      '(ok, args) ← lift (DeserializeAppendEntriesPayload (rpc_payload message)
                            (Some AppendEntriesArgs_init));
      match ok, args with
      | true, Some args =>
          HandleAppendEntries (rpc_term message) (rpc_sender_id message) (prev_log_index args)
            (prev_log_term args) (leader_commit args) (entries args)
      | _, _ => pong
      end
  | _ => pong
  end.

(** ** Elections and heartbeats *)

(** A thread of [rpc_threads_]: the peer, its address, the request, and what the
    reply is matched with. *)
Inductive RpcCall :=
  | VoteCall (peer : Z) (address : bytes) (request : RpcMessage) (election_term : Z)
  | AppendCall (peer : Z) (address : bytes) (request : RpcMessage) (last_new_index : Z).

(** [args] for one peer, read off the leader's log. *)
Definition HeartbeatArgs (leader_commit : Z) (peer : Z * bytes) : M Node AppendEntriesArgs :=
  n ← gets id;
  let next := index_of (next_index_ n) (fst peer) in
  prev ← at_z (log_ n) (next - 1);
  mret (mkAppendEntriesArgs (next - 1) (entry_term prev) leader_commit
          (drop (Z.to_nat next) (log_ n))).

Fixpoint HeartbeatCalls (peers : list (Z * bytes)) : M Node (list RpcCall) :=
  match peers with
  | [] => mret []
  | peer :: peers =>
      n ← gets id;
      args ← HeartbeatArgs (commit_index_ n) peer;
      payload ← lift (SerializeAppendEntriesPayload args);
      calls ← HeartbeatCalls peers;
      mret (AppendCall (fst peer) (snd peer)
              (mkRpcMessage APPEND_ENTRIES (current_term_ n) (node_id_ n) payload)
              (prev_log_index args + Z.of_nat (length (entries args))) :: calls)
  end.

Definition SendHeartbeats : M Node (list RpcCall) :=
  n ← gets id;
  if negb (running_ n) || negb (bool_decide (state_ n = RaftState.LEADER)) then mret [] else
  HeartbeatCalls (peers_ n).

(** What both ways of winning an election do. *)
Definition BecomeLeader : M Node unit :=
  modify (node_set_state RaftState.LEADER) ;;
  modify (λ n, node_set_leader (node_id_ n) n) ;;
  modify (λ n, node_set_heartbeat (clock_ n) n) ;;
  modify (λ n, node_set_next
    (foldl (λ m peer, <[fst peer := Z.of_nat (length (log_ n))]> m) (next_index_ n) (peers_ n)) n) ;;
  modify (λ n, node_set_match (foldl (λ m peer, <[fst peer := 0]> m) (match_index_ n) (peers_ n)) n).

Definition has_majority (n : Node) : bool :=
  bool_decide (Nat.div (cluster_size_ n) 2 < size (votes_received_ n))%nat.

Definition StartElection : M Node (list RpcCall) :=
  n ← gets id;
  if negb (running_ n) || bool_decide (state_ n = RaftState.LEADER) then mret [] else
  modify (node_set_state RaftState.CANDIDATE) ;;
  term ← incr_signed 32 (current_term_ n);
  modify (node_set_term term) ;;
  modify (node_set_voted (node_id_ n)) ;;
  modify (node_set_leader (-1)) ;;
  modify (node_set_votes {[node_id_ n]}) ;;
  ResetElectionDeadlineLocked ;;
  became_leader ← gets has_majority;
  if became_leader : bool then BecomeLeader ;; SendHeartbeats else
  mret ((λ peer, VoteCall (fst peer) (snd peer)
           (mkRpcMessage REQUEST_VOTE term (node_id_ n) []) term) <$> peers_ n).

Definition HandleVoteReply (election_term peer_id : Z) (reply : RpcMessage) : M Node unit :=
  n ← gets id;
  if negb (running_ n) then mret tt else
  if current_term_ n <? rpc_term reply then
    StepDown (rpc_term reply) ;; ResetElectionDeadlineLocked
  else
  if negb (bool_decide (state_ n = RaftState.CANDIDATE)) || negb (current_term_ n =? election_term)
     || negb (bool_decide (rpc_type reply = REQUEST_VOTE_REPLY))
     || negb (rpc_term reply =? election_term)
     || negb (bool_decide (rpc_payload reply = [x31])) then mret tt else
  modify (λ n, node_set_votes ({[peer_id]} ∪ votes_received_ n) n) ;;
  majority ← gets has_majority;
  when majority BecomeLeader.

Definition HandleAppendEntriesReply (peer_id : Z) (reply : RpcMessage) (sent_match_index : Z)
    : M Node unit :=
  n ← gets id;
  if negb (running_ n) || negb (bool_decide (state_ n = RaftState.LEADER)) then mret tt else
  if current_term_ n <? rpc_term reply then
    StepDown (rpc_term reply) ;; ResetElectionDeadlineLocked
  else
  when (bool_decide (rpc_type reply = APPEND_ENTRIES_REPLY))
    (if bool_decide (rpc_payload reply = [x31]) then
       let matched := Z.max (index_of (match_index_ n) peer_id) sent_match_index in
       modify (λ n, node_set_match (<[peer_id := matched]> (match_index_ n)) n) ;;
       modify (λ n, node_set_next (<[peer_id := matched + 1]> (next_index_ n)) n) ;;
       AdvanceCommitIndexLocked
     else
       modify (λ n, node_set_next
         (<[peer_id := Z.max 1 (index_of (next_index_ n) peer_id - 1)]> (next_index_ n)) n)).

(** The continuation of an RPC thread whose call succeeded. *)
Definition HandleReply (call : RpcCall) (reply : RpcMessage) : M Node unit :=
  match call with
  | VoteCall peer _ _ election_term => HandleVoteReply election_term peer reply
  | AppendCall peer _ _ last_new_index => HandleAppendEntriesReply peer reply last_new_index
  end.

(** One round of [ElectionLoop] after a wake-up. *)
Definition ElectionLoopRound : M Node (list RpcCall) :=
  n ← gets id;
  if negb (running_ n) then mret [] else
  let leader := bool_decide (state_ n = RaftState.LEADER) in
  if leader && (next_heartbeat_ n <=? clock_ n) then
    modify (node_set_heartbeat (clock_ n + 75)) ;; SendHeartbeats
  else if negb leader && (election_deadline_ n <=? clock_ n) then StartElection
  else mret [].

(** ** Lifecycle *)

(** [server_start]: what creating and starting the RPC server does. *)
Definition Start (server_start : outcome unit) : M Node unit :=
  running ← gets running_;
  if running : bool then mret tt else
  lift server_start ;;
  modify (node_set_running true) ;;
  modify (node_set_state RaftState.FOLLOWER) ;;
  modify (node_set_leader (-1)) ;;
  ResetElectionDeadlineLocked.

Definition Stop : M Node unit := modify (node_set_running false).
End RaftNode.
