(* ===== verification/RaftLocal.v ===== *)
(** * What one Raft handler does

    The effects of the handlers on a single node: applying committed entries,
    advancing the commit index, merging received entries, and what a node may
    do to its term, vote and role. *)

From S2P Require Export RaftNode.

Local Open Scope Z_scope.

Section local.
Context {E : Type}.
Notation Node := (RaftNode E).
Implicit Types n : Node.

(** Everything but the commit index, the last index applied and the
    environment of the callback. *)
Definition core n :=
  (node_id_ n, peers_ n, cluster_size_ n, current_term_ n, voted_for_ n, state_ n,
   votes_received_ n, log_ n, next_index_ n, match_index_ n, on_commit_ n, running_ n).

(** ** Applying committed entries *)

(** The calls still to be made: the entries after the last one applied, up to
    the commit index. *)
Definition pending_calls n : list (bytes * Z) :=
  (λ i, (entry_command (nth (Z.to_nat i) (log_ n) (mkLogEntry 0 0 [])), i)) <$>
    seqZ (last_applied_ n + 1) (commit_index_ n - last_applied_ n).

Definition run_callback (callback : option (bytes → Z → M E unit)) (calls : list (bytes * Z))
    : M E unit :=
  match callback with
  | None => mret tt
  | Some f => for_each calls (λ c, f (fst c) (snd c))
  end.

Lemma ApplyLoop_spec fuel : ∀ n Q,
  (Z.to_nat (commit_index_ n - last_applied_ n) < fuel)%nat →
  0 ≤ last_applied_ n → commit_index_ n < Z.of_nat (length (log_ n)) →
  wp (run_callback (on_commit_ n) (pending_calls n)) (env_ n)
    (λ _ e, Q tt (node_set_env e (node_set_applied (Z.max (last_applied_ n) (commit_index_ n)) n))) →
  wp (ApplyLoop fuel) n Q.
Proof.
  induction fuel as [|fuel IH]; intros n Q Hf H0 Hc HQ; [lia|]. cbn [ApplyLoop].
  apply wp_bind, wp_gets, wp_bind, wp_gets. unfold pending_calls in HQ.
  destruct (Z.ltb_spec (last_applied_ n) (commit_index_ n)) as [Hlt|Hge].
  - rewrite seqZ_cons in HQ by lia. rewrite fmap_cons in HQ. cbv zeta.
    apply wp_bind, wp_modify, wp_bind, wp_gets.
    assert (∀ e n', n' = node_set_env e (node_set_applied (last_applied_ n + 1) n) →
      wp (run_callback (on_commit_ n) (pending_calls n')) e
        (λ _ e, Q tt (node_set_env e (node_set_applied (commit_index_ n) n))) →
      wp (ApplyLoop fuel) n' Q) as Hnext.
    { intros e n' -> HQ'. apply IH; simpl; [lia|lia|lia|].
      rewrite Z.max_r by lia. eapply wp_mono; [exact HQ'|]. done. }
    cbn [node_set_applied on_commit_].
    rewrite Z.max_r in HQ by lia.
    replace (Z.succ (last_applied_ n + 1)) with (last_applied_ n + 1 + 1) in HQ by lia.
    replace (Z.pred (commit_index_ n - last_applied_ n)) with (commit_index_ n - (last_applied_ n + 1)) in HQ by lia.
    destruct (on_commit_ n) as [f|] eqn:Ef; simpl in HQ.
    + apply wp_bind, wp_bind, wp_gets. simpl.
      destruct (lookup_lt_is_Some_2 (log_ n) (Z.to_nat (last_applied_ n + 1))) as [entry He]; [lia|].
      apply wp_bind. unfold at_z. rewrite (proj2 (Z.ltb_ge _ _)) by lia.
      eapply wp_at; [exact He|]. apply wp_zoom. simpl.
      rewrite (nth_lookup_Some _ _ _ _ He) in HQ. apply wp_bind_inv in HQ.
      eapply wp_mono; [exact HQ|]. cbn beta. intros [] e He'. by apply (Hnext e).
    + apply wp_bind, wp_ret. apply (Hnext (env_ n)); [by destruct n|]. apply wp_ret.
      exact HQ.
  - apply wp_ret. rewrite Z.max_l in HQ by lia. rewrite seqZ_nil in HQ by lia.
    destruct (on_commit_ n); simpl in HQ; by destruct n.
Qed.

Lemma ApplyCommittedEntriesLocked_spec n Q :
  0 ≤ last_applied_ n → commit_index_ n < Z.of_nat (length (log_ n)) →
  wp (run_callback (on_commit_ n) (pending_calls n)) (env_ n)
    (λ _ e, Q tt (node_set_env e (node_set_applied (Z.max (last_applied_ n) (commit_index_ n)) n))) →
  wp ApplyCommittedEntriesLocked n Q.
Proof. intros. apply wp_bind, wp_gets. apply ApplyLoop_spec; [lia|done..]. Qed.

Lemma ApplyLoop_core fuel : ∀ n, wlp (ApplyLoop fuel) n (λ _ n', core n' = core n).
Proof.
  induction fuel as [|fuel IH]; intros n; [by intros a s'|]. cbn [ApplyLoop].
  do 2 wlp_step. wlp_step. wlp_step. destruct (_ <? _); [|by wlp_step].
  do 4 wlp_step. cbv zeta. apply wlp_bind.
  eapply (wlp_mono _ _ (λ _ n', core n' = core n)).
  - destruct (on_commit_ _) as [f|]; [|by wlp_step]. wlp_steps. apply wlp_at_z. intros a _ _.
    by apply wlp_zoom.
  - intros _ n' Hn'. eapply wlp_mono; [apply IH|]. cbn beta. congruence.
Qed.

Lemma ApplyCommittedEntriesLocked_core n :
  wlp ApplyCommittedEntriesLocked n (λ _ n', core n' = core n).
Proof. apply wlp_bind, wlp_gets, ApplyLoop_core. Qed.

(** ** Advancing the commit index *)

(** The leader may commit the entry [i]: it is of its term, and a majority
    stores it. *)
Definition committable n (i : Z) : bool :=
  match log_ n !! Z.to_nat i with
  | Some e => (entry_term e =? current_term_ n)
                && bool_decide (Nat.div (cluster_size_ n) 2 < match_count n i)%nat
  | None => false
  end.

(** [c] is the last committable index between [lo] and [hi], or [lo]. *)
Definition last_committable n (lo hi c : Z) : Prop :=
  (∀ i, c < i ≤ hi → committable n i = false) ∧
  (c = lo ∨ lo < c ≤ hi ∧ committable n c = true).

Lemma AdvanceLoop_spec fuel : ∀ n index Q,
  0 ≤ commit_index_ n → index < Z.of_nat (length (log_ n)) →
  (Z.to_nat (index - commit_index_ n) < fuel)%nat →
  (∀ c, last_committable n (commit_index_ n) index c →
     (c = commit_index_ n → Q tt n) ∧
     (commit_index_ n < c → wp ApplyCommittedEntriesLocked (node_set_commit c n) Q)) →
  wp (AdvanceLoop fuel index) n Q.
Proof.
  induction fuel as [|fuel IH]; intros n index Q H0 Hi Hf HQ; [lia|]. cbn [AdvanceLoop].
  apply wp_bind, wp_gets. destruct (Z.leb_spec index (commit_index_ n)) as [Hle|Hgt].
  - apply wp_ret. apply (HQ (commit_index_ n)); [|done]. split; [|by left]. intros i Hr. lia.
  - apply wp_bind, wp_gets.
    destruct (lookup_lt_is_Some_2 (log_ n) (Z.to_nat index)) as [entry He]; [lia|].
    apply wp_bind. unfold at_z. rewrite (proj2 (Z.ltb_ge _ _)) by lia.
    eapply wp_at; [exact He|]. apply wp_bind, wp_gets. unfold id.
    assert (committable n index = (entry_term entry =? current_term_ n)
      && bool_decide (Nat.div (cluster_size_ n) 2 < match_count n index)%nat) as Hc
      by (unfold committable; by rewrite He).
    rewrite <- Hc. destruct (committable n index) eqn:Ec.
    + apply wp_bind, wp_modify. apply (HQ index); [|done].
      split; [lia|]. right. split; [lia|done].
    + apply IH; [done|lia|lia|]. intros c [Hnone Hlast]. apply HQ. split; [|destruct Hlast; [by left|right; lia || (split; [lia|tauto])]].
      intros i Hr. destruct (decide (i = index)) as [->|]; [done|]. apply Hnone. lia.
Qed.

Lemma AdvanceLoop_core fuel : ∀ n index, wlp (AdvanceLoop fuel index) n (λ _ n', core n' = core n).
Proof.
  induction fuel as [|fuel IH]; intros n index; [by intros a s'|]. cbn [AdvanceLoop].
  wlp_steps. destruct (_ <=? _); [by wlp_step|]. wlp_steps. apply wlp_at_z. intros e _ _.
  wlp_steps. destruct (_ && _); [|apply IH].
  wlp_steps. eapply wlp_mono; [apply ApplyCommittedEntriesLocked_core|]. done.
Qed.

Lemma AdvanceCommitIndexLocked_core n :
  wlp AdvanceCommitIndexLocked n (λ _ n', core n' = core n).
Proof. unfold AdvanceCommitIndexLocked. wlp_steps. apply AdvanceLoop_core. Qed.

(** ** Merging received entries *)

(** The log after the entries [es] for the positions from [k] on. *)
Fixpoint merge_log (es : list LogEntry) (k : nat) (l : list LogEntry) : list LogEntry :=
  match es with
  | [] => l
  | e :: es =>
      merge_log es (S k)
        (match l !! k with
         | Some old => if entry_term old =? entry_term e then l else take k l ++ [e]
         | None => l ++ [e]
         end)
  end.

Lemma MergeEntries_run es : ∀ n index,
  0 ≤ index < Z.of_nat (length (log_ n)) →
  MergeEntries es index n = (Ret tt, node_set_log (merge_log es (S (Z.to_nat index)) (log_ n)) n).
Proof.
  induction es as [|e es IH]; intros n index Hi; cbn [MergeEntries merge_log].
  { by destruct n. }
  replace (S (Z.to_nat index)) with (Z.to_nat (index + 1)) by lia.
  set (l' := match log_ n !! Z.to_nat (index + 1) with Some _ => _ | None => _ end).
  assert (index + 1 < Z.of_nat (length l')) as Hl'.
  { subst l'. destruct (log_ n !! Z.to_nat (index + 1)) eqn:El.
    - apply lookup_lt_Some in El as Hlt. destruct (_ =? _); [lia|].
      rewrite length_app, length_take. simpl. lia.
    - rewrite length_app. simpl. lia. }
  erewrite bind_ret by done. cbv zeta.
  erewrite (bind_ret _ _ _ tt (node_set_log l' n)).
  - rewrite IH by (simpl; lia). simpl. by replace (S (Z.to_nat (index + 1))) with (Z.to_nat (index + 1 + 1)) by lia.
  - subst l'. destruct (Z.ltb_spec (index + 1) (Z.of_nat (length (log_ n)))) as [Hlt|Hge].
    + destruct (lookup_lt_is_Some_2 (log_ n) (Z.to_nat (index + 1))) as [old Ho]; [lia|].
      rewrite Ho. unfold at_z, at_. rewrite (proj2 (Z.ltb_ge _ _)), Ho by lia.
      unfold mbind, M_bind, mret, M_ret, when. destruct (_ =? _); [by destruct n|done].
    + rewrite lookup_ge_None_2 by lia. done.
Qed.

Lemma merge_log_end es l : merge_log es (length l) l = l ++ es.
Proof.
  revert l. induction es as [|e es IH]; intros l; simpl; [by rewrite app_nil_r|].
  rewrite lookup_ge_None_2 by lia.
  replace (S (length l)) with (length (l ++ [e])) by len. by rewrite IH, <- app_assoc.
Qed.

(** The terms of [l] from [k] on are those of [es]. *)
Definition same_terms (es : list LogEntry) (k : nat) (l : list LogEntry) : Prop :=
  ∀ i e, es !! i = Some e → ∃ old, l !! (k + i)%nat = Some old ∧ entry_term old = entry_term e.

(** Nothing changes when the log has the received entries; otherwise the log is
    cut at the first one it lacks and takes the rest. *)
Lemma merge_log_result es : ∀ k l, (k ≤ length l)%nat →
  (same_terms es k l ∧ merge_log es k l = l) ∨
  (∃ j e, (k + j ≤ length l)%nat ∧ same_terms (take j es) k l ∧ es !! j = Some e ∧
    (∀ old, l !! (k + j)%nat = Some old → entry_term old ≠ entry_term e) ∧
    merge_log es k l = take (k + j) l ++ drop j es).
Proof.
  induction es as [|e es IH]; intros k l Hk; cbn [merge_log].
  { left. split; [|done]. by intros i e. }
  destruct (l !! k) as [old|] eqn:El.
  - destruct (Z.eqb_spec (entry_term old) (entry_term e)) as [Et|Et].
    + apply lookup_lt_Some in El as Hlt.
      assert (∀ es', same_terms es' (S k) l → same_terms (e :: es') k l) as Hcons.
      { intros es' Hs [|i] e' He; simpl in He.
        - injection He as <-. rewrite Nat.add_0_r. by exists old.
        - rewrite Nat.add_succ_r. by apply (Hs i). }
      destruct (IH (S k) l Hlt) as [[Hs ->]|(j & e' & Hj & Hs & He & Hne & ->)]; [left|right].
      * split; [by apply Hcons|done].
      * exists (S j), e'. rewrite Nat.add_succ_r. split_and!; [lia|by apply Hcons|done|done|done].
    + right. exists 0%nat, e. rewrite Nat.add_0_r. split_and!; try done.
      * congruence.
      * apply lookup_lt_Some in El. rewrite <- (length_take_le l k) at 1 by lia.
        replace (S (length (take k l))) with (length (take k l ++ [e])) by len.
        by rewrite merge_log_end, <- app_assoc.
  - right. exists 0%nat, e. rewrite Nat.add_0_r. apply lookup_ge_None in El.
    split_and!; try done; [by intros old Ho; apply lookup_lt_Some in Ho; lia|].
    rewrite take_ge by lia. assert (k = length l) as -> by lia.
    replace (S (length l)) with (length (l ++ [e])) by len. by rewrite merge_log_end, <- app_assoc.
Qed.

(** The same, with what distinguishes the two cases. *)
Lemma merge_log_cases es k l : (k ≤ length l)%nat →
  same_terms es k l ∧ merge_log es k l = l ∨
  ∃ j, ¬ same_terms es k l ∧ same_terms (take j es) k l ∧
    merge_log es k l = take (k + j) l ++ drop j es.
Proof.
  intros Hk. destruct (merge_log_result es k l Hk) as [?|(j & e & Hj & Hs & He & Hne & Em)]; [by left|].
  right. exists j. split_and!; [|done|done]. intros Hall. destruct (Hall j e He) as (old & Ho & Ht).
  by eapply Hne.
Qed.

Lemma merge_log_length es k l : (k ≤ length l)%nat → (k + length es ≤ length (merge_log es k l))%nat.
Proof.
  intros Hk. destruct (merge_log_result es k l Hk) as [[Hs ->]|(j & e & Hj & _ & He & _ & ->)].
  - destruct es as [|e es _] using rev_ind; [simpl; lia|].
    destruct (Hs (length es) e) as (old & Ho & _); [by apply lookup_app_mid|].
    apply lookup_lt_Some in Ho. rewrite length_app. simpl. lia.
  - apply lookup_lt_Some in He. rewrite length_app, length_take, length_drop. lia.
Qed.

Lemma merge_log_prefix es k l : (k ≤ length l)%nat → take k (merge_log es k l) = take k l.
Proof.
  intros Hk. destruct (merge_log_result es k l Hk) as [[_ ->]|(j & e & Hj & _ & _ & _ & ->)]; [done|].
  rewrite take_app_le by (rewrite length_take; lia). by rewrite take_take, Nat.min_l by lia.
Qed.
End local.
