(* ===== verification/RaftHandlers.v ===== *)
(** * Properties of single Raft handlers

    Replication on one node: what an AppendEntries call does on every branch,
    what a reply does to the commit index, and the inputs on which the
    handlers leave defined behaviour. *)

From S2P Require Export RaftLocal.

Local Open Scope Z_scope.

Section handlers.
Context {E : Type}.
Notation Node := (RaftNode E).
Implicit Types n : Node.

(** The commit callback, if there is one, returns on every input. *)
Definition callback_ok n : Prop :=
  ∀ f bs i e, on_commit_ n = Some f → ∃ e', f bs i e = (Ret tt, e').

Lemma run_callback_total n calls e (Q : E → Prop) :
  callback_ok n → (∀ e', Q e') → wp (run_callback (on_commit_ n) calls) e (λ _ e', Q e').
Proof.
  intros Hok HQ. destruct (on_commit_ n) as [f|] eqn:Ef; [|by apply wp_ret].
  unfold run_callback. revert e. induction calls as [|[bs i] calls IH]; intros e; cbn [for_each].
  - by apply wp_ret.
  - apply wp_bind. destruct (Hok f bs i e Ef) as [e' He]. eapply wp_eq; [exact He|]. apply IH.
Qed.

Lemma Apply_total n Q :
  callback_ok n → 0 ≤ last_applied_ n → commit_index_ n < Z.of_nat (length (log_ n)) →
  (∀ e, Q tt (node_set_env e (node_set_applied (Z.max (last_applied_ n) (commit_index_ n)) n))) →
  wp ApplyCommittedEntriesLocked n Q.
Proof.
  intros Hok H0 Hc HQ. apply ApplyCommittedEntriesLocked_spec; [done..|].
  by apply (run_callback_total n _ _ (λ e, Q tt _)).
Qed.

(** ** AppendEntries *)

(** The log has an entry of term [prev_term] at [prev]. *)
Definition log_matches n (prev prev_term : Z) : Prop :=
  entry_term <$> log_ n !! Z.to_nat prev = Some prev_term.

#[export] Instance log_matches_dec n prev prev_term : Decision (log_matches n prev prev_term).
Proof. unfold log_matches. apply _. Defined.

(** The node once it has accepted [leader] for [term]. *)
Definition follows (term leader : Z) n n' : Prop :=
  current_term_ n' = term ∧ state_ n' = RaftState.FOLLOWER ∧ leader_id_ n' = leader ∧
  voted_for_ n' = (if current_term_ n <? term then -1 else voted_for_ n).

Definition append_reply n (success : bool) : RpcMessage :=
  mkRpcMessage APPEND_ENTRIES_REPLY (current_term_ n) (node_id_ n) (vote_payload success).

Lemma HandleAppendEntries_stale n term leader prev prev_term lc es :
  term < current_term_ n →
  HandleAppendEntries term leader prev prev_term lc es n = (Ret (append_reply n false), n).
Proof.
  intros Ht. unfold HandleAppendEntries, mbind, M_bind, gets.
  by rewrite (proj2 (Z.leb_gt _ _)) by done.
Qed.

(** The node after the part of the handler before the log check. *)
Definition followed (term leader : Z) n : Node :=
  let n := if current_term_ n <? term then node_set_voted (-1) (node_set_term term n) else n in
  let n := node_set_leader leader (node_set_state RaftState.FOLLOWER n) in
  node_set_deadline (clock_ n + draw_ n) n.

Lemma followed_follows term leader n :
  current_term_ n ≤ term → follows term leader n (followed term leader n).
Proof.
  intros Ht. unfold follows, followed. destruct (Z.ltb_spec (current_term_ n) term); simpl.
  - done.
  - split_and!; try done. lia.
Qed.

Lemma followed_keeps term leader n :
  let n' := followed term leader n in
  node_id_ n' = node_id_ n ∧ peers_ n' = peers_ n ∧ cluster_size_ n' = cluster_size_ n ∧
  log_ n' = log_ n ∧ commit_index_ n' = commit_index_ n ∧
  last_applied_ n' = last_applied_ n ∧ env_ n' = env_ n ∧ on_commit_ n' = on_commit_ n.
Proof. unfold followed. by destruct (_ <? _). Qed.

(** The log check and what follows it. *)
Definition AppendBody (prev prev_term lc : Z) (es : list LogEntry) : M Node bool :=
  log ← gets log_;
  matches ←
    (if prev <? Z.of_nat (length log) then
       e ← at_z log prev; mret (entry_term e =? prev_term)
     else mret false);
  if matches : bool then
    MergeEntries es prev ;;
    commit ← gets commit_index_;
    when (commit <? lc) (
      modify (node_set_commit (Z.min lc (prev + Z.of_nat (length es)))) ;;
      ApplyCommittedEntriesLocked) ;;
    mret true
  else mret false.

Lemma HandleAppendEntries_body n term leader prev prev_term lc es :
  current_term_ n ≤ term →
  HandleAppendEntries term leader prev prev_term lc es n =
  (success ← AppendBody prev prev_term lc es; n ← gets id; mret (append_reply n success))
    (followed term leader n).
Proof.
  intros Ht. unfold HandleAppendEntries. erewrite bind_ret by done.
  rewrite (proj2 (Z.leb_le _ _)) by done. unfold followed.
  destruct (_ <? _); rewrite bind_assoc; unfold when; repeat (erewrite bind_ret by done; cbn beta).
  all: reflexivity.
Qed.

Lemma AppendBody_reject n prev prev_term lc es :
  (prev < Z.of_nat (length (log_ n)) → 0 ≤ prev) → ¬ log_matches n prev prev_term →
  AppendBody prev prev_term lc es n = (Ret false, n).
Proof.
  intros H0 Hno. unfold AppendBody. erewrite bind_ret by done.
  destruct (Z.ltb_spec prev (Z.of_nat (length (log_ n)))) as [Hlt|_]; [|done].
  specialize (H0 Hlt). destruct (lookup_lt_is_Some_2 (log_ n) (Z.to_nat prev)) as [e He]; [lia|].
  unfold at_z, at_. rewrite (proj2 (Z.ltb_ge _ _)), He by lia.
  unfold mbind, M_bind, mret, M_ret. destruct (Z.eqb_spec (entry_term e) prev_term); [|done].
  destruct Hno. unfold log_matches. rewrite He. simpl. congruence.
Qed.

(** With the log check passed, the body merges the entries and commits. *)
Lemma AppendBody_run n prev prev_term lc es :
  0 ≤ prev → log_matches n prev prev_term →
  AppendBody prev prev_term lc es n =
  (when (commit_index_ n <? lc) (
     modify (node_set_commit (Z.min lc (prev + Z.of_nat (length es)))) ;;
     ApplyCommittedEntriesLocked) ;; mret true)
    (node_set_log (merge_log es (S (Z.to_nat prev)) (log_ n)) n).
Proof.
  intros H0 Hm. apply fmap_Some in Hm as (e & He & ->). pose proof (lookup_lt_Some _ _ _ He) as Hlt.
  unfold AppendBody. erewrite bind_ret by done. rewrite (proj2 (Z.ltb_lt _ _)) by lia.
  unfold at_z, at_. rewrite (proj2 (Z.ltb_ge _ _)), He by lia. rewrite bind_assoc.
  erewrite bind_ret by done. erewrite bind_ret by done. rewrite Z.eqb_refl.
  erewrite bind_ret by (apply MergeEntries_run; lia). by erewrite bind_ret by done.
Qed.

Lemma AppendBody_accept n prev prev_term lc es :
  0 ≤ prev → log_matches n prev prev_term → callback_ok n → 0 ≤ last_applied_ n →
  ∃ n', AppendBody prev prev_term lc es n = (Ret true, n') ∧
    log_ n' = merge_log es (S (Z.to_nat prev)) (log_ n) ∧
    commit_index_ n' = (if commit_index_ n <? lc then Z.min lc (prev + Z.of_nat (length es))
                        else commit_index_ n) ∧
    (commit_index_ n < lc → last_applied_ n' = Z.max (last_applied_ n) (commit_index_ n')) ∧
    (node_id_ n', current_term_ n', state_ n', leader_id_ n', voted_for_ n') =
      (node_id_ n, current_term_ n, state_ n, leader_id_ n, voted_for_ n).
Proof.
  intros H0 Hm Hok Ha. apply fmap_Some in Hm as (e & He & ->). pose proof (lookup_lt_Some _ _ _ He) as Hlt.
  cut (wp (AppendBody prev (entry_term e) lc es) n (λ b n', b = true ∧
    log_ n' = merge_log es (S (Z.to_nat prev)) (log_ n) ∧
    commit_index_ n' = (if commit_index_ n <? lc then Z.min lc (prev + Z.of_nat (length es))
                        else commit_index_ n) ∧
    (commit_index_ n < lc → last_applied_ n' = Z.max (last_applied_ n) (commit_index_ n')) ∧
    (node_id_ n', current_term_ n', state_ n', leader_id_ n', voted_for_ n') =
      (node_id_ n, current_term_ n, state_ n, leader_id_ n, voted_for_ n))).
  { intros (b & n' & Hrun & -> & Hn')%wp_run. by exists n'. }
  eapply wp_same; [apply AppendBody_run; [done|by unfold log_matches; rewrite He]|].
  pose proof (merge_log_length es (S (Z.to_nat prev)) (log_ n) ltac:(lia)) as Hlen.
  cbn [node_set_log commit_index_].
  destruct (Z.ltb_spec (commit_index_ n) lc) as [Hc|Hc]; unfold when.
  - apply wp_bind, wp_bind, wp_modify. apply Apply_total; simpl; [done|done|lia|].
    intros e'. by apply wp_ret.
  - apply wp_bind, wp_ret, wp_ret. split_and!; try done. lia.
Qed.

(** ** Replies to AppendEntries *)

(** The leader's record of a peer after a successful reply. *)
Definition matched (peer sent : Z) n : Node :=
  let m := Z.max (index_of (match_index_ n) peer) sent in
  let n := node_set_match (<[peer := m]> (match_index_ n)) n in
  node_set_next (<[peer := m + 1]> (next_index_ n)) n.

Lemma success_reply_run n peer reply sent :
  running_ n = true → state_ n = RaftState.LEADER → rpc_term reply ≤ current_term_ n →
  rpc_type reply = APPEND_ENTRIES_REPLY → rpc_payload reply = [x31] →
  HandleAppendEntriesReply peer reply sent n = AdvanceCommitIndexLocked (matched peer sent n).
Proof.
  intros Hrun Hst Ht Hty Hp. unfold HandleAppendEntriesReply. erewrite bind_ret by done. unfold id.
  rewrite Hrun, Hst, Hty, Hp, (proj2 (Z.ltb_ge _ _)) by done. done.
Qed.

Lemma Advance_total n Q :
  callback_ok n → 0 ≤ last_applied_ n → 0 ≤ commit_index_ n →
  (∀ c n', last_committable n (commit_index_ n) (Z.of_nat (length (log_ n)) - 1) c →
     commit_index_ n' = c →
     last_applied_ n' = (if commit_index_ n <? c then Z.max (last_applied_ n) c else last_applied_ n) →
     core n' = core n → Q tt n') →
  wp AdvanceCommitIndexLocked n Q.
Proof.
  intros Hok Ha H0 HQ. unfold AdvanceCommitIndexLocked. do 2 apply wp_bind, wp_gets.
  apply AdvanceLoop_spec; [done|lia|lia|]. intros c Hc. split.
  - intros ->. by apply (HQ (commit_index_ n)); [..|rewrite Z.ltb_irrefl|].
  - intros Hlt. assert (c ≤ Z.of_nat (length (log_ n)) - 1) by (destruct Hc as [_ [->|[? _]]]; lia).
    apply Apply_total; simpl; [done|done|lia|]. intros e. apply (HQ c); [done|done| |done].
    simpl. by rewrite (proj2 (Z.ltb_lt _ _)) by done.
Qed.

(** ** Undefined behaviour *)

Lemma HeartbeatCalls_undef n peers peer :
  peer ∈ peers → (index_of (next_index_ n) (fst peer) < 1 ∨
    Z.of_nat (length (log_ n)) < index_of (next_index_ n) (fst peer)) →
  HeartbeatCalls peers n = (Undef, n).
Proof.
  intros Hin Hbad. induction peers as [|p peers IH]; [by apply not_elem_of_nil in Hin|].
  cbn [HeartbeatCalls]. apply elem_of_cons in Hin as [<-|Hin].
  - assert (HeartbeatArgs (commit_index_ n) peer n = (Undef, n)) as E1.
    { unfold HeartbeatArgs. erewrite bind_ret by done. cbv zeta. apply bind_undef. unfold at_z, at_, id.
      destruct (Z.ltb_spec (index_of (next_index_ n) (fst peer) - 1) 0); [done|].
      by rewrite lookup_ge_None_2 by lia. }
    erewrite bind_ret by done. by apply bind_undef.
  - erewrite bind_ret by done. unfold id.
    assert (∃ o, HeartbeatArgs (commit_index_ n) p n = (o, n) ∧ (o = Undef ∨ ∃ a, o = Ret a)) as (o & E1 & Ho).
    { unfold HeartbeatArgs. erewrite bind_ret by done. cbv zeta. unfold at_z, at_, id, mbind, M_bind.
      destruct (_ <? 0); [eexists; split; [done|by left]|].
      destruct (log_ n !! _); eexists; (split; [done|]); [right; by eexists|by left]. }
    destruct Ho as [->|[args ->]]; [by apply bind_undef|].
    erewrite bind_ret by done. erewrite bind_ret by (unfold lift; by rewrite SerializeAppendEntriesPayload_bytes).
    apply bind_undef. by apply IH.
Qed.

Lemma SendHeartbeats_leader n :
  running_ n = true → state_ n = RaftState.LEADER → SendHeartbeats n = HeartbeatCalls (peers_ n) n.
Proof. intros Hr Hs. unfold SendHeartbeats. erewrite bind_ret by done. unfold id. by rewrite Hr, Hs. Qed.
End handlers.

(** ** Properties *)

Section properties.
Context {E : Type}.
Notation Node := (RaftNode E).
Implicit Types n : Node.

(** C10: AppendEntries on every branch, for any node and any request whose
    previous index is not negative.  A request of an older term is refused and
    changes nothing.  Otherwise the node follows the sender; when its log has
    no entry of the given term at the previous index it refuses and keeps its
    log; when it has, it answers success, keeps its log up to that index, and
    then holds the received entries (nothing is cut off when it had them
    already); the commit index rises to the leader's as far as the entries
    reach, and everything up to it is applied.  No branch leaves defined
    behaviour and every loop ends. *)
Theorem append_entries_correct n term leader prev prev_term lc es :
  0 ≤ prev → 0 ≤ last_applied_ n → callback_ok n →
  let run := HandleAppendEntries term leader prev prev_term lc es n in
  (term < current_term_ n → run = (Ret (append_reply n false), n)) ∧
  (current_term_ n ≤ term → ∃ n' success, run = (Ret (append_reply n' success), n') ∧
    follows term leader n n' ∧ (success = true ↔ log_matches n prev prev_term) ∧
    if success then
      let k := S (Z.to_nat prev) in
      take k (log_ n') = take k (log_ n) ∧
      (same_terms es k (log_ n) ∧ log_ n' = log_ n ∨
       ∃ j, ¬ same_terms es k (log_ n) ∧ same_terms (take j es) k (log_ n) ∧
         log_ n' = take (k + j) (log_ n) ++ drop j es) ∧
      commit_index_ n' = (if commit_index_ n <? lc then Z.min lc (prev + Z.of_nat (length es))
                          else commit_index_ n) ∧
      commit_index_ n' ≤ Z.max (commit_index_ n) (Z.of_nat (length (log_ n')) - 1) ∧
      (commit_index_ n < lc → last_applied_ n' = Z.max (last_applied_ n) (commit_index_ n'))
    else log_ n' = log_ n ∧ commit_index_ n' = commit_index_ n ∧ last_applied_ n' = last_applied_ n).
Proof.
  intros H0 Ha Hok run. split; [apply HandleAppendEntries_stale|]. intros Ht. subst run.
  rewrite HandleAppendEntries_body by done.
  pose proof (followed_follows term leader n Ht) as Hf.
  destruct (followed_keeps term leader n) as (_ & _ & _ & Kl & Kc & Ka & _ & Kcb).
  set (n1 := followed term leader n) in *.
  destruct (decide (log_matches n prev prev_term)) as [Hm|Hm].
  - destruct (AppendBody_accept n1 prev prev_term lc es H0) as (n' & Hrun & El & Ec & Eap & Ek);
      [unfold log_matches; by rewrite Kl|unfold callback_ok; by rewrite Kcb|by rewrite Ka|].
    rewrite Kl, Kc, Ka in *. exists n', true. injection Ek as _ E1 E2 E3 E4.
    split; [by rewrite (bind_ret _ _ _ _ _ Hrun)|].
    split; [unfold follows; rewrite E1, E2, E3, E4; exact Hf|]. split; [done|]. cbv zeta.
    apply fmap_Some in Hm as (e & He & _). pose proof (lookup_lt_Some _ _ _ He) as Hlt.
    rewrite El. split; [by apply merge_log_prefix|].
    pose proof (merge_log_length es (S (Z.to_nat prev)) (log_ n) ltac:(lia)) as Hlen.
    split_and!; [by apply merge_log_cases|done| |done].
    rewrite Ec. destruct (_ <? _); lia.
  - exists n1, false. rewrite (bind_ret _ _ _ _ _ (AppendBody_reject n1 prev prev_term lc es
      ltac:(done) ltac:(unfold log_matches; by rewrite Kl))). done.
Qed.

Lemma success_reply_spec n peer reply sent :
  running_ n = true → state_ n = RaftState.LEADER → rpc_term reply ≤ current_term_ n →
  rpc_type reply = APPEND_ENTRIES_REPLY → rpc_payload reply = [x31] →
  callback_ok n → 0 ≤ last_applied_ n → 0 ≤ commit_index_ n →
  ∃ n', HandleAppendEntriesReply peer reply sent n = (Ret tt, n') ∧
    core n' = core (matched peer sent n) ∧
    last_committable n' (commit_index_ n) (Z.of_nat (length (log_ n)) - 1) (commit_index_ n') ∧
    commit_index_ n ≤ commit_index_ n' ∧
    (commit_index_ n < commit_index_ n' →
     last_applied_ n' = Z.max (last_applied_ n) (commit_index_ n')).
Proof.
  intros Hrun Hst Ht Hty Hp Hok Ha H0. rewrite success_reply_run by done.
  assert (wp AdvanceCommitIndexLocked (matched peer sent n) (λ _ n', core n' = core (matched peer sent n) ∧
    last_committable (matched peer sent n) (commit_index_ n) (Z.of_nat (length (log_ n)) - 1) (commit_index_ n') ∧
    (commit_index_ n < commit_index_ n' → last_applied_ n' = Z.max (last_applied_ n) (commit_index_ n')))) as Hwp.
  { apply Advance_total; [done..|]. intros c n' Hc <- Hap Hcore. split_and!; [done|done|].
    intros Hlt. rewrite Hap. simpl. by rewrite (proj2 (Z.ltb_lt _ _)) by done. }
  apply wp_run in Hwp as ([] & n' & Hr & Hcore & Hc & Hap). exists n'.
  assert (∀ i, committable n' i = committable (matched peer sent n) i) as Hcm.
  { intros i. injection Hcore as _ E1 E2 E3 _ _ _ E4 _ E5 _ _.
    unfold committable, match_count. by rewrite E1, E2, E3, E4, E5. }
  split_and!; try done.
  - destruct Hc as [H1 H2]. split; [intros i Hi; rewrite Hcm; by apply H1|].
    destruct H2 as [?|[? H2]]; [by left|right; split; [done|by rewrite Hcm]].
  - destruct Hc as [_ [->|[? _]]]; lia.
Qed.

(** The members that are known to store the entry at [i]: the node itself and
    the peers that have reported it. *)
Definition holders n (i : Z) : gset Z :=
  {[node_id_ n]} ∪ list_to_set (filter (λ p, i ≤ default 0 (match_index_ n !! p)) (peers_ n).*1).

(** The entry at [i] is of the node's term, and more than half of the members,
    which are the peers and the node, are known to store it. *)
Definition may_commit n (i : Z) : Prop :=
  ∃ e, log_ n !! Z.to_nat i = Some e ∧ entry_term e = current_term_ n ∧
    (S (length (peers_ n)) < 2 * size (holders n i))%nat.

(** The peers are distinct, the node is none of them, and it has counted them. *)
Definition peers_wf n : Prop :=
  NoDup (peers_ n).*1 ∧ node_id_ n ∉ (peers_ n).*1 ∧ cluster_size_ n = S (length (peers_ n)).

#[export] Instance peers_wf_dec n : Decision (peers_wf n).
Proof. unfold peers_wf. apply _. Defined.

Lemma filter_fst {A B} (P : A → Prop) `{∀ x, Decision (P x)} (l : list (A * B)) :
  filter P l.*1 = (filter (λ q, P (fst q)) l).*1.
Proof.
  induction l as [|[a b] l IH]; [done|]. rewrite fmap_cons, !filter_cons. simpl.
  case_decide; [rewrite fmap_cons|]; by rewrite IH.
Qed.

Lemma size_holders n i : peers_wf n → size (holders n i) = match_count n i.
Proof.
  intros (Hnd & Hni & _). unfold holders, match_count, index_of.
  rewrite size_union, size_singleton, size_list_to_set.
  - by rewrite filter_fst, length_fmap.
  - by apply NoDup_filter.
  - apply disjoint_singleton_l. rewrite elem_of_list_to_set, list_elem_of_filter. tauto.
Qed.

Lemma committable_may n i : peers_wf n → committable n i = true ↔ may_commit n i.
Proof.
  intros Hwf. unfold may_commit. rewrite size_holders by done. destruct Hwf as (_ & _ & Hsz).
  assert (∀ k, (Nat.div (cluster_size_ n) 2 < k)%nat ↔ (S (length (peers_ n)) < 2 * k)%nat) as Hhalf.
  { intros k. rewrite Hsz. pose proof (Nat.div_mod_eq (S (length (peers_ n))) 2).
    pose proof (Nat.mod_upper_bound (S (length (peers_ n))) 2). lia. }
  unfold committable. destruct (log_ n !! Z.to_nat i) as [e|].
  - rewrite andb_true_iff, Z.eqb_eq, bool_decide_eq_true, Hhalf. naive_solver.
  - naive_solver.
Qed.

(** C11: a leader that hears of a stored entry records it for that peer, and for
    no other.  Its commit index then is the last one, not before where it was,
    whose entry is of the leader's term and stored by more than half of the
    members as far as the leader knows, itself included, if there is any;
    everything up to it is applied; log, term and role are unchanged. *)
Theorem commit_rule n peer reply sent :
  peers_wf n →
  running_ n = true → state_ n = RaftState.LEADER → rpc_term reply ≤ current_term_ n →
  rpc_type reply = APPEND_ENTRIES_REPLY → rpc_payload reply = [x31] →
  callback_ok n → 0 ≤ last_applied_ n → 0 ≤ commit_index_ n →
  let stored := Z.max (default 0 (match_index_ n !! peer)) sent in
  ∃ n', HandleAppendEntriesReply peer reply sent n = (Ret tt, n') ∧
    (node_id_ n', peers_ n', current_term_ n', state_ n', log_ n') =
      (node_id_ n, peers_ n, current_term_ n, state_ n, log_ n) ∧
    match_index_ n' = <[peer := stored]> (match_index_ n) ∧
    next_index_ n' = <[peer := stored + 1]> (next_index_ n) ∧
    (commit_index_ n' = commit_index_ n ∨
     commit_index_ n < commit_index_ n' ∧ may_commit n' (commit_index_ n')) ∧
    (∀ i, commit_index_ n' < i < Z.of_nat (length (log_ n)) → ¬ may_commit n' i) ∧
    (commit_index_ n < commit_index_ n' →
     last_applied_ n' = Z.max (last_applied_ n) (commit_index_ n')).
Proof.
  intros Hwf Hrun Hst Ht Hty Hp Hok Ha H0 stored.
  destruct (success_reply_spec n peer reply sent) as (n' & Hr & Hcore & [Hno Hc] & Hle & Hap); [done..|].
  injection Hcore as E1 E2 E3 E4 E5 E6 E7 E8 E9 E10 E11 E12. simpl in *.
  assert (peers_wf n') as Hwf' by (unfold peers_wf; by rewrite E1, E2, E3).
  exists n'. split_and!; try done.
  - by rewrite E1, E2, E4, E6, E8.
  - destruct Hc as [?|[? Hc]]; [by left|right]. split; [lia|]. by apply committable_may.
  - intros i Hi Hmay. apply committable_may in Hmay; [|done]. rewrite Hno in Hmay; [done|lia].
Qed.

(** An AppendEntries request with a negative previous index, which the
    payload parser lets through, makes a node of the same or an older term
    index its log out of range: the behaviour is undefined. *)
Theorem negative_prev_index_undefined n term leader args payload :
  args_wf args → prev_log_index args < 0 → current_term_ n ≤ term →
  SerializeAppendEntriesPayload args = Ret payload →
  fst (HandleMessage (mkRpcMessage APPEND_ENTRIES term leader payload) n) = Undef.
Proof.
  intros Hwf Hneg Ht Hser. unfold HandleMessage. cbn [rpc_type rpc_payload rpc_term rpc_sender_id].
  destruct (payload_roundtrip args AppendEntriesArgs_init Hwf) as (bs & Hs & Hd).
  rewrite Hser in Hs. injection Hs as <-.
  erewrite bind_ret by (unfold lift; by rewrite Hd). cbv beta iota.
  rewrite HandleAppendEntries_body by done. unfold mbind at 1, M_bind at 1. unfold AppendBody.
  erewrite bind_ret by done. rewrite (proj2 (Z.ltb_lt _ _)) by lia.
  unfold at_z. rewrite (proj2 (Z.ltb_lt _ 0)) by done. done.
Qed.

(** A leader trusts a success reply of an older term.  When the entries it
    acknowledges have been cut from the leader's log since, the next
    heartbeat reads the log out of range: the behaviour is undefined. *)
Theorem stale_reply_undefined n peer address request reply sent :
  running_ n = true → state_ n = RaftState.LEADER → (peer, address) ∈ peers_ n →
  rpc_term reply < current_term_ n → rpc_type reply = APPEND_ENTRIES_REPLY →
  rpc_payload reply = [x31] → Z.of_nat (length (log_ n)) ≤ sent →
  callback_ok n → 0 ≤ last_applied_ n → 0 ≤ commit_index_ n →
  ∃ n', HandleReply (AppendCall peer address request sent) reply n = (Ret tt, n') ∧
    fst (SendHeartbeats n') = Undef.
Proof.
  intros Hrun Hst Hin Ht Hty Hp Hsent Hok Ha H0. cbn [HandleReply].
  rewrite success_reply_run by (done || lia).
  assert (wp AdvanceCommitIndexLocked (matched peer sent n)
    (λ _ n', core n' = core (matched peer sent n))) as Hwp.
  { by apply Advance_total. }
  apply wp_run in Hwp as ([] & n' & Hr & Hcore). exists n'. split; [done|].
  injection Hcore as _ Ep _ _ _ Es _ El En _ _ Er.
  rewrite SendHeartbeats_leader by congruence. rewrite Ep.
  rewrite (HeartbeatCalls_undef n' (peers_ n) (peer, address)); [done|done|].
  right. rewrite El, En. unfold matched, index_of. simpl. rewrite lookup_insert_eq. simpl. lia.
Qed.
End properties.

(** ** Concrete nodes *)

(** A node of a cluster of three; the callback records its calls. *)
Definition record_call : bytes → Z → M (list (bytes * Z)) unit :=
  λ command index, modify (λ calls, calls ++ [(command, index)]).

Definition sample_peers : list (Z * bytes) := [(2, [x62; x3a; x32]); (3, [x63; x3a; x33])].

Definition sample_node (term : Z) (state : RaftState.t) (log : list LogEntry)
    : RaftNode (list (bytes * Z)) :=
  mkRaftNode 1 sample_peers 1 3 term 1 state 1 {[1; 2]} 0 0 log 0 0
    {[2 := 1; 3 := 1]} {[2 := 0; 3 := 0]} (Some record_call) true 0 200 [].

Lemma sample_callback_ok term state log : callback_ok (sample_node term state log).
Proof. intros f bs i e [= <-]. by eexists. Qed.

Definition sample_log : list LogEntry :=
  [mkLogEntry 0 0 []; mkLogEntry 1 1 [x61]; mkLogEntry 1 2 [x62]].

Lemma append_entries_correct_witness :
  let n := sample_node 2 RaftState.CANDIDATE sample_log in
  let es := [mkLogEntry 1 1 [x61]; mkLogEntry 2 2 [x63]] in
  let run := HandleAppendEntries 2 3 0 0 1 es n in
  (2 < current_term_ n → run = (Ret (append_reply n false), n)) ∧
  (current_term_ n ≤ 2 → ∃ n' success, run = (Ret (append_reply n' success), n') ∧
    follows 2 3 n n' ∧ (success = true ↔ log_matches n 0 0) ∧
    if success then
      let k := S (Z.to_nat 0) in
      take k (log_ n') = take k (log_ n) ∧
      (same_terms es k (log_ n) ∧ log_ n' = log_ n ∨
       ∃ j, ¬ same_terms es k (log_ n) ∧ same_terms (take j es) k (log_ n) ∧
         log_ n' = take (k + j) (log_ n) ++ drop j es) ∧
      commit_index_ n' = (if commit_index_ n <? 1 then Z.min 1 (0 + Z.of_nat (length es))
                          else commit_index_ n) ∧
      commit_index_ n' ≤ Z.max (commit_index_ n) (Z.of_nat (length (log_ n')) - 1) ∧
      (commit_index_ n < 1 → last_applied_ n' = Z.max (last_applied_ n) (commit_index_ n'))
    else log_ n' = log_ n ∧ commit_index_ n' = commit_index_ n ∧ last_applied_ n' = last_applied_ n).
Proof. apply append_entries_correct; [done|done|apply sample_callback_ok]. Defined.

(** Peer 2 reports the entry 2: with the leader it is a majority of three. *)
Lemma commit_rule_witness :
  let n := sample_node 1 RaftState.LEADER sample_log in
  let reply := mkRpcMessage APPEND_ENTRIES_REPLY 1 2 [x31] in
  ∃ n', HandleAppendEntriesReply 2 reply 2 n = (Ret tt, n') ∧ match_index_ n' !! 2 = Some 2 ∧
    (commit_index_ n' = 0 ∨ 0 < commit_index_ n' ∧ may_commit n' (commit_index_ n')) ∧
    (∀ i, commit_index_ n' < i < 3 → ¬ may_commit n' i).
Proof.
  intros n reply.
  destruct (commit_rule n 2 reply 2) as (n' & Hr & _ & Hm & _ & Hc & Hno & _); try done.
  - apply (bool_decide_unpack _). vm_compute. exact I.
  - apply sample_callback_ok.
  - exists n'. split; [exact Hr|]. split; [|exact (conj Hc Hno)]. rewrite Hm. vm_compute. reflexivity.
Defined.

Lemma negative_prev_index_undefined_witness :
  ∃ payload, fst (HandleMessage (mkRpcMessage APPEND_ENTRIES 2 3 payload)
    (sample_node 2 RaftState.FOLLOWER sample_log)) = Undef.
Proof.
  eexists. apply (negative_prev_index_undefined _ 2 3 (mkAppendEntriesArgs (-1) 0 0 [])).
  - apply (bool_decide_unpack _). vm_compute. exact I.
  - done.
  - done.
  - vm_compute. reflexivity.
Defined.

Lemma stale_reply_undefined_witness :
  let n := sample_node 3 RaftState.LEADER sample_log in
  ∃ n', HandleReply (AppendCall 2 [x62; x3a; x32] (mkRpcMessage APPEND_ENTRIES 1 1 []) 5)
      (mkRpcMessage APPEND_ENTRIES_REPLY 1 2 [x31]) n = (Ret tt, n') ∧
    fst (SendHeartbeats n') = Undef.
Proof. apply stale_reply_undefined; try done; [by left|apply sample_callback_ok]. Defined.
