(* ===== verification/RaftServer.v ===== *)
(** * The replicated server (src/raft/raft_server.{h,cpp})

    A Raft node whose commit callback is the [Apply] of a state machine over
    the query engine: the node's environment is that state machine. *)

From S2P Require Export RaftHandlers StateMachine.
From S2P Require Import BPlusTreeSpec.

Local Open Scope Z_scope.

Section RaftServer.
Context {T : Type} `{Index T}.
Notation Server := (RaftNode (RaftStateMachine T)).

(** The constructor; [query_engine] may be null. *)
Definition RaftServer_new (node_id : Z) (peers : list (Z * bytes)) (listen_port : Z)
    (now draw : Z) (query_engine : option (Table T)) : Server :=
  snd (SetOnCommitCallback (Some Apply)
    (RaftNode_new node_id peers listen_port now draw (RaftStateMachine_new query_engine))).

Definition ServerStart (server_start : outcome unit) : M Server unit := Start server_start.
Definition ServerStop : M Server unit := Stop.

Definition SubmitWrite (cmd : RaftCommand) : M Server bool :=
  state ← RaftNode.GetState;
  if negb (bool_decide (state = RaftState.LEADER)) then mret false else
  command ← lift (Serialize cmd);
  Propose command.

(** [query_engine_->m]: undefined on a null pointer.  Reads do not go through
    the log. *)
Definition on_engine {A} (m : M (Table T) A) : M Server A := λ s,
  match engine_ (env_ s) with
  | None => (Undef, s)
  | Some e =>
      let '(o, e') := m e in
      (o, node_set_env (mkStateMachine (Some e') (last_applied_index_ (env_ s))) s)
  end.

Definition SelectById (id : Z) : M Server (option Record_) := on_engine (QueryEngine.SelectById id).
Definition SelectWhere (predicate : Record_ → bool) : M Server (list Record_) :=
  on_engine (QueryEngine.SelectWhere predicate).

Definition GetState : M Server RaftState.t := RaftNode.GetState.
Definition GetCommitIndex : M Server Z := RaftNode.GetCommitIndex.
End RaftServer.

Section spec.
Context {T : Type} `{IndexLaws T}.
Notation Server := (RaftNode (RaftStateMachine T)).
Implicit Types s : Server.

(** The commands at the positions from [lo + 1] to [hi] of a log. *)
Definition log_commands (log : list LogEntry) (lo hi : Z) : list bytes :=
  (λ i, entry_command (nth (Z.to_nat i) log (mkLogEntry 0 0 []))) <$> seqZ (lo + 1) (hi - lo).

(** The database of the server holds [c], and its state machine has applied
    exactly what the node counts as applied. *)
Definition server_ok s cap other c lg (lim n : Z) : Prop :=
  on_commit_ s = Some Apply ∧ sm_ok (env_ s) cap other c lg lim n (last_applied_ s).

Lemma deliveries_log log lo hi :
  lo ≤ hi → deliveries lo (log_commands log lo hi)
    ((λ i, (entry_command (nth (Z.to_nat i) log (mkLogEntry 0 0 [])), i)) <$> seqZ (lo + 1) (hi - lo)).
Proof.
  intros Hle. remember (Z.to_nat (hi - lo)) as k eqn:Hk. revert lo Hle Hk.
  induction k as [|k IH]; intros lo Hle Hk; unfold log_commands.
  - rewrite seqZ_nil by lia. constructor.
  - rewrite seqZ_cons by lia. rewrite !fmap_cons.
    replace (Z.succ (lo + 1)) with (lo + 1 + 1) by lia.
    replace (Z.pred (hi - lo)) with (hi - (lo + 1)) by lia.
    apply deliveries_next. apply IH; lia.
Qed.

Lemma server_apply_spec s cap other c lg lim n (Q : unit → Server → Prop) :
  let commands := log_commands (log_ s) (last_applied_ s) (commit_index_ s) in
  server_ok s cap other c lg lim (2 * Z.of_nat (length commands) + n) →
  0 ≤ last_applied_ s ≤ commit_index_ s → commit_index_ s < Z.of_nat (length (log_ s)) →
  3 * Z.of_nat (size c + length commands) + 4 ≤ cap → 0 ≤ n →
  (∀ s', server_ok s' cap other (commands_after commands c) lg lim n →
     core s' = core s → commit_index_ s' = commit_index_ s → last_applied_ s' = commit_index_ s → Q tt s') →
  wp ApplyCommittedEntriesLocked s Q.
Proof.
  intros commands [Hcb Hsm] Ha Hc Hcap Hn HQ. apply ApplyCommittedEntriesLocked_spec; [lia|done|].
  rewrite Hcb. unfold run_callback, pending_calls. rewrite Z.max_r by lia.
  pose proof (deliveries_log (log_ s) (last_applied_ s) (commit_index_ s) ltac:(lia)) as Hdel.
  eapply wp_mono; [by apply (ApplyAll_spec _ _ _ Hdel (env_ s) cap other c lg lim n)|].
  cbn beta. intros [] e He. apply HQ; [|done..]. split; [done|]. simpl.
  replace (commit_index_ s) with (last_applied_ s + Z.of_nat (length commands)) at 1; [done|].
  unfold commands, log_commands. rewrite length_fmap, length_seqZ. lia.
Qed.
End spec.

(** ** Properties *)

Section properties.
Context {T : Type} `{IndexLaws T}.
Notation Server := (RaftNode (RaftStateMachine T)).
Implicit Types s : Server.

(** C9: a write is refused by every server but the leader, without any change;
    the leader appends one entry of its term that parses back to the command. *)
Theorem submit_write_correct s cmd :
  (state_ s ≠ RaftState.LEADER → SubmitWrite cmd s = (Ret false, s)) ∧
  (state_ s = RaftState.LEADER → command_wf cmd → ∃ bs,
     SubmitWrite cmd s = (Ret true, node_set_log
       (log_ s ++ [mkLogEntry (current_term_ s) (Z.of_nat (length (log_ s))) bs]) s) ∧
     Deserialize bs = Ret cmd).
Proof.
  unfold SubmitWrite. erewrite bind_ret by done. split; intros Hs.
  - by rewrite bool_decide_eq_false_2.
  - intros Hwf. exists (command_bytes cmd). split; [|by apply Deserialize_bytes].
    rewrite bool_decide_eq_true_2 by done. cbn [negb].
    erewrite bind_ret by (unfold lift; by rewrite Serialize_bytes).
    unfold Propose. erewrite bind_ret by done. by rewrite bool_decide_eq_true_2.
Qed.

(** C8: replication to a follower, from the AppendEntries call down to the
    database.  A server that has applied its log up to its commit index accepts
    entries that reach at least that far, from a leader that has committed
    further: it answers success, executes exactly the newly committed commands
    in order, whatever bytes they are, and its database then answers as the
    map obtained by executing them on the former records. *)
Theorem server_follower_applies s cap other c lg lim n term leader prev prev_term lc es :
  let log' := merge_log es (S (Z.to_nat prev)) (log_ s) in
  let commit' := Z.min lc (prev + Z.of_nat (length es)) in
  let commands := log_commands log' (commit_index_ s) commit' in
  server_ok s cap other c lg lim (2 * Z.of_nat (length commands) + n) → 0 ≤ n →
  3 * Z.of_nat (size c + length commands) + 4 ≤ cap →
  0 ≤ prev → log_matches s prev prev_term → current_term_ s ≤ term →
  last_applied_ s = commit_index_ s → 0 ≤ commit_index_ s ≤ prev + Z.of_nat (length es) →
  commit_index_ s < lc →
  ∃ s', HandleAppendEntries term leader prev prev_term lc es s = (Ret (append_reply s' true), s') ∧
    log_ s' = log' ∧ commit_index_ s' = commit' ∧ last_applied_ s' = commit' ∧
    server_ok s' cap other (commands_after commands c) lg lim n ∧
    ∀ id, fst (SelectById id s') = Ret (commands_after commands c !! id).
Proof.
  intros log' commit' commands Hok Hn Hcap Hp0 Hm Ht Hla Hc Hlc.
  rewrite HandleAppendEntries_body by done.
  destruct (followed_keeps term leader s) as (_ & _ & _ & Kl & Kc & Ka & Ke & Kcb).
  set (s1 := followed term leader s) in *. clearbody s1.
  set (s2 := node_set_commit commit' (node_set_log log' s1)).
  apply fmap_Some in Hm as (e & He & ->). pose proof (lookup_lt_Some _ _ _ He) as Hlt.
  pose proof (merge_log_length es (S (Z.to_nat prev)) (log_ s) ltac:(lia)) as Hlen. fold log' in Hlen.
  assert (commit' = Z.min lc (prev + Z.of_nat (length es))) as Ecm by done.
  assert (wp ApplyCommittedEntriesLocked s2 (λ _ s', server_ok s' cap other (commands_after commands c) lg lim n ∧
    core s' = core s2 ∧ commit_index_ s' = commit' ∧ last_applied_ s' = commit')) as Hwp.
  { apply (server_apply_spec s2 cap other c lg lim n); subst s2; simpl; rewrite ?Ka, ?Hla; fold commands;
      [|lia|lia|done|done|done].
    destruct Hok as [Hcb Hsm]. split; simpl; [by rewrite Kcb|by rewrite Ke, Ka]. }
  apply wp_run in Hwp as ([] & s' & Hrun & Hok' & Hcore & Hcommit & Happlied). exists s'.
  injection Hcore as _ _ _ _ _ _ _ El _ _ _ _.
  split; [|split_and!; try done].
  - erewrite bind_ret; [done|]. rewrite AppendBody_run; [|done|unfold log_matches; by rewrite Kl, He].
    rewrite Kl, Kc. rewrite (proj2 (Z.ltb_lt _ _)) by done. unfold when. rewrite bind_assoc.
    erewrite bind_ret by done. fold log' commit'. by erewrite bind_ret by exact Hrun.
  - intros id. destruct Hok' as (_ & _ & e' & Hen & w & Hth & _). unfold SelectById, on_engine.
    rewrite Hen. destruct (proj1 (wp_run _ _ _) (SelectById_spec e' _ _ _ _ id Hth)) as (o & t2 & Hsel & -> & _).
    by rewrite Hsel.
Qed.
End properties.

(** ** A concrete server *)

Definition sample_server : RaftNode (RaftStateMachine (BPlusTree BufferPoolManager)) :=
  RaftServer_new 1 sample_peers 1 0 200 (Some (mkTable fresh_tree (Some fresh_wal))).

Definition sample_entries : list LogEntry :=
  [mkLogEntry 1 1 insert_command; mkLogEntry 1 2 delete_command].

Lemma submit_write_correct_witness :
  let cmd := mkRaftCommand CommandType.INSERT 5 [x61] 50 in
  let s := node_set_state RaftState.LEADER sample_server in
  (state_ s ≠ RaftState.LEADER → SubmitWrite cmd s = (Ret false, s)) ∧
  (state_ s = RaftState.LEADER → command_wf cmd → ∃ bs,
     SubmitWrite cmd s = (Ret true, node_set_log
       (log_ s ++ [mkLogEntry (current_term_ s) (Z.of_nat (length (log_ s))) bs]) s) ∧
     Deserialize bs = Ret cmd).
Proof. apply submit_write_correct. Defined.

Lemma server_follower_applies_witness :
  let commands := log_commands (merge_log sample_entries 1 (log_ sample_server)) 0 2 in
  ∃ s', HandleAppendEntries 1 2 0 0 2 sample_entries sample_server = (Ret (append_reply s' true), s') ∧
    log_ s' = merge_log sample_entries 1 (log_ sample_server) ∧ commit_index_ s' = 2 ∧
    last_applied_ s' = 2 ∧
    server_ok s' int32_max (pages fresh_pool) (commands_after commands ∅) true 100 0 ∧
    ∀ id, fst (SelectById id s') = Ret (commands_after commands ∅ !! id).
Proof.
  apply (server_follower_applies sample_server int32_max (pages fresh_pool) ∅ true 100 0 1 2 0 0 2
           sample_entries); try done.
  split; [done|]. split; [done|]. eexists. split; [done|].
  apply (table_ok_empty true); try done; [apply fresh_tree_holds|].
  apply fresh_logs.
Defined.
