(* ===== verification/RaftSteps.v ===== *)
(** * What a handler may do to a node's term, vote, role and log

    For each handler, the facts the proofs about clusters rest on.  They hold
    whenever the handler returns. *)

From S2P Require Export RaftHandlers.

Local Open Scope Z_scope.

Section steps.
Context {E : Type}.
Notation Node := (RaftNode E).
Implicit Types n : Node.

Definition same_config n n' : Prop :=
  node_id_ n' = node_id_ n ∧ peers_ n' = peers_ n ∧ cluster_size_ n' = cluster_size_ n.

(** The term never falls, a vote is kept within its term, and the node does not
    enter or continue a candidacy or a leadership but the one it had. *)
Record passive n n' : Prop := {
  ps_config : same_config n n';
  ps_term : current_term_ n ≤ current_term_ n';
  ps_vote : current_term_ n' = current_term_ n → voted_for_ n ≠ -1 → voted_for_ n' = voted_for_ n;
  ps_role : state_ n' ≠ RaftState.FOLLOWER →
    state_ n' = state_ n ∧ current_term_ n' = current_term_ n ∧
    votes_received_ n' = votes_received_ n;
}.

Lemma passive_refl n : passive n n.
Proof. by split. Qed.

Lemma passive_core n n' : core n' = core n → passive n n' ∧ log_ n' = log_ n.
Proof. intros [= ????????]. split; [|done]. split; [done|lia|done|done]. Qed.

Lemma passive_tweak n n1 n' : core n1 = core n → passive n1 n' → passive n n'.
Proof.
  intros [= E1 E2 E3 E4 E5 E6 E7 E8] [(C1 & C2 & C3) T V R].
  rewrite E4, E5, E6, E7 in *. split; [|done..]. split_and!; congruence.
Qed.

Ltac passive_tac :=
  split; [split_and!; done|simpl; lia|simpl; (done || lia)|simpl; done].

Lemma HandleRequestVote_step t c n :
  wlp (HandleRequestVote t c) n (λ r n', passive n n' ∧ log_ n' = log_ n ∧ ∃ g,
    r = mkRpcMessage REQUEST_VOTE_REPLY (current_term_ n') (node_id_ n) (vote_payload g) ∧
    (g = true → current_term_ n' = t ∧ voted_for_ n' = c)).
Proof.
  unfold HandleRequestVote. wlp_steps. destruct (Z.leb_spec (current_term_ n) t) as [Hle|Hgt].
  2: { wlp_steps. split; [apply passive_refl|]. split; [done|]. by exists false. }
  wlp_steps. destruct (Z.ltb_spec (current_term_ n) t) as [Hlt|Hge]; unfold when, StepDown; wlp_steps.
  - unfold ResetElectionDeadlineLocked. wlp_steps. simpl. wlp_steps. simpl.
    split; [passive_tac|]. split; [done|]. by exists true.
  - assert (t = current_term_ n) as -> by lia. unfold ResetElectionDeadlineLocked. wlp_steps. simpl.
    destruct (Z.eqb_spec (voted_for_ n) (-1)) as [Hv|Hv]; simpl.
    + wlp_steps. split; [passive_tac|]. split; [done|]. by exists true.
    + destruct (Z.eqb_spec (voted_for_ n) c) as [Hc|Hc]; simpl; wlp_steps.
      * split; [passive_tac|]. split; [done|]. by exists true.
      * split; [passive_tac|]. split; [done|]. by exists false.
Qed.

Lemma MergeEntries_wlp es index n :
  0 ≤ index < Z.of_nat (length (log_ n)) →
  wlp (MergeEntries es index) n (λ _ n',
    n' = node_set_log (merge_log es (S (Z.to_nat index)) (log_ n)) n).
Proof. intros Hi a s'. rewrite MergeEntries_run by done. by intros [= <- <-]. Qed.

Lemma AppendBody_step prev prev_term lc es n :
  wlp (AppendBody prev prev_term lc es) n (λ b n',
    core (node_set_log [] n') = core (node_set_log [] n) ∧
    (log_ n' = log_ n ∨ 0 ≤ prev ∧ log_matches n prev prev_term ∧
       log_ n' = merge_log es (S (Z.to_nat prev)) (log_ n))).
Proof.
  unfold AppendBody. wlp_steps. apply (wlp_mono _ _ (λ b n', n' = n ∧
    (b = true → 0 ≤ prev < Z.of_nat (length (log_ n)) ∧ log_matches n prev prev_term))).
  { destruct (Z.ltb_spec prev (Z.of_nat (length (log_ n)))); [|by wlp_steps].
    wlp_steps. apply wlp_at_z. intros e H0 He. wlp_steps. split; [done|]. intros ?%Z.eqb_eq.
    split; [done|]. unfold log_matches. rewrite He. simpl. congruence. }
  intros [] n1 [-> Hm]; [|wlp_steps; split; [done|by left]]. destruct (Hm eq_refl) as [Hp Hlm].
  wlp_steps. eapply wlp_mono; [by apply MergeEntries_wlp|]. intros _ n1 ->. wlp_steps. simpl.
  apply (wlp_mono _ _ (λ _ n', core n' = core (node_set_log (merge_log es (S (Z.to_nat prev)) (log_ n)) n))).
  - destruct (_ <? _); unfold when; wlp_steps; [|done].
    eapply wlp_mono; [apply ApplyCommittedEntriesLocked_core|]. done.
  - intros _ n' Hc. wlp_steps. unfold core in Hc. simpl in Hc. injection Hc as.
    split; [unfold core; simpl; congruence|right; split; [lia|by split]].
Qed.

Lemma followed_passive term leader n :
  current_term_ n ≤ term → passive n (followed term leader n) ∧
  state_ (followed term leader n) = RaftState.FOLLOWER.
Proof.
  intros Ht. unfold followed. destruct (Z.ltb_spec (current_term_ n) term); simpl;
    (split; [passive_tac|done]).
Qed.

Lemma HandleAppendEntries_step term leader prev prev_term lc es n :
  wlp (HandleAppendEntries term leader prev prev_term lc es) n (λ r n', passive n n' ∧
    rpc_type r = APPEND_ENTRIES_REPLY ∧ (state_ n' ≠ RaftState.FOLLOWER → log_ n' = log_ n) ∧
    (log_ n' = log_ n ∨ 0 ≤ prev ∧ log_matches n prev prev_term ∧
       log_ n' = merge_log es (S (Z.to_nat prev)) (log_ n))).
Proof.
  destruct (decide (current_term_ n ≤ term)) as [Ht|Ht]; intros r n' Hrun.
  - rewrite HandleAppendEntries_body in Hrun by done.
    destruct (followed_passive term leader n Ht) as [Hp Hst].
    destruct (followed_keeps term leader n) as (_ & _ & _ & Kl & _).
    set (n1 := followed term leader n) in *. clearbody n1. revert r n' Hrun.
    apply wlp_bind. eapply wlp_mono; [apply AppendBody_step|]. intros b n2 [Hc Hl].
    wlp_steps. unfold log_matches in Hl. rewrite Kl in Hl. unfold core in Hc. simpl in Hc.
    injection Hc as E1 E2 E3 E4 E5 E6 E7. split_and!; [|done| |done].
    + destruct Hp as [(C1 & C2 & C3) T V R]. split; [split_and!; congruence|lia| |].
      * intros Hn. rewrite E4 in Hn. rewrite E5. by apply V.
      * by rewrite E6, Hst.
    + by rewrite E6, Hst.
  - rewrite HandleAppendEntries_stale in Hrun by lia. injection Hrun as <- <-.
    split; [apply passive_refl|]. split_and!; try done. by left.
Qed.

Lemma StepDown_step term n :
  current_term_ n < term → wlp (StepDown term ;; ResetElectionDeadlineLocked) n
    (λ _ n', passive n n' ∧ log_ n' = log_ n).
Proof.
  intros Ht. unfold StepDown, ResetElectionDeadlineLocked. wlp_steps.
  split; [|done]. passive_tac.
Qed.

(** A leader just made: everything else as before. *)
Lemma BecomeLeader_step n :
  wlp BecomeLeader n (λ _ n', same_config n n' ∧ current_term_ n' = current_term_ n ∧
    voted_for_ n' = voted_for_ n ∧ state_ n' = RaftState.LEADER ∧
    votes_received_ n' = votes_received_ n ∧ log_ n' = log_ n ∧ running_ n' = running_ n).
Proof. unfold BecomeLeader. wlp_steps. done. Qed.

(** A vote that counts. *)
Definition counts (election_term peer : Z) (reply : RpcMessage) n n' : Prop :=
  state_ n = RaftState.CANDIDATE ∧ current_term_ n = election_term ∧
  rpc_type reply = REQUEST_VOTE_REPLY ∧ rpc_term reply = election_term ∧
  rpc_payload reply = [x31] ∧
  same_config n n' ∧ current_term_ n' = current_term_ n ∧ voted_for_ n' = voted_for_ n ∧
  votes_received_ n' = {[peer]} ∪ votes_received_ n ∧ log_ n' = log_ n ∧
  (state_ n' = RaftState.CANDIDATE ∨ state_ n' = RaftState.LEADER ∧ has_majority n' = true).

Lemma HandleVoteReply_step et peer reply n :
  wlp (HandleVoteReply et peer reply) n (λ _ n',
    passive n n' ∧ log_ n' = log_ n ∨ counts et peer reply n n').
Proof.
  unfold HandleVoteReply. wlp_steps. unfold id.
  destruct (running_ n); simpl; [|wlp_steps; left; split; [apply passive_refl|done]].
  destruct (Z.ltb_spec (current_term_ n) (rpc_term reply)) as [Hlt|Hge].
  { eapply wlp_mono; [by apply StepDown_step|]. by left. }
  match goal with |- wlp (if ?c then _ else _) _ _ => destruct c eqn:Ec end.
  { wlp_steps. left. split; [apply passive_refl|done]. }
  rewrite !orb_false_iff, !negb_false_iff, !bool_decide_eq_true, !Z.eqb_eq in Ec.
  destruct Ec as ((((Hs & Ht) & Hty) & Hrt) & Hp). wlp_steps.
  destruct (has_majority _) eqn:Hm; unfold when.
  - eapply wlp_mono; [apply BecomeLeader_step|]. cbn beta.
    intros _ n' (C & T & V & St & Vr & L & _). right.
    split_and!; try done. right. split; [done|]. rewrite <- Hm. unfold has_majority.
    destruct C as (_ & _ & ->). by rewrite Vr.
  - wlp_steps. right. split_and!; try done. by left.
Qed.

Lemma HandleAppendEntriesReply_step peer reply sent n :
  wlp (HandleAppendEntriesReply peer reply sent) n (λ _ n', passive n n' ∧ log_ n' = log_ n).
Proof.
  unfold HandleAppendEntriesReply. wlp_steps. unfold id.
  destruct (_ || _); [wlp_steps; split; [apply passive_refl|done]|].
  destruct (Z.ltb_spec (current_term_ n) (rpc_term reply)) as [Hlt|Hge]; [by apply StepDown_step|].
  destruct (bool_decide _); unfold when; [|wlp_steps; split; [apply passive_refl|done]].
  destruct (bool_decide _); wlp_steps.
  - eapply wlp_mono; [apply AdvanceCommitIndexLocked_core|]. cbn beta.
    intros _ n' Hc. unfold core in Hc. simpl in Hc. injection Hc as.
    split; [|done]. split; [split_and!; congruence|lia|done|done].
  - split; [|done]. passive_tac.
Qed.

(** ** Calls *)

(** A heartbeat of [n]: the log from the peer's next index on. *)
Definition heartbeat_call n (call : RpcCall) : Prop :=
  ∃ peer address args payload last, peer ∈ (peers_ n).*1 ∧
    call = AppendCall peer address (mkRpcMessage APPEND_ENTRIES (current_term_ n) (node_id_ n) payload) last ∧
    SerializeAppendEntriesPayload args = Ret payload ∧ 0 ≤ prev_log_index args ∧
    log_matches n (prev_log_index args) (prev_log_term args) ∧
    leader_commit args = commit_index_ n ∧
    entries args = drop (S (Z.to_nat (prev_log_index args))) (log_ n).

Lemma HeartbeatCalls_step peers n :
  (∀ p, p ∈ peers → p ∈ peers_ n) →
  wlp (HeartbeatCalls peers) n (λ calls n', n' = n ∧ ∀ c, c ∈ calls → heartbeat_call n c).
Proof.
  induction peers as [|p peers IH]; intros Hin; cbn [HeartbeatCalls].
  { wlp_steps. split; [done|]. by intros c ?%not_elem_of_nil. }
  wlp_steps. unfold id, HeartbeatArgs. wlp_steps. unfold id. apply wlp_at_z. intros e H0 He.
  wlp_steps. apply wlp_lift. intros payload Hser. apply wlp_bind.
  eapply wlp_mono; [apply IH; intros q Hq; apply Hin; by right|]. cbn beta.
  intros calls n' [-> Hc]. wlp_steps. split; [done|]. intros c [->|Hcs]%elem_of_cons; [|by apply Hc].
  eexists _, _, _, _, _. split_and!; [|done|exact Hser|done| |done|].
  - apply list_elem_of_fmap_2, Hin. by left.
  - unfold log_matches. simpl. by rewrite He.
  - simpl. f_equal. lia.
Qed.

Lemma SendHeartbeats_step n :
  wlp SendHeartbeats n (λ calls n', n' = n ∧
    (calls = [] ∨ state_ n = RaftState.LEADER ∧ ∀ c, c ∈ calls → heartbeat_call n c)).
Proof.
  unfold SendHeartbeats. wlp_steps. unfold id. destruct (running_ n); simpl; [|wlp_steps; by split; [|left]].
  case_bool_decide as Hs; simpl; [|wlp_steps; by split; [|left]].
  eapply wlp_mono; [by apply HeartbeatCalls_step|]. cbn beta. intros calls n' [-> Hc].
  split; [done|by right].
Qed.

(** An election begun: a new term with a vote for itself; leadership at once
    only without peers. *)
Definition campaigns n n' (calls : list RpcCall) : Prop :=
  same_config n n' ∧ current_term_ n' = current_term_ n + 1 ∧ voted_for_ n' = node_id_ n ∧
  votes_received_ n' = {[node_id_ n]} ∧ log_ n' = log_ n ∧
  (state_ n' = RaftState.CANDIDATE ∧
   calls = (λ peer, VoteCall (fst peer) (snd peer)
      (mkRpcMessage REQUEST_VOTE (current_term_ n') (node_id_ n) []) (current_term_ n')) <$> peers_ n ∨
   state_ n' = RaftState.LEADER ∧ has_majority n' = true ∧
   ∀ c, c ∈ calls → heartbeat_call n' c).

Lemma StartElection_step n :
  wlp StartElection n (λ calls n', n' = n ∧ calls = [] ∨ campaigns n n' calls).
Proof.
  unfold StartElection. wlp_steps. unfold id. destruct (_ || _); [wlp_steps; by left|].
  wlp_steps. unfold incr_signed. destruct (_ =? _); [by intros a s'|]. wlp_steps.
  unfold ResetElectionDeadlineLocked. wlp_steps. destruct (has_majority _) eqn:Hm; wlp_steps.
  - eapply wlp_mono; [apply BecomeLeader_step|]. cbn beta.
    intros _ n' (C & T & V & St & Vr & L & Rn).
    eapply wlp_mono; [apply SendHeartbeats_step|]. cbn beta. intros calls n2 [-> Hc]. right.
    destruct C as (C1 & C2 & C3). split_and!; try done. right. split_and!; [done| |].
    + rewrite <- Hm. unfold has_majority. by rewrite C3, Vr.
    + destruct Hc as [->|[_ Hc]]; [|done]. by intros c ?%not_elem_of_nil.
  - right. split_and!; try done. by left.
Qed.
End steps.
