(* ===== verification/RaftCluster.v ===== *)
(** * A cluster of Raft nodes

    The nodes of a cluster, the RPC calls they have made and the replies that
    were given.  Calls and replies stay available, so that they may be
    delivered late, in any order, more than once or never.  A step runs one
    handler of one node to its end; a handler that leaves defined behaviour
    makes no step.  The file ends with the invariant on votes. *)

From S2P Require Export RaftSteps.

Local Open Scope Z_scope.

Section cluster.
Context {E : Type}.
Notation Node := (RaftNode E).
Implicit Types n : Node.

(** What a node does by itself.  A round of the election loop gives up the
    mutex before it sends heartbeats or opens an election, and these may then
    come later: both are acts of their own too. *)
Inductive act :=
  | ActRound
  | ActHeartbeats
  | ActElection
  | ActPropose (command : bytes)
  | ActStart (server_start : outcome unit)
  | ActStop
  | ActTick (now draw : Z).

Definition run_act (a : act) : M Node (list RpcCall) :=
  match a with
  | ActRound => ElectionLoopRound
  | ActHeartbeats => SendHeartbeats
  | ActElection => StartElection
  | ActPropose command => Propose command ;; mret []
  | ActStart o => Start o ;; mret []
  | ActStop => Stop ;; mret []
  | ActTick now draw => modify (node_set_clock now) ;; modify (node_set_draw draw) ;; mret []
  end.

Definition call_peer (c : RpcCall) : Z :=
  match c with VoteCall p _ _ _ | AppendCall p _ _ _ => p end.
Definition call_request (c : RpcCall) : RpcMessage :=
  match c with VoteCall _ _ r _ | AppendCall _ _ r _ => r end.

(** A reply is kept with the node that made the call and the call. *)
Record world := mkWorld {
  w_nodes : gmap Z Node;
  w_calls : list (Z * RpcCall);
  w_replies : list (Z * RpcCall * RpcMessage);
}.

(** A log within the limits of the wire format. *)
Definition log_small n : Prop :=
  Forall entry_wf (log_ n) ∧ Z.of_nat (length (log_ n)) < 2 ^ 32 ∧ in_signed 64 (commit_index_ n).

#[export] Instance log_small_dec n : Decision (log_small n).
Proof. unfold log_small. apply _. Defined.

Inductive event :=
  | EvLocal (i : Z) (a : act)
  | EvDeliver (k : nat)
  | EvReply (k : nat).

Definition run_event (e : event) (w : world) : option world :=
  match e with
  | EvLocal i a =>
      n ← w_nodes w !! i;
      if bool_decide (log_small n) then
        match run_act a n with
        | (Ret calls, n') =>
            Some (mkWorld (<[i := n']> (w_nodes w)) (w_calls w ++ (pair i <$> calls)) (w_replies w))
        | _ => None
        end
      else None
  | EvDeliver k =>
      '(i, c) ← w_calls w !! k;
      n ← w_nodes w !! call_peer c;
      match HandleMessage (call_request c) n with
      | (Ret r, n') =>
          Some (mkWorld (<[call_peer c := n']> (w_nodes w)) (w_calls w) (w_replies w ++ [(i, c, r)]))
      | _ => None
      end
  | EvReply k =>
      '(i, c, r) ← w_replies w !! k;
      n ← w_nodes w !! i;
      match HandleReply c r n with
      | (Ret _, n') => Some (mkWorld (<[i := n']> (w_nodes w)) (w_calls w) (w_replies w))
      | _ => None
      end
  end.

Definition cluster_step (w w' : world) : Prop := ∃ e, run_event e w = Some w'.

Fixpoint run_events (es : list event) (w : world) : option world :=
  match es with
  | [] => Some w
  | e :: es => w' ← run_event e w; run_events es w'
  end.

Lemma run_events_steps es w w' : run_events es w = Some w' → rtc cluster_step w w'.
Proof.
  revert w. induction es as [|e es IH]; intros w; simpl.
  - by intros [= <-].
  - destruct (run_event e w) as [w1|] eqn:E1; [|done]. intros Hw.
    eapply rtc_l; [by exists e|]. by apply IH.
Qed.

Lemma run_events_app es1 es2 w :
  run_events (es1 ++ es2) w = run_events es1 w ≫= run_events es2.
Proof.
  revert w. induction es1 as [|e es1 IH]; intros w; simpl; [done|].
  destruct (run_event e w); simpl; [apply IH|done].
Qed.

(** The members of a cluster know each other and have distinct ids, none of
    which is the id that stands for no node. *)
Definition member (ids : gset Z) (i : Z) n : Prop :=
  node_id_ n = i ∧ NoDup (peers_ n).*1 ∧ (∀ j, j ∈ (peers_ n).*1 ↔ j ≠ i ∧ j ∈ ids) ∧
  cluster_size_ n = S (length (peers_ n)).

(** Before any node has run: each one as its constructor made it. *)
Definition initial_world (ids : gset Z) (w : world) : Prop :=
  dom (w_nodes w) = ids ∧ -1 ∉ ids ∧ w_calls w = [] ∧ w_replies w = [] ∧
  ∀ i n, w_nodes w !! i = Some n → member ids i n ∧
    ∃ port now draw env callback,
      n = node_set_callback callback (RaftNode_new i (peers_ n) port now draw env).

(** ** Votes *)

(** [v] has voted for [c] in term [t]: it granted [c]'s request, or is [c] and
    has asked for votes. *)
Definition vote_of (w : world) (v t c : Z) : Prop :=
  (c ≠ v ∧ ∃ a req r, (c, VoteCall v a req t, r) ∈ w_replies w ∧
     rpc_type r = REQUEST_VOTE_REPLY ∧ rpc_term r = t ∧ rpc_payload r = [x31]) ∨
  (c = v ∧ ∃ p a req, (c, VoteCall p a req t) ∈ w_calls w).

Record votes_inv (ids : gset Z) (w : world) : Prop := {
  vi_dom : dom (w_nodes w) = ids;
  vi_ids : -1 ∉ ids;
  vi_member i n : w_nodes w !! i = Some n → member ids i n;
  vi_calls i p a req t : (i, VoteCall p a req t) ∈ w_calls w →
    i ∈ ids ∧ p ∈ ids ∧ p ≠ i ∧ req = mkRpcMessage REQUEST_VOTE t i [];
  vi_replies i c r : (i, c, r) ∈ w_replies w → (i, c) ∈ w_calls w;
  vi_voted v t c : vote_of w v t c → ∃ n, w_nodes w !! v = Some n ∧
    (t < current_term_ n ∨ t = current_term_ n ∧ voted_for_ n = c);
  vi_once v t c c' : vote_of w v t c → vote_of w v t c' → c = c';
  vi_role i n : w_nodes w !! i = Some n → state_ n ≠ RaftState.FOLLOWER →
    voted_for_ n = i ∧ ∀ v, v ∈ votes_received_ n →
      v ∈ ids ∧ (size ids = 1%nat ∨ vote_of w v (current_term_ n) i);
  vi_leader i n : w_nodes w !! i = Some n → state_ n = RaftState.LEADER → has_majority n = true;
}.

Lemma member_size ids i n : i ∈ ids → member ids i n → size ids = cluster_size_ n.
Proof.
  intros Hi (_ & Hnd & Hp & ->).
  assert (ids = {[i]} ∪ list_to_set (peers_ n).*1) as ->.
  { apply set_eq. intros j. rewrite elem_of_union, elem_of_singleton, elem_of_list_to_set, Hp.
    destruct (decide (j = i)) as [->|]; tauto. }
  rewrite size_union, size_singleton, size_list_to_set, length_fmap by
    (done || (apply disjoint_singleton_l; rewrite elem_of_list_to_set, Hp; tauto)). done.
Qed.

Lemma member_config ids i n n' : same_config n n' → member ids i n → member ids i n'.
Proof. unfold member. by intros (-> & -> & ->). Qed.

Lemma vote_of_candidate ids w v t c : votes_inv ids w → vote_of w v t c → c ∈ ids ∧ c ≠ -1.
Proof.
  intros I Hv. assert (c ∈ ids) as Hc.
  { destruct Hv as [(_ & a & req & r & Hr & _)|(_ & p & a & req & Hcall)].
    - apply (vi_replies _ _ I) in Hr. by apply (vi_calls _ _ I) in Hr as [? _].
    - by apply (vi_calls _ _ I) in Hcall as [? _]. }
  split; [done|]. intros ->. by apply (vi_ids _ _ I).
Qed.

Lemma vote_of_mono w w' v t c :
  w_calls w ⊆ w_calls w' → w_replies w ⊆ w_replies w' → vote_of w v t c → vote_of w' v t c.
Proof.
  intros Hc Hr [(Hne & a & req & r & Hin & H1)|(-> & p & a & req & Hin)]; [left|right].
  - split; [done|]. exists a, req, r. split; [by apply Hr|done].
  - split; [done|]. exists p, a, req. by apply Hc.
Qed.

(** One node changes, within its term or to a later one, and calls and replies
    are added; the new votes are the node's vote in its new state. *)
Lemma votes_inv_update ids w i n n' calls replies :
  votes_inv ids w → w_nodes w !! i = Some n → same_config n n' →
  let w' := mkWorld (<[i := n']> (w_nodes w)) calls replies in
  w_calls w ⊆ calls → w_replies w ⊆ replies →
  current_term_ n ≤ current_term_ n' →
  (current_term_ n' = current_term_ n → voted_for_ n ≠ -1 → voted_for_ n' = voted_for_ n) →
  (∀ j p a req t, (j, VoteCall p a req t) ∈ calls → (j, VoteCall p a req t) ∈ w_calls w ∨
     j ∈ ids ∧ p ∈ ids ∧ p ≠ j ∧ req = mkRpcMessage REQUEST_VOTE t j []) →
  (∀ j c r, (j, c, r) ∈ replies → (j, c) ∈ calls) →
  (∀ v t c, vote_of w' v t c → vote_of w v t c ∨
     v = i ∧ t = current_term_ n' ∧ voted_for_ n' = c ∧ c ≠ -1) →
  (state_ n' ≠ RaftState.FOLLOWER → voted_for_ n' = i ∧ ∀ v, v ∈ votes_received_ n' →
     v ∈ ids ∧ (size ids = 1%nat ∨ vote_of w' v (current_term_ n') i)) →
  (state_ n' = RaftState.LEADER → has_majority n' = true) →
  votes_inv ids w'.
Proof.
  intros I Hn Hcfg w' Hcalls Hreplies Ht Hv Hnewc Hnewr Hnewv Hrole Hlead.
  assert (i ∈ ids) as Hi by (rewrite <- (vi_dom _ _ I); by eapply elem_of_dom_2).
  (* a vote of [i] for its new term that was already there is the new one *)
  assert (∀ c, vote_of w i (current_term_ n') c → voted_for_ n' = c) as Hold.
  { intros c Hc. destruct (vote_of_candidate _ _ _ _ _ I Hc) as [_ Hc1].
    destruct (vi_voted _ _ I _ _ _ Hc) as (n0 & Hn0 & Hcase). simplify_eq.
    destruct Hcase as [?|[? <-]]; [lia|]. by apply Hv. }
  split; simpl.
  - rewrite dom_insert_lookup_L by by eexists. apply I.
  - apply I.
  - intros j m Hm. apply lookup_insert_Some in Hm as [[<- <-]|[_ Hm]]; [|by eapply vi_member].
    eapply member_config; [done|by eapply vi_member].
  - intros j p a req t Hin. destruct (Hnewc _ _ _ _ _ Hin) as [Hin'|]; [|done]. by eapply vi_calls.
  - done.
  - intros v t c Hc. destruct (Hnewv _ _ _ Hc) as [Hc'|(-> & -> & Hvf & _)].
    + destruct (vi_voted _ _ I _ _ _ Hc') as (m & Hm & Hcase). destruct (decide (v = i)) as [->|Hvi].
      * rewrite lookup_insert_eq. exists n'. split; [done|]. simplify_eq.
        destruct (decide (t < current_term_ n')) as [|Hge]; [by left|right].
        assert (t = current_term_ n') as -> by (destruct Hcase as [?|[? _]]; lia).
        split; [done|]. by apply Hold.
      * rewrite lookup_insert_ne by done. by exists m.
    + rewrite lookup_insert_eq. exists n'. split; [done|]. by right.
  - intros v t c c' Hc Hc'. destruct (Hnewv _ _ _ Hc) as [Hc1|(-> & -> & Hvf & _)],
      (Hnewv _ _ _ Hc') as [Hc1'|(E1 & E2 & Hvf' & _)]; subst; try done.
    + by eapply vi_once.
    + symmetry. by apply Hold.
    + by apply Hold.
  - intros j m Hm. apply lookup_insert_Some in Hm as [[<- <-]|[_ Hm]]; [done|]. intros Hs.
    destruct (vi_role _ _ I _ _ Hm Hs) as [Hvf Hvs]. split; [done|]. intros v Hvin.
    destruct (Hvs v Hvin) as [Hvi [?|Hvo]]; (split; [done|]); [by left|right].
    by eapply vote_of_mono.
  - intros j m Hm. apply lookup_insert_Some in Hm as [[<- <-]|[_ Hm]]; [done|]. by eapply vi_leader.
Qed.

(** The same for a node that stays within its role. *)
Lemma votes_inv_passive ids w i n n' calls replies :
  votes_inv ids w → w_nodes w !! i = Some n → passive n n' →
  let w' := mkWorld (<[i := n']> (w_nodes w)) calls replies in
  w_calls w ⊆ calls → w_replies w ⊆ replies →
  (∀ j p a req t, (j, VoteCall p a req t) ∈ calls → (j, VoteCall p a req t) ∈ w_calls w) →
  (∀ j c r, (j, c, r) ∈ replies → (j, c) ∈ calls) →
  (∀ v t c, vote_of w' v t c → vote_of w v t c ∨
     v = i ∧ t = current_term_ n' ∧ voted_for_ n' = c ∧ c ≠ -1) →
  votes_inv ids w'.
Proof.
  intros I Hn [Hcfg Ht Hv Hrole] w' Hcalls Hreplies Hc Hr Hvo. apply (votes_inv_update ids w i n); try done.
  - intros j p a req t Hin. left. by eapply Hc.
  - intros Hs. destruct (Hrole Hs) as (Es & Et & Ev).
    destruct (vi_role _ _ I _ _ Hn ltac:(congruence)) as [Hvf Hvs].
    assert (voted_for_ n ≠ -1) as Hne.
    { rewrite Hvf. intros ->. apply (vi_ids _ _ I). rewrite <- (vi_dom _ _ I). by eapply elem_of_dom_2. }
    split; [by rewrite Hv by done|]. intros v Hin. rewrite Ev in Hin. rewrite Et.
    destruct (Hvs v Hin) as [Hvi [?|Hvo']]; (split; [done|]); [by left|right].
    by eapply vote_of_mono.
  - intros Hs. destruct (Hrole ltac:(by rewrite Hs)) as (Es & _ & Ev). destruct Hcfg as (_ & _ & Ec).
    unfold has_majority. rewrite Ev, Ec. apply (vi_leader _ _ I i n Hn). congruence.
Qed.
End cluster.
