(* ===== verification/RaftElection.v ===== *)
(** * At most one leader per term

    Every event of a cluster keeps the invariant on votes, two majorities meet,
    and so two leaders of a term, at whatever moments, are the same node. *)

From S2P Require Export RaftCluster.

Local Open Scope Z_scope.

Section election.
Context {E : Type}.
Notation Node := (RaftNode E).
Implicit Types (n : Node) (w : world (E := E)).

(** A step a node takes by itself: it proposes a command, beats, or opens an
    election. *)
Definition act_step n n' (calls : list RpcCall) : Prop :=
  passive n n' ∧
    (log_ n' = log_ n ∨ state_ n' = RaftState.LEADER ∧ ∃ command,
       log_ n' = log_ n ++ [mkLogEntry (current_term_ n) (Z.of_nat (length (log_ n))) command]) ∧
    (calls = [] ∨ log_ n' = log_ n ∧ commit_index_ n' = commit_index_ n ∧
       state_ n' = RaftState.LEADER ∧ ∀ c, c ∈ calls → heartbeat_call n' c) ∨
  campaigns n n' calls.

Lemma heartbeat_call_clock n v c : heartbeat_call n c → heartbeat_call (node_set_heartbeat v n) c.
Proof. done. Qed.

Lemma passive_quiet n n' : passive n n' → log_ n' = log_ n → act_step n n' [].
Proof. intros. left. split; [done|]. split; by left. Qed.

Lemma run_act_step a n : wlp (run_act a) n (λ calls n', act_step n n' calls).
Proof.
  assert (∀ n', passive n n' → log_ n' = log_ n → act_step n n' []) as Hq by apply passive_quiet.
  assert (act_step n n []) as Hidle by (apply Hq; [apply passive_refl|done]).
  assert (wlp StartElection n (λ calls n', act_step n n' calls)) as Helect.
  { eapply wlp_mono; [apply StartElection_step|]. cbn beta. intros calls n' [[-> ->]|Hc]; [done|by right]. }
  destruct a as [| | |command|o| |now draw]; cbn [run_act].
  - unfold ElectionLoopRound. wlp_steps. unfold id. destruct (running_ n); simpl; [|wlp_steps; by apply Hidle].
    case_bool_decide as Hs; simpl.
    + destruct (_ <=? _); [|wlp_steps; by apply Hidle]. wlp_steps.
      eapply wlp_mono; [apply SendHeartbeats_step|]. cbn beta. intros calls n' [-> Hc]. left.
      split; [by split|]. split; [by left|].
      destruct Hc as [->|[_ Hc]]; [by left|right]. by split_and!.
    + by destruct (_ <=? _); [|wlp_steps].
  - eapply wlp_mono; [apply SendHeartbeats_step|]. cbn beta. intros calls n' [-> Hc]. left.
    split; [apply passive_refl|]. split; [by left|]. destruct Hc as [->|[Hs Hc]]; [by left|right].
    by split_and!.
  - done.
  - unfold Propose. wlp_steps. destruct (bool_decide _) eqn:Hs; simpl; wlp_steps.
    + apply bool_decide_eq_true in Hs. left. split; [by split|]. split; [|by left]. right.
      split; [done|]. by exists command.
    + by apply Hidle.
  - unfold Start. wlp_steps. destruct (running_ n); [wlp_steps; by apply Hidle|].
    wlp_steps. apply wlp_lift. intros [] _. unfold ResetElectionDeadlineLocked. wlp_steps.
    apply Hq; [|done]. by split.
  - unfold Stop. wlp_steps. apply Hq; [|done]. by split.
  - wlp_steps. apply Hq; [|done]. by split.
Qed.

(** What a request does to the node that serves it. *)
Definition serves m n r n' : Prop :=
  passive n n' ∧ (state_ n' ≠ RaftState.FOLLOWER → log_ n' = log_ n) ∧
  (log_ n' = log_ n ∨ ∃ args, rpc_type m = APPEND_ENTRIES ∧
     DeserializeAppendEntriesPayload (rpc_payload m) (Some AppendEntriesArgs_init)
       = Ret (true, Some args) ∧
     0 ≤ prev_log_index args ∧ log_matches n (prev_log_index args) (prev_log_term args) ∧
     log_ n' = merge_log (entries args) (S (Z.to_nat (prev_log_index args))) (log_ n)) ∧
  (rpc_type r = REQUEST_VOTE_REPLY → rpc_payload r = [x31] →
     rpc_type m = REQUEST_VOTE ∧ rpc_term r = current_term_ n' ∧
     current_term_ n' = rpc_term m ∧ voted_for_ n' = rpc_sender_id m).

Lemma HandleMessage_step m n : wlp (HandleMessage m) n (serves m n).
Proof.
  assert (∀ r, rpc_type r ≠ REQUEST_VOTE_REPLY → serves m n r n) as Hidle.
  { intros r Hr. split; [apply passive_refl|]. split_and!; [done|by left|done]. }
  unfold HandleMessage, GetCurrentTerm. destruct (rpc_type m) eqn:Et; try (wlp_steps; by apply Hidle).
  - eapply wlp_mono; [apply HandleRequestVote_step|]. cbn beta. intros r n' (Hp & Hl & g & -> & Hg).
    split; [done|]. split_and!; [done|by left|]. simpl. intros _ Hpl.
    destruct g; [|done]. destruct (Hg eq_refl). split_and!; done.
  - wlp_steps. apply wlp_lift. intros [ok args] Hd. destruct ok, args as [args|]; try (wlp_steps; by apply Hidle).
    eapply wlp_mono; [apply HandleAppendEntries_step|]. cbn beta.
    intros r n' (Hp & Hr & Hs & Hl). split; [done|]. split_and!; [done| |by rewrite Hr].
    destruct Hl as [Hl|(H0 & Hm & Hl)]; [by left|right]. exists args. by split_and!.
Qed.

(** What a reply does to the node that had made the call. *)
Lemma HandleReply_step c r n :
  wlp (HandleReply c r) n (λ _ n', passive n n' ∧ log_ n' = log_ n ∨
    ∃ p a req t, c = VoteCall p a req t ∧ counts t p r n n').
Proof.
  destruct c as [p a req t|p a req last]; cbn [HandleReply].
  - eapply wlp_mono; [apply HandleVoteReply_step|]. cbn beta. intros _ n' [?|Hc]; [by left|right].
    by exists p, a, req, t.
  - eapply wlp_mono; [apply HandleAppendEntriesReply_step|]. cbn beta. by left.
Qed.

(** ** The events of a cluster, case by case *)

Inductive world_step w : world (E := E) → Prop :=
  | StepLocal i n n' calls : w_nodes w !! i = Some n → log_small n → act_step n n' calls →
      world_step w (mkWorld (<[i := n']> (w_nodes w)) (w_calls w ++ (pair i <$> calls)) (w_replies w))
  | StepDeliver i c n n' r : (i, c) ∈ w_calls w → w_nodes w !! call_peer c = Some n →
      serves (call_request c) n r n' →
      world_step w (mkWorld (<[call_peer c := n']> (w_nodes w)) (w_calls w) (w_replies w ++ [(i, c, r)]))
  | StepReply i c n n' r : (i, c, r) ∈ w_replies w → w_nodes w !! i = Some n →
      passive n n' ∧ log_ n' = log_ n ∨ (∃ p a req t, c = VoteCall p a req t ∧ counts t p r n n') →
      world_step w (mkWorld (<[i := n']> (w_nodes w)) (w_calls w) (w_replies w)).

Lemma cluster_step_cases w w' : cluster_step w w' → world_step w w'.
Proof.
  intros [[i a|k|k] He]; simpl in He.
  - destruct (w_nodes w !! i) as [n|] eqn:En; simpl in He; [|done]. case_bool_decide as Hs; [|done].
    destruct (run_act a n) as [[calls| | | ] n'] eqn:Er; try done. injection He as <-.
    eapply StepLocal; [done..|]. by eapply run_act_step.
  - destruct (w_calls w !! k) as [[i c]|] eqn:Ec; simpl in He; [|done].
    destruct (w_nodes w !! call_peer c) as [n|] eqn:En; simpl in He; [|done].
    destruct (HandleMessage (call_request c) n) as [[r| | | ] n'] eqn:Er; try done. injection He as <-.
    eapply StepDeliver; [by eapply list_elem_of_lookup_2|done|]. by eapply HandleMessage_step.
  - destruct (w_replies w !! k) as [[[i c] r]|] eqn:Ec; simpl in He; [|done].
    destruct (w_nodes w !! i) as [n|] eqn:En; simpl in He; [|done].
    destruct (HandleReply c r n) as [[u| | | ] n'] eqn:Er; try done. injection He as <-.
    eapply StepReply; [by eapply list_elem_of_lookup_2|done|]. by eapply HandleReply_step.
Qed.

Lemma world_step_mono w w' :
  world_step w w' → w_calls w ⊆ w_calls w' ∧ w_replies w ⊆ w_replies w'.
Proof. destruct 1; simpl; set_solver. Qed.

Lemma cluster_steps_mono w w' :
  rtc cluster_step w w' → w_calls w ⊆ w_calls w' ∧ w_replies w ⊆ w_replies w'.
Proof.
  induction 1 as [w|w w1 w2 Hs _ [IHc IHr]]; [done|].
  apply cluster_step_cases, world_step_mono in Hs as [? ?]. split; set_solver.
Qed.

(** ** The invariant on votes *)

Lemma votes_inv_initial ids w : initial_world ids w → votes_inv ids w.
Proof.
  intros (Hd & Hi & Hc & Hr & Hn).
  assert (∀ v t c, ¬ vote_of w v t c) as Hno.
  { intros v t c [(_ & a & req & r & Hin & _)|(_ & p & a & req & Hin)];
      rewrite ?Hc, ?Hr in Hin; by apply not_elem_of_nil in Hin. }
  split; try done.
  - intros i n Hin. by apply Hn.
  - intros i p a req t Hin. rewrite Hc in Hin. by apply not_elem_of_nil in Hin.
  - intros i c r Hin. rewrite Hr in Hin. by apply not_elem_of_nil in Hin.
  - intros v t c Hv. by apply Hno in Hv.
  - intros v t c c' Hv. by apply Hno in Hv.
  - intros i n Hin. destruct (Hn i n Hin) as (_ & port & now & draw & env & cb & ->). done.
  - intros i n Hin. destruct (Hn i n Hin) as (_ & port & now & draw & env & cb & ->). done.
Qed.

(** Only a node without peers has a majority with its own vote. *)
Lemma campaign_alone ids i n n' calls :
  member ids i n → campaigns n n' calls → has_majority n' = true → peers_ n = [].
Proof.
  intros (_ & _ & _ & Hsize) ((_ & _ & Ec) & _ & _ & Evs & _) Hm.
  unfold has_majority in Hm. apply bool_decide_eq_true in Hm.
  rewrite Evs, size_singleton, Ec, Hsize in Hm.
  destruct (peers_ n) as [|p ps]; [done|]. exfalso. simpl length in Hm.
  assert (1 <= S (S (length ps)) / 2)%nat by (apply Nat.div_le_lower_bound; lia). lia.
Qed.

(** A node acts without opening an election. *)
Lemma votes_inv_quiet ids w i n n' calls :
  votes_inv ids w → w_nodes w !! i = Some n → passive n n' →
  (∀ c, c ∈ calls → heartbeat_call n' c) →
  votes_inv ids (mkWorld (<[i := n']> (w_nodes w)) (w_calls w ++ (pair i <$> calls)) (w_replies w)).
Proof.
  intros I Hn Hp Hc.
  assert (∀ j p a req t, (j, VoteCall p a req t) ∈ w_calls w ++ (pair i <$> calls) →
    (j, VoteCall p a req t) ∈ w_calls w) as Hold.
  { intros j p a req t [?|Hin]%elem_of_app; [done|]. exfalso.
    apply list_elem_of_fmap in Hin as (c & [= -> <-] & Hin).
    by destruct (Hc _ Hin) as (? & ? & ? & ? & ? & _ & [=] & _). }
  eapply votes_inv_passive; try done; [set_solver| |].
  - intros j c r Hin. apply elem_of_app. left. by eapply vi_replies.
  - intros v t c [Hv|(-> & p & a & req & Hin)]; left; [by left|].
    right. split; [done|]. exists p, a, req. by apply Hold.
Qed.

(** The requests of a node that opens an election. *)
Lemma campaign_requests n n' calls i :
  campaigns n n' calls → node_id_ n = i → ∀ c p a req t, c ∈ calls → c = VoteCall p a req t →
  p ∈ (peers_ n).*1 ∧ t = current_term_ n' ∧ req = mkRpcMessage REQUEST_VOTE t i [].
Proof.
  intros (_ & _ & _ & _ & _ & Hrole) Eid c p a req t Hin ->. destruct Hrole as [[_ ->]|(_ & _ & Hc)].
  - apply list_elem_of_fmap in Hin as (q & [= -> -> -> ->] & Hin). rewrite Eid.
    split; [by apply list_elem_of_fmap_2|done].
  - by destruct (Hc _ Hin) as (? & ? & ? & ? & ? & _ & [=] & _).
Qed.

(** A candidate has asked a peer for its vote, and so voted for itself, unless
    it has none. *)
Lemma campaign_votes ids w i n n' calls :
  member ids i n → i ∈ ids → campaigns n n' calls →
  size ids = 1%nat ∨
  vote_of (mkWorld (<[i := n']> (w_nodes w)) (w_calls w ++ (pair i <$> calls)) (w_replies w))
    i (current_term_ n') i.
Proof.
  intros Hmem Hi Hcamp. pose proof Hmem as (Eid & _ & _ & Hsize).
  rewrite (member_size ids i n Hi Hmem), Hsize.
  destruct (peers_ n) as [|[p a] ps] eqn:Ep; [by left|right].
  pose proof (campaign_alone _ _ _ _ _ Hmem Hcamp) as Halone.
  destruct Hcamp as (_ & _ & _ & _ & _ & [[_ Hcs]|(_ & Hm & _)]).
  - right. split; [done|]. exists p, a, (mkRpcMessage REQUEST_VOTE (current_term_ n') i []).
    simpl. apply elem_of_app. right. apply list_elem_of_fmap. eexists. split; [done|].
    rewrite Hcs, Eid, Ep. by left.
  - rewrite Ep in Halone. by specialize (Halone Hm).
Qed.

Lemma votes_inv_campaign ids w i n n' calls :
  votes_inv ids w → w_nodes w !! i = Some n → campaigns n n' calls →
  votes_inv ids (mkWorld (<[i := n']> (w_nodes w)) (w_calls w ++ (pair i <$> calls)) (w_replies w)).
Proof.
  intros I Hn Hc. pose proof (vi_member _ _ I i n Hn) as Hmem.
  assert (i ∈ ids) as Hi by (rewrite <- (vi_dom _ _ I); by eapply elem_of_dom_2).
  assert (i ≠ -1) as Hi1 by (intros ->; by apply (vi_ids _ _ I)).
  pose proof Hmem as (Eid & _ & Hpeers & _).
  pose proof (campaign_votes ids w i n n' calls Hmem Hi Hc) as Hself.
  assert (∀ j p a req t, (j, VoteCall p a req t) ∈ w_calls w ++ (pair i <$> calls) →
    (j, VoteCall p a req t) ∈ w_calls w ∨ j = i ∧ p ∈ (peers_ n).*1 ∧ t = current_term_ n' ∧
      req = mkRpcMessage REQUEST_VOTE t i []) as Hnew.
  { intros j p a req t [?|Hin]%elem_of_app; [by left|right].
    apply list_elem_of_fmap in Hin as (c & [= -> E1] & Hin). split; [done|].
    by eapply campaign_requests. }
  destruct Hc as (Hcfg & Et & Ev & Evs & _ & Hrole).
  eapply votes_inv_update; try done; [set_solver|lia|lia| | | | |].
  - intros j p a req t Hin. destruct (Hnew _ _ _ _ _ Hin) as [?|(-> & Hp & -> & ->)]; [by left|right].
    apply Hpeers in Hp. tauto.
  - intros j c r Hin. apply elem_of_app. left. by eapply vi_replies.
  - intros v t c [Hv|(-> & p & a & req & Hin)]; [by left; left|].
    destruct (Hnew _ _ _ _ _ Hin) as [?|(-> & _ & -> & _)]; [left; right|right].
    + split; [done|]. by exists p, a, req.
    + by rewrite Ev, Eid.
  - intros _. rewrite Ev, Evs, Eid. split; [done|]. by intros v ->%elem_of_singleton.
  - intros Hl. destruct Hrole as [[Hs _]|(_ & Hm & _)]; [by rewrite Hs in Hl|done].
Qed.

Lemma votes_inv_act ids w i n n' calls :
  votes_inv ids w → w_nodes w !! i = Some n → act_step n n' calls →
  votes_inv ids (mkWorld (<[i := n']> (w_nodes w)) (w_calls w ++ (pair i <$> calls)) (w_replies w)).
Proof.
  intros I Hn [(Hp & _ & Hc)|Hc]; [|by eapply votes_inv_campaign].
  eapply votes_inv_quiet; try done. destruct Hc as [->|(_ & _ & _ & Hc)]; [|done].
  by intros c ?%not_elem_of_nil.
Qed.

Lemma votes_inv_serve ids w i c n n' r :
  votes_inv ids w → (i, c) ∈ w_calls w → w_nodes w !! call_peer c = Some n →
  serves (call_request c) n r n' →
  votes_inv ids (mkWorld (<[call_peer c := n']> (w_nodes w)) (w_calls w) (w_replies w ++ [(i, c, r)])).
Proof.
  intros I Hc Hn (Hp & _ & _ & Hvote). eapply votes_inv_passive; try done.
  - set_solver.
  - intros j c0 r0 [Hin|[= -> -> ->]%list_elem_of_singleton]%elem_of_app; [by eapply vi_replies|done].
  - intros v t c0 [(Hne & a & req & r0 & Hin & Hr)|Hv]; [|by left; right]. simpl in Hin.
    apply elem_of_app in Hin as [Hin|[= -> <- <-]%list_elem_of_singleton].
    + left. left. split; [done|]. by exists a, req, r0.
    + right. destruct Hr as (Hty & Hrt & Hpl). destruct (vi_calls _ _ I _ _ _ _ _ Hc) as (Hi & _ & _ & ->).
      destruct (Hvote Hty Hpl) as (_ & E1 & E2 & E3). simpl in *. split_and!; [done|congruence|done|].
      intros ->. by apply (vi_ids _ _ I).
Qed.

Lemma votes_inv_reply ids w i c n n' r :
  votes_inv ids w → (i, c, r) ∈ w_replies w → w_nodes w !! i = Some n →
  passive n n' ∧ log_ n' = log_ n ∨ (∃ p a req t, c = VoteCall p a req t ∧ counts t p r n n') →
  votes_inv ids (mkWorld (<[i := n']> (w_nodes w)) (w_calls w) (w_replies w)).
Proof.
  intros I Hr Hn [[Hp _]|(p & a & req & t & -> & Hc)].
  { eapply votes_inv_passive; try done; [by apply I|by left]. }
  destruct Hc as (Hs & Ht & Hty & Hrt & Hpl & Hcfg & Et & Ev & Evs & _ & Hrole).
  destruct (vi_role _ _ I i n Hn ltac:(congruence)) as [Hvf Hvs].
  destruct (vi_calls _ _ I i p a req t) as (Hi & Hpi & Hpne & _); [by eapply vi_replies|].
  eapply votes_inv_update; try done.
  - lia.
  - intros j p0 a0 req0 t0 Hin. by left.
  - apply I.
  - by left.
  - intros _. rewrite Ev, Evs, Et. split; [done|].
    intros v [->%elem_of_singleton|Hin]%elem_of_union; [|by apply Hvs].
    split; [done|]. right. left. split; [done|]. exists a, req, r. rewrite Ht. by split_and!.
  - intros Hl. destruct Hrole as [Hs'|[_ Hm]]; [by rewrite Hs' in Hl|done].
Qed.

Lemma votes_inv_step ids w w' : votes_inv ids w → world_step w w' → votes_inv ids w'.
Proof.
  intros I [i n n' calls Hn Hs Ha|i c n n' r Hc Hn Hsv|i c n n' r Hr Hn Hh].
  - by eapply votes_inv_act.
  - by eapply votes_inv_serve.
  - by eapply votes_inv_reply.
Qed.

Lemma votes_inv_steps ids w w' : votes_inv ids w → rtc cluster_step w w' → votes_inv ids w'.
Proof.
  intros I H. revert I. induction H as [w|w w1 w2 Hs _ IH]; [done|]. intros I.
  by eapply IH, votes_inv_step, cluster_step_cases.
Qed.

(** ** Two majorities meet *)

Lemma majorities_meet (ids X Y : gset Z) :
  X ⊆ ids → Y ⊆ ids → (size ids / 2 < size X)%nat → (size ids / 2 < size Y)%nat →
  ∃ v, v ∈ X ∧ v ∈ Y.
Proof.
  intros HX HY H1 H2. destruct (set_choose_or_empty (X ∩ Y)) as [[v Hv]|He].
  { exists v. set_solver. }
  assert (size (X ∪ Y) = size X + size Y)%nat by (apply size_union; set_solver).
  assert (size (X ∪ Y) ≤ size ids)%nat by (apply subseteq_size; set_solver).
  pose proof (Nat.div_mod_eq (size ids) 2). pose proof (Nat.mod_upper_bound (size ids) 2). lia.
Qed.

(** [i] was chosen in term [t] by a majority of its cluster. *)
Definition elected (ids : gset Z) w (i t : Z) : Prop :=
  i ∈ ids ∧ (size ids = 1%nat ∨
    ∃ V : gset Z, V ⊆ ids ∧ (size ids / 2 < size V)%nat ∧ ∀ v, v ∈ V → vote_of w v t i).

Lemma elected_mono ids w w' i t :
  w_calls w ⊆ w_calls w' → w_replies w ⊆ w_replies w' → elected ids w i t → elected ids w' i t.
Proof.
  intros Hc Hr [Hi [?|(V & HV & Hsz & Hvo)]]; (split; [done|]); [by left|right]. exists V.
  split_and!; try done. intros v Hv. eapply vote_of_mono; [done..|by apply Hvo].
Qed.

Lemma elected_once ids w i j t :
  votes_inv ids w → elected ids w i t → elected ids w j t → i = j.
Proof.
  intros I [Hi HV] [Hj HW].
  assert (size ids = 1%nat → i = j) as H1.
  { intros [x Hx]%size_1_elem_of. set_solver. }
  destruct HV as [|(V & HVi & HVs & HVo)]; [auto|]. destruct HW as [|(W & HWi & HWs & HWo)]; [auto|].
  destruct (majorities_meet ids V W) as (v & Hv & Hw); try done.
  eapply vi_once; [done|by apply HVo|by apply HWo].
Qed.

Lemma leader_elected ids w i n :
  votes_inv ids w → w_nodes w !! i = Some n → state_ n = RaftState.LEADER →
  elected ids w i (current_term_ n).
Proof.
  intros I Hn Hs. destruct (vi_role _ _ I i n Hn ltac:(by rewrite Hs)) as [_ Hvs].
  assert (i ∈ ids) as Hi by (rewrite <- (vi_dom _ _ I); by eapply elem_of_dom_2).
  split; [done|]. destruct (decide (size ids = 1%nat)) as [|Hne]; [by left|right].
  exists (votes_received_ n). split_and!.
  - intros v Hv. by apply Hvs.
  - pose proof (vi_leader _ _ I i n Hn Hs) as Hm. unfold has_majority in Hm.
    apply bool_decide_eq_true in Hm. by rewrite (member_size ids i n Hi) by (by apply (vi_member _ _ I)).
  - intros v Hv. by destruct (Hvs v Hv) as [_ [?|?]].
Qed.

(** C1: however calls and replies are delayed, reordered, repeated or lost, at
    most one member of the cluster is ever leader in a term: a leader of a term
    and a leader of the same term at that or a later moment are the same
    node. *)
Theorem election_safety ids w0 w1 w2 i j n m :
  initial_world ids w0 → rtc cluster_step w0 w1 → rtc cluster_step w1 w2 →
  w_nodes w1 !! i = Some n → w_nodes w2 !! j = Some m →
  state_ n = RaftState.LEADER → state_ m = RaftState.LEADER →
  current_term_ n = current_term_ m → i = j.
Proof.
  intros Hw0 H1 H2 Hn Hm Hsn Hsm Et.
  assert (votes_inv ids w1) as I1 by (eapply votes_inv_steps; [by apply votes_inv_initial|done]).
  assert (votes_inv ids w2) as I2 by (by eapply votes_inv_steps).
  destruct (cluster_steps_mono _ _ H2) as [Hc Hr].
  eapply (elected_once ids w2); [done| |by eapply leader_elected].
  rewrite <- Et. eapply elected_mono; [done..|]. by eapply leader_elected.
Qed.
End election.

(** ** Three nodes that elect two leaders, one after the other *)

Definition trio_peers (i : Z) : list (Z * bytes) :=
  (λ j, (j, [x68; x3a; x31])) <$> filter (λ j, j ≠ i) [1; 2; 3].

(** Every node records the commands it is given. *)
Definition trio_node (i : Z) : RaftNode (list (bytes * Z)) :=
  node_set_callback (Some record_call) (RaftNode_new i (trio_peers i) 1 0 200 []).

Definition trio_world : world :=
  mkWorld {[1 := trio_node 1; 2 := trio_node 2; 3 := trio_node 3]} [] [].

Lemma trio_initial : initial_world {[1; 2; 3]} trio_world.
Proof.
  split_and!; [set_solver|set_solver|done|done|]. intros i n Hn.
  assert (i = 1 ∧ n = trio_node 1 ∨ i = 2 ∧ n = trio_node 2 ∨ i = 3 ∧ n = trio_node 3) as Hc.
  { unfold trio_world in Hn. simpl in Hn.
    rewrite !lookup_insert_Some, lookup_singleton_Some in Hn. naive_solver. }
  destruct Hc as [[-> ->]|[[-> ->]|[-> ->]]]; (split; [|by eexists _, _, _, _, _]);
    (split_and!; [done|apply (bool_decide_unpack _); vm_compute; exact I| |done]); set_solver.
Qed.

(** The election timeout of [i] expires. *)
Definition trio_timeout (i now : Z) : list event :=
  [EvLocal i (ActTick now 200); EvLocal i ActRound].

Definition trio_start : list event :=
  [EvLocal 1 (ActStart (Ret tt)); EvLocal 2 (ActStart (Ret tt)); EvLocal 3 (ActStart (Ret tt))].

(** Node 1 wins term 1 with the vote of node 2. *)
Definition trio_first_election : list event :=
  trio_start ++ trio_timeout 1 300 ++ [EvDeliver 0; EvReply 0].

Lemma election_safety_witness :
  let w0 := trio_world in
  ∃ w1 w2 n m, run_events trio_first_election w0 = Some w1 ∧
    run_events [EvLocal 1 (ActPropose [x61]); EvLocal 1 ActRound] w1 = Some w2 ∧
    w_nodes w1 !! 1 = Some n ∧ w_nodes w2 !! 1 = Some m ∧
    current_term_ n = current_term_ m ∧ 1 = 1.
Proof.
  intros w0. do 4 eexists.
  match goal with |- ?A ∧ ?B ∧ ?C ∧ ?D ∧ ?F ∧ ?G =>
    assert (A) as H1 by (vm_compute; reflexivity);
    assert (B) as H2 by (vm_compute; reflexivity)
  end.
  split_and!; [exact H1|exact H2|vm_compute; reflexivity|vm_compute; reflexivity|vm_compute; reflexivity|].
  eapply (election_safety _ w0); [apply trio_initial|by eapply run_events_steps|by eapply run_events_steps|
    vm_compute; reflexivity|vm_compute; reflexivity|vm_compute; reflexivity..].
Defined.
