(* ===== verification/RaftLog.v ===== *)
(** * Log matching

    Two logs of a cluster that have an entry of one term at the same position
    are the same up to there.  The proof follows the longest log the leader of
    each term has had: every log is made of prefixes of these. *)

From S2P Require Export RaftElection.

Local Open Scope Z_scope.

Section log_matching.
Context {E : Type}.
Notation Node := (RaftNode E).
Implicit Types (n : Node) (w : world (E := E)) (tl : gmap Z (Z * list LogEntry)) (l : list LogEntry).

(** ** Logs made of prefixes of the leaders' logs *)

(** [tl] has for each term its leader and the longest log it had. *)
Definition good tl l : Prop :=
  ∀ k e, l !! k = Some e → entry_index e = Z.of_nat k ∧
    ∃ o L, tl !! entry_term e = Some (o, L) ∧ take (S k) l `prefix_of` L.

(** Leaders are added, and their logs grow. *)
Definition grows tl tl' : Prop :=
  ∀ t o L, tl !! t = Some (o, L) → ∃ L', tl' !! t = Some (o, L') ∧ L `prefix_of` L'.

Lemma grows_refl tl : grows tl tl.
Proof. intros t o L H. by exists L. Qed.

Lemma good_mono tl tl' l : grows tl tl' → good tl l → good tl' l.
Proof.
  intros Hg Hl k e He. destruct (Hl k e He) as (Hi & o & L & HL & Hp). split; [done|].
  destruct (Hg _ _ _ HL) as (L' & HL' & Hp'). exists o, L'. split; [done|]. by trans L.
Qed.

Lemma good_prefix tl l l' : l' `prefix_of` l → good tl l → good tl l'.
Proof.
  intros Hp Hl k e He. destruct (Hl k e) as (Hi & o & L & HL & Hp'); [by eapply prefix_lookup_Some|].
  split; [done|]. exists o, L. split; [done|]. trans (take (S k) l); [|done].
  destruct Hp as [x ->]. apply lookup_lt_Some in He. rewrite take_app_le by lia. done.
Qed.

Lemma prefixes_eq (l1 l2 L : list LogEntry) :
  l1 `prefix_of` L → l2 `prefix_of` L → length l1 = length l2 → l1 = l2.
Proof.
  intros [x ->] [y Hy] Hlen. by apply app_inj_1 in Hy as [-> _].
Qed.

(** Good logs with entries of one term at a position agree up to it. *)
Lemma good_agree tl l l' k e e' :
  good tl l → good tl l' → l !! k = Some e → l' !! k = Some e' → entry_term e = entry_term e' →
  take (S k) l = take (S k) l'.
Proof.
  intros Hl Hl' He He' Et. destruct (Hl k e He) as (_ & o & L & HL & Hp).
  destruct (Hl' k e' He') as (_ & o' & L' & HL' & Hp'). rewrite <- Et, HL in HL'. injection HL' as <- <-.
  apply (prefixes_eq _ _ L); [done..|]. apply lookup_lt_Some in He, He'. rewrite !length_take. lia.
Qed.

(** ** Merging what a leader sent *)

Lemma merge_good tl l L prev prev_term es :
  good tl l → good tl L → 0 ≤ prev →
  entry_term <$> l !! Z.to_nat prev = Some prev_term →
  entry_term <$> L !! Z.to_nat prev = Some prev_term →
  take (S (Z.to_nat prev)) L ++ es `prefix_of` L →
  good tl (merge_log es (S (Z.to_nat prev)) l).
Proof.
  intros Hl HL Hprev He He' Hpre. set (k := Z.to_nat prev) in *.
  apply fmap_Some in He as (e & He & ->). apply fmap_Some in He' as (e' & He' & Et).
  apply lookup_lt_Some in He as Hlt. apply lookup_lt_Some in He' as Hlt'.
  assert (take (S k) l = take (S k) L) as Hk by (by eapply good_agree).
  assert (∀ j, (j ≤ length es)%nat → take (S k + j) L = take (S k) L ++ take j es) as HLj.
  { intros j Hj. destruct Hpre as [x Hx].
    assert (length (take (S k) L) = S k) as Hlen by (rewrite length_take; lia).
    rewrite Hx at 1. rewrite <- app_assoc, take_app_add' by done.
    by rewrite take_app_le by lia. }
  destruct (merge_log_result es (S k) l Hlt) as [[_ ->]|(j & x & Hj & Hs & Hx & _ & ->)]; [done|].
  apply lookup_lt_Some in Hx as Hjl.
  enough (take (S k + j) l = take (S k) L ++ take j es) as ->.
  { rewrite <- app_assoc, take_drop. by apply (good_prefix _ L). }
  rewrite <- HLj by lia. destruct j as [|j]; [by rewrite Nat.add_0_r|].
  destruct (lookup_lt_is_Some_2 es j) as [y Hy]; [lia|].
  destruct (Hs j y) as (old & Ho & Hot); [by rewrite lookup_take_lt by lia|].
  rewrite Nat.add_succ_r. apply (good_agree tl l L _ old y); [done..| |done].
  eapply prefix_lookup_Some; [|exact Hpre]. rewrite lookup_app_r by (rewrite length_take; lia).
  rewrite length_take. by replace (S k + j - S k `min` length L)%nat with j by lia.
Qed.

(** ** The invariant on logs *)

(** [c] carries a segment of the log of its term's leader. *)
Definition carries tl (c : RpcCall) : Prop :=
  match c with
  | VoteCall _ _ _ _ => True
  | AppendCall _ _ m _ => ∃ o L args,
      tl !! rpc_term m = Some (o, L) ∧
      DeserializeAppendEntriesPayload (rpc_payload m) (Some AppendEntriesArgs_init) = Ret (true, Some args) ∧
      entry_term <$> L !! Z.to_nat (prev_log_index args) = Some (prev_log_term args) ∧
      take (S (Z.to_nat (prev_log_index args))) L ++ entries args `prefix_of` L
  end.

Record log_inv (ids : gset Z) w tl : Prop := {
  li_node i n : w_nodes w !! i = Some n → good tl (log_ n) ∧ 0 ≤ current_term_ n;
  li_leaders t o L : tl !! t = Some (o, L) → good tl L ∧
    (t = 0 ∧ o = -1 ∨ elected ids w o t ∧ ∃ n, w_nodes w !! o = Some n ∧
       (t < current_term_ n ∨ t = current_term_ n ∧ state_ n ≠ RaftState.CANDIDATE));
  li_role i n : w_nodes w !! i = Some n → state_ n ≠ RaftState.FOLLOWER → 0 < current_term_ n;
  li_leader i n : w_nodes w !! i = Some n → state_ n = RaftState.LEADER →
    tl !! current_term_ n = Some (i, log_ n);
  li_calls i c : (i, c) ∈ w_calls w → carries tl c;
}.

Lemma carries_mono tl tl' c : grows tl tl' → carries tl c → carries tl' c.
Proof.
  intros Hg. destruct c as [|p a m last]; [done|]. intros (o & L & args & HL & Hd & Ht & Hp).
  destruct (Hg _ _ _ HL) as (L' & HL' & Hpre). exists o, L', args. split_and!; [done|done| |].
  - apply fmap_Some in Ht as (e & He & ->). by erewrite prefix_lookup_Some.
  - destruct Hpre as [x ->]. apply fmap_Some in Ht as (e & He & _). apply lookup_lt_Some in He.
    rewrite take_app_le by lia. by apply prefix_app_r.
Qed.

(** What a leader sends is a segment of its log. *)
Lemma heartbeat_carries tl i n c :
  log_small n → tl !! current_term_ n = Some (i, log_ n) → heartbeat_call n c → carries tl c.
Proof.
  intros (Hwf & Hlen & Hci) HL (p & a & args & payload & last & _ & -> & Hser & H0 & Hm & Hc & He).
  assert (args_wf args) as Hargs.
  { unfold log_matches in Hm. apply fmap_Some in Hm as (e & Hlk & Ht).
    apply lookup_lt_Some in Hlk as Hlt. pose proof (Forall_lookup_1 _ _ _ _ Hwf Hlk) as (Hte & _).
    unfold args_wf. rewrite Hc, He, Ht, length_drop. split_and!; try done.
    - unfold in_signed. lia.
    - lia.
    - by apply Forall_drop. }
  destruct (payload_roundtrip args AppendEntriesArgs_init Hargs) as (bs & Hs & Hd).
  rewrite Hser in Hs. injection Hs as <-. exists i, (log_ n), args. split_and!; [done|done|exact Hm|].
  rewrite He, take_drop. done.
Qed.

(** One node changes; the leaders' logs stay, or it is a leader and its log is
    the new one of its term. *)
Lemma log_inv_update ids w tl tl' i n n' calls replies :
  log_inv ids w tl → w_nodes w !! i = Some n → grows tl tl' →
  let w' := mkWorld (<[i := n']> (w_nodes w)) calls replies in
  w_calls w ⊆ calls → w_replies w ⊆ replies →
  current_term_ n ≤ current_term_ n' → good tl' (log_ n') →
  (state_ n' ≠ RaftState.FOLLOWER → 0 < current_term_ n') →
  (state_ n' = RaftState.CANDIDATE → current_term_ n' = current_term_ n →
     state_ n = RaftState.CANDIDATE) →
  (state_ n' = RaftState.LEADER → tl' !! current_term_ n' = Some (i, log_ n')) →
  (∀ j c, (j, c) ∈ calls → (j, c) ∈ w_calls w ∨ carries tl' c) →
  tl' = tl ∨ (state_ n' = RaftState.LEADER ∧ elected ids w' i (current_term_ n') ∧
    tl' = <[current_term_ n' := (i, log_ n')]> tl) →
  log_inv ids w' tl'.
Proof.
  intros I Hn Hg w' Hcalls Hreplies Ht Hgood Hpos Hcand Hlead Hnew Htl.
  assert (∀ t o L, tl !! t = Some (o, L) → t = 0 ∧ o = -1 ∨ elected ids w' o t ∧
    ∃ m, w_nodes w' !! o = Some m ∧
      (t < current_term_ m ∨ t = current_term_ m ∧ state_ m ≠ RaftState.CANDIDATE)) as Hold.
  { intros t o L HL. destruct (li_leaders _ _ _ I _ _ _ HL) as [_ [?|[He (m & Hm & Hc)]]]; [by left|right].
    split; [by eapply elected_mono|]. simpl. destruct (decide (o = i)) as [->|Ho].
    - rewrite lookup_insert_eq. exists n'. split; [done|]. simplify_eq.
      destruct (decide (t < current_term_ n')) as [|Hge]; [by left|right].
      assert (t = current_term_ n') as -> by lia. split; [done|]. intros Hs.
      destruct Hc as [Hc|[Hc Hns]]; [lia|]. by apply Hns, Hcand.
    - rewrite lookup_insert_ne by done. by exists m. }
  split; simpl.
  - intros j m Hm. apply lookup_insert_Some in Hm as [[<- <-]|[_ Hm]].
    + split; [done|]. pose proof (li_node _ _ _ I _ _ Hn) as [_ ?]. lia.
    + destruct (li_node _ _ _ I _ _ Hm). split; [by eapply good_mono|done].
  - intros t o L HL. destruct (tl !! t) as [[o0 L0]|] eqn:E0.
    + destruct (Hg _ _ _ E0) as (L1 & HL1 & _). rewrite HL in HL1. injection HL1 as <- <-.
      split; [|by eapply Hold]. destruct Htl as [->|(_ & _ & ->)].
      * by eapply li_leaders.
      * apply lookup_insert_Some in HL as [[_ [= _ <-]]|[_ HL]]; [done|].
        eapply good_mono; [done|]. by eapply li_leaders.
    + destruct Htl as [->|(Hs & He & ->)]; [congruence|].
      apply lookup_insert_Some in HL as [[<- [= <- <-]]|[_ HL]]; [|congruence].
      split; [done|]. right. split; [done|]. exists n'. rewrite lookup_insert_eq. split; [done|].
      right. by rewrite Hs.
  - intros j m Hm. apply lookup_insert_Some in Hm as [[<- <-]|[_ Hm]]; [done|]. by eapply li_role.
  - intros j m Hm Hs. apply lookup_insert_Some in Hm as [[<- <-]|[Hne Hm]]; [by apply Hlead|].
    pose proof (li_leader _ _ _ I _ _ Hm Hs) as HL. destruct Htl as [->|(_ & _ & ->)]; [done|].
    rewrite lookup_insert_ne; [done|]. intros Et. rewrite <- Et in HL.
    destruct (Hg _ _ _ HL) as (L' & HL' & _). rewrite lookup_insert_eq in HL'. congruence.
  - intros j c Hc. destruct (Hnew j c Hc) as [Hc'|]; [|done].
    eapply carries_mono; [done|by eapply li_calls].
Qed.

(** The term of a node that has just won has had no leader. *)
Lemma fresh_leader ids w w' tl i n t :
  log_inv ids w tl → votes_inv ids w' → w_calls w ⊆ w_calls w' → w_replies w ⊆ w_replies w' →
  elected ids w' i t → w_nodes w !! i = Some n → 0 < t →
  (current_term_ n < t ∨ current_term_ n = t ∧ state_ n = RaftState.CANDIDATE) → tl !! t = None.
Proof.
  intros I V Hc Hr He Hn Ht Hcase. destruct (tl !! t) as [[o L]|] eqn:HL; [|done]. exfalso.
  destruct (li_leaders _ _ _ I _ _ _ HL) as [_ [[-> _]|[Ho (m & Hm & Hmc)]]]; [lia|].
  assert (o = i) as -> by (eapply elected_once; [done|by eapply elected_mono|done]).
  simplify_eq. destruct Hcase as [?|[? ?]], Hmc as [?|[? ?]]; (lia || done).
Qed.

Lemma grows_insert tl t o L :
  (∀ o0 L0, tl !! t = Some (o0, L0) → o0 = o ∧ L0 `prefix_of` L) → grows tl (<[t := (o, L)]> tl).
Proof.
  intros H t' o' L' HL. destruct (decide (t' = t)) as [->|Hne].
  - destruct (H _ _ HL) as [-> Hp]. exists L. by rewrite lookup_insert_eq.
  - exists L'. by rewrite lookup_insert_ne by done.
Qed.

(** A node that keeps its log and does not win. *)
Lemma log_inv_quiet ids w tl i n n' calls replies :
  log_inv ids w tl → w_nodes w !! i = Some n → passive n n' →
  good tl (log_ n') → (state_ n' ≠ RaftState.FOLLOWER → log_ n' = log_ n) →
  w_calls w ⊆ calls → w_replies w ⊆ replies →
  (∀ j c, (j, c) ∈ calls → (j, c) ∈ w_calls w ∨ carries tl c) →
  log_inv ids (mkWorld (<[i := n']> (w_nodes w)) calls replies) tl.
Proof.
  intros I Hn [_ Ht _ Hr] Hg Hl Hc Hrep Hnew.
  eapply log_inv_update; try done; [apply grows_refl|..|by left].
  - intros Hs. destruct (Hr Hs) as (Es & -> & _). apply (li_role _ _ _ I i n Hn). congruence.
  - intros Hs _. destruct (Hr ltac:(by rewrite Hs)) as (Es & _). congruence.
  - intros Hs. destruct (Hr ltac:(by rewrite Hs)) as (Es & -> & _).
    rewrite Hl by (by rewrite Hs). apply (li_leader _ _ _ I i n Hn). congruence.
Qed.

(** A node that is leader of its term after the step, which it was not, or with
    a longer log. *)
Lemma log_inv_lead ids w tl i n n' calls replies :
  log_inv ids w tl → w_nodes w !! i = Some n →
  let w' := mkWorld (<[i := n']> (w_nodes w)) calls replies in
  let tl' := <[current_term_ n' := (i, log_ n')]> tl in
  current_term_ n ≤ current_term_ n' → 0 < current_term_ n' → state_ n' = RaftState.LEADER →
  elected ids w' i (current_term_ n') → grows tl tl' → good tl' (log_ n') →
  w_calls w ⊆ calls → w_replies w ⊆ replies →
  (∀ j c, (j, c) ∈ calls → (j, c) ∈ w_calls w ∨ carries tl' c) →
  log_inv ids w' tl'.
Proof.
  intros I Hn w' tl' Ht H0 Hs He Hg Hgood Hc Hr Hnew.
  eapply log_inv_update; try done; [by rewrite Hs|intros _; apply lookup_insert_eq|by right].
Qed.

Lemma log_inv_win ids w tl i n n' calls replies :
  log_inv ids w tl → w_nodes w !! i = Some n →
  let w' := mkWorld (<[i := n']> (w_nodes w)) calls replies in
  votes_inv ids w' → state_ n' = RaftState.LEADER → log_ n' = log_ n →
  (current_term_ n < current_term_ n' ∨
   current_term_ n = current_term_ n' ∧ state_ n = RaftState.CANDIDATE) →
  w_calls w ⊆ calls → w_replies w ⊆ replies →
  (∀ j c, (j, c) ∈ calls → (j, c) ∈ w_calls w ∨ carries tl c) →
  ∃ tl', log_inv ids w' tl'.
Proof.
  intros I Hn w' V Hs Hl Hcase Hc Hr Hnew.
  destruct (li_node _ _ _ I _ _ Hn) as [Hgood Hge].
  assert (0 < current_term_ n') as H0.
  { destruct Hcase as [?|[<- Hs']]; [lia|]. apply (li_role _ _ _ I i n Hn). by rewrite Hs'. }
  assert (elected ids w' i (current_term_ n')) as He.
  { eapply leader_elected; [done|apply lookup_insert_eq|done]. }
  assert (tl !! current_term_ n' = None) as Hf.
  { eapply (fresh_leader ids w w'); try done. }
  assert (grows tl (<[current_term_ n' := (i, log_ n')]> tl)) as Hg.
  { apply grows_insert. intros o L. by rewrite Hf. }
  eexists. eapply (log_inv_lead _ _ tl _ n n'); try done.
  - lia.
  - rewrite Hl at 2. by eapply good_mono.
  - intros j c Hin. destruct (Hnew j c Hin) as [?|?]; [by left|right]. by eapply carries_mono.
Qed.

Lemma log_inv_propose ids w tl i n n' command :
  log_inv ids w tl → w_nodes w !! i = Some n → passive n n' → state_ n' = RaftState.LEADER →
  log_ n' = log_ n ++ [mkLogEntry (current_term_ n) (Z.of_nat (length (log_ n))) command] →
  ∃ tl', log_inv ids (mkWorld (<[i := n']> (w_nodes w)) (w_calls w) (w_replies w)) tl'.
Proof.
  intros I Hn [_ _ _ Hr] Hs Hl. destruct (Hr ltac:(by rewrite Hs)) as (Es & Et & _).
  rewrite Hs in Es. symmetry in Es. pose proof (li_leader _ _ _ I _ _ Hn Es) as HL.
  pose proof (li_role _ _ _ I _ _ Hn ltac:(by rewrite Es)) as H0.
  destruct (li_leaders _ _ _ I _ _ _ HL) as [Hgood [[? _]|[He _]]]; [lia|].
  assert (grows tl (<[current_term_ n' := (i, log_ n')]> tl)) as Hg.
  { apply grows_insert. intros o L HoL. rewrite Et, HL in HoL. injection HoL as <- <-.
    split; [done|]. rewrite Hl. by apply prefix_app_r. }
  eexists. eapply (log_inv_lead _ _ tl _ n n'); try done; [lia|lia| | |by left].
  - rewrite Et. by eapply elected_mono; [..|exact He].
  - intros k e Hk. rewrite Hl in Hk. apply lookup_app_Some in Hk as [Hk|[Hge Hk]].
    + destruct (good_mono _ _ _ Hg Hgood k e Hk) as (Hi & o & L & HoL & Hp). split; [done|].
      exists o, L. split; [done|]. apply lookup_lt_Some in Hk. rewrite Hl at 1.
      by rewrite take_app_le by lia.
    + apply list_lookup_singleton_Some in Hk as [Hk <-]. simpl. split; [lia|].
      exists i, (log_ n'). rewrite <- Et, lookup_insert_eq. split; [done|]. apply prefix_take.
Qed.

Lemma log_inv_act ids w tl i n n' calls :
  let w' := mkWorld (<[i := n']> (w_nodes w)) (w_calls w ++ (pair i <$> calls)) (w_replies w) in
  votes_inv ids w → votes_inv ids w' → log_inv ids w tl → w_nodes w !! i = Some n → log_small n →
  act_step n n' calls → ∃ tl', log_inv ids w' tl'.
Proof.
  intros w' V V' I Hn Hsm. assert (∀ j c (P : Prop), (j, c) ∈ w_calls w ++ (pair i <$> calls) →
    (c ∈ calls → P) → (j, c) ∈ w_calls w ∨ P) as Hcalls.
  { intros j c P [?|Hin]%elem_of_app HP; [by left|right].
    apply list_elem_of_fmap in Hin as (c' & [= -> ->] & Hin). by apply HP. }
  intros [(Hp & [Hl|(Hs & command & Hl)] & Hc)|Hcamp].
  - exists tl. eapply log_inv_quiet; try done; [rewrite Hl; by eapply li_node|set_solver|].
    intros j c Hin. eapply Hcalls; [exact Hin|]. intros Hcin.
    destruct Hc as [->|(_ & Hci & Hs & Hc)]; [by apply not_elem_of_nil in Hcin|].
    destruct (ps_role _ _ Hp ltac:(by rewrite Hs)) as (Es & Et & _).
    apply (heartbeat_carries tl i n'); [unfold log_small; by rewrite Hl, Hci| |by apply Hc].
    rewrite Et, Hl. apply (li_leader _ _ _ I _ _ Hn). congruence.
  - assert (calls = []) as ->.
    { destruct Hc as [?|(Hc & _)]; [done|]. rewrite Hl in Hc.
      apply (f_equal length) in Hc. rewrite length_app in Hc. simpl in Hc. lia. }
    subst w'. rewrite fmap_nil, app_nil_r in *. by eapply log_inv_propose.
  - pose proof Hcamp as (Hcfg & Et & _ & _ & Hl & [[Hs Hcs]|(Hs & Hm & Hcs)]).
    + exists tl. eapply log_inv_update; try done; [apply grows_refl|set_solver|lia| | | | | |by left].
      * rewrite Hl. by eapply li_node.
      * intros _. destruct (li_node _ _ _ I _ _ Hn). lia.
      * lia.
      * by rewrite Hs.
      * intros j c Hin. eapply Hcalls; [exact Hin|]. rewrite Hcs. by intros (q & -> & _)%list_elem_of_fmap.
    + assert (peers_ n = []) as Hno
        by (apply (campaign_alone ids i n n' calls); [by apply (vi_member _ _ V)|done..]).
      eapply log_inv_win; try done; [lia|set_solver|].
      intros j c Hin. eapply Hcalls; [exact Hin|]. intros Hcin.
      destruct (Hcs _ Hcin) as (p & _ & _ & _ & _ & Hp & _). destruct Hcfg as (_ & Ep & _).
      rewrite Ep, Hno in Hp. by apply not_elem_of_nil in Hp.
Qed.

Lemma log_inv_serve ids w tl i c n n' r :
  votes_inv ids w → log_inv ids w tl → (i, c) ∈ w_calls w → w_nodes w !! call_peer c = Some n →
  serves (call_request c) n r n' →
  log_inv ids (mkWorld (<[call_peer c := n']> (w_nodes w)) (w_calls w) (w_replies w ++ [(i, c, r)])) tl.
Proof.
  intros V I Hc Hn (Hp & Hf & Hl & _). eapply log_inv_quiet; try done; [|set_solver|by left].
  destruct Hl as [->|(args & Hty & Hd & H0 & Hm & ->)]; [by eapply li_node|].
  pose proof (li_calls _ _ _ I _ _ Hc) as Hcar. destruct c as [p a req t|p a req last]; simpl in *.
  { destruct (vi_calls _ _ V _ _ _ _ _ Hc) as (_ & _ & _ & ->). done. }
  destruct Hcar as (o & L & args' & HL & Hd' & Ht & Hpre). rewrite Hd in Hd'. injection Hd' as <-.
  eapply (merge_good tl _ L); try done; [by eapply li_node|by eapply li_leaders].
Qed.

Lemma log_inv_reply ids w tl i c n n' :
  let w' := mkWorld (<[i := n']> (w_nodes w)) (w_calls w) (w_replies w) in
  votes_inv ids w' → log_inv ids w tl → w_nodes w !! i = Some n →
  passive n n' ∧ log_ n' = log_ n ∨ (∃ p a req t r, c = VoteCall p a req t ∧ counts t p r n n') →
  ∃ tl', log_inv ids w' tl'.
Proof.
  intros w' V' I Hn [[Hp Hl]|(p & a & req & t & r & -> & Hcnt)].
  { exists tl. eapply log_inv_quiet; try done; [rewrite Hl; by eapply li_node|by left]. }
  destruct Hcnt as (Hs & _ & _ & _ & _ & _ & Et & _ & _ & Hl & [Hs'|[Hs' _]]).
  - exists tl. eapply log_inv_update; try done; [apply grows_refl|lia| | | |by left|by left].
    + rewrite Hl. by eapply li_node.
    + intros _. rewrite Et. apply (li_role _ _ _ I _ _ Hn). by rewrite Hs.
    + by rewrite Hs'.
  - eapply log_inv_win; try done; [right; by rewrite Et|by left].
Qed.

Lemma log_inv_step ids w w' tl :
  votes_inv ids w → log_inv ids w tl → world_step w w' → ∃ tl', log_inv ids w' tl'.
Proof.
  intros V I Hstep. pose proof (votes_inv_step _ _ _ V Hstep) as V'.
  destruct Hstep as [i n n' calls Hn Hsm Ha|i c n n' r Hc Hn Hsv|i c n n' r Hr Hn Hh].
  - by eapply log_inv_act.
  - exists tl. by eapply log_inv_serve.
  - eapply (log_inv_reply ids w tl i c n n'); try done.
    destruct Hh as [?|(p & a & req & t & Hc & Hcnt)]; [by left|right]. by exists p, a, req, t, r.
Qed.

Lemma log_inv_initial ids w : initial_world ids w →
  log_inv ids w {[0 := (-1, [mkLogEntry 0 0 []])]}.
Proof.
  intros (_ & _ & Hc & _ & Hn).
  assert (good {[0 := (-1, [mkLogEntry 0 0 []])]} [mkLogEntry 0 0 []]) as Hg.
  { intros k e [-> <-]%list_lookup_singleton_Some. split; [done|]. by eexists _, _. }
  split.
  - intros i n Hin. destruct (Hn i n Hin) as (_ & port & now & draw & env & cb & ->). done.
  - intros t o L [<- [= <- <-]]%lookup_singleton_Some. split; [done|by left].
  - intros i n Hin. destruct (Hn i n Hin) as (_ & port & now & draw & env & cb & ->). done.
  - intros i n Hin. destruct (Hn i n Hin) as (_ & port & now & draw & env & cb & ->). done.
  - intros i c Hin. rewrite Hc in Hin. by apply not_elem_of_nil in Hin.
Qed.

Lemma log_inv_reachable ids w0 w :
  initial_world ids w0 → rtc cluster_step w0 w → ∃ tl, log_inv ids w tl.
Proof.
  intros H0 H. pose proof (votes_inv_initial _ _ H0) as V. pose proof (log_inv_initial _ _ H0) as I.
  clear H0. revert V I. generalize ({[0 := (-1, [mkLogEntry 0 0 []])]} : gmap Z (Z * list LogEntry)).
  induction H as [w|w w1 w2 Hs _ IH]; intros tl V I; [by exists tl|].
  apply cluster_step_cases in Hs. destruct (log_inv_step _ _ _ _ V I Hs) as [tl' I'].
  eapply IH; [|done]. by eapply votes_inv_step.
Qed.

(** C2: in every reachable state of a cluster, two logs that have entries of
    the same term at the same position are equal up to and including that
    position, and every entry carries its position as its index. *)
Theorem log_matching ids w0 w i j n m k e e' :
  initial_world ids w0 → rtc cluster_step w0 w →
  w_nodes w !! i = Some n → w_nodes w !! j = Some m →
  log_ n !! k = Some e → log_ m !! k = Some e' → entry_term e = entry_term e' →
  take (S k) (log_ n) = take (S k) (log_ m) ∧ entry_index e = Z.of_nat k.
Proof.
  intros H0 H Hn Hm He He' Et. destruct (log_inv_reachable _ _ _ H0 H) as [tl I].
  destruct (li_node _ _ _ I _ _ Hn) as [Hgn _], (li_node _ _ _ I _ _ Hm) as [Hgm _].
  split; [by eapply good_agree|]. by destruct (Hgn k e He).
Qed.
End log_matching.

(** Node 1, leader of term 1, appends a command and replicates it to node 2. *)
Definition trio_replicated : list event :=
  trio_first_election ++
  [EvLocal 1 (ActPropose [x61]); EvLocal 1 ActRound; EvDeliver 2; EvReply 1].

Lemma log_matching_witness :
  ∃ w n m, run_events trio_replicated trio_world = Some w ∧
    w_nodes w !! 1 = Some n ∧ w_nodes w !! 2 = Some m ∧
    log_ n !! 1%nat = Some (mkLogEntry 1 1 [x61]) ∧
    take 2 (log_ n) = take 2 (log_ m) ∧ 1 = Z.of_nat 1.
Proof.
  do 3 eexists. match goal with |- ?A ∧ ?B ∧ ?C ∧ ?D ∧ _ =>
    assert (A) as H by (vm_compute; reflexivity)
  end.
  split; [exact H|]. do 3 (split; [vm_compute; reflexivity|]).
  eapply (log_matching {[1; 2; 3]} trio_world _ 1 2 _ _ 1 (mkLogEntry 1 1 [x61]));
    first [apply trio_initial|by eapply run_events_steps|vm_compute; reflexivity].
Defined.
