(* ===== verification/RaftApply.v ===== *)
(** * What the nodes of a cluster apply

    Every node gives its callback the indices 1, 2, 3, … one after the other,
    each once, and nothing but commands some leader was asked to append, though
    the messages between the nodes may be late, repeated or lost and a new
    leader may overwrite the log. *)

From S2P Require Export RaftLog.

Local Open Scope Z_scope.

Section apply.
Notation Node := (RaftNode (list (bytes * Z))).
Implicit Types (n : Node) (w : world (E := list (bytes * Z))) (P : bytes → Prop).

(** The callback records its calls; so far these were the indices up to the
    last one applied, with commands in [P], as all of the log are in [P]
    behind its first, empty entry. *)
Record applies P n : Prop := {
  ap_callback : on_commit_ n = Some record_call;
  ap_calls : (env_ n).*2 = seqZ 1 (last_applied_ n);
  ap_applied : 0 ≤ last_applied_ n;
  ap_commit : commit_index_ n ≤ last_applied_ n;
  ap_recorded : Forall P (env_ n).*1;
  ap_log : Forall (λ e, P (entry_command e)) (drop 1 (log_ n));
  ap_first : (0 < length (log_ n))%nat;
}.

(** The same without the bound on the commit index, while entries are applied. *)
Definition applying P n : Prop := applies P (node_set_commit 0 n).

Lemma applying_commit P n c : applying P n → applying P (node_set_commit c n).
Proof. done. Qed.

Lemma applies_applying P n : applies P n → applying P n.
Proof. intros []. by split. Qed.

Lemma applying_applies P n : applying P n → commit_index_ n ≤ last_applied_ n → applies P n.
Proof. intros [] Hc. by split. Qed.

Lemma applies_mono P P' n : (∀ c, P c → P' c) → applies P n → applies P' n.
Proof.
  intros HP [Cb Ca Ap Cm Re Lo Fi]. split; try done.
  - eapply Forall_impl; [exact Re|done].
  - eapply Forall_impl; [exact Lo|]. cbn beta. auto.
Qed.

(** What of a node these facts depend on. *)
Definition ledger n := (on_commit_ n, env_ n, last_applied_ n, commit_index_ n).

Lemma applies_ledger P n n' :
  ledger n' = ledger n → log_ n' = log_ n → applies P n → applies P n'.
Proof. intros [= E1 E2 E3 E4] El []. split; by rewrite ?E1, ?E2, ?E3, ?E4, ?El. Qed.

Lemma log_command P n i e :
  Forall (λ e, P (entry_command e)) (drop 1 (log_ n)) → 1 ≤ i →
  log_ n !! Z.to_nat i = Some e → P (entry_command e).
Proof.
  intros Hl Hi He. apply (Forall_lookup_1 _ _ (pred (Z.to_nat i)) _ Hl).
  rewrite lookup_drop. by replace (1 + pred (Z.to_nat i))%nat with (Z.to_nat i) by lia.
Qed.

(** ** Handlers that apply *)

Lemma wlp_record command index n (Q : unit → Node → Prop) :
  Q tt (node_set_env (env_ n ++ [(command, index)]) n) →
  wlp (on_env (record_call command index)) n Q.
Proof. by intros HQ a s' [= <- <-]. Qed.

Lemma ApplyLoop_applies fuel P : ∀ n,
  applying P n → wlp (ApplyLoop fuel) n (λ _ n', applies P n').
Proof.
  induction fuel as [|fuel IH]; intros n Hn; [by intros a s'|]. cbn [ApplyLoop].
  wlp_steps. destruct (Z.ltb_spec (last_applied_ n) (commit_index_ n)) as [Hlt|Hge].
  2: { wlp_steps. by apply applying_applies. }
  cbv zeta. wlp_steps. destruct Hn as [Cb Ca Ap Cm Re Lo Fi]. simpl in *. rewrite Cb.
  wlp_steps. apply wlp_at_z. intros e _ He. simpl in He.
  apply wlp_record, IH. split; simpl; [done| |lia|lia| |done|done].
  - rewrite fmap_app, Ca. replace (last_applied_ n) with (Z.of_nat (Z.to_nat (last_applied_ n))) by lia.
    replace (Z.of_nat (Z.to_nat (last_applied_ n)) + 1) with (Z.of_nat (S (Z.to_nat (last_applied_ n)))) at 2 by lia.
    rewrite seqZ_S. simpl. do 2 f_equal. lia.
  - rewrite fmap_app. apply Forall_app. split; [done|]. apply Forall_singleton. simpl.
    apply (log_command P n (last_applied_ n + 1)); [done|lia|done].
Qed.

Lemma ApplyCommitted_applies P n :
  applying P n → wlp ApplyCommittedEntriesLocked n (λ _ n', applies P n').
Proof. intros Hn. apply wlp_bind, wlp_gets. by apply ApplyLoop_applies. Qed.

Lemma AdvanceLoop_applies fuel P : ∀ n index,
  applies P n → wlp (AdvanceLoop fuel index) n (λ _ n', applies P n').
Proof.
  induction fuel as [|fuel IH]; intros n index Hn; [by intros a s'|]. cbn [AdvanceLoop].
  wlp_steps. destruct (_ <=? _); [by wlp_steps|]. wlp_steps. apply wlp_at_z. intros e _ _.
  wlp_steps. destruct (_ && _); [|by apply IH].
  wlp_steps. by apply ApplyCommitted_applies, applying_commit, applies_applying.
Qed.

Lemma merge_log_Forall (Q : LogEntry → Prop) es k l :
  (1 ≤ k ≤ length l)%nat → Forall Q (drop 1 l) → Forall Q es → Forall Q (drop 1 (merge_log es k l)).
Proof.
  intros Hk Hl He. destruct (merge_log_result es k l) as [[_ ->]|(j & x & Hj & _ & _ & _ & ->)]; [lia|done|].
  rewrite drop_app_le by (rewrite length_take; lia). apply Forall_app. split; [|by apply Forall_drop].
  replace (k + j)%nat with (1 + (k + j - 1))%nat by lia. rewrite <- take_drop_commute.
  by apply Forall_take.
Qed.
(** ** What a node does by itself *)

Definition keeps n n' : Prop := ledger n' = ledger n ∧ log_ n' = log_ n.

Lemma applies_keeps P n n' : keeps n n' → applies P n → applies P n'.
Proof. intros [??]. by apply applies_ledger. Qed.

Lemma SendHeartbeats_keeps n : wlp SendHeartbeats n (λ _ n', keeps n n').
Proof. eapply wlp_mono; [apply SendHeartbeats_step|]. cbn beta. by intros _ n' [-> _]. Qed.

Lemma StartElection_keeps n : wlp StartElection n (λ _ n', keeps n n').
Proof.
  unfold StartElection, incr_signed, ResetElectionDeadlineLocked. wlp_steps. destruct (_ || _); wlp_steps; [done|].
  destruct (_ =? _); [by intros a s'|]. wlp_steps. destruct (has_majority _); wlp_steps; [|done].
  unfold BecomeLeader. wlp_steps. eapply wlp_mono; [apply SendHeartbeats_keeps|]. done.
Qed.

(** Only a proposal to a leader changes the log. *)
Lemma run_act_log a n : wlp (run_act a) n (λ _ n', ledger n' = ledger n ∧
  (log_ n' = log_ n ∨ ∃ command, a = ActPropose command ∧ state_ n = RaftState.LEADER ∧
     log_ n' = log_ n ++ [mkLogEntry (current_term_ n) (Z.of_nat (length (log_ n))) command])).
Proof.
  assert (∀ n1, keeps n n1 → ledger n1 = ledger n ∧ (log_ n1 = log_ n ∨
    ∃ command, a = ActPropose command ∧ state_ n = RaftState.LEADER ∧
      log_ n1 = log_ n ++ [mkLogEntry (current_term_ n) (Z.of_nat (length (log_ n))) command])) as Hk
    by (intros n1 [? ?]; split; [done|by left]).
  destruct a as [| | |command|o| |now draw]; cbn [run_act].
  - unfold ElectionLoopRound. wlp_steps. destruct (negb _); [by wlp_steps; apply Hk|].
    destruct (_ && _); [wlp_steps|destruct (_ && _); [|by wlp_steps; apply Hk]].
    + eapply wlp_mono; [apply SendHeartbeats_keeps|]. cbn beta. intros _ n1 ?. by apply Hk.
    + eapply wlp_mono; [apply StartElection_keeps|]. cbn beta. intros _ n1. apply Hk.
  - eapply wlp_mono; [apply SendHeartbeats_keeps|]. cbn beta. intros _ n1. apply Hk.
  - eapply wlp_mono; [apply StartElection_keeps|]. cbn beta. intros _ n1. apply Hk.
  - unfold Propose. wlp_steps. case_bool_decide as Hs; cbn [negb]; wlp_steps; [|by apply Hk].
    split; [done|right]. by exists command.
  - unfold Start, ResetElectionDeadlineLocked. wlp_steps. destruct (running_ n); wlp_steps; [by apply Hk|].
    apply wlp_lift. intros [] _. wlp_steps. by apply Hk.
  - unfold Stop. wlp_steps. by apply Hk.
  - wlp_steps. by apply Hk.
Qed.

Lemma run_act_applies P a n :
  (∀ command, a = ActPropose command → state_ n = RaftState.LEADER → P command) →
  applies P n → wlp (run_act a) n (λ _ n', applies P n').
Proof.
  intros HP Hn. eapply wlp_mono; [apply run_act_log|]. cbn beta.
  intros _ n' [Hl [Hlog|(command & -> & Hs & Hlog)]]; [by eapply applies_ledger|].
  destruct Hn as [Cb Ca Ap Cm Re Lo Fi]. injection Hl as E1 E2 E3 E4.
  split; rewrite ?E1, ?E2, ?E3, ?E4, ?Hlog; try done.
  - rewrite drop_app_le by lia. apply Forall_app. split; [done|]. apply Forall_singleton. by apply HP.
  - rewrite length_app. lia.
Qed.

(** ** Messages *)

(** A request for votes, or entries with commands in [P]. *)
Definition sends P (c : RpcCall) : Prop :=
  match c with
  | VoteCall _ _ m _ => rpc_type m = REQUEST_VOTE
  | AppendCall _ _ m _ => ∀ args,
      DeserializeAppendEntriesPayload (rpc_payload m) (Some AppendEntriesArgs_init) = Ret (true, Some args) →
      Forall (λ e, P (entry_command e)) (entries args)
  end.

Lemma sends_mono P P' c : (∀ x, P x → P' x) → sends P c → sends P' c.
Proof.
  intros HP. destruct c as [|p a m last]; [done|]. intros Hc args Hd.
  eapply Forall_impl; [by apply Hc|]. cbn beta. auto.
Qed.

Lemma heartbeat_sends P n c :
  log_small n → Forall (λ e, P (entry_command e)) (drop 1 (log_ n)) → heartbeat_call n c → sends P c.
Proof.
  intros Hsm Hl Hc. pose proof (heartbeat_carries {[current_term_ n := (0, log_ n)]} 0 n c Hsm
    ltac:(by rewrite lookup_singleton_eq) Hc) as Hcar.
  destruct Hc as (p & a & args0 & payload & last & _ & -> & _). simpl in *. intros args Hd.
  destruct Hcar as (o & L & args' & HL & Hd' & Ht & [x Hx]).
  rewrite lookup_singleton_eq in HL. injection HL as <- <-. rewrite Hd in Hd'. injection Hd' as <-.
  apply fmap_Some in Ht as (e & He & _). apply lookup_lt_Some in He.
  rewrite Hx in Hl. rewrite <- app_assoc, drop_app_le in Hl by (rewrite length_take; lia).
  apply Forall_app in Hl as [_ Hl]. by apply Forall_app in Hl as [? _].
Qed.

Lemma act_step_calls n n' calls c : act_step n n' calls → c ∈ calls →
  (∃ p a m t, c = VoteCall p a m t ∧ rpc_type m = REQUEST_VOTE) ∨
  log_ n' = log_ n ∧ heartbeat_call n' c.
Proof.
  intros [(_ & _ & [->|(Hl & _ & _ & Hc)])|(_ & _ & _ & _ & Hl & [[_ ->]|(_ & _ & Hc)])] Hin.
  - by apply not_elem_of_nil in Hin.
  - right. split; [done|by apply Hc].
  - apply list_elem_of_fmap in Hin as (q & -> & _). left. by eexists _, _, _, _.
  - right. split; [done|by apply Hc].
Qed.

Lemma HandleAppendEntries_applies P term leader prev prev_term lc es n :
  Forall (λ e, P (entry_command e)) es → applies P n →
  wlp (HandleAppendEntries term leader prev prev_term lc es) n (λ _ n', applies P n').
Proof.
  intros He Hn. destruct (decide (current_term_ n ≤ term)) as [Ht|Ht].
  2: { intros r n' Hrun. rewrite HandleAppendEntries_stale in Hrun by lia. by injection Hrun as <- <-. }
  intros r n' Hrun. rewrite HandleAppendEntries_body in Hrun by done.
  assert (applies P (followed term leader n)) as Hn1.
  { destruct (followed_keeps term leader n) as (_ & _ & _ & Kl & Kc & Ka & Ke & Kcb).
    eapply applies_ledger; [|exact Kl|exact Hn]. unfold ledger. by rewrite Kcb, Ke, Ka, Kc. }
  revert r n' Hrun. generalize (followed term leader n) Hn1. clear Hn1. intros n1 Hn1.
  apply wlp_bind. unfold AppendBody. wlp_steps. apply (wlp_mono _ _ (λ b n', n' = n1 ∧
    (b = true → 0 ≤ prev < Z.of_nat (length (log_ n1))))).
  { destruct (Z.ltb_spec prev (Z.of_nat (length (log_ n1)))); [|by wlp_steps].
    wlp_steps. apply wlp_at_z. intros e H0 _. by wlp_steps. }
  intros [] n2 [-> Hp]; [|by wlp_steps]. specialize (Hp eq_refl).
  wlp_steps. eapply wlp_mono; [by apply MergeEntries_wlp|]. cbn beta. intros _ n2 ->. wlp_steps. simpl.
  assert (applies P (node_set_log (merge_log es (S (Z.to_nat prev)) (log_ n1)) n1)) as Hn2.
  { destruct Hn1. split; try done.
    - simpl. apply merge_log_Forall; [lia|done..].
    - simpl. pose proof (merge_log_length es (S (Z.to_nat prev)) (log_ n1) ltac:(lia)). lia. }
  apply (wlp_mono _ _ (λ _ n', applies P n')); [|intros _ n2 Hn3; by wlp_steps].
  destruct (_ <? _); unfold when; wlp_steps; [|done].
  by apply ApplyCommitted_applies, applying_commit, applies_applying.
Qed.
Lemma HandleRequestVote_keeps t c n : wlp (HandleRequestVote t c) n (λ _ n', keeps n n').
Proof.
  unfold HandleRequestVote, StepDown, ResetElectionDeadlineLocked. wlp_steps.
  destruct (_ <=? _); wlp_steps; [|done]. destruct (_ <? _); unfold when; wlp_steps;
    (destruct (_ || _); by wlp_steps).
Qed.

Lemma HandleMessage_applies P c n :
  sends P c → applies P n → wlp (HandleMessage (call_request c)) n (λ _ n', applies P n').
Proof.
  intros Hc Hn. unfold HandleMessage, GetCurrentTerm.
  destruct (rpc_type (call_request c)) eqn:Ety; try by wlp_steps.
  - eapply wlp_mono; [apply HandleRequestVote_keeps|]. cbn beta. intros _ n' ?. by eapply applies_keeps.
  - wlp_steps. apply wlp_lift. intros [ok args] Hd. destruct ok, args as [args|]; try by wlp_steps.
    apply HandleAppendEntries_applies; [|done]. destruct c; simpl in *; [congruence|by apply Hc].
Qed.

Lemma HandleReply_applies P c r n :
  applies P n → wlp (HandleReply c r) n (λ _ n', applies P n').
Proof.
  intros Hn. assert (∀ n', keeps n n' → applies P n') as Hk by (intros n' ?; by eapply applies_keeps).
  assert (wlp (StepDown (rpc_term r) ;; ResetElectionDeadlineLocked) n (λ _ n', applies P n')) as Hdown
    by (unfold StepDown, ResetElectionDeadlineLocked; wlp_steps; by apply Hk).
  destruct c as [p a m t|p a m last]; cbn [HandleReply].
  - unfold HandleVoteReply, BecomeLeader. wlp_steps. destruct (negb _); [by wlp_steps|].
    destruct (_ <? _); [done|]. destruct (_ || _); wlp_steps; [done|].
    destruct (has_majority _); unfold when; wlp_steps; by apply Hk.
  - unfold HandleAppendEntriesReply. wlp_steps. destruct (_ || _); [by wlp_steps|].
    destruct (_ <? _); [done|]. destruct (bool_decide _); unfold when; [|by wlp_steps].
    destruct (bool_decide _); wlp_steps; [|by apply Hk].
    unfold AdvanceCommitIndexLocked. wlp_steps. apply AdvanceLoop_applies. by apply Hk.
Qed.

(** ** Runs of a cluster *)

Record apply_inv P w : Prop := {
  ai_node i n : w_nodes w !! i = Some n → applies P n;
  ai_call i c : (i, c) ∈ w_calls w → sends P c;
}.

Lemma apply_inv_mono P P' w : (∀ x, P x → P' x) → apply_inv P w → apply_inv P' w.
Proof.
  intros HP [Hn Hc]. split.
  - intros i n Hi. eapply applies_mono; [done|by eapply Hn].
  - intros i c Hi. eapply sends_mono; [done|by eapply Hc].
Qed.

(** One node changes and calls are added. *)
Lemma apply_inv_update P w i n' calls replies :
  apply_inv P w → applies P n' → (∀ j c, (j, c) ∈ calls → (j, c) ∈ w_calls w ∨ sends P c) →
  apply_inv P (mkWorld (<[i := n']> (w_nodes w)) calls replies).
Proof.
  intros [Hn Hc] Hn' Hnew. split; simpl.
  - intros j m Hm. apply lookup_insert_Some in Hm as [[_ <-]|[_ Hm]]; [done|by eapply Hn].
  - intros j c Hin. destruct (Hnew j c Hin); [by eapply Hc|done].
Qed.

Lemma run_event_apply_inv P e w w' :
  (∀ j command n, e = EvLocal j (ActPropose command) → w_nodes w !! j = Some n →
     state_ n = RaftState.LEADER → P command) →
  apply_inv P w → run_event e w = Some w' → apply_inv P w'.
Proof.
  intros HP I He. destruct e as [i a|k|k]; simpl in He.
  - destruct (w_nodes w !! i) as [n|] eqn:En; simpl in He; [|done]. case_bool_decide as Hs; [|done].
    destruct (run_act a n) as [[calls| | |] n'] eqn:Er; try done. injection He as <-.
    assert (applies P n') as Hn'.
    { eapply run_act_applies; [|by eapply ai_node|exact Er]. intros command -> Hl. by eapply HP. }
    apply apply_inv_update; [done|done|]. intros j c [?|Hin]%elem_of_app; [by left|right].
    apply list_elem_of_fmap in Hin as (c' & [= -> ->] & Hin).
    destruct (act_step_calls n n' calls c') as [(p & b & m & t & -> & ?)|[Hl Hc]]; [by eapply run_act_step|done|done|].
    apply (heartbeat_sends P n'); [|by destruct Hn'|done].
    destruct (run_act_log _ _ _ _ Er) as [[= _ _ _ Ec] _]. unfold log_small. by rewrite Hl, Ec.
  - destruct (w_calls w !! k) as [[i c]|] eqn:Ec; simpl in He; [|done].
    destruct (w_nodes w !! call_peer c) as [n|] eqn:En; simpl in He; [|done].
    destruct (HandleMessage (call_request c) n) as [[r| | |] n'] eqn:Er; try done. injection He as <-.
    apply apply_inv_update; [done| |by left]. eapply HandleMessage_applies; [| |exact Er].
    + eapply ai_call; [done|by eapply list_elem_of_lookup_2].
    + by eapply ai_node.
  - destruct (w_replies w !! k) as [[[i c] r]|] eqn:Ec; simpl in He; [|done].
    destruct (w_nodes w !! i) as [n|] eqn:En; simpl in He; [|done].
    destruct (HandleReply c r n) as [[u| | |] n'] eqn:Er; try done. injection He as <-.
    apply apply_inv_update; [done| |by left]. eapply HandleReply_applies; [|exact Er]. by eapply ai_node.
Qed.

(** The events [es] ask a node to append [command] while it leads. *)
Definition proposed (es : list event) w0 (command : bytes) : Prop :=
  ∃ es1 es2 j w1 n, es = es1 ++ EvLocal j (ActPropose command) :: es2 ∧
    run_events es1 w0 = Some w1 ∧ w_nodes w1 !! j = Some n ∧ state_ n = RaftState.LEADER.

Lemma proposed_app es es' w0 command : proposed es w0 command → proposed (es ++ es') w0 command.
Proof.
  intros (es1 & es2 & j & w1 & n & -> & H). exists es1, (es2 ++ es'), j, w1, n.
  by rewrite <- app_assoc.
Qed.

Lemma run_events_apply_inv es w0 : apply_inv (proposed [] w0) w0 →
  ∀ w, run_events es w0 = Some w → apply_inv (proposed es w0) w.
Proof.
  intros I0. induction es as [|e es IH] using rev_ind; intros w Hrun.
  { by injection Hrun as <-. }
  rewrite run_events_app in Hrun. destruct (run_events es w0) as [w1|] eqn:E1; [|done].
  cbn [mbind option_bind run_events] in Hrun.
  destruct (run_event e w1) as [w2|] eqn:E2; [|done]. injection Hrun as <-.
  apply (run_event_apply_inv _ e w1); [| |done].
  - intros j command n -> Hn Hs. by exists es, [], j, w1, n.
  - apply (apply_inv_mono (proposed es w0)); [by intros; apply proposed_app|by apply IH].
Qed.

Lemma apply_inv_initial P ids w : initial_world ids w →
  (∀ i n, w_nodes w !! i = Some n → on_commit_ n = Some record_call ∧ env_ n = []) → apply_inv P w.
Proof.
  intros (_ & _ & Hc & _ & Hn) Hrec. split.
  - intros i n Hi. destruct (Hrec i n Hi) as [Hcb He].
    destruct (Hn i n Hi) as (_ & port & now & draw & env & callback & En).
    split; try done; rewrite ?He; rewrite 1?En; simpl; (done || lia).
  - intros i c Hin. rewrite Hc in Hin. by apply not_elem_of_nil in Hin.
Qed.

(** C3: in every run of a cluster, whichever way its messages are delayed,
    reordered, repeated or lost, the callback of a node has been called with
    the indices 1, 2, 3, ... up to the last one applied, in this order and each
    once; this covers the commit index; and every command it was given was
    proposed to a node that was leader at that moment. *)
Theorem applied_in_order ids w0 es w i n :
  initial_world ids w0 →
  (∀ j m, w_nodes w0 !! j = Some m → on_commit_ m = Some record_call ∧ env_ m = []) →
  run_events es w0 = Some w → w_nodes w !! i = Some n →
  (env_ n).*2 = seqZ 1 (last_applied_ n) ∧ commit_index_ n ≤ last_applied_ n ∧
  ∀ command index, (command, index) ∈ env_ n → proposed es w0 command.
Proof.
  intros H0 Hrec Hrun Hi.
  destruct (ai_node _ _ (run_events_apply_inv es w0 (apply_inv_initial _ _ _ H0 Hrec) w Hrun) i n Hi)
    as [_ Hcalls _ Hc Hall _ _].
  split_and!; [done|done|]. intros command index Hin. rewrite Forall_forall in Hall.
  apply Hall. by apply (list_elem_of_fmap_2 fst _ (command, index)).
Qed.
End apply.

(** After the heartbeat that follows the commit, node 2 has applied the
    command of node 1. *)
Definition trio_applied : list event := trio_replicated ++ [EvLocal 1 ActHeartbeats; EvDeliver 4].

Lemma trio_records j m : w_nodes trio_world !! j = Some m → on_commit_ m = Some record_call ∧ env_ m = [].
Proof.
  unfold trio_world. simpl. rewrite !lookup_insert_Some, lookup_singleton_Some.
  by intros [[_ <-]|[_ [[_ <-]|[_ [_ <-]]]]].
Qed.

Definition trio_after : world := default trio_world (run_events trio_applied trio_world).
Definition trio_after_2 : RaftNode (list (bytes * Z)) := default (trio_node 2) (w_nodes trio_after !! 2).

Lemma applied_in_order_witness :
  env_ trio_after_2 = [([x61], 1)] ∧
  (env_ trio_after_2).*2 = seqZ 1 (last_applied_ trio_after_2) ∧
  commit_index_ trio_after_2 ≤ last_applied_ trio_after_2 ∧
  ∀ command index, (command, index) ∈ env_ trio_after_2 → proposed trio_applied trio_world command.
Proof.
  split; [vm_compute; reflexivity|].
  apply (applied_in_order {[1; 2; 3]} trio_world trio_applied trio_after 2 trio_after_2);
    [exact trio_initial|exact trio_records|vm_compute; reflexivity|vm_compute; reflexivity].
Defined.
