(* ===== verification/RaftScenarios.v ===== *)
(** * What a cluster does not promise

    Runs in which entries that were committed are lost, in which the restart of
    a process lets two leaders meet in one term, and in which a node without
    peers never commits. *)

From S2P Require Export RaftLog.

Local Open Scope Z_scope.

(** ** A committed entry is overwritten *)

(** Node 3, which has missed everything, times out twice and asks for votes in
    term 2; node 2 grants its vote although its own log is longer. *)
Definition trio_overwrite : list event :=
  trio_replicated ++ trio_timeout 3 300 ++ trio_timeout 3 600 ++
  [EvDeliver 7; EvReply 2; EvLocal 3 (ActPropose [x62]); EvLocal 3 ActRound; EvDeliver 9; EvReply 3].

(** C26: a vote is granted without a look at the candidate's log, and so a
    committed entry may be lost: there is a run of three nodes, without any
    failure but delay, in which two nodes apply different commands at index 1,
    and a node's log loses the entry that was committed there. *)
Theorem committed_entry_overwritten :
  ∃ w1 w2 n1 n2 n2' n3, rtc cluster_step trio_world w1 ∧ rtc cluster_step w1 w2 ∧
    w_nodes w2 !! 1 = Some n1 ∧ w_nodes w1 !! 2 = Some n2 ∧ w_nodes w2 !! 2 = Some n2' ∧
    w_nodes w2 !! 3 = Some n3 ∧
    env_ n1 = [([x61], 1)] ∧ commit_index_ n1 = 1 ∧
    env_ n3 = [([x62], 1)] ∧ commit_index_ n3 = 1 ∧
    log_ n2 = [mkLogEntry 0 0 []; mkLogEntry 1 1 [x61]] ∧
    log_ n2' = [mkLogEntry 0 0 []; mkLogEntry 2 1 [x62]].
Proof.
  do 6 eexists.
  split; [apply (run_events_steps trio_replicated); vm_compute; reflexivity|].
  split; [apply (run_events_steps (drop (length trio_replicated) trio_overwrite)); vm_compute; reflexivity|].
  do 4 (split; [vm_compute; reflexivity|]). vm_compute. by split_and!.
Qed.

(** ** A restarted process votes again *)

(** The process of node [i] ends; in a new one the node [n], as its constructor
    makes it, is started, and with it the server that delivers requests. *)
Definition restart {E} (i : Z) (n : RaftNode E) (w : world) : world :=
  mkWorld (<[i := snd (Start (Ret tt) n)]> (w_nodes w)) (w_calls w) (w_replies w).

(** C27: term and vote live in memory only: after a restart of a single process
    that had voted, and is running again before any request reaches it, two
    nodes are leaders of the same term at the same time. *)
Theorem restart_breaks_election_safety :
  ∃ w1 w2 n2 n2' n1 n3, rtc cluster_step trio_world w1 ∧ w_nodes w1 !! 2 = Some n2 ∧
    running_ n2 = true ∧ current_term_ n2 = 1 ∧ voted_for_ n2 = 1 ∧
    w_nodes (restart 2 (trio_node 2) w1) !! 2 = Some n2' ∧ running_ n2' = true ∧
    rtc cluster_step (restart 2 (trio_node 2) w1) w2 ∧
    w_nodes w2 !! 1 = Some n1 ∧ w_nodes w2 !! 3 = Some n3 ∧
    state_ n1 = RaftState.LEADER ∧ state_ n3 = RaftState.LEADER ∧
    current_term_ n1 = 1 ∧ current_term_ n3 = 1.
Proof.
  do 6 eexists.
  split; [apply (run_events_steps trio_first_election); vm_compute; reflexivity|].
  do 6 (split; [vm_compute; reflexivity|]).
  split; [apply (run_events_steps (trio_timeout 3 300 ++ [EvDeliver 3; EvReply 1]));
    vm_compute; reflexivity|].
  do 2 (split; [vm_compute; reflexivity|]). vm_compute. by split_and!.
Qed.

(** ** A node without peers *)

Section alone.
Context {E : Type}.
Implicit Types n : RaftNode E.

Lemma SendHeartbeats_alone n :
  peers_ n = [] → wlp SendHeartbeats n (λ calls n', calls = [] ∧ n' = n).
Proof.
  intros Hp. unfold SendHeartbeats. wlp_steps. unfold id. destruct (_ || _); [by wlp_steps|].
  rewrite Hp. simpl. by wlp_steps.
Qed.

(** Nothing but the peers' replies commits. *)
Definition uncommitted n n' : Prop :=
  peers_ n' = peers_ n ∧ commit_index_ n' = commit_index_ n ∧
  last_applied_ n' = last_applied_ n ∧ env_ n' = env_ n.

Lemma StartElection_alone n :
  peers_ n = [] → wlp StartElection n (λ calls n', calls = [] ∧ uncommitted n n').
Proof.
  intros Hp. unfold StartElection. wlp_steps. unfold id. destruct (_ || _); [by wlp_steps|]. wlp_steps.
  unfold incr_signed. destruct (_ =? _); [by intros a s'|]. wlp_steps.
  unfold ResetElectionDeadlineLocked. wlp_steps. destruct (has_majority _); wlp_steps; [|by rewrite Hp].
  unfold BecomeLeader. wlp_steps. eapply wlp_mono; [by apply SendHeartbeats_alone|]. cbn beta.
  by intros calls n' [-> ->].
Qed.

Lemma run_act_alone a n :
  peers_ n = [] → wlp (run_act a) n (λ calls n', calls = [] ∧ uncommitted n n').
Proof.
  intros Hp. destruct a as [| | |command|o| |now draw]; cbn [run_act].
  - unfold ElectionLoopRound. wlp_steps. unfold id. destruct (running_ n); simpl; [|by wlp_steps].
    destruct (bool_decide _ && _).
    { wlp_steps. eapply wlp_mono; [by apply SendHeartbeats_alone|]. cbn beta. by intros calls n' [-> ->]. }
    destruct (_ && _); [|by wlp_steps]. by apply StartElection_alone.
  - eapply wlp_mono; [by apply SendHeartbeats_alone|]. cbn beta. by intros calls n' [-> ->].
  - by apply StartElection_alone.
  - unfold Propose. wlp_steps. destruct (bool_decide _); simpl; by wlp_steps.
  - unfold Start. wlp_steps. destruct (running_ n); wlp_steps; [done|]. apply wlp_lift. intros [] _.
    unfold ResetElectionDeadlineLocked. by wlp_steps.
  - unfold Stop. by wlp_steps.
  - by wlp_steps.
Qed.

(** C28: the commit index moves only when a peer replies: in a cluster of one
    node, which elects itself and accepts proposals, nothing is ever committed
    and the callback is never called. *)
Theorem single_node_never_commits i w0 w n0 :
  initial_world {[i]} w0 → w_nodes w0 !! i = Some n0 → rtc cluster_step w0 w →
  ∃ n, w_nodes w !! i = Some n ∧ commit_index_ n = 0 ∧ last_applied_ n = 0 ∧
    env_ n = env_ (E := E) n0.
Proof.
  intros (Hdom & _ & Hc & Hr & Hn) Hn0 H.
  destruct (Hn _ _ Hn0) as ((_ & _ & Hp & _) & port & now & draw & env & cb & E0).
  assert (peers_ n0 = []) as Hnil.
  { destruct (peers_ n0) as [|[p a] ps]; [done|]. destruct (proj1 (Hp p)) as [? ?]; [by left|set_solver]. }
  assert (∃ n, w_nodes w0 !! i = Some n ∧ uncommitted n0 n) as Hex by (by exists n0).
  clear Hp Hn. revert Hdom Hc Hr Hex. clear Hn0.
  induction H as [w|w w1 w2 [[j a|k|k] He] _ IH]; simpl in *; intros Hdom Hc Hr (n & Hi & Hu).
  - destruct Hu as (_ & Hci & Hla & Henv). exists n. rewrite E0 in Hci, Hla. done.
  - destruct (w_nodes w !! j) as [m|] eqn:Em; simpl in He; [|done].
    assert (j = i) as -> by (apply elem_of_dom_2 in Em; set_solver).
    case_bool_decide; [|done]. rewrite Hi in Em. injection Em as <-.
    destruct (run_act a n) as [[calls| | | ] n'] eqn:Er; try done. injection He as <-.
    destruct Hu as (Hp & Hci & Hla & Henv).
    destruct (run_act_alone a n ltac:(congruence) _ _ Er) as [-> (Hp' & Hci' & Hla' & Henv')].
    apply IH; simpl.
    + rewrite dom_insert_lookup_L by by eexists. done.
    + by rewrite app_nil_r.
    + done.
    + exists n'. split; [apply lookup_insert_eq|]. split_and!; congruence.
  - by rewrite Hc in He.
  - by rewrite Hr in He.
Qed.
End alone.

(** Node 7 on its own: it becomes leader of term 1 and accepts a command. *)
Definition solo_node : RaftNode (list (bytes * Z)) :=
  node_set_callback (Some record_call) (RaftNode_new 7 [] 1 0 200 []).
Definition solo_world : world := mkWorld {[7 := solo_node]} [] [].
Definition solo_run : list event :=
  [EvLocal 7 (ActStart (Ret tt)); EvLocal 7 (ActTick 300 200); EvLocal 7 ActRound;
   EvLocal 7 (ActPropose [x61]); EvLocal 7 ActRound].

Lemma single_node_never_commits_witness :
  ∃ w n, run_events solo_run solo_world = Some w ∧ w_nodes w !! 7 = Some n ∧
    state_ n = RaftState.LEADER ∧ length (log_ n) = 2%nat ∧
    ∃ n', w_nodes w !! 7 = Some n' ∧ commit_index_ n' = 0 ∧ last_applied_ n' = 0 ∧ env_ n' = [].
Proof.
  do 2 eexists. match goal with |- ?A ∧ _ => assert (A) as H by (vm_compute; reflexivity) end.
  split; [exact H|]. do 3 (split; [vm_compute; reflexivity|]).
  eapply (single_node_never_commits 7 solo_world _ solo_node);
    [|vm_compute; reflexivity|by eapply run_events_steps].
  split_and!; [vm_compute; set_solver|set_solver|done|done|]. intros i n Hn.
  unfold solo_world in Hn. simpl in Hn. apply lookup_singleton_Some in Hn as [<- <-]. split; [|by eexists _, _, _, _, _].
  split_and!; [done|apply NoDup_nil_2| |done]. set_solver.
Defined.
