(* ===== verification/RaftLiveness.v ===== *)
(** * Elections that are won, commands that are committed

    A node whose election timeout expires while no other node is in a later
    term becomes leader, once its requests and the replies are delivered; a
    leader whose log fits on its peers' commits it, once its heartbeats and
    the replies are. *)

From S2P Require Export RaftScenarios.

Local Open Scope Z_scope.

Section liveness.
Context {E : Type}.
Notation Node := (RaftNode E).
Implicit Types (n m : Node) (w : world (E := E)).

(** A vote is granted in a term the voter has not reached. *)
Lemma vote_granted t c m :
  current_term_ m < t →
  ∃ m', HandleMessage (mkRpcMessage REQUEST_VOTE t c []) m =
    (Ret (mkRpcMessage REQUEST_VOTE_REPLY t (node_id_ m) [x31]), m').
Proof.
  intros Ht. eexists. unfold HandleMessage, HandleRequestVote. cbn [rpc_type rpc_term rpc_sender_id].
  unfold gets, mbind, M_bind, mret, M_ret, id. cbn beta iota.
  rewrite (proj2 (Z.leb_le _ _)) by lia. rewrite (proj2 (Z.ltb_lt _ _)) by done. reflexivity.
Qed.

(** The candidate of term [t] that has the votes [V], or has won already. *)
Definition campaigning (t : Z) (V : gset Z) n : Prop :=
  running_ n = true ∧ current_term_ n = t ∧
  (state_ n = RaftState.LEADER ∨
   state_ n = RaftState.CANDIDATE ∧ votes_received_ n = V ∧ has_majority n = false).

Lemma vote_counted t p V n j :
  campaigning t V n →
  ∃ n', HandleVoteReply t p (mkRpcMessage REQUEST_VOTE_REPLY t j [x31]) n = (Ret tt, n') ∧
    campaigning t ({[p]} ∪ V) n' ∧ cluster_size_ n' = cluster_size_ n.
Proof.
  intros (Hr & Ht & Hs). unfold HandleVoteReply, gets, mbind, M_bind, mret, M_ret, id. cbn beta iota.
  rewrite Hr. cbn [negb rpc_term rpc_type rpc_payload]. rewrite Ht, Z.ltb_irrefl.
  destruct Hs as [Hs|(Hs & Hv & Hm)]; rewrite Hs.
  { exists n. split; [done|]. split; [|done]. split; [done|]. split; [done|by left]. }
  rewrite Z.eqb_refl. cbn [negb orb]. rewrite !bool_decide_true by done. cbn [negb orb].
  unfold modify, when.
  match goal with |- context [has_majority ?x] => destruct (has_majority x) eqn:Hm' end.
  - eexists. split; [reflexivity|]. split; [|done]. split_and!; [done|done|by left].
  - eexists. split; [reflexivity|]. split; [|done]. split_and!; [done|done|right].
    split; [done|]. split; [by rewrite <- Hv|done].
Qed.

(** The request at [kc] of a series of calls is delivered, then the reply to it
    that this gives; [ks] are the positions in the series, in the order in
    which the peers are reached, [kc] is where it begins, [kr] the number of
    replies there were. *)
Fixpoint exchange_events (kc kr : nat) (ks : list nat) : list event :=
  match ks with
  | [] => []
  | k :: ks => [EvDeliver (kc + k); EvReply kr] ++ exchange_events kc (S kr) ks
  end.

(** The peers at these positions. *)
Definition peers_at (ps : list (Z * bytes)) (ks : list nat) : list Z :=
  omap (λ k, fst <$> ps !! k) ks.

Lemma peers_at_cons ps k ks q : ps !! k = Some q → peers_at ps (k :: ks) = fst q :: peers_at ps ks.
Proof. intros Hk. unfold peers_at. simpl. by rewrite Hk. Qed.

Lemma elem_of_peers_at ps ks p :
  p ∈ peers_at ps ks ↔ ∃ k q, k ∈ ks ∧ ps !! k = Some q ∧ fst q = p.
Proof.
  unfold peers_at. rewrite list_elem_of_omap. split.
  - intros (k & Hk & Hp). apply fmap_Some in Hp as (q & Hq & ->). by exists k, q.
  - intros (k & q & Hk & Hq & <-). exists k. by rewrite Hq.
Qed.

Lemma peers_at_incl ps ks p : p ∈ peers_at ps ks → p ∈ ps.*1.
Proof.
  intros (k & q & _ & Hq & <-)%elem_of_peers_at. by eapply list_elem_of_fmap_2, list_elem_of_lookup_2.
Qed.

(** Distinct positions below the number of peers. *)
Definition positions (ps : list (Z * bytes)) (ks : list nat) : Prop :=
  NoDup ks ∧ ∀ k, k ∈ ks → (k < length ps)%nat.

Lemma positions_cons ps k ks :
  positions ps (k :: ks) → ∃ q, ps !! k = Some q ∧ k ∉ ks ∧ positions ps ks.
Proof.
  intros [[Hk Hnd]%NoDup_cons Hlt].
  destruct (lookup_lt_is_Some_2 ps k) as [q Hq]; [apply Hlt; by left|].
  exists q. split_and!; [done|done|]. split; [done|]. intros k' Hk'. apply Hlt. by right.
Qed.

Lemma peer_apart ps k q ks :
  NoDup ps.*1 → ps !! k = Some q → k ∉ ks → fst q ∉ peers_at ps ks.
Proof.
  intros Hnd Hq Hk (k' & q' & Hk' & Hq' & E1)%elem_of_peers_at. apply Hk.
  enough (k = k') as -> by done. apply (NoDup_lookup ps.*1 k k' (fst q)); [done|..].
  - by rewrite list_lookup_fmap, Hq.
  - by rewrite list_lookup_fmap, Hq', <- E1.
Qed.

Lemma NoDup_peers_at ps ks : NoDup ps.*1 → positions ps ks → NoDup (peers_at ps ks).
Proof.
  intros Hnd. induction ks as [|k ks IH]; intros Hks; [constructor|].
  apply positions_cons in Hks as (q & Hq & Hk & Hks). rewrite (peers_at_cons _ _ _ q) by done.
  constructor; [by apply (peer_apart ps k)|by apply IH].
Qed.

Lemma length_peers_at ps ks : positions ps ks → length (peers_at ps ks) = length ks.
Proof.
  induction ks as [|k ks IH]; intros Hks; [done|].
  apply positions_cons in Hks as (q & Hq & _ & Hks). rewrite (peers_at_cons _ _ _ q) by done.
  simpl. by rewrite IH.
Qed.

(** The exchange with one peer: its request is delivered, then its reply. *)
Lemma exchange w i t kc p a V n m :
  w_calls w !! kc = Some (i, VoteCall p a (mkRpcMessage REQUEST_VOTE t i []) t) →
  w_nodes w !! i = Some n → w_nodes w !! p = Some m → p ≠ i → current_term_ m < t →
  campaigning t V n →
  ∃ w' n' m', run_events [EvDeliver kc; EvReply (length (w_replies w))] w = Some w' ∧
    w_calls w' = w_calls w ∧ length (w_replies w') = S (length (w_replies w)) ∧
    w_nodes w' = <[i := n']> (<[p := m']> (w_nodes w)) ∧
    campaigning t ({[p]} ∪ V) n' ∧ cluster_size_ n' = cluster_size_ n.
Proof.
  intros Hc Hi Hp Hne Ht Hcamp. destruct (vote_granted t i m Ht) as [m' Hm].
  destruct (vote_counted t p V n (node_id_ m) Hcamp) as (n' & Hn & Hcamp' & Hsz).
  eexists _, n', m'. split.
  { cbn [run_events run_event]. rewrite Hc. cbn [mbind option_bind call_peer call_request].
    rewrite Hp. cbn [mbind option_bind]. rewrite Hm. cbn [mbind option_bind w_replies w_nodes w_calls].
    rewrite list_lookup_middle by done. cbn [mbind option_bind].
    rewrite lookup_insert_ne by done. rewrite Hi. cbn [mbind option_bind HandleReply].
    by rewrite Hn. }
  split_and!; try done. simpl. rewrite length_app. simpl. lia.
Qed.

(** The exchanges with the peers at [ks]. *)
Lemma exchanges ps ks : ∀ w i t kc V n,
  (∀ k q, ps !! k = Some q → w_calls w !! (kc + k)%nat =
     Some (i, VoteCall (fst q) (snd q) (mkRpcMessage REQUEST_VOTE t i []) t)) →
  w_nodes w !! i = Some n → NoDup ps.*1 → i ∉ ps.*1 → positions ps ks →
  (∀ p, p ∈ peers_at ps ks → ∃ m, w_nodes w !! p = Some m ∧ current_term_ m < t) →
  campaigning t V n →
  ∃ w' n', run_events (exchange_events kc (length (w_replies w)) ks) w = Some w' ∧
    w_nodes w' !! i = Some n' ∧
    campaigning t (list_to_set (peers_at ps ks) ∪ V) n' ∧ cluster_size_ n' = cluster_size_ n.
Proof.
  induction ks as [|k ks IH]; intros w i t kc V n Hcalls Hi Hnd Hni Hks Hps Hcamp.
  { exists w, n. split_and!; [done|done| |done]. simpl. by rewrite union_empty_l_L. }
  apply positions_cons in Hks as (q & Hq & Hk & Hks).
  pose proof (peers_at_cons _ _ ks q Hq) as Hcons. rewrite Hcons in Hps |- *.
  assert (fst q ∈ ps.*1) as Hqin by (by eapply list_elem_of_fmap_2, list_elem_of_lookup_2).
  assert (fst q ≠ i) as Hqi by congruence.
  destruct (Hps (fst q)) as (m & Hm & Ht); [by left|].
  destruct (exchange w i t (kc + k) (fst q) (snd q) V n m) as (w1 & n1 & m1 & Hrun & Hcw & Hrw & Hnw & Hcamp1 & Hsz);
    [by apply Hcalls|done..|].
  destruct (IH w1 i t kc ({[fst q]} ∪ V) n1) as (w2 & n2 & Hrun2 & Hi2 & Hcamp2 & Hsz2); try done.
  - intros k' q' Hk'. rewrite Hcw. by apply Hcalls.
  - by rewrite Hnw, lookup_insert_eq.
  - intros p Hp. destruct (Hps p) as (mp & Hmp & Htp); [by right|]. exists mp. split; [|done].
    rewrite Hnw, !lookup_insert_ne; [done| |].
    + intros <-. by eapply (peer_apart ps k q ks).
    + intros <-. by apply peers_at_incl in Hp.
  - exists w2, n2. cbn [exchange_events]. rewrite run_events_app, Hrun. rewrite Hrw in Hrun2.
    split_and!; [done|done| |congruence].
    replace (list_to_set (fst q :: peers_at ps ks) ∪ V)
      with (list_to_set (peers_at ps ks) ∪ ({[fst q]} ∪ V) : gset Z); [done|].
    rewrite list_to_set_cons. set_solver.
Qed.

(** The first step of an election: requests to all peers, or victory at once
    without any. *)
Lemma campaign_starts n :
  running_ n = true → state_ n ≠ RaftState.LEADER → election_deadline_ n <= clock_ n →
  current_term_ n < 2 ^ 31 - 1 → cluster_size_ n = S (length (peers_ n)) →
  ∃ calls n', ElectionLoopRound n = (Ret calls, n') ∧ cluster_size_ n' = cluster_size_ n ∧
    campaigning (current_term_ n + 1) {[node_id_ n]} n' ∧
    (peers_ n ≠ [] → calls = (λ peer, VoteCall (fst peer) (snd peer)
      (mkRpcMessage REQUEST_VOTE (current_term_ n + 1) (node_id_ n) []) (current_term_ n + 1)) <$> peers_ n).
Proof.
  intros Hr Hs Hd Ht Hsz. unfold ElectionLoopRound, gets, mbind, M_bind, id. cbn beta iota.
  rewrite Hr. cbn [negb]. rewrite bool_decide_false by done. cbn [negb andb].
  rewrite (proj2 (Z.leb_le _ _)) by done.
  unfold StartElection, gets, mbind, M_bind, id, modify, incr_signed, mret, M_ret. cbn beta iota.
  rewrite Hr, bool_decide_false by done. cbn [negb orb].
  destruct (Z.eqb_spec (current_term_ n) (2 ^ (32 - 1) - 1)) as [Hmax|_]; [simpl in Hmax; lia|].
  unfold ResetElectionDeadlineLocked, modify. cbn beta iota.
  match goal with |- context [has_majority ?x] => set (n1 := x) end.
  destruct (peers_ n) as [|q ps] eqn:Hp.
  - assert (has_majority n1 = true) as Hm.
    { unfold has_majority. change (cluster_size_ n1) with (cluster_size_ n).
      change (votes_received_ n1) with ({[node_id_ n]} : gset Z).
      by rewrite Hsz, size_singleton. }
    rewrite Hm. unfold BecomeLeader, SendHeartbeats, gets, mbind, M_bind, modify, id. cbn beta iota.
    match goal with |- context [negb (running_ ?x)] => change (running_ x) with (running_ n); rewrite Hr end.
    cbn [negb orb]. rewrite bool_decide_true by done. cbn [negb].
    match goal with |- context [HeartbeatCalls (peers_ ?x)] => change (peers_ x) with (peers_ n); rewrite Hp end.
    eexists _, _. split; [reflexivity|]. split; [done|]. split; [|done].
    split_and!; [done|done|by left].
  - assert (has_majority n1 = false) as Hm.
    { unfold has_majority. apply bool_decide_eq_false.
      change (cluster_size_ n1) with (cluster_size_ n).
      change (votes_received_ n1) with ({[node_id_ n]} : gset Z).
      rewrite Hsz, size_singleton. simpl length.
      assert (1 <= S (S (length ps)) / 2)%nat by (apply Nat.div_le_lower_bound; lia). lia. }
    rewrite Hm. eexists _, n1. split; [reflexivity|]. split; [done|]. split; [|done].
    split_and!; [done|done|right]. by split_and!.
Qed.

(** C12: a member of a cluster whose election timeout expires wins the election
    of the next term by that round of its election loop and the exchange of
    its requests and the replies with any peers that make a majority with it,
    in whatever order, when these run and are in no later term: this run is
    possible, and after it the node is leader of that term. *)
Theorem election_wins ids w i n ks :
  w_nodes w !! i = Some n → member ids i n → log_small n →
  running_ n = true → state_ n ≠ RaftState.LEADER → election_deadline_ n <= clock_ n →
  current_term_ n < 2 ^ 31 - 1 →
  positions (peers_ n) ks → (S (length (peers_ n)) < 2 * S (length ks))%nat →
  (∀ p, p ∈ peers_at (peers_ n) ks →
     ∃ m, w_nodes w !! p = Some m ∧ running_ m = true ∧ current_term_ m ≤ current_term_ n) →
  ∃ w' n', run_events (EvLocal i ActRound ::
      exchange_events (length (w_calls w)) (length (w_replies w)) ks) w = Some w' ∧
    w_nodes w' !! i = Some n' ∧
    state_ n' = RaftState.LEADER ∧ current_term_ n' = current_term_ n + 1.
Proof.
  intros Hi (Hid & Hnd & Hpeers & Hsz) Hsm Hr Hs Hd Ht Hks Hmaj Hall.
  destruct (campaign_starts n) as (calls & n1 & Hround & Hsz1 & Hcamp & Hcalls); [done..|].
  set (w1 := mkWorld (<[i := n1]> (w_nodes w)) (w_calls w ++ (pair i <$> calls)) (w_replies w)).
  assert (run_event (EvLocal i ActRound) w = Some w1) as Hev.
  { cbn [run_event]. rewrite Hi. cbn [mbind option_bind run_act].
    rewrite bool_decide_true by done. by rewrite Hround. }
  assert (i ∉ (peers_ n).*1) as Hni by (rewrite Hpeers; tauto).
  destruct (exchanges (peers_ n) ks w1 i (current_term_ n + 1) (length (w_calls w)) {[node_id_ n]} n1)
    as (w2 & n2 & Hrun & Hi2 & (Hr2 & Ht2 & Hst) & Hsz2); try done.
  - intros k q Hk. subst w1. cbn [w_calls].
    rewrite Hcalls by (by intros E0; rewrite E0 in Hk). rewrite lookup_app_r by lia.
    replace (length (w_calls w) + k - length (w_calls w))%nat with k by lia.
    rewrite !list_lookup_fmap, Hk. simpl. by rewrite Hid.
  - apply lookup_insert_eq.
  - intros p Hp. destruct (Hall p Hp) as (m & Hm & _ & Htm). exists m. subst w1. cbn [w_nodes].
    rewrite lookup_insert_ne by (intros <-; by apply peers_at_incl in Hp). split; [done|lia].
  - exists w2, n2. split; [cbn [run_events]; rewrite Hev; exact Hrun|]. split; [done|].
    split; [|done]. destruct Hst as [?|(_ & Hv & Hm)]; [done|]. exfalso.
    unfold has_majority in Hm. apply bool_decide_eq_false in Hm. apply Hm.
    rewrite Hv, Hsz2, Hsz1, Hsz, Hid, size_union.
    + rewrite size_list_to_set, size_singleton, length_peers_at by (done || by apply NoDup_peers_at).
      apply Nat.div_lt_upper_bound; lia.
    + intros p Hp%elem_of_list_to_set ->%elem_of_singleton. by apply peers_at_incl in Hp.
Qed.

(** ** Replication *)


















End liveness.

(** Node 3 of the trio, whose timeout expires, wins term 1 with node 2, its
    second peer. *)
Definition trio_waiting : world :=
  default trio_world (run_events (trio_start ++ [EvLocal 3 (ActTick 300 200)]) trio_world).
Definition trio_waiting_3 : RaftNode (list (bytes * Z)) :=
  default (trio_node 3) (w_nodes trio_waiting !! 3).
Definition trio_waiting_2 : RaftNode (list (bytes * Z)) :=
  default (trio_node 2) (w_nodes trio_waiting !! 2).

Lemma election_wins_witness :
  ∃ w' n', run_events (EvLocal 3 ActRound :: [EvDeliver 1; EvReply 0]) trio_waiting = Some w' ∧
    w_nodes w' !! 3 = Some n' ∧ state_ n' = RaftState.LEADER ∧
    current_term_ n' = current_term_ trio_waiting_3 + 1.
Proof.
  apply (election_wins {[1; 2; 3]} trio_waiting 3 trio_waiting_3 [1%nat]);
    [vm_compute; reflexivity| | |vm_compute; reflexivity|vm_compute; discriminate|
     vm_compute; discriminate|vm_compute; reflexivity| |vm_compute; lia|].
  - split_and!; [reflexivity|apply (bool_decide_unpack _); vm_compute; exact I| |reflexivity].
    change ((peers_ trio_waiting_3).*1) with [1; 2]. set_solver.
  - apply (bool_decide_unpack _). vm_compute. exact I.
  - split; [apply NoDup_singleton|]. intros k ->%list_elem_of_singleton. vm_compute. lia.
  - change (peers_at (peers_ trio_waiting_3) [1%nat]) with [2]. intros p ->%list_elem_of_singleton.
    exists trio_waiting_2. split; [vm_compute; reflexivity|]. split; [vm_compute; reflexivity|].
    vm_compute. discriminate.
Defined.



