(* ===== verification/RpcTransport.v ===== *)
(** * Frames over a socket (src/rpc/rpc_server.cpp, src/rpc/rpc_client.cpp)

    The operating system's sockets are a parameter: a state and the calls on
    it, with what the code relies on as a class of laws.  The client and the
    server have the same three helper functions, which move whole frames over
    calls that may move fewer bytes than asked. *)

From S2P Require Export RpcMessage.

Local Open Scope Z_scope.

(** The system calls of the two files, on a state [N]; [A] is the type of
    resolved addresses.  A call returns its result and the state after it. *)
Class Sockets (N A : Type) := {
  (* socket(AF_INET, SOCK_STREAM, 0), and socket of a resolved address *)
  os_socket : N → Z * N;
  os_socket_for : A → N → Z * N;
  os_reuse_address : Z → N → Z * N;
  os_bind : Z → Z → N → Z * N;
  os_listen : Z → N → Z * N;
  os_getsockname : Z → N → (Z * Z) * N;
  os_select_read : Z → N → Z * N;
  os_accept : Z → N → Z * N;
  os_send : Z → bytes → N → Z * N;
  os_recv : Z → Z → N → (Z * bytes) * N;
  os_shutdown : Z → N → Z * N;
  os_close : Z → N → Z * N;
  os_getaddrinfo : bytes → bytes → N → option (list A) * N;
  os_getfl : Z → N → Z * N;
  os_setfl : Z → Z → N → Z * N;
  os_connect : Z → A → N → Z * N;
  os_in_progress : N → bool;
  os_select_write : Z → Z → N → (Z * bool) * N;
  os_so_error : Z → N → (Z * Z) * N;
  os_set_timeouts : Z → Z → N → N;
}.

(** A system call in the monad: it returns. *)
Definition os {N R} (f : N → R * N) : M N R := λ s, let '(r, s') := f s in (Ret r, s').

Lemma wp_os {N R} (f : N → R * N) s (Q : R → N → Prop) :
  (∀ r s', f s = (r, s') → Q r s') → wp (os f) s Q.
Proof. intros H. unfold wp, os. destruct (f s) as [r s']. by apply H. Qed.

Lemma wlp_os {N R} (f : N → R * N) s (Q : R → N → Prop) :
  (∀ r s', f s = (r, s') → Q r s') → wlp (os f) s Q.
Proof. intros H. by apply wlp_wp, wp_os. Qed.

(** What POSIX promises of stream sockets.  [incoming s fd]: the bytes the peer
    of [fd] sends from now on, received or not; [outgoing s fd]: those handed
    to [fd] so far; [usable s fd]: neither errors nor timeouts on [fd]. *)
Class SocketLaws (N A : Type) `{Sockets N A} := {
  incoming : N → Z → bytes;
  outgoing : N → Z → bytes;
  usable : N → Z → Prop;
  recv_law fd n s r bs s' : os_recv fd n s = ((r, bs), s') → 0 < n →
    outgoing s' = outgoing s ∧ (∀ fd', fd' ≠ fd → incoming s' fd' = incoming s fd') ∧
    (r ≤ 0 ∧ incoming s' fd = incoming s fd ∨
     0 < r ≤ n ∧ r = Z.of_nat (length bs) ∧ incoming s fd = bs ++ incoming s' fd);
  recv_usable fd n s r bs s' : os_recv fd n s = ((r, bs), s') → 0 < n →
    usable s fd → incoming s fd ≠ [] → 0 < r ∧ usable s' fd;
  send_law fd data s r s' : os_send fd data s = (r, s') → data ≠ [] →
    incoming s' = incoming s ∧ (∀ fd', fd' ≠ fd → outgoing s' fd' = outgoing s fd') ∧
    (r ≤ 0 ∧ outgoing s' fd = outgoing s fd ∨
     0 < r ≤ Z.of_nat (length data) ∧ outgoing s' fd = outgoing s fd ++ take (Z.to_nat r) data);
  send_usable fd data s r s' : os_send fd data s = (r, s') → data ≠ [] →
    usable s fd → 0 < r ∧ usable s' fd;
  shutdown_law fd s : outgoing (os_shutdown fd s).2 = outgoing s;
  close_law fd s : outgoing (os_close fd s).2 = outgoing s;
  timeouts_law fd ms s : incoming (os_set_timeouts fd ms s) = incoming s ∧
    outgoing (os_set_timeouts fd ms s) = outgoing s ∧
    (usable s fd → usable (os_set_timeouts fd ms s) fd);
}.

(** ** The helper functions *)

Section transport.
Context {N A : Type} `{Sockets N A}.

Definition kMaxMessageSize : Z := 16 * 1024 * 1024.

Fixpoint SendLoop (fuel : nat) (fd : Z) (data : bytes) (sent : Z) : M N bool :=
  match fuel with
  | O => diverge
  | S fuel =>
      if sent <? Z.of_nat (length data) then
        result ← os (os_send fd (drop (Z.to_nat sent) data));
        if result <=? 0 then mret false else SendLoop fuel fd data (sent + result)
      else mret true
  end.

(** Every round sends a byte at least. *)
Definition SendAll (fd : Z) (data : bytes) : M N bool := SendLoop (S (length data)) fd data 0.

(** [buffer]: what [data] has been filled with. *)
Fixpoint ReceiveLoop (fuel : nat) (fd : Z) (size : Z) (buffer : bytes) : M N (bool * bytes) :=
  match fuel with
  | O => diverge
  | S fuel =>
      if Z.of_nat (length buffer) <? size then
        '(result, chunk) ← os (os_recv fd (size - Z.of_nat (length buffer)));
        if result <=? 0 then mret (false, buffer) else ReceiveLoop fuel fd size (buffer ++ chunk)
      else mret (true, buffer)
  end.

Definition ReceiveAll (fd : Z) (size : Z) : M N (bool * bytes) :=
  ReceiveLoop (S (Z.to_nat size)) fd size [].

(** The result and the message behind the pointer. *)
Definition ReceiveMessage (fd : Z) (message : RpcMessage) : M N (bool * RpcMessage) :=
  '(ok, network_size) ← ReceiveAll fd 4;
  if negb ok then mret (false, message) else
  let body_size := be_val network_size in
  if (body_size <? 13) || (kMaxMessageSize <? body_size) then mret (false, message) else
  '(ok, body) ← ReceiveAll fd body_size;
  if negb ok then mret (false, message) else
  '(ok, m) ← lift (DeserializeRpcMessage (network_size ++ body) (Some message));
  mret (ok, default message m).
End transport.

(** ** What they promise *)

Section transport_spec.
Context {N A : Type} `{SocketLaws N A}.
Implicit Types s : N.

(** From [s] to [s'], exactly [bs] was received on [fd]; exactly [bs] was sent. *)
Definition received (fd : Z) (bs : bytes) s s' : Prop :=
  incoming s fd = bs ++ incoming s' fd ∧ outgoing s' = outgoing s ∧
  ∀ fd', fd' ≠ fd → incoming s' fd' = incoming s fd'.
Definition sent (fd : Z) (bs : bytes) s s' : Prop :=
  outgoing s' fd = outgoing s fd ++ bs ∧ incoming s' = incoming s ∧
  ∀ fd', fd' ≠ fd → outgoing s' fd' = outgoing s fd'.

(** Splits conjunctions, but neither equivalences nor definitions. *)
Ltac conjs := repeat match goal with |- _ ∧ _ => split end.

Lemma received_nil fd s : received fd [] s s.
Proof. by split_and!. Qed.

Lemma received_app fd b1 b2 s1 s2 s3 :
  received fd b1 s1 s2 → received fd b2 s2 s3 → received fd (b1 ++ b2) s1 s3.
Proof.
  intros (I1 & O1 & F1) (I2 & O2 & F2). split_and!.
  - by rewrite I1, I2, app_assoc.
  - congruence.
  - intros fd' Hne. by rewrite F2, F1.
Qed.

Lemma sent_nil fd s : sent fd [] s s.
Proof. split_and!; [by rewrite app_nil_r|done..]. Qed.

Lemma sent_app fd b1 b2 s1 s2 s3 :
  sent fd b1 s1 s2 → sent fd b2 s2 s3 → sent fd (b1 ++ b2) s1 s3.
Proof.
  intros (O1 & I1 & F1) (O2 & I2 & F2). split_and!.
  - by rewrite O2, O1, app_assoc.
  - congruence.
  - intros fd' Hne. by rewrite F2, F1.
Qed.

Lemma SendLoop_spec fuel fd data : ∀ k s,
  (k ≤ length data)%nat → (length data - k < fuel)%nat →
  wp (SendLoop fuel fd data (Z.of_nat k)) s (λ ok s', ∃ pre post,
    drop k data = pre ++ post ∧ sent fd pre s s' ∧ (ok = true ↔ post = []) ∧
    (usable s fd → post = [] ∧ usable s' fd)).
Proof.
  induction fuel as [|fuel IH]; intros k s Hk Hf; [lia|]. cbn [SendLoop].
  destruct (Z.ltb_spec (Z.of_nat k) (Z.of_nat (length data))) as [Hlt|Hge].
  - rewrite Nat2Z.id. assert (drop k data ≠ []) as Hne.
    { intros E%(f_equal length). rewrite length_drop in E. simpl in E. lia. }
    apply wp_bind, wp_os. intros r s1 Hs.
    destruct (send_law _ _ _ _ _ Hs Hne) as (Hin & Hfd & Hr).
    pose proof (send_usable _ _ _ _ _ Hs Hne) as Hu.
    destruct (Z.leb_spec r 0) as [Hr0|Hr0].
    + destruct Hr as [[_ Ho]|[? _]]; [|lia]. apply wp_ret. exists [], (drop k data).
      conjs; [done| |done|].
      * split; [by rewrite Ho, app_nil_r|done].
      * intros Hus. destruct (Hu Hus). lia.
    + destruct Hr as [[? _]|[Hr Ho]]; [lia|]. rewrite length_drop in Hr.
      replace (Z.of_nat k + r) with (Z.of_nat (k + Z.to_nat r)) by lia.
      eapply wp_mono; [apply IH; lia|]. cbn beta. intros ok s2 (pre & post & Hd & Hse & Hok & Hus2).
      exists (take (Z.to_nat r) (drop k data) ++ pre), post. conjs.
      * by rewrite <- app_assoc, <- Hd, <- drop_drop, take_drop.
      * eapply sent_app; [|exact Hse]. by split_and!.
      * done.
      * intros Hus. apply Hus2. by apply Hu.
  - apply wp_ret. exists [], []. rewrite drop_ge by lia. by conjs; [|apply sent_nil|..].
Qed.

(** All of the data, or a proper prefix of it, is sent. *)
Lemma SendAll_spec fd data s :
  wp (SendAll fd data) s (λ ok s', ∃ pre post,
    data = pre ++ post ∧ sent fd pre s s' ∧ (ok = true ↔ post = []) ∧
    (usable s fd → post = [] ∧ usable s' fd)).
Proof. apply (SendLoop_spec _ fd data 0); lia. Qed.

Lemma ReceiveLoop_spec fuel fd size : ∀ buffer s,
  Z.of_nat (length buffer) ≤ size → (Z.to_nat (size - Z.of_nat (length buffer)) < fuel)%nat →
  wp (ReceiveLoop fuel fd size buffer) s (λ '(ok, bs) s', ∃ new,
    bs = buffer ++ new ∧ received fd new s s' ∧ Z.of_nat (length bs) ≤ size ∧
    (ok = true ↔ Z.of_nat (length bs) = size) ∧
    (usable s fd → size - Z.of_nat (length buffer) ≤ Z.of_nat (length (incoming s fd)) →
       ok = true ∧ usable s' fd)).
Proof.
  induction fuel as [|fuel IH]; intros buffer s Hb Hf; [lia|]. cbn [ReceiveLoop].
  destruct (Z.ltb_spec (Z.of_nat (length buffer)) size) as [Hlt|Hge].
  - apply wp_bind, wp_os. intros [r chunk] s1 Hs.
    destruct (recv_law _ _ _ _ _ _ Hs ltac:(lia)) as (Ho & Hfd & Hr).
    pose proof (recv_usable _ _ _ _ _ _ Hs ltac:(lia)) as Hu.
    assert (size - Z.of_nat (length buffer) ≤ Z.of_nat (length (incoming s fd)) →
      incoming s fd ≠ []) as Hne by (intros Hl E; rewrite E in Hl; simpl in Hl; lia).
    destruct (Z.leb_spec r 0) as [Hr0|Hr0].
    + destruct Hr as [[_ Hi]|[? _]]; [|lia]. apply wp_ret. exists [].
      rewrite app_nil_r. conjs; [done|by split_and!|lia| |].
      * split; [done|lia].
      * intros Hus Hl. destruct (Hu Hus (Hne Hl)). lia.
    + destruct Hr as [[? _]|(Hr & Hlen & Hi)]; [lia|].
      eapply wp_mono; [apply IH; rewrite length_app; lia|]. cbn beta.
      intros [ok bs] s2 (new & Hbs & Hrec & Hle & Hok & Hus2).
      exists (chunk ++ new). conjs; [by rewrite app_assoc| |done|done|].
      * eapply received_app; [|exact Hrec]. by split_and!.
      * intros Hus Hl. apply Hus2; [by apply Hu, Hne|].
        rewrite Hi, length_app in Hl. rewrite length_app. lia.
  - apply wp_ret. exists []. rewrite app_nil_r.
    conjs; [done|apply received_nil|done|split; [lia|done]|by intros].
Qed.

(** The bytes received; exactly as many as asked for if it reports success. *)
Lemma ReceiveAll_spec fd size s :
  0 ≤ size →
  wp (ReceiveAll fd size) s (λ '(ok, bs) s',
    received fd bs s s' ∧ Z.of_nat (length bs) ≤ size ∧
    (ok = true ↔ Z.of_nat (length bs) = size) ∧
    (usable s fd → size ≤ Z.of_nat (length (incoming s fd)) → ok = true ∧ usable s' fd)).
Proof.
  intros Hs. eapply wp_mono; [apply (ReceiveLoop_spec _ fd size []); simpl; lia|]. cbn beta.
  intros [ok bs] s' (new & -> & Hr & Hle & Hok & Hus). conjs; [done|done|done|].
  intros Hu Hl. apply Hus; [done|]. simpl. lia.
Qed.

(** A message that the receiver takes: its body is within the limit. *)
Definition within_limit (m : RpcMessage) : Prop :=
  13 + Z.of_nat (length (rpc_payload m)) ≤ kMaxMessageSize.

#[export] Instance within_limit_dec m : Decision (within_limit m).
Proof. unfold within_limit. apply _. Defined.

Lemma rpc_frame_head m :
  ∃ body, rpc_frame m = be_bytes 4 (13 + Z.of_nat (length (rpc_payload m))) ++ body ∧
    Z.of_nat (length body) = 13 + Z.of_nat (length (rpc_payload m)).
Proof. eexists. split; [done|]. len. Qed.

(** What reading from [s] to [s'] says of a frame that was sent. *)
Definition frame_read (fd : Z) (ok : bool) (m : RpcMessage) s s' : Prop :=
  ∀ m0 rest, usable s fd → incoming s fd = rpc_frame m0 ++ rest → rpc_wf m0 →
    (within_limit m0 → ok = true ∧ m = m0 ∧ incoming s' fd = rest ∧ usable s' fd) ∧
    (¬ within_limit m0 → ok = false).

Lemma frame_cut m0 rest bs tail :
  rpc_wf m0 → rpc_frame m0 ++ rest = bs ++ tail → length bs = 4%nat →
  ∃ body, rpc_frame m0 = bs ++ body ∧ tail = body ++ rest ∧
    be_val bs = 13 + Z.of_nat (length (rpc_payload m0)) ∧ Z.of_nat (length body) = be_val bs.
Proof.
  intros (_ & _ & Hsz) He Hl. destruct (rpc_frame_head m0) as (body & Hf & Hb).
  rewrite Hf, <- app_assoc in He.
  apply app_inj_1 in He as [<- <-]; [|by rewrite length_be_bytes].
  exists body. rewrite be4_unsigned by (unfold in_unsigned; lia). done.
Qed.

Lemma ReceiveMessage_spec fd message s :
  wp (ReceiveMessage fd message) s (λ '(ok, m) s', ∃ consumed,
    received fd consumed s s' ∧ Z.of_nat (length consumed) ≤ 4 + kMaxMessageSize ∧
    (ok = true → SerializeRpcMessage m = Ret consumed) ∧ frame_read fd ok m s s').
Proof.
  assert (∀ m0 rest, incoming s fd = rpc_frame m0 ++ rest → 4 ≤ Z.of_nat (length (incoming s fd))) as H4.
  { intros m0 rest ->. destruct (rpc_frame_head m0) as (body & -> & _). len. }
  unfold ReceiveMessage. wp_step. wp_call ReceiveAll_spec; [done|].
  intros [ok bs] s1 (Hr1 & Hl1 & Hok1 & Hu1). unfold kMaxMessageSize in *.
  destruct ok; cbn [negb].
  2: { wp_steps. exists bs. conjs; [done|lia|done|]. intros m0 rest Hu Hi Hwf.
       destruct (Hu1 Hu); [by eapply H4|done]. }
  assert (length bs = 4%nat) as Hbs by (pose proof (proj1 Hok1 eq_refl); lia).
  pose proof (be_val_range bs) as Hv. rewrite Hbs in Hv.
  destruct (_ || _) eqn:Hrange.
  { wp_steps. exists bs. conjs; [done|lia|done|]. intros m0 rest Hu Hi Hwf. split; [|done].
    destruct Hr1 as (Hi1 & _). rewrite Hi in Hi1.
    destruct (frame_cut _ _ _ _ Hwf Hi1 Hbs) as (body & _ & _ & Hbv & _).
    unfold within_limit, kMaxMessageSize. lia. }
  apply orb_false_iff in Hrange as [H13 Hmax].
  rewrite Z.ltb_ge in H13, Hmax. wp_step. wp_call ReceiveAll_spec; [lia|].
  intros [ok body] s2 (Hr2 & Hl2 & Hok2 & Hu2).
  pose proof (received_app _ _ _ _ _ _ Hr1 Hr2) as Hr. destruct ok; cbn [negb].
  2: { wp_steps. exists (bs ++ body). conjs; [done|len|done|]. intros m0 rest Hu Hi Hwf. split; [|done].
       intros _. destruct Hr1 as (Hi1 & _). rewrite Hi in Hi1.
       destruct (frame_cut _ _ _ _ Hwf Hi1 Hbs) as (body0 & _ & Ht & Hbv & Hlb).
       destruct (Hu1 Hu) as [_ Hu1']; [by eapply H4|].
       destruct (Hu2 Hu1'); [|done]. rewrite Ht, length_app. lia. }
  destruct (DeserializeRpcMessage_strict (bs ++ body) message) as (ok & m & Hd & Hser).
  wp_step. rewrite Hd. wp_steps. cbn [default]. exists (bs ++ body). conjs; [done|len| |].
  { intros Hok. apply Hser; [done|]. rewrite length_app. lia. }
  intros m0 rest Hu Hi Hwf. destruct Hr1 as (Hi1 & _). rewrite Hi in Hi1.
  destruct (frame_cut _ _ _ _ Hwf Hi1 Hbs) as (body0 & Hf & Ht & Hbv & Hlb).
  destruct (Hu1 Hu) as [_ Hu1']; [by eapply H4|].
  destruct (Hu2 Hu1') as [_ Hu2']; [rewrite Ht, length_app; lia|].
  destruct Hr2 as (Hi2 & _). rewrite Ht in Hi2.
  apply app_inj_1 in Hi2 as [<- <-]; [|pose proof (proj1 Hok2 eq_refl); lia].
  rewrite <- Hf, DeserializeRpcMessage_frame in Hd by done. injection Hd as <- <-.
  split; [done|]. unfold within_limit, kMaxMessageSize. lia.
Qed.

(** C19: reading a message returns whatever the socket does, after at most
    16 MB and a length word; a message it reports is the one whose
    serialization it has consumed.  From a connection without errors on which
    the serialization of a message arrives, in pieces of any size, it reads
    that message and leaves what follows, unless its body is above the limit,
    which only the receiver knows: then the message is refused. *)
Theorem receive_message_correct fd message s :
  ∃ ok m s' consumed, ReceiveMessage fd message s = (Ret (ok, m), s') ∧
    received fd consumed s s' ∧ Z.of_nat (length consumed) ≤ 4 + kMaxMessageSize ∧
    (ok = true → SerializeRpcMessage m = Ret consumed) ∧
    (∀ m0 bs rest, usable s fd → incoming s fd = bs ++ rest → rpc_wf m0 →
       SerializeRpcMessage m0 = Ret bs →
       (within_limit m0 → ok = true ∧ m = m0 ∧ incoming s' fd = rest) ∧
       (¬ within_limit m0 → ok = false)).
Proof.
  destruct (proj1 (wp_run _ _ _) (ReceiveMessage_spec fd message s))
    as ([ok m] & s' & Hrun & consumed & Hr & Hl & Hs & Hf).
  exists ok, m, s', consumed. conjs; [done|done|done|done|].
  intros m0 bs rest Hu Hi Hwf Hser.
  rewrite SerializeRpcMessage_frame in Hser by apply Hwf. injection Hser as <-.
  destruct (Hf m0 rest Hu Hi Hwf) as [Hin Hout]. split; [|done].
  intros Hlim. by destruct (Hin Hlim) as (-> & -> & -> & _).
Qed.
End transport_spec.

(** ** A concrete network

    Every descriptor has the bytes still to come and the bytes sent; a call
    moves at most [w_chunk] bytes.  An address is the descriptor it connects
    to. *)

Record wire := mkWire {
  w_chunk : Z;
  w_in : gmap Z bytes;
  w_out : gmap Z bytes;
  w_pending : list Z;
}.

Definition wire_get (m : gmap Z bytes) (fd : Z) : bytes := default [] (m !! fd).
Definition wire_send (fd : Z) (data : bytes) (s : wire) : Z * wire :=
  let r := Z.min (w_chunk s) (Z.of_nat (length data)) in
  (r, mkWire (w_chunk s) (w_in s)
        (if r <=? 0 then w_out s
         else <[fd := wire_get (w_out s) fd ++ take (Z.to_nat r) data]> (w_out s)) (w_pending s)).
Definition wire_recv (fd n : Z) (s : wire) : (Z * bytes) * wire :=
  let avail := wire_get (w_in s) fd in
  let r := Z.min (Z.min (w_chunk s) n) (Z.of_nat (length avail)) in
  if r <=? 0 then ((r, []), s) else
  ((r, take (Z.to_nat r) avail),
   mkWire (w_chunk s) (<[fd := drop (Z.to_nat r) avail]> (w_in s)) (w_out s) (w_pending s)).

#[export] Instance wire_sockets : Sockets wire Z := {
  os_socket s := (3, s);
  os_socket_for a s := (a, s);
  os_reuse_address _ s := (0, s);
  os_bind _ _ s := (0, s);
  os_listen _ s := (0, s);
  os_getsockname _ s := ((0, 5000), s);
  os_select_read _ s := (if w_pending s then 0 else 1, s);
  os_accept _ s :=
    match w_pending s with
    | [] => (-1, s)
    | c :: cs => (c, mkWire (w_chunk s) (w_in s) (w_out s) cs)
    end;
  os_send := wire_send;
  os_recv := wire_recv;
  os_shutdown _ s := (0, s);
  os_close _ s := (0, s);
  os_getaddrinfo _ _ s := (Some [7], s);
  os_getfl _ s := (0, s);
  os_setfl _ _ s := (0, s);
  os_connect _ _ s := (-1, s);
  os_in_progress _ := true;
  os_select_write _ _ s := ((1, true), s);
  os_so_error _ s := ((0, 0), s);
  os_set_timeouts _ _ s := s;
}.

Lemma wire_get_insert m fd bs fd' :
  wire_get (<[fd := bs]> m) fd' = if decide (fd' = fd) then bs else wire_get m fd'.
Proof.
  unfold wire_get. case_decide as Hd.
  - subst. by rewrite lookup_insert_eq.
  - by rewrite lookup_insert_ne by done.
Qed.

#[export] Program Instance wire_laws : SocketLaws wire Z := {
  incoming s fd := wire_get (w_in s) fd;
  outgoing s fd := wire_get (w_out s) fd;
  usable s fd := 0 < w_chunk s;
}.
Next Obligation.
  intros fd n s r bs s'. simpl. unfold wire_recv. case_bool; intros [= <- <- <-] Hn; simpl.
  { split_and!; [done|done|]. left. split; [lia|done]. }
  split_and!; [done| |].
  - intros fd' Hne. by rewrite wire_get_insert, decide_False.
  - right. rewrite wire_get_insert, decide_True by done. rewrite length_take.
    split_and!; [lia|lia|lia|by rewrite take_drop].
Qed.
Next Obligation.
  intros fd n s r bs s'. simpl. unfold wire_recv. intros Hs Hn Hc Hne.
  destruct (wire_get (w_in s) fd) as [|b l]; [done|]. simpl length in Hs.
  revert Hs. case_bool; intros [= <- <- <-]; [lia|]. simpl. lia.
Qed.
Next Obligation.
  intros fd data s r s'. simpl. unfold wire_send. intros [= <- <-] Hne. simpl.
  destruct data as [|b data]; [done|]. simpl length.
  destruct (Z.leb_spec (w_chunk s `min` Z.of_nat (S (length data))) 0) as [Hr|Hr].
  - split_and!; [done|done|]. left. by split.
  - split_and!; [done| |].
    + intros fd' Hd. by rewrite wire_get_insert, decide_False.
    + right. rewrite wire_get_insert, decide_True by done. split; [lia|done].
Qed.
Next Obligation.
  intros fd data s r s'. simpl. unfold wire_send. intros [= <- <-] Hne Hc. simpl.
  destruct data as [|b data]; [done|]. simpl length. lia.
Qed.
Next Obligation. done. Qed.
Next Obligation. done. Qed.
Next Obligation. done. Qed.

(** A vote request in pieces of three bytes, with another byte behind it. *)
Lemma receive_message_correct_witness :
  let m := mkRpcMessage REQUEST_VOTE 4 2 [] in
  let s := mkWire 3 {[9 := rpc_frame m ++ [x7f]]} ∅ [] in
  ∃ s', ReceiveMessage 9 (mkRpcMessage PING 0 0 []) s = (Ret (true, m), s') ∧ incoming s' 9 = [x7f].
Proof.
  intros m s.
  destruct (receive_message_correct 9 (mkRpcMessage PING 0 0 []) s)
    as (ok & m' & s' & consumed & Hrun & _ & _ & _ & Hm).
  destruct (Hm m (rpc_frame m) [x7f]) as [Hin _]; [done|done| |done|].
  { apply (bool_decide_unpack _). vm_compute. exact I. }
  destruct Hin as (-> & -> & Hi); [apply (bool_decide_unpack _); vm_compute; exact I|]. exists s'. split; [exact Hrun|exact Hi].
Defined.
