(* ===== verification/RpcDescriptors.v ===== *)
(** * Descriptors and calls that wait (src/rpc/rpc_server.cpp)

    What the server relies on beyond the bytes of its connections: which
    descriptors are open, and that [shutdown] wakes a thread that waits for the
    peer.  The operating system is a parameter here too, and the file ends with
    a concrete one. *)

From S2P Require Export RpcTransport.

Local Open Scope Z_scope.

(** The descriptors that are open, and those that were shut down; whether a
    thread that talks to the peer of [fd] from now on would wait for ever,
    because the peer sends less than is asked for and does not close. *)
Class Descriptors (N : Type) := {
  open_fds : N → gset Z;
  shut_fds : N → gset Z;
  waits : Z → N → bool;
}.

(** A call that opens and closes nothing; a call that may open a descriptor
    and returns it. *)
Definition keeps_fds {N} `{Descriptors N} (s s' : N) : Prop :=
  open_fds s' = open_fds s ∧ shut_fds s ⊆ shut_fds s'.
Definition new_fd {N} `{Descriptors N} (s : N) (r : Z) (s' : N) : Prop :=
  r < 0 ∧ keeps_fds s s' ∨
  0 ≤ r ∧ r ∉ open_fds s ∧ open_fds s' = {[r]} ∪ open_fds s ∧ shut_fds s ⊆ shut_fds s'.

(** What POSIX promises of them. *)
Class DescriptorLaws (N A : Type) `{Sockets N A} `{Descriptors N} := {
  shut_returns fd s : fd ∈ shut_fds s → waits fd s = false;
  socket_fds s : new_fd s (os_socket s).1 (os_socket s).2;
  accept_fds fd s : new_fd s (os_accept fd s).1 (os_accept fd s).2;
  shutdown_fds fd s : keeps_fds s (os_shutdown fd s).2 ∧
    (fd ∈ open_fds s → fd ∈ shut_fds (os_shutdown fd s).2);
  close_fds fd s : open_fds (os_close fd s).2 = open_fds s ∖ {[fd]} ∧
    shut_fds s ∖ {[fd]} ⊆ shut_fds (os_close fd s).2;
  reuse_address_fds fd s : keeps_fds s (os_reuse_address fd s).2;
  bind_fds fd port s : keeps_fds s (os_bind fd port s).2;
  listen_fds fd s : keeps_fds s (os_listen fd s).2;
  getsockname_fds fd s : keeps_fds s (os_getsockname fd s).2;
  select_fds fd s : keeps_fds s (os_select_read fd s).2;
  send_fds fd data s : keeps_fds s (os_send fd data s).2;
  recv_fds fd n s : keeps_fds s (os_recv fd n s).2;
}.

Section descriptors.
Context {N A : Type} `{DescriptorLaws N A}.
Implicit Types s : N.

#[export] Instance keeps_fds_preorder : PreOrder (keeps_fds (N := N)).
Proof.
  split; [by split|]. intros s1 s2 s3 [O1 S1] [O2 S2]. split; [congruence|set_solver].
Qed.

(** ** Moving bytes opens and closes nothing *)

Lemma SendLoop_fds fuel fd data : ∀ k s,
  wlp (SendLoop fuel fd data k) s (λ _ s', keeps_fds s s').
Proof.
  induction fuel as [|fuel IH]; intros k s; cbn [SendLoop]; [by intros ? ?|].
  case_bool; [|by wlp_steps]. wlp_step. apply wlp_os. intros r s1 E1.
  assert (keeps_fds s s1) as Hk by (pose proof (send_fds fd (drop (Z.to_nat k) data) s) as L; by rewrite E1 in L).
  case_bool; [by wlp_steps|]. eapply wlp_mono; [apply IH|]. intros ? s2 Hk2; cbn beta in Hk2; by etrans.
Qed.

Lemma ReceiveLoop_fds fuel fd size : ∀ buffer s,
  wlp (ReceiveLoop fuel fd size buffer) s (λ _ s', keeps_fds s s').
Proof.
  induction fuel as [|fuel IH]; intros buffer s; cbn [ReceiveLoop]; [by intros ? ?|].
  case_bool; [|by wlp_steps]. wlp_step. apply wlp_os. intros [r chunk] s1 E1.
  assert (keeps_fds s s1) as Hk
    by (pose proof (recv_fds fd (size - Z.of_nat (length buffer)) s) as L; by rewrite E1 in L).
  case_bool; [by wlp_steps|]. eapply wlp_mono; [apply IH|]. intros ? s2 Hk2; cbn beta in Hk2; by etrans.
Qed.

Lemma ReceiveMessage_fds fd message s :
  wlp (ReceiveMessage fd message) s (λ _ s', keeps_fds s s').
Proof.
  unfold ReceiveMessage, ReceiveAll. wlp_step. eapply wlp_mono; [apply ReceiveLoop_fds|].
  intros [ok bs] s1 K1; cbn beta in K1. destruct ok; cbn [negb]; [|by wlp_steps]. case_bool; [by wlp_steps|].
  wlp_step. eapply wlp_mono; [apply ReceiveLoop_fds|]. intros [ok body] s2 K2; cbn beta in K2.
  assert (keeps_fds s s2) by by etrans. destruct ok; cbn [negb]; [|by wlp_steps].
  wlp_step. apply wlp_lift. intros [ok m] _. by wlp_steps.
Qed.

(** ** What a set of owners holds

    Open are the descriptors of [base], which are not ours, and those of [l],
    each of which has one owner. *)

Definition holds (base : gset Z) (l : list Z) s : Prop :=
  NoDup l ∧ open_fds s = base ∪ list_to_set l ∧ ∀ fd, fd ∈ l → fd ∉ base.

Lemma holds_keep base l s s' : keeps_fds s s' → holds base l s → holds base l s'.
Proof. intros [E _] (Hnd & Ho & Hb). split_and!; [done|congruence|done]. Qed.

Lemma holds_perm base l l' s : l ≡ₚ l' → holds base l s → holds base l' s.
Proof.
  intros Hp (Hnd & Ho & Hb). split_and!; [by rewrite <- Hp| |intros fd Hfd; apply Hb; by rewrite Hp].
  rewrite Ho. apply set_eq. intros fd. rewrite !elem_of_union, !elem_of_list_to_set. by rewrite Hp.
Qed.

#[export] Instance holds_proper base : Proper ((≡ₚ) ==> (=) ==> iff) (holds base).
Proof. intros l l' Hp s ? <-. by split; apply holds_perm. Qed.

Lemma holds_new base l s r s' : new_fd s r s' → holds base l s →
  if r <? 0 then holds base l s' else holds base (r :: l) s'.
Proof.
  intros [[Hr Hk]|(Hr & Hfresh & Ho' & _)] Hh; destruct (Z.ltb_spec r 0) as [?|?]; try lia.
  - by eapply holds_keep.
  - destruct Hh as (Hnd & Ho & Hb). rewrite Ho in Hfresh. split_and!.
    + apply NoDup_cons. split; [set_solver|done].
    + rewrite Ho', Ho. set_solver.
    + intros fd [->|Hfd]%elem_of_cons; [set_solver|by apply Hb].
Qed.

Lemma holds_close base l fd s s' :
  open_fds s' = open_fds s ∖ {[fd]} → holds base (fd :: l) s → holds base l s'.
Proof.
  intros E (Hnd & Ho & Hb). apply NoDup_cons in Hnd as [Hfd Hnd]. split_and!; [done| |set_solver].
  assert (fd ∉ base) by (apply Hb; by left). rewrite E, Ho. set_solver.
Qed.

Lemma holds_none base s : holds base [] s ↔ open_fds s = base.
Proof.
  split; [intros (_ & Ho & _); rewrite Ho; set_solver|].
  intros Ho. split_and!; [constructor|set_solver|]. intros fd Hfd. by apply not_elem_of_nil in Hfd.
Qed.
End descriptors.

(** ** A concrete kernel

    The wire, with a table of open descriptors.  A new descriptor is the
    lowest free one, as POSIX requires.  [k_silent]: those whose peer neither
    sends a whole request nor closes; [k_clients]: the connections not yet
    accepted, with what their peers will send and whether they are silent. *)

Record kernel := mkKernel {
  k_wire : wire;
  k_open : gset Z;
  k_shut : gset Z;
  k_silent : gset Z;
  k_clients : list (bytes * bool);
}.

Definition on_wire {R} (f : wire → R * wire) (s : kernel) : R * kernel :=
  let '(r, w) := f (k_wire s) in
  (r, mkKernel w (k_open s) (k_shut s) (k_silent s) (k_clients s)).

(** A process has 1024 descriptors. *)
Definition lowest_free (used : gset Z) : option Z :=
  snd <$> list_find (λ fd, fd ∉ used) (seqZ 0 1024).

Definition k_new (silent : bool) (cs : list (bytes * bool)) (bs : bytes) (s : kernel) : Z * kernel :=
  match lowest_free (k_open s) with
  | None => (-1, s)
  | Some fd =>
      (fd, mkKernel (mkWire (w_chunk (k_wire s)) (<[fd := bs]> (w_in (k_wire s))) (w_out (k_wire s))
                       (w_pending (k_wire s)))
             ({[fd]} ∪ k_open s) (k_shut s)
             (if silent then {[fd]} ∪ k_silent s else k_silent s ∖ {[fd]}) cs)
  end.
Definition k_shutdown (fd : Z) (s : kernel) : Z * kernel :=
  (0, mkKernel (k_wire s) (k_open s) ({[fd]} ∩ k_open s ∪ k_shut s) (k_silent s) (k_clients s)).
Definition k_close (fd : Z) (s : kernel) : Z * kernel :=
  (0, mkKernel (k_wire s) (k_open s ∖ {[fd]}) (k_shut s ∖ {[fd]}) (k_silent s) (k_clients s)).

#[export] Instance kernel_sockets : Sockets kernel Z := {
  os_socket s := k_new false (k_clients s) [] s;
  os_socket_for _ s := k_new false (k_clients s) [] s;
  os_reuse_address _ s := (0, s);
  os_bind _ _ s := (0, s);
  os_listen _ s := (0, s);
  os_getsockname _ s := ((0, 5000), s);
  os_select_read _ s := (if k_clients s then 0 else 1, s);
  os_accept _ s :=
    match k_clients s with
    | [] => (-1, s)
    | (bs, silent) :: cs => k_new silent cs bs s
    end;
  os_send fd data := on_wire (wire_send fd data);
  os_recv fd n := on_wire (wire_recv fd n);
  os_shutdown := k_shutdown;
  os_close := k_close;
  os_getaddrinfo _ _ s := (Some [7], s);
  os_getfl _ s := (0, s);
  os_setfl _ _ s := (0, s);
  os_connect _ _ s := (-1, s);
  os_in_progress _ := true;
  os_select_write _ _ s := ((1, true), s);
  os_so_error _ s := ((0, 0), s);
  os_set_timeouts _ _ s := s;
}.

#[export] Instance kernel_descriptors : Descriptors kernel := {
  open_fds := k_open;
  shut_fds := k_shut;
  waits fd s := bool_decide (fd ∈ k_silent s) && negb (bool_decide (fd ∈ k_shut s));
}.

Lemma on_wire_inv {R} (f : wire → R * wire) s r s' :
  on_wire f s = (r, s') → f (k_wire s) = (r, k_wire s').
Proof. unfold on_wire. destruct (f (k_wire s)) as [r0 w]. by intros [= <- <-]. Qed.

#[export] Program Instance kernel_laws : SocketLaws kernel Z := {
  incoming s := incoming (k_wire s);
  outgoing s := outgoing (k_wire s);
  usable s := usable (k_wire s);
}.
Next Obligation. intros fd n s r bs s' Hs%on_wire_inv. exact (recv_law fd n _ _ _ _ Hs). Qed.
Next Obligation. intros fd n s r bs s' Hs%on_wire_inv. exact (recv_usable fd n _ _ _ _ Hs). Qed.
Next Obligation. intros fd data s r s' Hs%on_wire_inv. exact (send_law fd data _ _ _ Hs). Qed.
Next Obligation. intros fd data s r s' Hs%on_wire_inv. exact (send_usable fd data _ _ _ Hs). Qed.
Next Obligation. done. Qed.
Next Obligation. done. Qed.
Next Obligation. done. Qed.

Lemma lowest_free_fresh used fd : lowest_free used = Some fd → 0 ≤ fd ∧ fd ∉ used.
Proof.
  unfold lowest_free. destruct (list_find _ _) as [[i x]|] eqn:E; [|done]. intros [= <-].
  apply list_find_Some in E as (Hi & Hx & _). split; [|done].
  apply lookup_seqZ in Hi as [-> _]. lia.
Qed.

Lemma k_new_fd silent cs bs (s : kernel) :
  new_fd s (k_new silent cs bs s).1 (k_new silent cs bs s).2.
Proof.
  unfold k_new. destruct (lowest_free (k_open s)) as [fd|] eqn:E; [right|by left].
  apply lowest_free_fresh in E as [Hfd Hfresh]. by split_and!.
Qed.

Lemma on_wire_fds {R} (f : wire → R * wire) s : keeps_fds s (on_wire f s).2.
Proof. unfold on_wire. by destruct (f (k_wire s)). Qed.

#[export] Program Instance kernel_descriptor_laws : DescriptorLaws kernel Z.
Next Obligation.
  intros fd s Hfd. simpl in *. rewrite (bool_decide_eq_true_2 _ Hfd). apply andb_false_r.
Qed.
Next Obligation. intros s. apply k_new_fd. Qed.
Next Obligation.
  intros fd s. simpl. destruct (k_clients s) as [|[bs silent] cs]; [by left|]. apply k_new_fd.
Qed.
Next Obligation. intros fd s. split; [split; simpl; [done|set_solver]|simpl; set_solver]. Qed.
Next Obligation. done. Qed.
Next Obligation. done. Qed.
Next Obligation. done. Qed.
Next Obligation. done. Qed.
Next Obligation. done. Qed.
Next Obligation. done. Qed.
Next Obligation. intros. apply on_wire_fds. Qed.
Next Obligation. intros. apply on_wire_fds. Qed.
