(* ===== verification/RpcServer.v ===== *)
(** * The RPC server (src/rpc/rpc_server.{h,cpp})

    Its state, its lifecycle, the accept thread and the threads of the
    connections, as the sequence of their critical sections.  The handler works
    on an environment of type [H] that the server carries along. *)

From S2P Require Export RpcDescriptors.

Local Open Scope Z_scope.

(** Where the accept thread is: at the top of its loop, before [select] on the
    listener it has read, with a connection it has accepted, with one it has
    put among the active ones, or returned. *)
Inductive accept_phase :=
  | AcceptTop
  | AcceptSelect (listener : Z)
  | AcceptGot (connection_fd : Z)
  | AcceptAdded (connection_fd : Z)
  | AcceptReturned.

(** Where the thread of a connection is: before or in the exchange with its
    peer, behind [close] but before the lock, or at its end. *)
Inductive client_phase := Serving | Closed | Finished.

(** [accept_thread_] is [None] when it is not joinable; a thread of
    [client_threads_] is its connection and where it is. *)
Record RpcServer (N H : Type) := mkRpcServer {
  srv_port_ : Z;
  srv_handler_ : RpcMessage → M H RpcMessage;
  srv_listen_fd_ : Z;
  srv_running_ : bool;
  srv_accept_thread_ : option accept_phase;
  srv_client_threads_ : list (Z * client_phase);
  srv_active_connections_ : gset Z;
  srv_net : N;
  srv_env : H;
}.
Arguments mkRpcServer {N H}.
Arguments srv_port_ {N H} _.
Arguments srv_handler_ {N H} _.
Arguments srv_listen_fd_ {N H} _.
Arguments srv_running_ {N H} _.
Arguments srv_accept_thread_ {N H} _.
Arguments srv_client_threads_ {N H} _.
Arguments srv_active_connections_ {N H} _.
Arguments srv_net {N H} _.
Arguments srv_env {N H} _.

Section RpcServer.
Context {N A H : Type} `{Sockets N A}.
Notation Server := (RpcServer N H).
Implicit Types v : Server.

Definition srv_set_port (x : Z) v : Server :=
  mkRpcServer x (srv_handler_ v) (srv_listen_fd_ v) (srv_running_ v) (srv_accept_thread_ v)
    (srv_client_threads_ v) (srv_active_connections_ v) (srv_net v) (srv_env v).
Definition srv_set_listen (x : Z) v : Server :=
  mkRpcServer (srv_port_ v) (srv_handler_ v) x (srv_running_ v) (srv_accept_thread_ v)
    (srv_client_threads_ v) (srv_active_connections_ v) (srv_net v) (srv_env v).
Definition srv_set_running (x : bool) v : Server :=
  mkRpcServer (srv_port_ v) (srv_handler_ v) (srv_listen_fd_ v) x (srv_accept_thread_ v)
    (srv_client_threads_ v) (srv_active_connections_ v) (srv_net v) (srv_env v).
Definition srv_set_accept (x : option accept_phase) v : Server :=
  mkRpcServer (srv_port_ v) (srv_handler_ v) (srv_listen_fd_ v) (srv_running_ v) x
    (srv_client_threads_ v) (srv_active_connections_ v) (srv_net v) (srv_env v).
Definition srv_set_threads (x : list (Z * client_phase)) v : Server :=
  mkRpcServer (srv_port_ v) (srv_handler_ v) (srv_listen_fd_ v) (srv_running_ v)
    (srv_accept_thread_ v) x (srv_active_connections_ v) (srv_net v) (srv_env v).
Definition srv_set_active (x : gset Z) v : Server :=
  mkRpcServer (srv_port_ v) (srv_handler_ v) (srv_listen_fd_ v) (srv_running_ v)
    (srv_accept_thread_ v) (srv_client_threads_ v) x (srv_net v) (srv_env v).
Definition srv_set_net (x : N) v : Server :=
  mkRpcServer (srv_port_ v) (srv_handler_ v) (srv_listen_fd_ v) (srv_running_ v)
    (srv_accept_thread_ v) (srv_client_threads_ v) (srv_active_connections_ v) x (srv_env v).
Definition srv_set_env (x : H) v : Server :=
  mkRpcServer (srv_port_ v) (srv_handler_ v) (srv_listen_fd_ v) (srv_running_ v)
    (srv_accept_thread_ v) (srv_client_threads_ v) (srv_active_connections_ v) (srv_net v) x.

Definition on_net {R} (m : M N R) : M Server R := zoom srv_net srv_set_net m.
Definition on_handler {R} (m : M H R) : M Server R := zoom srv_env srv_set_env m.

(** The constructor; [handler] may be empty. *)
Definition RpcServer_new (port : Z) (handler : option (RpcMessage → M H RpcMessage))
    (net : N) (env : H) : outcome Server :=
  match handler with
  | Some f =>
      if (port <? 0) || (65535 <? port) then
        Throw (invalid_argument "invalid RPC server configuration")
      else Ret (mkRpcServer port f (-1) false None [] ∅ net env)
  | None => Throw (invalid_argument "invalid RPC server configuration")
  end.

(** [close(listen_fd_); listen_fd_ = -1; throw]. *)
Definition FailStart (what : string) : M Server unit :=
  fd ← gets srv_listen_fd_;
  _ ← on_net (os (os_close fd));
  modify (srv_set_listen (-1)) ;;
  throw (runtime_error what).

Definition Start : M Server unit :=
  running ← gets srv_running_;
  if running : bool then mret tt else
  fd ← on_net (os os_socket);
  modify (srv_set_listen fd) ;;
  if fd <? 0 then throw (runtime_error "failed to create RPC socket") else
  _ ← on_net (os (os_reuse_address fd));
  port ← gets srv_port_;
  bound ← on_net (os (os_bind fd (to_unsigned 16 port)));
  listening ← (if bound =? 0 then on_net (os (os_listen fd)) else mret bound);
  if negb (listening =? 0) then FailStart "failed to bind or listen on RPC socket" else
  '(named, bound_port) ← on_net (os (os_getsockname fd));
  if negb (named =? 0) then FailStart "failed to determine RPC server port" else
  modify (srv_set_port bound_port) ;;
  modify (srv_set_running true) ;;
  modify (srv_set_accept (Some AcceptTop)).

Definition GetPort : M Server Z := gets srv_port_.

Definition RpcMessage_init : RpcMessage := mkRpcMessage REQUEST_VOTE 0 0 [].

(** The exchange with the peer, up to and with [close]. *)
Definition ServeConnection (connection_fd : Z) : M Server unit :=
  '(ok, request) ← on_net (ReceiveMessage connection_fd RpcMessage_init);
  when ok (
    handler ← gets srv_handler_;
    reply ← on_handler (handler request);
    bytes ← lift (SerializeRpcMessage reply);
    _ ← on_net (SendAll connection_fd bytes);
    mret tt) ;;
  _ ← on_net (os (os_shutdown connection_fd));
  _ ← on_net (os (os_close connection_fd));
  mret tt.

(** The critical section behind it. *)
Definition ForgetConnection (connection_fd : Z) : M Server unit :=
  modify (λ v, srv_set_active (srv_active_connections_ v ∖ {[connection_fd]}) v).

Definition HandleConnection (connection_fd : Z) : M Server unit :=
  ServeConnection connection_fd ;;
  ForgetConnection connection_fd.

(** [FD_SET] on a descriptor an [fd_set] has no room for is undefined. *)
Definition FD_SETSIZE : Z := 1024.
Definition FD_SET {S} (fd : Z) : M S unit :=
  if (0 <=? fd) && (fd <? FD_SETSIZE) then mret tt else undef.

(** Behind a failed [select] or [accept]. *)
Definition AcceptAgain : M Server unit :=
  running ← gets srv_running_;
  modify (srv_set_accept (Some (if running : bool then AcceptTop else AcceptReturned))).

(** [select] and [accept] on the listener that was read. *)
Definition AcceptFrom (listener : Z) : M Server unit :=
  ready ← on_net (os (os_select_read listener));
  if ready =? 0 then modify (srv_set_accept (Some AcceptTop)) else
  if ready <? 0 then AcceptAgain else
  connection_fd ← on_net (os (os_accept listener));
  if connection_fd <? 0 then AcceptAgain else
  modify (srv_set_accept (Some (AcceptGot connection_fd))).

(** The critical section that takes an accepted connection in. *)
Definition AddConnection (connection_fd : Z) : M Server unit :=
  running ← gets srv_running_;
  if negb running then
    _ ← on_net (os (os_close connection_fd));
    modify (srv_set_accept (Some AcceptReturned))
  else
    modify (λ v, srv_set_active ({[connection_fd]} ∪ srv_active_connections_ v) v) ;;
    modify (srv_set_accept (Some (AcceptAdded connection_fd))).

(** The accept thread, from one critical section to the next. *)
Definition AcceptStep : M Server unit :=
  thread ← gets srv_accept_thread_;
  match thread with
  | Some AcceptTop =>
      running ← gets srv_running_;
      if negb running then modify (srv_set_accept (Some AcceptReturned)) else
      listener ← gets srv_listen_fd_;
      FD_SET listener ;;
      modify (srv_set_accept (Some (AcceptSelect listener)))
  | Some (AcceptSelect listener) => AcceptFrom listener
  | Some (AcceptGot connection_fd) => AddConnection connection_fd
  | Some (AcceptAdded connection_fd) =>
      modify (λ v, srv_set_threads (srv_client_threads_ v ++ [(connection_fd, Serving)]) v) ;;
      modify (srv_set_accept (Some AcceptTop))
  | Some AcceptReturned | None => mret tt
  end.

(** What is left of the accept thread. *)
Fixpoint AcceptLoop (fuel : nat) : M Server unit :=
  match fuel with
  | O => diverge
  | S fuel =>
      thread ← gets srv_accept_thread_;
      match thread with
      | Some AcceptReturned | None => mret tt
      | _ => AcceptStep ;; AcceptLoop fuel
      end
  end.

Context `{Descriptors N}.

(** The exchange with the peer in a thread of its own, which ends only if it
    does not wait for the peer for ever. *)
Definition ServeThread (connection_fd : Z) : M Server unit :=
  waiting ← gets (λ v, waits connection_fd (srv_net v));
  if waiting : bool then diverge else ServeConnection connection_fd.

(** The thread at position [k] goes on, up to its lock or to its end. *)
Definition RunThread (k : nat) : M Server unit :=
  threads ← gets srv_client_threads_;
  match threads !! k with
  | Some (fd, Serving) =>
      ServeThread fd ;;
      modify (λ v, srv_set_threads (<[k := (fd, Closed)]> (srv_client_threads_ v)) v)
  | Some (fd, Closed) =>
      ForgetConnection fd ;;
      modify (λ v, srv_set_threads (<[k := (fd, Finished)]> (srv_client_threads_ v)) v)
  | _ => mret tt
  end.

(** A thread that has not finished does so before it is joined. *)
Definition JoinThread (thread : Z * client_phase) : M Server unit :=
  match thread with
  | (fd, Serving) => ServeThread fd ;; ForgetConnection fd
  | (fd, Closed) => ForgetConnection fd
  | (_, Finished) => mret tt
  end.

(** Once the server does not run, the accept thread takes two more steps at
    most, and the last one sees that it has returned. *)
Definition JoinAcceptThread : M Server unit :=
  AcceptLoop 3 ;;
  modify (srv_set_accept None).

Definition joinable (thread : option accept_phase) : bool :=
  match thread with Some _ => true | None => false end.

Definition Stop : M Server unit :=
  v ← gets id;
  if negb (srv_running_ v) && negb (joinable (srv_accept_thread_ v)) then mret tt else
  modify (srv_set_running false) ;;
  let listener := srv_listen_fd_ v in
  modify (srv_set_listen (-1)) ;;
  let connections := elements (srv_active_connections_ v) in
  when (0 <=? listener) (
    _ ← on_net (os (os_shutdown listener));
    _ ← on_net (os (os_close listener));
    mret tt) ;;
  for_each connections (λ connection,
    _ ← on_net (os (os_shutdown connection)); mret tt) ;;
  JoinAcceptThread ;;
  client_threads ← gets srv_client_threads_;
  modify (srv_set_threads []) ;;
  for_each client_threads JoinThread.
End RpcServer.

(** ** What it promises *)

Section spec.
Context {N A H : Type} `{SocketLaws N A}.
Notation Server := (RpcServer N H).
Implicit Types v : Server.

(** A handler that always answers, with a message that has a frame. *)
Definition handler_ok (f : RpcMessage → M H RpcMessage) : Prop :=
  ∀ m h, ∃ reply h', f m h = (Ret reply, h') ∧ 13 + Z.of_nat (length (rpc_payload reply)) < 2 ^ 32.

(** The handler answers the request that is waiting on [fd], if there is one. *)
Definition answers (fd : Z) v : Prop :=
  ∀ m s, ReceiveMessage fd RpcMessage_init (srv_net v) = (Ret (true, m), s) →
    ∃ reply h', srv_handler_ v m (srv_env v) = (Ret reply, h') ∧
      13 + Z.of_nat (length (rpc_payload reply)) < 2 ^ 32.

Lemma handler_answers fd v : handler_ok (srv_handler_ v) → answers fd v.
Proof. intros Hh m s _. apply Hh. Qed.

(** Everything but the network, the environment and the active connections. *)
Definition srv_rest v :=
  (srv_port_ v, srv_handler_ v, srv_listen_fd_ v, srv_running_ v, srv_accept_thread_ v,
   srv_client_threads_ v).

(** No request was understood: nothing is answered and the handler not run. *)
Definition not_served (fd : Z) v v' : Prop :=
  srv_env v' = srv_env v ∧ outgoing (srv_net v') = outgoing (srv_net v).

(** The handler ran once, on a request that was received whole; its reply or,
    when sending fails, a part of it was sent. *)
Definition served (fd : Z) (request : RpcMessage) v v' : Prop :=
  ∃ reply frame pre post tail, srv_handler_ v request (srv_env v) = (Ret reply, srv_env v') ∧
    SerializeRpcMessage request = Ret frame ∧ incoming (srv_net v) fd = frame ++ tail ∧
    SerializeRpcMessage reply = Ret (pre ++ post) ∧
    outgoing (srv_net v') fd = outgoing (srv_net v) fd ++ pre ∧
    (usable (srv_net v) fd → rpc_wf request → post = []).

Lemma HandleConnection_spec fd v :
  answers fd v →
  wp (HandleConnection fd) v (λ _ v', srv_rest v' = srv_rest v ∧
    srv_active_connections_ v' = srv_active_connections_ v ∖ {[fd]} ∧
    (not_served fd v v' ∧ ¬ (∃ m rest, usable (srv_net v) fd ∧ rpc_wf m ∧ within_limit m ∧
        incoming (srv_net v) fd = rpc_frame m ++ rest) ∨
     ∃ request, served fd request v v' ∧
       (∀ m rest, usable (srv_net v) fd → rpc_wf m → within_limit m →
          incoming (srv_net v) fd = rpc_frame m ++ rest → request = m))).
Proof.
  intros Hh. unfold HandleConnection, ServeConnection, ForgetConnection, on_net, on_handler.
  wp_step. wp_step. wp_step.
  destruct (proj1 (wp_run _ _ _) (ReceiveMessage_spec fd RpcMessage_init (srv_net v)))
    as ([ok request] & s1 & Hrecv & consumed & (Hi & Ho & _) & _ & Hser & Hf).
  eapply wp_eq; [exact Hrecv|]. cbn beta iota.
  wp_step. apply (wp_mono _ _ (λ _ v', srv_rest v' = srv_rest v ∧
    srv_active_connections_ v' = srv_active_connections_ v ∧
    if ok then served fd request v v' else not_served fd v v')).
  - destruct ok; cbn [when]; [|wp_steps; split_and!; done]. wp_steps. simpl.
    destruct (Hh _ _ Hrecv) as (reply & h' & Hrun & Hlen).
    eapply wp_eq; [exact Hrun|]. wp_steps. rewrite SerializeRpcMessage_frame by done. wp_steps.
    wp_call SendAll_spec. intros ok s2 (pre & post & Hd & (Ho2 & _ & _) & _ & Hu2).
    wp_steps. simpl. split_and!; try done. exists reply, consumed, pre, post, (incoming s1 fd).
    split_and!; try done; [by apply Hser|by rewrite <- Hd, SerializeRpcMessage_frame| |].
    { simpl. rewrite Ho2. simpl. by rewrite Ho. }
   
    intros Hu Hwf. simpl in Hu2. apply Hu2.
    pose proof (Hser eq_refl) as Hfr. rewrite SerializeRpcMessage_frame in Hfr by apply Hwf.
    injection Hfr as <-. pose proof (Hf request _ Hu Hi Hwf) as [Hin Hout].
    destruct (decide (within_limit request)) as [Hw|Hw]; [by destruct (Hin Hw) as (_ & _ & _ & ?)|by specialize (Hout Hw)].
  - intros _ v1 (Hrest & Hact & Hcase). wp_steps. apply wp_os. intros r2 s2 E2. wp_steps.
    apply wp_os. intros r3 s3 E3. wp_steps. simpl in *. split; [done|]. split; [by rewrite Hact|].
    assert (outgoing s3 = outgoing (srv_net v1)) as Ho3.
    { pose proof (shutdown_law fd (srv_net v1)) as L2. rewrite E2 in L2.
      pose proof (close_law fd s2) as L3. rewrite E3 in L3. simpl in *. congruence. }
    destruct ok; [right|left].
    + exists request. split.
      * unfold served in *. simpl in *. rewrite Ho3. exact Hcase.
      * intros m rest Hu Hwf Hlim Hin. destruct (Hf m rest Hu Hin Hwf) as [Hm _].
        by destruct (Hm Hlim) as (_ & -> & _).
    + split.
      * destruct Hcase as [He Hout]. split; simpl; congruence.
      * intros (m & rest & Hu & Hwf & Hlim & Hin). destruct (Hf m rest Hu Hin Hwf) as [Hm _].
        by destruct (Hm Hlim).
Qed.

(** C20: the thread of a connection runs the handler at most once, and only on
    a request that has arrived whole; when the handler answers, it sends nothing but the serialization
    of the handler's reply, or a part of it when sending fails; it always ends
    with the connection out of the active ones.  A request within the size limit on a
    connection without errors is answered completely. *)
Theorem handle_connection_correct fd v :
  answers fd v →
  ∃ v', HandleConnection fd v = (Ret tt, v') ∧ srv_rest v' = srv_rest v ∧
    srv_active_connections_ v' = srv_active_connections_ v ∖ {[fd]} ∧
    (not_served fd v v' ∧ ¬ (∃ m rest, usable (srv_net v) fd ∧ rpc_wf m ∧ within_limit m ∧
        incoming (srv_net v) fd = rpc_frame m ++ rest) ∨
     ∃ request, served fd request v v' ∧
       (∀ m rest, usable (srv_net v) fd → rpc_wf m → within_limit m →
          incoming (srv_net v) fd = rpc_frame m ++ rest → request = m)).
Proof.
  intros Hh. destruct (proj1 (wp_run _ _ _) (HandleConnection_spec fd v Hh)) as ([] & v' & Hrun & Hq).
  by exists v'.
Qed.

End spec.

(** ** Lifecycle

    Descriptors are counted: those of [base] belong to others, every other
    open one has an owner in the server. *)

Section lifecycle.
Context {N A H : Type} `{SocketLaws N A} `{Descriptors N} `{!DescriptorLaws N A}.
Notation Server := (RpcServer N H).
Implicit Types v : Server.
Implicit Types base : gset Z.

(** Who has a descriptor open: the listener, the accept thread, the exchanges. *)
Definition listener_fds (listener : Z) : list Z := if 0 <=? listener then [listener] else [].
Definition accept_held (thread : option accept_phase) : list Z :=
  match thread with Some (AcceptGot fd) | Some (AcceptAdded fd) => [fd] | _ => [] end.
Definition serving (threads : list (Z * client_phase)) : list Z :=
  omap (λ t, match t with (fd, Serving) => Some fd | _ => None end) threads.
Definition held v : list Z :=
  listener_fds (srv_listen_fd_ v) ++ accept_held (srv_accept_thread_ v) ++
  serving (srv_client_threads_ v).

(** Who will take a connection out of the active ones. *)
Definition accept_added (thread : option accept_phase) : list Z :=
  match thread with Some (AcceptAdded fd) => [fd] | _ => [] end.
Definition unfinished (threads : list (Z * client_phase)) : list Z :=
  omap (λ t, match t with (_, Finished) => None | (fd, _) => Some fd end) threads.
Definition unforgotten v : list Z :=
  accept_added (srv_accept_thread_ v) ++ unfinished (srv_client_threads_ v).

(** Every open descriptor has one owner, and the active connections are those
    that a thread is going to forget, each exactly once. *)
Record srv_inv base v : Prop := {
  si_handler : handler_ok (srv_handler_ v);
  si_held : holds base (held v) (srv_net v);
  si_once : NoDup (unforgotten v);
  si_active fd : fd ∈ srv_active_connections_ v ↔ fd ∈ unforgotten v;
}.

(** Between two operations of the owner: the accept thread and the listener
    are there if and only if the server runs. *)
Record srv_ok base v : Prop := {
  so_inv : srv_inv base v;
  so_accept : joinable (srv_accept_thread_ v) = srv_running_ v;
  so_listen : (0 <=? srv_listen_fd_ v) = srv_running_ v;
  so_stopped : srv_running_ v = false → srv_client_threads_ v = [];
}.

(** What is left when the server does not run. *)
Definition srv_clean v : Prop :=
  srv_running_ v = false ∧ srv_accept_thread_ v = None ∧ srv_listen_fd_ v < 0 ∧
  srv_client_threads_ v = [] ∧ srv_active_connections_ v = ∅.

Lemma not_joinable thread : joinable thread = false → thread = None.
Proof. by destruct thread. Qed.

Lemma srv_ok_clean base v :
  srv_ok base v → srv_running_ v = false → srv_clean v ∧ open_fds (srv_net v) = base.
Proof.
  intros [[_ Hh _ Hact] Ha Hl Hs] Hr. specialize (Hs Hr). rewrite Hr in *. apply not_joinable in Ha.
  unfold unforgotten, held, listener_fds in *. rewrite Ha, Hs in *. rewrite Hl in Hh. simpl in *.
  apply holds_none in Hh. split; [|done]. split_and!; try done; [lia|].
  apply set_eq. intros fd. rewrite Hact. set_solver.
Qed.

Lemma clean_srv_ok base v :
  handler_ok (srv_handler_ v) → srv_clean v → open_fds (srv_net v) = base → srv_ok base v.
Proof.
  intros Hh (Hr & Ha & Hl & Ht & Hact) Ho.
  assert ((0 <=? srv_listen_fd_ v) = false) as Hl' by lia.
  split; rewrite ?Hr, ?Ha; try done. split; [done|..].
  - unfold held, listener_fds. rewrite Hl', Ha, Ht. by apply holds_none.
  - unfold unforgotten. rewrite Ha, Ht. constructor.
  - unfold unforgotten. rewrite Ha, Ht, Hact. set_solver.
Qed.

Lemma new_clean port f net env v :
  RpcServer_new port f net env = Ret v → srv_clean v ∧ srv_net v = net ∧ f = Some (srv_handler_ v).
Proof. unfold RpcServer_new. destruct f as [g|]; [|done]. case_bool; [done|]. by intros [= <-]. Qed.

(** What [Start] leaves alone until it succeeds. *)
Definition start_frame v v' : Prop :=
  srv_handler_ v' = srv_handler_ v ∧ srv_running_ v' = false ∧ srv_accept_thread_ v' = None ∧
  srv_client_threads_ v' = [] ∧ srv_active_connections_ v' = ∅.

Lemma start_frame_ok base v v' :
  handler_ok (srv_handler_ v) → start_frame v v' → srv_listen_fd_ v' < 0 →
  open_fds (srv_net v') = base → srv_ok base v' ∧ srv_running_ v' = false.
Proof.
  intros Hh (F1 & F2 & F3 & F4 & F5) Hl Ho. split; [|done]. apply clean_srv_ok; [by rewrite F1| |done].
  by split_and!.
Qed.

Definition start_result base (o : outcome unit) v' : Prop :=
  srv_ok base v' ∧ (o = Ret tt ∧ srv_running_ v' = true ∨ (∃ e, o = Throw e) ∧ srv_running_ v' = false).

Lemma FailStart_ok base v v1 what :
  handler_ok (srv_handler_ v) → start_frame v v1 → holds base [srv_listen_fd_ v1] (srv_net v1) →
  ends (FailStart what) v1 (start_result base).
Proof.
  intros Hh Hf Hheld. unfold FailStart, on_net. apply ends_bind. wp_steps. apply ends_bind. wp_steps.
  apply wp_os. intros r s E. apply ends_bind. wp_steps. apply ends_throw.
  pose proof (close_fds (srv_listen_fd_ v1) (srv_net v1)) as [Ho _]. rewrite E in Ho.
  apply (holds_close base [] _ _ _ Ho), holds_none in Hheld.
  destruct (start_frame_ok base v (srv_set_listen (-1) (srv_set_net s v1)) Hh Hf) as [Hok Hr]; [done|done|].
  split; [done|]. eauto.
Qed.

(** Starting either succeeds or throws with nothing left open. *)
Lemma Start_ok base v : srv_ok base v → ends Start v (start_result base).
Proof.
  intros Hok. pose proof (si_handler _ _ (so_inv _ _ Hok)) as Hh. unfold Start, on_net. apply ends_bind. wp_steps.
  destruct (srv_running_ v) eqn:Hr; [apply ends_wp; wp_steps; split; [done|by left]|].
  destruct (srv_ok_clean _ _ Hok Hr) as [(_ & Ha & Hl & Ht & Hact) Ho].
  apply ends_bind. wp_steps. apply wp_os. intros fd s1 E1. pose proof (socket_fds (srv_net v)) as L1.
  rewrite E1 in L1. cbn in L1. apply (holds_new base []) in L1; [|by apply holds_none].
  apply ends_bind. wp_steps. revert L1. destruct (Z.ltb_spec fd 0) as [Hfd|Hfd]; cbn; intros L1.
  { apply ends_throw. apply holds_none in L1.
    destruct (start_frame_ok base v (srv_set_listen fd (srv_set_net s1 v)) Hh) as [Hok' Hr']; [by split_and!|done|done|].
    split; [done|]. eauto. }
  apply ends_bind. wp_steps. apply wp_os. intros r2 s2 E2. pose proof (reuse_address_fds fd s1) as L2.
  cbn in E2. rewrite E2 in L2. apply (holds_keep _ _ _ _ L2) in L1. clear L2.
  apply ends_bind. wp_steps. apply ends_bind. wp_steps. apply wp_os. intros r3 s3 E3.
  pose proof (bind_fds fd (to_unsigned 16 (srv_port_ v)) s2) as L3.
  cbn in E3. rewrite E3 in L3. apply (holds_keep _ _ _ _ L3) in L1. clear L3.
  apply ends_bind. apply (wp_mono _ _ (λ _ v', ∃ s4, holds base [fd] s4 ∧
    v' = srv_set_net s4 (srv_set_listen fd v))).
  { case_bool; wp_steps; [|by exists s3]. apply wp_os. intros r4 s4 E4.
    pose proof (listen_fds fd s3) as L4. cbn in E4. rewrite E4 in L4. exists s4. split; [|done].
    by eapply holds_keep. }
  intros r4 v4 (s4 & L4 & ->). case_bool.
  { eapply (FailStart_ok base v); [done|by split_and!|done]. }
  apply ends_bind. wp_steps. apply wp_os. intros [named port] s5 E5.
  pose proof (getsockname_fds fd s4) as L5. cbn in E5. rewrite E5 in L5. apply (holds_keep _ _ _ _ L5) in L4.
  case_bool; [eapply (FailStart_ok base v); [done|by split_and!|done]|].
  apply ends_wp. wp_steps. split; [|by left]. assert ((0 <=? fd) = true) as Hfd' by lia.
  split; simpl; try done. split; simpl; [done|..].
  - unfold held, listener_fds. cbn. rewrite Hfd', Ht. done.
  - unfold unforgotten. cbn. rewrite Ht. constructor.
  - unfold unforgotten. cbn. rewrite Ht, Hact. set_solver.
Qed.

(** *** The threads *)

Lemma thread_split {B} (l : list B) k x y :
  l !! k = Some x → ∃ pre post, l = pre ++ x :: post ∧ <[k := y]> l = pre ++ y :: post.
Proof.
  intros Hk. exists (take k l), (drop (S k) l). split; [by rewrite take_drop_middle|].
  apply insert_take_drop. by eapply lookup_lt_Some.
Qed.

Lemma ServeConnection_fds fd v :
  handler_ok (srv_handler_ v) →
  wp (ServeConnection fd) v (λ _ v', srv_rest v' = srv_rest v ∧
    srv_active_connections_ v' = srv_active_connections_ v ∧
    open_fds (srv_net v') = open_fds (srv_net v) ∖ {[fd]} ∧
    shut_fds (srv_net v) ∖ {[fd]} ⊆ shut_fds (srv_net v')).
Proof.
  intros Hh. unfold ServeConnection, on_net, on_handler. wp_step. wp_step.
  eapply wp_mono; [apply wp_and_wlp; [apply ReceiveMessage_spec|apply ReceiveMessage_fds]|].
  intros [ok request] s1 [_ K1]. wp_step. apply (wp_mono _ _ (λ _ v', srv_rest v' = srv_rest v ∧
    srv_active_connections_ v' = srv_active_connections_ v ∧ keeps_fds (srv_net v) (srv_net v'))).
  - destruct ok; cbn [when]; [|by wp_steps]. wp_steps. simpl.
    destruct (Hh request (srv_env v)) as (reply & h' & Hrun & Hlen). eapply wp_eq; [exact Hrun|].
    wp_steps. rewrite SerializeRpcMessage_frame by done. wp_steps.
    eapply wp_mono; [apply wp_and_wlp; [apply SendAll_spec|apply SendLoop_fds]|].
    intros ok s2 [_ K2]. wp_steps. split_and!; [done|done|]. simpl in *. by etrans.
  - intros _ v1 (Hr & Ha & [Ho Hs]). wp_steps. apply wp_os. intros r2 s2 E2. wp_steps.
    apply wp_os. intros r3 s3 E3. wp_steps. split; [done|]. split; [done|].
    pose proof (shutdown_fds fd (srv_net v1)) as [[O2 S2] _]. rewrite E2 in O2, S2.
    pose proof (close_fds fd s2) as [O3 S3]. simpl in *. rewrite E3 in O3, S3. simpl in *.
    split; [congruence|set_solver].
Qed.

Lemma RunThread_ok base k v : srv_ok base v → wlp (RunThread k) v (λ _ v', srv_ok base v').
Proof.
  intros Hok. pose proof Hok as [[Hh Hheld Honce Hact] Ha Hl Hs]. unfold RunThread. wlp_steps.
  destruct (srv_client_threads_ v !! k) as [[fd []]|] eqn:Hk; [| |by wlp_steps..].
  - destruct (thread_split _ _ _ (fd, Closed) Hk) as (pre & post & Et & Et').
    unfold ServeThread. wlp_steps. destruct (waits _ _); [by intros ? ?|].
    eapply wlp_mono; [by apply wlp_wp, ServeConnection_fds|].
    intros _ v1 ([= E1 E2 E3 E4 E5 E6] & Eact & Ho & _). wlp_steps. rewrite E6, Et'.
    unfold held, serving, unforgotten, unfinished in *. rewrite Et in *. rewrite omap_app in *. simpl in *.
    split; [split|..]; cbn; rewrite ?E2, ?E3, ?E4, ?E5, ?Eact; try done.
    + unfold held, serving. cbn. rewrite E3, E5, omap_app. simpl.
      eapply holds_close; [exact Ho|]. eapply holds_perm; [|exact Hheld]. rewrite !app_assoc. 
      by rewrite <- Permutation_middle.
    + unfold unforgotten, unfinished. cbn. by rewrite E5, omap_app.
    + unfold unforgotten, unfinished. cbn. intros fd'. by rewrite E5, omap_app.
    + intros Hr. specialize (Hs Hr). by destruct pre.
  - destruct (thread_split _ _ _ (fd, Finished) Hk) as (pre & post & Et & Et').
    unfold ForgetConnection. wlp_steps. cbn. rewrite Et'.
    unfold held, serving, unforgotten, unfinished in *. rewrite Et in *. rewrite omap_app in *. simpl in *.
    rewrite app_assoc, <- Permutation_middle, <- app_assoc in Honce.
    apply NoDup_cons in Honce as [Hfd Honce]. 
    split; [split|..]; cbn; try done.
    + unfold held, serving. cbn. by rewrite omap_app.
    + unfold unforgotten, unfinished. cbn. by rewrite omap_app.
    + unfold unforgotten, unfinished. cbn. intros fd'. rewrite omap_app. simpl.
      rewrite elem_of_difference, Hact. set_solver.
    + intros Hr. specialize (Hs Hr). by destruct pre.
Qed.

(** A connection that is accepted is not one of the active ones: the thread
    that closed this descriptor before has forgotten it. *)
Definition no_reuse v : Prop :=
  ∀ fd, srv_accept_thread_ v = Some (AcceptGot fd) → fd ∉ srv_active_connections_ v.

(** Steps left to the accept thread of a server that does not run. *)
Definition accept_left (thread : option accept_phase) : nat :=
  match thread with
  | Some (AcceptSelect _) | Some (AcceptAdded _) => 2
  | Some AcceptTop | Some (AcceptGot _) => 1
  | Some AcceptReturned | None => 0
  end.

(** No exchange waits for its peer any more. *)
Definition woken v : Prop :=
  ∀ fd, fd ∈ accept_added (srv_accept_thread_ v) ++ serving (srv_client_threads_ v) →
    fd ∈ shut_fds (srv_net v).

Definition accept_result base v v' : Prop :=
  srv_inv base v' ∧ srv_running_ v' = srv_running_ v ∧ srv_listen_fd_ v' = srv_listen_fd_ v ∧
  (srv_running_ v = true → joinable (srv_accept_thread_ v') = joinable (srv_accept_thread_ v)) ∧
  (srv_running_ v = false → woken v →
     woken v' ∧ (accept_left (srv_accept_thread_ v') ≤ pred (accept_left (srv_accept_thread_ v)))%nat).

(** Only the network and the place of the thread change, and it holds no
    connection before and after. *)
Lemma accept_moves base v thread s :
  srv_inv base v → accept_held (srv_accept_thread_ v) = [] → accept_held (Some thread) = [] →
  joinable (srv_accept_thread_ v) = true → keeps_fds (srv_net v) s →
  (srv_running_ v = false →
    (accept_left (Some thread) ≤ pred (accept_left (srv_accept_thread_ v)))%nat) →
  accept_result base v (srv_set_accept (Some thread) (srv_set_net s v)).
Proof.
  intros [Hh Hheld Honce Hact] Ht Ht' Hj Hk Hleft.
  assert (∀ t, accept_held t = [] → accept_added t = []) as Hadd by (by intros [[]|]).
  unfold accept_result, woken. cbn -[accept_held accept_added accept_left].
  rewrite (Hadd _ Ht), (Hadd _ Ht').
  split; [split|split_and!]; cbn -[accept_held accept_added accept_left]; try done.
  - unfold held in *. cbn -[accept_held]. rewrite Ht', Ht in *. by eapply holds_keep.
  - unfold unforgotten in *. cbn -[accept_added]. by rewrite (Hadd _ Ht'), (Hadd _ Ht) in *.
  - unfold unforgotten in *. cbn -[accept_added]. by rewrite (Hadd _ Ht'), (Hadd _ Ht) in *.
  - intros Hr Hw. split; [|by apply Hleft]. destruct Hk as [_ Hk]. set_solver.
Qed.

Lemma AcceptAgain_ok base v l s :
  srv_inv base v → srv_accept_thread_ v = Some (AcceptSelect l) → keeps_fds (srv_net v) s →
  wp AcceptAgain (srv_set_net s v) (λ _ v', accept_result base v v').
Proof.
  intros Hi Ha Hk. unfold AcceptAgain. wp_steps. cbn.
  apply (accept_moves base v (if srv_running_ v then AcceptTop else AcceptReturned) s);
    rewrite ?Ha; try done; destruct (srv_running_ v); simpl; first [done|lia].
Qed.

Lemma AcceptFrom_ok base v l :
  srv_inv base v → srv_accept_thread_ v = Some (AcceptSelect l) →
  wp (AcceptFrom l) v (λ _ v', accept_result base v v').
Proof.
  intros Hi Ha. pose proof Hi as [Hh Hheld Honce Hact]. unfold AcceptFrom, on_net. wp_steps.
  apply wp_os. intros ready s1 E1.
  pose proof (select_fds l (srv_net v)) as K1. rewrite E1 in K1. cbn in K1.
  case_bool. { wp_steps. by apply accept_moves; rewrite ?Ha. }
  case_bool; [by eapply AcceptAgain_ok|]. wp_steps. apply wp_os. intros fd s2 E2. cbn in E2.
  pose proof (accept_fds l s1) as K2. rewrite E2 in K2. cbn in K2.
  destruct (Z.ltb_spec fd 0) as [Hfd|Hfd].
  { destruct K2 as [[_ K2]|[? _]]; [|lia]. apply (AcceptAgain_ok base v l s2); [done|done|by etrans]. }
  wp_steps. apply (holds_keep _ _ _ _ K1) in Hheld.
  pose proof (holds_new _ _ _ _ _ K2 Hheld) as Hnew. rewrite (proj2 (Z.ltb_ge _ _) Hfd) in Hnew.
  destruct K2 as [[? _]|(_ & _ & _ & Hs2)]; [lia|]. destruct K1 as [_ Hs1].
  unfold accept_result, woken, held, unforgotten in *. rewrite Ha in *. cbn in *.
  split; [split|split_and!]; cbn; try done.
  - unfold held. cbn. eapply holds_perm; [|exact Hnew]. by rewrite <- Permutation_middle.
  - intros _ Hw. split; [set_solver|lia].
Qed.

Lemma AddConnection_ok base v fd :
  srv_inv base v → srv_accept_thread_ v = Some (AcceptGot fd) →
  (srv_running_ v = true → fd ∉ srv_active_connections_ v) →
  wp (AddConnection fd) v (λ _ v', accept_result base v v').
Proof.
  intros [Hh Hheld Honce Hact] Ha Hnew. unfold AddConnection, on_net. wp_steps.
  unfold held, unforgotten in *. rewrite Ha in *. cbn in Hheld, Honce, Hact.
  destruct (srv_running_ v) eqn:Hr; cbn [negb]; wp_steps.
  - specialize (Hnew eq_refl). unfold accept_result. rewrite Ha, Hr.
    split; [split|split_and!]; cbn; try done.
    + unfold unforgotten. cbn. apply NoDup_cons. split; [by rewrite <- Hact|done].
    + unfold unforgotten. cbn. set_solver.
  - apply wp_os. intros r s1 E1. wp_steps.
    pose proof (close_fds fd (srv_net v)) as [K1 K2]. rewrite E1 in K1, K2. cbn in K1, K2.
    rewrite <- Permutation_middle in Hheld. unfold accept_result, woken. rewrite Ha, Hr. cbn.
    split; [split|split_and!]; cbn; try done; [by eapply holds_close|].
    intros _ Hw. split; [|lia]. intros fd' Hfd'. apply K2, elem_of_difference. split; [by apply Hw|].
    intros ->%elem_of_singleton. destruct Hheld as (Hnd & _). apply NoDup_cons in Hnd. set_solver.
Qed.

Lemma AcceptStep_ok base v :
  srv_inv base v → (srv_running_ v = true → no_reuse v) →
  wlp AcceptStep v (λ _ v', accept_result base v v').
Proof.
  intros Hi Hreuse. pose proof Hi as [Hh Hheld Honce Hact]. unfold AcceptStep. wlp_steps.
  assert (srv_set_net (srv_net v) v = v) as Hsame by by destruct v.
  destruct (srv_accept_thread_ v) as [[|l|fd|fd|]|] eqn:Ha.
  - wlp_steps. destruct (srv_running_ v) eqn:Hr; cbn [negb]; wlp_steps.
    + unfold FD_SET. case_bool; [|by intros ? ?]. wlp_steps.
      pose proof (accept_moves base v (AcceptSelect (srv_listen_fd_ v)) (srv_net v) Hi) as L.
      rewrite Hsame, Ha, Hr in L. by apply L.
    + pose proof (accept_moves base v AcceptReturned (srv_net v) Hi) as L.
      rewrite Hsame, Ha, Hr in L. by apply L.
  - by apply wlp_wp, AcceptFrom_ok.
  - apply wlp_wp, AddConnection_ok; [done|done|]. intros Hr. by apply Hreuse.
  - wlp_steps. unfold accept_result, woken, held, unforgotten, serving, unfinished in *. rewrite Ha in *. cbn in *.
    rewrite !omap_app. simpl. split; [split|split_and!]; cbn; try done.
    + unfold held, serving. cbn. rewrite omap_app. simpl. eapply holds_perm; [|exact Hheld].
      apply Permutation_app_head. by rewrite Permutation_app_comm.
    + unfold unforgotten, unfinished. cbn. rewrite omap_app. simpl. by rewrite Permutation_app_comm.
    + unfold unforgotten, unfinished. cbn. intros fd'. rewrite omap_app. simpl. rewrite Hact. set_solver.
    + intros _ Hw. split; [set_solver|lia].
  - wlp_steps. unfold accept_result. by rewrite Ha.
  - wlp_steps. unfold accept_result. by rewrite Ha.
Qed.

(** *** Stopping *)

Lemma AcceptStep_stopped v : srv_running_ v = false → wp AcceptStep v (λ _ _, True).
Proof.
  intros Hr. unfold AcceptStep, AcceptFrom, AddConnection, AcceptAgain, on_net. wp_steps.
  destruct (srv_accept_thread_ v) as [[|l|fd|fd|]|]; wp_steps; try done.
  - rewrite Hr. by wp_steps.
  - apply wp_os. intros ready s1 _. case_bool; [by wp_steps|]. case_bool; [by wp_steps|]. wp_steps.
    apply wp_os. intros fd s2 _. case_bool; by wp_steps.
  - rewrite Hr. cbn [negb]. wp_steps. apply wp_os. intros r s1 _. by wp_steps.
Qed.

(** The accept thread of a server that does not run returns. *)
Lemma AcceptLoop_ok base fuel : ∀ v,
  srv_inv base v → srv_running_ v = false → srv_listen_fd_ v < 0 → woken v →
  (accept_left (srv_accept_thread_ v) < fuel)%nat →
  wp (AcceptLoop fuel) v (λ _ v', srv_inv base v' ∧ srv_running_ v' = false ∧
    srv_listen_fd_ v' < 0 ∧ woken v' ∧ accept_held (srv_accept_thread_ v') = []).
Proof.
  induction fuel as [|fuel IH]; intros v Hi Hr Hl Hw Hf; [lia|]. cbn [AcceptLoop].
  assert (wp (AcceptStep ;; AcceptLoop fuel) v (λ _ v', srv_inv base v' ∧ srv_running_ v' = false ∧
    srv_listen_fd_ v' < 0 ∧ woken v' ∧ accept_held (srv_accept_thread_ v') = []) ∨
    accept_left (srv_accept_thread_ v) = 0%nat) as Hstep.
  { destruct (decide (accept_left (srv_accept_thread_ v) = 0%nat)) as [?|Hne]; [by right|left].
    wp_step. eapply wp_mono.
    { apply wp_and_wlp; [by apply AcceptStep_stopped|]. apply (AcceptStep_ok base v Hi). congruence. }
    intros _ v1 (_ & Hi1 & Hr1 & Hl1 & _ & Hw1). destruct (Hw1 Hr Hw) as [Hw1' Hleft].
    apply IH; [done|congruence|congruence|done|lia]. }
  wp_step. wp_step. destruct (srv_accept_thread_ v) as [[]|] eqn:Ha; simpl in Hstep;
    destruct Hstep as [Hstep|?]; try exact Hstep; try done; wp_steps; by rewrite Ha.
Qed.

(** Joining: every unfinished thread closes its connection and forgets it. *)
Lemma join_spec base threads : ∀ v,
  handler_ok (srv_handler_ v) → holds base (serving threads) (srv_net v) →
  (∀ fd, fd ∈ serving threads → fd ∈ shut_fds (srv_net v)) →
  wp (for_each threads JoinThread) v (λ _ v', srv_rest v' = srv_rest v ∧
    srv_active_connections_ v' = srv_active_connections_ v ∖ list_to_set (unfinished threads) ∧
    holds base [] (srv_net v')).
Proof.
  induction threads as [|[fd []] threads IH]; intros v Hh Hheld Hw; cbn [for_each JoinThread] in *.
  - wp_steps. split_and!; [done|set_solver|done].
  - simpl in Hheld, Hw. wp_step. wp_step. unfold ServeThread. wp_steps.
    rewrite (shut_returns fd (srv_net v)) by set_solver.
    wp_call ServeConnection_fds; [done|]. intros _ v1 (Hr & Ha & Ho & Hs).
    unfold ForgetConnection. wp_steps. wp_call IH.
    + simpl. by injection Hr as _ -> _ _ _ _.
    + by eapply holds_close.
    + intros fd' Hfd'. simpl. destruct Hheld as (Hnd & _). apply NoDup_cons in Hnd. set_solver.
    + intros _ v2 (Hr2 & Ha2 & Hh2). split_and!; [by rewrite Hr2, <- Hr| |done].
      rewrite Ha2. simpl. rewrite Ha. set_solver.
  - simpl in Hheld, Hw. unfold ForgetConnection. wp_steps. wp_call IH; [done|done|done|].
    intros _ v2 (Hr2 & Ha2 & Hh2). split_and!; [by rewrite Hr2| |done]. rewrite Ha2. simpl. set_solver.
  - simpl in Hheld, Hw. wp_steps. by wp_call IH.
Qed.

(** Shutting the active connections down wakes every thread. *)
Lemma wake_spec connections : ∀ v,
  wp (for_each connections (λ connection, _ ← on_net (os (os_shutdown connection)); mret tt)) v
    (λ _ v', ∃ s, v' = srv_set_net s v ∧ keeps_fds (srv_net v) s ∧
      ∀ fd, fd ∈ connections → fd ∈ open_fds (srv_net v) → fd ∈ shut_fds s).
Proof.
  induction connections as [|c cs IH]; intros v; cbn [for_each].
  - wp_steps. exists (srv_net v). split_and!; [by destruct v|done|set_solver].
  - unfold on_net. wp_steps. apply wp_os. intros r s1 E1. wp_steps.
    pose proof (shutdown_fds c (srv_net v)) as [K1 Hc]. rewrite E1 in K1, Hc. cbn in K1, Hc.
    wp_call IH. intros _ v' (s & -> & K2 & Hcs). cbn in *. exists s. split_and!; [done|by etrans|].
    destruct K1 as [Ho1 _], K2 as [_ Hs2]. rewrite Ho1 in Hcs. set_solver.
Qed.

Lemma serving_unfinished fd threads : fd ∈ serving threads → fd ∈ unfinished threads.
Proof.
  unfold serving, unfinished. rewrite !list_elem_of_omap. intros ([fd' []] & Hin & E); [|done..].
  by exists (fd', Serving).
Qed.

Lemma added_held fd thread : fd ∈ accept_added thread → fd ∈ accept_held thread.
Proof. destruct thread as [[]|]; simpl; set_solver. Qed.

Lemma Stop_spec base v :
  srv_ok base v → wp Stop v (λ _ v', srv_ok base v' ∧ srv_clean v' ∧ open_fds (srv_net v') = base).
Proof.
  intros Hok. pose proof Hok as [[Hh Hheld Honce Hact] Ha Hl Hs]. unfold Stop. wp_steps. unfold id.
  rewrite Ha. destruct (srv_running_ v) eqn:Hr; cbn [negb andb].
  2: { wp_steps. split; [done|]. by eapply srv_ok_clean. }
  wp_steps. rewrite Hl. cbn [when]. unfold on_net. wp_steps. apply wp_os. intros r1 s1 E1. wp_steps.
  apply wp_os. intros r2 s2 E2. cbn in E1, E2. wp_steps.
  pose proof (shutdown_fds (srv_listen_fd_ v) (srv_net v)) as [K1 _]. rewrite E1 in K1. cbn in K1.
  pose proof (close_fds (srv_listen_fd_ v) s1) as [O2 S2]. rewrite E2 in O2, S2. cbn in O2, S2.
  apply (holds_keep _ _ _ _ K1) in Hheld. unfold held, listener_fds in Hheld. rewrite Hl in Hheld.
  apply (holds_close _ _ _ _ _ O2) in Hheld. clear K1 O2 S2 E1 E2.
  wp_call wake_spec. intros _ v2 (s3 & -> & K3 & Hwake). cbn in K3, Hwake. wp_step.
  unfold JoinAcceptThread. wp_step. wp_call (AcceptLoop_ok base); try done.
  - split; cbn; try done. unfold held. cbn. by eapply holds_keep.
  - unfold woken. cbn. intros fd Hfd. destruct Hheld as (_ & Ho & _). apply Hwake.
    + apply elem_of_elements, Hact. revert Hfd. unfold unforgotten. cbn. rewrite !elem_of_app.
      intros [?|?]; [by left|right; by apply serving_unfinished].
    + revert Hfd. cbn. rewrite Ho, elem_of_app. intros [?%added_held|?]; set_solver.
  - cbn. by destruct (srv_accept_thread_ v) as [[]|]; simpl; lia.
  - intros _ v4 ([Hh4 Hheld4 _ Hact4] & Hr4 & Hl4 & Hw4 & Ht4). wp_steps. cbn.
    assert (accept_added (srv_accept_thread_ v4) = []) as Ht4' by (destruct (srv_accept_thread_ v4) as [[]|]; done).
    unfold held, listener_fds, unforgotten in *. rewrite Ht4, Ht4' in *.
    rewrite (proj2 (Z.leb_gt _ _) Hl4) in Hheld4. cbn in Hheld4, Hact4.
    wp_call (join_spec base); [done|done|intros fd Hfd; apply Hw4; rewrite Ht4'; done|].
    intros _ v5 ([= G1 G2 G3 G4 G5 G6] & Ha5 & Ho5). apply holds_none in Ho5. cbn in *.
    assert (srv_clean v5) as Hc.
    { split_and!; try congruence. rewrite Ha5. apply set_eq. intros fd. specialize (Hact4 fd). set_solver. }
    split; [|done]. apply clean_srv_ok; [by rewrite G2|done|done].
Qed.

(** ** The lifecycle *)

(** The steps of a server's threads and of its owner. *)
Inductive srv_step v : Server → Prop :=
  | SrvStart o v' : Start v = (o, v') → srv_step v v'
  | SrvAccept v' : no_reuse v → AcceptStep v = (Ret tt, v') → srv_step v v'
  | SrvThread k v' : RunThread k v = (Ret tt, v') → srv_step v v'
  | SrvStop v' : Stop v = (Ret tt, v') → srv_step v v'.

Lemma srv_step_ok base v v' : srv_ok base v → srv_step v v' → srv_ok base v'.
Proof.
  intros Hok [o v2 Hs|v2 Hreuse Hs|k v2 Hs|v2 Hs].
  - pose proof (Start_ok base v Hok) as [L _]. by rewrite Hs in L.
  - pose proof Hok as [Hi Ha Hl Hst].
    destruct (AcceptStep_ok base v Hi (λ _, Hreuse) _ _ Hs) as (Hi' & Hr' & Hl' & Hj & _).
    destruct (srv_running_ v) eqn:Hr.
    + split; [done|by rewrite Hr', Hj|by rewrite Hl', Hr'|congruence].
    + revert Hs. unfold AcceptStep, gets, mbind, M_bind. rewrite (not_joinable _ Ha). by intros [= <-].
  - by eapply RunThread_ok.
  - by eapply (wlp_wp _ _ _ (Stop_spec base v Hok)).
Qed.

(** C21: from its construction on, through any sequence of starts, steps of the
    accept thread, of connections and of stops, in which a descriptor is not
    accepted again before the thread that closed it has forgotten it: the
    active connections are exactly those that a thread will close or forget.
    Stopping always ends, even when peers neither send nor close, since it
    wakes every thread; it leaves no listener, thread or connection, and the
    descriptors that are open are those that were open before the server was
    built.  Starting either succeeds or throws and leaves the same. *)
Theorem server_lifecycle port f net env v0 v :
  RpcServer_new port (Some f) net env = Ret v0 → handler_ok f → rtc srv_step v0 v →
  (∀ fd, fd ∈ srv_active_connections_ v ↔
     srv_accept_thread_ v = Some (AcceptAdded fd) ∨
     (fd, Serving) ∈ srv_client_threads_ v ∨ (fd, Closed) ∈ srv_client_threads_ v) ∧
  (∃ v', Stop v = (Ret tt, v') ∧ srv_clean v' ∧ open_fds (srv_net v') = open_fds net) ∧
  (∃ o v', Start v = (o, v') ∧
     (o = Ret tt ∧ srv_running_ v' = true ∨
      (∃ e, o = Throw e) ∧ srv_clean v' ∧ open_fds (srv_net v') = open_fds net)).
Proof.
  intros Hnew Hf Hsteps. set (base := open_fds net).
  assert (srv_ok base v) as Hok.
  { assert (srv_ok base v0) as Hok0.
    { destruct (new_clean _ _ _ _ _ Hnew) as (Hc & Hn & [= Hh]). apply clean_srv_ok; [by rewrite <- Hh|done|by rewrite Hn]. }
    clear Hnew. clearbody base. induction Hsteps as [|v v1 v2 Hs _ IH]; [done|]. apply IH. by eapply srv_step_ok. }
  split; [|split].
  - intros fd. rewrite (si_active _ _ (so_inv _ _ Hok)). unfold unforgotten, unfinished.
    rewrite elem_of_app, list_elem_of_omap. split.
    + intros [Hfd|([fd' []] & Hin & [= <-])]; [left|by right; left|by right; right].
      destruct (srv_accept_thread_ v) as [[]|]; simpl in Hfd; set_solver.
    + intros [->|[Hin|Hin]]; [left; simpl; set_solver|right; by eexists|right; by eexists].
  - destruct (proj1 (wp_run _ _ _) (Stop_spec base v Hok)) as ([] & v' & Hrun & _ & Hc). by exists v'.
  - pose proof (Start_ok base v Hok) as [Hok' Hcase]. destruct (Start v) as [o v']. cbn in *. exists o, v'.
    split; [done|]. destruct Hcase as [?|[He Hr]]; [by left|right]. split; [done|]. by eapply srv_ok_clean.
Qed.
End lifecycle.

(** ** A server that answers pings *)

(** It counts the requests. *)
Definition ping_handler (m : RpcMessage) : M nat RpcMessage :=
  modify S ;; mret (mkRpcMessage PONG (rpc_term m) 1 []).

Definition ping_server (net : wire) : RpcServer wire nat :=
  mkRpcServer 5000 ping_handler 3 true (Some AcceptTop) [(7, Serving)] {[7]} net 0%nat.

Lemma ping_handler_ok : handler_ok ping_handler.
Proof. intros m h. eexists _, _. by split. Qed.

Lemma handle_connection_correct_witness :
  let request := mkRpcMessage PING 6 2 [] in
  let v := ping_server (mkWire 5 {[7 := rpc_frame request]} ∅ []) in
  ∃ v', HandleConnection 7 v = (Ret tt, v') ∧ srv_env v' = 1%nat ∧
    srv_active_connections_ v' = ∅ ∧
    outgoing (srv_net v') 7 = rpc_frame (mkRpcMessage PONG 6 1 []).
Proof.
  intros request v. destruct (handle_connection_correct 7 v (handler_answers 7 v ping_handler_ok))
    as (v' & Hrun & _ & Hact & Hcase). exists v'. split; [exact Hrun|].
  assert (rpc_wf request ∧ within_limit request) as [Hwf Hlim]
    by (split; apply (bool_decide_unpack _); vm_compute; exact I).
  assert (incoming (srv_net v) 7 = rpc_frame request ++ []) as Hin by (vm_compute; reflexivity).
  assert (usable (srv_net v) 7) as Hus by (vm_compute; reflexivity).
  destruct Hcase as [[_ Hno]|(r & (reply & frame & pre & post & tail & Hh & _ & _ & Hs & Ho & Hp) & Hm)].
  - exfalso. apply Hno. exists request, []. exact (conj Hus (conj Hwf (conj Hlim Hin))).
  - assert (r = request) as -> by exact (Hm _ _ Hus Hwf Hlim Hin).
    pose proof (f_equal (fun p => p.1) Hh) as Hr. pose proof (f_equal (fun p => p.2) Hh) as He.
    vm_compute in Hr, He. injection Hr as <-. rewrite (Hp Hus Hwf), app_nil_r in Hs.
    rewrite SerializeRpcMessage_frame in Hs by (vm_compute; reflexivity). injection Hs as <-.
    split; [exact (eq_sym He)|]. split; [rewrite Hact; apply (bool_decide_unpack _); vm_compute; exact I|].
    exact Ho.
Defined.

(** *** On the concrete kernel *)

(** The server of a process that has three other descriptors open, and the
    connections that are going to arrive. *)
Definition kernel_server (clients : list (bytes * bool)) : RpcServer kernel nat :=
  mkRpcServer 5000 ping_handler (-1) false None [] ∅
    (mkKernel (mkWire 5 ∅ ∅ []) {[0; 1; 2]} ∅ ∅ clients) 0%nat.

(** The states after [Start] and after one turn of the accept thread. *)
Definition started (v : RpcServer kernel nat) : RpcServer kernel nat := snd (Start v).
Definition accept_turn (v : RpcServer kernel nat) : RpcServer kernel nat :=
  let go v := snd (AcceptStep v) in go (go (go (go v))).
Definition thread_turn (k : nat) (v : RpcServer kernel nat) : RpcServer kernel nat :=
  snd (RunThread k v).

Lemma no_reuse_step (v : RpcServer kernel nat) :
  match srv_accept_thread_ v with
  | Some (AcceptGot fd) => bool_decide (fd ∉ srv_active_connections_ v)
  | _ => true
  end = true → fst (AcceptStep v) = Ret tt → srv_step v (snd (AcceptStep v)).
Proof.
  intros Hd Hr. apply SrvAccept.
  - intros fd Hfd. rewrite Hfd in Hd. by eapply bool_decide_eq_true.
  - destruct (AcceptStep v) as [o v']. simpl in *. by subst.
Qed.

(** A peer connects and neither sends nor closes: its thread would wait for
    ever, and [Stop] ends it. *)
Lemma server_lifecycle_witness :
  let v := accept_turn (started (kernel_server [([], true)])) in
  srv_client_threads_ v = [(4, Serving)] ∧ fst (RunThread 0 v) = Diverge ∧
  open_fds (srv_net v) = {[0; 1; 2; 3; 4]} ∧
  ∃ v', Stop v = (Ret tt, v') ∧ srv_clean v' ∧ open_fds (srv_net v') = {[0; 1; 2]}.
Proof.
  intros v. split; [vm_compute; reflexivity|]. split; [vm_compute; reflexivity|].
  split; [apply (bool_decide_unpack _); vm_compute; exact I|].
  destruct (server_lifecycle 5000 ping_handler (srv_net (kernel_server [([], true)])) 0%nat
    (kernel_server [([], true)]) v) as (_ & Hstop & _);
    [reflexivity|exact ping_handler_ok| |exact Hstop].
  unfold v, accept_turn. cbv zeta.
  apply (rtc_l _ _ (started (kernel_server [([], true)]))); [eapply SrvStart; vm_compute; reflexivity|].
  do 4 (eapply rtc_l; [apply no_reuse_step; vm_compute; reflexivity|]). apply rtc_refl.
Defined.

(** What the steps above exclude happens in the program: the first thread
    closes descriptor 4, the accept thread is handed it for a second, silent
    connection and puts it among the active ones, where it still is, and then
    the first thread removes it.  [Stop] does not shut the second connection
    down and waits for its thread for ever. *)
Example reused_descriptor_hangs_stop :
  let ping := rpc_frame (mkRpcMessage PING 6 2 []) in
  let v := accept_turn (started (kernel_server [(ping, false); ([], true)])) in
  let v2 := thread_turn 0 (accept_turn (thread_turn 0 v)) in
  srv_env v2 = 1%nat ∧ srv_client_threads_ v2 = [(4, Finished); (4, Serving)] ∧
  srv_active_connections_ v2 = ∅ ∧ fst (Stop v2) = Diverge.
Proof. vm_compute. split_and!; reflexivity. Qed.
