(* ===== verification/PeerAddress.v ===== *)
(** * Peer addresses (src/raft/raft_node.cpp, ParsePeerAddress)

    [std::to_string] and [std::stoi] on bytes, and the "host:port" addresses of
    a Raft node's peers. *)

From S2P Require Export Bytes.

Local Open Scope Z_scope.

(** ** Decimal numbers *)

Definition digit (d : Z) : byte := byte_of_Z (48 + d).
Definition is_digit (b : byte) : bool := (48 <=? Z_of_byte b) && (Z_of_byte b <=? 57).

Fixpoint decimal (fuel : nat) (n : Z) : bytes :=
  match fuel with
  | O => []
  | S fuel => (if n <? 10 then [] else decimal fuel (n / 10)) ++ [digit (n mod 10)]
  end.

(** [std::to_string] of an [int], which has ten digits at most. *)
Definition to_string (z : Z) : bytes :=
  if z <? 0 then x2d :: decimal 10 (- z) else decimal 10 z.

Definition is_space (b : byte) : bool :=
  bool_decide (b = x20) || ((9 <=? Z_of_byte b) && (Z_of_byte b <=? 13)).

Fixpoint skip_spaces (bs : bytes) : bytes :=
  match bs with
  | b :: bs' => if is_space b then skip_spaces bs' else bs
  | [] => []
  end.

Fixpoint take_digits (bs : bytes) : bytes :=
  match bs with
  | b :: bs => if is_digit b then b :: take_digits bs else []
  | [] => []
  end.

Definition digits_value (ds : bytes) : Z :=
  foldl (λ acc b, 10 * acc + (Z_of_byte b - 48)) 0 ds.

(** [std::stoi]: spaces, a sign, digits; what follows them is ignored. *)
Definition stoi (bs : bytes) : outcome Z :=
  let bs := skip_spaces bs in
  let '(sign, bs) :=
    match bs with
    | x2d :: rest => (-1, rest)
    | x2b :: rest => (1, rest)
    | _ => (1, bs)
    end in
  let ds := take_digits bs in
  if bool_decide (ds = []) then Throw (invalid_argument "stoi") else
  let value := sign * digits_value ds in
  if (value <? - 2 ^ 31) || (2 ^ 31 <=? value) then Throw (out_of_range "stoi") else Ret value.

(** ** Addresses *)

(** [address.rfind(c)] *)
Fixpoint rfind (c : byte) (bs : bytes) : option nat :=
  match bs with
  | [] => None
  | b :: bs =>
      match rfind c bs with
      | Some i => Some (S i)
      | None => if bool_decide (b = c) then Some O else None
      end
  end.

(** The host and the port, or failure; the caller's pointers are not null. *)
Definition ParsePeerAddress (address : bytes) : option (bytes * Z) :=
  match rfind x3a address with
  | None => None
  | Some separator =>
      if bool_decide (separator = 0%nat) || bool_decide ((separator + 1)%nat = length address)
      then None else
      match stoi (drop (separator + 1) address) with
      | Ret parsed_port =>
          if (parsed_port <=? 0) || (65535 <? parsed_port) then None
          else Some (take separator address, parsed_port)
      | _ => None
      end
  end.

(** ** Reading back what was printed *)

Lemma Z_of_digit d : 0 ≤ d < 10 → Z_of_byte (digit d) = 48 + d.
Proof. intros Hd. unfold digit. rewrite Z_of_byte_of_Z, Z.mod_small; lia. Qed.

Lemma is_digit_digit d : 0 ≤ d < 10 → is_digit (digit d) = true.
Proof. intros Hd. unfold is_digit. rewrite Z_of_digit by done. lia. Qed.

Lemma decimal_digits fuel : ∀ n, 0 ≤ n → Forall (λ b, is_digit b = true) (decimal fuel n).
Proof.
  induction fuel as [|fuel IH]; intros n Hn; [constructor|]. cbn [decimal].
  apply Forall_app. split.
  - destruct (n <? 10); [constructor|]. apply IH. by apply Z.div_pos.
  - constructor; [|constructor]. apply is_digit_digit. by apply Z.mod_pos_bound.
Qed.

Lemma digits_value_app l d : digits_value (l ++ [d]) = 10 * digits_value l + (Z_of_byte d - 48).
Proof. unfold digits_value. by rewrite foldl_app. Qed.

Lemma digits_value_decimal fuel : ∀ n,
  0 ≤ n < 10 ^ Z.of_nat fuel → digits_value (decimal fuel n) = n.
Proof.
  induction fuel as [|fuel IH]; intros n Hn; [simpl in *; unfold digits_value; simpl; lia|].
  cbn [decimal]. rewrite digits_value_app, Z_of_digit by (by apply Z.mod_pos_bound).
  pose proof (Z.div_mod n 10 ltac:(lia)). destruct (Z.ltb_spec n 10) as [Hlt|Hge].
  - unfold digits_value. simpl. rewrite Z.mod_small by lia. lia.
  - rewrite IH; [lia|]. rewrite Nat2Z.inj_succ, Z.pow_succ_r in Hn by lia.
    split; [apply Z.div_pos; lia|]. apply Z.div_lt_upper_bound; lia.
Qed.

Lemma take_digits_all ds : Forall (λ b, is_digit b = true) ds → take_digits ds = ds.
Proof. induction 1 as [|b ds Hb _ IH]; simpl; [done|]. by rewrite Hb, IH. Qed.

Lemma digit_not_other b c : is_digit b = true → is_digit c = false → b ≠ c.
Proof. by intros Hb Hc ->; rewrite Hb in Hc. Qed.

Lemma digit_not_space b : is_digit b = true → is_space b = false.
Proof.
  intros Hb. unfold is_space. rewrite bool_decide_false by (by eapply digit_not_other).
  unfold is_digit in Hb. lia.
Qed.

Lemma decimal_nonempty fuel n : decimal (S fuel) n ≠ [].
Proof. cbn [decimal]. intros E%(f_equal length). rewrite length_app in E. simpl in E. lia. Qed.

Lemma stoi_to_string z : 0 ≤ z < 2 ^ 31 → stoi (to_string z) = Ret z.
Proof.
  intros Hz. unfold to_string. destruct (Z.ltb_spec z 0); [lia|].
  pose proof (decimal_digits 10 z ltac:(lia)) as Hds. pose proof (decimal_nonempty 9 z) as Hne.
  pose proof (digits_value_decimal 10 z ltac:(lia)) as Hv.
  destruct (decimal 10 z) as [|b ds]; [done|]. apply Forall_cons in Hds as Hds'. destruct Hds' as [Hb _].
  unfold stoi. cbn [skip_spaces]. rewrite digit_not_space by done.
  assert (∀ (X : Type) (x y w : X), match b with x2d => x | x2b => y | _ => w end = w) as Hsign.
  { intros X x y w. destruct b; done. }
  assert (match b :: ds with x2d :: r => (-1, r) | x2b :: r => (1, r) | _ => (1, b :: ds) end
    = (1, b :: ds)) as -> by (destruct b; done).
  rewrite take_digits_all by done. rewrite bool_decide_false by done. rewrite Hv.
  destruct (_ || _) eqn:E; [lia|]. f_equal. lia.
Qed.

Lemma rfind_none c bs : c ∉ bs → rfind c bs = None.
Proof.
  induction bs as [|b bs IH]; simpl; [done|]. intros [Hne Hin]%not_elem_of_cons.
  rewrite IH by done. by rewrite bool_decide_false.
Qed.

Lemma rfind_app c pre post : c ∉ post → rfind c (pre ++ c :: post) = Some (length pre).
Proof.
  intros Hc. induction pre as [|b pre IH]; simpl.
  - by rewrite rfind_none, bool_decide_true.
  - by rewrite IH.
Qed.

Lemma rfind_Some c bs i : rfind c bs = Some i →
  ∃ pre post, bs = pre ++ c :: post ∧ length pre = i ∧ c ∉ post.
Proof.
  revert i. induction bs as [|b bs IH]; intros i; simpl; [done|].
  destruct (rfind c bs) as [j|] eqn:E.
  - intros [= <-]. destruct (IH j eq_refl) as (pre & post & -> & <- & Hc). by exists (b :: pre), post.
  - case_bool_decide as Hb; [|done]. intros [= <-]. subst b. exists [], bs. split_and!; [done|done|].
    clear IH. induction bs as [|b bs IH]; [apply not_elem_of_nil|]. simpl in E.
    destruct (rfind c bs); [done|]. case_bool_decide; [done|].
    apply not_elem_of_cons. split; [congruence|by apply IH].
Qed.

(** ** Properties *)

(** C39: the address of any non-empty host, colons and all, and any port, as
    it would be printed, is parsed back to them; and whatever is accepted has
    a non-empty host in front of its last colon and a port between 1 and
    65535. *)
Theorem peer_address_roundtrip address host port :
  (address = host ++ [x3a] ++ to_string port → host ≠ [] → 0 < port ≤ 65535 →
   ParsePeerAddress address = Some (host, port)) ∧
  (ParsePeerAddress address = Some (host, port) →
   host ≠ [] ∧ 0 < port ≤ 65535 ∧
   ∃ rest, address = host ++ [x3a] ++ rest ∧ x3a ∉ rest ∧ stoi rest = Ret port).
Proof.
  split.
  - intros -> Hhost Hport. unfold ParsePeerAddress.
    assert (x3a ∉ to_string port) as Hno.
    { unfold to_string. destruct (Z.ltb_spec port 0); [lia|]. intros Hin.
      pose proof (decimal_digits 10 port ltac:(lia)) as Hds. rewrite Forall_forall in Hds.
      by apply Hds in Hin. }
    cbn [app]. rewrite rfind_app by done.
    assert (to_string port ≠ []) as Hne.
    { unfold to_string. destruct (Z.ltb_spec port 0); [lia|apply decimal_nonempty]. }
    rewrite bool_decide_false by (by destruct host).
    rewrite bool_decide_false by (rewrite length_app, length_cons; destruct (to_string port); simpl; [done|lia]).
    cbn [orb]. rewrite drop_app_ge by lia. replace (length host + 1 - length host)%nat with 1%nat by lia.
    change (drop 1 (x3a :: to_string port)) with (to_string port). rewrite stoi_to_string by lia. destruct (_ || _) eqn:E; [lia|].
    by rewrite take_app_length.
  - unfold ParsePeerAddress. destruct (rfind x3a address) as [i|] eqn:Hi; [|done].
    destruct (_ || _) eqn:E; [done|]. apply orb_false_iff in E as [E1 _].
    apply bool_decide_eq_false in E1.
    destruct (stoi _) as [p| | |] eqn:Hs; try done. destruct (_ || _) eqn:Hp; [done|]. intros [= <- <-].
    destruct (rfind_Some _ _ _ Hi) as (pre & post & -> & <- & Hno).
    rewrite take_app_length. rewrite drop_app_ge in Hs by lia.
    replace (length pre + 1 - length pre)%nat with 1%nat in Hs by lia. change (drop 1 (x3a :: post)) with post in Hs.
    split_and!; [by destruct pre|lia|lia|]. by exists post.
Qed.

(** Text behind the digits of a port is ignored: "h:80x" names port 80. *)
Theorem peer_address_trailing_text :
  ParsePeerAddress [x68; x3a; x38; x30; x78] = Some ([x68], 80) ∧
  to_string 80 = [x38; x30].
Proof. split; vm_compute; reflexivity. Qed.

Lemma peer_address_roundtrip_witness :
  ParsePeerAddress [x3a; x3a; x31; x3a; x37; x30; x30; x30] = Some ([x3a; x3a; x31], 7000).
Proof. apply (peer_address_roundtrip _ [x3a; x3a; x31] 7000); [reflexivity|done|lia]. Defined.
