(* ===== verification/RpcClient.v ===== *)
(** * The RPC client (src/rpc/rpc_client.{h,cpp})

    One call: resolve, connect to the first address that accepts, send the
    request, read the reply.  The three helper functions of the file are those
    of the server's. *)

From S2P Require Export RpcServer PeerAddress.

Local Open Scope Z_scope.

Section RpcClient.
Context {N A : Type} `{Sockets N A}.

Definition ClientSendAll : Z → bytes → M N bool := SendAll.
Definition ClientReceiveAll : Z → Z → M N (bool * bytes) := ReceiveAll.
Definition ClientReceiveMessage : Z → RpcMessage → M N (bool * RpcMessage) := ReceiveMessage.

Definition WaitForWritable (fd timeout_ms : Z) : M N bool :=
  FD_SET fd ;;
  '(ready, is_set) ← os (os_select_write fd timeout_ms);
  mret ((0 <? ready) && is_set).

(** [close(socket_fd); socket_fd = -1]. *)
Definition GiveUp (fd : Z) : M N Z := _ ← os (os_close fd); mret (-1).

Definition O_NONBLOCK : Z := 2048.

(** One address: the connected descriptor, or a negative number. *)
Definition TryAddress (address : A) (timeout_ms : Z) : M N Z :=
  socket_fd ← os (os_socket_for address);
  if socket_fd <? 0 then mret socket_fd else
  flags ← os (os_getfl socket_fd);
  nonblocking ← (if flags <? 0 then mret (-1) else
                   os (os_setfl socket_fd (Z.lor flags O_NONBLOCK)));
  if nonblocking <? 0 then GiveUp socket_fd else
  result ← os (os_connect socket_fd address);
  connecting ← (if result =? 0 then mret true else
                  in_progress ← gets os_in_progress;
                  if in_progress : bool then WaitForWritable socket_fd timeout_ms else mret false);
  if negb connecting then GiveUp socket_fd else
  '(queried, connection_error) ← os (os_so_error socket_fd);
  restored ← (if negb (queried =? 0) || negb (connection_error =? 0) then mret (-1) else
                os (os_setfl socket_fd flags));
  if restored <? 0 then GiveUp socket_fd else mret socket_fd.

(** The loop over the resolved addresses. *)
Fixpoint ConnectLoop (addresses : list A) (timeout_ms socket_fd : Z) : M N Z :=
  match addresses with
  | [] => mret socket_fd
  | address :: addresses =>
      socket_fd ← TryAddress address timeout_ms;
      if socket_fd <? 0 then ConnectLoop addresses timeout_ms socket_fd else mret socket_fd
  end.

(** The result and the object behind [out_reply]; [None] is a null pointer. *)
Definition SendMessage (host : bytes) (port : Z) (message : RpcMessage)
    (out_reply : option RpcMessage) (timeout_ms : Z) : M N (bool * option RpcMessage) :=
  match out_reply with
  | None => mret (false, None)
  | Some reply0 =>
      if (port <=? 0) || (65535 <? port) || (timeout_ms <? 0) then mret (false, out_reply) else
      resolved ← os (os_getaddrinfo host (to_string port));
      match resolved with
      | None => mret (false, out_reply)
      | Some addresses =>
          socket_fd ← ConnectLoop addresses timeout_ms (-1);
          if socket_fd <? 0 then mret (false, out_reply) else
          modify (os_set_timeouts socket_fd timeout_ms) ;;
          bytes ← lift (SerializeRpcMessage message);
          sent ← ClientSendAll socket_fd bytes;
          '(success, reply) ← (if sent : bool then ClientReceiveMessage socket_fd reply0
                               else mret (false, reply0));
          _ ← os (os_shutdown socket_fd);
          _ ← os (os_close socket_fd);
          mret (success, Some reply)
      end
  end.
End RpcClient.

Section client_spec.
Context {N A : Type} `{SocketLaws N A}.
Implicit Types s : N.

(** The descriptor on which [SendMessage] talks, and the state in which it
    starts to. *)
Definition connects (host : bytes) (port timeout_ms : Z) s (fd : Z) s1 : Prop :=
  0 < port ≤ 65535 ∧ 0 ≤ timeout_ms ∧ 0 ≤ fd ∧
  ∃ addresses s0, os_getaddrinfo host (to_string port) s = (Some addresses, s0) ∧
    ConnectLoop addresses timeout_ms (-1) s0 = (Ret fd, s1).

Lemma SendMessage_spec host port message reply0 timeout_ms s fd s1 :
  connects host port timeout_ms s fd s1 → 13 + Z.of_nat (length (rpc_payload message)) < 2 ^ 32 →
  wp (SendMessage host port message (Some reply0) timeout_ms) s (λ '(ok, r) s', ∃ reply,
    r = Some reply ∧
    (∃ pre post, rpc_frame message = pre ++ post ∧ outgoing s' fd = outgoing s1 fd ++ pre ∧
       (ok = true → post = []) ∧ (usable s1 fd → post = [])) ∧
    (ok = true → ∃ frame tail, SerializeRpcMessage reply = Ret frame ∧
       incoming s1 fd = frame ++ tail) ∧
    (∀ m0 rest, usable s1 fd → incoming s1 fd = rpc_frame m0 ++ rest → rpc_wf m0 →
       (within_limit m0 → ok = true ∧ reply = m0) ∧ (¬ within_limit m0 → ok = false))).
Proof.
  intros (Hport & Htime & Hfd & addresses & s0 & Hres & Hconn) Hlen. unfold SendMessage.
  destruct (_ || _) eqn:Hc; [lia|]. clear Hc. wp_step. eapply wp_eq; [unfold os; by rewrite Hres|].
  cbn beta iota. wp_step. eapply wp_eq; [exact Hconn|].
  destruct (Z.ltb_spec fd 0) as [?|_]; [lia|]. wp_steps.
  rewrite SerializeRpcMessage_frame by done. wp_steps.
  destruct (timeouts_law fd timeout_ms s1) as (Ti & To & Tu).
  set (s2 := os_set_timeouts fd timeout_ms s1) in *.
  wp_call SendAll_spec. intros sent s3 (pre & post & Hd & (Ho3 & Hi3 & _) & Hsent & Hu3). wp_step.
  apply (wp_mono _ _ (λ '(ok, reply) s', outgoing s' = outgoing s3 ∧
    (ok = true → sent = true ∧ ∃ frame tail, SerializeRpcMessage reply = Ret frame ∧
       incoming s1 fd = frame ++ tail) ∧
    (∀ m0 rest, usable s1 fd → incoming s1 fd = rpc_frame m0 ++ rest → rpc_wf m0 →
       (within_limit m0 → ok = true ∧ reply = m0) ∧ (¬ within_limit m0 → ok = false)))).
  - destruct sent.
    + wp_call ReceiveMessage_spec. intros [ok reply] s4 (consumed & (Hi4 & Ho4 & _) & _ & Hser & Hf).
      split; [done|]. split.
      * intros Hok. split; [done|]. exists consumed, (incoming s4 fd). split; [by apply Hser|].
        by rewrite <- Ti, <- Hi3.
      * intros m0 rest Hu Hin Hwf. destruct (Hf m0 rest) as [F1 F2].
        -- by apply Hu3, Tu.
        -- by rewrite Hi3, Ti.
        -- done.
        -- split; [|done]. intros Hl. by destruct (F1 Hl) as (-> & -> & _).
    + wp_steps. split; [done|]. split; [done|]. intros m0 rest Hu _ _.
      destruct (Hu3 (Tu Hu)) as [Hp _]. by apply Hsent in Hp.
  - intros [ok reply] s4 (Ho4 & Hser & Hf). wp_step. apply wp_os. intros r5 s5 E5. wp_step.
    apply wp_os. intros r6 s6 E6. wp_steps. exists reply. split; [done|]. split_and!; [|by intros; apply Hser|done].
    exists pre, post. pose proof (shutdown_law fd s4) as L5. rewrite E5 in L5.
    pose proof (close_law fd s5) as L6. rewrite E6 in L6. simpl in *.
    split_and!; [done|congruence| |].
    + intros Hok. destruct (Hser Hok) as [Hs _]. by apply Hsent.
    + intros Hu. by apply Hu3, Tu.
Qed.
End client_spec.

(** A call and the thread that serves it, over a connection without errors
    that carries bytes in pieces of any size: the handler of the server runs
    exactly once, on the client's message, the client has sent that message
    and nothing else, and it returns the handler's reply if this is within the
    limit that only receivers check; a longer reply is sent and then refused,
    after the handler has run. *)
Lemma rpc_round_trip {N A N' A' H} `{SocketLaws N A} `{SocketLaws N' A'}
    host port message reply0 timeout_ms (s : N) fd s1 (v : RpcServer N' H) fd' v' bs reply h :
  connects host port timeout_ms s fd s1 → usable s1 fd →
  rpc_wf message → within_limit message → SerializeRpcMessage message = Ret bs →
  srv_handler_ v message (srv_env v) = (Ret reply, h) →
  13 + Z.of_nat (length (rpc_payload reply)) < 2 ^ 32 →
  usable (srv_net v) fd' → incoming (srv_net v) fd' = bs →
  HandleConnection fd' v = (Ret tt, v') →
  outgoing (srv_net v') fd' = outgoing (srv_net v) fd' ++ incoming s1 fd →
  ∃ ok r s', srv_env v' = h ∧
    SendMessage host port message (Some reply0) timeout_ms s = (Ret (ok, Some r), s') ∧
    outgoing s' fd = outgoing s1 fd ++ bs ∧
    (rpc_wf reply → (within_limit reply → ok = true ∧ r = reply) ∧ (¬ within_limit reply → ok = false)).
Proof.
  intros Hconn Hu Hwf Hlim Hser Hrep Hlen Hu' Hin Hrun Hout.
  rewrite SerializeRpcMessage_frame in Hser by apply Hwf. injection Hser as <-.
  assert (incoming (srv_net v) fd' = rpc_frame message ++ []) as Hin' by (by rewrite app_nil_r).
  assert (answers fd' v) as Hans.
  { intros m s' Hm. pose proof (wlp_wp _ _ _ (ReceiveMessage_spec fd' RpcMessage_init (srv_net v)) _ _ Hm)
      as (consumed & _ & _ & _ & Hf). destruct (Hf message []) as [Hf1 _]; try done.
    destruct (Hf1 Hlim) as (_ & -> & _). by exists reply, h. }
  destruct (proj1 (wp_run _ _ _) (HandleConnection_spec fd' v Hans)) as ([] & v2 & Hrun2 & _ & _ & Hcase).
  rewrite Hrun in Hrun2. injection Hrun2 as <-.
  destruct Hcase as [[_ Hno]|(request & Hs & Hm)].
  { exfalso. apply Hno. by exists message, []. }
  rewrite (Hm _ _ Hu' Hwf Hlim Hin') in Hs. clear Hm request.
  destruct Hs as (reply' & frame & pre & post & tail & Hrep' & _ & _ & Hsr & Ho & Hpost).
  rewrite Hrep in Hrep'. injection Hrep' as <- ->.
  rewrite (Hpost Hu' Hwf), app_nil_r in Hsr. rewrite Ho in Hout. apply app_inv_head in Hout as ->.
  rewrite SerializeRpcMessage_frame in Hsr by done. injection Hsr as Hfr.
  destruct (proj1 (wp_run _ _ _) (SendMessage_spec host port message reply0 timeout_ms s fd s1 Hconn
    (proj2 (proj2 Hwf)))) as ([ok r] & s' & Hsend & r' & -> & (p & q & Hpq & Hop & _ & Hq) & _ & Hread).
  exists ok, r', s'. split; [done|]. split; [done|]. split.
  - rewrite (Hq Hu), app_nil_r in Hpq. by rewrite Hpq.
  - intros Hwr. apply (Hread reply []); [done|by rewrite app_nil_r|done].
Qed.

(** A ping over pieces of four bytes, one way, and five, the other. *)
Example ping_pong :
  let ping := mkRpcMessage PING 6 2 [] in
  let pong := mkRpcMessage PONG 6 1 [] in
  let s := mkWire 4 {[7 := rpc_frame pong]} ∅ [] in
  let v := ping_server (mkWire 5 {[7 := rpc_frame ping]} ∅ []) in
  ∃ ok r s', srv_env (snd (HandleConnection 7 v)) = 1%nat ∧
    SendMessage [x68] 5000 ping (Some RpcMessage_init) 50 s = (Ret (ok, Some r), s') ∧
    outgoing s' 7 = outgoing s 7 ++ rpc_frame ping ∧
    (rpc_wf pong → (within_limit pong → ok = true ∧ r = pong) ∧ (¬ within_limit pong → ok = false)).
Proof.
  intros ping pong s v.
  apply (rpc_round_trip [x68] 5000 ping RpcMessage_init 50 s 7 s v 7 (snd (HandleConnection 7 v)) (rpc_frame ping) pong).
  - split; [done|]. split; [done|]. split; [done|]. exists [7], s. split; [vm_compute|]; reflexivity.
  - vm_compute. reflexivity.
  - apply (bool_decide_unpack _). vm_compute. exact I.
  - apply (bool_decide_unpack _). vm_compute. exact I.
  - vm_compute. reflexivity.
  - vm_compute. reflexivity.
  - vm_compute. reflexivity.
  - vm_compute. reflexivity.
  - vm_compute. reflexivity.
  - vm_compute. reflexivity.
  - vm_compute. reflexivity.
Qed.
