(* ===== verification/RaftRpc.v ===== *)
(** * Raft calls over the RPC transport (src/raft/raft_node.cpp)

    The threads a node spawns for its calls, over the client, the server whose
    handler is a node's [HandleMessage], and the sockets between them.  Such a
    call has the effect of the two events by which the cluster model delivers
    a call and its reply. *)

From S2P Require Export RpcClient RaftElection.

Local Open Scope Z_scope.

Section RaftRpc.
Context {E N A : Type} `{Sockets N A}.
Notation Node := (RaftNode E).

Definition kRpcTimeoutMs : Z := 100.

Definition call_address (c : RpcCall) : bytes :=
  match c with VoteCall _ a _ _ | AppendCall _ a _ _ => a end.

(** The body of an RPC thread, on the node and the network. *)
Definition RpcThread (c : RpcCall) : M (Node * N) unit :=
  match ParsePeerAddress (call_address c) with
  | None => mret tt
  | Some (host, port) =>
      '(ok, reply) ← zoom snd (λ net s, (fst s, net))
        (SendMessage host port (call_request c) (Some RpcMessage_init) kRpcTimeoutMs);
      when ok (zoom fst (λ n s, (n, snd s)) (HandleReply c (default RpcMessage_init reply)))
  end.

(** ** The vector of threads *)

(** The node, the network, and [rpc_threads_]: the call of each thread and
    whether it has finished. *)
Record process := mkProcess {
  pr_node : Node;
  pr_net : N;
  rpc_threads_ : list (RpcCall * bool);
}.

Definition pr_set_threads (ts : list (RpcCall * bool)) (p : process) : process :=
  mkProcess (pr_node p) (pr_net p) ts.
Definition on_node_net {R} (m : M (Node * N) R) : M process R :=
  zoom (λ p, (pr_node p, pr_net p)) (λ s p, mkProcess (fst s) (snd s) (rpc_threads_ p)) m.

Definition ReapRpcThreadsLocked : M process unit :=
  modify (λ p, pr_set_threads (filter (λ t, snd t = false) (rpc_threads_ p)) p).

(** The end of [StartElection] and of [SendHeartbeats]. *)
Definition SpawnRpcThreads (calls : list RpcCall) : M process unit :=
  running ← gets (λ p, running_ (pr_node p));
  if negb running then mret tt else
  ReapRpcThreadsLocked ;;
  modify (λ p, pr_set_threads (rpc_threads_ p ++ ((λ c, (c, false)) <$> calls)) p).

(** A thread that has not finished does so before it is joined. *)
Definition JoinRpcThreads : M process unit :=
  threads ← gets rpc_threads_;
  modify (pr_set_threads []) ;;
  for_each threads (λ t, when (negb (snd t)) (on_node_net (RpcThread (fst t)))).

Definition StopProcess : M process unit :=
  on_node_net (zoom fst (λ n s, (n, snd s)) Stop) ;;
  JoinRpcThreads.

Lemma HandleReply_stopped c r (n : Node) :
  running_ n = false → wlp (HandleReply c r) n (λ _ n', n' = n).
Proof.
  intros Hr. destruct c; cbn [HandleReply]; [unfold HandleVoteReply|unfold HandleAppendEntriesReply];
    wlp_steps; unfold id; rewrite Hr; cbn [negb orb]; by wlp_steps.
Qed.

Lemma RpcThread_stopped c (n : Node) (s : N) :
  running_ n = false → wlp (RpcThread c) (n, s) (λ _ s', fst s' = n).
Proof.
  intros Hr. unfold RpcThread. destruct (ParsePeerAddress _) as [[host port]|]; [|by wlp_steps].
  wlp_steps. apply wlp_zoom. intros [ok reply] net. cbn [fst]. destruct ok; cbn [when]; [|by wlp_steps].
  intros a s'. unfold zoom. cbn [fst].
  destruct (HandleReply c (default RpcMessage_init reply) n) as [o n'] eqn:Er. intros [= -> <-].
  destruct a. by apply (HandleReply_stopped _ _ _ Hr _ _ Er).
Qed.

(** Stopping a node waits for its calls, whose replies no longer matter: only
    the flag changes. *)
Lemma StopProcess_quiet p :
  wlp StopProcess p (λ _ p', pr_node p' = node_set_running false (pr_node p) ∧ rpc_threads_ p' = []).
Proof.
  unfold StopProcess, JoinRpcThreads. apply wlp_bind. intros [] p1. unfold on_node_net, zoom. cbn.
  intros [= <-]. cbn. wlp_steps. set (n := node_set_running false (pr_node p)).
  assert (∀ ts (p2 : process), pr_node p2 = n → rpc_threads_ p2 = [] →
    wlp (for_each ts (λ t, when (negb (snd t)) (on_node_net (RpcThread (fst t))))) p2
      (λ _ p', pr_node p' = n ∧ rpc_threads_ p' = [])) as Hloop; [|by apply Hloop].
  induction ts as [|[c fin] ts IH]; intros p2 Hn Ht; cbn [for_each]; [by wlp_steps|].
  apply wlp_bind. cbn [fst snd]. destruct fin; cbn [negb when]; [wlp_steps; by apply IH|].
  intros [] p3. unfold on_node_net, zoom.
  destruct (RpcThread c (pr_node p2, pr_net p2)) as [o s'] eqn:Er. intros [= -> <-].
  apply IH; [|done]. cbn. rewrite Hn in Er. exact (RpcThread_stopped c n (pr_net p2) eq_refl _ _ Er).
Qed.
End RaftRpc.

(** C6: a call of node [i] that reaches its peer over a connection without
    errors, in pieces of any size, and is served by the peer's server changes
    the two nodes as the events [EvDeliver] and [EvReply] of the cluster
    do. *)
Theorem rpc_thread_refines {E N A N' A'} `{SocketLaws N A} `{SocketLaws N' A'}
    (w : world (E := E)) i k c n m r m' n' host port (s : N) fd s1
    (v : RpcServer N' (RaftNode E)) fd' v' bs :
  w_calls w !! k = Some (i, c) → w_nodes w !! i = Some n →
  w_nodes w !! call_peer c = Some m → i ≠ call_peer c →
  ParsePeerAddress (call_address c) = Some (host, port) →
  connects host port kRpcTimeoutMs s fd s1 → usable s1 fd →
  rpc_wf (call_request c) → within_limit (call_request c) →
  SerializeRpcMessage (call_request c) = Ret bs →
  srv_handler_ v = HandleMessage → srv_env v = m →
  usable (srv_net v) fd' → incoming (srv_net v) fd' = bs →
  HandleConnection fd' v = (Ret tt, v') →
  outgoing (srv_net v') fd' = outgoing (srv_net v) fd' ++ incoming s1 fd →
  HandleMessage (call_request c) m = (Ret r, m') → rpc_wf r → within_limit r →
  HandleReply c r n = (Ret tt, n') →
  srv_env v' = m' ∧ (∃ s', RpcThread c (n, s) = (Ret tt, (n', s'))) ∧
  ∃ w', run_events [EvDeliver k; EvReply (length (w_replies w))] w = Some w' ∧
    w_nodes w' = <[i := n']> (<[call_peer c := m']> (w_nodes w)).
Proof.
  intros Hk Hi Hj Hne Haddr Hconn Hu Hwf Hlim Hser Hh Henv Hu' Hin Hrun Hout Hm Hwr Hlr Hr.
  destruct (rpc_round_trip host port (call_request c) RpcMessage_init kRpcTimeoutMs s fd s1 v fd' v'
    bs r m') as (ok & r' & s' & He & Hsend & _ & Hok); try done.
  { by rewrite Hh, Henv. }
  { apply Hwr. }
  destruct (Hok Hwr) as [Hin' _]. destruct (Hin' Hlr) as [-> ->].
  split; [done|]. split.
  - exists s'. unfold RpcThread. rewrite Haddr.
    rewrite (bind_ret _ _ _ (true, Some r) (n, s')).
    2: { unfold zoom. cbn [snd]. by rewrite Hsend. }
    cbn [when default]. unfold zoom, id. cbn [fst]. by rewrite Hr.
  - eexists. cbn [run_events run_event]. split.
    + rewrite Hk. simpl. rewrite Hj. simpl. rewrite Hm. simpl.
      rewrite list_lookup_middle by done. simpl. rewrite lookup_insert_ne by done. rewrite Hi. simpl.
      by rewrite Hr.
    + done.
Qed.

(** Node 1 of the trio asks node 2, at "h:1", for its vote. *)
Definition vote_world : world :=
  default trio_world (run_events (trio_start ++ trio_timeout 1 300) trio_world).
Definition vote_call : RpcCall := VoteCall 2 [x68; x3a; x31] (mkRpcMessage REQUEST_VOTE 1 1 []) 1.
Definition vote_reply : RpcMessage := mkRpcMessage REQUEST_VOTE_REPLY 1 2 [x31].
Definition node_of (i : Z) (w : world) : RaftNode (list (bytes * Z)) :=
  default (trio_node i) (w_nodes w !! i).
Definition vote_server : RpcServer wire (RaftNode (list (bytes * Z))) :=
  mkRpcServer 1 HandleMessage 3 true (Some AcceptTop) [(7, Serving)] {[7]}
    (mkWire 6 {[7 := rpc_frame (call_request vote_call)]} ∅ []) (node_of 2 vote_world).
Definition vote_client_net : wire := mkWire 3 {[7 := rpc_frame vote_reply]} ∅ [].

Lemma run_snd {S R} (m : M S R) s a : fst (m s) = Ret a → m s = (Ret a, snd (m s)).
Proof. destruct (m s) as [o s']. by intros [= ->]. Qed.

Lemma rpc_thread_refines_witness :
  let n' := snd (HandleReply vote_call vote_reply (node_of 1 vote_world)) in
  let m' := snd (HandleMessage (call_request vote_call) (node_of 2 vote_world)) in
  state_ n' = RaftState.LEADER ∧ srv_env (snd (HandleConnection 7 vote_server)) = m' ∧
  (∃ s', RpcThread vote_call (node_of 1 vote_world, vote_client_net) = (Ret tt, (n', s'))) ∧
  ∃ w', run_events [EvDeliver 0; EvReply 0] vote_world = Some w' ∧
    w_nodes w' = <[1 := n']> (<[2 := m']> (w_nodes vote_world)).
Proof.
  intros n' m'. split; [vm_compute; reflexivity|].
  apply (rpc_thread_refines vote_world 1 0 vote_call (node_of 1 vote_world) (node_of 2 vote_world)
    vote_reply m' n' [x68] 1 vote_client_net 7 vote_client_net vote_server 7
    (snd (HandleConnection 7 vote_server)) (rpc_frame (call_request vote_call))).
  1-3: vm_compute; reflexivity.
  - by vm_compute.
  - vm_compute. reflexivity.
  - split; [done|]. split; [done|]. split; [done|]. exists [7], vote_client_net.
    split; vm_compute; reflexivity.
  - vm_compute. reflexivity.
  - apply (bool_decide_unpack _). vm_compute. exact I.
  - apply (bool_decide_unpack _). vm_compute. exact I.
  - vm_compute. reflexivity.
  - reflexivity.
  - reflexivity.
  - vm_compute. reflexivity.
  - vm_compute. reflexivity.
  - apply (run_snd (HandleConnection 7)). vm_compute. reflexivity.
  - vm_compute. reflexivity.
  - apply (run_snd (HandleMessage _) _ vote_reply). vm_compute. reflexivity.
  - apply (bool_decide_unpack _). vm_compute. exact I.
  - apply (bool_decide_unpack _). vm_compute. exact I.
  - apply (run_snd (HandleReply vote_call vote_reply) _ tt). vm_compute. reflexivity.
Defined.
