(* ===== verification/Main.v ===== *)
(** * The demonstration program (src/main.cpp)

    It opens the backing file, writes a greeting into a new page and prints
    what it reads back. *)

From S2P Require Export DiskManager Record.

Local Open Scope Z_scope.

(** The array [message], its final zero included. *)
Definition message : bytes := String.list_byte_of_string "Hello from QuorumDB" ++ [x00].

(** [memcpy] into the memory of a page. *)
Definition copy_to_page (data : bytes) (page : Page) : Page :=
  mkPage (data ++ drop (length data) (page_data page)) (page_id_ page).

(** What [main] prints, after the disk manager was made. *)
Definition main_body : M DiskManager bytes :=
  id ← AllocatePage;
  let page := copy_to_page message (SetPageId id Page_new) in
  WritePage (page_id_ page) (Some (page_data page)) ;;
  data ← ReadPage (page_id_ page) (Some (page_data Page_new));
  mret (c_string data ++ [x0a]).

(** [f]: the file after [OpenFile].  The result is the output and the file. *)
Definition main (f : fstream) : outcome (bytes * bytes) :=
  match DiskManager_new f with
  | Ret d =>
      match main_body d with
      | (Ret output, d') => Ret (output, contents (file_ d'))
      | (Throw e, _) => Throw e
      | (Undef, _) => Undef
      | (Diverge, _) => Diverge
      end
  | Throw e => Throw e
  | Undef => Undef
  | Diverge => Diverge
  end.

Lemma greeting_page id : length (page_data (copy_to_page message (SetPageId id Page_new))) = PAGE_SIZE.
Proof.
  pose proof PAGE_SIZE_eq. assert (length message = 20%nat) as Hm by done.
  unfold copy_to_page, SetPageId, Page_new. cbn [page_data]. rewrite length_app, length_drop, length_zero_page, Hm. lia.
Qed.

(** On any file whose stream works and that leaves room for a page id, the
    program prints the greeting and a newline, and every whole page the file
    had is still there. *)
Theorem main_greets f :
  tell_ok f = true → read_ok f = true → write_ok f = true →
  Z.of_nat (length (contents f)) / Z.of_nat PAGE_SIZE < int32_max →
  ∃ out, main f = Ret (String.list_byte_of_string "Hello from QuorumDB" ++ [x0a], out) ∧
    ∀ p, (p < length (contents f) / PAGE_SIZE)%nat → file_page out p = file_page (contents f) p.
Proof.
  intros Ht Hr Hw Hroom. set (n := Z.of_nat (length (contents f)) / Z.of_nat PAGE_SIZE) in *.
  assert (0 ≤ n) as Hn by (apply Z.div_pos; pose proof PAGE_SIZE_pos; lia).
  unfold main, DiskManager_new, GetFileSizeUnlocked. cbn [file_]. rewrite Ht. fold n.
  rewrite to_signed_small by (unfold in_signed, int32_max in *; lia).
  set (d := mkDisk _ _ _ _).
  set (page := copy_to_page message (SetPageId n Page_new)).
  assert (main_body d = (Ret (c_string (page_data page) ++ [x0a]),
    written n (page_data page) (mkDisk f (n + 1) [] 0))) as ->.
  { unfold main_body. rewrite (bind_ret _ _ _ n (mkDisk f (n + 1) [] 0)).
    2: { unfold AllocatePage. cbn [last free_list_ d next_page_id_].
         destruct (Z.eqb_spec n int32_max); [lia|done]. }
    cbv zeta. fold page. change (page_id_ page) with n.
    rewrite (bind_ret _ _ _ tt (written n (page_data page) (mkDisk f (n + 1) [] 0))) by
      (by apply WritePage_spec).
    rewrite (bind_ret _ _ _ (page_data page) (written n (page_data page) (mkDisk f (n + 1) [] 0))).
    2: { rewrite ReadPage_spec by done. by rewrite disk_page_written_eq by apply greeting_page. }
    done. }
  eexists. split; [reflexivity|]. intros p Hp.
  pose proof (disk_page_written_ne (mkDisk f (n + 1) [] 0) n (Z.of_nat p) (page_data page)
    (greeting_page n) Hn ltac:(lia)) as Hne.
  unfold disk_page in Hne. rewrite Nat2Z.id in Hne. apply Hne.
  subst n. rewrite <- Nat2Z.inj_div. lia.
Qed.

Lemma main_greets_witness :
  ∃ out, main (mkFile [] true true true) =
    Ret (String.list_byte_of_string "Hello from QuorumDB" ++ [x0a], out) ∧
    ∀ p, (p < length (contents (mkFile [] true true true)) / PAGE_SIZE)%nat →
      file_page out p = file_page [] p.
Proof. by apply (main_greets (mkFile [] true true true)). Defined.
